(* ===== verification/_CoqProject ===== *)
-Q . S2P
Prelude.v
Search.v
Codec.v
Changeset.v
ChangesetRefine.v
Overlay.v
OverlayProofs.v
Arith128.v
BigUint.v
BigUintProofs.v
BigUintDiv.v
Rational.v
Traits.v
PerThing.v
Weights.v
Normalize.v
FixedPoint.v
Segment.v
SegmentProofs.v
Descendants.v
ParaSystem.v
ParaSystemProofs.v
XcmpQueue.v
XcmpQueueProofs.v
MqPage.v
MessageQueue.v
MqRing.v
MqInv.v
MqService.v
MqFootprint.v
MqProofs.v
XcmpInbound.v
XcmpInboundProofs.v
XcmpMq.v
XcmpPath.v
Inherent.v
InherentProofs.v
InherentCreate.v
InherentPath.v
InherentChain.v
InherentXcmp.v
