(* ===== verification/Prelude.v ===== *)
(** * Verification of parts of the polkadot-sdk

    The development models four systems of the repository and proves them correct:
    the transactional storage overlay every runtime executes on, the fixed width
    arithmetic that runtimes compute weights and shares with, the path of messages
    into, through and out of a parachain, and the message queue pallet.  Paths
    below are relative to [src/].

    ** The program

    - Storage.  A runtime writes into [OverlayedChanges]
      (substrate/primitives/state-machine/src/overlayed_changes), change sets with
      nested transactions over a backend; the client opens transactions around the
      calls of a runtime, and the runtime must not close those.
    - Arithmetic (substrate/primitives/arithmetic, substrate/primitives/weights).
      Wide multiplication and division, unlimited integers, rationals, parts per
      thing, fixed point numbers, weights with their meter, normalization.
    - Messages of a parachain (cumulus).  The parachain system pallet takes the
      inherent of a block: it checks the messages a collator provides against the
      hash chains of the relay chain, hands downward messages to a queue and
      horizontal messages to the XCMP queue pallet, keeps track of the blocks the
      relay chain has not included yet, and on finalization sends what fits.  The
      XCMP queue keeps the outgoing pages per channel, decodes incoming pages, and
      enqueues their messages in the message queue pallet, which services them
      within the weight of a block and tells the XCMP queue when a queue grows.

    ** Files

    - [Prelude], [Search], [Codec]: outcomes of Rust functions ([Ok], [Err],
      [Panic]), machine integers, loops with fuel, binary search of the standard
      library, SCALE integers.
    - [Changeset] models [changeset.rs]; [ChangesetRefine] gives the abstract
      machine, a stack of maps, and the refinement, through the class [EntryModel]
      that the two kinds of values instantiate.  [Overlay] models [mod.rs] and
      [offchain.rs] of the same directory; [OverlayProofs] has its properties.
    - [Arith128] models [helpers_128bit.rs]; [BigUint], [BigUintProofs] and
      [BigUintDiv] model [biguint.rs]; [Rational] [rational.rs]; [Traits]
      [traits.rs]; [PerThing] [per_things.rs]; [Normalize] [lib.rs]; [FixedPoint]
      [fixed_point.rs], all of substrate/primitives/arithmetic/src; [Weights]
      models substrate/primitives/weights/src.
    - [Segment] and [SegmentProofs]: [unincluded_segment.rs] and
      [consensus_hook.rs] of cumulus/pallets/parachain-system/src.  [Descendants]:
      [descendant_validation.rs], with headers and seals behind the class
      [RelayHeaders].  [ParaSystem] and [ParaSystemProofs]: the blocks of the pallet
      in [lib.rs], the checks of the inherent included, with the source of
      horizontal messages behind the class [XcmpMessageSource].
    - [XcmpQueue] and [XcmpQueueProofs]: the outgoing channels of
      cumulus/pallets/xcmp-queue/src/lib.rs; [XcmpQueueProofs] shows that the queue
      keeps the laws of [XcmpMessageSource].
    - [MqPage], [MessageQueue]: substrate/frame/message-queue/src/lib.rs.  [MqRing],
      [MqInv], [MqService], [MqFootprint], [MqProofs]: its ready ring, invariant,
      servicing loops, footprints and theorems.
    - [XcmpInbound] and [XcmpInboundProofs]: the incoming pages of the XCMP queue,
      with the queue for messages behind [InboundConfig] and [SinkLaws]; [XcmpMq]
      discharges these laws for the message queue; [XcmpPath] joins the sending and
      the receiving chain.
    - [Inherent]: [parachain_inherent.rs], the hash chains of
      cumulus/primitives/parachain-inherent/src/lib.rs and the functions of
      parachain-system/src/lib.rs that select and enqueue inbound messages, with
      the queues behind [InboundHandlers].  [InherentProofs] shows what a block of
      any collator does, [InherentCreate] what [do_create_inherent] selects,
      [InherentPath] that it is accepted, [InherentChain] the chain of blocks, and
      [InherentXcmp] the composition with the XCMP queue.

    Storage items are the fields of records, calls and hooks are functions of the
    storage with the names of the source; a name that two files share is qualified
    by the file or the module.  Integers are [Z] with their width in the
    operations; plain [+], [-] and [*] wrap as in a release build, [usize] has 64
    bits, debug assertions and [defensive!] are compiled out or return.  Panics are
    [Panic] or [None].  [BTreeMap]s are finite maps iterated in the order of the
    keys, hash sets finite sets.

    ** What the theorems show

    - The change set, over any sequence of operations with errors and panics,
      behaves as a stack of maps, append optimisation included; a client's rollback
      undoes the runtime's work whatever the runtime left open; the change sets of
      an overlay stay in lockstep; the cached storage root is that of the current
      values.
    - The arithmetic routines compute the exact result, rounded as the theorem
      states, or report that it does not fit; loops end; orders and conversions
      agree with those of the integers and rationals; normalization reaches its
      target or tells why it cannot, and moves elements in its direction only; a
      meter stays within its limit as long as its user asks before a plain
      [consume].
    - The segment tracker is the exact sum of its blocks; blocks keep the
      invariant; the inherent accepts exactly the data it should, and drops the
      included blocks; finalization does not panic and what it sends fits, if the
      relay chain has room for what the segment sent before; with the XCMP queue
      below it, it panics exactly when a notification is due for a channel without
      room for it.
    - The XCMP queue is a first-in first-out queue of pages per recipient, served
      in turn.  Messages delivered on one chain are enqueued in order on the other,
      for a weight that grows with their number and bytes (shown for the generated
      weights of the repository); incoming pages are processed in order, a page
      behind the first completely or not at all but for what exceeds the drop
      threshold.
    - The message queue keeps its invariant, with a processor that may enqueue
      messages while a queue is serviced, but not while it executes an overweight
      message, when it could strand its queue; it serves messages in order and
      within its weight, executes overweight messages at most once, and predicts
      footprints exactly.
    - Whatever collators provide, a block takes the next downward and horizontal
      messages or panics; the watermark never passes a pending message; and an
      honest collator's messages are always accepted, with progress.

    Assumptions are hypotheses of the theorems, each with an instance in a witness:
    [CompactLaws] and [HeaderLaws] (codecs), [CheckedPow], [ProcessorLaws],
    [QuietHandler] and [WeightLaws] (the configuration of the message queue),
    [RelayHeaders] (an interface without laws), [DecoderLaws] (a decoded message takes data), [SinkLaws] (the queue below the
    XCMP queue, discharged), [MqcHashLaws] (hashes without collisions),
    [HandlerAdvances] (discharged for the XCMP queue), and about the relay chain
    [advances]: queues only grow between relay parents, in the order of blocks, and
    a channel open at two successive blocks is the same channel.

    ** Bounds

    [loop] takes binary fuel, and a loop that would need more is a failure of the
    theorem that uses it.  The fuel is: 257 for [gcd] (two shifts of 128 bits), 131
    for the division loop, 65 for the square root, 2 for the test of the long
    division, 64 for powers, the units left (times the elements) for
    normalization, the open transactions for [exit_runtime], 2^66 for the loops of
    the message queue (each round takes weight or a page, below 2^64), the length
    of the data for binary search and for decoding a page, and 4 for the signals of
    a page.  Each is proved to suffice.

    ** Not modelled

    Tries, proofs, databases, network, executor and cryptography wrap third-party
    code or do input and output.  The macros of FRAME generate code; what they
    generate for storage is modelled by records and finite maps.  The relay chain's
    own runtime is an environment here.  Of the modelled pallets, benchmarks,
    the generated weights (but for those of incoming pages) and migrations are
    left out, of the parachain system the reading of the state proof, the
    signatures of relay chain headers and [validate_block], of the XCMP queue [SendXcm::validate] and
    [on_idle], of the overlay child storage roots and iterators, of the numbers
    floats, formatting and serialization.  Other pallets, bridges, XCM execution
    and nodes are systems of their own that the modelled code does not call.

    ** This file

    Shared vocabulary: outcomes, machine integers, bytes, lists and loops. *)

From stdpp Require Import base gmap sets list strings numbers option.
From Stdlib Require Import ZArith Lia.
From Stdlib Require Import Strings.Byte.

(** ** Outcomes

    A Rust function that returns a [Result] and may also abort is modelled by a
    function into [outcome E A].  [Panic] stands for every abort: a failed
    [expect], an out-of-range index, an arithmetic overflow the source relies
    on not happening. *)
Inductive outcome (E A : Type) : Type :=
| Ok (a : A)
| Err (e : E)
| Panic.
Arguments Ok {E A} a.
Arguments Err {E A} e.
Arguments Panic {E A}.

Definition obind {E A B : Type} (x : outcome E A) (f : A -> outcome E B) : outcome E B :=
  match x with
  | Ok a => f a
  | Err e => Err e
  | Panic => Panic
  end.

(** [expect]: an option whose [None] aborts. *)
Definition expect {E A : Type} (x : option A) : outcome E A :=
  match x with
  | Some a => Ok a
  | None => Panic
  end.

(** [ok_or]: an option whose [None] is the given error. *)
Definition ok_or {E A : Type} (e : E) (x : option A) : outcome E A :=
  match x with
  | Some a => Ok a
  | None => Err e
  end.

(** [ensure!]: fail with the given error unless the condition holds. *)
Definition ensure {E : Type} (b : bool) (e : E) : outcome E unit :=
  if b then Ok tt else Err e.

Declare Scope outcome_scope.
Delimit Scope outcome_scope with outcome.
Notation "'let?' x ':=' c 'in' k" := (obind c (fun x => k))
  (at level 10, x pattern, c at level 100, k at level 200) : outcome_scope.
Notation "'do?' c ';;' k" := (obind c (fun _ => k))
  (at level 10, c at level 100, k at level 200) : outcome_scope.

Lemma obind_ok {E A B : Type} (x : outcome E A) (f : A -> outcome E B) (b : B) :
  obind x f = Ok b <-> exists a, x = Ok a /\ f a = Ok b.
Proof. destruct x; cbn; naive_solver. Qed.

Lemma ensure_ok {E : Type} (b : bool) (e : E) u : ensure b e = Ok u <-> b = true.
Proof. destruct b, u; cbn; naive_solver. Qed.

Lemma expect_ok {E A : Type} (x : option A) (a : A) : @expect E A x = Ok a <-> x = Some a.
Proof. destruct x; cbn; naive_solver. Qed.

Lemma ok_or_ok {E A : Type} (e : E) (x : option A) (a : A) : ok_or e x = Ok a <-> x = Some a.
Proof. destruct x; cbn; naive_solver. Qed.

(** Invert every successful bind in the context. *)
Ltac invert_ok :=
  repeat match goal with
  | H : obind _ _ = Ok _ |- _ => apply obind_ok in H as (? & ? & H)
  | H : ensure _ _ = Ok _ |- _ => apply ensure_ok in H
  | H : expect _ = Ok _ |- _ => apply expect_ok in H
  | H : ok_or _ _ = Ok _ |- _ => apply ok_or_ok in H
  | H : Ok _ = Ok _ |- _ => injection H as H; subst
  | H : Err _ = Ok _ |- _ => discriminate H
  | H : Panic = Ok _ |- _ => discriminate H
  end.

(** ** Machine integers

    An unsigned [w]-bit integer is a [Z] within [is_uint w].  The operations
    are the ones of the Rust primitive types. *)
Section machine_integers.
Local Open Scope Z_scope.

Definition umax (w : Z) : Z := 2 ^ w - 1.
Definition is_uint (w n : Z) : Prop := 0 <= n <= umax w.

Definition wrapping (w n : Z) : Z := n mod 2 ^ w.
Definition saturating_add (w a b : Z) : Z := Z.min (umax w) (a + b).
Definition saturating_sub (a b : Z) : Z := Z.max 0 (a - b).
Definition saturating_mul (w a b : Z) : Z := Z.min (umax w) (a * b).
Definition checked_add (w a b : Z) : option Z :=
  if a + b <=? umax w then Some (a + b) else None.
Definition checked_sub (a b : Z) : option Z :=
  if b <=? a then Some (a - b) else None.
Definition checked_mul (w a b : Z) : option Z :=
  if a * b <=? umax w then Some (a * b) else None.
Definition checked_div (a b : Z) : option Z :=
  if b =? 0 then None else Some (a / b).

Lemma is_uint_umax_nonneg w n : is_uint w n -> 0 <= umax w.
Proof. unfold is_uint. lia. Qed.

Lemma wrapping_is_uint w n : 0 <= w -> is_uint w (wrapping w n).
Proof.
  intros Hw. unfold is_uint, wrapping, umax.
  pose proof (Z.mod_pos_bound n (2 ^ w) ltac:(apply Z.pow_pos_nonneg; lia)). lia.
Qed.

Lemma wrapping_id w n : is_uint w n -> wrapping w n = n.
Proof. unfold is_uint, wrapping, umax. intros. apply Z.mod_small. lia. Qed.

Lemma saturating_add_is_uint w a b :
  is_uint w a -> is_uint w b -> is_uint w (saturating_add w a b).
Proof. unfold is_uint, saturating_add. lia. Qed.

Lemma saturating_sub_is_uint w a b :
  is_uint w a -> is_uint w b -> is_uint w (saturating_sub a b).
Proof. unfold is_uint, saturating_sub. lia. Qed.

Lemma saturating_mul_is_uint w a b :
  is_uint w a -> is_uint w b -> is_uint w (saturating_mul w a b).
Proof. unfold is_uint, saturating_mul. nia. Qed.

Lemma checked_add_Some w a b c : checked_add w a b = Some c <-> c = a + b /\ a + b <= umax w.
Proof. unfold checked_add. destruct (Z.leb_spec (a + b) (umax w)); naive_solver lia. Qed.

Lemma checked_add_None w a b : checked_add w a b = None <-> umax w < a + b.
Proof. unfold checked_add. destruct (Z.leb_spec (a + b) (umax w)); naive_solver lia. Qed.

Lemma checked_sub_Some a b c : checked_sub a b = Some c <-> c = a - b /\ b <= a.
Proof. unfold checked_sub. destruct (Z.leb_spec b a); naive_solver lia. Qed.

Lemma checked_sub_None a b : checked_sub a b = None <-> a < b.
Proof. unfold checked_sub. destruct (Z.leb_spec b a); naive_solver lia. Qed.
End machine_integers.

Create HintDb machine_int.
#[export] Hint Resolve wrapping_is_uint saturating_add_is_uint saturating_sub_is_uint
  saturating_mul_is_uint : machine_int.

(** ** Bytes *)

#[export] Instance byte_eq_dec : EqDecision Byte.byte := Byte.byte_eq_dec.

#[export] Instance byte_countable : Countable Byte.byte.
Proof.
  refine (inj_countable Byte.to_N Byte.of_N _).
  intros b. apply Byte.of_to_N.
Defined.

Abbreviation bytes := (list Byte.byte).

(** [starts_with] of Rust slices. *)
Definition starts_with {A : Type} `{EqDecision A} (prefix l : list A) : bool :=
  bool_decide (take (length prefix) l = prefix).

(** ** Lists *)

Lemma list_filter_ext_in {A : Type} (P Q : A -> Prop)
    `{!forall x, Decision (P x), !forall x, Decision (Q x)} (l : list A) :
  (forall x, x ∈ l -> P x <-> Q x) -> filter P l = filter Q l.
Proof.
  intros HPQ. induction l as [|x l IH]; [done|]. rewrite !filter_cons.
  rewrite IH by (intros; apply HPQ; set_solver).
  destruct (HPQ x) as [H1 H2]; [set_solver|]. do 2 case_decide; tauto.
Qed.

(** The length as a [usize]. *)
Definition zlen {A : Type} (l : list A) : Z := Z.of_nat (length l).

Lemma zlen_app {A : Type} (l k : list A) : (zlen (l ++ k) = zlen l + zlen k)%Z.
Proof. unfold zlen. rewrite length_app. lia. Qed.

Lemma zlen_nonneg {A : Type} (l : list A) : (0 <= zlen l)%Z.
Proof. unfold zlen. lia. Qed.

(** ** Loops

    [for x in l { body }] over a state that the body may abort ([None]). *)
Fixpoint for_in {A St : Type} (l : list A) (body : A -> St -> option St) (s : St) : option St :=
  match l with
  | [] => Some s
  | x :: l => s ← body x s; for_in l body s
  end.

Lemma for_in_app {A St : Type} (l1 l2 : list A) (body : A -> St -> option St) (s : St) :
  for_in (l1 ++ l2) body s = (s ← for_in l1 body s; for_in l2 body s).
Proof.
  revert s. induction l1 as [|x l1 IH]; intros s; cbn; [done|].
  destruct (body x s); cbn; [apply IH|done].
Qed.

(** Total correctness of [for j in a..a + n] by an invariant. *)
Lemma for_in_seq {St : Type} (I : nat -> St -> Prop) (body : nat -> St -> option St) n : forall a s,
  I a s ->
  (forall j s, a <= j < a + n -> I j s -> exists s', body j s = Some s' /\ I (j + 1) s')%nat ->
  exists s', for_in (seq a n) body s = Some s' /\ I (a + n)%nat s'.
Proof.
  induction n as [|n IH]; intros a s HI Hstep; cbn.
  { exists s. rewrite Nat.add_0_r. done. }
  destruct (Hstep a s) as (s1 & -> & HI1); [lia|done|]. cbn.
  destruct (IH (S a) s1) as (s2 & Hs2 & HI2).
  - by replace (S a) with (a + 1)%nat by lia.
  - intros j s' Hj. apply Hstep. lia.
  - exists s2. split; [done|]. by replace (a + S n)%nat with (S a + n)%nat by lia.
Qed.

(** The same for [for j in (0..n).rev()]: the invariant holds from [n] down. *)
Lemma for_in_seq_rev {St : Type} (I : nat -> St -> Prop) (body : nat -> St -> option St) n : forall s,
  I n s ->
  (forall j s, j < n -> I (j + 1) s -> exists s', body j s = Some s' /\ I j s')%nat ->
  exists s', for_in (reverse (seq 0 n)) body s = Some s' /\ I 0%nat s'.
Proof.
  induction n as [|n IH]; intros s HI Hstep; [by exists s|].
  rewrite seq_S, reverse_app. cbn.
  destruct (Hstep n s) as (s1 & -> & HI1); [lia| |].
  { by replace (n + 1)%nat with (S n) by lia. }
  cbn. apply IH; [done|]. intros j s' Hj. apply Hstep. lia.
Qed.

(** The same where the body may return an error, as [?] does, or panic. *)
Fixpoint for_res {E A St : Type} (l : list A) (body : A -> St -> outcome E St) (s : St) : outcome E St :=
  match l with
  | [] => Ok s
  | x :: l => obind (body x s) (for_res l body)
  end.

(** [loop { ... }] run for at most [fuel] rounds: [step] ends the loop with
    [inr] or goes on with [inl].  The fuel is binary, so that a bound such as
    [2 ^ 64] can be given and costs nothing when the loop stops early. *)
Fixpoint loop {St R : Type} (fuel : positive) (step : St -> St + R) (s : St) : St + R :=
  let twice p s :=
    match loop p step s with
    | inl s => loop p step s
    | inr r => inr r
    end in
  match fuel with
  | xH => step s
  | xO p => twice p s
  | xI p => match step s with inl s => twice p s | inr r => inr r end
  end.

(** Total correctness: while the loop goes on the invariant holds and a measure
    decreases, and more fuel than the measure is enough. *)
Lemma loop_measure {St R : Type} (I : St -> Prop) (Q : R -> Prop) (m : St -> Z) (step : St -> St + R) :
  (forall s, I s -> 0 <= m s)%Z ->
  (forall s, I s -> match step s with inl s' => I s' /\ (m s' < m s)%Z | inr r => Q r end) ->
  forall fuel s, I s ->
  match loop fuel step s with inl s' => I s' /\ (m s' <= m s - Zpos fuel)%Z | inr r => Q r end.
Proof.
  intros Hpos Hstep.
  assert (Htwice : forall p s k, I s -> (m s - 2 * Zpos p <= k)%Z ->
    (forall s, I s ->
      match loop p step s with inl s' => I s' /\ (m s' <= m s - Zpos p)%Z | inr r => Q r end) ->
    match match loop p step s with inl s => loop p step s | inr r => inr r end with
    | inl s' => I s' /\ (m s' <= k)%Z | inr r => Q r end).
  { intros p s k Hs Hk IH. pose proof (IH s Hs) as H1. destruct (loop p step s) as [s1|r]; [|done].
    destruct H1 as [Hs1 ?]. pose proof (IH s1 Hs1) as H2.
    destruct (loop p step s1); [|done]. destruct H2. split; [done|lia]. }
  induction fuel as [p IH|p IH|]; intros s Hs; cbn [loop].
  - pose proof (Hstep s Hs) as H0. destruct (step s) as [s0|r]; [|done]. destruct H0 as [Hs0 ?].
    apply Htwice; [done|lia|done].
  - apply Htwice; [done|lia|done].
  - pose proof (Hstep s Hs) as H0. destruct (step s); [|done]. destruct H0. split; [done|lia].
Qed.

Lemma loop_total {St R : Type} (I : St -> Prop) (Q : R -> Prop) (m : St -> Z) (step : St -> St + R)
    (fuel : positive) (s : St) :
  (forall s, I s -> 0 <= m s)%Z ->
  (forall s, I s -> match step s with inl s' => I s' /\ (m s' < m s)%Z | inr r => Q r end) ->
  I s -> (m s < Zpos fuel)%Z ->
  exists r, loop fuel step s = inr r /\ Q r.
Proof.
  intros Hpos Hstep Hs Hm. pose proof (loop_measure I Q m step Hpos Hstep fuel s Hs) as H.
  destruct (loop fuel step s) as [s'|r]; [|eauto]. destruct H as [Hs' ?].
  specialize (Hpos s' Hs'). lia.
Qed.

(** What every round keeps holds until the loop ends. *)
Lemma loop_keeps {St R : Type} (I : St -> Prop) (Q : R -> Prop) (round : St -> St + R) :
  (forall s, I s -> match round s with inl s' => I s' | inr r => Q r end) ->
  forall fuel s, I s -> match loop fuel round s with inl s' => I s' | inr r => Q r end.
Proof.
  intros Hround. induction fuel as [p IH|p IH|]; intros s Hs; cbn [loop]; [| |by apply Hround].
  - specialize (Hround s Hs). destruct (round s) as [s1|r1]; [|done].
    specialize (IH s1 Hround) as H1. destruct (loop p round s1) as [s2|r2]; [by apply IH|done].
  - specialize (IH s Hs) as H1. destruct (loop p round s) as [s2|r2]; [by apply IH|done].
Qed.

(** What ends a loop holds of its result. *)
Lemma loop_result {St R : Type} (Q : R -> Prop) (round : St -> St + R) :
  (forall s r, round s = inr r -> Q r) -> forall fuel s r, loop fuel round s = inr r -> Q r.
Proof.
  intros Hround fuel s r E. pose proof (loop_keeps (fun _ => True) Q round) as Hk.
  specialize (Hk ltac:(intros s' _; destruct (round s') eqn:E'; [done|by eapply Hround]) fuel s I). by rewrite E in Hk.
Qed.
