(* ===== verification/Search.v ===== *)
(** * Binary search

    [slice::binary_search_by] of the Rust standard library, as it is implemented,
    and what it finds: the end of the elements that are small enough, or the
    element with a key. *)

From stdpp Require Import base option numbers list.
From Stdlib Require Import ZArith Lia.
From S2P Require Import Prelude.
Local Open Scope Z_scope.

(** The loop of the standard library's [binary_search_by]; a round at least
    halves what is left, so the length is enough fuel. *)
Fixpoint bisect {A : Type} (fuel : nat) (f : A -> comparison) (l : list A) (base size : nat) : nat :=
  match fuel with
  | 0%nat => base
  | S fuel =>
    if (size <=? 1)%nat then base
    else
      let half := (size / 2)%nat in
      let mid := (base + half)%nat in
      let base := match f <$> l !! mid with Some Gt => base | _ => mid end in
      bisect fuel f l base (size - half)
  end.

(** [inl] for [Ok], [inr] for [Err]. *)
Definition binary_search_by {A : Type} (f : A -> comparison) (l : list A) : nat + nat :=
  if (length l =? 0)%nat then inr 0%nat
  else
    let base := bisect (length l) f l 0 (length l) in
    match f <$> l !! base with
    | Some Eq => inl base
    | Some Lt => inr (S base)
    | _ => inr base
    end.

(** [binary_search_by_key]. *)
Definition binary_search_by_key {A : Type} (key : A -> Z) (b : Z) (l : list A) : nat + nat :=
  binary_search_by (fun x => Z.compare (key x) b) l.

Section search.
Context {A : Type} (f : A -> comparison) (l : list A).

(** What the search leaves: the element at [base] is not too large, unless it is
    the first; those behind [base + size] are too large when [f] is monotone. *)
Lemma bisect_spec fuel : forall base size,
  (size <= fuel)%nat -> (1 <= size)%nat -> (base + size <= length l)%nat ->
  (base = 0%nat \/ exists x, l !! base = Some x /\ f x <> Gt) ->
  let b := bisect fuel f l base size in
  (b < length l)%nat /\ (b = 0%nat \/ exists x, l !! b = Some x /\ f x <> Gt) /\
  ((forall i j x y, (i <= j)%nat -> l !! i = Some x -> l !! j = Some y -> f x = Gt -> f y = Gt) ->
   (forall j y, (base + size <= j)%nat -> l !! j = Some y -> f y = Gt) ->
   forall j y, (b < j)%nat -> l !! j = Some y -> f y = Gt).
Proof.
  induction fuel as [|fuel IH]; intros base size Hf Hs Hl Hb; [lia|]. cbn [bisect].
  destruct (Nat.leb_spec size 1) as [Hle|Hgt].
  { cbv zeta. split_and!; [lia|done|]. intros _ Hhi j y Hj. apply Hhi. lia. }
  set (half := (size / 2)%nat). set (mid := (base + half)%nat).
  assert (Hhalf : (1 <= half < size)%nat).
  { unfold half. split; [apply (Nat.div_le_lower_bound _ 2); lia|apply Nat.div_lt; lia]. }
  destruct (lookup_lt_is_Some_2 l mid) as [x Hx]; [unfold mid; lia|]. rewrite Hx. cbn [fmap option_fmap option_map].
  assert (Hcase : forall base', (base' = base /\ f x = Gt) \/ (base' = mid /\ f x <> Gt) ->
    let b := bisect fuel f l base' (size - half) in
    (b < length l)%nat /\ (b = 0%nat \/ exists x, l !! b = Some x /\ f x <> Gt) /\
    ((forall i j x y, (i <= j)%nat -> l !! i = Some x -> l !! j = Some y -> f x = Gt -> f y = Gt) ->
     (forall j y, (base + size <= j)%nat -> l !! j = Some y -> f y = Gt) ->
     forall j y, (b < j)%nat -> l !! j = Some y -> f y = Gt)).
  { intros base' Hbase'. destruct (IH base' (size - half)%nat) as (H1 & H2 & H3); [lia|lia| | |].
    - destruct Hbase' as [[-> _]|[-> _]]; unfold mid; lia.
    - destruct Hbase' as [[-> _]|[-> Hne]]; [done|]. right. eauto.
    - split_and!; [done|done|]. intros Hmono Hhi. apply (H3 Hmono). intros j y Hj Hy.
      destruct Hbase' as [[-> Heq]|[-> _]].
      + destruct (decide (mid <= j)%nat) as [Hm|Hm]; [by apply (Hmono mid j x y)|].
        apply Hhi with j; [|done]. unfold mid in Hm. pose proof (Nat.div_mod_eq size 2). lia.
      + apply Hhi with j; [|done]. unfold mid in Hj. lia. }
  destruct (f x); apply Hcase; auto; right; by split.
Qed.

(** With a comparator that never says equal the search ends behind the elements
    it takes for small enough. *)
Lemma binary_search_spec :
  (forall x, f x <> Eq) ->
  exists n, binary_search_by f l = inr n /\ (n <= length l)%nat /\
    (n = 0%nat \/ exists x, l !! Nat.pred n = Some x /\ f x = Lt) /\
    ((forall i j x y, (i <= j)%nat -> l !! i = Some x -> l !! j = Some y -> f x = Gt -> f y = Gt) ->
     forall j y, (n <= j)%nat -> l !! j = Some y -> f y = Gt).
Proof.
  intros Hne. unfold binary_search_by. destruct (Nat.eqb_spec (length l) 0) as [E|E].
  { exists 0%nat. split_and!; [done|lia|by left|]. intros _ j y _ Hy%lookup_lt_Some. lia. }
  destruct (bisect_spec (length l) 0 (length l)) as (Hb & Hsmall & Hbig); [lia..|by left|].
  set (b := bisect _ _ _ _ _) in *. destruct (lookup_lt_is_Some_2 l b Hb) as [x Hx].
  rewrite Hx. cbn [fmap option_fmap option_map].
  assert (Hend : forall j y, (0 + length l <= j)%nat -> l !! j = Some y -> f y = Gt)
    by (intros j y Hj Hy%lookup_lt_Some; lia).
  destruct (f x) eqn:Hfx; [by destruct (Hne x)| |].
  - exists (S b). split_and!; [done|lia|right; cbn; eauto|]. intros Hm j y Hj. apply (Hbig Hm Hend). lia.
  - exists b. split_and!; [done|lia| |].
    + destruct Hsmall as [->|(x' & Hx' & Hgt)]; [by left|]. simplify_eq.
    + intros Hm j y Hj Hy. by apply (Hm b j x y).
Qed.
End search.


(** In a list in ascending order of keys the search finds the element with the
    key. *)
Lemma search_key_spec {A : Type} (key : A -> Z) b (l : list A) :
  (forall i j x y, (i < j)%nat -> l !! i = Some x -> l !! j = Some y -> key x < key y) ->
  match binary_search_by_key key b l with
  | inl i => exists x, l !! i = Some x /\ key x = b
  | inr _ => forall x, x ∈ l -> key x <> b
  end.
Proof.
  intros Hs. unfold binary_search_by_key, binary_search_by. set (f := fun x => Z.compare (key x) b).
  destruct (Nat.eqb_spec (length l) 0) as [E|E].
  { apply length_zero_iff_nil in E as ->. intros x Hx. by apply not_elem_of_nil in Hx. }
  destruct (bisect_spec f l (length l) 0 (length l)) as (Hb & Hsmall & Hbig); [lia..|by left|].
  set (i := bisect _ _ _ _ _) in *. destruct (lookup_lt_is_Some_2 l i Hb) as [x Hx].
  assert (Hgt : forall j y, (i < j)%nat -> l !! j = Some y -> f y = Gt).
  { apply Hbig; [|by intros j y Hj Hy%lookup_lt_Some; lia].
    intros j k y z Hjk Hy Hz Hgt. unfold f in *. rewrite Z.compare_gt_iff in *.
    destruct (decide (j = k)) as [->|Hne]; [by simplify_eq|]. specialize (Hs j k y z ltac:(lia) Hy Hz). lia. }
  assert (Hother : f x <> Eq -> forall y, y ∈ l -> key y <> b).
  { intros Hne y [j Hy]%list_elem_of_lookup Hkey. assert (Hfy : f y = Eq) by (unfold f; by apply Z.compare_eq_iff).
    destruct (Nat.lt_trichotomy j i) as [Hlt|[->|Hgt']]; [|by simplify_eq|by rewrite (Hgt j y Hgt' Hy) in Hfy].
    specialize (Hs j i y x Hlt Hy Hx). destruct Hsmall as [->|(x' & Hx' & Hng)]; [lia|]. simplify_eq.
    apply Hng. unfold f. apply Z.compare_gt_iff. lia. }
  rewrite Hx. cbn [fmap option_fmap option_map]. destruct (f x) eqn:Hfx; [|by apply Hother..].
  exists x. split; [done|]. by apply Z.compare_eq_iff.
Qed.
