(* ===== verification/Codec.v ===== *)
(** * SCALE integers

    The [codec] crate (parity-scale-codec) is outside the repository: the
    components that use its compact integers take them as the class
    [CompactCodec], with the facts the code relies on as the class
    [CompactLaws].  [scale_compact] is the documented SCALE format of
    [Compact<u32>]; it satisfies the laws, so they are consistent.  The
    fixed-width little-endian integers of SCALE are [le_encode] and
    [le_decode]. *)

From stdpp Require Import base list option numbers.
From Stdlib Require Import ZArith Lia.
From Stdlib Require Import Strings.Byte.
From S2P Require Import Prelude.

Local Open Scope Z_scope.

(** ** Little-endian integers *)

Definition byte_of_Z (z : Z) : Byte.byte := default x00 (Byte.of_N (Z.to_N (z mod 256))).
Definition Z_of_byte (b : Byte.byte) : Z := Z.of_N (Byte.to_N b).

Lemma Z_of_byte_bound b : 0 <= Z_of_byte b < 256.
Proof. unfold Z_of_byte. pose proof (Byte.to_N_bounded b). lia. Qed.

Lemma Z_of_byte_of_Z z : Z_of_byte (byte_of_Z z) = z mod 256.
Proof.
  unfold Z_of_byte, byte_of_Z.
  pose proof (Z.mod_pos_bound z 256 ltac:(lia)) as Hz.
  destruct (Byte.of_N (Z.to_N (z mod 256))) as [b|] eqn:Hb; cbn.
  - apply Byte.to_of_N in Hb. rewrite Hb. lia.
  - apply Byte.of_N_None_iff in Hb. lia.
Qed.

Lemma byte_of_Z_of_byte b : byte_of_Z (Z_of_byte b) = b.
Proof.
  unfold byte_of_Z. pose proof (Z_of_byte_bound b).
  rewrite Z.mod_small by done. unfold Z_of_byte.
  by rewrite N2Z.id, Byte.of_to_N.
Qed.

Fixpoint le_encode (k : nat) (z : Z) : bytes :=
  match k with
  | O => []
  | S k => byte_of_Z z :: le_encode k (z / 256)
  end.

Fixpoint le_decode (bs : bytes) : Z :=
  match bs with
  | [] => 0
  | b :: bs => Z_of_byte b + 256 * le_decode bs
  end.

Lemma length_le_encode k z : length (le_encode k z) = k.
Proof. revert z. induction k; intros; cbn; auto. Qed.

Lemma pow256_S (k : nat) : 256 ^ Z.of_nat (S k) = 256 * 256 ^ Z.of_nat k.
Proof. rewrite Nat2Z.inj_succ, Z.pow_succ_r; lia. Qed.

Lemma le_decode_encode k z : 0 <= z < 256 ^ Z.of_nat k -> le_decode (le_encode k z) = z.
Proof.
  revert z. induction k as [|k IH]; intros z Hz; cbn [le_encode le_decode].
  - cbn in Hz. lia.
  - rewrite pow256_S in Hz. rewrite IH, Z_of_byte_of_Z.
    + pose proof (Z.div_mod z 256). lia.
    + split; [apply Z.div_pos; lia | apply Z.div_lt_upper_bound; lia].
Qed.

Lemma le_decode_bound bs : 0 <= le_decode bs < 256 ^ Z.of_nat (length bs).
Proof.
  induction bs as [|b bs IH]; cbn [le_decode length]; [cbn; lia|].
  rewrite pow256_S. pose proof (Z_of_byte_bound b). lia.
Qed.

Lemma le_encode_decode bs : le_encode (length bs) (le_decode bs) = bs.
Proof.
  induction bs as [|b bs IH]; cbn [le_encode le_decode length]; [done|].
  pose proof (Z_of_byte_bound b). f_equal.
  - rewrite <- (byte_of_Z_of_byte b) at 2. unfold byte_of_Z.
    by rewrite Z.mul_comm, Z_mod_plus_full.
  - replace ((Z_of_byte b + 256 * le_decode bs) / 256) with (le_decode bs); [done|].
    rewrite Z.mul_comm, Z_div_plus_full by lia. rewrite Z.div_small; lia.
Qed.

(** ** Compact integers *)

Class CompactCodec := {
  compact_encode : Z -> bytes;
  compact_decode : bytes -> option Z;
  compact_len : Z -> nat;
}.

(** What the code relies on: [compact_len] is the length of the encoding,
    which is never empty,
    decoding reads back what encoding wrote and only accepts the encoding of a
    [u32] (SCALE rejects the non-minimal forms). *)
Class CompactLaws (C : CompactCodec) := {
  compact_len_encode n : is_uint 32 n -> length (compact_encode n) = compact_len n;
  compact_len_pos n : is_uint 32 n -> (0 < compact_len n)%nat;
  compact_decode_encode n rest :
    is_uint 32 n -> compact_decode (compact_encode n ++ rest) = Some n;
  compact_decode_canonical bs n :
    compact_decode bs = Some n -> is_uint 32 n /\ exists rest, bs = compact_encode n ++ rest;
}.

Definition scale_compact_encode (n : Z) : bytes :=
  if n <? 2 ^ 6 then le_encode 1 (4 * n)
  else if n <? 2 ^ 14 then le_encode 2 (4 * n + 1)
  else if n <? 2 ^ 30 then le_encode 4 (4 * n + 2)
  else byte_of_Z 3 :: le_encode 4 n.

(** Read [k] little-endian bytes. *)
Definition le_read (k : nat) (bs : bytes) : option Z :=
  if decide (k <= length bs)%nat then Some (le_decode (take k bs)) else None.

Definition in_range (lo hi n : Z) : option Z :=
  if (lo <=? n) && (n <? hi) then Some n else None.

Definition scale_compact_decode (bs : bytes) : option Z :=
  b ← head bs;
  match Z_of_byte b mod 4 with
  | 0 => n ← le_read 1 bs; in_range 0 (2 ^ 6) (n / 4)
  | 1 => n ← le_read 2 bs; in_range (2 ^ 6) (2 ^ 14) (n / 4)
  | 2 => n ← le_read 4 bs; in_range (2 ^ 14) (2 ^ 30) (n / 4)
  | _ => if decide (Z_of_byte b = 3)
         then n ← le_read 4 (tail bs); in_range (2 ^ 30) (2 ^ 32) n
         else None
  end.

Definition scale_compact_len (n : Z) : nat :=
  if n <? 2 ^ 6 then 1
  else if n <? 2 ^ 14 then 2
  else if n <? 2 ^ 30 then 4
  else 5.

#[export] Instance scale_compact : CompactCodec := {|
  compact_encode := scale_compact_encode;
  compact_decode := scale_compact_decode;
  compact_len := scale_compact_len;
|}.

Lemma le_read_encode k n rest :
  0 <= n < 256 ^ Z.of_nat k -> le_read k (le_encode k n ++ rest) = Some n.
Proof.
  intros Hn. unfold le_read. rewrite length_app, length_le_encode.
  rewrite decide_True by lia.
  rewrite take_app_length' by (by rewrite length_le_encode). by rewrite le_decode_encode.
Qed.

Lemma le_read_Some k bs n :
  le_read k bs = Some n ->
  0 <= n < 256 ^ Z.of_nat k /\ bs = le_encode k n ++ drop k bs.
Proof.
  unfold le_read. case_decide as Hk; [|done]. intros [= <-].
  pose proof (le_decode_bound (take k bs)) as Hb. rewrite length_take in Hb.
  replace (k `min` length bs)%nat with k in Hb by lia. split; [done|].
  pose proof (le_encode_decode (take k bs)) as He. rewrite length_take in He.
  replace (k `min` length bs)%nat with k in He by lia. by rewrite He, take_drop.
Qed.

Lemma in_range_Some lo hi n m : in_range lo hi n = Some m <-> m = n /\ lo <= n < hi.
Proof.
  unfold in_range. destruct (Z.leb_spec lo n), (Z.ltb_spec n hi); cbn; naive_solver lia.
Qed.

Lemma Z_of_byte_of_Z_mod4 z : Z_of_byte (byte_of_Z z) mod 4 = z mod 4.
Proof.
  rewrite Z_of_byte_of_Z. apply Z.mod_mod_divide. by exists 64.
Qed.

(** The first byte of a little-endian number tells its residue modulo 4. *)
Lemma le_read_head_mod4 k b bs n :
  (0 < k)%nat -> le_read k (b :: bs) = Some n -> Z_of_byte b mod 4 = n mod 4.
Proof.
  intros Hk Hr. destruct (le_read_Some _ _ _ Hr) as [_ Hbs].
  destruct k as [|k]; [lia|]. cbn [le_encode] in Hbs. injection Hbs as -> _.
  apply Z_of_byte_of_Z_mod4.
Qed.

Lemma scale_compact_len_encode n :
  is_uint 32 n -> length (scale_compact_encode n) = scale_compact_len n.
Proof.
  intros _. unfold scale_compact_encode, scale_compact_len.
  repeat case_match; cbn [length]; by rewrite ?length_le_encode.
Qed.

Lemma scale_compact_len_pos n : is_uint 32 n -> (0 < scale_compact_len n)%nat.
Proof. intros _. unfold scale_compact_len. repeat case_match; lia. Qed.

(** Decoding one of the little-endian modes. *)
Lemma scale_compact_decode_mode (k : nat) (r lo hi n : Z) (rest : bytes) :
  (0 < k)%nat -> 0 <= r < 3 -> 4 * hi <= 256 ^ Z.of_nat k -> 0 <= lo <= n -> n < hi ->
  (forall bs b, head bs = Some b -> Z_of_byte b mod 4 = r ->
     scale_compact_decode bs = (m ← le_read k bs; in_range lo hi (m / 4))) ->
  scale_compact_decode (le_encode k (4 * n + r) ++ rest) = Some n.
Proof.
  intros Hk Hr Hhi Hlo Hn Hdec.
  assert (Hq : (4 * n + r) / 4 = n).
  { rewrite Z.add_comm, Z.mul_comm, Z_div_plus_full by lia. rewrite Z.div_small; lia. }
  rewrite (Hdec _ (byte_of_Z (4 * n + r))).
  - rewrite le_read_encode by lia. cbn. rewrite Hq. apply in_range_Some. lia.
  - destruct k; [lia|]. done.
  - rewrite Z_of_byte_of_Z_mod4, Z.add_comm, Z.mul_comm, Z_mod_plus_full.
    apply Z.mod_small. lia.
Qed.

Lemma scale_compact_decode_encode n rest :
  is_uint 32 n -> scale_compact_decode (scale_compact_encode n ++ rest) = Some n.
Proof.
  intros [Hn0 Hn]. change (umax 32) with (2 ^ 32 - 1) in Hn. unfold scale_compact_encode.
  destruct (Z.ltb_spec n (2 ^ 6)); [|destruct (Z.ltb_spec n (2 ^ 14));
    [|destruct (Z.ltb_spec n (2 ^ 30))]].
  - rewrite <- (Z.add_0_r (4 * n)).
    eapply (scale_compact_decode_mode 1 0 0 (2 ^ 6)); try lia.
    intros bs b Hb E. unfold scale_compact_decode. rewrite Hb. cbn [mbind option_bind]. by rewrite E.
  - eapply (scale_compact_decode_mode 2 1 (2 ^ 6) (2 ^ 14)); try lia.
    intros bs b Hb E. unfold scale_compact_decode. rewrite Hb. cbn [mbind option_bind]. by rewrite E.
  - eapply (scale_compact_decode_mode 4 2 (2 ^ 14) (2 ^ 30)); try lia.
    intros bs b Hb E. unfold scale_compact_decode. rewrite Hb. cbn [mbind option_bind]. by rewrite E.
  - unfold scale_compact_decode. cbn [app head mbind option_bind tail].
    rewrite Z_of_byte_of_Z. change (3 mod 256) with 3. change (3 mod 4) with 3. cbn [decide].
    rewrite decide_True by done. rewrite le_read_encode by (cbn; lia). cbn [mbind option_bind].
    apply in_range_Some. lia.
Qed.

Lemma scale_compact_decode_canonical bs n :
  scale_compact_decode bs = Some n ->
  is_uint 32 n /\ exists rest, bs = scale_compact_encode n ++ rest.
Proof.
  unfold scale_compact_decode, is_uint. change (umax 32) with (2 ^ 32 - 1).
  intros Hdec. apply bind_Some in Hdec as (b & Hb & Hdec).
  destruct bs as [|b' bs]; [done|]. cbn in Hb. injection Hb as ->.
  assert (Hmode : forall k r lo hi, (0 < k)%nat -> Z_of_byte b mod 4 = r ->
     (m ← le_read k (b :: bs); in_range lo hi (m / 4)) = Some n ->
     lo <= n < hi /\ b :: bs = le_encode k (4 * n + r) ++ drop k (b :: bs)).
  { intros k r lo hi Hk Hr E. apply bind_Some in E as (m & Hm & E).
    apply in_range_Some in E as [-> E]. split; [done|].
    pose proof (le_read_head_mod4 _ _ _ _ Hk Hm) as Hmod. rewrite Hr in Hmod. rewrite Hmod, <- Z.div_mod by lia.
    by apply le_read_Some in Hm as [_ ?]. }
  pose proof (Z.mod_pos_bound (Z_of_byte b) 4 ltac:(lia)) as Hr.
  assert (Hc : Z_of_byte b mod 4 = 0 \/ Z_of_byte b mod 4 = 1 \/ Z_of_byte b mod 4 = 2
               \/ Z_of_byte b mod 4 = 3) by lia.
  unfold scale_compact_encode.
  destruct Hc as [E|[E|[E|E]]]; rewrite E in Hdec.
  - apply (Hmode 1%nat 0) in Hdec as [Hn ->]; [|lia|done]. split; [lia|].
    rewrite (proj2 (Z.ltb_lt _ _)), Z.add_0_r by lia. eauto.
  - apply (Hmode 2%nat 1) in Hdec as [Hn ->]; [|lia|done]. split; [lia|].
    rewrite (proj2 (Z.ltb_ge _ _)), (proj2 (Z.ltb_lt _ _)) by lia. eauto.
  - apply (Hmode 4%nat 2) in Hdec as [Hn ->]; [|lia|done]. split; [lia|].
    rewrite !(proj2 (Z.ltb_ge _ _)), (proj2 (Z.ltb_lt _ _)) by lia. eauto.
  - case_decide as Hb; [|done]. cbn [tail] in Hdec.
    apply bind_Some in Hdec as (m & Hm & Hdec). apply in_range_Some in Hdec as [-> Hn].
    split; [lia|]. rewrite !(proj2 (Z.ltb_ge _ _)) by lia.
    apply le_read_Some in Hm as [_ Hbs]. exists (drop 4 bs). cbn [app]. f_equal; [|done].
    by rewrite <- Hb, byte_of_Z_of_byte.
Qed.

#[export] Instance scale_compact_laws : CompactLaws scale_compact := {|
  compact_len_encode := scale_compact_len_encode;
  compact_len_pos := scale_compact_len_pos;
  compact_decode_encode := scale_compact_decode_encode;
  compact_decode_canonical := scale_compact_decode_canonical;
|}.
