(* ===== verification/Changeset.v ===== *)
(** * The transactional storage overlay

    Model of [substrate/primitives/state-machine/src/overlayed_changes/changeset.rs]:
    [OverlayedMap], a map of values with nested transactions, in its two forms,
    the generic one (the [_offchain] methods) and [OverlayedChangeSet], whose
    values are [StorageEntry]s with the in-place append optimisation.

    Vectors that the source uses as stacks ([transactions], [dirty_keys]) are
    lists with the most recent element first.  Panics of the source ([expect],
    an index out of range, [usize] underflow) are the [None] of an option, or
    [Panic] of an [outcome]. *)

From stdpp Require Import base gmap sets list option numbers fin_maps.
From Stdlib Require Import ZArith Lia.
From S2P Require Import Prelude Codec.

(** ** Data *)

Inductive ExecutionMode := Client | Runtime.

Inductive NoOpenTransaction_error := NoOpenTransaction.
Inductive AlreadyInRuntime_error := AlreadyInRuntime.
Inductive NotInRuntime_error := NotInRuntime.

(** [Extrinsics(Vec<u32>)], oldest index first. *)
Abbreviation Extrinsics := (list Z).

Definition extrinsics_insert (ext : Z) (l : Extrinsics) : Extrinsics :=
  if decide (Some ext = last l) then l else l ++ [ext].

Record InnerValue (V : Type) := mkInner {
  value : V;
  extrinsics : Extrinsics;
}.
Arguments mkInner {V}.
Arguments value {V}.
Arguments extrinsics {V}.

(** [OverlayedEntry<V>]: the versions of a value, most recent first. *)
Abbreviation OverlayedEntry V := (list (InnerValue V)).

Abbreviation StorageValue := bytes.
Abbreviation StorageKey := bytes.

Inductive StorageEntry :=
| Set_ (v : StorageValue)
| Remove
| Append (data : StorageValue) (current_length : Z) (materialized_length : option Z)
         (parent_size : option nat).

Record OverlayedMap (K V : Type) `{Countable K} := mkMap {
  changes : gmap K (OverlayedEntry V);
  dirty_keys : list (gset K);
  num_client_transactions : nat;
  execution_mode : ExecutionMode;
}.
Arguments mkMap {K V _ _}.
Arguments changes {K V _ _}.
Arguments dirty_keys {K V _ _}.
Arguments num_client_transactions {K V _ _}.
Arguments execution_mode {K V _ _}.

(** ** Entries *)

Section entry.
Context {V : Type}.

Definition value_ref (e : OverlayedEntry V) : option V := value <$> head e.

Definition pop_transaction (e : OverlayedEntry V) : option (InnerValue V * OverlayedEntry V) :=
  match e with
  | [] => None
  | iv :: e => Some (iv, e)
  end.

(** Overwrite the most recent value, [*self.value_mut() = v]. *)
Definition write_value (v : V) (e : OverlayedEntry V) : option (OverlayedEntry V) :=
  match e with
  | [] => None
  | iv :: e => Some (mkInner v (extrinsics iv) :: e)
  end.

(** Record the extrinsic index in the most recent version. *)
Definition record_extrinsic (at_extrinsic : option Z) (e : OverlayedEntry V) :
    option (OverlayedEntry V) :=
  match at_extrinsic, e with
  | None, _ => Some e
  | Some _, [] => None
  | Some ext, iv :: e => Some (mkInner (value iv) (extrinsics_insert ext (extrinsics iv)) :: e)
  end.

(** [self.transaction_extrinsics_mut().extend(other)] *)
Definition extend_extrinsics (other : Extrinsics) (e : OverlayedEntry V) :
    option (OverlayedEntry V) :=
  match e with
  | [] => None
  | iv :: e => Some (mkInner (value iv) (extrinsics iv ++ other) :: e)
  end.

Definition entry_extrinsics (e : OverlayedEntry V) : gset Z :=
  list_to_set (iv ← reverse e; extrinsics iv).

Definition entry_set_offchain (v : V) (first_write_in_tx : bool) (at_extrinsic : option Z)
    (e : OverlayedEntry V) : option (OverlayedEntry V) :=
  e ← (if first_write_in_tx || bool_decide (e = nil)
       then Some (mkInner v [] :: e)
       else write_value v e);
  record_extrinsic at_extrinsic e.

(** What [close_transaction_offchain] does to the entry of a dirty key on
    rollback, and on commit when the entry has a predecessor. *)
Definition rollback_entry_offchain (e : OverlayedEntry V) : option (OverlayedEntry V) :=
  snd <$> pop_transaction e.

Definition merge_entry_offchain (e : OverlayedEntry V) : option (OverlayedEntry V) :=
  '(dropped_tx, e) ← pop_transaction e;
  e ← write_value (value dropped_tx) e;
  extend_extrinsics (extrinsics dropped_tx) e.
End entry.

(** ** Storage entries *)

Section storage_entry.
Context {C : CompactCodec}.

(** Number of bytes of the length prefix stored in the data. *)
Definition prefix_len (materialized : option Z) : nat :=
  match materialized with
  | Some l => compact_len l
  | None => 0
  end.

(** [StorageAppend::replace_length]; [splice(0..n, ..)] panics when the
    vector is shorter than [n]. *)
Definition replace_length (old_length : option Z) (new_length : Z) (data : bytes) : option bytes :=
  if decide (prefix_len old_length <= length data)
  then Some (compact_encode new_length ++ drop (prefix_len old_length) data)
  else None.

Definition extract_length (data : bytes) : option Z := compact_decode data.

Definition append_raw (element data : bytes) : bytes := data ++ element.

Definition materialize_in_place (s : StorageEntry) : option StorageEntry :=
  match s with
  | Append data current_length materialized_length parent_size =>
      if decide (materialized_length = Some current_length) then Some s
      else data ← replace_length materialized_length current_length data;
           Some (Append data current_length (Some current_length) parent_size)
  | _ => Some s
  end.

Definition as_option (s : StorageEntry) : option (option StorageValue * StorageEntry) :=
  s ← materialize_in_place s;
  Some (match s with
        | Append data _ _ _ | Set_ data => Some data
        | Remove => None
        end, s).

Definition to_option (s : StorageEntry) : option (option StorageValue) := fst <$> as_option s.

Definition restore_append_to_parent (parent : StorageEntry) (current_data : bytes)
    (current_materialized : option Z) (target_parent_size : nat) : option StorageEntry :=
  match parent with
  | Append _ current_length parent_materialized parent_size =>
      let prev := prefix_len parent_materialized in
      let new := prefix_len current_materialized in
      let delta := if decide (prev <= new) then new - prev else prev - new in
      target ← (if decide (new <= prev)
                then if decide (delta <= target_parent_size)
                     then Some (target_parent_size - delta) else None
                else Some (target_parent_size + delta));
      Some (Append (take target current_data) current_length current_materialized parent_size)
  | _ => Some parent
  end.

(** Restore the data of a dropped [Append] to the entry below it. *)
Definition restore_head (data : bytes) (materialized : option Z) (parent_size : nat)
    (e : OverlayedEntry StorageEntry) : option (OverlayedEntry StorageEntry) :=
  match e with
  | [] => None
  | parent :: e =>
      v ← restore_append_to_parent (value parent) data materialized parent_size;
      Some (mkInner v (extrinsics parent) :: e)
  end.

Definition entry_set (v : option StorageValue) (first_write_in_tx : bool)
    (at_extrinsic : option Z) (e : OverlayedEntry StorageEntry) :
    option (OverlayedEntry StorageEntry) :=
  let v := match v with None => Remove | Some v => Set_ v end in
  e ← match first_write_in_tx, e with
      | true, _ | _, [] => Some (mkInner v [] :: e)
      | false, iv :: e =>
          match value iv with
          | Append data _ materialized_length (Some parent_size) =>
              e ← restore_head data materialized_length parent_size e;
              Some (mkInner v (extrinsics iv) :: e)
          | _ => Some (mkInner v (extrinsics iv) :: e)
          end
      end;
  record_extrinsic at_extrinsic e.

(** The [u32] element counter; it wraps like the release build does. *)
Definition incr_length (n : Z) : Z := wrapping 32 (n + 1).

Definition entry_append (element : StorageValue) (first_write_in_tx : bool)
    (init : StorageValue) (at_extrinsic : option Z) (e : OverlayedEntry StorageEntry) :
    option (OverlayedEntry StorageEntry) :=
  let e :=
    match e with
    | [] =>
        let '(data, current_length, materialized_length) :=
          match extract_length init with
          | Some len => (append_raw element init, incr_length len, Some len)
          | None => (element, 1%Z, None)
          end in
        [mkInner (Append data current_length materialized_length None) []]
    | iv :: rest =>
        if first_write_in_tx then
          let '(parent, (data, current_length, materialized_length, parent_size)) :=
            match value iv with
            | Remove => (value iv, (element, 1%Z, None, None))
            | Append data current_length materialized_length ps =>
                (Append [] current_length materialized_length ps,
                 (append_raw element data, incr_length current_length, materialized_length,
                  Some (length data)))
            | Set_ prev =>
                (value iv,
                 match extract_length prev with
                 | Some current_length =>
                     (append_raw element prev, incr_length current_length,
                      Some current_length, None)
                 | None => (element, 1%Z, None, None)
                 end)
            end in
          mkInner (Append data current_length materialized_length parent_size) []
            :: mkInner parent (extrinsics iv) :: rest
        else
          let v :=
            match value iv with
            | Remove => Append element 1 None None
            | Set_ data =>
                match extract_length data with
                | Some current_length =>
                    Append (append_raw element data) (incr_length current_length)
                           (Some current_length) None
                | None => Append element 1 None None
                end
            | Append data current_length materialized_length parent_size =>
                Append (append_raw element data) (incr_length current_length)
                       materialized_length parent_size
            end in
          mkInner v (extrinsics iv) :: rest
    end in
  record_extrinsic at_extrinsic e.

(** [OverlayedValue::value]: read the current value, caching its
    materialization. *)
Definition entry_value (e : OverlayedEntry StorageEntry) :
    option (option StorageValue * OverlayedEntry StorageEntry) :=
  match e with
  | [] => None
  | iv :: e =>
      '(r, v) ← as_option (value iv);
      Some (r, mkInner v (extrinsics iv) :: e)
  end.

(** What [close_transaction] does to the entry of a dirty key on rollback,
    and on commit when the entry has a predecessor. *)
Definition rollback_entry (e : OverlayedEntry StorageEntry) :
    option (OverlayedEntry StorageEntry) :=
  '(iv, e) ← pop_transaction e;
  match value iv with
  | Append data _ materialized_length (Some parent_size) =>
      restore_head data materialized_length parent_size e
  | _ => Some e
  end.

Definition merge_entry (e : OverlayedEntry StorageEntry) :
    option (OverlayedEntry StorageEntry) :=
  '(committed_tx, e) ← pop_transaction e;
  '(iv, below) ← pop_transaction e;
  let '(committed, merge_appends) :=
    match value committed_tx, value iv with
    | Append data cl ml (Some _), Append _ _ _ keep_me => (Append data cl ml keep_me, true)
    | v, _ => (v, false)
    end in
  e ← (if (merge_appends : bool) then write_value committed e
       else
         let head := mkInner committed (extrinsics iv) in
         match value iv with
         | Append data _ materialized_length (Some parent_size) =>
             match below with
             | [] => Some (head :: below)
             | _ => below ← restore_head data materialized_length parent_size below;
                    Some (head :: below)
             end
         | _ => Some (head :: below)
         end);
  extend_extrinsics (extrinsics committed_tx) e.
End storage_entry.

(** ** The map *)

Section map.
Context {K V : Type} `{Countable K}.
Implicit Types m : OverlayedMap K V.

Definition default_map : OverlayedMap K V := mkMap ∅ [] 0 Client.

Definition transaction_depth (m : OverlayedMap K V) : nat := length (dirty_keys m).

Definition has_open_runtime_transactions (m : OverlayedMap K V) : bool :=
  bool_decide (num_client_transactions m < transaction_depth m).

(** [insert_dirty]: whether this is the first write to the key in the
    innermost open transaction, and the updated dirty sets. *)
Definition insert_dirty (set : list (gset K)) (key : K) : bool * list (gset K) :=
  match set with
  | [] => (false, [])
  | dk :: set => (bool_decide (key ∉ dk), ({[key]} ∪ dk) :: set)
  end.

Definition spawn_child (m : OverlayedMap K V) : OverlayedMap K V :=
  mkMap ∅ (replicate (transaction_depth m) ∅) (num_client_transactions m) (execution_mode m).

Definition is_empty (m : OverlayedMap K V) : bool := bool_decide (changes m = ∅).

(** [self.changes.entry(key).or_default()] *)
Definition entry_or_default (m : OverlayedMap K V) (key : K) : OverlayedEntry V :=
  default [] (changes m !! key).

(** Run a write [f] of an entry, which is given the [first_write_in_tx]
    flag, and record the key as dirty. *)
Definition update_entry (f : bool -> OverlayedEntry V -> option (OverlayedEntry V)) (key : K)
    (m : OverlayedMap K V) : option (OverlayedMap K V) :=
  let '(first, dirty) := insert_dirty (dirty_keys m) key in
  e ← f first (entry_or_default m key);
  Some (mkMap (<[key := e]> (changes m)) dirty (num_client_transactions m) (execution_mode m)).

Definition set_offchain (key : K) (v : V) (at_extrinsic : option Z) (m : OverlayedMap K V) :
    option (OverlayedMap K V) :=
  update_entry (fun first => entry_set_offchain v first at_extrinsic) key m.

(** [get(..).map(|e| e.value_ref())] *)
Definition get_ref (key : K) (m : OverlayedMap K V) : option V := changes m !! key ≫= value_ref.

Definition start_transaction (m : OverlayedMap K V) : OverlayedMap K V :=
  mkMap (changes m) (∅ :: dirty_keys m) (num_client_transactions m) (execution_mode m).

Definition enter_runtime (m : OverlayedMap K V) :
    outcome AlreadyInRuntime_error (OverlayedMap K V) :=
  match execution_mode m with
  | Runtime => Err AlreadyInRuntime
  | Client => Ok (mkMap (changes m) (dirty_keys m) (transaction_depth m) Runtime)
  end.

(** One iteration of the loop of [close_transaction] over the dirty keys of
    the closed transaction; [dirty] are the sets of the transactions that
    stay open. *)
Definition close_key (rollback_one merge_one : OverlayedEntry V -> option (OverlayedEntry V))
    (rollback : bool) (key : K)
    (st : gmap K (OverlayedEntry V) * list (gset K)) :
    option (gmap K (OverlayedEntry V) * list (gset K)) :=
  let '(changes, dirty) := st in
  overlayed ← changes !! key;
  if rollback then
    e ← rollback_one overlayed;
    Some (if bool_decide (e = nil) then delete key changes else <[key := e]> changes, dirty)
  else
    let '(has_predecessor, dirty) :=
      match dirty with
      | [] => (bool_decide (1 < length overlayed), dirty)
      | dk :: rest => (bool_decide (key ∈ dk), ({[key]} ∪ dk) :: rest)
      end in
    e ← (if (has_predecessor : bool) then merge_one overlayed else Some overlayed);
    Some (<[key := e]> changes, dirty).

Fixpoint close_keys (rollback_one merge_one : OverlayedEntry V -> option (OverlayedEntry V))
    (rollback : bool) (keys : list K)
    (st : gmap K (OverlayedEntry V) * list (gset K)) :
    option (gmap K (OverlayedEntry V) * list (gset K)) :=
  match keys with
  | [] => Some st
  | key :: keys =>
      st ← close_key rollback_one merge_one rollback key st;
      close_keys rollback_one merge_one rollback keys st
  end.

Definition close_with (rollback_one merge_one : OverlayedEntry V -> option (OverlayedEntry V))
    (rollback : bool) (m : OverlayedMap K V) :
    outcome NoOpenTransaction_error (OverlayedMap K V) :=
  match execution_mode m, has_open_runtime_transactions m with
  | Runtime, false => Err NoOpenTransaction
  | _, _ =>
      match dirty_keys m with
      | [] => Err NoOpenTransaction
      | dk :: dirty =>
          match close_keys rollback_one merge_one rollback (elements dk) (changes m, dirty) with
          | None => Panic
          | Some (changes, dirty) =>
              Ok (mkMap changes dirty (num_client_transactions m) (execution_mode m))
          end
      end
  end.

(** The loop of [exit_runtime]; [fuel] bounds the number of iterations, and
    the transaction depth is always enough. *)
Fixpoint rollback_open (close : OverlayedMap K V -> outcome NoOpenTransaction_error (OverlayedMap K V))
    (fuel : nat) (m : OverlayedMap K V) : option (OverlayedMap K V) :=
  if has_open_runtime_transactions m then
    match fuel with
    | O => None
    | S fuel =>
        match close m with
        | Ok m => rollback_open close fuel m
        | _ => None
        end
    end
  else Some m.

Definition exit_with (close : OverlayedMap K V -> outcome NoOpenTransaction_error (OverlayedMap K V))
    (m : OverlayedMap K V) : outcome NotInRuntime_error (OverlayedMap K V) :=
  match execution_mode m with
  | Client => Err NotInRuntime
  | Runtime =>
      expect (rollback_open close (transaction_depth m)
                (mkMap (changes m) (dirty_keys m) (num_client_transactions m) Client))
  end.

Definition close_transaction_offchain (rollback : bool) (m : OverlayedMap K V) :=
  close_with rollback_entry_offchain merge_entry_offchain rollback m.
Definition rollback_transaction_offchain (m : OverlayedMap K V) :=
  close_transaction_offchain true m.
Definition commit_transaction_offchain (m : OverlayedMap K V) :=
  close_transaction_offchain false m.
Definition exit_runtime_offchain (m : OverlayedMap K V) :=
  exit_with rollback_transaction_offchain m.

(** [drain_committed]: panics while a transaction is open. *)
Definition drain_committed (m : OverlayedMap K V) : option (list (K * V)) :=
  if decide (transaction_depth m = 0)
  then mapM (fun '(k, e) => '(iv, _) ← pop_transaction e; Some (k, value iv))
            (map_to_list (changes m))
  else None.
End map.

(** ** The change set *)

Abbreviation OverlayedChangeSet := (OverlayedMap StorageKey StorageEntry).

Section change_set.
Context {C : CompactCodec}.

Definition close_transaction (rollback : bool) (m : OverlayedChangeSet) :
    outcome NoOpenTransaction_error OverlayedChangeSet :=
  close_with rollback_entry merge_entry rollback m.
Definition rollback_transaction (m : OverlayedChangeSet) := close_transaction true m.
Definition commit_transaction (m : OverlayedChangeSet) := close_transaction false m.
Definition exit_runtime (m : OverlayedChangeSet) := exit_with rollback_transaction m.

Definition set (key : StorageKey) (v : option StorageValue) (at_extrinsic : option Z)
    (m : OverlayedChangeSet) : option OverlayedChangeSet :=
  update_entry (fun first => entry_set v first at_extrinsic) key m.

Definition append_storage (key : StorageKey) (v init : StorageValue) (at_extrinsic : option Z)
    (m : OverlayedChangeSet) : option OverlayedChangeSet :=
  update_entry (fun first => entry_append v first init at_extrinsic) key m.

(** [get(key).map(|e| e.value())]: the double option of
    [OverlayedChanges::storage], with the cached materialization. *)
Definition get_value (key : StorageKey) (m : OverlayedChangeSet) :
    option (option (option StorageValue) * OverlayedChangeSet) :=
  match changes m !! key with
  | None => Some (None, m)
  | Some e =>
      '(r, e) ← entry_value e;
      Some (Some r, mkMap (<[key := e]> (changes m)) (dirty_keys m)
                          (num_client_transactions m) (execution_mode m))
  end.

Definition is_live (s : StorageEntry) : bool :=
  match s with
  | Set_ _ | Append _ _ _ _ => true
  | Remove => false
  end.

(** One iteration of the loop of [clear_where]. *)
Definition clear_key (at_extrinsic : option Z) (st : nat * OverlayedChangeSet)
    (key : StorageKey) : option (nat * OverlayedChangeSet) :=
  let '(count, m) := st in
  e ← changes m !! key;
  v ← value_ref e;
  m ← set key None at_extrinsic m;
  Some (if is_live v then S count else count, m).

Fixpoint clear_keys (at_extrinsic : option Z) (keys : list StorageKey)
    (st : nat * OverlayedChangeSet) : option (nat * OverlayedChangeSet) :=
  match keys with
  | [] => Some st
  | key :: keys => st ← clear_key at_extrinsic st key; clear_keys at_extrinsic keys st
  end.

Definition clear_where (predicate : StorageKey -> OverlayedEntry StorageEntry -> bool)
    (at_extrinsic : option Z) (m : OverlayedChangeSet) : option (nat * OverlayedChangeSet) :=
  clear_keys at_extrinsic
    (fst <$> filter (fun ke => predicate (fst ke) (snd ke)) (map_to_list (changes m))) (0, m).
End change_set.

(** The overlay of [drain_committed] behaves as in the unit test
    [transaction_works]: committed and rolled-back writes of nested
    transactions. *)
Example transaction_works :
  let k0 := [Byte.x00] in
  let v n := Some [n] in
  (m ← set k0 (v Byte.x01) (Some 1%Z) default_map;
   m ← set k0 (v Byte.x02) (Some 10%Z) (start_transaction m);
   m ← set k0 (v Byte.x03) (Some 11%Z) (start_transaction m);
   match rollback_transaction m with
   | Ok m => match commit_transaction m with
             | Ok m => Some (changes m !! k0, dirty_keys m)
             | _ => None
             end
   | _ => None
   end)
  = Some (Some [mkInner (Set_ [Byte.x02]) [1; 10]%Z], []).
Proof. vm_compute. reflexivity. Qed.
