(* ===== verification/ChangesetRefine.v ===== *)
(** * The overlay refines a stack of maps

    The specification of a transactional map is a non-empty stack of plain
    maps: a write changes the top map, opening a transaction pushes a copy,
    rolling back pops, committing pops and replaces the next map.  This file
    proves that the optimised structures of [Changeset] implement it. *)

From stdpp Require Import base gmap sets list option numbers fin_maps.
From Stdlib Require Import ZArith Lia.
From S2P Require Import Prelude Codec Changeset.

(** ** The specification *)

Module Spec.
(** Drop the second element: the top map replaces the one below it. *)
Definition squash {X : Type} (l : list X) : list X :=
  match l with
  | x :: _ :: l => x :: l
  | l => l
  end.

Section spec.
Context {K A : Type} `{Countable K}.

Record state := mkState {
  layers : list (gmap K A);
  client : nat;
  mode : ExecutionMode;
}.

Definition init : state := mkState [∅] 0 Client.

Definition depth (s : state) : nat := length (layers s) - 1.

Definition read (k : K) (s : state) : option A := head (layers s) ≫= lookup k.

Definition write (k : K) (a : A) (s : state) : state :=
  match layers s with
  | [] => s
  | l :: ls => mkState (<[k := a]> l :: ls) (client s) (mode s)
  end.

Definition start (s : state) : state :=
  match layers s with
  | [] => s
  | l :: ls => mkState (l :: l :: ls) (client s) (mode s)
  end.

(** Closing needs an open transaction, and in runtime mode one that the
    client did not open. *)
Definition closable (s : state) : bool :=
  match mode s with
  | Runtime => bool_decide (client s < depth s)
  | Client => bool_decide (0 < depth s)
  end.

Definition rollback (s : state) : outcome NoOpenTransaction_error state :=
  if closable s then Ok (mkState (tail (layers s)) (client s) (mode s))
  else Err NoOpenTransaction.

Definition commit (s : state) : outcome NoOpenTransaction_error state :=
  if closable s then Ok (mkState (squash (layers s)) (client s) (mode s))
  else Err NoOpenTransaction.

Definition enter (s : state) : outcome AlreadyInRuntime_error state :=
  match mode s with
  | Runtime => Err AlreadyInRuntime
  | Client => Ok (mkState (layers s) (depth s) Runtime)
  end.

(** Leaving the runtime drops every layer the runtime left open. *)
Definition exit (s : state) : outcome NotInRuntime_error state :=
  match mode s with
  | Client => Err NotInRuntime
  | Runtime => Ok (mkState (drop (depth s - client s) (layers s)) (client s) Client)
  end.
End spec.
Arguments state K A {_ _}.

(** Deleting every key of the current view that satisfies [p]; the number of
    values deleted. *)
Definition clear {K A : Type} `{Countable K} (p : K -> bool) (s : state K (option A)) :
    nat * state K (option A) :=
  match layers s with
  | [] => (0, s)
  | l :: ls =>
      (size (filter (fun kv => p (fst kv) /\ is_Some (snd kv)) l),
       mkState (map_imap (fun k v => Some (if p k then None else v)) l :: ls) (client s) (mode s))
  end.
End Spec.

(** ** Columns

    Seen from one key, the dirty sets are a list of flags, one per open
    transaction, and the entry is a list of versions.  [column] spreads the
    versions over the transactions: it lists the value visible at each depth. *)

Section column.
Context {A : Type}.

Fixpoint column (flags : list bool) (vs : list A) : list (option A) :=
  match flags with
  | [] => [head vs]
  | f :: flags => head vs :: column flags (if f then tail vs else vs)
  end.

Fixpoint ntrue (flags : list bool) : nat :=
  match flags with
  | [] => 0
  | f :: flags => (if f then 1 else 0) + ntrue flags
  end.

(** One version per transaction that wrote the key, and possibly a committed
    one below. *)
Definition fits (flags : list bool) (n : nat) : Prop := n = ntrue flags \/ n = S (ntrue flags).

Lemma head_column flags vs : head (column flags vs) = Some (head vs).
Proof. by destruct flags. Qed.

Lemma length_column flags vs : length (column flags vs) = S (length flags).
Proof. revert vs. induction flags; intros; cbn; auto. Qed.

Lemma column_cons flags vs : column flags vs = head vs :: tail (column flags vs).
Proof. by destruct flags. Qed.

Lemma fits_nil flags : ntrue flags = 0 -> fits flags 0.
Proof. unfold fits. lia. Qed.
End column.

(** ** Entries

    What the loop over the dirty keys needs of the operations on one entry. *)
Class EntryModel (V A : Type)
    (rollback_one merge_one : OverlayedEntry V -> option (OverlayedEntry V)) := {
  entry_wf : OverlayedEntry V -> Prop;
  entry_views : OverlayedEntry V -> list A;
  entry_wf_nil : entry_wf [];
  length_entry_views e : length (entry_views e) = length e;
  rollback_one_spec e :
    entry_wf e -> e <> [] ->
    exists e', rollback_one e = Some e' /\ entry_wf e' /\ entry_views e' = tail (entry_views e);
  merge_one_spec e :
    entry_wf e -> 2 <= length e ->
    exists e', merge_one e = Some e' /\ entry_wf e' /\
               entry_views e' = take 1 (entry_views e) ++ drop 2 (entry_views e);
}.

Section refinement.
Context {K : Type} `{Countable K} {V A : Type}.
Context (rollback_one merge_one : OverlayedEntry V -> option (OverlayedEntry V)).
Context `{!EntryModel V A rollback_one merge_one}.

Definition flags (k : K) (ds : list (gset K)) : list bool := (fun d => bool_decide (k ∈ d)) <$> ds.

#[local] Arguments flags : simpl never.

Lemma flags_nil k : flags k [] = [].
Proof. done. Qed.

Lemma flags_cons k d ds : flags k (d :: ds) = bool_decide (k ∈ d) :: flags k ds.
Proof. done. Qed.

Lemma length_flags k ds : length (flags k ds) = length ds.
Proof. apply length_fmap. Qed.

(** Well-formed overlays: no empty entries, and as many versions as the
    dirty sets say. *)
Record map_wf (m : OverlayedMap K V) : Prop := {
  wf_entries k e : changes m !! k = Some e -> e <> [] /\ entry_wf e;
  wf_fits k : fits (flags k (dirty_keys m)) (length (entry_or_default m k));
}.

(** The abstraction relation. *)
Record refines (m : OverlayedMap K V) (s : Spec.state K A) : Prop := {
  ref_wf : map_wf m;
  ref_depth : length (Spec.layers s) = S (transaction_depth m);
  ref_column k :
    column (flags k (dirty_keys m)) (entry_views (entry_or_default m k))
    = lookup k <$> Spec.layers s;
  ref_client : num_client_transactions m = Spec.client s;
  ref_mode : execution_mode m = Spec.mode s;
}.

Lemma default_entry_wf m k : map_wf m -> entry_wf (entry_or_default m k).
Proof.
  intros Hm. unfold entry_or_default.
  destruct (changes m !! k) eqn:E; cbn; [by apply wf_entries in E as []|apply entry_wf_nil].
Qed.

(** *** Closing a transaction, seen from one key *)

Definition closed_entry (rollback : bool) (fl : list bool) (e : OverlayedEntry V) :
    option (OverlayedEntry V) :=
  if rollback then rollback_one e
  else if match fl with [] => bool_decide (1 < length e) | f :: _ => f end
       then merge_one e else Some e.

Definition closed_flags (rollback : bool) (fl : list bool) : list bool :=
  if rollback then fl else match fl with [] => [] | _ :: fl => true :: fl end.

Definition nonempty (e : OverlayedEntry V) : option (OverlayedEntry V) :=
  if bool_decide (e = nil) then None else Some e.

Lemma default_nonempty e : default [] (nonempty e) = e.
Proof. unfold nonempty. case_bool_decide; cbn; auto. Qed.

Lemma close_key_spec rb k ch ds e e' :
  ch !! k = Some e -> closed_entry rb (flags k ds) e = Some e' -> (rb = false -> e' <> []) ->
  exists ch' ds', close_key rollback_one merge_one rb k (ch, ds) = Some (ch', ds') /\
    ch' !! k = nonempty e' /\ flags k ds' = closed_flags rb (flags k ds) /\
    length ds' = length ds /\
    forall j, j <> k -> ch' !! j = ch !! j /\ flags j ds' = flags j ds.
Proof.
  intros He Hc Hne. unfold close_key. rewrite He. cbn [mbind option_bind].
  destruct rb; cbn [closed_entry closed_flags] in *.
  - rewrite Hc. cbn. eexists _, ds. split; [done|]. unfold nonempty.
    case_bool_decide; repeat split; intros; by simplify_map_eq.
  - unfold nonempty. rewrite (bool_decide_false (e' = nil)) by (by apply Hne).
    destruct ds as [|dk ds]; rewrite ?flags_cons, ?flags_nil in Hc; cbn in *; rewrite Hc; cbn.
    + eexists _, []. split; [done|]. repeat split; intros; by simplify_map_eq.
    + eexists _, _. split; [done|]. repeat split; try done.
      * by simplify_map_eq.
      * cbn. rewrite !flags_cons. cbn. f_equal. apply bool_decide_eq_true. set_solver.
      * by simplify_map_eq.
      * rewrite !flags_cons. f_equal. apply bool_decide_ext. set_solver.
Qed.

Lemma close_keys_spec rb keys ch ds :
  NoDup keys ->
  (forall k, k ∈ keys -> exists e e', ch !! k = Some e /\
     closed_entry rb (flags k ds) e = Some e' /\ (rb = false -> e' <> [])) ->
  exists ch' ds', close_keys rollback_one merge_one rb keys (ch, ds) = Some (ch', ds') /\
    length ds' = length ds /\
    (forall k, k ∉ keys -> ch' !! k = ch !! k /\ flags k ds' = flags k ds) /\
    (forall k e e', k ∈ keys -> ch !! k = Some e -> closed_entry rb (flags k ds) e = Some e' ->
       ch' !! k = nonempty e' /\ flags k ds' = closed_flags rb (flags k ds)).
Proof.
  revert ch ds. induction keys as [|k keys IH]; intros ch ds Hnd Hkeys.
  { exists ch, ds. split; [done|]. split; [done|]. set_solver. }
  apply NoDup_cons in Hnd as [Hk Hnd].
  destruct (Hkeys k) as (e & e' & He & Hc & Hne); [set_solver|].
  destruct (close_key_spec rb k ch ds e e' He Hc Hne)
    as (ch1 & ds1 & Heq & Hk1 & Hf1 & Hl1 & Hother).
  destruct (IH ch1 ds1 Hnd) as (ch2 & ds2 & Heq2 & Hl2 & Hout & Hin).
  { intros j Hj. destruct (Hother j) as [-> ->]; [set_solver|]. apply Hkeys. set_solver. }
  exists ch2, ds2. cbn [close_keys]. rewrite Heq. cbn [mbind option_bind].
  split; [done|]. split; [congruence|]. split.
  - intros j Hj. destruct (Hout j) as [-> ->]; [set_solver|]. apply Hother. set_solver.
  - intros j ej ej' Hj Hej Hcj. destruct (decide (j = k)) as [->|Hjk].
    + destruct (Hout k Hk) as [-> ->]. by simplify_eq.
    + destruct (Hother j Hjk) as [Ho1 Ho2]. rewrite <- Ho2.
      apply (Hin j ej ej'); [set_solver|congruence|congruence].
Qed.

(** *** Writes *)

(** [f] writes the value [a] to the entry [e]: on top of it for the first
    write in a transaction, in place of its last version otherwise. *)
Definition writes (f : bool -> OverlayedEntry V -> option (OverlayedEntry V)) (a : A)
    (first : bool) (e : OverlayedEntry V) : Prop :=
  exists e', f first e = Some e' /\ entry_wf e' /\
    entry_views e' = a :: (if first then entry_views e else tail (entry_views e)).

Lemma writes_length (a : A) (first : bool) (e e' : OverlayedEntry V) :
  entry_views e' = a :: (if first then entry_views e else tail (entry_views e)) ->
  length e' = S (if first then length e else pred (length e)).
Proof.
  intros Hv. rewrite <- !length_entry_views, Hv. cbn.
  destruct first; [done|]. by destruct (entry_views e).
Qed.

(** Replacing the entry of one key. *)
Lemma insert_refines m s k e' dirty ls :
  refines m s ->
  length dirty = length (dirty_keys m) -> length ls = length (Spec.layers s) ->
  (forall j, j <> k -> flags j dirty = flags j (dirty_keys m) /\
                       lookup j <$> ls = lookup j <$> Spec.layers s) ->
  e' <> [] -> entry_wf e' -> fits (flags k dirty) (length e') ->
  column (flags k dirty) (entry_views e') = lookup k <$> ls ->
  refines (mkMap (<[k := e']> (changes m)) dirty (num_client_transactions m) (execution_mode m))
          (Spec.mkState ls (Spec.client s) (Spec.mode s)).
Proof.
  intros [Hwf Hd Hcol Hcl Hmode] Hdl Hls Hother Hne He' Hfit Hself.
  split; cbn; [| |intros j|done|done].
  - split; cbn.
    + intros j e Hj. destruct (decide (j = k)) as [->|Hjk]; simplify_map_eq; [done|].
      by apply (wf_entries _ Hwf) in Hj.
    + intros j. unfold entry_or_default. cbn. destruct (decide (j = k)) as [->|Hjk].
      * by rewrite lookup_insert_eq.
      * rewrite lookup_insert_ne, (proj1 (Hother j Hjk)) by done. apply (wf_fits _ Hwf).
  - unfold transaction_depth in *. cbn. congruence.
  - unfold entry_or_default. cbn. destruct (decide (j = k)) as [->|Hjk].
    + by rewrite lookup_insert_eq.
    + rewrite lookup_insert_ne by done. destruct (Hother j Hjk) as [-> ->]. apply Hcol.
Qed.

Lemma update_refines f k a m s :
  refines m s ->
  writes f a (fst (insert_dirty (dirty_keys m) k)) (entry_or_default m k) ->
  exists m', update_entry f k m = Some m' /\ refines m' (Spec.write k a s).
Proof.
  intros Href (e' & Hf & He' & Hv).
  pose proof (writes_length _ _ _ _ Hv) as Hlen.
  pose proof (ref_column _ _ Href k) as Hcol. pose proof (ref_depth _ _ Href) as Hd.
  pose proof (wf_fits _ (ref_wf _ _ Href) k) as Hfit.
  unfold update_entry, Spec.write, transaction_depth in *.
  destruct (Spec.layers s) as [|l ls] eqn:Hl; [done|].
  destruct (insert_dirty (dirty_keys m) k) as [first dirty] eqn:Hins.
  cbn [fst] in *. rewrite Hf. cbn. eexists; split; [done|].
  unfold insert_dirty in Hins.
  apply insert_refines; rewrite ?Hl; try done.
  - by destruct (dirty_keys m); simplify_eq/=.
  - intros j Hj. cbn. rewrite lookup_insert_ne by done. split; [|done].
    destruct (dirty_keys m) as [|dk ds]; simplify_eq/=; [done|].
    rewrite !flags_cons. f_equal. apply bool_decide_ext. set_solver.
  - by intros ->.
  - rewrite Hlen. destruct (dirty_keys m) as [|dk ds]; simplify_eq/=;
      rewrite ?flags_cons, ?flags_nil in *; unfold fits in *; cbn in *; [lia|].
    rewrite (bool_decide_true (k ∈ {[k]} ∪ dk)) by set_solver.
    repeat case_bool_decide; try tauto; lia.
  - rewrite Hv. cbn. rewrite lookup_insert_eq. apply (f_equal tail) in Hcol.
    destruct (dirty_keys m) as [|dk ds]; simplify_eq/=;
      rewrite ?flags_cons, ?flags_nil in *; cbn in *; [by destruct ls|].
    rewrite <- Hcol, (bool_decide_true (k ∈ {[k]} ∪ dk)) by set_solver.
    repeat case_bool_decide; tauto || done.
Qed.

(** *** Closing a transaction *)

Lemma closed_entry_spec rb fl e :
  entry_wf e -> fits (true :: fl) (length e) ->
  exists e', closed_entry rb fl e = Some e' /\ entry_wf e' /\ (rb = false -> e' <> []) /\
    fits (closed_flags rb fl) (length e') /\
    column (closed_flags rb fl) (entry_views e') =
      (if rb then tail else Spec.squash) (column (true :: fl) (entry_views e)).
Proof.
  intros Hwf Hfit. unfold fits in *. cbn in Hfit. unfold closed_entry, closed_flags.
  assert (Hne : e <> []) by (intros ->; cbn in Hfit; lia).
  pose proof (length_entry_views e) as Hlen.
  destruct rb.
  - destruct (rollback_one_spec e Hwf Hne) as (e' & -> & Hwf' & Hv).
    exists e'. split; [done|]. split; [done|]. split; [done|].
    rewrite <- length_entry_views, Hv. split; [|done]. destruct (entry_views e); cbn in *; lia.
  - destruct (match fl with [] => bool_decide (1 < length e) | f :: _ => f end) eqn:Hp.
    + assert (H2 : 2 <= length e).
      { destruct fl as [|f fl]; [by apply bool_decide_eq_true in Hp|]. subst f. cbn in Hfit. lia. }
      destruct (merge_one_spec e Hwf H2) as (e' & -> & Hwf' & Hv).
      exists e'. split; [done|]. split; [done|].
      rewrite <- (length_entry_views e'), Hv.
      destruct (entry_views e) as [|a [|b vs]]; cbn in *; [lia..|]. rewrite drop_0 in *.
      split; [intros _ ->; by apply (f_equal length) in Hv; rewrite length_entry_views in Hv|].
      destruct fl as [|f fl]; [|subst f]; cbn in *; (split; [lia|done]).
    + exists e. split; [done|]. split; [done|]. split; [done|].
      destruct fl as [|f fl]; [apply bool_decide_eq_false in Hp|subst f]; cbn in *;
        (split; [lia|done]).
Qed.

(** Keys the closed transaction did not write. *)
Lemma closed_unwritten rb fl (vs : list A) n :
  fits (false :: fl) n ->
  fits fl n /\ column fl vs = (if (rb : bool) then tail else Spec.squash) (column (false :: fl) vs).
Proof.
  intros Hfit. split; [exact Hfit|]. destruct rb; [done|]. cbn. rewrite (column_cons fl vs) at 2.
  cbn. apply column_cons.
Qed.

(** The guards of [close_transaction] are the specification's. *)
Lemma close_guard rb m s :
  refines m s ->
  if Spec.closable s then
    exists dk ds, dirty_keys m = dk :: ds /\
      close_with rollback_one merge_one rb m =
        match close_keys rollback_one merge_one rb (elements dk) (changes m, ds) with
        | None => Panic
        | Some (ch, ds) => Ok (mkMap ch ds (num_client_transactions m) (execution_mode m))
        end
  else close_with rollback_one merge_one rb m = Err NoOpenTransaction.
Proof.
  intros [Hwf Hd Hcol Hcl Hmode].
  unfold close_with, Spec.closable, Spec.depth, has_open_runtime_transactions, transaction_depth in *.
  rewrite Hcl, Hmode, Hd. cbn. rewrite Nat.sub_0_r.
  destruct (Spec.mode s); case_bool_decide; destruct (dirty_keys m) as [|dk ds]; cbn in *;
    try lia; try done; exists dk, ds; split; try done; by rewrite ?bool_decide_true by lia.
Qed.

Definition closed_layers (rb : bool) {X : Type} (l : list X) : list X :=
  if rb then tail l else Spec.squash l.

Lemma fmap_closed_layers rb {X Y : Type} (f : X -> Y) (l : list X) :
  f <$> closed_layers rb l = closed_layers rb (f <$> l).
Proof. destruct rb, l as [|x [|y l]]; done. Qed.

(** What closing does at every key: the entries of the dirty keys are
    rolled back or merged, the others stay. *)
Lemma close_pointwise rb m s dk ds k :
  refines m s -> dirty_keys m = dk :: ds ->
  exists e', (if decide (k ∈ dk)
       then exists e, changes m !! k = Some e /\ closed_entry rb (flags k ds) e = Some e'
       else e' = entry_or_default m k) /\
    let fl := if decide (k ∈ dk) then closed_flags rb (flags k ds) else flags k ds in
    (k ∈ dk -> rb = false -> e' <> []) /\ entry_wf e' /\ fits fl (length e') /\
    column fl (entry_views e') = closed_layers rb (lookup k <$> Spec.layers s).
Proof.
  intros [Hwf Hd Hcol Hcl Hmode] Hds. pose proof (wf_fits _ Hwf k) as Hfit. rewrite <- Hcol.
  rewrite Hds, flags_cons in *. unfold closed_layers.
  destruct (decide (k ∈ dk)) as [Hin|Hin].
  - rewrite bool_decide_true in * by done.
    destruct (changes m !! k) as [e|] eqn:He; unfold entry_or_default in *; rewrite He in *;
      cbn [default from_option id] in *.
    + destruct (closed_entry_spec rb (flags k ds) e) as (e' & ? & ? & ? & ? & Hc);
        [by apply (wf_entries _ Hwf) in He as []|done|].
      exists e'. split; [eauto|]. cbn zeta. rewrite Hc. by destruct rb.
    + unfold fits in Hfit. cbn in Hfit. lia.
  - rewrite bool_decide_false in * by done. exists (entry_or_default m k). split; [done|].
    destruct (closed_unwritten rb _ (entry_views (entry_or_default m k)) _ Hfit) as [? Hc].
    split; [done|]. split; [by apply default_entry_wf|]. split; [done|]. rewrite Hc. by destruct rb.
Qed.

Lemma close_refines rb m s :
  refines m s -> Spec.closable s = true ->
  exists m', close_with rollback_one merge_one rb m = Ok m' /\
    refines m' (Spec.mkState (closed_layers rb (Spec.layers s)) (Spec.client s) (Spec.mode s)).
Proof.
  intros Href Hopen. pose proof (close_guard rb m s Href) as Hguard. rewrite Hopen in Hguard.
  destruct Hguard as (dk & ds & Hds & ->).
  pose proof (fun k => close_pointwise rb m s dk ds k Href Hds) as Hk.
  destruct (close_keys_spec rb (elements dk) (changes m) ds) as (ch & ds' & -> & Hl & Hout & Hin).
  { apply NoDup_elements. }
  { intros k Hkd. apply elem_of_elements in Hkd. destruct (Hk k) as (e' & He & Hne & _).
    rewrite decide_True in He by done. destruct He as (e & ? & ?). exists e, e'. auto. }
  eexists; split; [done|]. destruct Href as [Hwf Hd _ Hcl Hmode].
  unfold transaction_depth in Hd. rewrite Hds in Hd. cbn in Hd.
  assert (Hres : forall k, exists e', (ch !! k = nonempty e') /\ entry_wf e' /\
    fits (flags k ds') (length e') /\
    column (flags k ds') (entry_views e') = closed_layers rb (lookup k <$> Spec.layers s)).
  { intros k. destruct (Hk k) as (e' & He & Hne & Hwf' & Hfit & Hc). exists e'. case_decide.
    - destruct He as (e & He & Hce).
      destruct (Hin k e e') as [-> ->]; [by apply elem_of_elements|done..].
    - destruct (Hout k) as [-> ->]; [by rewrite elem_of_elements|]. subst e'.
      split; [|done]. unfold entry_or_default, nonempty.
      destruct (changes m !! k) as [e|] eqn:E; cbn; [|done].
      apply (wf_entries _ Hwf) in E as [? _]. by rewrite bool_decide_false. }
  split; cbn; [split; cbn| |intros k|done|done].
  - intros k e He. destruct (Hres k) as (e' & Hch & ? & _). rewrite Hch in He.
    unfold nonempty in He. case_bool_decide; naive_solver.
  - intros k. destruct (Hres k) as (e' & Hch & _ & Hfit & _). unfold entry_or_default. cbn.
    by rewrite Hch, default_nonempty.
  - unfold transaction_depth. cbn. rewrite Hl. destruct (Spec.layers s) as [|? [|? ?]]; cbn in *;
      destruct rb; cbn; lia.
  - destruct (Hres k) as (e' & Hch & _ & _ & Hc). unfold entry_or_default. cbn.
    by rewrite Hch, default_nonempty, Hc, fmap_closed_layers.
Qed.

(** *** The other operations *)

Lemma entry_views_nil : entry_views (nil : OverlayedEntry V) = [].
Proof. apply length_zero_iff_nil. apply length_entry_views. Qed.

Lemma default_refines : refines default_map Spec.init.
Proof.
  split; try done; [split; [done|]; intros k; by left|].
  intros k. unfold entry_or_default. cbn. rewrite lookup_empty. cbn. by rewrite entry_views_nil.
Qed.

Lemma start_refines m s : refines m s -> refines (start_transaction m) (Spec.start s).
Proof.
  intros [Hwf Hd Hcol Hcl Hmode]. unfold Spec.start.
  destruct (Spec.layers s) as [|l ls] eqn:Hl; [done|].
  split; cbn; [split; cbn| |intros k|done|done].
  - apply (wf_entries _ Hwf).
  - intros k. rewrite flags_cons, bool_decide_false by set_solver. apply (wf_fits _ Hwf k).
  - unfold transaction_depth in *. cbn in *. congruence.
  - rewrite flags_cons, bool_decide_false by set_solver. cbn. specialize (Hcol k). cbn in Hcol.
    unfold entry_or_default in *. cbn. rewrite Hcol, column_cons in *. by injection Hcol as -> _.
Qed.

Lemma enter_refines m s :
  refines m s ->
  match Spec.enter s with
  | Ok s' => exists m', enter_runtime m = Ok m' /\ refines m' s'
  | Err e => enter_runtime m = Err e
  | Panic => False
  end.
Proof.
  intros [Hwf Hd Hcol Hcl Hmode]. unfold Spec.enter, enter_runtime. rewrite Hmode.
  destruct (Spec.mode s); [|done]. eexists; split; [done|]. split; cbn; try done.
  - split; [apply (wf_entries _ Hwf)|apply (wf_fits _ Hwf)].
  - unfold Spec.depth. lia.
Qed.

Lemma rollback_open_refines fuel m s :
  refines m s -> Spec.mode s = Client -> Spec.depth s - Spec.client s <= fuel ->
  exists m', rollback_open (close_with rollback_one merge_one true) fuel m = Some m' /\
    refines m' (Spec.mkState (drop (Spec.depth s - Spec.client s) (Spec.layers s))
                             (Spec.client s) Client).
Proof.
  revert m s. induction fuel as [|fuel IH]; intros m s Href Hmode Hfuel;
    pose proof Href as [_ Hd _ Hcl _];
    (assert (Hopen : has_open_runtime_transactions m = bool_decide (Spec.client s < Spec.depth s));
      [unfold has_open_runtime_transactions, Spec.depth; rewrite Hcl, Hd; cbn;
       by rewrite Nat.sub_0_r|]); cbn; rewrite Hopen; case_bool_decide; try lia;
    try (exists m; split; [done|]; replace (Spec.depth s - Spec.client s) with 0 by lia;
         rewrite drop_0, <- Hmode; by destruct s).
  destruct (close_refines true m s Href) as (m1 & -> & Href1).
  { unfold Spec.closable. rewrite Hmode. apply bool_decide_eq_true. lia. }
  unfold Spec.depth in *. rewrite Hmode in Href1.
  destruct (Spec.layers s) as [|l ls] eqn:Hl; [cbn in *; lia|]. cbn in *.
  destruct (IH m1 _ Href1) as (m2 & -> & Href2); cbn; [done|lia|]. cbn in Href2.
  exists m2. split; [done|]. replace (length ls - 0 - Spec.client s)
    with (S (length ls - 1 - Spec.client s)) by lia. done.
Qed.

Lemma exit_refines m s :
  refines m s ->
  match Spec.exit s with
  | Ok s' => exists m', exit_with (close_with rollback_one merge_one true) m = Ok m' /\ refines m' s'
  | Err e => exit_with (close_with rollback_one merge_one true) m = Err e
  | Panic => False
  end.
Proof.
  intros [Hwf Hd Hcol Hcl Hmode]. unfold Spec.exit, exit_with. rewrite Hmode.
  destruct (Spec.mode s); [done|].
  destruct (rollback_open_refines (transaction_depth m)
    (mkMap (changes m) (dirty_keys m) (num_client_transactions m) Client)
    (Spec.mkState (Spec.layers s) (Spec.client s) Client)) as (m' & -> & Href); cbn.
  - split; try done. split; [apply (wf_entries _ Hwf)|apply (wf_fits _ Hwf)].
  - done.
  - unfold Spec.depth. cbn. lia.
  - by exists m'.
Qed.

Lemma ntrue_replicate n : ntrue (replicate n false) = 0.
Proof. by induction n. Qed.

Lemma column_replicate n : column (replicate n false) (@nil A) = replicate (S n) None.
Proof. induction n; cbn in *; congruence. Qed.

(** A child change set starts empty at the depth of its parent. *)
Lemma spawn_child_refines (m : OverlayedMap K V) :
  refines (spawn_child m)
          (Spec.mkState (replicate (S (transaction_depth m)) ∅) (num_client_transactions m)
                        (execution_mode m)).
Proof.
  assert (Hfl : forall k, flags k (replicate (transaction_depth m) ∅)
                          = replicate (transaction_depth m) false).
  { intros k. unfold flags. rewrite fmap_replicate. f_equal. }
  split; cbn; try done.
  - split; cbn; [done|]. intros k. rewrite Hfl. left. cbn. by rewrite ntrue_replicate.
  - unfold transaction_depth at 2. cbn. by rewrite !length_replicate.
  - intros k. rewrite Hfl. unfold entry_or_default. cbn.
    rewrite lookup_empty. cbn. rewrite entry_views_nil, column_replicate. cbn. f_equal. by rewrite fmap_replicate.
Qed.
End refinement.

(** ** Plain entries *)

#[export] Instance plain_entries (V : Type) :
  EntryModel V V rollback_entry_offchain merge_entry_offchain.
Proof.
  refine {| entry_wf _ := True; entry_views e := value <$> e |}.
  - done.
  - intros e. apply length_fmap.
  - intros [|iv e] _ ?; [done|]. by exists e.
  - intros [|iv [|iv' e]] _ Hlen; cbn in Hlen; [lia..|].
    eexists; split; [done|]. split; [done|]. cbn. by rewrite drop_0.
Defined.

Lemma set_offchain_writes {V : Type} (v : V) ext first e :
  writes rollback_entry_offchain merge_entry_offchain
    (fun first => entry_set_offchain v first ext) v first e.
Proof.
  unfold writes, entry_set_offchain. destruct first; cbn.
  - destruct ext; eexists; (split; [done|]); done.
  - destruct e as [|iv e]; destruct ext; eexists; (split; [done|]); done.
Qed.

(** ** Storage entries

    While a transaction appends to a value, the data of the layers below is
    moved up: a layer whose successor carries [parent_size] does not own its
    data.  [chain_views] undoes the moves, layer by layer, the way
    [rollback_transaction] does: [pending] is the data that the layer above
    would hand back. *)
Section storage_entries.
Context {C : CompactCodec} {L : CompactLaws C}.

Definition pending := option (bytes * option Z * nat).

Definition pending_of (s : StorageEntry) : pending :=
  match s with
  | Append data _ m (Some p) => Some (data, m, p)
  | _ => None
  end.

(** The bytes after the length prefix. *)
Definition body (data : bytes) (m : option Z) : bytes := drop (prefix_len m) data.

(** The value a layer stands for. *)
Definition view (s : StorageEntry) : option StorageValue :=
  match s with
  | Set_ v => Some v
  | Remove => None
  | Append data n m _ => Some (compact_encode n ++ body data m)
  end.

Definition restored (pd : pending) (s : StorageEntry) : StorageEntry :=
  match pd with
  | Some (data, m, p) => default s (restore_append_to_parent s data m p)
  | None => s
  end.

Fixpoint chain_views (pd : pending) (ss : list StorageEntry) : list (option StorageValue) :=
  match ss with
  | [] => []
  | s :: ss => let s := restored pd s in view s :: chain_views (pending_of s) ss
  end.

(** The data starts with the length it claims to. *)
Definition prefix_ok (data : bytes) (m : option Z) : Prop :=
  match m with
  | Some l => is_uint 32 l /\ exists rest, data = compact_encode l ++ rest
  | None => True
  end.

Definition layer_wf (s : StorageEntry) : Prop :=
  match s with
  | Append data n m _ => is_uint 32 n /\ prefix_ok data m
  | _ => True
  end.

(** The data moved up covers what the layer below has to get back. *)
Definition pending_ok (pd : pending) (s : StorageEntry) : Prop :=
  match pd, s with
  | None, _ => True
  | Some (data, m, p), Append _ _ pm _ =>
      prefix_len pm <= p /\ p - prefix_len pm <= length (body data m)
  | Some _, _ => False
  end.

Fixpoint chain_wf (pd : pending) (ss : list StorageEntry) : Prop :=
  match ss with
  | [] => pd = None
  | s :: ss => pending_ok pd s /\ layer_wf (restored pd s) /\
               chain_wf (pending_of (restored pd s)) ss
  end.

Lemma length_chain_views pd ss : length (chain_views pd ss) = length ss.
Proof. revert pd. induction ss; intros; cbn; auto. Qed.

Lemma prefix_ok_len data m : prefix_ok data m -> prefix_len m <= length data.
Proof.
  destruct m as [l|]; cbn; [|lia]. intros (Hl & rest & ->).
  rewrite length_app, compact_len_encode by done. lia.
Qed.

Lemma body_encode l rest : is_uint 32 l -> body (compact_encode l ++ rest) (Some l) = rest.
Proof. intros. unfold body. cbn. rewrite <- compact_len_encode by done. apply drop_app_length. Qed.

Lemma prefix_ok_take data m n :
  prefix_ok data m ->
  prefix_ok (take (n + prefix_len m) data) m /\
  body (take (n + prefix_len m) data) m = take n (body data m).
Proof.
  intros Hp. split; [|unfold body; by rewrite skipn_firstn_comm, Nat.add_sub].
  destruct m as [l|]; [|done]. destruct Hp as (Hl & rest & ->). split; [done|].
  exists (take n rest). cbn. rewrite <- compact_len_encode by done. rewrite Nat.add_comm.
  by rewrite take_app_add.
Qed.

Lemma prefix_ok_app data m el :
  prefix_ok data m -> prefix_ok (data ++ el) m /\ body (data ++ el) m = body data m ++ el.
Proof.
  intros Hp. split.
  - destruct m as [l|]; [|done]. destruct Hp as (Hl & rest & ->). split; [done|].
    exists (rest ++ el). by rewrite app_assoc.
  - unfold body. apply drop_app_le. by apply prefix_ok_len.
Qed.

(** [restore_append_to_parent] never underflows, and hands back the bytes
    the parent had. *)
Lemma restore_spec data m p d0 n pm ps :
  pending_ok (Some (data, m, p)) (Append d0 n pm ps) -> prefix_ok data m ->
  restore_append_to_parent (Append d0 n pm ps) data m p
  = Some (Append (take (p - prefix_len pm + prefix_len m) data) n m ps).
Proof.
  intros [Hp1 Hp2] Hok. cbn.
  repeat case_decide; try lia; cbn; do 3 f_equal; lia.
Qed.

(** Two pending restores that agree on the bytes they hand back. *)
Definition pending_sim (ss : list StorageEntry) (pd1 pd2 : pending) : Prop :=
  match pd1, pd2 with
  | None, None => True
  | Some (d1, m1, p1), Some (d2, m2, p2) =>
      p1 = p2 /\ prefix_ok d1 m1 /\ prefix_ok d2 m2 /\
      match ss with
      | Append _ _ pm _ :: _ =>
          let n := p1 - prefix_len pm in
          n <= length (body d2 m2) /\ take n (body d1 m1) = take n (body d2 m2)
      | _ => True
      end
  | _, _ => False
  end.

(** Extending the bytes after the prefix, or changing the prefix, does not
    change what is handed back. *)
Lemma pending_sim_extend ss d1 n1 m1 d2 n2 m2 ps :
  prefix_ok d1 m1 -> prefix_ok d2 m2 -> body d1 m1 `prefix_of` body d2 m2 ->
  chain_wf (pending_of (Append d1 n1 m1 ps)) ss ->
  pending_sim ss (pending_of (Append d1 n1 m1 ps)) (pending_of (Append d2 n2 m2 ps)).
Proof.
  intros Hp1 Hp2 [el Hb] Hwf. destruct ps as [p|]; [|done]. cbn. repeat (split; [done|]).
  destruct ss as [|[| |d0 n pm ps] ss]; try done. destruct Hwf as [[_ Hok] _].
  rewrite Hb. split; [rewrite length_app; lia|]. by rewrite take_app_le.
Qed.

Lemma pending_sim_chain ss pd1 pd2 :
  pending_sim ss pd1 pd2 -> chain_wf pd1 ss ->
  chain_wf pd2 ss /\ chain_views pd2 ss = chain_views pd1 ss.
Proof.
  revert pd1 pd2. induction ss as [|s ss IH];
    intros [[[d1 m1] p1]|] [[[d2 m2] p2]|] Hsim; cbn in Hsim; try done.
  destruct Hsim as (<- & Hp1 & Hp2 & Hn). intros (Hok & Hwf & Hch).
  destruct s as [| |d0 n pm ps]; try done. destruct Hn as [Hn Heq].
  assert (Hok2 : pending_ok (Some (d2, m2, p1)) (Append d0 n pm ps)) by (split; [apply Hok|done]).
  cbn [chain_wf chain_views restored] in *.
  rewrite !restore_spec in * by done. cbn [default from_option id] in *.
  destruct (prefix_ok_take d1 m1 (p1 - prefix_len pm) Hp1) as [Ht1 Hb1].
  destruct (prefix_ok_take d2 m2 (p1 - prefix_len pm) Hp2) as [Ht2 Hb2].
  assert (Hb : body (take (p1 - prefix_len pm + prefix_len m1) d1) m1
               = body (take (p1 - prefix_len pm + prefix_len m2) d2) m2) by congruence.
  assert (Hsim := pending_sim_extend ss _ n m1 _ n m2 ps Ht1 Ht2
                    ltac:(rewrite Hb; done) Hch).
  destruct (IH _ _ Hsim Hch) as [Hwf2 Hv2].
  split; [split_and!; [done|split; [apply Hwf|done]|done]|].
  cbn [view]. by rewrite Hv2, Hb.
Qed.

(** Replacing the top layer by one with the same or more bytes. *)
Lemma chain_extend ss d1 n1 m1 d2 n2 m2 ps :
  prefix_ok d2 m2 -> body d1 m1 `prefix_of` body d2 m2 -> is_uint 32 n2 ->
  chain_wf None (Append d1 n1 m1 ps :: ss) ->
  chain_wf None (Append d2 n2 m2 ps :: ss) /\
  chain_views None (Append d2 n2 m2 ps :: ss)
    = Some (compact_encode n2 ++ body d2 m2) :: tail (chain_views None (Append d1 n1 m1 ps :: ss)).
Proof.
  intros Hp2 Hb Hn2 (_ & Hwf & Hch). cbn [restored] in *.
  pose proof (pending_sim_extend ss d1 n1 m1 d2 n2 m2 ps (proj2 Hwf) Hp2 Hb Hch) as Hsim.
  destruct (pending_sim_chain _ _ _ Hsim Hch) as [Hch2 Hv2].
  split; [done|]. cbn [chain_views restored view tail]. by rewrite Hv2.
Qed.

(** *** Entries *)

Definition storage_wf (e : OverlayedEntry StorageEntry) : Prop := chain_wf None (value <$> e).
Definition storage_views (e : OverlayedEntry StorageEntry) : list (option StorageValue) :=
  chain_views None (value <$> e).

Lemma restore_head_spec data m p e :
  prefix_ok data m -> chain_wf (Some (data, m, p)) (value <$> e) ->
  exists e', restore_head data m p e = Some e' /\ storage_wf e' /\
    storage_views e' = chain_views (Some (data, m, p)) (value <$> e).
Proof.
  intros Hp. destruct e as [|[[| |d0 n pm ps] ex] e]; cbn [fmap list_fmap value chain_wf]; try naive_solver.
  intros (Hok & Hwf & Hch). cbn [restored] in *. unfold restore_head. cbn [value].
  unfold storage_views, storage_wf. cbn [fmap list_fmap chain_views restored].
  rewrite restore_spec in * by done. cbn [default from_option id mbind option_bind] in *.
  eexists. split; [done|]. done.
Qed.

(** What is below a layer, once the layer has handed its data back. *)
Lemma storage_below iv e :
  storage_wf (iv :: e) ->
  exists e', match value iv with
             | Append data _ m (Some p) => restore_head data m p e
             | _ => Some e
             end = Some e' /\ storage_wf e' /\ storage_views e' = tail (storage_views (iv :: e)).
Proof.
  intros (_ & Hwf & Hch). cbn [restored] in *. unfold storage_views. cbn [fmap list_fmap chain_views tail].
  cbn [restored]. destruct (value iv) as [| |d n m [p|]]; cbn [pending_of] in *; try by exists e.
  apply restore_head_spec; [apply Hwf|done].
Qed.

(** Whatever is written over it, a value stands alone. *)
Lemma storage_push s ex e :
  layer_wf s -> pending_of s = None -> storage_wf e ->
  storage_wf (mkInner s ex :: e) /\ storage_views (mkInner s ex :: e) = view s :: storage_views e.
Proof.
  intros Hs Hp He. unfold storage_wf, storage_views. cbn. rewrite Hp. by split_and!.
Qed.

(** Extrinsic indices play no role in the value of an entry. *)
Lemma storage_extrinsics s ex1 ex2 e :
  (storage_wf (mkInner s ex1 :: e) <-> storage_wf (mkInner s ex2 :: e)) /\
  storage_views (mkInner s ex1 :: e) = storage_views (mkInner s ex2 :: e).
Proof. done. Qed.

Lemma merge_entry_append d n m p ex1 iv2 e :
  let e0 := mkInner (Append d n m (Some p)) ex1 :: iv2 :: e in
  storage_wf e0 ->
  exists e', merge_entry e0 = Some e' /\ storage_wf e' /\
    storage_views e' = take 1 (storage_views e0) ++ drop 2 (storage_views e0).
Proof.
  intros e0 (_ & Hwf1 & Hok & Hwf2 & Hch). cbn [value restored pending_of] in *.
  destruct iv2 as [[| |d2 n2 pm keep] ex2]; try done. cbn [value] in *.
  rewrite restore_spec in * by apply Hok || apply Hwf1. cbn [default from_option id] in *.
  destruct (prefix_ok_take d m (p - prefix_len pm) (proj2 Hwf1)) as [_ Hb].
  destruct (chain_extend (value <$> e) (take (p - prefix_len pm + prefix_len m) d) n2 m d n m keep)
    as [Hwf' Hv'].
  - apply Hwf1.
  - rewrite Hb. apply prefix_take.
  - apply Hwf1.
  - done.
  - eexists. split; [done|]. split; [done|].
    trans (chain_views None (Append d n m keep :: (value <$> e))); [done|]. rewrite Hv'.
    unfold storage_views, e0. cbn [fmap list_fmap value chain_views restored pending_of tail].
    rewrite restore_spec by apply Hok || apply Hwf1. cbn [default from_option id pending_of view].
    cbn [take drop app]. by rewrite drop_0.
Qed.

Lemma merge_entry_plain iv1 iv2 e :
  pending_of (value iv1) = None -> storage_wf (iv1 :: iv2 :: e) ->
  exists e', merge_entry (iv1 :: iv2 :: e) = Some e' /\ storage_wf e' /\
    storage_views e' = take 1 (storage_views (iv1 :: iv2 :: e)) ++ drop 2 (storage_views (iv1 :: iv2 :: e)).
Proof.
  intros Hp (_ & Hwf1 & Hch). cbn [restored] in *. rewrite Hp in Hch.
  destruct (storage_below iv2 e Hch) as (below & Hb & Hbwf & Hbv).
  destruct (storage_push (value iv1) (extrinsics iv2 ++ extrinsics iv1) below Hwf1 Hp Hbwf)
    as [Hwf' Hv'].
  exists (mkInner (value iv1) (extrinsics iv2 ++ extrinsics iv1) :: below). split; [|split; [done|]].
  - unfold merge_entry. cbn [pop_transaction mbind option_bind].
    destruct (value iv1) as [| |d n m [p|]]; try done;
      destruct (value iv2) as [| |d2 n2 m2 [p2|]]; try (by simplify_eq/=);
      (destruct e as [|parent e]; [done|]; by rewrite Hb).
  - rewrite Hv', Hbv. unfold storage_views. cbn [fmap list_fmap chain_views restored].
    rewrite Hp. cbn. by rewrite drop_0.
Qed.

#[export] Instance storage_entries : EntryModel StorageEntry (option StorageValue)
  rollback_entry merge_entry.
Proof.
  refine {| entry_wf := storage_wf; entry_views := storage_views |}.
  - done.
  - intros e. unfold storage_views. by rewrite length_chain_views, length_fmap.
  - intros [|iv e] Hwf Hne; [done|]. exact (storage_below iv e Hwf).
  - intros [|iv1 [|iv2 e]] Hwf Hlen; cbn in Hlen; [lia..|].
    destruct iv1 as [[| |d n m [p|]] ex1]; try (by apply merge_entry_plain).
    by apply merge_entry_append.
Defined.

(** *** Writing and reading storage entries *)

Lemma record_extrinsic_cons {V : Type} ext (s : V) ex e :
  exists ex', record_extrinsic ext (mkInner s ex :: e) = Some (mkInner s ex' :: e).
Proof. destruct ext; cbn; eauto. Qed.

Lemma storage_writes f a first e s ex e' ext :
  f first e = record_extrinsic ext (mkInner s ex :: e') ->
  storage_wf (mkInner s ex :: e') ->
  storage_views (mkInner s ex :: e')
    = a :: (if (first : bool) then storage_views e else tail (storage_views e)) ->
  writes rollback_entry merge_entry f a first e.
Proof.
  intros Hf Hwf Hv. destruct (record_extrinsic_cons ext s ex e') as [ex' Hr].
  exists (mkInner s ex' :: e'). rewrite Hf. by split_and!.
Qed.

Lemma set_writes v ext first e :
  storage_wf e ->
  writes rollback_entry merge_entry (fun first => entry_set v first ext) v first e.
Proof.
  intros Hwf. set (s := match v with None => Remove | Some v => Set_ v end).
  assert (Hs : layer_wf s /\ pending_of s = None /\ view s = v) by (by destruct v).
  destruct Hs as (Hs & Hp & Hview).
  destruct first; [|destruct e as [|iv e]].
  - destruct (storage_push s [] e Hs Hp Hwf) as [Hwf' Hv'].
    eapply (storage_writes _ _ _ _ s [] e ext); [done|done|congruence].
  - destruct (storage_push s [] [] Hs Hp Hwf) as [Hwf' Hv'].
    eapply (storage_writes _ _ _ _ s [] [] ext); [done|done|by rewrite Hv', Hview].
  - destruct (storage_below iv e Hwf) as (e' & He' & Hwf' & Hv').
    destruct (storage_push s (extrinsics iv) e' Hs Hp Hwf') as [Hwf2 Hv2].
    eapply (storage_writes _ _ _ _ s (extrinsics iv) e' ext); [|done|congruence].
    unfold entry_set. fold s. destruct (value iv) as [| |d n m [p|]]; try (by simplify_eq/=).
    by rewrite He'.
Qed.

(** The specification of an append: the value is a SCALE list whose length
    prefix is counted up, or it is reset to a list of one element. *)
Definition append_to (element v : StorageValue) : StorageValue :=
  match compact_decode v with
  | Some n => compact_encode (incr_length n) ++ drop (compact_len n) v ++ element
  | None => compact_encode 1 ++ element
  end.

Definition appended (element init : StorageValue) (current : option (option StorageValue)) :
    StorageValue :=
  match current with
  | None => append_to element init
  | Some None => compact_encode 1 ++ element
  | Some (Some v) => append_to element v
  end.

Lemma incr_length_uint n : is_uint 32 (incr_length n).
Proof. apply wrapping_is_uint. lia. Qed.

(** An append to a plain value. *)
Definition append_layer (element v : StorageValue) : StorageEntry :=
  match extract_length v with
  | Some n => Append (append_raw element v) (incr_length n) (Some n) None
  | None => Append element 1 None None
  end.

Lemma append_layer_spec element v :
  layer_wf (append_layer element v) /\ pending_of (append_layer element v) = None /\
  view (append_layer element v) = Some (append_to element v).
Proof.
  unfold append_layer, append_to, extract_length.
  destruct (compact_decode v) as [n|] eqn:Hd; [|by repeat split].
  apply compact_decode_canonical in Hd as (Hn & rest & ->).
  split_and!; [|done|].
  - split; [apply incr_length_uint|]. split; [done|]. exists (rest ++ element).
    unfold append_raw. by rewrite app_assoc.
  - cbn [view]. unfold append_raw. rewrite <- app_assoc. rewrite body_encode by done.
    rewrite <- compact_len_encode by done. by rewrite drop_app_length.
Qed.

(** The view of an [Append] layer reads back its element count. *)
Lemma append_to_view element d n m :
  is_uint 32 n ->
  append_to element (compact_encode n ++ body d m)
  = compact_encode (incr_length n) ++ body d m ++ element.
Proof.
  intros Hn. unfold append_to. rewrite compact_decode_encode by done.
  rewrite <- compact_len_encode by done. by rewrite drop_app_length.
Qed.

(** Appending to a layer that is not an [Append]: the new layer [s] stands
    alone. *)
Lemma append_plain_writes element init ext first iv e s a :
  storage_wf (iv :: e) -> pending_of (value iv) = None ->
  layer_wf s -> pending_of s = None -> view s = a ->
  entry_append element first init ext (iv :: e)
    = record_extrinsic ext (if first then mkInner s [] :: iv :: e
                            else mkInner s (extrinsics iv) :: e) ->
  writes rollback_entry merge_entry (fun first => entry_append element first init ext) a first
    (iv :: e).
Proof.
  intros Hwf Hiv Hs Hp Hview Heq. destruct first.
  - destruct (storage_push s [] _ Hs Hp Hwf) as [Hwf' Hv'].
    eapply (storage_writes _ _ _ _ s [] (iv :: e) ext); [done|done|congruence].
  - assert (Hbelow : storage_wf e /\ storage_views e = tail (storage_views (iv :: e))).
    { destruct (storage_below iv e Hwf) as (e' & He' & Hwf' & Hv').
      destruct (value iv) as [| |d n m [p|]]; by simplify_eq/=. }
    destruct Hbelow as [Hb1 Hb2].
    destruct (storage_push s (extrinsics iv) _ Hs Hp Hb1) as [Hwf' Hv'].
    eapply (storage_writes _ _ _ _ s (extrinsics iv) e ext); [done|done|congruence].
Qed.

(** The first append of a transaction moves the data up, and the layer below
    still stands for the same value. *)
Lemma append_move d n m ps ex e element :
  storage_wf (mkInner (Append d n m ps) ex :: e) ->
  let e' := mkInner (Append (d ++ element) (incr_length n) m (Some (length d))) []
              :: mkInner (Append [] n m ps) ex :: e in
  storage_wf e' /\
  storage_views e' = Some (compact_encode (incr_length n) ++ body d m ++ element)
                       :: storage_views (mkInner (Append d n m ps) ex :: e).
Proof.
  intros (_ & [Hn Hp] & Hch) e'. cbn [value restored] in *.
  destruct (prefix_ok_app d m element Hp) as [Hp' Hb']. pose proof (prefix_ok_len _ _ Hp).
  assert (Hok : pending_ok (Some (d ++ element, m, length d)) (Append [] n m ps)).
  { split; [done|]. rewrite Hb', length_app. unfold body. rewrite length_drop. lia. }
  assert (Hr : restored (Some (d ++ element, m, length d)) (Append [] n m ps) = Append d n m ps).
  { cbn [restored]. rewrite restore_spec by done. cbn. f_equal.
    rewrite Nat.sub_add by done. apply take_app_length. }
  set (top := Append (d ++ element) (incr_length n) m (Some (length d))) in *.
  unfold e', storage_wf, storage_views. cbn [fmap list_fmap value chain_wf chain_views].
  change (restored None top) with top.
  change (pending_of top) with (Some (d ++ element, m, length d)). rewrite !Hr.
  split; [|unfold top; cbn [view]; by rewrite Hb'].
  repeat (split; [done|]). split; [split; [apply incr_length_uint|done]|]. done.
Qed.

Lemma append_writes element init ext first e :
  storage_wf e ->
  writes rollback_entry merge_entry (fun first => entry_append element first init ext)
    (Some (appended element init (head (storage_views e)))) first e.
Proof.
  intros Hwf. destruct e as [|[[v| |d n m ps] ex] e].
  - destruct (append_layer_spec element init) as (Hs & Hp & Hview).
    destruct (storage_push (append_layer element init) [] [] Hs Hp Hwf) as [Hwf' Hv'].
    eapply (storage_writes _ _ _ _ (append_layer element init) [] [] ext).
    + unfold entry_append, append_layer. by destruct (extract_length init).
    + done.
    + rewrite Hv', Hview. by destruct first.
  - destruct (append_layer_spec element v) as (Hs & Hp & Hview).
    eapply append_plain_writes; try done.
    unfold entry_append, append_layer. cbn [value extrinsics].
    by destruct first, (extract_length v).
  - eapply (append_plain_writes _ _ _ _ _ _ (Append element 1 None None)); done.
  - assert (Ha : appended element init (head (storage_views (mkInner (Append d n m ps) ex :: e)))
                 = compact_encode (incr_length n) ++ body d m ++ element)
      by (apply append_to_view; apply Hwf).
    rewrite Ha. pose proof Hwf as (_ & [Hn Hp] & Hch). cbn [value restored] in *.
    destruct first.
    + destruct (append_move d n m ps ex e element Hwf) as [Hwf' Hv'].
      eapply storage_writes; [done|done|done].
    + destruct (prefix_ok_app d m element Hp) as [Hp' Hb'].
      destruct (chain_extend (value <$> e) d n m (d ++ element) (incr_length n) m ps)
        as [Hwf' Hv']; [done|rewrite Hb'; by apply prefix_app_r|apply incr_length_uint|done|].
      rewrite Hb' in Hv'.
      eapply (storage_writes _ _ _ _ (Append (d ++ element) (incr_length n) m ps) ex e ext);
        [done|done|done].
Qed.

Lemma value_reads e :
  storage_wf e -> e <> [] ->
  exists r e', entry_value e = Some (r, e') /\ storage_wf e' /\ storage_views e' = storage_views e /\
    head (storage_views e) = Some r.
Proof.
  intros Hwf Hne. destruct e as [|[[v| |d n m ps] ex] e]; [done|by eexists _, _..|].
  unfold entry_value, as_option. cbn [value extrinsics materialize_in_place].
  pose proof Hwf as (_ & [Hn Hp] & Hch). case_decide as Hm.
  - subst m. destruct Hp as (_ & rest & ->). eexists _, _. repeat (split; [done|]).
    unfold storage_views.
    cbn [fmap list_fmap value chain_views restored view head]. by rewrite body_encode.
  - unfold replace_length. rewrite decide_True by (by apply prefix_ok_len).
    cbn [mbind option_bind].
    destruct (chain_extend (value <$> e) d n m (compact_encode n ++ body d m) n (Some n) ps)
      as [Hwf' Hv'].
    + split; [done|]. by eexists.
    + by rewrite body_encode.
    + done.
    + done.
    + eexists _, _. split; [done|]. split; [done|]. split; [|done].
      trans (chain_views None (Append (compact_encode n ++ body d m) n (Some n) ps :: (value <$> e)));
        [done|].
      rewrite Hv', body_encode by done. done.
Qed.
End storage_entries.

(** ** The change set implements the specification *)

Section change_set_refinement.
Context {C : CompactCodec} {L : CompactLaws C}.

Abbreviation spec_state := (Spec.state StorageKey (option StorageValue)).
Abbreviation refines := (refines rollback_entry merge_entry).

Lemma read_refines (m : OverlayedChangeSet) (s : spec_state) k :
  refines m s -> Spec.read k s = head (storage_views (entry_or_default m k)).
Proof.
  intros [_ Hd Hcol _ _]. unfold Spec.read. destruct (Spec.layers s) as [|l ls] eqn:Hl; [done|].
  specialize (Hcol k). apply (f_equal head) in Hcol.
  rewrite head_column in Hcol. cbn in *. congruence.
Qed.

Lemma entry_read (m : OverlayedChangeSet) (s : spec_state) k :
  refines m s -> is_Some (changes m !! k) <-> is_Some (Spec.read k s).
Proof.
  intros Href. rewrite (read_refines _ _ _ Href). unfold entry_or_default.
  destruct (changes m !! k) as [[|iv e]|] eqn:He; cbn.
  - by apply (wf_entries _ _ _ (ref_wf _ _ _ _ Href)) in He as [].
  - split; eauto.
  - split; intros [? ?]; done.
Qed.

Lemma storage_entry_wf (m : OverlayedChangeSet) (s : spec_state) k :
  refines m s -> storage_wf (entry_or_default m k).
Proof. intros Href. exact (default_entry_wf rollback_entry merge_entry m k (ref_wf _ _ _ _ Href)). Qed.

Lemma set_refines m s k v ext :
  refines m s -> exists m', set k v ext m = Some m' /\ refines m' (Spec.write k v s).
Proof.
  intros Href. apply (update_refines _ _ _ _ _ _ _ Href). apply set_writes.
  by apply (storage_entry_wf m s).
Qed.

Lemma append_refines m s k v init ext :
  refines m s ->
  exists m', append_storage k v init ext m = Some m' /\
    refines m' (Spec.write k (Some (appended v init (Spec.read k s))) s).
Proof.
  intros Href. apply (update_refines _ _ _ _ _ _ _ Href). rewrite (read_refines _ _ _ Href).
  apply append_writes. by apply (storage_entry_wf m s).
Qed.

Lemma get_refines m s k :
  refines m s -> exists m', get_value k m = Some (Spec.read k s, m') /\ refines m' s.
Proof.
  intros Href. rewrite (read_refines _ _ _ Href). unfold get_value, entry_or_default.
  destruct (changes m !! k) as [e|] eqn:He; [|by exists m].
  destruct (wf_entries _ _ _ (ref_wf _ _ _ _ Href) _ _ He) as [Hne Hwf].
  destruct (value_reads e Hwf Hne) as (r & e' & -> & Hwf' & Hv & Hr).
  cbn [default from_option id mbind option_bind].
  eexists. split; [by rewrite Hr|].
  destruct s as [ls c md].
  pose proof (ref_column _ _ _ _ Href k) as Hcol. pose proof (wf_fits _ _ _ (ref_wf _ _ _ _ Href) k) as Hfit.
  unfold entry_or_default in *. rewrite He in *. cbn [default from_option id Spec.layers] in *.
  assert (Hlen : length e' = length e).
  { apply (f_equal length) in Hv. unfold storage_views in Hv.
    by rewrite !length_chain_views, !length_fmap in Hv. }
  apply (insert_refines _ _ m (Spec.mkState ls c md)); try done.
  - intros ->. by destruct e.
  - by rewrite Hlen.
  - rewrite <- Hcol. f_equal. exact Hv.
Qed.

(** *** Clearing *)

Definition live (k : StorageKey) (s : spec_state) : bool :=
  match Spec.read k s with
  | Some (Some _) => true
  | _ => false
  end.

Lemma live_spec m s k e v :
  refines m s -> changes m !! k = Some e -> value_ref e = Some v -> is_live v = live k s.
Proof.
  intros Href He Hv. unfold live. rewrite (read_refines _ _ _ Href). unfold entry_or_default.
  rewrite He. destruct e as [|[w ex] e]; [done|]. cbn in Hv. injection Hv as ->. by destruct v.
Qed.

Lemma read_write s (k j : StorageKey) (v : option StorageValue) :
  Spec.layers s <> [] ->
  Spec.read j (Spec.write k v s) = if decide (j = k) then Some v else Spec.read j s.
Proof.
  unfold Spec.read, Spec.write. destruct (Spec.layers s) as [|l ls] eqn:Hl; [done|]. intros _. cbn.
  rewrite ?Hl. cbn. case_decide; simplify_map_eq; done.
Qed.

Lemma refines_nonempty (m : OverlayedChangeSet) (s : spec_state) : refines m s -> Spec.layers s <> [].
Proof. intros [_ Hd _ _ _] Hl. by rewrite Hl in Hd. Qed.

Lemma clear_keys_refines ext ks count m s :
  refines m s -> NoDup ks -> (forall k, k ∈ ks -> is_Some (changes m !! k)) ->
  exists m', clear_keys ext ks (count, m) = Some (count + length (filter (fun k => live k s) ks), m') /\
    refines m' (foldr (fun k => Spec.write k None) s (reverse ks)).
Proof.
  revert count m s. induction ks as [|k ks IH]; intros count m s Href Hnd Hin.
  { exists m. cbn. by rewrite Nat.add_0_r. }
  apply NoDup_cons in Hnd as [Hk Hnd]. cbn [clear_keys clear_key].
  destruct (Hin k) as [e He]; [set_solver|]. rewrite He. cbn [mbind option_bind].
  destruct (wf_entries _ _ _ (ref_wf _ _ _ _ Href) _ _ He) as [Hne _].
  destruct (value_ref e) as [v|] eqn:Hv; [|by destruct e]. cbn [mbind option_bind].
  rewrite (live_spec m s k e v) by done.
  destruct (set_refines m s k None ext Href) as (m1 & -> & Href1). cbn [mbind option_bind].
  pose proof (refines_nonempty _ _ Href) as Hl.
  assert (Hread : forall j, j ∈ ks -> Spec.read j (Spec.write k None s) = Spec.read j s).
  { intros j Hj. rewrite read_write by done. by rewrite decide_False by (by intros ->). }
  destruct (IH (if live k s then S count else count) m1 _ Href1 Hnd) as (m2 & -> & Href2).
  { intros j Hj. rewrite (entry_read _ _ _ Href1), Hread by done.
    rewrite <- (entry_read _ _ _ Href). apply Hin. set_solver. }
  exists m2. split; [|by rewrite reverse_cons, foldr_app].
  assert (Hf : filter (fun j => live j (Spec.write k None s)) ks = filter (fun j => live j s) ks).
  { apply list_filter_ext_in. intros j Hj. unfold live. by rewrite Hread. }
  rewrite Hf, filter_cons.
  destruct (live k s); [rewrite decide_True by done|rewrite decide_False by auto]; cbn; [|done].
  do 2 f_equal. lia.
Qed.

Lemma foldr_write (s : spec_state) l ls ks :
  Spec.layers s = l :: ls ->
  foldr (fun k => Spec.write k None) s ks
  = Spec.mkState (foldr (fun k => <[k := None]>) l ks :: ls) (Spec.client s) (Spec.mode s).
Proof.
  intros Hl. induction ks as [|k ks IH]; cbn; [by destruct s; cbn in *; subst|].
  by rewrite IH.
Qed.

Lemma lookup_foldr_insert {A : Type} (l : gmap StorageKey A) ks a j :
  foldr (fun k => <[k := a]>) l ks !! j = if decide (j ∈ ks) then Some a else l !! j.
Proof.
  induction ks as [|k ks IH]; cbn; [by rewrite decide_False by set_solver|].
  destruct (decide (j = k)) as [->|Hjk].
  - rewrite lookup_insert_eq, decide_True by set_solver. done.
  - rewrite lookup_insert_ne, IH by done. repeat case_decide; set_solver.
Qed.

Lemma clear_refines m s p ext :
  refines m s ->
  exists m', clear_where (fun k _ => p k) ext m = Some (fst (Spec.clear p s), m') /\
    refines m' (snd (Spec.clear p s)).
Proof.
  intros Href. unfold clear_where.
  set (ks := fst <$> _).
  assert (Hks : forall k, k ∈ ks <-> p k /\ is_Some (Spec.read k s)).
  { intros k. unfold ks. rewrite list_elem_of_fmap. setoid_rewrite list_elem_of_filter.
    rewrite <- (entry_read _ _ _ Href). split.
    - intros ([k' e] & -> & Hp & He%elem_of_map_to_list). eauto.
    - intros (Hp & e & He). exists (k, e). split_and!; [done..|]. by apply elem_of_map_to_list. }
  assert (Hnd : NoDup ks).
  { unfold ks. eapply sublist_NoDup; [apply (NoDup_fst_map_to_list (changes m))|].
    apply fmap_sublist, sublist_filter. }
  destruct (clear_keys_refines ext ks 0 m s Href Hnd) as (m' & -> & Href').
  { intros k Hk. apply (entry_read _ _ _ Href). by apply Hks. }
  pose proof (refines_nonempty _ _ Href) as Hne. unfold Spec.clear.
  destruct (Spec.layers s) as [|l ls] eqn:Hl; [done|].
  assert (Hread : forall k, Spec.read k s = l !! k) by (intros k; unfold Spec.read; by rewrite Hl).
  setoid_rewrite Hread in Hks.
  exists m'. cbn [fst snd]. split.
  - do 2 f_equal. cbn [Nat.add]. rewrite <- length_map_to_list, <- (length_fmap fst (map_to_list _)).
    apply Permutation_length, NoDup_Permutation;
      [by apply NoDup_filter|apply NoDup_fst_map_to_list|].
    intros k. rewrite list_elem_of_filter, Hks, list_elem_of_fmap. unfold live. rewrite Hread. split.
    + intros (Hlive & Hp & v & Hv). rewrite Hv in Hlive. destruct v as [v|]; [|done].
      exists (k, Some v). split; [done|]. apply elem_of_map_to_list. apply map_lookup_filter_Some. eauto.
    + intros ([k' v] & -> & Hkv). apply elem_of_map_to_list, map_lookup_filter_Some in Hkv.
      cbn in Hkv. destruct Hkv as (Hv & Hp & v' & ->). cbn. rewrite Hv. eauto.
  - rewrite (foldr_write s l ls) in Href' by done. replace (map_imap _ l) with
      (foldr (fun k => <[k := None]>) l (reverse ks)); [done|].
    apply map_eq. intros k. rewrite lookup_foldr_insert, map_lookup_imap.
    specialize (Hks k). destruct (l !! k) as [v|] eqn:Hv; cbn.
    + destruct (p k) eqn:Hp; [rewrite decide_True|rewrite decide_False]; [done| |done|];
        rewrite elem_of_reverse, Hks; naive_solver.
    + rewrite decide_False; [done|]. rewrite elem_of_reverse, Hks. intros [_ [? ?]]. done.
Qed.

(** *** Sequences of operations *)

Inductive op :=
| OpSet (key : StorageKey) (v : option StorageValue) (at_extrinsic : option Z)
| OpAppend (key : StorageKey) (element init : StorageValue) (at_extrinsic : option Z)
| OpGet (key : StorageKey)
| OpClear (p : StorageKey -> bool) (at_extrinsic : option Z)
| OpStart
| OpRollback
| OpCommit
| OpEnter
| OpExit.

(** What a caller sees of an operation. *)
Inductive obs :=
| Done
| Read (v : option (option StorageValue))
| Cleared (n : nat)
| NoTransaction
| WrongMode.

Definition observe {E A : Type} (err : obs) (x : outcome E A) (old : A) : option (obs * A) :=
  match x with
  | Ok a => Some (Done, a)
  | Err _ => Some (err, old)
  | Panic => None
  end.

Definition step (o : op) (m : OverlayedChangeSet) : option (obs * OverlayedChangeSet) :=
  match o with
  | OpSet k v ext => m ← set k v ext m; Some (Done, m)
  | OpAppend k el init ext => m ← append_storage k el init ext m; Some (Done, m)
  | OpGet k => '(r, m) ← get_value k m; Some (Read r, m)
  | OpClear p ext => '(n, m) ← clear_where (fun k _ => p k) ext m; Some (Cleared n, m)
  | OpStart => Some (Done, start_transaction m)
  | OpRollback => observe NoTransaction (rollback_transaction m) m
  | OpCommit => observe NoTransaction (commit_transaction m) m
  | OpEnter => observe WrongMode (enter_runtime m) m
  | OpExit => observe WrongMode (exit_runtime m) m
  end.

Definition spec_step (o : op) (s : spec_state) : option (obs * spec_state) :=
  match o with
  | OpSet k v _ => Some (Done, Spec.write k v s)
  | OpAppend k el init _ => Some (Done, Spec.write k (Some (appended el init (Spec.read k s))) s)
  | OpGet k => Some (Read (Spec.read k s), s)
  | OpClear p _ => let '(n, s) := Spec.clear p s in Some (Cleared n, s)
  | OpStart => Some (Done, Spec.start s)
  | OpRollback => observe NoTransaction (Spec.rollback s) s
  | OpCommit => observe NoTransaction (Spec.commit s) s
  | OpEnter => observe WrongMode (Spec.enter s) s
  | OpExit => observe WrongMode (Spec.exit s) s
  end.

Fixpoint run {S : Type} (f : op -> S -> option (obs * S)) (ops : list op) (s : S) :
    option (list obs * S) :=
  match ops with
  | [] => Some ([], s)
  | o :: ops =>
      '(r, s) ← f o s;
      '(rs, s) ← run f ops s;
      Some (r :: rs, s)
  end.

(** One operation: the overlay does not panic, answers like the
    specification and stays related to it. *)
Lemma step_refines o m s :
  refines m s ->
  exists r m' s', step o m = Some (r, m') /\ spec_step o s = Some (r, s') /\ refines m' s'.
Proof.
  intros Href. destruct o; cbn [step spec_step].
  - destruct (set_refines m s key v at_extrinsic Href) as (m' & -> & ?). by eexists _, _, _.
  - destruct (append_refines m s key element init at_extrinsic Href) as (m' & -> & ?).
    by eexists _, _, _.
  - destruct (get_refines m s key Href) as (m' & -> & ?). by eexists _, _, _.
  - destruct (clear_refines m s p at_extrinsic Href) as (m' & -> & Hs).
    destruct (Spec.clear p s). by eexists _, _, _.
  - eexists _, _, _. split_and!; [done..|]. by apply start_refines.
  - unfold rollback_transaction, close_transaction, Spec.rollback.
    pose proof (close_guard rollback_entry merge_entry true m s Href) as Hg.
    destruct (Spec.closable s) eqn:Hc; [|rewrite Hg; by eexists _, _, _].
    destruct (close_refines _ _ true m s Href Hc) as (m' & -> & ?). by eexists _, _, _.
  - unfold commit_transaction, close_transaction, Spec.commit.
    pose proof (close_guard rollback_entry merge_entry false m s Href) as Hg.
    destruct (Spec.closable s) eqn:Hc; [|rewrite Hg; by eexists _, _, _].
    destruct (close_refines _ _ false m s Href Hc) as (m' & -> & ?). by eexists _, _, _.
  - pose proof (enter_refines rollback_entry merge_entry m s Href) as He.
    destruct (Spec.enter s); [destruct He as (m' & -> & ?)|rewrite He|done]; by eexists _, _, _.
  - pose proof (exit_refines rollback_entry merge_entry m s Href) as He.
    change (exit_runtime m) with (exit_with (close_with rollback_entry merge_entry true) m).
    destruct (Spec.exit s); [destruct He as (m' & -> & ?)|rewrite He|done]; by eexists _, _, _.
Qed.

Lemma run_refines ops m s :
  refines m s ->
  exists rs m' s', run step ops m = Some (rs, m') /\ run spec_step ops s = Some (rs, s') /\
    refines m' s'.
Proof.
  revert m s. induction ops as [|o ops IH]; intros m s Href; [by eexists _, _, _|]. cbn.
  destruct (step_refines o m s Href) as (r & m1 & s1 & -> & -> & Href1). cbn.
  destruct (IH m1 s1 Href1) as (rs & m2 & s2 & -> & -> & Href2). by eexists _, _, _.
Qed.

(** C1: the change set, with its dirty-key sets, moved append buffers and
    lazily written length prefixes, is indistinguishable from a stack of
    plain maps.  Every sequence of operations on a fresh change set runs
    without a panic (none of the [expect]s and index computations of
    changeset.rs can fail) and every read, count and error is the one the
    stack of maps gives.  [OpExit] is [exit_runtime], which in the code and
    in the stack of maps rolls back the transactions the runtime left open;
    the documentation of [exit_runtime] says that it commits them. *)
Theorem changeset_refines_stack_of_maps (ops : list op) :
  exists rs m s, run step ops default_map = Some (rs, m) /\
    run spec_step ops Spec.init = Some (rs, s) /\
    forall k, exists m', get_value k m = Some (Spec.read k s, m').
Proof.
  destruct (run_refines ops default_map Spec.init) as (rs & m & s & ? & ? & Href);
    [apply default_refines|].
  exists rs, m, s. split_and!; [done..|]. intros k.
  destruct (get_refines m s k Href) as (m' & ? & _). eauto.
Qed.

(** *** The client is protected from the runtime *)

Definition runtime_op (o : op) : bool :=
  match o with
  | OpEnter | OpExit => false
  | _ => true
  end.

(** What the runtime cannot touch: the layers below the one that was current
    when it was entered. *)
Lemma runtime_step (o : op) (s s' : spec_state) (r : obs)
    (top base : list (gmap StorageKey (option StorageValue))) :
  runtime_op o -> Spec.mode s = Runtime -> Spec.client s = length base ->
  top <> [] -> Spec.layers s = top ++ base -> spec_step o s = Some (r, s') ->
  Spec.mode s' = Runtime /\ Spec.client s' = length base /\
  exists top', top' <> [] /\ Spec.layers s' = top' ++ base.
Proof.
  intros Ho Hm Hc Htop Hl. destruct top as [|l top]; [done|]. cbn in Hl.
  destruct o; cbn in Ho; try done; cbn [spec_step];
    unfold Spec.write, Spec.clear, Spec.start, Spec.rollback, Spec.commit, Spec.closable, Spec.depth;
    rewrite ?Hm, ?Hl, ?Hc; try case_bool_decide as Hd; intros [= <- <-]; cbn; rewrite ?Hm, ?Hc;
    split_and!; try done; rewrite ?Hl;
    try match goal with
        | |- exists _, _ /\ ?x :: top ++ base = _ => by exists (x :: top)
        | |- exists _, _ /\ ?x :: ?y :: top ++ base = _ => by exists (x :: y :: top)
        end.
  - cbn in Hd. rewrite length_app in Hd. exists top. split; [|done]. destruct top; cbn in *; [lia|done].
  - cbn in Hd. rewrite length_app in Hd. destruct top as [|l2 top]; cbn in *; [lia|].
    by exists (l :: top).
Qed.

Lemma runtime_run (ops : list op) (s s' : spec_state) (rs : list obs)
    (top base : list (gmap StorageKey (option StorageValue))) :
  Forall runtime_op ops -> Spec.mode s = Runtime -> Spec.client s = length base ->
  top <> [] -> Spec.layers s = top ++ base -> run spec_step ops s = Some (rs, s') ->
  Spec.mode s' = Runtime /\ Spec.client s' = length base /\
  exists top', top' <> [] /\ Spec.layers s' = top' ++ base.
Proof.
  revert s top rs. induction ops as [|o ops IH]; intros s top rs Ho Hm Hc Htop Hl Hrun.
  - injection Hrun as <- <-. eauto.
  - apply Forall_cons in Ho as [Ho Hops]. cbn in Hrun.
    destruct (spec_step o s) as [[r s1]|] eqn:Hs; [|done]. cbn in Hrun.
    destruct (run spec_step ops s1) as [[rs1 s2]|] eqn:Hr; [|done]. cbn in Hrun.
    injection Hrun as <- <-.
    destruct (runtime_step o s s1 r top base) as (Hm1 & Hc1 & top1 & Ht1 & Hl1); [done..|].
    by apply (IH s1 top1 rs1).
Qed.

Lemma run_app {S : Type} (f : op -> S -> option (obs * S)) ops1 ops2 s :
  run f (ops1 ++ ops2) s =
    ('(rs1, s) ← run f ops1 s; '(rs2, s) ← run f ops2 s; Some (rs1 ++ rs2, s)).
Proof.
  revert s. induction ops1 as [|o ops1 IH]; intros s; cbn.
  - by destruct (run f ops2 s) as [[? ?]|].
  - destruct (f o s) as [[r s1]|]; cbn; [|done]. rewrite IH.
    destruct (run f ops1 s1) as [[rs1 s2]|]; cbn; [|done].
    by destruct (run f ops2 s2) as [[? ?]|].
Qed.

(** The specification of a runtime call inside a client transaction that is
    rolled back. *)
Lemma spec_runtime_undone (ops : list op) (s : spec_state) :
  Forall runtime_op ops -> Spec.mode s = Client -> Spec.layers s <> [] ->
  forall rs s', run spec_step ([OpStart; OpEnter] ++ ops ++ [OpExit; OpRollback]) s = Some (rs, s') ->
  last rs = Some Done /\ Spec.layers s' = Spec.layers s.
Proof.
  intros Ho Hm Hne rs s' Hrun. destruct (Spec.layers s) as [|l ls] eqn:Hl; [done|].
  set (s1 := Spec.mkState (l :: l :: ls) (length (l :: ls)) Runtime : spec_state).
  assert (Hpre : run spec_step [OpStart; OpEnter] s = Some ([Done; Done], s1)).
  { cbn. unfold Spec.start, Spec.enter. rewrite Hl. cbn. by rewrite Hm. }
  rewrite run_app, Hpre in Hrun. cbn [mbind option_bind] in Hrun. rewrite run_app in Hrun.
  destruct (run spec_step ops s1) as [[rs1 s2]|] eqn:Hr; [|done]. cbn [mbind option_bind] in Hrun.
  destruct (runtime_run ops s1 s2 rs1 [l] (l :: ls)) as (Hm2 & Hc2 & top & Ht & Hl2); [done..|].
  assert (Hx : exists x, drop (Spec.depth s2 - Spec.client s2) (Spec.layers s2) = x :: l :: ls).
  { unfold Spec.depth. rewrite Hl2, Hc2, length_app.
    destruct (exists_last Ht) as (top' & x & ->). exists x. rewrite length_app. cbn.
    rewrite <- app_assoc. apply drop_app_length'. lia. }
  destruct Hx as [x Hx]. cbn in Hrun. unfold Spec.exit in Hrun. rewrite Hm2 in Hrun. cbn in Hrun.
  rewrite Hx in Hrun. cbn in Hrun. injection Hrun as <- <-.
  split; [|done]. by rewrite (app_assoc [Done; Done] rs1 [Done; Done] : Done :: Done :: _ = _), last_app_cons.
Qed.

(** C5: what the runtime does between [enter_runtime] and [exit_runtime]
    cannot escape the client.  Whatever operations the runtime performs
    (unbalanced transactions included), closing the client's own transaction
    with a rollback succeeds and gives back, at every key, the value that was
    visible before the transaction was opened, at the same depth. *)
Theorem client_rollback_undoes_runtime (pre ops : list op) rs0 m0 :
  run step pre default_map = Some (rs0, m0) -> execution_mode m0 = Client ->
  Forall runtime_op ops ->
  exists rs m1,
    run step ([OpStart; OpEnter] ++ ops ++ [OpExit; OpRollback]) m0 = Some (rs, m1) /\
    last rs = Some Done /\ transaction_depth m1 = transaction_depth m0 /\
    forall k, fst <$> get_value k m1 = fst <$> get_value k m0.
Proof.
  intros Hpre Hm Ho.
  destruct (run_refines pre default_map Spec.init) as (? & m & s & Hpre' & _ & Href);
    [apply default_refines|].
  rewrite Hpre in Hpre'. injection Hpre' as <- <-.
  destruct (run_refines ([OpStart; OpEnter] ++ ops ++ [OpExit; OpRollback]) m0 s Href)
    as (rs & m1 & s1 & Hrun & Hspec & Href1).
  destruct (spec_runtime_undone ops s Ho) with (3 := Hspec) as [Hlast Hl].
  { by rewrite <- (ref_mode _ _ _ _ Href). }
  { by apply (refines_nonempty m0). }
  exists rs, m1. split_and!; [done..| |].
  - pose proof (ref_depth _ _ _ _ Href1). pose proof (ref_depth _ _ _ _ Href). congruence.
  - intros k. destruct (get_refines _ _ k Href1) as (? & -> & _).
    destruct (get_refines _ _ k Href) as (? & -> & _). cbn. unfold Spec.read. by rewrite Hl.
Qed.
End change_set_refinement.

(** ** The generic map implements the specification *)

Section offchain_refinement.
Context {K V : Type} `{Countable K}.

Inductive off_op :=
| OffSet (key : K) (v : V) (at_extrinsic : option Z)
| OffStart
| OffRollback
| OffCommit
| OffEnter
| OffExit.

Definition off_step (o : off_op) (m : OverlayedMap K V) : option (obs * OverlayedMap K V) :=
  match o with
  | OffSet k v ext => m ← set_offchain k v ext m; Some (Done, m)
  | OffStart => Some (Done, start_transaction m)
  | OffRollback => observe NoTransaction (rollback_transaction_offchain m) m
  | OffCommit => observe NoTransaction (commit_transaction_offchain m) m
  | OffEnter => observe WrongMode (enter_runtime m) m
  | OffExit => observe WrongMode (exit_runtime_offchain m) m
  end.

Definition off_spec_step (o : off_op) (s : Spec.state K V) : option (obs * Spec.state K V) :=
  match o with
  | OffSet k v _ => Some (Done, Spec.write k v s)
  | OffStart => Some (Done, Spec.start s)
  | OffRollback => observe NoTransaction (Spec.rollback s) s
  | OffCommit => observe NoTransaction (Spec.commit s) s
  | OffEnter => observe WrongMode (Spec.enter s) s
  | OffExit => observe WrongMode (Spec.exit s) s
  end.

Fixpoint off_run {S : Type} (f : off_op -> S -> option (obs * S)) (ops : list off_op) (s : S) :
    option (list obs * S) :=
  match ops with
  | [] => Some ([], s)
  | o :: ops =>
      '(r, s) ← f o s;
      '(rs, s) ← off_run f ops s;
      Some (r :: rs, s)
  end.

Abbreviation off_refines := (refines rollback_entry_offchain merge_entry_offchain).

Lemma off_step_refines o (m : OverlayedMap K V) (s : Spec.state K V) :
  off_refines m s ->
  exists r m' s', off_step o m = Some (r, m') /\ off_spec_step o s = Some (r, s') /\
    off_refines m' s'.
Proof.
  intros Href. destruct o; cbn [off_step off_spec_step].
  - destruct (update_refines _ _ (fun first => entry_set_offchain v first at_extrinsic)
                key v m s Href) as (m' & Hm' & ?); [apply set_offchain_writes|].
    unfold set_offchain. rewrite Hm'. by eexists _, _, _.
  - eexists _, _, _. split_and!; [done..|]. by apply start_refines.
  - unfold rollback_transaction_offchain, close_transaction_offchain, Spec.rollback.
    pose proof (close_guard rollback_entry_offchain merge_entry_offchain true m s Href) as Hg.
    destruct (Spec.closable s) eqn:Hc; [|rewrite Hg; by eexists _, _, _].
    destruct (close_refines _ _ true m s Href Hc) as (m' & -> & ?). by eexists _, _, _.
  - unfold commit_transaction_offchain, close_transaction_offchain, Spec.commit.
    pose proof (close_guard rollback_entry_offchain merge_entry_offchain false m s Href) as Hg.
    destruct (Spec.closable s) eqn:Hc; [|rewrite Hg; by eexists _, _, _].
    destruct (close_refines _ _ false m s Href Hc) as (m' & -> & ?). by eexists _, _, _.
  - pose proof (enter_refines _ _ m s Href) as He.
    destruct (Spec.enter s); [destruct He as (m' & -> & ?)|rewrite He|done]; by eexists _, _, _.
  - pose proof (exit_refines _ _ m s Href) as He.
    change (exit_runtime_offchain m)
      with (exit_with (close_with rollback_entry_offchain merge_entry_offchain true) m).
    destruct (Spec.exit s); [destruct He as (m' & -> & ?)|rewrite He|done]; by eexists _, _, _.
Qed.

Lemma off_run_refines ops (m : OverlayedMap K V) (s : Spec.state K V) :
  off_refines m s ->
  exists rs m' s', off_run off_step ops m = Some (rs, m') /\
    off_run off_spec_step ops s = Some (rs, s') /\ off_refines m' s'.
Proof.
  revert m s. induction ops as [|o ops IH]; intros m s Href; [by eexists _, _, _|]. cbn.
  destruct (off_step_refines o m s Href) as (r & m1 & s1 & -> & -> & Href1). cbn.
  destruct (IH m1 s1 Href1) as (rs & m2 & s2 & -> & -> & Href2). by eexists _, _, _.
Qed.

(** C11: the generic overlay (the [_offchain] methods, used for the offchain
    database) also behaves as a stack of plain maps on every sequence of
    operations, without a panic. *)
Theorem offchain_map_refines_stack_of_maps (ops : list off_op) :
  exists rs (m : OverlayedMap K V) s, off_run off_step ops default_map = Some (rs, m) /\
    off_run off_spec_step ops Spec.init = Some (rs, s) /\
    forall k, get_ref k m = Spec.read k s.
Proof.
  destruct (off_run_refines ops default_map Spec.init) as (rs & m & s & ? & ? & Href);
    [apply default_refines|].
  exists rs, m, s. split_and!; [done..|]. intros k.
  destruct Href as [_ Hd Hcol _ _]. unfold Spec.read, get_ref.
  destruct (Spec.layers s) as [|l ls]; [done|]. specialize (Hcol k).
  apply (f_equal head) in Hcol. rewrite head_column in Hcol. cbn in *.
  injection Hcol as <-. unfold entry_or_default. by destruct (changes m !! k) as [[|? ?]|].
Qed.
End offchain_refinement.

(** ** Witnesses *)

(** The laws of the compact codec are satisfied by SCALE, and the theorems
    apply to concrete runs. *)
Lemma changeset_refines_stack_of_maps_witness :
  exists rs m s,
    run (step (C := scale_compact))
      [OpAppend [Byte.x00] [Byte.x07] [] None; OpStart; OpAppend [Byte.x00] [Byte.x08] [] None;
       OpGet [Byte.x00]; OpRollback; OpGet [Byte.x00]] default_map = Some (rs, m) /\
    run (spec_step (C := scale_compact))
      [OpAppend [Byte.x00] [Byte.x07] [] None; OpStart; OpAppend [Byte.x00] [Byte.x08] [] None;
       OpGet [Byte.x00]; OpRollback; OpGet [Byte.x00]] Spec.init = Some (rs, s) /\
    forall k, exists m', get_value k m = Some (Spec.read k s, m').
Proof. apply (changeset_refines_stack_of_maps (L := scale_compact_laws)). Defined.

Lemma client_rollback_undoes_runtime_witness :
  exists rs0 m0,
    run (step (C := scale_compact)) [OpAppend [Byte.x00] [Byte.x07] [] None] default_map
      = Some (rs0, m0) /\
    exists rs m1,
      run step ([OpStart; OpEnter]
        ++ [OpAppend [Byte.x00] [Byte.x08] [] None; OpStart; OpSet [Byte.x00] None None; OpCommit;
            OpRollback]
        ++ [OpExit; OpRollback]) m0 = Some (rs, m1) /\
      last rs = Some Done /\ transaction_depth m1 = transaction_depth m0 /\
      forall k, fst <$> get_value k m1 = fst <$> get_value k m0.
Proof.
  eexists _, _. split; [reflexivity|].
  eapply (client_rollback_undoes_runtime (L := scale_compact_laws)
            [OpAppend [Byte.x00] [Byte.x07] [] None]); [reflexivity|reflexivity|repeat constructor].
Defined.

(** The appended list seen by the runs above. *)
Example append_rollback_reads :
  fst <$> run (step (C := scale_compact))
    [OpAppend [Byte.x00] [Byte.x07] [] None; OpStart; OpAppend [Byte.x00] [Byte.x08] [] None;
     OpGet [Byte.x00]; OpRollback; OpGet [Byte.x00]] default_map
  = Some [Done; Done; Done; Read (Some (Some [Byte.x08; Byte.x07; Byte.x08])); Done;
          Read (Some (Some [Byte.x04; Byte.x07]))].
Proof. vm_compute. reflexivity. Qed.
