(* ===== verification/Overlay.v ===== *)
(** * The overlay over a storage backend

    Model of [OverlayedChanges]
    (substrate/primitives/state-machine/src/overlayed_changes/mod.rs and
    offchain.rs): the change set of the main trie, one change set per child
    trie, the offchain overlay, and the cached storage root.  The backend's
    [full_storage_root] is a parameter: a function of the current values.

    Functions return [None] where the source panics. *)

From stdpp Require Import base gmap sets list option numbers fin_maps strings.
From Stdlib Require Import ZArith Lia.
From S2P Require Import Prelude Codec Changeset.

(** ** Data *)

(** [ChildInfo::ParentKeyId(ChildTrieParentKeyId { data })] *)
Record ChildInfo := ParentKeyId { child_data : bytes }.

Definition storage_key (info : ChildInfo) : StorageKey := child_data info.

Definition try_update (self other : ChildInfo) : bool :=
  bool_decide (child_data self = child_data other).

Inductive OffchainOverlayedChange :=
| OffchainRemove
| SetValue (v : bytes).

Abbreviation OffchainOverlayedChanges := (OverlayedMap (bytes * bytes) OffchainOverlayedChange).

Inductive IndexOperation :=
| Insert (extrinsic : Z) (hash : bytes) (size : Z)
| Renew (extrinsic : Z) (hash : bytes).

Inductive StateVersion := V0 | V1.

#[export] Instance StateVersion_eq_dec : EqDecision StateVersion.
Proof. solve_decision. Defined.

Record StateMachineStats := mkStats {
  reads_modified : Z;
  bytes_read_modified : Z;
  writes_overlay : Z;
  bytes_writes_overlay : Z;
}.

Definition default_stats : StateMachineStats := mkStats 0 0 0 0.

(** The counters are [u64]s and wrap like the release build does. *)
Definition tally_read_modified (n : nat) (s : StateMachineStats) : StateMachineStats :=
  mkStats (wrapping 64 (reads_modified s + 1)) (wrapping 64 (bytes_read_modified s + Z.of_nat n))
          (writes_overlay s) (bytes_writes_overlay s).

Definition tally_write_overlay (n : nat) (s : StateMachineStats) : StateMachineStats :=
  mkStats (reads_modified s) (bytes_read_modified s)
          (wrapping 64 (writes_overlay s + 1)) (wrapping 64 (bytes_writes_overlay s + Z.of_nat n)).

Section overlay.
Context {C : CompactCodec} {Root Tx : Type}.

(** The values a backend is given: the current view of a change set. *)
Abbreviation Delta := (gmap StorageKey (option StorageValue)).

Record StorageTransactionCache := mkCache {
  transaction : Tx;
  transaction_storage_root : Root;
  state_version : StateVersion;
}.

Record OverlayedChanges := mkOverlay {
  top : OverlayedChangeSet;
  children : gmap StorageKey (OverlayedChangeSet * ChildInfo);
  offchain : OffchainOverlayedChanges;
  transaction_index_ops : list IndexOperation;
  collect_extrinsics : bool;
  stats : StateMachineStats;
  storage_transaction_cache : option StorageTransactionCache;
}.

Definition default_overlay : OverlayedChanges :=
  mkOverlay default_map ∅ default_map [] false default_stats None.

Definition with_top (t : OverlayedChangeSet) (o : OverlayedChanges) : OverlayedChanges :=
  mkOverlay t (children o) (offchain o) (transaction_index_ops o) (collect_extrinsics o) (stats o)
            (storage_transaction_cache o).
Definition with_children (c : gmap StorageKey (OverlayedChangeSet * ChildInfo))
    (o : OverlayedChanges) : OverlayedChanges :=
  mkOverlay (top o) c (offchain o) (transaction_index_ops o) (collect_extrinsics o) (stats o)
            (storage_transaction_cache o).
Definition with_offchain (c : OffchainOverlayedChanges) (o : OverlayedChanges) : OverlayedChanges :=
  mkOverlay (top o) (children o) c (transaction_index_ops o) (collect_extrinsics o) (stats o)
            (storage_transaction_cache o).
Definition with_stats (s : StateMachineStats) (o : OverlayedChanges) : OverlayedChanges :=
  mkOverlay (top o) (children o) (offchain o) (transaction_index_ops o) (collect_extrinsics o) s
            (storage_transaction_cache o).
Definition with_cache (c : option StorageTransactionCache) (o : OverlayedChanges) :
    OverlayedChanges :=
  mkOverlay (top o) (children o) (offchain o) (transaction_index_ops o) (collect_extrinsics o)
            (stats o) c.

(** ** Reading *)

Definition is_empty (o : OverlayedChanges) : bool :=
  Changeset.is_empty (top o) && bool_decide (children o = ∅).

Definition set_collect_extrinsics (b : bool) (o : OverlayedChanges) : OverlayedChanges :=
  mkOverlay (top o) (children o) (offchain o) (transaction_index_ops o) b (stats o)
            (storage_transaction_cache o).

Definition value_size (v : option StorageValue) : nat := from_option length 0 v.

Definition storage (key : StorageKey) (o : OverlayedChanges) :
    option (option (option StorageValue) * OverlayedChanges) :=
  '(r, t) ← get_value key (top o);
  let o := with_top t o in
  Some (r, match r with
           | Some v => with_stats (tally_read_modified (value_size v) (stats o)) o
           | None => o
           end).

Definition mark_dirty (o : OverlayedChanges) : OverlayedChanges := with_cache None o.

Definition child_storage (info : ChildInfo) (key : StorageKey) (o : OverlayedChanges) :
    option (option (option StorageValue) * OverlayedChanges) :=
  match children o !! storage_key info with
  | None => Some (None, o)
  | Some (cs, i) =>
      '(r, cs) ← get_value key cs;
      let o := with_children (<[storage_key info := (cs, i)]> (children o)) o in
      Some (r, match r with
               | Some v => with_stats (tally_read_modified (value_size v) (stats o)) o
               | None => o
               end)
  end.

(** [:extrinsic_index] *)
Definition EXTRINSIC_INDEX : StorageKey :=
  String.list_byte_of_string ":extrinsic_index".

Definition NO_EXTRINSIC_INDEX : Z := 4294967295.

(** [u32::decode] reads four little-endian bytes. *)
Definition extrinsic_index (o : OverlayedChanges) : option (option Z * OverlayedChanges) :=
  if collect_extrinsics o then
    '(r, o) ← storage EXTRINSIC_INDEX o;
    Some (Some (default NO_EXTRINSIC_INDEX (r ≫= fun v => v ≫= le_read 4)), o)
  else Some (None, o).

(** ** Writing *)

Definition set_storage (key : StorageKey) (v : option StorageValue) (o : OverlayedChanges) :
    option OverlayedChanges :=
  let o := mark_dirty o in
  let o := with_stats (tally_write_overlay (value_size v) (stats o)) o in
  '(ext, o) ← extrinsic_index o;
  t ← set key v ext (top o);
  Some (with_top t o).

Definition append_storage (key : StorageKey) (element init : StorageValue) (o : OverlayedChanges) :
    option OverlayedChanges :=
  '(ext, o) ← extrinsic_index o;
  let o := with_stats (tally_write_overlay (length element) (stats o)) o in
  t ← Changeset.append_storage key element init ext (top o);
  Some (with_top t o).

(** [self.children.entry(storage_key).or_insert_with(..)] *)
Definition child_or_spawn (info : ChildInfo) (o : OverlayedChanges) :
    OverlayedChangeSet * ChildInfo :=
  default (spawn_child (top o), info) (children o !! storage_key info).

Definition set_child_storage (info : ChildInfo) (key : StorageKey) (v : option StorageValue)
    (o : OverlayedChanges) : option OverlayedChanges :=
  let o := mark_dirty o in
  '(ext, o) ← extrinsic_index o;
  let o := with_stats (tally_write_overlay (value_size v) (stats o)) o in
  let '(cs, i) := child_or_spawn info o in
  cs ← set key v ext cs;
  Some (with_children (<[storage_key info := (cs, i)]> (children o)) o).

Definition clear_child_where (p : StorageKey -> bool) (info : ChildInfo) (o : OverlayedChanges) :
    option (nat * OverlayedChanges) :=
  let o := mark_dirty o in
  '(ext, o) ← extrinsic_index o;
  let '(cs, i) := child_or_spawn info o in
  '(n, cs) ← clear_where (fun k _ => p k) ext cs;
  Some (n, with_children (<[storage_key info := (cs, i)]> (children o)) o).

Definition clear_child_storage (info : ChildInfo) (o : OverlayedChanges) :
    option (nat * OverlayedChanges) :=
  clear_child_where (fun _ => true) info o.

Definition clear_prefix (prefix : bytes) (o : OverlayedChanges) :
    option (nat * OverlayedChanges) :=
  let o := mark_dirty o in
  '(ext, o) ← extrinsic_index o;
  '(n, t) ← clear_where (fun k _ => starts_with prefix k) ext (top o);
  Some (n, with_top t o).

Definition clear_child_prefix (info : ChildInfo) (prefix : bytes) (o : OverlayedChanges) :
    option (nat * OverlayedChanges) :=
  clear_child_where (starts_with prefix) info o.

(** [b"storage"], the prefix of the offchain database. *)
Definition STORAGE_PREFIX : bytes := String.list_byte_of_string "storage".

Definition set_offchain_storage (key : bytes) (v : option bytes) (o : OverlayedChanges) :
    option OverlayedChanges :=
  let change := match v with Some v => SetValue v | None => OffchainRemove end in
  c ← set_offchain (STORAGE_PREFIX, key) change None (offchain o);
  Some (with_offchain c o).

Definition add_transaction_index (op : IndexOperation) (o : OverlayedChanges) : OverlayedChanges :=
  mkOverlay (top o) (children o) (offchain o) (transaction_index_ops o ++ [op])
            (collect_extrinsics o) (stats o) (storage_transaction_cache o).

(** ** Transactions *)

(** Apply [f] to every child change set, aborting when one aborts. *)
Definition for_children {E : Type} (f : OverlayedChangeSet -> outcome E OverlayedChangeSet)
    (cs : gmap StorageKey (OverlayedChangeSet * ChildInfo)) :
    option (gmap StorageKey (OverlayedChangeSet * ChildInfo)) :=
  let g '(c, i) := match f c with Ok c => Some (c, i) | _ => None end in
  if decide (map_Forall (fun _ c => is_Some (g c)) cs) then Some (omap g cs) else None.

Definition transaction_depth (o : OverlayedChanges) : nat := Changeset.transaction_depth (top o).

Definition start_transaction (o : OverlayedChanges) : OverlayedChanges :=
  mkOverlay (Changeset.start_transaction (top o))
            ((fun '(c, i) => (Changeset.start_transaction c, i)) <$> children o)
            (Changeset.start_transaction (offchain o))
            (transaction_index_ops o) (collect_extrinsics o) (stats o)
            (storage_transaction_cache o).

(** The result of a fallible operation: the error, if any, and the state,
    which may have changed even when there is an error. *)
Definition rollback_transaction (o : OverlayedChanges) :
    option (option NoOpenTransaction_error * OverlayedChanges) :=
  let o := mark_dirty o in
  match Changeset.rollback_transaction (top o) with
  | Panic => None
  | Err e => Some (Some e, o)
  | Ok t =>
      cs ← for_children Changeset.rollback_transaction (children o);
      let cs := filter (fun kc => negb (Changeset.is_empty (fst (snd kc)))) cs in
      match rollback_transaction_offchain (offchain o) with
      | Ok c => Some (None, with_offchain c (with_children cs (with_top t o)))
      | _ => None
      end
  end.

(** Run an operation on the three overlays in lockstep: an error of the main
    one is returned, one of the others is a panic. *)
Definition in_lockstep {E : Type} (f : OverlayedChangeSet -> outcome E OverlayedChangeSet)
    (g : OffchainOverlayedChanges -> outcome E OffchainOverlayedChanges) (o : OverlayedChanges) :
    option (option E * OverlayedChanges) :=
  match f (top o) with
  | Panic => None
  | Err e => Some (Some e, o)
  | Ok t =>
      cs ← for_children f (children o);
      match g (offchain o) with
      | Ok c => Some (None, with_offchain c (with_children cs (with_top t o)))
      | _ => None
      end
  end.

Definition commit_transaction (o : OverlayedChanges) :
    option (option NoOpenTransaction_error * OverlayedChanges) :=
  in_lockstep Changeset.commit_transaction commit_transaction_offchain o.

Definition enter_runtime (o : OverlayedChanges) :
    option (option AlreadyInRuntime_error * OverlayedChanges) :=
  in_lockstep Changeset.enter_runtime Changeset.enter_runtime o.

Definition exit_runtime (o : OverlayedChanges) :
    option (option NotInRuntime_error * OverlayedChanges) :=
  in_lockstep Changeset.exit_runtime exit_runtime_offchain o.

(** ** The storage root *)

(** Read every value of a change set, [changes_mut().map(|(k, v)| (k, v.value()))]. *)
Definition delta (m : OverlayedChangeSet) : option (Delta * OverlayedChangeSet) :=
  if decide (map_Forall (fun _ e => is_Some (entry_value e)) (changes m)) then
    let rs := omap entry_value (changes m) in
    Some (fst <$> rs, mkMap (snd <$> rs) (dirty_keys m) (num_client_transactions m) (execution_mode m))
  else None.

Context (full_storage_root : Delta -> gmap StorageKey (ChildInfo * Delta) -> StateVersion -> Root * Tx).

Definition child_deltas (cs : gmap StorageKey (OverlayedChangeSet * ChildInfo)) :
    option (gmap StorageKey (ChildInfo * Delta) * gmap StorageKey (OverlayedChangeSet * ChildInfo)) :=
  let g '(c, i) := '(d, c) ← delta c; Some (i, d, (c, i)) in
  if decide (map_Forall (fun _ c => is_Some (g c)) cs) then
    let rs := omap g cs in Some (fst <$> rs, snd <$> rs)
  else None.

Definition storage_root (version : StateVersion) (o : OverlayedChanges) :
    option (Root * bool * OverlayedChanges) :=
  let compute :=
    '(d, t) ← delta (top o);
    '(ds, cs) ← child_deltas (children o);
    let '(root, tx) := full_storage_root d ds version in
    Some (root, false, with_cache (Some (mkCache tx root version)) (with_children cs (with_top t o))) in
  match storage_transaction_cache o with
  | Some cache =>
      if decide (state_version cache = version)
      then Some (transaction_storage_root cache, true, o) else compute
  | None => compute
  end.

Record StorageChanges := mkStorageChanges {
  main_storage_changes : list (StorageKey * option StorageValue);
  child_storage_changes : list (StorageKey * list (StorageKey * option StorageValue));
  offchain_storage_changes : list ((bytes * bytes) * OffchainOverlayedChange);
  changes_transaction : Tx;
  changes_storage_root : Root;
  transaction_index_changes : list IndexOperation;
}.

Definition drained (m : OverlayedChangeSet) : option (list (StorageKey * option StorageValue)) :=
  kvs ← drain_committed m;
  mapM (fun '(k, v) => r ← to_option v; Some (k, r)) kvs.

Definition drain_storage_changes (version : StateVersion) (o : OverlayedChanges) :
    option (StorageChanges * OverlayedChanges) :=
  '(cache, o) ← match storage_transaction_cache o with
                | Some cache => Some (cache, o)
                | None =>
                    '(_, _, o) ← storage_root version o;
                    cache ← storage_transaction_cache o;
                    Some (cache, o)
                end;
  main ← drained (top o);
  child ← mapM (fun '(k, (c, _)) => d ← drained c; Some (k, d)) (map_to_list (children o));
  off ← mapM (fun '(k, e) => v ← value_ref e; Some (k, v)) (map_to_list (changes (offchain o)));
  Some (mkStorageChanges main child off (transaction cache) (transaction_storage_root cache)
          (transaction_index_ops o),
        mkOverlay default_map ∅ default_map [] (collect_extrinsics o) (stats o) None).
End overlay.

Arguments OverlayedChanges : clear implicits.
Arguments StorageTransactionCache : clear implicits.
Arguments StorageChanges : clear implicits.
