(* ===== verification/OverlayProofs.v ===== *)
(** * Properties of the overlay

    The change sets of the main trie, of the child tries and of the offchain
    database open and close their transactions in lockstep, so none of the
    [expect]s of mod.rs can fail; and the cached storage root is the root of
    the current values as long as the operations that forget to invalidate it
    are not used. *)

From stdpp Require Import base gmap sets list option numbers fin_maps strings.
From Stdlib Require Import ZArith Lia.
From S2P Require Import Prelude Codec Changeset ChangesetRefine Overlay.

(** ** Shapes

    What lockstep is about: the depth, the number of client transactions and
    the execution mode. *)
Record shape := mkShape { sh_layers : nat; sh_client : nat; sh_mode : ExecutionMode }.

Definition shape_of {K A : Type} `{Countable K} (s : Spec.state K A) : shape :=
  mkShape (length (Spec.layers s)) (Spec.client s) (Spec.mode s).

Definition shape_close (sh : shape) : option shape :=
  if match sh_mode sh with
     | Runtime => bool_decide (sh_client sh < sh_layers sh - 1)
     | Client => bool_decide (0 < sh_layers sh - 1)
     end
  then Some (mkShape (sh_layers sh - 1) (sh_client sh) (sh_mode sh))
  else None.

Definition shape_enter (sh : shape) : option shape :=
  match sh_mode sh with
  | Client => Some (mkShape (sh_layers sh) (sh_layers sh - 1) Runtime)
  | Runtime => None
  end.

Definition shape_exit (sh : shape) : option shape :=
  match sh_mode sh with
  | Runtime => Some (mkShape (sh_layers sh - (sh_layers sh - 1 - sh_client sh)) (sh_client sh) Client)
  | Client => None
  end.

Section shapes.
Context {K : Type} `{Countable K} {V A : Type}.
Context (rollback_one merge_one : OverlayedEntry V -> option (OverlayedEntry V)).
Context `{!EntryModel V A rollback_one merge_one}.

Abbreviation rel := (refines rollback_one merge_one (K := K)).

(** An operation whose success and effect on the shape only depend on the
    shape; [keep] tells that it does not change the current values. *)
Definition shaped {E : Type} (keep : bool) (f : OverlayedMap K V -> outcome E (OverlayedMap K V))
    (g : shape -> option shape) : Prop :=
  forall m s, rel m s ->
    match g (shape_of s) with
    | Some sh => exists m' s', f m = Ok m' /\ rel m' s' /\ shape_of s' = sh /\
                               (keep = true -> head (Spec.layers s') = head (Spec.layers s))
    | None => exists e, f m = Err e
    end.

Lemma close_shaped rb : shaped (negb rb) (close_with rollback_one merge_one rb) shape_close.
Proof.
  intros m s Href. pose proof (close_guard _ _ rb m s Href) as Hg.
  assert (Hc : shape_close (shape_of s) =
    if Spec.closable s then Some (mkShape (length (Spec.layers s) - 1) (Spec.client s) (Spec.mode s))
    else None) by done.
  rewrite Hc. destruct (Spec.closable s) eqn:Hcl; [|rewrite Hg; eauto].
  destruct (close_refines _ _ rb m s Href Hcl) as (m' & Hm' & Href').
  eexists m', _. split_and!; [done..| |].
  - unfold shape_of. cbn. f_equal.
    unfold closed_layers. destruct rb, (Spec.layers s) as [|? [|? ?]] eqn:El; cbn; try lia.
    unfold Spec.closable, Spec.depth in Hcl. rewrite El in Hcl. cbn in Hcl.
    destruct (Spec.mode s); apply bool_decide_eq_true in Hcl; lia.
  - destruct rb; [done|]. intros _. cbn. by destruct (Spec.layers s) as [|? [|? ?]].
Qed.

Lemma enter_shaped : shaped true (Changeset.enter_runtime (K := K) (V := V)) shape_enter.
Proof.
  intros m s Href. pose proof (enter_refines _ _ m s Href) as He. unfold Spec.enter in He.
  unfold shape_enter. cbn. destruct (Spec.mode s); [|eauto].
  destruct He as (m' & ? & Href'). by eexists m', _.
Qed.

Lemma exit_shaped : shaped false (exit_with (close_with rollback_one merge_one true)) shape_exit.
Proof.
  intros m s Href. pose proof (exit_refines _ _ m s Href) as He. unfold Spec.exit in He.
  unfold shape_exit. cbn. destruct (Spec.mode s); [eauto|].
  destruct He as (m' & ? & Href'). eexists m', _. split_and!; [done..| |done].
  unfold shape_of, Spec.depth. cbn. f_equal. by rewrite length_drop.
Qed.
End shapes.

Section overlay_invariant.
Context {C : CompactCodec} {L : CompactLaws C} {Root Tx : Type}.
Context (full_storage_root : gmap StorageKey (option StorageValue) ->
  gmap StorageKey (ChildInfo * gmap StorageKey (option StorageValue)) -> StateVersion -> Root * Tx).

Abbreviation cs_rel := (refines rollback_entry merge_entry (K := StorageKey)).
Abbreviation off_rel := (refines (K := bytes * bytes) (V := OffchainOverlayedChange)
  (A := OffchainOverlayedChange) rollback_entry_offchain merge_entry_offchain).
Abbreviation overlay := (OverlayedChanges Root Tx).

(** ** The current values of a change set *)

Definition current (m : OverlayedChangeSet) : gmap StorageKey (option StorageValue) :=
  omap (fun e => head (storage_views e)) (changes m).

Lemma current_spec m s : cs_rel m s -> head (Spec.layers s) = Some (current m).
Proof.
  intros Href. pose proof (refines_nonempty m s Href) as Hne.
  destruct (Spec.layers s) as [|l ls] eqn:Hl; [done|]. cbn. f_equal. apply map_eq. intros k.
  unfold current. rewrite lookup_omap.
  pose proof (read_refines m s k Href) as Hr. unfold Spec.read in Hr. rewrite Hl in Hr. cbn in Hr.
  rewrite Hr. unfold entry_or_default. by destruct (changes m !! k).
Qed.

Lemma delta_spec m s :
  cs_rel m s -> exists m', delta m = Some (current m, m') /\ cs_rel m' s.
Proof.
  intros Href. pose proof Href as [Hwf Hd Hcol Hcl Hmode]. unfold delta.
  assert (Hval : forall k e, changes m !! k = Some e -> exists r e', entry_value e = Some (r, e') /\
    storage_wf e' /\ storage_views e' = storage_views e /\ head (storage_views e) = Some r).
  { intros k e He. apply (wf_entries _ _ _ Hwf) in He as [Hne Hw]. by apply value_reads. }
  rewrite decide_True.
  2:{ intros k e He. destruct (Hval k e He) as (? & ? & -> & _). eauto. }
  assert (Hentry : forall k, match changes m !! k with
    | Some e => exists r e', entry_value e = Some (r, e') /\ storage_wf e' /\
        storage_views e' = storage_views e /\ head (storage_views e) = Some r
    | None => True end) by (intros k; destruct (changes m !! k) eqn:E; [by eapply Hval|done]).
  eexists. split.
  { do 2 f_equal. apply map_eq. intros k. unfold current.
    rewrite lookup_fmap, !lookup_omap. specialize (Hentry k).
    destruct (changes m !! k) as [e|]; cbn; [|done]. destruct Hentry as (r & e' & -> & _ & _ & ->). done. }
  assert (Hdef : forall k, let e' := default [] ((snd <$> omap entry_value (changes m)) !! k) in
    storage_views e' = storage_views (entry_or_default m k) /\ storage_wf e').
  { intros k. unfold entry_or_default. rewrite lookup_fmap, lookup_omap. specialize (Hentry k).
    destruct (changes m !! k) as [e|]; cbn; [|done].
    destruct Hentry as (r & e' & -> & ? & ? & _). done. }
  split; cbn; [split; cbn| |intros k|done|done]; [| |done|].
  - intros k e'. rewrite lookup_fmap, lookup_omap. specialize (Hentry k).
    destruct (changes m !! k) as [e|]; cbn; [|done].
    destruct Hentry as (r & e'' & -> & Hw & Hv & Hh). cbn. intros [= <-]. split; [|done].
    intros ->. cbn in Hv. by rewrite <- Hv in Hh.
  - intros k. destruct (Hdef k) as [Hv _]. unfold entry_or_default at 1. cbn.
    apply (f_equal length) in Hv. unfold storage_views in Hv.
    rewrite !length_chain_views, !length_fmap in Hv. rewrite Hv. apply (wf_fits _ _ _ Hwf).
  - destruct (Hdef k) as [Hv _]. rewrite <- Hcol. f_equal. exact Hv.
Qed.

(** ** Lockstep *)

Definition cs_at (sh : shape) (m : OverlayedChangeSet) : Prop :=
  exists s, cs_rel m s /\ shape_of s = sh.
Definition off_at (sh : shape) (m : OffchainOverlayedChanges) : Prop :=
  exists s, off_rel m s /\ shape_of s = sh.

Record lockstep (sh : shape) (o : overlay) : Prop := {
  lockstep_top : cs_at sh (top o);
  lockstep_children k c i : children o !! k = Some (c, i) -> cs_at sh c;
  lockstep_offchain : off_at sh (offchain o);
}.

Definition currents (cs : gmap StorageKey (OverlayedChangeSet * ChildInfo)) :
    gmap StorageKey (ChildInfo * gmap StorageKey (option StorageValue)) :=
  (fun '(c, i) => (i, current c)) <$> cs.

(** Reads do not change what the backend would be given. *)
Definition same_values (o o' : overlay) : Prop :=
  current (top o') = current (top o) /\ currents (children o') = currents (children o) /\
  storage_transaction_cache o' = storage_transaction_cache o.

Lemma cs_at_current m m' s : cs_rel m s -> cs_rel m' s -> current m' = current m.
Proof. intros H1 H2. apply current_spec in H1, H2. congruence. Qed.

Lemma get_at sh k m :
  cs_at sh m -> exists r m', get_value k m = Some (r, m') /\ cs_at sh m' /\ current m' = current m.
Proof.
  intros (s & Href & Hsh). destruct (get_refines m s k Href) as (m' & ? & Href').
  eexists _, m'. split_and!; [done|by exists s|by apply (cs_at_current _ _ s)].
Qed.

Lemma currents_insert cs k c i :
  currents (<[k := (c, i)]> cs) = <[k := (i, current c)]> (currents cs).
Proof. unfold currents. by rewrite fmap_insert. Qed.

Lemma storage_lockstep sh k o :
  lockstep sh o -> exists r o', storage k o = Some (r, o') /\ lockstep sh o' /\ same_values o o'.
Proof.
  intros [Ht Hc Ho]. unfold storage. destruct (get_at sh k (top o) Ht) as (r & t & -> & Ht' & Hcur).
  cbn. eexists _, _. split; [done|]. destruct r; split_and!; cbn; done.
Qed.

Lemma child_storage_lockstep sh info k o :
  lockstep sh o -> exists r o', child_storage info k o = Some (r, o') /\ lockstep sh o' /\
    same_values o o'.
Proof.
  intros [Ht Hc Ho]. unfold child_storage.
  destruct (children o !! storage_key info) as [[c i]|] eqn:Hch; [|by eexists _, o].
  destruct (get_at sh k c (Hc _ _ _ Hch)) as (r & c' & -> & Hc' & Hcur). cbn.
  eexists _, _. split; [done|].
  assert (Hcs : forall j d i', <[storage_key info:=(c', i)]> (children o) !! j = Some (d, i') -> cs_at sh d).
  { intros j d i' Hj. destruct (decide (j = storage_key info)) as [->|]; simplify_map_eq; eauto. }
  assert (Hcu : currents (<[storage_key info:=(c', i)]> (children o)) = currents (children o)).
  { rewrite currents_insert. apply insert_id. unfold currents. rewrite lookup_fmap, Hch. cbn.
    by rewrite Hcur. }
  destruct r; split; split; cbn; done.
Qed.

Lemma extrinsic_index_lockstep sh o :
  lockstep sh o -> exists r o', extrinsic_index o = Some (r, o') /\ lockstep sh o' /\ same_values o o'.
Proof.
  intros Ho. unfold extrinsic_index. destruct (collect_extrinsics o); [|by eexists _, o].
  destruct (storage_lockstep sh EXTRINSIC_INDEX o Ho) as (r & o' & -> & ? & ?). cbn. eauto.
Qed.

Lemma set_at sh k v ext m : cs_at sh m -> exists m', set k v ext m = Some m' /\ cs_at sh m'.
Proof.
  intros (s & Href & <-). destruct (set_refines m s k v ext Href) as (m' & ? & Href').
  exists m'. split; [done|]. eexists. split; [done|]. unfold shape_of, Spec.write.
  by destruct (Spec.layers s) eqn:E; cbn; rewrite ?E.
Qed.

Lemma append_at sh k v init ext m :
  cs_at sh m -> exists m', Changeset.append_storage k v init ext m = Some m' /\ cs_at sh m'.
Proof.
  intros (s & Href & <-). destruct (append_refines m s k v init ext Href) as (m' & ? & Href').
  exists m'. split; [done|]. eexists. split; [done|]. unfold shape_of, Spec.write.
  by destruct (Spec.layers s) eqn:E; cbn; rewrite ?E.
Qed.

Lemma clear_at sh p ext m :
  cs_at sh m -> exists n m', clear_where (fun k _ => p k) ext m = Some (n, m') /\ cs_at sh m'.
Proof.
  intros (s & Href & <-). destruct (clear_refines m s p ext Href) as (m' & ? & Href').
  eexists _, m'. split; [done|]. eexists. split; [done|]. unfold shape_of, Spec.clear.
  by destruct (Spec.layers s) eqn:E; cbn; rewrite ?E.
Qed.

Lemma spawn_at sh o : lockstep sh o -> cs_at sh (spawn_child (top o)).
Proof.
  intros [(s & Href & <-) _ _].
  eexists. split; [apply (spawn_child_refines rollback_entry merge_entry)|].
  destruct Href as [_ Hd _ Hcl Hmode]. unfold shape_of. cbn. rewrite length_replicate. congruence.
Qed.

Lemma with_child_lockstep sh o k c i :
  lockstep sh o -> cs_at sh c -> lockstep sh (with_children (<[k := (c, i)]> (children o)) o).
Proof.
  intros [Ht Hc Ho] Hcs. split; cbn; [done| |done].
  intros j d i' Hj. destruct (decide (j = k)) as [->|]; simplify_map_eq; eauto.
Qed.

Lemma child_or_spawn_at sh info o : lockstep sh o -> cs_at sh (fst (child_or_spawn info o)).
Proof.
  intros Ho. unfold child_or_spawn.
  destruct (children o !! storage_key info) as [[c i]|] eqn:E; cbn.
  - by apply (lockstep_children _ _ Ho _ _ _ E).
  - by apply spawn_at.
Qed.

Lemma mark_dirty_lockstep sh o : lockstep sh o -> lockstep sh (mark_dirty o).
Proof. by intros [? ? ?]. Qed.

Lemma with_stats_lockstep sh st o : lockstep sh o -> lockstep sh (with_stats st o).
Proof. by intros [? ? ?]. Qed.

(** ** Operations *)

Inductive overlay_op :=
| Storage (k : StorageKey)
| ChildStorage (info : ChildInfo) (k : StorageKey)
| SetStorage (k : StorageKey) (v : option StorageValue)
| AppendStorage (k : StorageKey) (element init : StorageValue)
| SetChildStorage (info : ChildInfo) (k : StorageKey) (v : option StorageValue)
| ClearChildStorage (info : ChildInfo)
| ClearPrefix (p : bytes)
| ClearChildPrefix (info : ChildInfo) (p : bytes)
| SetOffchainStorage (k : bytes) (v : option bytes)
| AddTransactionIndex (i : IndexOperation)
| SetCollectExtrinsics (b : bool)
| StartTransaction
| RollbackTransaction
| CommitTransaction
| EnterRuntime
| ExitRuntime
| StorageRoot (version : StateVersion).

Definition overlay_step (op : overlay_op) (o : overlay) : option overlay :=
  match op with
  | Storage k => snd <$> storage k o
  | ChildStorage info k => snd <$> child_storage info k o
  | SetStorage k v => set_storage k v o
  | AppendStorage k el init => append_storage k el init o
  | SetChildStorage info k v => set_child_storage info k v o
  | ClearChildStorage info => snd <$> clear_child_storage info o
  | ClearPrefix p => snd <$> clear_prefix p o
  | ClearChildPrefix info p => snd <$> clear_child_prefix info p o
  | SetOffchainStorage k v => set_offchain_storage k v o
  | AddTransactionIndex i => Some (add_transaction_index i o)
  | SetCollectExtrinsics b => Some (set_collect_extrinsics b o)
  | StartTransaction => Some (start_transaction o)
  | RollbackTransaction => snd <$> rollback_transaction o
  | CommitTransaction => snd <$> commit_transaction o
  | EnterRuntime => snd <$> enter_runtime o
  | ExitRuntime => snd <$> exit_runtime o
  | StorageRoot version => snd <$> storage_root full_storage_root version o
  end.

(** The cached root is the one of the current values. *)
Definition coherent (o : overlay) : Prop :=
  forall cache, storage_transaction_cache o = Some cache ->
    full_storage_root (current (top o)) (currents (children o)) (state_version cache)
    = (transaction_storage_root cache, transaction cache).

(** An operation that keeps the cache coherent because it changes no current
    value, or because it drops the cache. *)
Definition keeps (o o' : overlay) : Prop := same_values o o' \/ storage_transaction_cache o' = None.

Lemma keeps_coherent o o' : keeps o o' -> coherent o -> coherent o'.
Proof.
  intros [(Ht & Hc & Hx)|Hx] Ho cache Hcache; [|by rewrite Hx in Hcache].
  rewrite Ht, Hc. apply Ho. congruence.
Qed.

Lemma same_values_cache o o' :
  same_values o o' -> storage_transaction_cache o = None -> storage_transaction_cache o' = None.
Proof. intros (_ & _ & ->). done. Qed.

Lemma set_storage_lockstep sh k v o :
  lockstep sh o -> exists o', set_storage k v o = Some o' /\ lockstep sh o' /\ keeps o o'.
Proof.
  intros Ho. unfold set_storage.
  destruct (extrinsic_index_lockstep sh (with_stats (tally_write_overlay (value_size v)
    (stats (mark_dirty o))) (mark_dirty o))) as (ext & o1 & -> & H1 & Hs); [by destruct Ho|].
  cbn. pose proof (same_values_cache _ _ Hs eq_refl) as Hc. destruct H1 as [Ht Hch Hoff].
  destruct (set_at sh k v ext (top o1) Ht) as (t & -> & Ht'). cbn.
  eexists. split; [done|]. split; [done|]. by right.
Qed.

Lemma append_storage_lockstep sh k el init o :
  lockstep sh o -> exists o', append_storage k el init o = Some o' /\ lockstep sh o'.
Proof.
  intros Ho. unfold append_storage.
  destruct (extrinsic_index_lockstep sh o Ho) as (ext & o1 & -> & [Ht Hch Hoff] & Hs). cbn.
  destruct (append_at sh k el init ext (top o1) Ht) as (t & -> & Ht'). cbn. eauto using Build_lockstep.
Qed.

Lemma set_child_storage_lockstep sh info k v o :
  lockstep sh o -> exists o', set_child_storage info k v o = Some o' /\ lockstep sh o' /\ keeps o o'.
Proof.
  intros Ho. unfold set_child_storage.
  destruct (extrinsic_index_lockstep sh (mark_dirty o)) as (ext & o1 & -> & H1 & Hs); [by destruct Ho|].
  cbn. pose proof (same_values_cache _ _ Hs eq_refl) as Hc.
  set (o2 := with_stats _ o1). assert (H2 : lockstep sh o2) by (by destruct H1).
  pose proof (child_or_spawn_at sh info o2 H2) as Hcs. destruct (child_or_spawn info o2) as [c i].
  destruct (set_at sh k v ext c Hcs) as (c' & -> & Hc'). cbn.
  eexists. split; [done|]. split; [by apply (with_child_lockstep sh o2)|]. by right.
Qed.

Lemma clear_child_where_lockstep sh p info o :
  lockstep sh o -> exists n o', clear_child_where p info o = Some (n, o') /\ lockstep sh o' /\ keeps o o'.
Proof.
  intros Ho. unfold clear_child_where.
  destruct (extrinsic_index_lockstep sh (mark_dirty o)) as (ext & o1 & -> & H1 & Hs); [by destruct Ho|].
  cbn. pose proof (same_values_cache _ _ Hs eq_refl) as Hc.
  pose proof (child_or_spawn_at sh info o1 H1) as Hcs. destruct (child_or_spawn info o1) as [c i].
  destruct (clear_at sh p ext c Hcs) as (n & c' & -> & Hc'). cbn.
  eexists _, _. split; [done|]. split; [by apply (with_child_lockstep sh o1)|]. by right.
Qed.

Lemma clear_prefix_lockstep sh p o :
  lockstep sh o -> exists n o', clear_prefix p o = Some (n, o') /\ lockstep sh o' /\ keeps o o'.
Proof.
  intros Ho. unfold clear_prefix.
  destruct (extrinsic_index_lockstep sh (mark_dirty o)) as (ext & o1 & -> & H1 & Hs); [by destruct Ho|].
  cbn. pose proof (same_values_cache _ _ Hs eq_refl) as Hc. destruct H1 as [Ht Hch Hoff].
  destruct (clear_at sh (starts_with p) ext (top o1) Ht) as (n & t & -> & Ht'). cbn.
  eexists _, _. split; [done|]. split; [done|]. by right.
Qed.

Lemma set_offchain_storage_lockstep sh k v o :
  lockstep sh o -> exists o', set_offchain_storage k v o = Some o' /\ lockstep sh o' /\ keeps o o'.
Proof.
  intros [Ht Hch (s & Hoff & Hsh)]. unfold set_offchain_storage.
  set (change := match v with Some v => SetValue v | None => OffchainRemove end).
  destruct (update_refines _ _ (fun first => entry_set_offchain change first None)
    (STORAGE_PREFIX, k) change (offchain o) s Hoff) as (c & Hc & Hoff'); [apply set_offchain_writes|].
  unfold set_offchain. rewrite Hc. cbn. eexists. split; [done|]. split; [|by left].
  split; [done..|]. eexists. split; [done|]. subst sh. unfold shape_of, Spec.write.
  by destruct (Spec.layers s) eqn:E; cbn; rewrite ?E.
Qed.

(** *** Transactions *)

Abbreviation cs_shaped := (shaped (K := StorageKey) rollback_entry merge_entry).
Abbreviation off_shaped := (shaped (K := bytes * bytes) (A := OffchainOverlayedChange)
  rollback_entry_offchain merge_entry_offchain).

Lemma shaped_at {E : Type} (keep : bool) (f : OverlayedChangeSet -> outcome E OverlayedChangeSet)
    (g : shape -> option shape) (sh sh' : shape) (m : OverlayedChangeSet) :
  cs_shaped keep f g -> g sh = Some sh' -> cs_at sh m ->
  exists m', f m = Ok m' /\ cs_at sh' m' /\ (keep = true -> current m' = current m).
Proof.
  intros Hf Hg (s & Href & <-). pose proof (Hf m s Href) as Hm. rewrite Hg in Hm.
  destruct Hm as (m' & s' & ? & Href' & Hsh & Hk). exists m'. split; [done|]. split; [by exists s'|].
  intros Hkeep. specialize (Hk Hkeep). apply current_spec in Href, Href'. congruence.
Qed.

Lemma for_children_at {E : Type} (keep : bool)
    (f : OverlayedChangeSet -> outcome E OverlayedChangeSet) (g : shape -> option shape)
    (sh sh' : shape) (cs : gmap StorageKey (OverlayedChangeSet * ChildInfo)) :
  cs_shaped keep f g -> g sh = Some sh' -> (forall k c i, cs !! k = Some (c, i) -> cs_at sh c) ->
  exists cs', for_children f cs = Some cs' /\
    (forall k c i, cs' !! k = Some (c, i) -> cs_at sh' c) /\
    (keep = true -> currents cs' = currents cs).
Proof.
  intros Hf Hg Hcs. unfold for_children.
  set (h := fun '(c, i) => match f c with Ok c => Some (c, i) | _ => None end).
  assert (Hh : forall k c i, cs !! k = Some (c, i) -> exists c', h (c, i) = Some (c', i) /\
    cs_at sh' c' /\ (keep = true -> current c' = current c)).
  { intros k c i Hk. destruct (shaped_at keep f g sh sh' c Hf Hg (Hcs _ _ _ Hk)) as (c' & Hc & ?).
    exists c'. unfold h. by rewrite Hc. }
  rewrite decide_True.
  2:{ intros k [c i] Hk. destruct (Hh k c i Hk) as (c' & Hc & _). exists (c', i). exact Hc. }
  eexists. split; [done|]. split.
  - intros k c i. rewrite lookup_omap. destruct (cs !! k) as [[c0 i0]|] eqn:E0; [|done].
    destruct (Hh k c0 i0 E0) as (c' & Hc & ? & _). cbn [mbind option_bind]. rewrite Hc. by intros [= <- <-].
  - intros Hkeep. apply map_eq. intros k. unfold currents. rewrite !lookup_fmap, lookup_omap.
    destruct (cs !! k) as [[c0 i0]|] eqn:E0; [|done]. cbn [mbind option_bind].
    destruct (Hh k c0 i0 E0) as (c' & -> & _ & Hcur). cbn. by rewrite Hcur.
Qed.

Lemma off_shaped_at {E : Type} (keep : bool)
    (f : OffchainOverlayedChanges -> outcome E OffchainOverlayedChanges)
    (g : shape -> option shape) (sh sh' : shape) (m : OffchainOverlayedChanges) :
  off_shaped keep f g -> g sh = Some sh' -> off_at sh m -> exists m', f m = Ok m' /\ off_at sh' m'.
Proof.
  intros Hf Hg (s & Href & <-). pose proof (Hf m s Href) as Hm. rewrite Hg in Hm.
  destruct Hm as (m' & s' & ? & Href' & Hsh & _). exists m'. split; [done|]. by exists s'.
Qed.

(** The three overlays succeed or fail together. *)
Lemma in_lockstep_spec {E : Type} (keep keep' : bool)
    (f : OverlayedChangeSet -> outcome E OverlayedChangeSet)
    (f' : OffchainOverlayedChanges -> outcome E OffchainOverlayedChanges)
    (g : shape -> option shape) (sh : shape) (o : overlay) :
  cs_shaped keep f g -> off_shaped keep' f' g -> lockstep sh o ->
  exists r o' sh', in_lockstep f f' o = Some (r, o') /\ lockstep sh' o' /\
    (keep = true -> same_values o o').
Proof.
  intros Hf Hf' Ho. pose proof Ho as [Ht Hch Hoff]. unfold in_lockstep.
  destruct (g sh) as [sh'|] eqn:Hg.
  - destruct (shaped_at keep f g sh sh' (top o) Hf Hg Ht) as (t & -> & Ht' & Hkt).
    destruct (for_children_at keep f g sh sh' (children o) Hf Hg Hch) as (cs & -> & Hcs & Hkc).
    destruct (off_shaped_at keep' f' g sh sh' (offchain o) Hf' Hg Hoff) as (c & Hc & Hoff').
    cbn [mbind option_bind]. rewrite Hc. eexists _, _, sh'. split; [done|]. split; [done|].
    intros Hk. split_and!; cbn; auto.
  - destruct Ht as (s & Href & Hsh). pose proof (Hf _ _ Href) as Hm. rewrite Hsh, Hg in Hm.
    destruct Hm as [e ->]. by eexists _, o, sh.
Qed.

Lemma start_lockstep sh o :
  lockstep sh o -> exists sh', lockstep sh' (start_transaction o) /\ same_values o (start_transaction o).
Proof.
  assert (Hcs : forall m, cs_at sh m ->
    cs_at (mkShape (S (sh_layers sh)) (sh_client sh) (sh_mode sh)) (Changeset.start_transaction m)).
  { intros m (s & Href & <-). exists (Spec.start s). split; [by apply start_refines|].
    pose proof (refines_nonempty m s Href). unfold shape_of, Spec.start.
    by destruct (Spec.layers s). }
  intros [Ht Hch (s & Hoff & Hsh)]. eexists. split; [split; cbn|split_and!; cbn].
  - apply Hcs, Ht.
  - intros k c i. rewrite lookup_fmap. destruct (children o !! k) as [[c0 i0]|] eqn:E; [|done].
    cbn. intros [= <- <-]. eauto.
  - exists (Spec.start s). split; [by apply start_refines|].
    destruct Hoff as [_ Hd _ _ _]. subst sh. unfold shape_of, Spec.start. by destruct (Spec.layers s).
  - done.
  - unfold currents. rewrite <- map_fmap_compose. apply map_fmap_ext. by intros k [c i] _.
  - done.
Qed.

Lemma commit_lockstep sh o :
  lockstep sh o -> exists r o' sh', commit_transaction o = Some (r, o') /\ lockstep sh' o' /\
    same_values o o'.
Proof.
  intros Ho. unfold commit_transaction.
  destruct (in_lockstep_spec true true Changeset.commit_transaction commit_transaction_offchain
    shape_close sh o) as (r & o' & sh' & ? & ? & Hs); [apply (close_shaped _ _ false)..|done|].
  eauto 10.
Qed.

Lemma enter_lockstep sh o :
  lockstep sh o -> exists r o' sh', enter_runtime o = Some (r, o') /\ lockstep sh' o' /\
    same_values o o'.
Proof.
  intros Ho. unfold enter_runtime.
  destruct (in_lockstep_spec true true Changeset.enter_runtime Changeset.enter_runtime
    shape_enter sh o) as (r & o' & sh' & ? & ? & Hs); [apply enter_shaped..|done|].
  eauto 10.
Qed.

Lemma exit_lockstep sh o :
  lockstep sh o -> exists r o' sh', exit_runtime o = Some (r, o') /\ lockstep sh' o'.
Proof.
  intros Ho. unfold exit_runtime.
  destruct (in_lockstep_spec false false Changeset.exit_runtime exit_runtime_offchain
    shape_exit sh o) as (r & o' & sh' & ? & ? & Hs); [apply exit_shaped..|done|].
  eauto 10.
Qed.

Lemma rollback_lockstep sh o :
  lockstep sh o -> exists r o' sh', rollback_transaction o = Some (r, o') /\ lockstep sh' o' /\
    storage_transaction_cache o' = None.
Proof.
  intros [Ht Hch Hoff]. unfold rollback_transaction. cbn [mark_dirty with_cache top children offchain].
  pose proof (close_shaped (K := StorageKey) rollback_entry merge_entry true) as Hf.
  destruct (shape_close sh) as [sh'|] eqn:Hg.
  - destruct (shaped_at _ _ _ sh sh' (top o) Hf Hg Ht) as (t & Ht1 & Ht' & _).
    destruct (for_children_at _ _ _ sh sh' (children o) Hf Hg Hch) as (cs & Hcs1 & Hcs & _).
    destruct (off_shaped_at _ _ _ sh sh' (offchain o)
      (close_shaped rollback_entry_offchain merge_entry_offchain true) Hg Hoff) as (c & Hc & Hoff').
    change (Changeset.rollback_transaction (top o))
      with (close_with rollback_entry merge_entry true (top o)).
    change (rollback_transaction_offchain (offchain o))
      with (close_with rollback_entry_offchain merge_entry_offchain true (offchain o)).
    change (for_children Changeset.rollback_transaction (children o))
      with (for_children (close_with rollback_entry merge_entry true) (children o)).
    rewrite Ht1, Hcs1. cbn [mbind option_bind]. rewrite Hc.
    eexists _, _, sh'. split; [done|]. split; [|done]. split; cbn; [done| |done].
    intros k d i Hk. apply map_lookup_filter_Some in Hk as [Hk _]. eauto.
  - destruct Ht as (s & Href & Hsh). pose proof (Hf _ _ Href) as Hm. rewrite Hsh, Hg in Hm.
    destruct Hm as [e He].
    change (Changeset.rollback_transaction (top o))
      with (close_with rollback_entry merge_entry true (top o)). rewrite He.
    eexists _, _, sh. split; [done|]. split; [|done]. split; cbn; [by exists s|done|done].
Qed.

(** *** The storage root *)

Lemma delta_at sh m :
  cs_at sh m -> exists m', delta m = Some (current m, m') /\ cs_at sh m' /\ current m' = current m.
Proof.
  intros (s & Href & Hsh). destruct (delta_spec m s Href) as (m' & ? & Href').
  exists m'. split_and!; [done|by exists s|by apply (cs_at_current _ _ s)].
Qed.

Lemma child_deltas_at sh cs :
  (forall k c i, cs !! k = Some (c, i) -> cs_at sh c) ->
  exists cs', child_deltas cs = Some (currents cs, cs') /\
    (forall k c i, cs' !! k = Some (c, i) -> cs_at sh c) /\ currents cs' = currents cs.
Proof.
  intros Hcs. unfold child_deltas.
  set (g := fun '(c, i) => '(d, c) ← delta c; Some (i, d, (c, i))).
  assert (Hg : forall k c i, cs !! k = Some (c, i) -> exists c', g (c, i) = Some (i, current c, (c', i)) /\
    cs_at sh c' /\ current c' = current c).
  { intros k c i Hk. destruct (delta_at sh c (Hcs _ _ _ Hk)) as (c' & Hd & ?).
    exists c'. unfold g. by rewrite Hd. }
  rewrite decide_True.
  2:{ intros k [c i] Hk. destruct (Hg k c i Hk) as (c' & Hc & _). eexists. exact Hc. }
  eexists. split; [|split].
  - do 2 f_equal. apply map_eq. intros k. unfold currents. rewrite !lookup_fmap, lookup_omap.
    destruct (cs !! k) as [[c i]|] eqn:E; [|done]. cbn [mbind option_bind].
    destruct (Hg k c i E) as (c' & -> & _). done.
  - intros k c i. rewrite lookup_fmap, lookup_omap. destruct (cs !! k) as [[c0 i0]|] eqn:E; [|done].
    cbn [mbind option_bind]. destruct (Hg k c0 i0 E) as (c' & -> & ? & _). cbn. by intros [= <- <-].
  - apply map_eq. intros k. unfold currents. rewrite !lookup_fmap, lookup_omap.
    destruct (cs !! k) as [[c i]|] eqn:E; [|done]. cbn [mbind option_bind].
    destruct (Hg k c i E) as (c' & -> & _ & Hc). cbn. by rewrite Hc.
Qed.

Lemma storage_root_lockstep sh version o :
  lockstep sh o ->
  exists root cached o', storage_root full_storage_root version o = Some (root, cached, o') /\
    lockstep sh o' /\ current (top o') = current (top o) /\
    currents (children o') = currents (children o) /\
    (coherent o -> coherent o' /\
       root = fst (full_storage_root (current (top o)) (currents (children o)) version)).
Proof.
  intros [Ht Hch Hoff]. unfold storage_root.
  destruct (delta_at sh (top o) Ht) as (t & -> & Ht' & Hct). cbn [mbind option_bind].
  destruct (child_deltas_at sh (children o) Hch) as (cs & -> & Hcs & Hcc). cbn [mbind option_bind].
  destruct (full_storage_root (current (top o)) (currents (children o)) version) as [root tx] eqn:Hr.
  assert (Hnew : let o' := with_cache (Some (mkCache tx root version))
                             (with_children cs (with_top t o)) in
    lockstep sh o' /\ current (top o') = current (top o) /\
    currents (children o') = currents (children o) /\ coherent o').
  { split_and!; [by split|done|done|]. intros cache [= <-].
    cbn [top children with_cache with_children with_top state_version transaction transaction_storage_root].
    by rewrite Hct, Hcc. }
  destruct Hnew as (H1 & H2 & H3 & H4).
  destruct (storage_transaction_cache o) as [cache|] eqn:Hx; [case_decide as Hv|].
  - eexists _, _, o. split_and!; try done. intros Hco. split; [done|].
    specialize (Hco cache Hx). rewrite Hv in Hco. cbn. congruence.
  - eexists _, _, _. split_and!; [done..|]. intros _. by split.
  - eexists _, _, _. split_and!; [done..|]. intros _. by split.
Qed.

(** *** Sequences of operations *)

(** The operations that keep the cache coherent. *)
Definition tracked (op : overlay_op) : bool :=
  match op with
  | AppendStorage _ _ _ | ExitRuntime => false
  | _ => true
  end.

Lemma overlay_step_spec op sh o :
  lockstep sh o ->
  exists o' sh', overlay_step op o = Some o' /\ lockstep sh' o' /\
    (tracked op -> coherent o -> coherent o').
Proof.
  intros Ho. destruct op; cbn [overlay_step tracked].
  - destruct (storage_lockstep sh k o Ho) as (? & o' & -> & ? & ?).
    exists o', sh. split_and!; [done..|]. intros _. apply keeps_coherent. by left.
  - destruct (child_storage_lockstep sh info k o Ho) as (? & o' & -> & ? & ?).
    exists o', sh. split_and!; [done..|]. intros _. apply keeps_coherent. by left.
  - destruct (set_storage_lockstep sh k v o Ho) as (o' & -> & ? & ?).
    exists o', sh. split_and!; [done..|]. intros _. by apply keeps_coherent.
  - destruct (append_storage_lockstep sh k element init o Ho) as (o' & -> & ?). by exists o', sh.
  - destruct (set_child_storage_lockstep sh info k v o Ho) as (o' & -> & ? & ?).
    exists o', sh. split_and!; [done..|]. intros _. by apply keeps_coherent.
  - destruct (clear_child_where_lockstep sh (fun _ => true) info o Ho) as (n & o' & Hc & ? & ?).
    unfold clear_child_storage. rewrite Hc. exists o', sh. split_and!; [done..|].
    intros _. by apply keeps_coherent.
  - destruct (clear_prefix_lockstep sh p o Ho) as (n & o' & -> & ? & ?).
    exists o', sh. split_and!; [done..|]. intros _. by apply keeps_coherent.
  - destruct (clear_child_where_lockstep sh (starts_with p) info o Ho) as (n & o' & Hc & ? & ?).
    unfold clear_child_prefix. rewrite Hc. exists o', sh. split_and!; [done..|].
    intros _. by apply keeps_coherent.
  - destruct (set_offchain_storage_lockstep sh k v o Ho) as (o' & -> & ? & ?).
    exists o', sh. split_and!; [done..|]. intros _. by apply keeps_coherent.
  - destruct Ho. by eexists _, sh.
  - destruct Ho. by eexists _, sh.
  - destruct (start_lockstep sh o Ho) as (sh' & ? & ?). eexists _, sh'. split_and!; [done..|].
    intros _. apply keeps_coherent. by left.
  - destruct (rollback_lockstep sh o Ho) as (? & o' & sh' & -> & ? & ?).
    exists o', sh'. split_and!; [done..|]. intros _. apply keeps_coherent. by right.
  - destruct (commit_lockstep sh o Ho) as (? & o' & sh' & -> & ? & ?).
    exists o', sh'. split_and!; [done..|]. intros _. apply keeps_coherent. by left.
  - destruct (enter_lockstep sh o Ho) as (? & o' & sh' & -> & ? & ?).
    exists o', sh'. split_and!; [done..|]. intros _. apply keeps_coherent. by left.
  - destruct (exit_lockstep sh o Ho) as (? & o' & sh' & -> & ?). by exists o', sh'.
  - destruct (storage_root_lockstep sh version o Ho) as (? & ? & o' & -> & ? & _ & _ & Hc).
    exists o', sh. split_and!; [done..|]. intros _ Hco. by apply Hc.
Qed.

Fixpoint overlay_run (ops : list overlay_op) (o : overlay) : option overlay :=
  match ops with
  | [] => Some o
  | op :: ops => o ← overlay_step op o; overlay_run ops o
  end.

Lemma overlay_run_spec ops sh o :
  lockstep sh o ->
  exists o' sh', overlay_run ops o = Some o' /\ lockstep sh' o' /\
    (Forall tracked ops -> coherent o -> coherent o').
Proof.
  revert sh o. induction ops as [|op ops IH]; intros sh o Ho; [by exists o, sh|].
  destruct (overlay_step_spec op sh o Ho) as (o1 & sh1 & Hs & Ho1 & Hc1).
  destruct (IH sh1 o1 Ho1) as (o2 & sh2 & Hr & Ho2 & Hc2).
  exists o2, sh2. cbn. rewrite Hs. cbn. split_and!; [done..|].
  intros [Hop Hops]%Forall_cons Hco. auto.
Qed.

Lemma default_lockstep : lockstep (mkShape 1 0 Client) (default_overlay (Root := Root) (Tx := Tx)).
Proof.
  split; cbn.
  - exists Spec.init. split; [apply (default_refines rollback_entry merge_entry)|done].
  - done.
  - exists Spec.init. split; [apply (default_refines rollback_entry_offchain)|done].
Qed.

Lemma default_coherent : coherent default_overlay.
Proof. done. Qed.

Lemma shape_depth_top sh o : lockstep sh o -> S (transaction_depth o) = sh_layers sh.
Proof. intros [(s & Href & <-) _ _]. symmetry. apply (ref_depth _ _ _ _ Href). Qed.

(** C10: the overlays of the main trie, of the child tries and of the offchain
    database stay in lockstep.  Every sequence of operations, transactions
    opened and closed in any order and children created at any depth included,
    runs without hitting one of the [expect("... in lockstep; qed")] of mod.rs,
    and afterwards all the overlays have the same depth and mode. *)
Theorem overlays_stay_in_lockstep (ops : list overlay_op) :
  exists o, overlay_run ops default_overlay = Some o /\
    (forall k c i, children o !! k = Some (c, i) ->
       Changeset.transaction_depth c = transaction_depth o /\
       execution_mode c = execution_mode (top o)) /\
    Changeset.transaction_depth (offchain o) = transaction_depth o /\
    execution_mode (offchain o) = execution_mode (top o).
Proof.
  destruct (overlay_run_spec ops _ _ default_lockstep) as (o & sh & Hrun & Ho & _).
  exists o. split; [done|]. pose proof (shape_depth_top _ _ Ho) as Hd.
  destruct Ho as [(s & Href & <-) Hch (s' & Href' & Hsh)].
  pose proof (ref_mode _ _ _ _ Href) as Hm. split_and!.
  - intros k c i Hk. destruct (Hch k c i Hk) as (sc & Hrc & Hshc).
    pose proof (ref_depth _ _ _ _ Hrc). pose proof (ref_mode _ _ _ _ Hrc).
    injection Hshc as ? ? ?. cbn in Hd. split; [lia|congruence].
  - pose proof (ref_depth _ _ _ _ Href'). injection Hsh as ? ? ?. cbn in Hd. lia.
  - pose proof (ref_mode _ _ _ _ Href'). injection Hsh as ? ? ?. congruence.
Qed.

(** C26: the storage root is never stale, as long as the runtime does not use
    [append_storage] or leave through [exit_runtime]: after any such sequence
    of operations, [storage_root] returns the backend's root of exactly the
    values the overlay currently holds, cached or not. *)
Theorem storage_root_is_current (ops : list overlay_op) (version : StateVersion) (o : overlay) :
  Forall tracked ops -> overlay_run ops default_overlay = Some o ->
  exists cached o',
    storage_root full_storage_root version o
      = Some (fst (full_storage_root (current (top o)) (currents (children o)) version), cached, o').
Proof.
  intros Htr Hrun.
  destruct (overlay_run_spec ops _ _ default_lockstep) as (o1 & sh & Hrun1 & Ho & Hc).
  rewrite Hrun in Hrun1. injection Hrun1 as <-.
  destruct (storage_root_lockstep sh version o Ho) as (root & cached & o' & Hr & _ & _ & _ & Hco).
  destruct (Hco (Hc Htr default_coherent)) as [_ ->]. eauto.
Qed.
End overlay_invariant.

(** ** Stale roots

    With a backend whose root is the delta itself, the two operations that do
    not invalidate the cache leave a root that is not the one of the current
    values. *)

Definition identity_root (d : gmap StorageKey (option StorageValue))
    (_ : gmap StorageKey (ChildInfo * gmap StorageKey (option StorageValue))) (_ : StateVersion) :
    gmap StorageKey (option StorageValue) * unit := (d, tt).

Definition read_root (ops : list overlay_op) :
    option (gmap StorageKey (option StorageValue) * gmap StorageKey (option StorageValue)) :=
  o ← overlay_run (C := scale_compact) identity_root ops default_overlay;
  '(root, _, o') ← storage_root identity_root V1 o;
  Some (root, current (top o')).

Lemma read_root_at ops k a b :
  option_map (fun rn => (fst rn !! k, snd rn !! k)) (read_root ops) = Some (a, b) ->
  exists root now, read_root ops = Some (root, now) /\ root !! k = a /\ now !! k = b.
Proof. destruct (read_root ops) as [[root now]|]; [|done]. intros [= <- <-]. by exists root, now. Qed.

(** [append_storage] of mod.rs does not call [mark_dirty], so a storage
    root computed before an append is returned unchanged after it: the root
    below does not contain the appended value, although every read does. *)
Theorem append_storage_leaves_stale_root :
  exists k v root now,
    read_root [StorageRoot V1; AppendStorage k [Byte.x07] []] = Some (root, now) /\
    root !! k = None /\ now !! k = Some (Some v).
Proof.
  exists [Byte.x00], [Byte.x04; Byte.x07]. apply read_root_at. vm_compute. reflexivity.
Qed.

(** [exit_runtime] rolls back the transactions the runtime left open
    without invalidating the cache, so a root computed inside such a
    transaction survives the rollback of the values it was computed from. *)
Theorem exit_runtime_leaves_stale_root :
  exists k v root now,
    read_root [EnterRuntime; StartTransaction; SetStorage k (Some v); StorageRoot V1; ExitRuntime]
      = Some (root, now) /\
    root !! k = Some (Some v) /\ now !! k = None.
Proof.
  exists [Byte.x00], [Byte.x07]. apply read_root_at. vm_compute. reflexivity.
Qed.

(** ** Witnesses *)

Lemma overlays_stay_in_lockstep_witness :
  exists o, overlay_run (C := scale_compact) identity_root
      [StartTransaction; SetChildStorage (ParentKeyId []) [Byte.x00] None; CommitTransaction;
       RollbackTransaction] default_overlay = Some o /\
    (forall k c i, children o !! k = Some (c, i) ->
       Changeset.transaction_depth c = transaction_depth o /\
       execution_mode c = execution_mode (top o)) /\
    Changeset.transaction_depth (offchain o) = transaction_depth o /\
    execution_mode (offchain o) = execution_mode (top o).
Proof. apply (overlays_stay_in_lockstep (L := scale_compact_laws)). Defined.

Lemma storage_root_is_current_witness :
  exists o, overlay_run (C := scale_compact) identity_root
      [StorageRoot V1; SetStorage [Byte.x00] (Some [Byte.x07])] default_overlay = Some o /\
    exists cached o', storage_root identity_root V1 o
      = Some (fst (identity_root (current (top o)) (currents (children o)) V1), cached, o').
Proof.
  eexists. split; [vm_compute; reflexivity|].
  eapply (storage_root_is_current (L := scale_compact_laws) identity_root
            [StorageRoot V1; SetStorage [Byte.x00] (Some [Byte.x07])]);
    [repeat constructor|vm_compute; reflexivity].
Defined.
