(* ===== verification/Arith128.v ===== *)
(** * 128-bit helpers

    Model of [substrate/primitives/arithmetic/src/helpers_128bit.rs]: the binary
    greatest common divisor, the 256-bit product and quotient [Double128], the
    rounded [multiply_by_rational_with_rounding] and the bitwise square root,
    together with the [Rounding] modes of [per_things.rs].  Arithmetic is kept at
    128 bits: every sum, product and shift of the source is wrapped to its type,
    and the theorems show that the results are the mathematical ones. *)

From stdpp Require Import base option numbers.
From Stdlib Require Import ZArith Lia Zquot.
From S2P Require Import Prelude.
Local Open Scope Z_scope.

(** ** Rounding *)

Inductive Rounding : Set :=
| Up
| Down
| NearestPrefUp
| NearestPrefDown.

Inductive SignedRounding : Set :=
| High
| Low
| NearestPrefHigh
| NearestPrefLow
| Major
| Minor
| NearestPrefMajor
| NearestPrefMinor.

Definition from_signed (rounding : SignedRounding) (negative : bool) : Rounding :=
  match rounding, negative with
  | Low, true | Major, _ | High, false => Up
  | High, true | Minor, _ | Low, false => Down
  | NearestPrefMajor, _ | NearestPrefHigh, false | NearestPrefLow, true => NearestPrefUp
  | NearestPrefMinor, _ | NearestPrefLow, false | NearestPrefHigh, true => NearestPrefDown
  end.

(** Whether a quotient with the given remainder is bumped by one: the [match]
    shared by all rounding divisions of the crate. *)
Definition bumps (r : Rounding) (remainder c : Z) : bool :=
  match r with
  | Up => 0 <? remainder
  | NearestPrefUp => c / 2 + c mod 2 <=? remainder
  | NearestPrefDown => c / 2 <? remainder
  | Down => false
  end.

(** ** Greatest common divisor *)

(** The recursion of [gcd]; every call removes at least one bit of one argument,
    so 257 calls are enough for 128-bit arguments ([gcd_is_gcd]). *)
Fixpoint gcd_fuel (fuel : nat) (a b : Z) : Z :=
  match fuel with
  | O => 0
  | S fuel =>
    if a =? b then b
    else if a =? 0 then b
    else if b =? 0 then a
    else match Z.land a 1, Z.land b 1 with
         | 0, 1 => gcd_fuel fuel (Z.shiftr a 1) b
         | 1, 0 => gcd_fuel fuel (Z.shiftr b 1) a
         | 0, 0 => wrapping 128 (Z.shiftl (gcd_fuel fuel (Z.shiftr a 1) (Z.shiftr b 1)) 1)
         | _, _ =>
           let x := Z.min a b in
           let y := Z.max a b in
           gcd_fuel fuel (Z.shiftr (y - x) 1) x
         end
  end.

Definition gcd (a b : Z) : Z := gcd_fuel 257 a b.

(** [split]: the two 64-bit halves of a 128-bit number, high half first. *)
Definition split (a : Z) : Z * Z := (wrapping 64 (Z.shiftr a 64), wrapping 64 a).

(** ** Double128 *)

Module double128.

Definition low_64 (a : Z) : Z := Z.land a (Z.shiftl 1 64 - 1).
Definition high_64 (a : Z) : Z := Z.shiftr a 64.

(** [!a] on 128 bits. *)
Definition not128 (a : Z) : Z := Z.land (Z.lnot a) (umax 128).
Definition neg128 (a : Z) : Z := wrapping 128 (not128 a + 1).
Definition div128 (a : Z) : Z := wrapping 128 (neg128 a / a + 1).
Definition mod128 (a : Z) : Z := neg128 a mod a.

Record Double128 : Set := { high : Z; low : Z }.

Definition try_into_u128 (d : Double128) : option Z :=
  match high d with
  | 0 => Some (low d)
  | _ => None
  end.

Definition zero : Double128 := {| high := 0; low := 0 |}.

Definition left_shift_64 (scaled_value : Z) : Double128 :=
  {| high := Z.shiftr scaled_value 64; low := wrapping 128 (Z.shiftl scaled_value 64) |}.

Definition from_low (l : Z) : Double128 := {| high := 0; low := l |}.
Definition low_part (d : Double128) : Double128 := {| high := 0; low := low d |}.

Definition overflowing_add (a b : Z) : Z * bool :=
  (wrapping 128 (a + b), umax 128 <? a + b).

Definition add (a b : Double128) : Double128 :=
  let '(l, overflow) := overflowing_add (low a) (low b) in
  let carry := if overflow : bool then 1 else 0 in
  {| high := wrapping 128 (wrapping 128 (high a + high b) + carry); low := l |}.

Definition product_of (a b : Z) : Double128 :=
  let a_low := low_64 a in let a_high := high_64 a in
  let b_low := low_64 b in let b_high := high_64 b in
  let f := wrapping 128 (a_low * b_low) in
  let o := wrapping 128 (a_low * b_high) in
  let i := wrapping 128 (a_high * b_low) in
  let l := wrapping 128 (a_high * b_high) in
  let fl := {| high := l; low := f |} in
  add (add fl (left_shift_64 i)) (left_shift_64 o).

(** The [while] loop of [div]: the accumulated quotient and what is left. *)
Fixpoint div_loop (fuel : nat) (q r : Z) (x self : Double128) : Double128 * Double128 :=
  match fuel with
  | O => (x, self)
  | S fuel =>
    if high self =? 0 then (x, self)
    else div_loop fuel q r
           (add x (product_of (high self) q))
           (add (product_of (high self) r) (low_part self))
  end.

(** The high half at least halves, rounding up, in every round, and a high half
    of one survives at most two rounds: 131 rounds are enough ([div_spec]). *)
Definition div (self : Double128) (rhs : Z) : Double128 * Z :=
  if rhs =? 1 then (self, 0)
  else
    let '(x, self) := div_loop 131 (div128 rhs) (mod128 rhs) zero self in
    (add x (from_low (low self / rhs)), low self mod rhs).

End double128.

(** ** Multiplication by a rational *)

Definition multiply_by_rational_with_rounding (a b c : Z) (r : Rounding) : option Z :=
  if c =? 0 then None
  else
    let '(result, remainder) := double128.div (double128.product_of a b) c in
    result ← double128.try_into_u128 result;
    if bumps r remainder c then checked_add 128 result 1 else Some result.

(** ** Square root *)

(** [leading_zeros] of a non-zero 128-bit number. *)
Definition leading_zeros (n : Z) : Z := if n =? 0 then 128 else 127 - Z.log2 n.

Fixpoint sqrt_loop (fuel : nat) (n bit result : Z) : Z :=
  match fuel with
  | O => result
  | S fuel =>
    if bit =? 0 then result
    else if wrapping 128 (result + bit) <=? n
    then sqrt_loop fuel (n - wrapping 128 (result + bit)) (Z.shiftr bit 2)
           (wrapping 128 (Z.shiftr result 1 + bit))
    else sqrt_loop fuel n (Z.shiftr bit 2) (Z.shiftr result 1)
  end.

(** The bit starts at a power of four below [2^128] and is divided by four in
    every round: 65 rounds are enough ([sqrt_is_sqrt]). *)
Definition sqrt (n : Z) : Z :=
  if n =? 0 then 0
  else
    let max_shift := leading_zeros 0 - 1 in
    let shift := Z.ldiff (max_shift - leading_zeros n) 1 in
    let bit := wrapping 128 (Z.shiftl 1 shift) in
    sqrt_loop 65 n bit 0.

(** * Theorems *)

(** ** Reference rounding

    [round_div r n d] is [n / d] rounded as [r] says. *)
Definition round_div (r : Rounding) (n d : Z) : Z :=
  match r with
  | Up => (n + d - 1) / d
  | Down => n / d
  | NearestPrefUp => (2 * n + d) / (2 * d)
  | NearestPrefDown => (2 * n + d - 1) / (2 * d)
  end.

(** [v = n / d] follows from the bounds of the Euclidean division. *)
Lemma div_eq_bounds n d v : 0 < d -> d * v <= n < d * (v + 1) -> n / d = v.
Proof. intros Hd H. symmetry. apply (Z.div_unique n d v (n - d * v)); lia. Qed.

Lemma bumps_round_div r n c :
  0 < c -> n / c + (if bumps r (n mod c) c then 1 else 0) = round_div r n c.
Proof.
  intros Hc.
  pose proof (Z.div_mod n c ltac:(lia)) as Hn. pose proof (Z.mod_pos_bound n c Hc) as Hr.
  set (q := n / c) in *. set (m := n mod c) in *.
  pose proof (Z.div_mod c 2 ltac:(lia)). pose proof (Z.mod_pos_bound c 2 ltac:(lia)).
  destruct r; cbn [bumps round_div]; symmetry.
  - destruct (Z.ltb_spec 0 m); apply div_eq_bounds; nia.
  - rewrite Z.add_0_r. done.
  - destruct (Z.leb_spec (c / 2 + c mod 2) m); apply div_eq_bounds; nia.
  - destruct (Z.ltb_spec (c / 2) m); apply div_eq_bounds; nia.
Qed.

(** A rounded quotient is off by less than one, and by at most a half when
    rounding to nearest. *)
Lemma round_div_error r n d :
  0 < d ->
  match r with
  | Up => 0 <= d * round_div r n d - n < d
  | Down => 0 <= n - d * round_div r n d < d
  | NearestPrefUp => - d < 2 * (n - d * round_div r n d) + 1 <= d + 1 /\
                     2 * (n - d * round_div r n d) < d
  | NearestPrefDown => - d < 2 * (n - d * round_div r n d) <= d
  end.
Proof.
  intros Hd. destruct r; cbn [round_div].
  - pose proof (Z.div_mod (n + d - 1) d ltac:(lia)).
    pose proof (Z.mod_pos_bound (n + d - 1) d Hd). lia.
  - pose proof (Z.div_mod n d ltac:(lia)). pose proof (Z.mod_pos_bound n d Hd). lia.
  - pose proof (Z.div_mod (2 * n + d) (2 * d) ltac:(lia)).
    pose proof (Z.mod_pos_bound (2 * n + d) (2 * d) ltac:(lia)). lia.
  - pose proof (Z.div_mod (2 * n + d - 1) (2 * d) ltac:(lia)).
    pose proof (Z.mod_pos_bound (2 * n + d - 1) (2 * d) ltac:(lia)). lia.
Qed.

Lemma round_div_nonneg r n d : 0 <= n -> 0 < d -> 0 <= round_div r n d.
Proof.
  intros Hn Hd. rewrite <- bumps_round_div by done.
  pose proof (Z.div_pos n d Hn Hd). destruct (bumps _ _ _); lia.
Qed.

(** Splitting off the whole multiples of the divisor commutes with rounding. *)
Lemma round_div_add r k n d : 0 < d -> round_div r (k * d + n) d = k + round_div r n d.
Proof.
  intros Hd. rewrite <- !bumps_round_div by done.
  rewrite Z.div_add_l by lia.
  replace ((k * d + n) mod d) with (n mod d) by (rewrite (Z.add_comm (k * d)), Z.mod_add; lia).
  lia.
Qed.

Lemma round_div_le_mul r x p d : 0 <= x -> 0 <= p <= d -> 0 < d -> round_div r (x * p) d <= x.
Proof.
  intros Hx Hp Hd. destruct r; cbn [round_div]; apply Z.lt_succ_r, Z.div_lt_upper_bound; nia.
Qed.

(** ** Greatest common divisor *)

Lemma land_1 a : Z.land a 1 = a mod 2.
Proof. change 1 with (Z.ones 1). rewrite Z.land_ones by lia. done. Qed.

Lemma shiftr_1 a : Z.shiftr a 1 = a / 2.
Proof. rewrite Z.shiftr_div_pow2 by lia. done. Qed.

Lemma mod_2_cases a : a mod 2 = 0 \/ a mod 2 = 1.
Proof. pose proof (Z.mod_pos_bound a 2 ltac:(lia)). lia. Qed.

Lemma gcd_odd_2 g b : b mod 2 = 1 -> (g | b) -> Z.gcd g 2 = 1.
Proof.
  intros Hb [k ->]. pose proof (Z.gcd_divide_l g 2) as [u Hu].
  pose proof (Z.gcd_divide_r g 2) as Hd. pose proof (Z.gcd_nonneg g 2).
  assert (Z.gcd g 2 = 1 \/ Z.gcd g 2 = 2) as [->|E]; [|done|].
  { apply Z.divide_pos_le in Hd as Hle; [|lia].
    destruct (Z.eq_dec (Z.gcd g 2) 0) as [E|]; [|lia].
    rewrite E in Hd. apply Z.divide_0_l in Hd. lia. }
  rewrite E in Hu. rewrite Hu, Z.mul_assoc, Z.mod_mul in Hb by lia. lia.
Qed.

(** The three reductions of the binary algorithm. *)
Lemma gcd_halve_one a b : a mod 2 = 0 -> b mod 2 = 1 -> Z.gcd (a / 2) b = Z.gcd a b.
Proof.
  intros Ha Hb. rewrite (Z.div_mod a 2) at 2 by lia. rewrite Ha, Z.add_0_r.
  symmetry. apply Z.divide_antisym_nonneg; [apply Z.gcd_nonneg..| |].
  - apply Z.gcd_greatest; [|apply Z.gcd_divide_r].
    apply Z.gauss with (m := 2); [apply Z.gcd_divide_l|].
    apply (gcd_odd_2 _ b Hb), Z.gcd_divide_r.
  - apply Z.gcd_greatest; [|apply Z.gcd_divide_r].
    apply Z.divide_mul_r, Z.gcd_divide_l.
Qed.

Lemma gcd_halve_both a b :
  a mod 2 = 0 -> b mod 2 = 0 -> 2 * Z.gcd (a / 2) (b / 2) = Z.gcd a b.
Proof.
  intros Ha Hb. rewrite <- Z.gcd_mul_mono_l_nonneg by lia. f_equal.
  - pose proof (Z.div_mod a 2). lia.
  - pose proof (Z.div_mod b 2). lia.
Qed.

Lemma gcd_halve_diff x y :
  x mod 2 = 1 -> y mod 2 = 1 -> Z.gcd ((y - x) / 2) x = Z.gcd y x.
Proof.
  intros Hx Hy. rewrite gcd_halve_one; [|rewrite Zminus_mod, Hx, Hy; done|done].
  rewrite Z.gcd_comm, Z.gcd_sub_diag_r, Z.gcd_comm. done.
Qed.

Lemma half_lt_pow a i : 0 < a -> a < 2 ^ i -> 0 <= i -> 0 <= i - 1 /\ a / 2 < 2 ^ (i - 1).
Proof.
  intros Ha Hi Hi0. assert (1 <= i).
  { destruct (Z.eq_dec i 0) as [->|]; [|lia]. rewrite Z.pow_0_r in Hi. lia. }
  split; [lia|]. apply Z.div_lt_upper_bound; [lia|].
  rewrite <- Z.pow_succ_r by lia. replace (Z.succ (i - 1)) with i by lia. done.
Qed.

Lemma gcd_le_r a b : 0 <= a -> 0 < b -> Z.gcd a b <= b.
Proof. intros. apply Z.divide_pos_le; [done|apply Z.gcd_divide_r]. Qed.

Lemma gcd_fuel_spec fuel : forall i j a b,
  0 <= i -> 0 <= j -> i + j < Z.of_nat fuel ->
  0 <= a < 2 ^ i -> 0 <= b < 2 ^ j -> a <= umax 128 -> b <= umax 128 ->
  gcd_fuel fuel a b = Z.gcd a b.
Proof.
  induction fuel as [|fuel IH]; intros i j a b Hi Hj Hf Ha Hb Ha128 Hb128; [lia|].
  cbn [gcd_fuel].
  destruct (Z.eqb_spec a b) as [->|Hab]; [rewrite Z.gcd_diag; lia|].
  destruct (Z.eqb_spec a 0) as [->|Ha0]; [rewrite Z.gcd_0_l; lia|].
  destruct (Z.eqb_spec b 0) as [->|Hb0]; [rewrite Z.gcd_0_r; lia|].
  destruct (half_lt_pow a i) as [Hi1 Ha2]; [lia..|].
  destruct (half_lt_pow b j) as [Hj1 Hb2]; [lia..|].
  pose proof (Z.div_pos a 2). pose proof (Z.div_pos b 2).
  pose proof (Z.div_lt a 2 ltac:(lia) ltac:(lia)). pose proof (Z.div_lt b 2 ltac:(lia) ltac:(lia)).
  rewrite !land_1, !shiftr_1.
  destruct (mod_2_cases a) as [Ea|Ea], (mod_2_cases b) as [Eb|Eb]; rewrite Ea, Eb.
  - rewrite (IH (i - 1) (j - 1)) by lia.
    rewrite Z.shiftl_mul_pow2, Z.pow_1_r, Z.mul_comm by lia.
    rewrite gcd_halve_both by done. apply wrapping_id.
    pose proof (gcd_le_r a b). pose proof (Z.gcd_nonneg a b). unfold is_uint. lia.
  - rewrite (IH (i - 1) j) by lia. by apply gcd_halve_one.
  - rewrite (IH (j - 1) i) by lia. rewrite Z.gcd_comm, Z.gcd_comm, gcd_halve_one by done.
    apply Z.gcd_comm.
  - destruct (Z.le_ge_cases a b) as [Hle|Hle].
    + rewrite Z.min_l, Z.max_r by lia.
      pose proof (Z.div_le_mono (b - a) b 2). pose proof (Z.div_pos (b - a) 2).
      rewrite (IH (j - 1) i) by lia. rewrite gcd_halve_diff by done. apply Z.gcd_comm.
    + rewrite Z.min_r, Z.max_l by lia.
      pose proof (Z.div_le_mono (a - b) a 2). pose proof (Z.div_pos (a - b) 2).
      rewrite (IH (i - 1) j) by lia. by apply gcd_halve_diff.
Qed.

Lemma gcd_spec a b : is_uint 128 a -> is_uint 128 b -> gcd a b = Z.gcd a b.
Proof.
  unfold is_uint, umax. intros Ha Hb. apply gcd_fuel_spec with (i := 128) (j := 128);
    unfold umax; lia.
Qed.

(** C28: for all 128-bit arguments the binary algorithm of [gcd] terminates with
    the greatest common divisor. *)
Theorem gcd_is_gcd (a b : Z) : is_uint 128 a -> is_uint 128 b -> gcd a b = Z.gcd a b.
Proof. apply gcd_spec. Qed.

(** Two 128-bit numbers with a large common factor. *)
Lemma gcd_is_gcd_witness : gcd (6 * 2 ^ 100) (15 * 2 ^ 99) = Z.gcd (6 * 2 ^ 100) (15 * 2 ^ 99).
Proof. apply gcd_is_gcd; unfold is_uint; vm_compute; split; discriminate. Defined.

(** ** 256-bit arithmetic *)

Section double128_proofs.
Import double128.

Definition val (d : Double128) : Z := high d * 2 ^ 128 + low d.
Definition wf (d : Double128) : Prop := is_uint 128 (high d) /\ is_uint 128 (low d).

Lemma wrapping_add_carry w a b :
  0 <= w -> is_uint w a -> is_uint w b ->
  a + b = (if umax w <? a + b then 1 else 0) * 2 ^ w + wrapping w (a + b).
Proof.
  intros Hw [Ha1 Ha2] [Hb1 Hb2]. unfold umax, wrapping in *.
  destruct (Z.ltb_spec (2 ^ w - 1) (a + b)).
  - replace (a + b) with (a + b - 2 ^ w + 1 * 2 ^ w) by lia.
    rewrite Z.mod_add, Z.mod_small by lia. lia.
  - rewrite Z.mod_small by lia. lia.
Qed.

Lemma double_add_spec a b :
  wf a -> wf b -> val a + val b < 2 ^ 256 -> wf (add a b) /\ val (add a b) = val a + val b.
Proof.
  intros [Hah Hal] [Hbh Hbl] Hlt. unfold add, overflowing_add, val in *. cbn [high low].
  pose proof (wrapping_add_carry 128 (low a) (low b) ltac:(lia) Hal Hbl) as E.
  pose proof (wrapping_is_uint 128 (low a + low b) ltac:(lia)) as Hw.
  change (2 ^ 256) with (2 ^ 128 * 2 ^ 128) in Hlt.
  assert (Hd : 0 < 2 ^ 128) by lia.
  unfold is_uint, umax, wf in *. cbn [high low].
  set (D := 2 ^ 128) in *. set (wl := wrapping 128 (low a + low b)) in *.
  set (c := if D - 1 <? low a + low b then 1 else 0) in *.
  assert (0 <= c) by (unfold c; destruct (_ <? _); lia).
  assert ((high a + high b + c) * D + wl < D * D) by (rewrite !Z.mul_add_distr_r; lia).
  assert (Hsum : high a + high b + c < D) by nia.
  assert (E1 : wrapping 128 (high a + high b) = high a + high b).
  { apply wrapping_id. unfold is_uint, umax. fold D. lia. }
  rewrite E1, wrapping_id by (unfold is_uint, umax; fold D; lia).
  unfold is_uint, umax. fold D. rewrite !Z.mul_add_distr_r. lia.
Qed.

Lemma left_shift_64_spec v :
  is_uint 128 v -> wf (left_shift_64 v) /\ val (left_shift_64 v) = v * 2 ^ 64.
Proof.
  intros [Hv1 Hv2]. unfold left_shift_64, val, wf. cbn [high low].
  pose proof (wrapping_is_uint 128 (Z.shiftl v 64) ltac:(lia)) as Hw.
  rewrite Z.shiftr_div_pow2, Z.shiftl_mul_pow2 in * by lia.
  pose proof (Z.div_mod v (2 ^ 64) ltac:(lia)). pose proof (Z.mod_pos_bound v (2 ^ 64) ltac:(lia)).
  assert (E : wrapping 128 (v * 2 ^ 64) = v mod 2 ^ 64 * 2 ^ 64).
  { unfold wrapping. change (2 ^ 128) with (2 ^ 64 * 2 ^ 64).
    rewrite Z.mul_mod_distr_r by lia. done. }
  rewrite E in *. unfold is_uint, umax in *.
  change (2 ^ 128) with (2 ^ 64 * 2 ^ 64) in *. set (X := 2 ^ 64) in *.
  assert (0 < X) by (unfold X; lia). nia.
Qed.

Lemma low_64_mod a : low_64 a = a mod 2 ^ 64.
Proof. unfold low_64. change (Z.shiftl 1 64 - 1) with (Z.ones 64). apply Z.land_ones. lia. Qed.

Lemma high_64_div a : high_64 a = a / 2 ^ 64.
Proof. apply Z.shiftr_div_pow2. lia. Qed.

Lemma halves_bound a :
  is_uint 128 a -> a = a / 2 ^ 64 * 2 ^ 64 + a mod 2 ^ 64 /\
  0 <= a / 2 ^ 64 < 2 ^ 64 /\ 0 <= a mod 2 ^ 64 < 2 ^ 64.
Proof.
  intros [Ha1 Ha2]. unfold umax in Ha2.
  pose proof (Z.div_mod a (2 ^ 64) ltac:(lia)). pose proof (Z.mod_pos_bound a (2 ^ 64) ltac:(lia)).
  change (2 ^ 128) with (2 ^ 64 * 2 ^ 64) in *.
  split_and!; lia.
Qed.

Lemma product_of_spec a b :
  is_uint 128 a -> is_uint 128 b -> wf (product_of a b) /\ val (product_of a b) = a * b.
Proof.
  intros Ha Hb. unfold product_of. rewrite !low_64_mod, !high_64_div.
  destruct (halves_bound a Ha) as (Ea & Hah & Hal), (halves_bound b Hb) as (Eb & Hbh & Hbl).
  set (ah := a / 2 ^ 64) in *. set (al := a mod 2 ^ 64) in *.
  set (bh := b / 2 ^ 64) in *. set (bl := b mod 2 ^ 64) in *.
  assert (Hm : forall x y, 0 <= x < 2 ^ 64 -> 0 <= y < 2 ^ 64 -> is_uint 128 (x * y)).
  { intros x y Hx Hy. unfold is_uint, umax. change (2 ^ 128) with (2 ^ 64 * 2 ^ 64). nia. }
  rewrite !(wrapping_id 128) by auto.
  assert (Hab : 0 <= a * b < 2 ^ 256).
  { unfold is_uint, umax in *. change (2 ^ 256) with (2 ^ 128 * 2 ^ 128). nia. }
  pose proof (left_shift_64_spec (ah * bl) (Hm _ _ Hah Hbl)) as [Wi Vi].
  pose proof (left_shift_64_spec (al * bh) (Hm _ _ Hal Hbh)) as [Wo Vo].
  assert (Wfl : wf {| high := ah * bh; low := al * bl |}) by (split; cbn; auto).
  assert (E : val {| high := ah * bh; low := al * bl |} + ah * bl * 2 ^ 64 + al * bh * 2 ^ 64
              = a * b).
  { unfold val. cbn [high low]. rewrite Ea, Eb.
    change (2 ^ 128) with (2 ^ 64 * 2 ^ 64). ring. }
  pose proof (Z.mul_nonneg_nonneg ah bl). pose proof (Z.mul_nonneg_nonneg al bh).
  destruct (double_add_spec _ _ Wfl Wi) as [W1 V1]; [lia|].
  destruct (double_add_spec _ _ W1 Wo) as [W2 V2]; [lia|]. split; [done|lia].
Qed.

Lemma div128_spec b : 2 <= b -> b < 2 ^ 128 -> div128 b = 2 ^ 128 / b /\ mod128 b = 2 ^ 128 mod b.
Proof.
  intros Hb Hlt. unfold div128, mod128, neg128, not128.
  change (umax 128) with (Z.ones 128). rewrite Z.land_ones by lia.
  assert (E : wrapping 128 (Z.lnot b mod 2 ^ 128 + 1) = 2 ^ 128 - b).
  { unfold wrapping. replace (Z.lnot b) with (2 ^ 128 - b - 1 + -1 * 2 ^ 128)
      by (unfold Z.lnot; lia).
    rewrite Z.mod_add, (Z.mod_small (_ - _)) by lia.
    replace (2 ^ 128 - b - 1 + 1) with (2 ^ 128 - b) by lia. apply Z.mod_small. lia. }
  rewrite E. replace (2 ^ 128 - b) with (2 ^ 128 + -1 * b) by lia.
  rewrite Z.div_add, Z.mod_add by lia. split; [|done].
  replace (2 ^ 128 / b + -1 + 1) with (2 ^ 128 / b) by lia. apply wrapping_id.
  unfold is_uint, umax. pose proof (Z.div_pos (2 ^ 128) b).
  pose proof (Z.div_lt (2 ^ 128) b). lia.
Qed.

(** One round of the loop: the remaining value drops by a multiple of the
    divisor, which the accumulated quotient gains. *)
Lemma div_round_spec rhs x self :
  2 <= rhs -> rhs < 2 ^ 128 -> wf x -> wf self -> val x * rhs + val self < 2 ^ 256 ->
  let x' := add x (product_of (high self) (div128 rhs)) in
  let self' := add (product_of (high self) (mod128 rhs)) (low_part self) in
  wf x' /\ wf self' /\ val x' * rhs + val self' = val x * rhs + val self /\
  val self' = high self * (2 ^ 128 mod rhs) + low self.
Proof.
  intros Hr Hlt Wx Ws Hb. cbn zeta. destruct (div128_spec rhs Hr Hlt) as [-> ->].
  pose proof (Z.div_mod (2 ^ 128) rhs ltac:(lia)) as ED.
  pose proof (Z.mod_pos_bound (2 ^ 128) rhs ltac:(lia)) as Hmod.
  pose proof (Z.div_pos (2 ^ 128) rhs ltac:(lia) ltac:(lia)) as Hdiv.
  pose proof (Z.div_lt (2 ^ 128) rhs ltac:(lia) ltac:(lia)) as Hdlt.
  set (q := 2 ^ 128 / rhs) in *. set (r := 2 ^ 128 mod rhs) in *.
  assert (Uq : is_uint 128 q) by (unfold is_uint, umax; lia).
  assert (Ur : is_uint 128 r) by (unfold is_uint, umax; lia).
  destruct Ws as [Wh Wl]. destruct (product_of_spec _ q Wh Uq) as [W1 V1].
  destruct (product_of_spec _ r Wh Ur) as [W2 V2].
  assert (W3 : wf (low_part self)) by (split; [unfold is_uint, umax; cbn; lia|done]).
  assert (V3 : val (low_part self) = low self) by (unfold val, low_part; cbn; lia).
  assert (Hvs : val self = high self * q * rhs + high self * r + low self).
  { unfold val. rewrite ED. ring. }
  assert (0 <= val x) by (unfold val; destruct Wx as [[] []]; nia).
  unfold is_uint in Wh, Wl.
  pose proof (Z.mul_nonneg_nonneg (high self) q). pose proof (Z.mul_nonneg_nonneg (high self) r).
  destruct (double_add_spec x _ Wx W1) as [W4 V4]; [nia|].
  destruct (double_add_spec _ _ W2 W3) as [W5 V5]; [nia|].
  split_and!; [done|done|rewrite V4, V1, V5, V2, V3, Hvs; ring|lia].
Qed.

Lemma mod_lt_half D b : 0 < b <= D -> 2 * (D mod b) < D.
Proof.
  intros H. pose proof (Z.div_mod D b ltac:(lia)). pose proof (Z.mod_pos_bound D b ltac:(lia)).
  assert (1 <= D / b) by (apply Z.div_le_lower_bound; lia). nia.
Qed.

(** How many rounds are certainly enough to empty the high half. *)
Definition rounds (self : Double128) (n : Z) : Prop :=
  high self = 0 \/ (high self = 1 /\ 2 * low self < 2 ^ 128 /\ 1 <= n) \/
  exists k, 0 <= k /\ high self <= 2 ^ k /\ k + 2 <= n.

Lemma rounds_step rhs self self' n :
  2 <= rhs -> rhs < 2 ^ 128 -> wf self -> wf self' -> high self <> 0 ->
  val self' = high self * (2 ^ 128 mod rhs) + low self ->
  rounds self (n + 1) -> rounds self' n.
Proof.
  intros Hr Hlt [[Wh1 Wh2] [Wl1 Wl2]] [[Wh1' Wh2'] [Wl1' Wl2']] Hne Hv Hn.
  pose proof (mod_lt_half (2 ^ 128) rhs ltac:(lia)) as Hhalf.
  pose proof (Z.mod_pos_bound (2 ^ 128) rhs ltac:(lia)) as Hpos.
  assert (HD : 0 < 2 ^ 128) by lia.
  unfold val, umax, rounds in *. set (D := 2 ^ 128) in *. set (r := D mod rhs) in *.
  assert (Hone : high self = 1 -> high self' = 0 \/ high self' = 1).
  { intros E. rewrite E in Hv. assert (high self' < 2) by nia. lia. }
  destruct Hn as [Hn|[(E & Hl & Hn)|(k & Hk & Hh & Hn)]]; [lia| |].
  - left. destruct (Hone E) as [?|E']; [done|]. rewrite E, E' in Hv. lia.
  - destruct (Z.eq_dec k 0) as [->|Hk0].
    + assert (E : high self = 1) by lia. destruct (Hone E) as [?|E']; [by left|].
      right; left. rewrite E, E' in Hv. lia.
    + right; right. exists (k - 1). split_and!; [lia| |lia].
      replace k with (Z.succ (k - 1)) in Hh by lia. rewrite Z.pow_succ_r in Hh by lia.
      pose proof (Z.pow_pos_nonneg 2 (k - 1)). set (p := 2 ^ (k - 1)) in *.
      assert (high self * r <= p * (D - 1)) by nia. nia.
Qed.

Lemma double_div_loop_spec rhs fuel : forall x self,
  2 <= rhs -> rhs < 2 ^ 128 -> wf x -> wf self -> val x * rhs + val self < 2 ^ 256 ->
  rounds self (Z.of_nat fuel) ->
  let '(x', self') := div_loop fuel (div128 rhs) (mod128 rhs) x self in
  wf x' /\ wf self' /\ high self' = 0 /\ val x' * rhs + val self' = val x * rhs + val self.
Proof.
  induction fuel as [|fuel IH]; intros x self Hr Hlt Wx Ws Hb Hn; cbn [div_loop].
  - split_and!; [done..| |done]. destruct Hn as [?|[(?&?&?)|(k&?&?&?)]]; lia.
  - destruct (Z.eqb_spec (high self) 0) as [E|Hne]; [done|].
    destruct (div_round_spec rhs x self Hr Hlt Wx Ws Hb) as (Wx' & Ws' & Hv & Hs).
    cbn zeta in *. rewrite <- Hv in Hb |- *. apply IH; try done.
    eapply (rounds_step rhs self); try done. replace (Z.of_nat fuel + 1) with (Z.of_nat (S fuel)) by lia. done.
Qed.

(** [div] is the Euclidean division of a 256-bit number by a 128-bit one. *)
Lemma div_spec d rhs :
  wf d -> 1 <= rhs < 2 ^ 128 ->
  let '(q, r) := div d rhs in wf q /\ val q = val d / rhs /\ r = val d mod rhs.
Proof.
  intros Wd Hr. unfold div. destruct (Z.eqb_spec rhs 1) as [->|Hne].
  { split_and!; [done|by rewrite Z.div_1_r|by rewrite Z.mod_1_r]. }
  assert (Hd : 0 <= val d < 2 ^ 256).
  { destruct Wd as [[] []]. unfold val, umax in *.
    change (2 ^ 256) with (2 ^ 128 * 2 ^ 128). nia. }
  assert (Wz : wf zero) by (split; unfold is_uint, umax; cbn; lia).
  assert (Vz : val zero = 0) by done.
  pose proof (double_div_loop_spec rhs 131 zero d ltac:(lia) ltac:(lia) Wz Wd) as HL.
  rewrite Vz in HL. specialize (HL ltac:(lia)).
  destruct (div_loop 131 (div128 rhs) (mod128 rhs) zero d) as [x self].
  destruct HL as (Wx & Ws & Hh & Hv).
  { right; right. exists 128. destruct Wd as [[] _]. unfold umax in *. lia. }
  assert (El : val self = low self) by (unfold val; rewrite Hh; lia).
  rewrite El in Hv. destruct Ws as [_ [Wl1 Wl2]].
  pose proof (Z.div_mod (low self) rhs ltac:(lia)) as Hdm.
  pose proof (Z.mod_pos_bound (low self) rhs ltac:(lia)) as Hmb.
  pose proof (Z.div_pos (low self) rhs ltac:(lia) ltac:(lia)).
  assert (Wf : wf (from_low (low self / rhs))).
  { split; cbn; unfold is_uint, umax in *; [lia|].
    pose proof (Z.div_le_mono (low self) (2 ^ 128 - 1) rhs).
    pose proof (Z.div_le_upper_bound (2 ^ 128 - 1) rhs (2 ^ 128 - 1)). nia. }
  assert (Vf : val (from_low (low self / rhs)) = low self / rhs) by (unfold val; cbn; lia).
  destruct (double_add_spec x _ Wx Wf) as [Wq Vq]; [nia|].
  rewrite Vq, Vf. split_and!; [done|apply (Z.div_unique _ _ _ (low self mod rhs))|
    apply (Z.mod_unique _ _ (val x + low self / rhs))]; lia.
Qed.
End double128_proofs.

(** The exact [a * b / c] in [w] bits, [None] for a zero divisor or a result that
    does not fit. *)
Definition rational_mul (w a b c : Z) (r : Rounding) : option Z :=
  if (c =? 0) || (umax w <? round_div r (a * b) c) then None
  else Some (round_div r (a * b) c).

Lemma multiply_by_rational_spec a b c r :
  is_uint 128 a -> is_uint 128 b -> is_uint 128 c ->
  multiply_by_rational_with_rounding a b c r = rational_mul 128 a b c r.
Proof.
  intros Ha Hb Hc. unfold multiply_by_rational_with_rounding, rational_mul.
  destruct (Z.eqb_spec c 0) as [->|Hc0]; [done|]. cbn [orb].
  destruct (product_of_spec a b Ha Hb) as [Wp Vp].
  pose proof (div_spec (double128.product_of a b) c Wp) as HD.
  destruct (double128.div _ c) as [q m].
  destruct HD as ([Wq1 Wq2] & Vq & ->); [unfold is_uint, umax in Hc; lia|].
  rewrite Vp in *. rewrite <- bumps_round_div by (unfold is_uint in Hc; lia).
  unfold val, is_uint in *. unfold double128.try_into_u128.
  assert (Hu : 0 < umax 128 /\ 2 ^ 128 = umax 128 + 1) by (unfold umax; lia).
  destruct (double128.high q) as [|p|p]; [|clear Hc Ha Hb|lia]; cbn [mbind option_bind].
  - rewrite <- Vq, Z.mul_0_l, Z.add_0_l. destruct (bumps _ _ _).
    + unfold checked_add. destruct (Z.leb_spec (double128.low q + 1) (umax 128)),
        (Z.ltb_spec (umax 128) (double128.low q + 1)); try done; lia.
    + rewrite Z.add_0_r. destruct (Z.ltb_spec (umax 128) (double128.low q)); [lia|done].
  - destruct (Z.ltb_spec (umax 128) (a * b / c + (if bumps r ((a * b) mod c) c then 1 else 0)));
      [done|]. destruct (bumps _ _ _); nia.
Qed.

(** C29: for 128-bit operands, [multiply_by_rational_with_rounding] is the exact
    quotient [a * b / c] under the requested rounding; it returns [None] exactly
    when the divisor is zero or the rounded quotient does not fit in 128 bits.
    The 256-bit intermediate product and the division loop never lose a bit. *)
Theorem multiply_by_rational_exact (a b c : Z) (r : Rounding) :
  is_uint 128 a -> is_uint 128 b -> is_uint 128 c ->
  multiply_by_rational_with_rounding a b c r =
  if (c =? 0) || (umax 128 <? round_div r (a * b) c) then None
  else Some (round_div r (a * b) c).
Proof. apply multiply_by_rational_spec. Qed.

(** A product of 255 bits whose quotient fits again. *)
Lemma multiply_by_rational_exact_witness :
  multiply_by_rational_with_rounding (2 ^ 128 - 1) (2 ^ 127) (2 ^ 127 + 1) NearestPrefUp =
  Some (2 ^ 128 - 3).
Proof.
  rewrite multiply_by_rational_exact by (unfold is_uint; vm_compute; split; discriminate).
  vm_compute. reflexivity.
Defined.

(** ** Square root *)

Lemma sqrt_loop_spec (k : nat) : forall fuel n R,
  (k + 2 <= fuel)%nat -> 0 <= n -> 0 <= R ->
  R + 2 ^ (Z.of_nat k + 1) <= 2 ^ 64 ->
  n + R * R < (R + 2 ^ (Z.of_nat k + 1)) * (R + 2 ^ (Z.of_nat k + 1)) ->
  sqrt_loop fuel n (2 ^ Z.of_nat k * 2 ^ Z.of_nat k) (R * 2 ^ (Z.of_nat k + 1)) =
  Z.sqrt (n + R * R).
Proof.
  induction k as [|k IH]; intros fuel n R Hf Hn HR H64 Hlt;
    (destruct fuel as [|fuel]; [lia|]); cbn [sqrt_loop];
    rewrite !Z.pow_add_r, Z.pow_1_r in * by lia.
  - change (2 ^ Z.of_nat 0) with 1 in *. rewrite !shiftr_1.
    rewrite (wrapping_id 128 (R * (1 * 2) + 1 * 1)) by (unfold is_uint, umax; lia).
    change (1 * 1 =? 0) with false. cbn iota. change (Z.shiftr (1 * 1) 2) with 0.
    replace (R * (1 * 2) / 2) with R by (symmetry; apply div_eq_bounds; lia).
    rewrite wrapping_id by (unfold is_uint, umax; lia).
    destruct fuel as [|fuel]; [lia|]. cbn [sqrt_loop]. change (0 =? 0) with true. cbn iota.
    destruct (Z.leb_spec (R * (1 * 2) + 1 * 1) n); symmetry; apply Z.sqrt_unique; lia.
  - pose proof (Z.pow_pos_nonneg 2 (Z.of_nat k)) as Hp.
    replace (2 ^ Z.of_nat (S k)) with (2 * 2 ^ Z.of_nat k) in *
      by (rewrite Nat2Z.inj_succ, Z.pow_succ_r; lia).
    set (p := 2 ^ Z.of_nat k) in *.
    assert (Hu : is_uint 128 (R * (2 * p * 2) + 2 * p * (2 * p))).
    { unfold is_uint, umax. change (2 ^ 128) with (2 ^ 64 * 2 ^ 64). nia. }
    rewrite (wrapping_id _ _ Hu).
    destruct (Z.eqb_spec (2 * p * (2 * p)) 0); [nia|].
    rewrite !Z.shiftr_div_pow2 by lia. change (2 ^ 2) with 4. change (2 ^ 1) with 2.
    replace (2 * p * (2 * p) / 4) with (p * p) by (symmetry; apply div_eq_bounds; lia).
    replace (R * (2 * p * 2) / 2) with (R * (p * 2)) by (symmetry; apply div_eq_bounds; lia).
    rewrite wrapping_id by (unfold is_uint in *; nia).
    destruct (Z.leb_spec (R * (2 * p * 2) + 2 * p * (2 * p)) n) as [Hle|Hgt].
    + replace (R * (p * 2) + 2 * p * (2 * p)) with ((R + 2 * p) * (p * 2)) by ring.
      rewrite IH; [f_equal; ring|lia|lia|nia|lia|]. nia.
    + rewrite IH; [done|lia|lia|lia|lia|]. nia.
Qed.

(** [shift] is the largest even number below the position of the top bit. *)
Lemma sqrt_start n :
  1 <= n -> n <= umax 128 ->
  let shift := Z.ldiff (leading_zeros 0 - 1 - leading_zeros n) 1 in
  exists k, (k <= 63)%nat /\ shift = 2 * Z.of_nat k /\ n < 2 ^ (shift + 2).
Proof.
  intros Hn1 Hn2. cbn zeta. unfold leading_zeros. destruct (Z.eqb_spec n 0); [lia|].
  change (if 0 =? 0 then 128 else 127 - Z.log2 0) with 128.
  replace (128 - 1 - (127 - Z.log2 n)) with (Z.log2 n) by lia.
  pose proof (Z.log2_spec n ltac:(lia)) as [_ Hlog]. pose proof (Z.log2_nonneg n).
  assert (Z.log2 n < 128) by (apply Z.log2_lt_pow2; unfold umax in *; lia).
  assert (E : Z.ldiff (Z.log2 n) 1 = 2 * (Z.log2 n / 2)).
  { change 1 with (Z.ones 1). rewrite Z.ldiff_ones_r, shiftr_1, Z.shiftl_mul_pow2 by lia. lia. }
  pose proof (Z.div_mod (Z.log2 n) 2 ltac:(lia)).
  pose proof (Z.mod_pos_bound (Z.log2 n) 2 ltac:(lia)).
  rewrite E. exists (Z.to_nat (Z.log2 n / 2)). split_and!; [lia|lia|].
  eapply Z.lt_le_trans; [apply Hlog|]. apply Z.pow_le_mono_r; lia.
Qed.

Lemma sqrt_spec (n : Z) : is_uint 128 n -> sqrt n = Z.sqrt n.
Proof.
  intros [Hn1 Hn2]. unfold sqrt. destruct (Z.eqb_spec n 0) as [->|Hn]; [done|].
  destruct (sqrt_start n) as (k & Hk & Hshift & Hlt); [lia..|]. rewrite Hshift in *.
  assert (E : Z.shiftl 1 (2 * Z.of_nat k) = 2 ^ Z.of_nat k * 2 ^ Z.of_nat k).
  { rewrite Z.shiftl_1_l, <- Z.pow_add_r by lia. f_equal. lia. }
  assert (Hp : 1 <= 2 ^ Z.of_nat k <= 2 ^ 63).
  { split; [apply Z.lt_pred_le; cbn; apply Z.pow_pos_nonneg; lia|apply Z.pow_le_mono_r; lia]. }
  rewrite E, wrapping_id by (unfold is_uint, umax; nia).
  replace (2 * Z.of_nat k + 2) with (Z.of_nat k + 1 + (Z.of_nat k + 1)) in Hlt by lia.
  rewrite Z.pow_add_r in Hlt by lia.
  pose proof (sqrt_loop_spec k 65 n 0 ltac:(lia) ltac:(lia) ltac:(lia)) as HS.
  rewrite Z.mul_0_l, !Z.add_0_l, Z.add_0_r in HS. apply HS; [|done].
  apply Z.pow_le_mono_r; lia.
Qed.

(** C30: for every 128-bit number, [sqrt] terminates with the integer square
    root, and none of its intermediate sums overflows. *)
Theorem sqrt_is_sqrt (n : Z) : is_uint 128 n -> sqrt n = Z.sqrt n.
Proof. apply sqrt_spec. Qed.

(** The largest 128-bit number. *)
Lemma sqrt_is_sqrt_witness : sqrt (2 ^ 128 - 1) = Z.sqrt (2 ^ 128 - 1).
Proof. apply sqrt_is_sqrt. unfold is_uint. vm_compute. split; discriminate. Defined.
