(* ===== verification/BigUint.v ===== *)
(** * Unlimited unsigned integers

    Model of [substrate/primitives/arithmetic/src/biguint.rs]: numbers as vectors
    of 32-bit limbs, most significant limb first, with school-book addition,
    subtraction and multiplication, division by a limb, comparison and
    conversions.  A function whose indexing or arithmetic could abort returns
    [None] there.  Knuth's long division is in [BigUintDiv.v]. *)

From stdpp Require Import base option numbers list.
From Stdlib Require Import ZArith Lia.
From S2P Require Import Prelude.
From S2P Require Arith128.
Local Open Scope Z_scope.

Definition SHIFT : Z := 32.
Definition B : Z := umax 32 + 1.

(** [split] of a 64-bit number: high limb, low limb. *)
Definition split (a : Z) : Z * Z := (wrapping 32 (Z.shiftr a SHIFT), wrapping 32 a).
Definition mul_single (a b : Z) : Z := wrapping 64 (a * b).
Definition add_single (a b : Z) : Z * Z :=
  let q := wrapping 64 (a + b) in
  let '(carry, r) := split q in
  (r, carry).
Definition div_single (a b : Z) : Z * Z := (a / b, wrapping 32 (a mod b)).

(** Limbs, most significant first. *)
Record BigUint : Set := { digits : list Z }.

Definition with_capacity (size : nat) : BigUint := {| digits := replicate (size `max` 1) 0 |}.
Definition zero : BigUint := {| digits := [0] |}.
Definition one : BigUint := {| digits := [1] |}.
Definition from_limbs (limbs : list Z) : BigUint :=
  match limbs with
  | [] => zero
  | _ => {| digits := limbs |}
  end.

Definition len (u : BigUint) : nat := length (digits u).

(** [usize::checked_sub]. *)
Definition usize_sub (a b : nat) : option nat := if (b <=? a)%nat then Some (a - b)%nat else None.

Definition get (u : BigUint) (index : nat) : option Z :=
  i ← usize_sub (len u) 1; j ← usize_sub i index; digits u !! j.
Definition checked_get (u : BigUint) (index : nat) : option Z :=
  i ← usize_sub (len u) 1; j ← usize_sub i index; digits u !! j.
Definition set (u : BigUint) (index : nat) (value : Z) : option BigUint :=
  i ← usize_sub (len u) 1; j ← usize_sub i index;
  if (j <? len u)%nat then Some {| digits := <[j := value]> (digits u) |} else None.
Definition lsb (u : BigUint) : option Z := i ← usize_sub (len u) 1; digits u !! i.
Definition msb (u : BigUint) : option Z := digits u !! 0%nat.

(** [position] of the first non-zero limb. *)
Definition first_nonzero (l : list Z) : option nat :=
  fst <$> list_find (fun d => d <> 0) l.

Definition lstrip (u : BigUint) : BigUint :=
  if (len u =? 0)%nat then u
  else
    let index := default (len u - 1)%nat (first_nonzero (digits u)) in
    if (0 <? index)%nat then {| digits := drop index (digits u) |} else u.

Definition lpad (u : BigUint) (size : nat) : BigUint :=
  let n := len u in
  if (size <=? n)%nat then u
  else {| digits := replicate (size - n) 0 ++ digits u |}.

Definition add (self other : BigUint) : option BigUint :=
  let n := (len self `max` len other)%nat in
  '(w, k) ← for_in (seq 0 n) (fun j '(w, k) =>
    let u := default 0 (checked_get self j) in
    let v := default 0 (checked_get other j) in
    let s := wrapping 64 (u + v + k) in
    w ← set w j (wrapping 32 (s mod B));
    Some (w, s / B)) (with_capacity (n + 1), 0);
  set w n (wrapping 32 k).

(** [inl] for [Ok] (no borrow is left), [inr] for [Err]. *)
Definition sub (self other : BigUint) : option (BigUint + BigUint) :=
  let n := (len self `max` len other)%nat in
  '(w, k) ← for_in (seq 0 n) (fun j '(w, k) =>
    let u := default 0 (checked_get self j) in
    let v := default 0 (checked_get other j) in
    let '(s, k) :=
      match (v1 ← Prelude.checked_sub u v; Prelude.checked_sub v1 k) with
      | Some v2 => (v2, 0)
      | None => (u + B - v - k, 1)
      end in
    w ← set w j (wrapping 32 s);
    Some (w, k)) (with_capacity n, 0);
  Some (if k =? 0 then inl w else inr w).

(** The inner loop of [mul]: add [d * other] to [w] from limb [j] on. *)
Definition mul_row (d : Z) (other : BigUint) (j : nat) (w : BigUint) : option BigUint :=
  '(w, k) ← for_in (seq 0 (len other)) (fun i '(w, k) =>
    o ← get other i;
    x ← get w (i + j);
    let t := wrapping 64 (wrapping 64 (mul_single d o + x) + k) in
    w ← set w (i + j) (wrapping 32 (t mod B));
    Some (w, wrapping 32 (t / B))) (w, 0);
  set w (j + len other) k.

Definition mul (self other : BigUint) : option BigUint :=
  for_in (seq 0 (len self)) (fun j w =>
    d ← get self j;
    if d =? 0 then Some w else mul_row d other j w) (with_capacity (len other + len self)).

Definition div_unit (self : BigUint) (other : Z) : option BigUint :=
  let other := Z.max other 1 in
  let n := len self in
  fst <$> for_in (reverse (seq 0 n)) (fun d '(out, r) =>
    x ← get self d;
    let '(q, rr) := div_single (wrapping 64 (wrapping 64 (r * B) + x)) other in
    out ← set out d (wrapping 32 q);
    Some (out, rr)) (with_capacity n, 0).

(** The lexicographic [Ord] of slices. *)
Fixpoint slice_cmp (l k : list Z) : comparison :=
  match l, k with
  | [], [] => Eq
  | [], _ :: _ => Lt
  | _ :: _, [] => Gt
  | x :: l, y :: k => match x ?= y with Eq => slice_cmp l k | c => c end
  end.

Definition cmp (self other : BigUint) : comparison :=
  match first_nonzero (digits self), first_nonzero (digits other) with
  | None, None => Eq
  | Some _, None => Gt
  | None, Some _ => Lt
  | Some lhs_idx, Some rhs_idx =>
    let lhs := drop lhs_idx (digits self) in
    let rhs := drop rhs_idx (digits other) in
    match (length lhs ?= length rhs)%nat with
    | Eq => slice_cmp lhs rhs
    | c => c
    end
  end.

Definition eq (self other : BigUint) : bool :=
  match cmp self other with Eq => true | _ => false end.

Definition is_zero (u : BigUint) : bool := forallb (fun d => d =? 0) (digits u).

(** [TryFrom<BigUint>] for the integer type of [width] bits (64 or 128);
    [None] for the error. *)
Definition try_from (width : Z) (value : BigUint) : option Z :=
  let value := lstrip value in
  if width <? Z.of_nat (len value) * SHIFT then None
  else
    Some (foldl (fun acc '(i, d) =>
                   wrapping width (acc + wrapping width (Z.shiftl d (SHIFT * Z.of_nat i)))) 0
                (imap pair (reverse (digits value)))).

(** [From<u8>], [From<u16>], [From<u32>]; [From<u64>]; [From<u128>]. *)
Definition from_u32 (a : Z) : BigUint := {| digits := [a] |}.
Definition from_u64 (a : Z) : BigUint :=
  let '(ah, al) := split a in {| digits := [ah; al] |}.
(** [helpers_128bit::to_big_uint]. *)
Definition to_big_uint (x : Z) : BigUint :=
  let '(xh, xl) := Arith128.split x in
  let '(xhh, xhl) := split xh in
  let '(xlh, xll) := split xl in
  lstrip (from_limbs [xhh; xhl; xlh; xll]).
