(* ===== verification/BigUintProofs.v ===== *)
(** * Correctness of the unlimited integers

    The value of a limb vector, and proofs that addition, subtraction,
    multiplication, division by a limb, comparison and the conversions of
    [BigUint.v] compute on values, never abort, and keep limbs at 32 bits. *)

From stdpp Require Import base option numbers list.
From Stdlib Require Import ZArith Lia.
From S2P Require Import Prelude Arith128 BigUint.
Local Open Scope Z_scope.

(** ** Little-endian values *)

Fixpoint le_val (l : list Z) : Z :=
  match l with
  | [] => 0
  | d :: l => d + B * le_val l
  end.

(** The limbs from the least significant one on, and the value they stand for. *)
Definition limbs (u : BigUint) : list Z := reverse (digits u).
Definition value (u : BigUint) : Z := le_val (limbs u).
Definition is_limb : Z -> Prop := is_uint 32.
Definition wf (u : BigUint) : Prop := (0 < len u)%nat /\ Forall is_limb (limbs u).

(** The value of the lowest [j] limbs. *)
Definition lv (l : list Z) (j : nat) : Z := le_val (take j l).

Lemma B_eq : B = 2 ^ 32. Proof. done. Qed.
Lemma B_pos : 0 < B. Proof. unfold B, umax. lia. Qed.
Lemma B_pow_pos (j : nat) : 0 < B ^ Z.of_nat j.
Proof. apply Z.pow_pos_nonneg; [apply B_pos|lia]. Qed.
#[local] Hint Resolve B_pos B_pow_pos : core.

Lemma B_pow_S (j : nat) : B ^ Z.of_nat (j + 1) = B * B ^ Z.of_nat j.
Proof. rewrite Nat2Z.inj_add, Z.pow_add_r, Z.pow_1_r by lia. lia. Qed.

Lemma limb_bound d : is_limb d <-> 0 <= d < B.
Proof. unfold is_limb, is_uint, B. lia. Qed.

Lemma le_val_app l k : le_val (l ++ k) = le_val l + B ^ Z.of_nat (length l) * le_val k.
Proof.
  induction l as [|d l IH]; cbn [le_val app length]; [lia|].
  rewrite IH. replace (S (length l)) with (length l + 1)%nat by lia. rewrite B_pow_S. ring.
Qed.

Lemma lv_0 l : lv l 0 = 0.
Proof. done. Qed.

Lemma lv_S l j : lv l (j + 1) = lv l j + default 0 (l !! j) * B ^ Z.of_nat j.
Proof.
  unfold lv. replace (j + 1)%nat with (S j) by lia. destruct (l !! j) as [x|] eqn:E; cbn [default].
  - rewrite (take_S_r _ _ x) by done. rewrite le_val_app. cbn [le_val].
    rewrite length_take_le by (apply lookup_lt_Some in E; lia). unfold default. cbn. lia.
  - apply lookup_ge_None in E. rewrite !take_ge by lia. unfold default. lia.
Qed.

Lemma lv_all l j : (length l <= j)%nat -> lv l j = le_val l.
Proof. intros. unfold lv. by rewrite take_ge. Qed.

Lemma limb_lookup l j : Forall is_limb l -> is_limb (default 0 (l !! j)).
Proof.
  intros Hl. destruct (l !! j) as [x|] eqn:E; cbn.
  - by eapply Forall_lookup_1.
  - apply limb_bound. pose proof B_pos. unfold default. lia.
Qed.

Lemma le_val_bound l : Forall is_limb l -> 0 <= le_val l < B ^ Z.of_nat (length l).
Proof.
  induction 1 as [|d l Hd Hl IH]; cbn [le_val length]; [lia|].
  apply limb_bound in Hd. replace (S (length l)) with (length l + 1)%nat by lia.
  rewrite B_pow_S. pose proof B_pos. nia.
Qed.

Lemma lv_bound l j : Forall is_limb l -> 0 <= lv l j < B ^ Z.of_nat j.
Proof.
  intros Hl. induction j as [|j IH]; [split; [done|apply B_pow_pos]|]. replace (S j) with (j + 1)%nat by lia.
  rewrite lv_S, B_pow_S. pose proof (limb_lookup l j Hl) as Hd. apply limb_bound in Hd.
  pose proof (B_pow_pos j). nia.
Qed.

Lemma lv_insert_ge l i j x : (j <= i)%nat -> lv (<[i := x]> l) j = lv l j.
Proof. intros. unfold lv. by rewrite take_insert_ge. Qed.

Lemma lv_insert_S l j x : (j < length l)%nat -> lv (<[j := x]> l) (j + 1) = lv l j + x * B ^ Z.of_nat j.
Proof. intros. by rewrite lv_S, lv_insert_ge, list_lookup_insert_eq by lia. Qed.

(** ** Access to limbs *)

Lemma length_limbs u : length (limbs u) = len u.
Proof. apply length_reverse. Qed.

Lemma usize_sub_ge a b : (b <= a)%nat -> usize_sub a b = Some (a - b)%nat.
Proof. intros. unfold usize_sub. destruct (Nat.leb_spec b a); [done|lia]. Qed.

Lemma get_limbs u j : get u j = limbs u !! j.
Proof.
  unfold get, limbs, len, usize_sub. destruct (decide (j < length (digits u))%nat) as [H|H].
  - rewrite reverse_lookup by done. destruct (Nat.leb_spec 1 (length (digits u))); [|lia]. cbn.
    destruct (Nat.leb_spec j (length (digits u) - 1)); [|lia]. cbn. f_equal. lia.
  - rewrite (lookup_ge_None_2 (reverse _)) by (rewrite length_reverse; lia).
    destruct (Nat.leb_spec 1 (length (digits u))); [|done]. cbn.
    destruct (Nat.leb_spec j (length (digits u) - 1)); [lia|done].
Qed.

Lemma checked_get_limbs u j : checked_get u j = limbs u !! j.
Proof. apply get_limbs. Qed.

Lemma set_limbs u j x :
  (j < len u)%nat -> exists u', set u j x = Some u' /\ limbs u' = <[j := x]> (limbs u).
Proof.
  intros H. unfold set, len in *. rewrite usize_sub_ge by lia. cbn [mbind option_bind].
  rewrite usize_sub_ge by lia. cbn [mbind option_bind].
  destruct (Nat.ltb_spec (length (digits u) - 1 - j) (length (digits u))); [|lia].
  eexists. split; [done|]. unfold limbs. cbn [digits]. apply list_eq. intros i.
  destruct (decide (i < length (digits u))%nat) as [Hi|Hi].
  - rewrite reverse_lookup by (rewrite length_insert; done). rewrite length_insert.
    destruct (decide (i = j)) as [->|Hne].
    + replace (length (digits u) - S j)%nat with (length (digits u) - 1 - j)%nat by lia.
      rewrite !list_lookup_insert_eq; rewrite ?length_reverse; done || lia.
    + rewrite !list_lookup_insert_ne by lia. by rewrite reverse_lookup.
  - rewrite !lookup_ge_None_2; [done|rewrite length_insert, length_reverse; lia|].
    rewrite length_reverse, length_insert. lia.
Qed.

Lemma limbs_with_capacity n : limbs (with_capacity n) = replicate (n `max` 1) 0.
Proof. unfold limbs, with_capacity. cbn [digits]. apply reverse_replicate. Qed.

Lemma lv_replicate_0 n j : lv (replicate n 0) j = 0.
Proof.
  unfold lv. rewrite take_replicate. induction (j `min` n)%nat as [|k IH]; cbn; [done|].
  rewrite IH. lia.
Qed.

Lemma limb_0 : is_limb 0.
Proof. apply limb_bound. pose proof B_pos. lia. Qed.

Lemma wrapping_limb x : is_limb (wrapping 32 x).
Proof. by apply wrapping_is_uint. Qed.

Lemma wrapping_limb_id x : 0 <= x < B -> wrapping 32 x = x.
Proof. intros. apply wrapping_id. unfold is_uint. unfold B in *. lia. Qed.
Create HintDb limb.
#[export] Hint Resolve limb_0 wrapping_limb Forall_insert Forall_replicate : limb.

(** Perform a [set] that is in range. *)
Ltac set_limb :=
  match goal with
  | |- context [set ?w ?j ?x] =>
    let w' := fresh "w" in let H := fresh "Hset" in
    destruct (set_limbs w j x) as (w' & -> & H);
    [first [lia | rewrite <- length_limbs; lia]|cbn [mbind option_bind]]
  end.

Lemma div_mod_B s : s = B * (s / B) + s mod B /\ 0 <= s mod B < B.
Proof. split; [apply Z.div_mod|apply Z.mod_pos_bound]; pose proof B_pos; lia. Qed.

Lemma u64_B x : 0 <= x < B * B -> wrapping 64 x = x.
Proof. intros. apply wrapping_id. unfold is_uint, umax. change (2 ^ 64) with (B * B). lia. Qed.

(** ** Addition *)

Lemma add_spec u v :
  wf u -> wf v ->
  exists w, add u v = Some w /\ wf w /\ len w = (len u `max` len v + 1)%nat /\
            value w = value u + value v.
Proof.
  intros [Lu Wu] [Lv Wv]. unfold add. set (n := (len u `max` len v)%nat).
  set (I := fun (j : nat) (st : BigUint * Z) =>
    length (limbs (fst st)) = (n + 1)%nat /\ Forall is_limb (limbs (fst st)) /\ 0 <= snd st <= 1 /\
    lv (limbs (fst st)) j + snd st * B ^ Z.of_nat j = lv (limbs u) j + lv (limbs v) j).
  match goal with |- context [for_in (seq 0 n) ?f ?s] =>
    destruct (for_in_seq I f n 0 s) as ([w k] & -> & (Hlen & Hw & Hk & Hv)) end.
  - unfold I. cbn [fst snd]. unfold wf. rewrite limbs_with_capacity, length_replicate, !lv_0.
    split_and!; [lia|auto with limb|lia..].
  - intros j [w k] Hj (Hlen & Hw & Hk & Hv). cbn [fst snd] in *.
    rewrite !checked_get_limbs. pose proof (limb_lookup _ j Wu) as Hu1.
    pose proof (limb_lookup _ j Wv) as Hv1. apply limb_bound in Hu1, Hv1.
    set (a := default 0 (limbs u !! j)) in *. set (b := default 0 (limbs v !! j)) in *.
    assert (HB : 4 <= B) by (unfold B, umax; lia).
    rewrite u64_B by nia. destruct (div_mod_B (a + b + k)) as [E Hm].
    rewrite wrapping_limb_id by done. set_limb.
    eexists. split; [done|]. unfold I. cbn [fst snd]. unfold wf. rewrite Hset, length_insert.
    split_and!; [done|by apply Forall_insert; [|apply limb_bound]| |nia|].
    { apply Z.div_pos; lia. }
    rewrite lv_insert_S, !lv_S, B_pow_S by lia. fold a b. nia.
  - cbn [mbind option_bind fst snd] in *. rewrite wrapping_limb_id by (unfold B, umax; lia). set_limb.
    eexists. split; [done|]. unfold wf, value. rewrite <- length_limbs, Hset, length_insert.
    split_and!; [lia|apply Forall_insert; [done|apply limb_bound; unfold B, umax; lia]|done|].
    rewrite <- (lv_all (limbs u) n), <- (lv_all (limbs v) n) by (rewrite length_limbs; lia).
    rewrite <- (lv_all _ (n + 1)) by (rewrite length_insert; lia).
    rewrite lv_insert_S by lia. done.
Qed.

(** ** Subtraction *)

(** One limb of a subtraction with borrow. *)
Definition sub_limb (u v k : Z) : Z * Z :=
  match (v1 ← Prelude.checked_sub u v; Prelude.checked_sub v1 k) with
  | Some v2 => (v2, 0)
  | None => (u + B - v - k, 1)
  end.

Lemma sub_limb_spec u v k :
  0 <= u < B -> 0 <= v < B -> 0 <= k <= 1 ->
  let '(s, k') := sub_limb u v k in
  0 <= s < B /\ 0 <= k' <= 1 /\ s - B * k' = u - v - k.
Proof.
  intros Hu Hv Hk. unfold sub_limb, Prelude.checked_sub.
  destruct (Z.leb_spec v u); cbn [mbind option_bind]; [|lia].
  destruct (Z.leb_spec k (u - v)); lia.
Qed.

(** [sub] yields the difference, or the difference modulo [B ^ n] when it is
    negative; the two cases are told apart. *)
Lemma sub_spec u v :
  wf u -> wf v ->
  exists r, sub u v = Some r /\
  match r with
  | inl w => wf w /\ len w = (len u `max` len v)%nat /\ value w = value u - value v
  | inr w => wf w /\ len w = (len u `max` len v)%nat /\
             value u < value v /\
             value w = value u - value v + B ^ Z.of_nat (len u `max` len v)
  end.
Proof.
  intros [Lu Wu] [Lv Wv]. unfold sub. set (n := (len u `max` len v)%nat).
  set (I := fun (j : nat) (st : BigUint * Z) =>
    length (limbs (fst st)) = n /\ Forall is_limb (limbs (fst st)) /\ 0 <= snd st <= 1 /\
    lv (limbs (fst st)) j - snd st * B ^ Z.of_nat j = lv (limbs u) j - lv (limbs v) j).
  match goal with |- context [for_in (seq 0 n) ?f ?s] =>
    destruct (for_in_seq I f n 0 s) as ([w k] & -> & (Hlen & Hw & Hk & Hv)) end.
  - unfold I. cbn [fst snd]. unfold wf. rewrite limbs_with_capacity, length_replicate, !lv_0.
    split_and!; [lia|auto with limb|lia..].
  - intros j [w k] Hj (Hlen & Hw & Hk & Hv). cbn [fst snd] in *.
    rewrite !checked_get_limbs. pose proof (limb_lookup _ j Wu) as Hu1.
    pose proof (limb_lookup _ j Wv) as Hv1. apply limb_bound in Hu1, Hv1.
    pose proof (lv_S (limbs u) j) as Su. pose proof (lv_S (limbs v) j) as Sv.
    set (a := default 0 (limbs u !! j)) in *. set (b := default 0 (limbs v !! j)) in *.
    fold (sub_limb a b k). pose proof (sub_limb_spec a b k Hu1 Hv1 Hk) as Hs.
    destruct (sub_limb a b k) as [s k']. destruct Hs as (Hs & Hk' & E).
    rewrite wrapping_limb_id by done. set_limb.
    eexists. split; [done|]. unfold I. cbn [fst snd]. unfold wf. rewrite Hset, length_insert.
    split_and!; [done|by apply Forall_insert; [|apply limb_bound]|lia..|].
    rewrite lv_insert_S, Su, Sv, B_pow_S by lia. nia.
  - cbn [mbind option_bind fst snd] in *. eexists. split; [done|].
    rewrite length_limbs in Hlen. rewrite Nat.add_0_l in Hv.
    rewrite !lv_all in Hv by (rewrite length_limbs; lia).
    fold (value u) (value v) (value w) in Hv.
    assert (Wf : wf w) by (split; [lia|done]).
    pose proof (le_val_bound _ Hw) as Hb. fold (value w) in Hb. rewrite length_limbs, Hlen in Hb.
    destruct (Z.eqb_spec k 0) as [->|]; [|assert (k = 1) as -> by lia];
      split_and!; try done; lia.
Qed.

(** ** Multiplication *)

(** The inner loop adds [d * v * B ^ j] to a number that is zero from limb
    [j + len v] on. *)
Lemma mul_row_spec d v j w :
  is_limb d -> wf v -> Forall is_limb (limbs w) -> (j + len v < len w)%nat ->
  exists w', mul_row d v j w = Some w' /\ Forall is_limb (limbs w') /\ len w' = len w /\
    lv (limbs w') (j + len v + 1) = lv (limbs w) (j + len v) + d * value v * B ^ Z.of_nat j /\
    forall i, (j + len v < i)%nat -> limbs w' !! i = limbs w !! i.
Proof.
  intros Hd [Lv Wv] Ww Hlen. unfold mul_row. set (m := len v) in *.
  set (I := fun (i : nat) (st : BigUint * Z) =>
    len (fst st) = len w /\ Forall is_limb (limbs (fst st)) /\ is_limb (snd st) /\
    lv (limbs (fst st)) (i + j) + snd st * B ^ Z.of_nat (i + j) =
      lv (limbs w) (i + j) + d * lv (limbs v) i * B ^ Z.of_nat j /\
    forall i', (i + j <= i')%nat -> limbs (fst st) !! i' = limbs w !! i').
  match goal with |- context [for_in (seq 0 m) ?f ?s] =>
    destruct (for_in_seq I f m 0 s) as ([w1 k] & -> & (L1 & W1 & Hk & V1 & Hi)) end.
  - unfold I. cbn [fst snd]. split_and!; [done..|apply limb_0|rewrite lv_0; lia|done].
  - intros i [w1 k] Hi (L1 & W1 & Hk & V1 & Hi'). cbn [fst snd] in *.
    rewrite !get_limbs. pose proof (limb_lookup _ i Wv) as Ho.
    destruct (lookup_lt_is_Some_2 (limbs v) i) as [o Eo]; [rewrite length_limbs; lia|].
    destruct (lookup_lt_is_Some_2 (limbs w1) (i + j)) as [x Ex]; [rewrite length_limbs; lia|].
    rewrite Eo in Ho |- *. rewrite Ex. change (default 0 (Some o)) with o in Ho.
    cbn [mbind option_bind].
    pose proof (Forall_lookup_1 _ _ _ _ W1 Ex) as Hx. apply limb_bound in Ho, Hx, Hk, Hd as Hd'.
    unfold mul_single.
    assert (Hdo : 0 <= d * o <= (B - 1) * (B - 1)) by nia.
    rewrite (u64_B (d * o)), (u64_B (d * o + x)), u64_B by lia.
    destruct (div_mod_B (d * o + x + k)) as [E Hm]. set (t := d * o + x + k) in *.
    assert (Hq : 0 <= t / B < B) by (split; [apply Z.div_pos|apply Z.div_lt_upper_bound]; nia).
    rewrite !wrapping_limb_id by done. set_limb.
    eexists. split; [done|]. unfold I. cbn [fst snd]. rewrite <- length_limbs, Hset, length_insert.
    split_and!.
    + by rewrite length_limbs.
    + by apply Forall_insert; [|apply limb_bound].
    + by apply limb_bound.
    + replace (i + 1 + j)%nat with (i + j + 1)%nat by lia.
      rewrite lv_insert_S, B_pow_S, !lv_S by (rewrite length_limbs; lia).
      rewrite <- (Hi' (i + j)%nat), Ex, Eo by lia. cbn [from_option].
      change (id x) with x. change (id o) with o. rewrite Nat2Z.inj_add, Z.pow_add_r in * by lia.
      pose proof (B_pow_pos i). pose proof (B_pow_pos j).
      replace (t mod B) with (t - B * (t / B)) by lia. unfold t. nia.
    + intros i' Hlt. rewrite list_lookup_insert_ne by lia. apply Hi'. lia.
  - cbn [mbind option_bind fst snd] in *. set_limb.
    eexists. split; [done|]. rewrite <- length_limbs, Hset, length_insert.
    split_and!.
    + by apply Forall_insert.
    + by rewrite length_limbs.
    + rewrite lv_insert_S by (rewrite length_limbs; lia).
      rewrite Nat.add_0_l, Nat.add_comm in V1. fold m. rewrite V1. rewrite (lv_all (limbs v)); [done|].
      rewrite length_limbs. done.
    + intros i Hlt. rewrite list_lookup_insert_ne by lia. apply Hi. lia.
Qed.

Lemma mul_spec u v :
  wf u -> wf v ->
  exists w, mul u v = Some w /\ wf w /\ len w = (len u + len v)%nat /\
            value w = value u * value v.
Proof.
  intros [Lu Wu] Wv. pose proof Wv as [Lv Wlv]. unfold mul. set (n := len u) in *.
  set (m := len v) in *.
  set (I := fun (j : nat) (w : BigUint) =>
    len w = (m + n)%nat /\ Forall is_limb (limbs w) /\
    lv (limbs w) (j + m) = lv (limbs u) j * value v /\
    forall i, (j + m <= i)%nat -> default 0 (limbs w !! i) = 0).
  match goal with |- context [for_in (seq 0 n) ?f ?s] =>
    destruct (for_in_seq I f n 0 s) as (w & -> & (L & W & V & _)) end.
  - unfold I. rewrite <- length_limbs, limbs_with_capacity, length_replicate, lv_0, lv_replicate_0.
    split_and!; [lia|auto with limb|lia|]. intros i _.
    destruct (_ !! i) eqn:E; [|done]. apply lookup_replicate in E as [-> _]. done.
  - intros j w Hj (L & W & V & Hz). rewrite get_limbs.
    destruct (lookup_lt_is_Some_2 (limbs u) j) as [d Ed]; [rewrite length_limbs; lia|].
    pose proof (lv_S (limbs u) j) as Su. rewrite Ed in Su |- *.
    change (default 0 (Some d)) with d in Su. cbn [mbind option_bind].
    replace (j + 1 + m)%nat with (j + m + 1)%nat by lia.
    destruct (Z.eqb_spec d 0) as [->|Hd].
    + exists w. split; [done|]. unfold I. replace (j + 1 + m)%nat with (j + m + 1)%nat by lia.
      rewrite lv_S, Hz, V, Su by lia.
      split_and!; [done..|lia|]. intros i Hi. apply Hz. lia.
    + destruct (mul_row_spec d v j w) as (w' & -> & W' & L' & V' & Hi'); try done.
      { exact (Forall_lookup_1 _ _ _ _ Wu Ed). }
      { fold m. lia. }
      exists w'. split; [done|]. unfold I. replace (j + 1 + m)%nat with (j + m + 1)%nat by lia.
      fold m in V', Hi'. rewrite V', V, Su. split_and!; [lia|done|ring|].
      intros i Hi. rewrite Hi' by lia. apply Hz. lia.
  - exists w. split; [done|]. unfold wf. split_and!; [lia|done|lia|].
    unfold value in *. rewrite Nat.add_0_l in V.
    rewrite !lv_all in V by (rewrite length_limbs; lia). done.
Qed.

(** ** Division by a limb *)

Lemma le_val_drop l j : le_val l = lv l j + B ^ Z.of_nat (length (take j l)) * le_val (drop j l).
Proof. rewrite <- (take_drop j l) at 1. by rewrite le_val_app. Qed.

Lemma le_val_drop_S l j x : l !! j = Some x -> le_val (drop j l) = x + B * le_val (drop (j + 1) l).
Proof. intros H. rewrite (drop_S _ x), Nat.add_1_r by done. done. Qed.

Lemma div_unit_spec u other :
  wf u -> is_limb other ->
  exists w, div_unit u other = Some w /\ wf w /\ len w = len u /\
            value w = value u / Z.max other 1.
Proof.
  intros [Lu Wu] Ho. unfold div_unit. set (o := Z.max other 1).
  assert (Ho' : 1 <= o < B) by (apply limb_bound in Ho; unfold o, B, umax in *; lia).
  set (n := len u) in *.
  set (I := fun (j : nat) (st : BigUint * Z) =>
    len (fst st) = n /\ Forall is_limb (limbs (fst st)) /\ 0 <= snd st < o /\
    le_val (drop j (limbs (fst st))) * o + snd st = le_val (drop j (limbs u))).
  match goal with |- context [for_in _ ?f ?s] =>
    destruct (for_in_seq_rev I f n s) as ([w r] & -> & (L & W & Hr & V)) end.
  - unfold I. cbn [fst snd]. rewrite <- length_limbs, limbs_with_capacity, length_replicate.
    rewrite !drop_ge by (rewrite ?length_replicate, ?length_limbs; lia).
    split_and!; [lia|auto with limb|lia..|done].
  - intros j [w r] Hj (L & W & Hr & V). cbn [fst snd] in *. rewrite get_limbs.
    destruct (lookup_lt_is_Some_2 (limbs u) j) as [x Ex]; [rewrite length_limbs; lia|].
    rewrite Ex. cbn [mbind option_bind].
    pose proof (Forall_lookup_1 _ _ _ _ Wu Ex) as Hx. apply limb_bound in Hx.
    rewrite (u64_B (r * B)), u64_B by nia. unfold div_single. set (t := r * B + x).
    pose proof (Z.div_mod t o ltac:(lia)) as Et. pose proof (Z.mod_pos_bound t o ltac:(lia)) as Hm.
    assert (Hq : 0 <= t / o < B) by (split; [apply Z.div_pos|apply Z.div_lt_upper_bound]; nia).
    rewrite !wrapping_limb_id by lia. set_limb.
    eexists. split; [done|]. unfold I. cbn [fst snd]. rewrite <- length_limbs, Hset, length_insert.
    split_and!; [rewrite length_limbs; done|by apply Forall_insert; [|apply limb_bound]|lia..|].
    rewrite (le_val_drop_S _ _ _ Ex), <- V.
    rewrite (le_val_drop_S _ j (t / o)) by (apply list_lookup_insert_eq; rewrite length_limbs; lia).
    rewrite drop_insert_lt by lia. unfold t in *. nia.
  - cbn [fst snd] in *. cbn [fmap option_fmap option_map fst]. exists w. split; [done|].
    unfold wf, value. split_and!; [lia|done..|]. rewrite !drop_0 in V.
    apply (Z.div_unique _ _ _ r); lia.
Qed.

(** ** Padding and stripping *)

Lemma le_val_app_zeros l n : le_val (l ++ replicate n 0) = le_val l.
Proof.
  rewrite le_val_app. replace (le_val (replicate n 0)) with 0; [lia|].
  induction n as [|n IH]; cbn [replicate le_val]; lia.
Qed.

Lemma lpad_spec u size :
  wf u -> wf (lpad u size) /\ len (lpad u size) = (len u `max` size)%nat /\
  value (lpad u size) = value u.
Proof.
  intros [Lu Wu]. unfold lpad. destruct (Nat.leb_spec size (len u)) as [H|H].
  { split; [by split|]. split; [lia|done]. }
  unfold wf, value, limbs, len in *. cbn [digits].
  rewrite reverse_app, reverse_replicate, le_val_app_zeros, length_app, length_replicate.
  split_and!; [lia| |lia|done]. apply Forall_app. split; [done|]. apply Forall_replicate, limb_0.
Qed.

(** What [lstrip] removes is a run of zeros, and either the top limb is not zero
    or a single zero is left. *)
Lemma first_nonzero_None l : first_nonzero l = None -> Forall (fun d => d = 0) l.
Proof.
  unfold first_nonzero. intros H. apply fmap_None, list_find_None in H.
  eapply Forall_impl; [done|]. cbn. intros. by apply dec_stable.
Qed.

Lemma first_nonzero_Some l i :
  first_nonzero l = Some i ->
  exists x, drop i l = x :: drop (S i) l /\ x <> 0 /\ take i l = replicate i 0 /\ (i < length l)%nat.
Proof.
  unfold first_nonzero. intros H. apply fmap_Some in H as ([i' x] & H & ->).
  apply list_find_Some in H as (Hx & Hne & Hz). cbn [fst]. exists x.
  pose proof (lookup_lt_Some _ _ _ Hx). split_and!; [by apply drop_S|done| |done].
  apply list_eq. intros j. destruct (decide (j < i')%nat) as [Hj|Hj].
  - rewrite lookup_take_lt, lookup_replicate_2 by done.
    destruct (lookup_lt_is_Some_2 l j) as [y Hy]; [lia|]. rewrite Hy.
    specialize (Hz j y Hy Hj). f_equal. by apply dec_stable.
  - rewrite !lookup_ge_None_2; [done|rewrite length_replicate; lia|rewrite length_take; lia].
Qed.

Lemma zeros_replicate (l : list Z) : Forall (fun d => d = 0) l -> l = replicate (length l) 0.
Proof. intros H. symmetry. apply replicate_as_Forall. split; [done|]. eapply Forall_impl; [done|]. auto. Qed.

(** The value of limbs written most significant first. *)
Definition be_val (l : list Z) : Z := le_val (reverse l).

Lemma be_val_cons x l : be_val (x :: l) = x * B ^ Z.of_nat (length l) + be_val l.
Proof.
  unfold be_val. rewrite reverse_cons, le_val_app. cbn [le_val]. rewrite length_reverse. lia.
Qed.

Lemma be_val_bound l : Forall is_limb l -> 0 <= be_val l < B ^ Z.of_nat (length l).
Proof. intros H. rewrite <- length_reverse. apply le_val_bound. by apply Forall_reverse. Qed.

Lemma be_val_zeros i l : be_val (replicate i 0 ++ l) = be_val l.
Proof. unfold be_val. by rewrite reverse_app, reverse_replicate, le_val_app_zeros. Qed.

Lemma value_be u : value u = be_val (digits u).
Proof. done. Qed.

Lemma wf_digits u : wf u <-> (0 < len u)%nat /\ Forall is_limb (digits u).
Proof. unfold wf, limbs. by rewrite Forall_reverse. Qed.

Lemma drop_zeros l i : take i l = replicate i 0 -> be_val (drop i l) = be_val l.
Proof. intros H. rewrite <- (take_drop i l) at 2. by rewrite H, be_val_zeros. Qed.

Lemma lstrip_spec u :
  wf u -> wf (lstrip u) /\ value (lstrip u) = value u /\
  exists x l, digits (lstrip u) = x :: l /\ (x = 0 -> l = []).
Proof.
  rewrite !wf_digits. unfold lstrip, len. intros [Lu Wu].
  destruct (Nat.eqb_spec (length (digits u)) 0) as [|_]; [lia|].
  destruct (first_nonzero (digits u)) as [i|] eqn:E; unfold default; cbn [from_option].
  - destruct (first_nonzero_Some _ _ E) as (x & Hd & Hx & Ht & Hi). change (id i) with i.
    destruct (Nat.ltb_spec 0 i).
    + cbn [digits]. rewrite !value_be. cbn [digits]. rewrite drop_zeros by done.
      rewrite length_drop. split_and!; [lia|by apply Forall_drop|done|]. rewrite Hd. naive_solver.
    + assert (i = 0)%nat as -> by lia. rewrite drop_0 in Hd. split_and!; [done..|]. rewrite Hd. naive_solver.
  - apply first_nonzero_None, zeros_replicate in E.
    assert (Hl : digits u = replicate (length (digits u) - 1) 0 ++ [0]).
    { rewrite E at 1. change [0] with (replicate 1 0). rewrite <- replicate_add. f_equal. lia. }
    remember (length (digits u) - 1)%nat as n eqn:En.
    assert (Ht : take n (digits u) = replicate n 0).
    { rewrite Hl, take_app_length'; [done|by rewrite length_replicate]. }
    assert (Hd : drop n (digits u) = [0]).
    { rewrite Hl, drop_app_length'; [done|by rewrite length_replicate]. }
    destruct (Nat.ltb_spec 0 n).
    + rewrite !value_be. cbn [digits]. rewrite drop_zeros by done. rewrite Hd.
      split_and!; [cbn; lia|repeat constructor; apply limb_0|done|]. naive_solver.
    + split_and!; [done..|]. destruct (digits u) as [|x [|y l]]; [cbn in *; lia|naive_solver|cbn in *; lia].
Qed.

(** ** Comparison *)

Lemma slice_cmp_spec l : forall k,
  length l = length k -> Forall is_limb l -> Forall is_limb k ->
  slice_cmp l k = (be_val l ?= be_val k).
Proof.
  induction l as [|x l IH]; intros [|y k] Hlen Hl Hk; try done.
  injection Hlen as Hlen. apply Forall_cons in Hl as [Hx Hl], Hk as [Hy Hk].
  pose proof (be_val_bound _ Hl) as Bl. pose proof (be_val_bound _ Hk) as Bk.
  cbn [slice_cmp]. rewrite !be_val_cons, Hlen in *. pose proof (B_pow_pos (length k)).
  apply limb_bound in Hx, Hy. rewrite IH by done.
  destruct (Z.compare_spec x y) as [->|Hlt|Hlt].
  - by rewrite Z.add_compare_mono_l.
  - symmetry. apply Z.compare_lt_iff. nia.
  - symmetry. apply Z.compare_gt_iff. nia.
Qed.

(** A number with a non-zero top limb exceeds every shorter one. *)
Lemma be_val_shorter l x k :
  Forall is_limb l -> Forall is_limb (x :: k) -> x <> 0 -> (length l < length (x :: k))%nat ->
  be_val l < be_val (x :: k).
Proof.
  intros Hl Hk Hx Hlen. apply Forall_cons in Hk as [Hx' Hk].
  pose proof (be_val_bound _ Hl) as Bl. pose proof (be_val_bound _ Hk) as Bk.
  rewrite be_val_cons. cbn [length] in Hlen. apply limb_bound in Hx'.
  assert (B ^ Z.of_nat (length l) <= B ^ Z.of_nat (length k)).
  { apply Z.pow_le_mono_r; [apply B_pos|lia]. }
  nia.
Qed.

Lemma be_val_nonzero x l : Forall is_limb (x :: l) -> x <> 0 -> 0 < be_val (x :: l).
Proof. intros Hl Hx. change 0 with (be_val []). apply be_val_shorter; cbn; auto with lia. Qed.

Lemma cmp_spec u v : wf u -> wf v -> cmp u v = (value u ?= value v).
Proof.
  rewrite !wf_digits, !value_be. intros [_ Wu] [_ Wv]. unfold cmp.
  destruct (first_nonzero (digits u)) as [i|] eqn:Eu, (first_nonzero (digits v)) as [j|] eqn:Ev.
  - destruct (first_nonzero_Some _ _ Eu) as (x & Hd & Hx & Ht & _).
    destruct (first_nonzero_Some _ _ Ev) as (y & Hd' & Hy & Ht' & _).
    rewrite <- (drop_zeros _ _ Ht), <- (drop_zeros _ _ Ht').
    pose proof (Forall_drop _ i _ Wu) as Wu'. pose proof (Forall_drop _ j _ Wv) as Wv'.
    destruct (Nat.compare_spec (length (drop i (digits u))) (length (drop j (digits v)))) as [E|E|E].
    + by apply slice_cmp_spec.
    + symmetry. apply Z.compare_lt_iff. rewrite Hd' in *. by apply be_val_shorter.
    + symmetry. apply Z.compare_gt_iff. rewrite Hd in *. by apply be_val_shorter.
  - destruct (first_nonzero_Some _ _ Eu) as (x & Hd & Hx & Ht & _).
    apply first_nonzero_None, zeros_replicate in Ev. rewrite Ev, <- (drop_zeros _ _ Ht).
    rewrite <- (app_nil_r (replicate _ _)), be_val_zeros.
    symmetry. apply Z.compare_gt_iff. pose proof (Forall_drop _ i _ Wu) as Wu'.
    rewrite Hd in *. by apply be_val_nonzero.
  - destruct (first_nonzero_Some _ _ Ev) as (x & Hd & Hx & Ht & _).
    apply first_nonzero_None, zeros_replicate in Eu. rewrite Eu, <- (drop_zeros _ _ Ht).
    rewrite <- (app_nil_r (replicate _ _)), be_val_zeros.
    symmetry. apply Z.compare_lt_iff. pose proof (Forall_drop _ j _ Wv) as Wv'.
    rewrite Hd in *. by apply be_val_nonzero.
  - apply first_nonzero_None, zeros_replicate in Eu, Ev. rewrite Eu, Ev.
    rewrite <- (app_nil_r (replicate (length (digits u)) _)).
    rewrite <- (app_nil_r (replicate (length (digits v)) _)). by rewrite !be_val_zeros.
Qed.

(** ** Conversions *)

Ltac forall_limbs := repeat (apply Forall_cons_2; [done|]); apply Forall_nil_2.

Lemma split_spec a : 0 <= a < B * B -> split a = (a / B, a mod B).
Proof.
  intros Ha. unfold split, SHIFT. rewrite Z.shiftr_div_pow2 by lia. change (2 ^ 32) with B.
  assert (0 <= a / B < B).
  { pose proof B_pos. split; [apply Z.div_pos|apply Z.div_lt_upper_bound]; lia. }
  rewrite wrapping_limb_id by done. done.
Qed.

Lemma halves_limbs a : 0 <= a < B * B -> is_limb (a / B) /\ is_limb (a mod B) /\ a = a / B * B + a mod B.
Proof.
  intros Ha. destruct (div_mod_B a) as [E Hm]. pose proof B_pos.
  assert (0 <= a / B < B) by (split; [apply Z.div_pos|apply Z.div_lt_upper_bound]; lia).
  rewrite !limb_bound. lia.
Qed.

Lemma from_u32_spec a : is_limb a -> wf (from_u32 a) /\ value (from_u32 a) = a.
Proof.
  intros Ha. rewrite wf_digits, value_be. cbn [from_u32 digits]. rewrite be_val_cons.
  unfold from_u32, len. cbn [length digits]. rewrite Z.pow_0_r. change (be_val []) with 0.
  split_and!; [lia|by constructor|lia].
Qed.

Lemma from_u64_spec a :
  0 <= a < B * B -> wf (from_u64 a) /\ value (from_u64 a) = a /\ len (from_u64 a) = 2%nat.
Proof.
  intros Ha. destruct (halves_limbs a Ha) as (H1 & H2 & E).
  unfold from_u64. rewrite split_spec by done. rewrite wf_digits, value_be. cbn [digits].
  rewrite !be_val_cons. change (be_val []) with 0. cbn [length len].
  rewrite Z.pow_0_r, Z.pow_1_r. split_and!; [unfold len; cbn [length digits]; lia|forall_limbs|lia|done].
Qed.

Lemma to_big_uint_spec x : is_uint 128 x -> wf (to_big_uint x) /\ value (to_big_uint x) = x.
Proof.
  intros Hx. destruct (halves_bound x Hx) as (E & Hh & Hl). unfold to_big_uint, Arith128.split.
  rewrite Z.shiftr_div_pow2 by lia.
  change (2 ^ 64) with (B * B) in *. rewrite (wrapping_id 64 (x / (B * B))).
  2: { unfold is_uint, umax. change (2 ^ 64) with (B * B). lia. }
  change (wrapping 64 x) with (x mod (B * B)). rewrite !split_spec by done.
  destruct (halves_limbs _ Hh) as (H1 & H2 & E1), (halves_limbs _ Hl) as (H3 & H4 & E2).
  set (hi := x / (B * B)) in *. set (lo := x mod (B * B)) in *. cbn [from_limbs].
  match goal with |- context [lstrip ?u] => destruct (lstrip_spec u) as (W & V & _) end.
  { rewrite wf_digits. split; [unfold len; cbn [length digits]; lia|forall_limbs]. }
  split; [done|]. rewrite V, value_be. cbn [digits]. rewrite !be_val_cons.
  change (be_val []) with 0. cbn [length]. clearbody hi lo.
  set (a := hi / B) in *. set (b := hi mod B) in *. set (c := lo / B) in *. set (d := lo mod B) in *.
  clearbody a b c d. rewrite E, E1, E2.
  change (Z.of_nat 3) with 3. change (Z.of_nat 2) with 2. change (Z.of_nat 1) with 1.
  change (Z.of_nat 0) with 0. ring.
Qed.

Lemma foldl_limbs width l : forall i acc,
  Forall is_limb l -> 0 <= acc -> acc + le_val l * B ^ Z.of_nat i <= umax width ->
  foldl (fun acc '(i, d) =>
           wrapping width (acc + wrapping width (Z.shiftl d (SHIFT * Z.of_nat i)))) acc
        (imap (fun k d => (i + k, d)%nat) l) =
  acc + le_val l * B ^ Z.of_nat i.
Proof.
  induction l as [|d l IH]; intros i acc Hl Ha Hb; cbn [imap foldl le_val] in *; [lia|].
  apply Forall_cons in Hl as [Hd Hl]. apply limb_bound in Hd.
  pose proof (le_val_bound _ Hl) as Bl. pose proof (B_pow_pos i).
  rewrite Nat.add_0_r, Z.shiftl_mul_pow2 by (unfold SHIFT; lia).
  unfold SHIFT. rewrite Z.pow_mul_r by lia. change (2 ^ 32) with B.
  pose proof B_pos. assert (0 <= d * B ^ Z.of_nat i) by nia.
  assert (0 <= B * le_val l * B ^ Z.of_nat i) by (repeat apply Z.mul_nonneg_nonneg; lia).
  rewrite Z.mul_add_distr_r in Hb.
  rewrite (wrapping_id width (d * _)), (wrapping_id width (acc + _)) by (unfold is_uint; lia).
  etrans; [|etrans; [apply (IH (S i) (acc + d * B ^ Z.of_nat i))|]].
  - f_equal. apply imap_ext. intros. cbn. f_equal. lia.
  - done.
  - lia.
  - replace (S i) with (i + 1)%nat by lia. rewrite B_pow_S. lia.
  - replace (S i) with (i + 1)%nat by lia. rewrite B_pow_S. ring.
Qed.

Lemma try_from_spec width u :
  width = 64 \/ width = 128 -> wf u ->
  try_from width u = if value u <=? umax width then Some (value u) else None.
Proof.
  intros Hw Wu. unfold try_from. destruct (lstrip_spec u Wu) as (W & V & x & l & Hd & Hx).
  rewrite <- V. apply wf_digits in W as [_ W]. rewrite !value_be. unfold len. rewrite Hd in *.
  pose proof (be_val_bound _ W) as Bd. unfold SHIFT.
  assert (Hp : B ^ (width / 32) = 2 ^ width) by (destruct Hw as [->| ->]; done).
  assert (Hq : width = 32 * (width / 32)) by (destruct Hw as [->| ->]; done).
  destruct (Z.ltb_spec width (Z.of_nat (length (x :: l)) * 32)) as [Hlt|Hle].
  - destruct (Z.leb_spec (be_val (x :: l)) (umax width)) as [Hm|]; [exfalso|done].
    destruct (decide (x = 0)) as [->|Hne].
    { rewrite Hx in Hlt by done. cbn in Hlt. lia. }
    assert (2 ^ width <= be_val (x :: l)); [|unfold umax in Hm; lia].
    rewrite be_val_cons, <- Hp. apply Forall_cons in W as [Hx' W].
    pose proof (be_val_bound _ W). apply limb_bound in Hx'. cbn [length] in Hlt.
    assert (B ^ (width / 32) <= B ^ Z.of_nat (length l)) by (apply Z.pow_le_mono_r; [apply B_pos|lia]).
    pose proof (B_pow_pos (length l)). nia.
  - assert (B ^ Z.of_nat (length (x :: l)) <= 2 ^ width).
    { rewrite <- Hp. apply Z.pow_le_mono_r; [apply B_pos|lia]. }
    assert (Hb : be_val (x :: l) <= umax width) by (unfold umax; lia).
    destruct (Z.leb_spec (be_val (x :: l)) (umax width)); [|lia]. f_equal.
    unfold be_val in *. pose proof (foldl_limbs width (reverse (x :: l)) 0 0) as F.
    rewrite Z.pow_0_r, Z.mul_1_r, Z.add_0_l in F. apply F; [by apply Forall_reverse|lia|done].
Qed.

(** ** Summary *)

(** C31: on non-empty vectors of 32-bit limbs, [add], [mul] and [sub] never index
    out of range and never overflow a double limb; sum and product have the exact
    value, and [sub] tells whether the difference is negative, returning the
    difference or its complement to a power of the base. *)
Theorem biguint_arithmetic_exact (u v : BigUint) :
  wf u -> wf v ->
  (exists s, add u v = Some s /\ wf s /\ value s = value u + value v) /\
  (exists p, mul u v = Some p /\ wf p /\ value p = value u * value v) /\
  (exists d, sub u v = Some d /\
     match d with
     | inl w => wf w /\ value v <= value u /\ value w = value u - value v
     | inr w => wf w /\ value u < value v /\
                value w = value u - value v + B ^ Z.of_nat (len u `max` len v)
     end).
Proof.
  intros Wu Wv.
  destruct (add_spec u v Wu Wv) as (s & ? & ? & ? & ?).
  destruct (mul_spec u v Wu Wv) as (p & ? & ? & ? & ?).
  destruct (sub_spec u v Wu Wv) as (d & ? & Hd).
  split_and!; [eauto..|]. exists d. split; [done|]. destruct d as [w|w].
  - destruct Hd as ([Lw Ww] & _ & V). pose proof (le_val_bound _ Ww) as Hb.
    fold (value w) in Hb. split; [by split|lia].
  - tauto.
Qed.

(** Three limbs against two, with carries and borrows. *)
Lemma biguint_arithmetic_exact_witness :
  exists d, sub {| digits := [0; 5] |} {| digits := [1; 0; 7] |} = Some (inr d) /\
            value d = 5 - (B ^ 2 + 7) + B ^ 3.
Proof.
  assert (W1 : wf {| digits := [0; 5] |}).
  { apply wf_digits. split; [unfold len; cbn; lia|].
    repeat (apply Forall_cons_2; [vm_compute; split; discriminate|]). apply Forall_nil_2. }
  assert (W2 : wf {| digits := [1; 0; 7] |}).
  { apply wf_digits. split; [unfold len; cbn; lia|].
    repeat (apply Forall_cons_2; [vm_compute; split; discriminate|]). apply Forall_nil_2. }
  destruct (biguint_arithmetic_exact _ _ W1 W2) as (_ & _ & d & Hd & H).
  destruct d as [w|w].
  - exfalso. destruct H as (_ & H & _). vm_compute in H. by apply H.
  - exists w. split; [exact Hd|]. destruct H as (_ & _ & ->). reflexivity.
Defined.

(** The [Ord] and [PartialEq] of [BigUint] are the order and equality of
    the represented numbers, whatever leading zero limbs the vectors carry; the
    conversions from and to the primitive types are exact, and [TryFrom] fails
    exactly on numbers that do not fit. *)
Theorem biguint_order_and_conversions (u v : BigUint) (x width : Z) :
  wf u -> wf v -> is_uint 128 x -> width = 64 \/ width = 128 ->
  cmp u v = (value u ?= value v) /\
  (BigUint.eq u v = true <-> value u = value v) /\
  try_from width u = (if value u <=? umax width then Some (value u) else None) /\
  try_from 128 (to_big_uint x) = Some x.
Proof.
  intros Wu Wv Hx Hw. split_and!.
  - by apply cmp_spec.
  - unfold BigUint.eq. rewrite cmp_spec by done.
    destruct (Z.compare_spec (value u) (value v)); intuition (discriminate || lia).
  - by apply try_from_spec.
  - destruct (to_big_uint_spec x Hx) as [W V]. rewrite try_from_spec, V by auto.
    destruct Hx. destruct (Z.leb_spec x (umax 128)); [done|lia].
Qed.

(** A number with leading zeros against itself without them. *)
Lemma biguint_order_and_conversions_witness :
  BigUint.eq {| digits := [0; 0; 3; 9] |} {| digits := [3; 9] |} = true.
Proof.
  assert (W1 : wf {| digits := [0; 0; 3; 9] |}).
  { apply wf_digits. split; [unfold len; cbn; lia|].
    repeat (apply Forall_cons_2; [vm_compute; split; discriminate|]). apply Forall_nil_2. }
  assert (W2 : wf {| digits := [3; 9] |}).
  { apply wf_digits. split; [unfold len; cbn; lia|].
    repeat (apply Forall_cons_2; [vm_compute; split; discriminate|]). apply Forall_nil_2. }
  apply (biguint_order_and_conversions _ _ 0 64 W1 W2);
    [vm_compute; split; discriminate|by left|reflexivity].
Defined.
