(* ===== verification/BigUintDiv.v ===== *)
(** * Long division of unlimited integers

    Model of [BigUint::div] of
    [substrate/primitives/arithmetic/src/biguint.rs] (Knuth's Algorithm D) and
    the proof that it computes the Euclidean quotient and remainder. *)

From stdpp Require Import base option numbers list sets.
From Stdlib Require Import ZArith Lia.
From S2P Require Import Prelude BigUint BigUintProofs.
From S2P Require Arith128.
Local Open Scope Z_scope.

(** [leading_zeros] of a 32-bit limb. *)
Definition leading_zeros (d : Z) : Z := if d =? 0 then 32 else 31 - Z.log2 d.

(** The closure [test]: whether the estimate was decreased, and the new
    estimate and partial remainder.  [v1], [v2] are the two top limbs of the
    divisor and [u2] the third limb of the current window. *)
Definition test (v1 v2 u2 : Z) (st : Z * Z) : bool * (Z * Z) :=
  let '(qhat, rhat) := st in
  let predicate_1 := B <=? qhat in
  let predicate_2 :=
    let lhs := wrapping 64 (qhat * v2) in
    let rhs := wrapping 64 (wrapping 64 (B * rhat) + u2) in
    rhs <? lhs in
  if predicate_1 || predicate_2
  then (true, (wrapping 64 (qhat - 1), wrapping 64 (rhat + v1)))
  else (false, (qhat, rhat)).

(** [while rhat < B { if !test() { break } }]; running out of rounds is reported
    as [None].  A successful test adds the top limb of a normalised divisor, at
    least half the base, so two rounds are enough ([estimate_spec]). *)
Fixpoint test_loop (fuel : nat) (v1 v2 u2 : Z) (st : Z * Z) : option (Z * Z) :=
  if snd st <? B then
    match fuel with
    | O => None
    | S fuel =>
      let '(again, st) := test v1 v2 u2 st in
      if again then test_loop fuel v1 v2 u2 st else Some st
    end
  else Some st.

(** Steps D3: the estimate of one quotient limb. *)
Definition estimate (u0 u1 u2 v1 v2 : Z) : option Z :=
  let '(qhat, rhat) := div_single (wrapping 64 (wrapping 64 (u0 * B) + u1)) v1 in
  let '(_, st) := test v1 v2 u2 (qhat, rhat) in
  fst <$> test_loop 2 v1 v2 u2 st.

(** [(j..=j + n).rev().map(|d| w.get(d)).collect()]. *)
Definition window (w : BigUint) (j n : nat) : option BigUint :=
  ds ← mapM (get w) (reverse (seq j (n + 1)));
  Some {| digits := ds |}.

(** [for d in ds { w.set(d, src.get(d - j)) }]. *)
Definition copy_limbs (ds : list nat) (j : nat) (src w : BigUint) : option BigUint :=
  for_in ds (fun d w => x ← get src (d - j); set w d x) w.

(** One iteration of step D2: limb [j] of the quotient. *)
Definition div_step (n : nat) (other_norm : BigUint) (j : nat) (st : BigUint * BigUint)
    : option (BigUint * BigUint) :=
  let '(self_norm, q) := st in
  u0 ← get self_norm (j + n);
  u1 ← get self_norm (j + n - 1);
  u2 ← get self_norm (j + n - 2);
  v1 ← get other_norm (n - 1);
  v2 ← get other_norm (n - 2);
  qhat ← estimate u0 u1 u2 v1 v2;
  lhs ← window self_norm j n;
  rhs ← mul other_norm (from_u64 qhat);
  maybe_sub ← sub lhs rhs;
  let '(negative, sub) := match maybe_sub with inl t => (false, t) | inr t => (true, t) end in
  self_norm ← copy_limbs (seq j (n + 1)) j sub self_norm;
  q ← set q j (wrapping 32 qhat);
  if (negative : bool) then
    qj ← get q j;
    qj ← Prelude.checked_sub qj 1;
    q ← set q j qj;
    u ← window self_norm j n;
    r ← add other_norm u;
    self_norm ← copy_limbs (reverse (seq j (n + 1))) j r self_norm;
    Some (self_norm, q)
  else Some (self_norm, q).

(** Undo the normalisation by [nb] bits: the low [n] limbs shifted right. *)
Definition unnormalize (n : nat) (nb : Z) (self_norm r : BigUint) : option BigUint :=
  r ← for_in (seq 0 (n - 1)) (fun d r =>
    a ← get self_norm d;
    b ← get self_norm (d + 1);
    set r d (Z.lor (Z.shiftr a nb) (wrapping 32 (Z.shiftl b (SHIFT - nb))))) r;
  a ← get self_norm (n - 1);
  set r (n - 1) (Z.shiftr a nb).

(** [None] for an abort, [Some None] for a rejected argument. *)
Definition div (self other : BigUint) (rem : bool) : option (option (BigUint * BigUint)) :=
  if (len other <=? 1)%nat then Some None
  else
    other_msb ← msb other;
    if other_msb =? 0 then Some None
    else
      self_msb ← msb self;
      if (self_msb =? 0) || (len self <=? len other)%nat then Some None
      else
        let n := len other in
        let m := (len self - n)%nat in
        let q := with_capacity (m + 1) in
        let r := with_capacity n in
        let normalizer_bits := leading_zeros other_msb in
        let normalizer := wrapping 32 (2 ^ normalizer_bits) in
        self_norm ← mul self (from_u32 normalizer);
        other_norm ← mul other (from_u32 normalizer);
        let self_norm := lpad self_norm (n + m + 1) in
        let other_norm := lstrip other_norm in
        '(self_norm, q) ← for_in (reverse (seq 0 (m + 1))) (div_step n other_norm) (self_norm, q);
        if rem then
          if 0 <? normalizer_bits then
            r ← unnormalize n normalizer_bits self_norm r;
            Some (Some (q, r))
          else Some (Some (q, self_norm))
        else Some (Some (q, r)).

(** * Theorems *)

(** ** The quotient estimate *)

Section estimate_proof.
Context (u0 u1 u2 v1 v2 ul vl p : Z).
Context (Hu0 : 0 <= u0 < B) (Hu1 : 0 <= u1 < B) (Hu2 : 0 <= u2 < B).
Context (Hv1 : B <= 2 * v1) (Hv1' : v1 < B) (Hv2 : 0 <= v2 < B).
Context (Hp : 0 < p) (Hul : 0 <= ul < p) (Hvl : 0 <= vl < p).

(** The window and the divisor, with the limbs below the top ones gathered in
    [ul] and [vl]. *)
Let T := ((u0 * B + u1) * B + u2) * p + ul.
Let V := (v1 * B + v2) * p + vl.
Context (HTV : T < V * B).

(** The relation between estimate and partial remainder, with the estimate never
    below the true quotient limb. *)
Definition est_inv (st : Z * Z) : Prop :=
  fst st * v1 + snd st = u0 * B + u1 /\ T / V <= fst st /\ 0 <= snd st < 2 * B /\ fst st <= B + 1.

Lemma V_pos : 0 < V.
Proof. pose proof B_pos. unfold V. nia. Qed.

Lemma quot_le_iff k : k <= T / V <-> k * V <= T.
Proof.
  pose proof V_pos. split; intros Hk.
  - pose proof (Z.mul_div_le T V ltac:(lia)). nia.
  - apply Z.div_le_lower_bound; lia.
Qed.

Lemma quot_lt_B : T / V < B.
Proof. apply Z.div_lt_upper_bound; [apply V_pos|lia]. Qed.

Lemma u0_le_v1 : u0 <= v1.
Proof.
  pose proof B_pos as HB.
  assert (u0 * (B * B * p) <= T).
  { unfold T. assert (0 <= (u1 * B + u2) * p) by (apply Z.mul_nonneg_nonneg; nia). lia. }
  assert (V <= (v1 + 1) * B * p).
  { unfold V. assert (v2 * p + vl <= B * p) by nia. lia. }
  assert (u0 * (B * B * p) < (v1 + 1) * (B * B * p)) by nia.
  assert (0 < B * B * p) by (repeat apply Z.mul_pos_pos; lia). nia.
Qed.

Lemma est_inv_start :
  let N := u0 * B + u1 in est_inv (N / v1, N mod v1).
Proof.
  cbn zeta. pose proof B_pos as HB. pose proof u0_le_v1 as Hle. pose proof V_pos as HV.
  set (N := u0 * B + u1). unfold est_inv. cbn [fst snd]. fold N.
  pose proof (Z.div_mod N v1 ltac:(lia)). pose proof (Z.mod_pos_bound N v1 ltac:(lia)).
  split_and!; [lia| |lia..|].
  - apply Z.div_le_lower_bound; [lia|].
    pose proof (Z.mul_div_le T V HV) as Hq. set (q := T / V) in *.
    assert (0 <= q) by (apply Z.div_pos; unfold T; [|lia];
      assert (0 <= ((u0 * B + u1) * B + u2) * p) by (apply Z.mul_nonneg_nonneg; nia); lia).
    assert (T < (N + 1) * (B * p)) by (unfold T; fold N; nia).
    assert (q * v1 * (B * p) <= V * q) by (unfold V; nia).
    assert (0 < B * p) by nia. nia.
  - assert (N < (B + 2) * v1) by nia.
    assert (N / v1 < B + 2) by (apply Z.div_lt_upper_bound; lia). lia.
Qed.

(** The test on an estimate in range computes without overflow. *)
Lemma test_spec st :
  est_inv st -> snd st < B ->
  test v1 v2 u2 st =
  if (B <=? fst st) || (B * snd st + u2 <? fst st * v2)
  then (true, (fst st - 1, snd st + v1)) else (false, st).
Proof.
  intros (E & Hq & Hr & Hle) Hlt. destruct st as [qhat rhat]. cbn [fst snd] in *.
  pose proof B_pos as HB. unfold test.
  assert (0 <= T / V) by (apply Z.div_pos; [unfold T|apply V_pos];
    assert (0 <= ((u0 * B + u1) * B + u2) * p) by (apply Z.mul_nonneg_nonneg; nia); lia).
  rewrite (u64_B (B * rhat)), (u64_B (B * rhat + u2)), (u64_B (qhat * v2)) by nia.
  destruct (_ || _) eqn:Et; [|done]. rewrite !u64_B; [done|nia|].
  apply orb_true_iff in Et as [Et|Et]; [apply Z.leb_le in Et; nia|apply Z.ltb_lt in Et; nia].
Qed.

(** A decrease never goes below the true limb. *)
Lemma test_keeps st :
  est_inv st -> snd st < B ->
  (B <=? fst st) || (B * snd st + u2 <? fst st * v2) = true ->
  est_inv (fst st - 1, snd st + v1).
Proof.
  intros (E & Hq & Hr & Hle) Hlt Et. destruct st as [qhat rhat]. unfold est_inv. cbn [fst snd] in *.
  pose proof quot_lt_B as HqB. split_and!; [lia| |lia..].
  apply orb_true_iff in Et as [Et|Et]; [apply Z.leb_le in Et; lia|apply Z.ltb_lt in Et].
  destruct (Z.le_gt_cases qhat (T / V)) as [Hk|]; [exfalso|lia].
  apply quot_le_iff in Hk. pose proof B_pos.
  assert (Hn : (u0 * B + u1) * B + u2 + 1 <= qhat * (v1 * B + v2)) by (rewrite <- E; nia).
  assert (0 <= qhat) by nia.
  assert (((u0 * B + u1) * B + u2 + 1) * p <= qhat * (v1 * B + v2) * p) by nia.
  unfold T, V in Hk. nia.
Qed.

(** An estimate that passes the test exceeds the true limb by one at most. *)
Lemma test_passed st :
  est_inv st -> fst st < B -> fst st * v2 <= B * snd st + u2 -> T / V <= fst st <= T / V + 1.
Proof.
  intros (E & Hq & Hr & _) HB2 Hp2. destruct st as [qhat rhat]. cbn [fst snd] in *.
  split; [done|]. pose proof B_pos.
  enough (qhat - 1 <= T / V) by lia. apply quot_le_iff.
  destruct (Z.le_gt_cases qhat 0).
  { assert (0 <= T) by (unfold T;
      assert (0 <= ((u0 * B + u1) * B + u2) * p) by (apply Z.mul_nonneg_nonneg; nia); lia).
    pose proof V_pos. nia. }
  assert (H1 : qhat * (v1 * B + v2) <= (u0 * B + u1) * B + u2) by (rewrite <- E; nia).
  assert (H2 : (qhat - 1) * (v1 * B + v2 + 1) <= (u0 * B + u1) * B + u2) by nia.
  assert ((qhat - 1) * V <= (qhat - 1) * (v1 * B + v2 + 1) * p) by (unfold V; nia).
  assert ((qhat - 1) * (v1 * B + v2 + 1) * p <= ((u0 * B + u1) * B + u2) * p) by nia.
  unfold T. lia.
Qed.

Lemma test_overrun st : est_inv st -> B <= snd st -> fst st < B /\ fst st * v2 <= B * snd st + u2.
Proof.
  intros (E & Hq & Hr & _) HrB. pose proof u0_le_v1. destruct st as [qhat rhat].
  cbn [fst snd] in *. pose proof B_pos. assert (qhat < B) by nia. nia.
Qed.

(** A failing test ends the loop with a good estimate. *)
Lemma test_failed st :
  est_inv st -> (B <=? fst st) || (B * snd st + u2 <? fst st * v2) = false ->
  fst st < B /\ T / V <= fst st <= T / V + 1.
Proof.
  intros Hi Et. apply orb_false_iff in Et as [E1 E2].
  apply Z.leb_gt in E1. apply Z.ltb_ge in E2. split; [done|]. by apply test_passed.
Qed.

Lemma estimate_spec :
  exists qhat, estimate u0 u1 u2 v1 v2 = Some qhat /\ qhat < B /\ T / V <= qhat <= T / V + 1.
Proof.
  pose proof B_pos as HB. pose proof est_inv_start as Hi. cbn zeta in Hi. unfold estimate.
  rewrite (u64_B (u0 * B)), u64_B by nia. unfold div_single.
  set (N := u0 * B + u1) in *. pose proof (Z.mod_pos_bound N v1 ltac:(lia)) as Hm.
  rewrite wrapping_limb_id by lia. set (st := (N / v1, N mod v1)) in *.
  assert (Hs : snd st < v1) by (unfold st; cbn; lia).
  rewrite test_spec by (done || lia). destruct (_ || _) eqn:E0.
  - pose proof (test_keeps st Hi ltac:(lia) E0) as Hi1. set (st1 := (fst st - 1, snd st + v1)) in *.
    cbn [test_loop]. destruct (Z.ltb_spec (snd st1) B) as [Hlt|Hge].
    + rewrite test_spec by done. destruct ((B <=? fst st1) || _) eqn:E1.
      * pose proof (test_keeps st1 Hi1 ltac:(lia) E1) as Hi2.
        set (st2 := (fst st1 - 1, snd st1 + v1)) in *. cbn [test_loop].
        assert (Hge : B <= snd st2).
        { destruct Hi as (_ & _ & ? & _). unfold st2, st1. cbn [fst snd]. lia. }
        destruct (Z.ltb_spec (snd st2) B); [lia|]. destruct (test_overrun st2 Hi2 Hge) as [H1 H2].
        exists (fst st2). split; [done|]. split; [done|]. by apply test_passed.
      * exists (fst st1). split; [done|]. by apply test_failed.
    + destruct (test_overrun st1 Hi1 Hge) as [H1 H2].
      exists (fst st1). split; [done|]. split; [done|]. by apply test_passed.
  - cbn [test_loop]. destruct (Z.ltb_spec (snd st) B); [|lia].
    rewrite test_spec, E0 by (done || lia). exists (fst st). split; [done|]. by apply test_failed.
Qed.
End estimate_proof.

(** ** Windows of limbs *)

Lemma lv_mod l k : Forall is_limb l -> lv l k = le_val l mod B ^ Z.of_nat k.
Proof.
  intros Hl. pose proof (lv_bound l k Hl) as Hb.
  destruct (decide (k <= length l)%nat) as [Hk|Hk].
  - rewrite (le_val_drop l k), length_take_le by done.
    rewrite Z.mul_comm, Z.mod_add by lia. rewrite Z.mod_small; done.
  - rewrite lv_all in * by lia. rewrite Z.mod_small; done.
Qed.

Lemma limb_get (l : list Z) i : (i < length l)%nat -> l !! i = Some (default 0 (l !! i)).
Proof. intros [x ->]%lookup_lt_is_Some_2. done. Qed.

Lemma window_spec w j n :
  (j + n < len w)%nat ->
  exists lhs, window w j n = Some lhs /\ limbs lhs = take (n + 1) (drop j (limbs w)).
Proof.
  intros Hlen. unfold window.
  assert (E : mapM (get w) (reverse (seq j (n + 1))) =
              Some (reverse (take (n + 1) (drop j (limbs w))))).
  { apply mapM_Some. apply Forall2_reverse. apply Forall2_same_length_lookup_2.
    { rewrite length_seq, length_take, length_drop, length_limbs. lia. }
    intros i d x Hd Hx. apply lookup_seq in Hd as [-> Hi].
    rewrite lookup_take_lt, lookup_drop in Hx by lia. by rewrite get_limbs. }
  rewrite E. cbn [mbind option_bind]. eexists. split; [done|].
  unfold limbs at 1. cbn [digits]. apply reverse_involutive.
Qed.

Lemma copy_limbs_lookup ds j src : forall w,
  (forall d, d ∈ ds -> j <= d /\ d - j < len src /\ d < len w)%nat ->
  exists w', copy_limbs ds j src w = Some w' /\ len w' = len w /\
    forall i, limbs w' !! i = if decide (i ∈ ds) then limbs src !! (i - j)%nat else limbs w !! i.
Proof.
  unfold copy_limbs. induction ds as [|d ds IH]; intros w Hd; cbn [for_in].
  { exists w. split_and!; [done..|]. intros i. rewrite decide_False by set_solver. done. }
  destruct (Hd d) as (H1 & H2 & H3); [set_solver|].
  rewrite get_limbs, (limb_get _ (d - j)) by (rewrite length_limbs; lia).
  cbn [mbind option_bind]. set_limb.
  assert (L1 : len w0 = len w) by (rewrite <- !length_limbs, Hset, length_insert; done).
  destruct (IH w0) as (w' & -> & L & Hl).
  { intros d' Hd'. rewrite L1. apply Hd. set_solver. }
  exists w'. split_and!; [done|congruence|]. intros i. rewrite Hl.
  destruct (decide (i ∈ ds)); [by rewrite decide_True by set_solver|].
  rewrite Hset. destruct (decide (i = d)) as [->|Hne].
  - rewrite decide_True by set_solver. rewrite list_lookup_insert_eq by (rewrite length_limbs; lia).
    symmetry. apply limb_get. rewrite length_limbs. lia.
  - by rewrite decide_False, list_lookup_insert_ne by set_solver.
Qed.

(** Copying a window, in either direction. *)
Lemma copy_window ds j n src w :
  (forall d, d ∈ ds <-> j <= d < j + n + 1)%nat -> (n < len src)%nat -> (j + n < len w)%nat ->
  exists w', copy_limbs ds j src w = Some w' /\
    limbs w' = take j (limbs w) ++ take (n + 1) (limbs src) ++ drop (j + n + 1) (limbs w).
Proof.
  intros Hds Hs Hw. destruct (copy_limbs_lookup ds j src w) as (w' & -> & L & Hl).
  { intros d Hd%Hds. lia. }
  exists w'. split; [done|]. apply list_eq. intros i. rewrite Hl.
  assert (Lj : length (take j (limbs w)) = j) by (rewrite length_take_le; rewrite ?length_limbs; lia).
  assert (Ln : length (take (n + 1) (limbs src)) = (n + 1)%nat)
    by (rewrite length_take_le; rewrite ?length_limbs; lia).
  destruct (decide (i < j)%nat).
  { rewrite decide_False by (rewrite Hds; lia). by rewrite lookup_app_l, lookup_take_lt by lia. }
  rewrite lookup_app_r, Lj by lia. destruct (decide (i < j + n + 1)%nat).
  { rewrite decide_True by (rewrite Hds; lia). by rewrite lookup_app_l, lookup_take_lt by lia. }
  rewrite decide_False by (rewrite Hds; lia). rewrite lookup_app_r, Ln, lookup_drop by lia.
  f_equal. lia.
Qed.

Lemma window_value l j n :
  (j + n < length l)%nat ->
  le_val l = lv l j + B ^ Z.of_nat j * (lv (drop j l) (n + 1) +
             B ^ Z.of_nat (n + 1) * le_val (drop (j + n + 1) l)).
Proof.
  intros H. rewrite (le_val_drop l j), length_take_le by lia.
  rewrite (le_val_drop (drop j l) (n + 1)), length_take_le by (rewrite length_drop; lia).
  rewrite drop_drop, Nat.add_assoc. done.
Qed.

(** The lowest limbs are unchanged and the window holds the source, so the value
    changes by the difference of the windows. *)
Lemma copy_value j n src w w' :
  (n < len src)%nat -> (j + n < len w)%nat ->
  limbs w' = take j (limbs w) ++ take (n + 1) (limbs src) ++ drop (j + n + 1) (limbs w) ->
  len w' = len w /\ take (n + 1) (drop j (limbs w')) = take (n + 1) (limbs src) /\
  take j (limbs w') = take j (limbs w) /\ drop (j + n + 1) (limbs w') = drop (j + n + 1) (limbs w) /\
  (Forall is_limb (limbs w) -> Forall is_limb (limbs src) -> Forall is_limb (limbs w')).
Proof.
  intros Hs Hw E.
  assert (Lj : length (take j (limbs w)) = j) by (rewrite length_take_le; rewrite ?length_limbs; lia).
  assert (Ln : length (take (n + 1) (limbs src)) = (n + 1)%nat)
    by (rewrite length_take_le; rewrite ?length_limbs; lia).
  rewrite <- (length_limbs w'), E. split_and!.
  - rewrite !length_app, Lj, Ln, length_drop, length_limbs. lia.
  - rewrite drop_app_length' by done. by rewrite take_app_length'.
  - by rewrite take_app_length'.
  - rewrite app_assoc, drop_app_length'; [done|]. rewrite length_app. lia.
  - intros. repeat apply Forall_app_2; auto using Forall_take, Forall_drop.
Qed.

(** ** One quotient limb *)

(** Limb [i], zero beyond the top. *)
Definition limb (l : list Z) (i : nat) : Z := default 0 (l !! i).

Lemma lv_top2 l k :
  lv l (k + 2) = (limb l (k + 1) * B + limb l k) * B ^ Z.of_nat k + lv l k.
Proof.
  replace (k + 2)%nat with (k + 1 + 1)%nat by lia. rewrite !lv_S, B_pow_S. fold (limb l k).
  fold (limb l (k + 1)). ring.
Qed.

Lemma lv_top3 l k :
  lv l (k + 3) =
  ((limb l (k + 2) * B + limb l (k + 1)) * B + limb l k) * B ^ Z.of_nat k + lv l k.
Proof.
  replace (k + 3)%nat with (k + 1 + 2)%nat by lia. rewrite lv_top2, lv_S, B_pow_S.
  replace (k + 1 + 1)%nat with (k + 2)%nat by lia. fold (limb l k). ring.
Qed.

Lemma limb_ok l i : Forall is_limb l -> 0 <= limb l i < B.
Proof. intros. by apply limb_bound, limb_lookup. Qed.

Lemma get_limb w i : (i < len w)%nat -> get w i = Some (limb (limbs w) i).
Proof. intros. rewrite get_limbs. apply limb_get. by rewrite length_limbs. Qed.

Lemma limb_drop l j i : limb (drop j l) i = limb l (j + i).
Proof. unfold limb. by rewrite lookup_drop. Qed.

(** A number below [B ^ k] has only zeros from limb [k] on. *)
Lemma high_zero l k :
  Forall is_limb l -> le_val l < B ^ Z.of_nat k -> (k <= length l)%nat -> le_val (drop k l) = 0.
Proof.
  intros Hl Hlt Hk. rewrite (le_val_drop l k), length_take_le in Hlt by done.
  pose proof (lv_bound l k Hl). pose proof (le_val_bound _ (Forall_drop _ k _ Hl)). nia.
Qed.

Section div_step_proof.
Context (k m : nat) (other_norm : BigUint).
Let n := (k + 2)%nat.
Context (Wo : wf other_norm) (Lo : len other_norm = n).
Context (Hnorm : B <= 2 * limb (limbs other_norm) (k + 1)).
Let V := value other_norm.

Lemma V_bounds : 0 < V < B ^ Z.of_nat n.
Proof.
  destruct Wo as [_ W]. pose proof (le_val_bound _ W) as Hb. rewrite length_limbs, Lo in Hb.
  change (le_val (limbs other_norm)) with V in Hb. split; [|lia]. pose proof B_pos. pose proof (limb_ok _ k W).
  unfold V, value. rewrite <- (lv_all _ n) by (rewrite length_limbs; lia). unfold n.
  rewrite lv_top2. pose proof (lv_bound _ k W).
  assert (0 < limb (limbs other_norm) (k + 1) * B + limb (limbs other_norm) k) by nia.
  pose proof (Z.mul_pos_pos _ _ H2 (B_pow_pos k)). lia.
Qed.

(** The window of a number below [V * B ^ (j + 1)]. *)
Lemma window_bounds w j :
  Forall is_limb (limbs w) -> (j + n < len w)%nat -> value w < V * B ^ Z.of_nat (j + 1) ->
  le_val (drop (j + n + 1) (limbs w)) = 0 /\
  let T := lv (drop j (limbs w)) (n + 1) in
  value w = lv (limbs w) j + B ^ Z.of_nat j * T /\ T < V * B.
Proof.
  intros Ww Hlen Hlt. pose proof V_bounds as HV.
  assert (Hz : le_val (drop (j + n + 1) (limbs w)) = 0).
  { apply high_zero; [done| |rewrite length_limbs; lia]. fold (value w).
    replace (j + n + 1)%nat with (n + (j + 1))%nat by lia.
    rewrite Nat2Z.inj_add, Z.pow_add_r by lia. pose proof (B_pow_pos (j + 1)). nia. }
  split; [done|]. cbn zeta. pose proof (window_value (limbs w) j n) as E.
  rewrite Hz, Z.mul_0_r, Z.add_0_r in E. fold (value w) in E.
  rewrite E in Hlt by (rewrite length_limbs; lia). split; [apply E; rewrite length_limbs; lia|].
  rewrite B_pow_S in Hlt. pose proof (lv_bound (limbs w) j Ww). pose proof (B_pow_pos j). nia.
Qed.

Lemma estimate_window w j :
  Forall is_limb (limbs w) -> (j + n < len w)%nat ->
  let T := lv (drop j (limbs w)) (n + 1) in
  T < V * B ->
  exists qhat,
    estimate (limb (limbs w) (j + n)) (limb (limbs w) (j + n - 1)) (limb (limbs w) (j + n - 2))
             (limb (limbs other_norm) (n - 1)) (limb (limbs other_norm) (n - 2)) = Some qhat /\
    qhat < B /\ T / V <= qhat <= T / V + 1.
Proof.
  intros Ww Hlen. destruct Wo as [_ W]. cbn zeta.
  replace (n + 1)%nat with (k + 3)%nat by (unfold n; lia). rewrite lv_top3, !limb_drop.
  assert (EV : V = (limb (limbs other_norm) (k + 1) * B + limb (limbs other_norm) k)
                   * B ^ Z.of_nat k + lv (limbs other_norm) k).
  { rewrite <- lv_top2. symmetry. apply lv_all. rewrite length_limbs, Lo. done. }
  rewrite EV. replace (j + n)%nat with (j + (k + 2))%nat by done.
  replace (j + (k + 2) - 1)%nat with (j + (k + 1))%nat by lia.
  replace (j + (k + 2) - 2)%nat with (j + k)%nat by lia.
  replace (n - 1)%nat with (k + 1)%nat by (unfold n; lia).
  replace (n - 2)%nat with k by (unfold n; lia).
  apply estimate_spec; try (by apply limb_ok); try done.
  - apply B_pow_pos.
  - apply lv_bound. by apply Forall_drop.
  - by apply lv_bound.
Qed.

Lemma quotient_bounds T : 0 <= T -> 0 <= T / V /\ T / V * V <= T < (T / V + 1) * V.
Proof.
  intros HT. pose proof V_bounds as HV. pose proof (Z.div_mod T V ltac:(lia)).
  pose proof (Z.mod_pos_bound T V ltac:(lia)). pose proof (Z.div_pos T V HT ltac:(lia)). lia.
Qed.

(** Step D4: the window minus the divisor times the estimate; a borrow tells that
    the estimate was one too large. *)
Lemma subtract_window lhs qhat :
  let T := value lhs in
  wf lhs -> len lhs = (n + 1)%nat -> T / V <= qhat <= T / V + 1 -> qhat < B ->
  exists rhs r, mul other_norm (from_u64 qhat) = Some rhs /\ sub lhs rhs = Some r /\
  match r with
  | inl t => Forall is_limb (limbs t) /\ len t = (n + 2)%nat /\ qhat = T / V /\
             lv (limbs t) (n + 1) = T - qhat * V
  | inr t => Forall is_limb (limbs t) /\ len t = (n + 2)%nat /\ qhat = T / V + 1 /\
             lv (limbs t) (n + 1) = T - qhat * V + B ^ Z.of_nat (n + 1)
  end.
Proof.
  cbn zeta. intros Wl Ll Hq HqB. set (T := value lhs) in *. pose proof B_pos as HB.
  assert (HT : 0 <= T) by (apply le_val_bound, Wl).
  destruct (quotient_bounds T HT) as (Hq0 & HqT). pose proof V_bounds as HV.
  destruct (from_u64_spec qhat) as (Wq & Vq & Lq); [nia|].
  destruct (mul_spec other_norm (from_u64 qhat) Wo Wq) as (rhs & Hm & Wr & Lr & Vr).
  destruct (sub_spec lhs rhs Wl Wr) as (r & Hs & Hr).
  exists rhs, r. split; [done|]. split; [done|]. rewrite Vq in Vr. fold V in Vr.
  rewrite Ll, Lr, Lo, Lq in Hr. fold T in Hr.
  pose proof (B_pow_S n) as EB. pose proof (B_pow_S (n + 1)) as EB2.
  replace (n + 1 + 1)%nat with (n + 2)%nat in EB2 by lia.
  replace ((n + 1) `max` (n + 2))%nat with (n + 2)%nat in Hr by lia.
  destruct r as [t|t].
  - destruct Hr as ([_ Wt] & Lt & Vt). split; [done|]. split; [done|].
    pose proof (le_val_bound _ Wt) as Hb. fold (value t) in Hb.
    assert (qhat = T / V) as E by nia. split; [done|].
    rewrite lv_mod by done. fold (value t). rewrite Vt, Vr.
    replace (T - V * qhat) with (T - qhat * V) by lia. apply Z.mod_small. nia.
  - destruct Hr as ([_ Wt] & Lt & Hlt & Vt). split; [done|]. split; [done|].
    assert (qhat = T / V + 1) as E by nia. split; [done|].
    rewrite lv_mod by done. fold (value t). rewrite Vt, Vr, EB2.
    symmetry. apply (Z.mod_unique _ _ (B - 1)); nia.
Qed.

(** Step D6: adding the divisor back to a window that went negative. *)
Lemma add_back u q T :
  wf u -> len u = (n + 1)%nat -> q = T / V -> 0 <= T ->
  value u = T - (q + 1) * V + B ^ Z.of_nat (n + 1) ->
  exists r, add other_norm u = Some r /\ Forall is_limb (limbs r) /\ len r = (n + 2)%nat /\
    lv (limbs r) (n + 1) = T - q * V.
Proof.
  intros Wu Lu -> HT Vu. destruct (add_spec other_norm u Wo Wu) as (r & Ha & [_ Wr] & Lr & Vr).
  exists r. split_and!; [done|done|lia|]. rewrite lv_mod by done. fold (value r).
  rewrite Vr, Vu. fold V. destruct (quotient_bounds T HT). pose proof V_bounds.
  pose proof (B_pow_S n). pose proof B_pos.
  symmetry. apply (Z.mod_unique _ _ 1); nia.
Qed.

(** Replacing the window by its remainder leaves a value below [V * B ^ j]. *)
Lemma replace_window w w' src j q :
  let T := lv (drop j (limbs w)) (n + 1) in
  Forall is_limb (limbs w) -> Forall is_limb (limbs src) ->
  (n < len src)%nat -> (j + n < len w)%nat -> value w < V * B ^ Z.of_nat (j + 1) ->
  take (n + 1) (drop j (limbs w')) = take (n + 1) (limbs src) ->
  take j (limbs w') = take j (limbs w) ->
  drop (j + n + 1) (limbs w') = drop (j + n + 1) (limbs w) -> len w' = len w ->
  lv (limbs src) (n + 1) = T - q * V -> q = T / V ->
  value w' < V * B ^ Z.of_nat j /\ value w = q * V * B ^ Z.of_nat j + value w'.
Proof.
  cbn zeta. intros Ww Ws Ls Lw Hlt Ew Ej Ed Lw' Hsrc Hq.
  destruct (window_bounds w j Ww Lw Hlt) as (Hz & HV1 & HT). set (T := lv (drop j (limbs w)) (n + 1)) in *.
  assert (E : value w' = lv (limbs w) j + B ^ Z.of_nat j * (T - q * V)).
  { unfold value. rewrite (window_value _ j n), Ed, Hz by (rewrite length_limbs; lia).
    unfold lv at 2. rewrite Ew. fold (lv (limbs src) (n + 1)). rewrite Hsrc.
    unfold lv at 1. rewrite Ej. fold (lv (limbs w) j). lia. }
  assert (0 <= T) by (apply lv_bound; by apply Forall_drop).
  destruct (quotient_bounds T) as (_ & ?); [done|]. rewrite E, HV1, Hq.
  pose proof (lv_bound (limbs w) j Ww). split; [|ring].
  assert (Hx : T - T / V * V <= V - 1) by lia. set (x := T - T / V * V) in *. nia.
Qed.

Lemma seq_window j d : d ∈ seq j (n + 1) <-> (j <= d < j + n + 1)%nat.
Proof. rewrite elem_of_seq. lia. Qed.

Lemma seq_rev_window j d : d ∈ reverse (seq j (n + 1)) <-> (j <= d < j + n + 1)%nat.
Proof. rewrite elem_of_reverse. apply seq_window. Qed.

(** One step finds limb [j] of the quotient and leaves a remainder below
    [V * B ^ j]. *)
Lemma div_step_spec w q j :
  Forall is_limb (limbs w) -> (j + n < len w)%nat -> value w < V * B ^ Z.of_nat (j + 1) ->
  Forall is_limb (limbs q) -> (j < len q)%nat ->
  exists w' q' qj, div_step n other_norm j (w, q) = Some (w', q') /\
    Forall is_limb (limbs w') /\ len w' = len w /\
    is_limb qj /\ limbs q' = <[j := qj]> (limbs q) /\
    value w' < V * B ^ Z.of_nat j /\ value w = qj * V * B ^ Z.of_nat j + value w'.
Proof.
  intros Ww Lw Hlt Wq Lq. destruct (window_bounds w j Ww Lw Hlt) as (_ & _ & HT).
  unfold div_step. rewrite !get_limb by lia. cbn [mbind option_bind].
  destruct (estimate_window w j Ww Lw HT) as (qhat & -> & HqB & Hq). cbn [mbind option_bind].
  destruct (window_spec w j n Lw) as (lhs & -> & El). cbn [mbind option_bind].
  assert (Ll : len lhs = (n + 1)%nat).
  { rewrite <- length_limbs, El, length_take_le; [done|]. rewrite length_drop, length_limbs. lia. }
  assert (Wl : wf lhs).
  { split; [lia|]. rewrite El. by apply Forall_take, Forall_drop. }
  assert (EvT : value lhs = lv (drop j (limbs w)) (n + 1)) by (unfold value; by rewrite El).
  set (T := lv (drop j (limbs w)) (n + 1)) in *.
  destruct (subtract_window lhs qhat) as (rhs & r & Em & Es & Hr); try done.
  { by rewrite EvT. }
  rewrite Em. cbn [mbind option_bind]. rewrite Es. cbn [mbind option_bind]. rewrite EvT in Hr.
  assert (HT0 : 0 <= T) by (apply lv_bound; by apply Forall_drop).
  destruct (quotient_bounds T HT0) as (Hq0 & _).
  destruct r as [t|t]; destruct Hr as (Wt & Lt & Eq & Et).
  - destruct (copy_window (seq j (n + 1)) j n t w (seq_window j)) as (w1 & -> & E1); [lia..|].
    cbn [mbind option_bind]. rewrite wrapping_limb_id by lia. set_limb.
    destruct (copy_value j n t w w1) as (L1 & T1 & J1 & D1 & W1); [lia..|done|].
    destruct (replace_window w w1 t j qhat) as (V1 & V2); try done; [lia|].
    exists w1, w0, qhat. split_and!; try done; [by apply W1|apply limb_bound; lia..].
  - destruct (copy_window (seq j (n + 1)) j n t w (seq_window j)) as (w1 & -> & E1); [lia..|].
    cbn [mbind option_bind]. rewrite wrapping_limb_id by lia. set_limb.
    destruct (copy_value j n t w w1) as (L1 & T1 & J1 & D1 & W1); [lia..|done|].
    specialize (W1 Ww Wt). rewrite get_limbs, Hset, list_lookup_insert_eq by (rewrite length_limbs; lia).
    cbn [mbind option_bind]. unfold Prelude.checked_sub. destruct (Z.leb_spec 1 qhat); [|lia].
    cbn [mbind option_bind].
    assert (L0 : len w0 = len q) by (rewrite <- !length_limbs, Hset, length_insert; done).
    set_limb. destruct (window_spec w1 j n) as (u & -> & Eu); [lia|]. cbn [mbind option_bind].
    destruct (add_back u (T / V) T) as (r & -> & Wr & Lr & Er); try done.
    { split; [|rewrite Eu; by apply Forall_take, Forall_drop].
      rewrite <- length_limbs, Eu, length_take_le; rewrite ?length_drop, ?length_limbs; lia. }
    { rewrite <- length_limbs, Eu, length_take_le; rewrite ?length_drop, ?length_limbs; lia. }
    { unfold value. rewrite Eu, T1, <- Eq. done. }
    cbn [mbind option_bind].
    destruct (copy_window (reverse (seq j (n + 1))) j n r w1 (seq_rev_window j)) as (w2' & -> & E2);
      [lia..|].
    cbn [mbind option_bind].
    destruct (copy_value j n r w1 w2') as (L2 & T2 & J2 & D2 & W2); [lia..|done|].
    destruct (replace_window w w2' r j (T / V)) as (V1 & V2); try done; [lia|congruence..|].
    exists w2', w2, (T / V). split_and!; try done; [by apply W2|congruence|..].
    + apply limb_bound. lia.
    + rewrite Hset0, Hset, list_insert_insert_eq. f_equal. lia.
Qed.
End div_step_proof.

(** ** The remainder *)

Lemma lor_shifted a c s : 0 <= s -> 0 <= a < 2 ^ s -> Z.lor a (c * 2 ^ s) = a + c * 2 ^ s.
Proof.
  intros Hs Ha.
  assert (Z.land a (c * 2 ^ s) = 0) as E; [|by rewrite Z.add_nocarry_lxor, Z.lxor_lor by done].
  apply Z.bits_inj'. intros i Hi. rewrite Z.land_spec, Z.bits_0, <- Z.shiftl_mul_pow2 by done.
  destruct (Z.lt_ge_cases i s).
  - rewrite Z.shiftl_spec_low by done. apply andb_false_r.
  - destruct (Z.eq_dec a 0) as [->|]; [by rewrite Z.testbit_0_l|].
    rewrite Z.bits_above_log2; [done|lia|]. apply Z.log2_lt_pow2; [lia|].
    eapply Z.lt_le_trans; [apply Ha|]. by apply Z.pow_le_mono_r.
Qed.

(** A limb of the unnormalised remainder. *)
Lemma shifted_limb a b nb :
  0 < nb < 32 -> 0 <= a < B -> 0 <= b < B ->
  let x := Z.lor (Z.shiftr a nb) (wrapping 32 (Z.shiftl b (SHIFT - nb))) in
  0 <= x < B /\ x * 2 ^ nb + a mod 2 ^ nb = a + b mod 2 ^ nb * B.
Proof.
  intros Hnb Ha Hb. cbn zeta. unfold SHIFT.
  rewrite Z.shiftr_div_pow2, Z.shiftl_mul_pow2 by lia. unfold wrapping.
  assert (EB : B = 2 ^ nb * 2 ^ (32 - nb)).
  { rewrite <- Z.pow_add_r by lia. replace (nb + (32 - nb)) with 32 by lia. done. }
  change (2 ^ 32) with B.
  assert (HP : 0 < 2 ^ nb) by (apply Z.pow_pos_nonneg; lia).
  assert (HQ : 0 < 2 ^ (32 - nb)) by (apply Z.pow_pos_nonneg; lia).
  set (P := 2 ^ nb) in *. set (Q := 2 ^ (32 - nb)) in *.
  assert (E : (b * Q) mod B = b mod P * Q) by (rewrite EB; apply Z.mul_mod_distr_r; lia).
  rewrite E. pose proof (Z.div_mod a P ltac:(lia)). pose proof (Z.mod_pos_bound a P HP).
  pose proof (Z.mod_pos_bound b P HP).
  assert (0 <= a / P < Q) by (split; [apply Z.div_pos; lia|apply Z.div_lt_upper_bound; lia]).
  unfold Q. rewrite lor_shifted by (unfold Q in *; lia). fold Q. split; [nia|].
  rewrite EB, Z.mul_add_distr_r. lia.
Qed.

Lemma unnormalize_spec k nb w r :
  let n := (k + 2)%nat in
  0 < nb < 32 -> Forall is_limb (limbs w) -> (n < len w)%nat ->
  Forall is_limb (limbs r) -> len r = n ->
  value w < B ^ Z.of_nat n -> value w mod 2 ^ nb = 0 ->
  exists r', unnormalize n nb w r = Some r' /\ wf r' /\ len r' = n /\ value r' * 2 ^ nb = value w.
Proof.
  cbn zeta. set (n := (k + 2)%nat). intros Hnb Ww Lw Wr Lr Hlt Hmod. unfold unnormalize.
  set (P := 2 ^ nb) in *. set (l := limbs w) in *.
  set (I := fun (d : nat) (r : BigUint) =>
    len r = n /\ Forall is_limb (limbs r) /\
    lv (limbs r) d * P + limb l 0 mod P = lv l d + limb l d mod P * B ^ Z.of_nat d).
  match goal with |- context [for_in (seq 0 (n - 1)) ?f r] =>
    destruct (for_in_seq I f (n - 1) 0 r) as (r1 & -> & (L1 & W1 & V1)) end.
  - unfold I. rewrite !lv_0. change (B ^ Z.of_nat 0) with 1. split_and!; [done..|lia].
  - intros d r1 Hd (L1 & W1 & V1). rewrite !get_limb by lia. cbn [mbind option_bind]. fold l.
    destruct (shifted_limb (limb l d) (limb l (d + 1)) nb) as (Hx & Ex); [done|by apply limb_ok..|].
    set_limb. eexists. split; [done|]. unfold I. rewrite <- length_limbs, Hset, length_insert.
    split_and!; [by rewrite length_limbs|by apply Forall_insert; [|apply limb_bound]|].
    rewrite lv_insert_S, lv_S, B_pow_S by (rewrite length_limbs; lia). fold (limb l d).
    fold P in Ex. pose proof (B_pow_pos d). nia.
  - cbn [mbind option_bind]. rewrite get_limb by lia. cbn [mbind option_bind]. fold l.
    rewrite Nat.add_0_l in V1. set (d := (n - 1)%nat) in *.
    pose proof (limb_ok l d Ww) as Hl. rewrite Z.shiftr_div_pow2 by lia. fold P.
    assert (HP : 0 < P) by (apply Z.pow_pos_nonneg; lia).
    pose proof (Z.div_mod (limb l d) P ltac:(lia)) as Ed.
    assert (Hq : 0 <= limb l d / P < B).
    { split; [apply Z.div_pos; lia|]. apply Z.div_lt_upper_bound; nia. }
    set_limb. eexists. split; [done|].
    assert (L0 : len w0 = n) by (rewrite <- length_limbs, Hset, length_insert, length_limbs; done).
    split; [split; [rewrite L0; unfold n; lia|
      rewrite Hset; by apply Forall_insert; [|apply limb_bound]]|]. split; [done|].
    assert (En : n = (d + 1)%nat) by (unfold d, n; lia).
    assert (Ew : value w = lv l n).
    { unfold value. fold l. rewrite (le_val_drop l n), high_zero; [lia|done..|].
      unfold l. rewrite length_limbs. lia. }
    assert (E0 : limb l 0 mod P = 0).
    { rewrite <- Hmod. unfold value. fold l.
      assert (Hlv : le_val l = limb l 0 + B * le_val (drop 1 l)).
      { apply (le_val_drop_S l 0). apply limb_get. unfold l. rewrite length_limbs. lia. }
      rewrite Hlv, B_eq. replace 32 with (nb + (32 - nb)) by lia. rewrite Z.pow_add_r by lia.
      fold P. rewrite <- Z.mul_assoc, Z.add_comm, Z.mul_comm, Z.add_comm, Z.mod_add by lia. done. }
    unfold value. rewrite <- (lv_all _ n) by (rewrite length_limbs; lia).
    rewrite Hset, En, lv_insert_S by (rewrite length_limbs; lia).
    fold (value w). rewrite Ew, En, lv_S. fold (limb l d). pose proof (B_pow_pos d). nia.
Qed.

(** ** Normalisation *)

Lemma msb_be u d :
  wf u -> msb u = Some d ->
  exists l, digits u = d :: l /\ is_limb d /\ Forall is_limb l /\
    value u = d * B ^ Z.of_nat (len u - 1) + be_val l /\ 0 <= be_val l < B ^ Z.of_nat (len u - 1).
Proof.
  intros W Hd. apply wf_digits in W as [_ W]. unfold msb, len in *. rewrite value_be.
  destruct (digits u) as [|d' l]; [done|]. injection Hd as ->. exists l.
  apply Forall_cons in W as [Hd W]. cbn [length]. rewrite be_val_cons.
  replace (S (length l) - 1)%nat with (length l) by lia.
  pose proof (be_val_bound _ W). done.
Qed.

Lemma normalizer_bits d :
  is_limb d -> d <> 0 ->
  let nb := leading_zeros d in
  0 <= nb < 32 /\ 2 ^ nb < B /\ B <= 2 * (d * 2 ^ nb) /\ (d + 1) * 2 ^ nb <= B.
Proof.
  intros Hd Hd0. cbn zeta. apply limb_bound in Hd. unfold leading_zeros.
  destruct (Z.eqb_spec d 0); [done|]. pose proof (Z.log2_spec d ltac:(lia)) as [H1 H2].
  pose proof (Z.log2_nonneg d).
  assert (Z.log2 d < 32) by (apply Z.log2_lt_pow2; [lia|]; rewrite <- B_eq; lia).
  assert (E : B = 2 ^ Z.succ (Z.log2 d) * 2 ^ (31 - Z.log2 d)).
  { rewrite <- Z.pow_add_r by lia. replace (_ + _) with 32 by lia. done. }
  rewrite Z.pow_succ_r in * by lia.
  assert (0 < 2 ^ (31 - Z.log2 d)) by (apply Z.pow_pos_nonneg; lia).
  set (P := 2 ^ (31 - Z.log2 d)) in *. set (L := 2 ^ Z.log2 d) in *.
  assert (0 < L) by (apply Z.pow_pos_nonneg; lia).
  rewrite E. split_and!; nia.
Qed.

(** After normalisation the divisor has as many limbs as before and a top limb of
    at least half the base. *)
Lemma normalized_divisor other d w :
  wf other -> msb other = Some d -> d <> 0 ->
  let P := 2 ^ leading_zeros d in
  wf w -> value w = value other * P ->
  wf (lstrip w) /\ value (lstrip w) = value other * P /\ len (lstrip w) = len other /\
  B <= 2 * limb (limbs (lstrip w)) (len other - 1).
Proof.
  intros Wo Hm Hd. cbn zeta. intros Ww Vw.
  destruct (msb_be other d Wo Hm) as (l & El & Hdl & Wl & Vo & Hl).
  destruct (normalizer_bits d Hdl Hd) as (Hnb & HP & Hlow & Hup).
  set (P := 2 ^ leading_zeros d) in *.
  assert (HP0 : 0 < P) by (apply Z.pow_pos_nonneg; lia).
  destruct (lstrip_spec w Ww) as (Ws & Vs & x & k & Ek & Hx).
  set (s := lstrip w) in *. set (e := (len other - 1)%nat) in *.
  assert (Hms : msb s = Some x) by (unfold msb; by rewrite Ek).
  destruct (msb_be s x Ws Hms) as (k' & Ek' & Hxl & Wk & Vs' & Hk).
  assert (k' = k) as -> by congruence. apply limb_bound in Hdl, Hxl.
  pose proof (B_pow_pos e) as He. pose proof B_pos as HB.
  assert (Hlo : B * B ^ Z.of_nat e <= 2 * value s) by (rewrite Vs, Vw, Vo; nia).
  assert (Hhi : value s < B * B ^ Z.of_nat e) by (rewrite Vs, Vw, Vo; nia).
  assert (HB4 : 4 <= B) by (unfold B, umax; lia).
  assert (Hx0 : x <> 0).
  { intros ->. rewrite Hx in * by done. assert (be_val [] = 0) as Eb by done.
    rewrite Eb in Vs'. assert (0 < B * B ^ Z.of_nat e) by nia. lia. }
  assert (Lo : (0 < len other)%nat) by apply Wo. assert (Ls : (0 < len s)%nat) by apply Ws.
  assert (Hls : len s = len other).
  { destruct (Nat.lt_trichotomy (len s - 1) e) as [Hlt|[Heq|Hgt]]; [exfalso|lia|exfalso].
    - assert (B * B ^ Z.of_nat (len s - 1) <= B ^ Z.of_nat e).
      { rewrite <- B_pow_S. apply Z.pow_le_mono_r; lia. }
      nia.
    - assert (B * B ^ Z.of_nat e <= B ^ Z.of_nat (len s - 1)).
      { rewrite <- B_pow_S. apply Z.pow_le_mono_r; lia. }
      nia. }
  rewrite Vs, Vw. split; [done|]. split; [done|]. split; [done|].
  assert (Et : limb (limbs s) e = x).
  { unfold limb. rewrite <- get_limbs. unfold get.
    rewrite usize_sub_ge by lia. cbn [mbind option_bind].
    rewrite usize_sub_ge by lia. cbn [mbind option_bind]. rewrite Ek.
    replace (len s - 1 - e)%nat with 0%nat by lia. done. }
  rewrite Et. rewrite Hls in Vs', Hk. fold e in Vs', Hk.
  assert (Hh : B = 2 * 2147483648) by done. set (h := 2147483648) in *. clearbody h.
  assert (h * B ^ Z.of_nat e <= x * B ^ Z.of_nat e + be_val k) by lia.
  assert (h < x + 1) by nia. lia.
Qed.

(** ** Division *)

Lemma value_bounds u : wf u -> 0 <= value u < B ^ Z.of_nat (len u).
Proof. intros [_ W]. rewrite <- length_limbs. by apply le_val_bound. Qed.

(** The loop over the quotient limbs. *)
Lemma div_loop_spec k m other_norm w :
  let n := (k + 2)%nat in let V := value other_norm in
  wf other_norm -> len other_norm = n -> B <= 2 * limb (limbs other_norm) (k + 1) ->
  wf w -> len w = (n + m + 1)%nat -> value w < V * B ^ Z.of_nat (m + 1) ->
  exists w' q, for_in (reverse (seq 0 (m + 1))) (div_step n other_norm)
                 (w, with_capacity (m + 1)) = Some (w', q) /\
    Forall is_limb (limbs w') /\ len w' = len w /\ wf q /\ len q = (m + 1)%nat /\
    value w' < V /\ value w = value q * V + value w'.
Proof.
  cbn zeta. set (n := (k + 2)%nat). intros Wo Lo Hn [_ Ww] Lw Hlt. set (V := value other_norm) in *.
  set (I := fun (j : nat) (st : BigUint * BigUint) =>
    Forall is_limb (limbs (fst st)) /\ len (fst st) = (n + m + 1)%nat /\
    Forall is_limb (limbs (snd st)) /\ len (snd st) = (m + 1)%nat /\
    value (fst st) < V * B ^ Z.of_nat j /\
    value w = le_val (drop j (limbs (snd st))) * B ^ Z.of_nat j * V + value (fst st)).
  destruct (for_in_seq_rev I (div_step n other_norm) (m + 1) (w, with_capacity (m + 1)))
    as ([w' q] & -> & (W & L & Wq & Lq & Hb & E)).
  - unfold I. cbn [fst snd]. rewrite <- (length_limbs (with_capacity _)), limbs_with_capacity.
    rewrite length_replicate, drop_ge by (rewrite length_replicate; lia).
    split_and!; [done..|auto with limb|lia|done|cbn; lia].
  - intros j [w' q] Hj (W & L & Wq & Lq & Hb & E). cbn [fst snd] in *.
    destruct (div_step_spec k other_norm Wo Lo Hn w' q j) as (w2 & q2 & qj & Hs & W2 & L2 & Hqj & Eq & Hb2 & E2);
      [done|lia|done|done|lia|].
    exists (w2, q2). split; [done|]. unfold I. cbn [fst snd].
    rewrite <- (length_limbs q2), Eq, length_insert, length_limbs.
    split_and!; [done|lia|by apply Forall_insert|done|done|].
    rewrite E, E2, B_pow_S.
    rewrite (le_val_drop_S _ j qj) by (apply list_lookup_insert_eq; rewrite length_limbs; lia).
    rewrite drop_insert_lt by lia. fold V. ring.
  - cbn [fst snd] in *. exists w', q. rewrite Z.pow_0_r in *. rewrite drop_0 in E.
    assert (wf q) by (split; [lia|done]). unfold value at 3. rewrite Z.mul_1_r in *.
    do 6 (split; [first [done|lia]|]). unfold value in *. lia.
Qed.


(** What [div] asks of its arguments. *)
Definition divisible (u v : BigUint) : Prop :=
  (1 < len v < len u)%nat /\ msb v <> Some 0 /\ msb u <> Some 0.

Lemma msb_Some u : wf u -> exists d, msb u = Some d.
Proof. intros [L _]. unfold msb, len in *. destruct (digits u); [cbn in *; lia|eauto]. Qed.

Lemma unnormalized_quotient U V P Q R' :
  0 < V -> 0 < P -> U * P = Q * (V * P) + R' -> 0 <= R' < V * P ->
  Q = U / V /\ R' = (U mod V) * P /\ R' mod P = 0.
Proof.
  intros HV HP E HR.
  assert (ER : R' = (U - Q * V) * P) by lia. set (x := U - Q * V) in *.
  assert (0 <= x < V) by nia.
  assert (HQ : Q = U / V) by (apply (Z.div_unique _ _ _ x); unfold x; lia).
  assert (HX : x = U mod V) by (apply (Z.mod_unique _ _ Q); unfold x; lia).
  split_and!; [done|by rewrite <- HX|]. rewrite ER. apply Z.mod_mul. lia.
Qed.

(** The division up to the final choice about the remainder. *)
Lemma div_core u v d P :
  wf u -> wf v -> (1 < len v < len u)%nat -> msb v = Some d -> d <> 0 ->
  P = 2 ^ leading_zeros d ->
  let n := len v in let m := (len u - n)%nat in
  exists un vn w q,
    mul u (from_u32 (wrapping 32 P)) = Some un /\ mul v (from_u32 (wrapping 32 P)) = Some vn /\
    for_in (reverse (seq 0 (m + 1))) (div_step n (lstrip vn))
           (lpad un (n + m + 1), with_capacity (m + 1)) = Some (w, q) /\
    Forall is_limb (limbs w) /\ len w = (n + m + 1)%nat /\ wf q /\
    value q = value u / value v /\ value w = value u mod value v * P /\ value w mod P = 0 /\
    value w < B ^ Z.of_nat n.
Proof.
  intros Wu Wv Hlen Hm Hd -> n m. destruct (msb_be v d Wv Hm) as (l & _ & Hdl & _ & Vv & Hl).
  destruct (normalizer_bits d Hdl Hd) as (Hnb & HP & Hlow & _).
  set (P := 2 ^ leading_zeros d) in *.
  assert (HP0 : 0 < P) by (apply Z.pow_pos_nonneg; lia).
  rewrite wrapping_limb_id by lia.
  destruct (from_u32_spec P) as (WP & VP); [apply limb_bound; lia|].
  destruct (mul_spec u (from_u32 P) Wu WP) as (un & Hun & Wun & Lun & Vun).
  destruct (mul_spec v (from_u32 P) Wv WP) as (vn & Hvn & Wvn & Lvn & Vvn).
  rewrite VP in Vun, Vvn. change (len (from_u32 P)) with 1%nat in *.
  destruct (normalized_divisor v d vn Wv Hm Hd Wvn Vvn) as (Ws & Vs & Ls & Hs). fold P in Vs.
  destruct (lpad_spec un (n + m + 1) Wun) as (Wl & Ll & Vl).
  pose proof (value_bounds u Wu) as Hu. apply limb_bound in Hdl.
  assert (Hv1 : B ^ Z.of_nat (n - 1) <= value v).
  { rewrite Vv. fold n. pose proof (B_pow_pos (n - 1)). nia. }
  destruct (div_loop_spec (n - 2) m (lstrip vn) (lpad un (n + m + 1))) as (w & q & Hf & Ww & Lw & Wq & _ & Hb & E);
    try done.
  - rewrite Ls. fold n. lia.
  - replace (n - 2 + 1)%nat with (len v - 1)%nat by (fold n; lia). done.
  - rewrite Ll, Lun. replace (n - 2 + 2)%nat with n by lia. unfold m. lia.
  - rewrite Vl, Vun, Vs. replace (len u) with (n - 1 + (m + 1))%nat in Hu by (unfold m; lia).
    rewrite Nat2Z.inj_add, Z.pow_add_r in Hu by lia. pose proof (B_pow_pos (m + 1)).
    assert (value u < value v * B ^ Z.of_nat (m + 1)) by nia. nia.
  - replace (n - 2 + 2)%nat with n in Hf by lia. rewrite Vl, Vun, Vs in E. rewrite Vs in Hb.
    pose proof (le_val_bound _ Ww) as Hw. fold (value w) in Hw. pose proof (B_pow_pos (n - 1)).
    destruct (unnormalized_quotient (value u) (value v) P (value q) (value w)) as (EQ & ER & EM);
      [lia|done|done|lia|].
    assert (Hws : value w < B ^ Z.of_nat n).
    { rewrite <- Vs in Hb. pose proof (value_bounds _ Ws) as Hx. rewrite Ls in Hx. fold n in Hx. lia. }
    exists un, vn, w, q. rewrite Lw, Ll, Lun. do 4 (split; [done|]).
    split; [unfold m; lia|]. done.
Qed.

(** C32: long division.  For stripped numbers with more limbs in the dividend than
    in the divisor and at least two in the divisor, [div] terminates without
    aborting and returns the Euclidean quotient and, if asked for, the Euclidean
    remainder; for all other arguments it returns [None]. *)
Theorem biguint_div_euclid (u v : BigUint) (rem : bool) :
  wf u -> wf v ->
  (divisible u v ->
   exists q r, div u v rem = Some (Some (q, r)) /\ wf q /\ value q = value u / value v /\
     (rem = true -> Forall is_limb (limbs r) /\ value r = value u mod value v)) /\
  (~ divisible u v -> div u v rem = Some None).
Proof.
  intros Wu Wv. destruct (msb_Some u Wu) as [du Hu], (msb_Some v Wv) as [d Hd].
  unfold divisible, div. rewrite Hu, Hd. cbn [mbind option_bind]. split.
  - intros (Hlen & Hd0 & Hu0). assert (d <> 0 /\ du <> 0) as [Hd1 Hu1] by (split; congruence).
    destruct (Nat.leb_spec (len v) 1); [lia|]. destruct (Z.eqb_spec d 0); [done|].
    destruct (Z.eqb_spec du 0); [done|]. destruct (Nat.leb_spec (len u) (len v)); [lia|]. cbn [orb].
    destruct (div_core u v d _ Wu Wv Hlen Hd Hd1 eq_refl)
      as (un & vn & w & q & E1 & E2 & E3 & Ww & Lw & Wq & Vq & Vw & Mw & Bw).
    rewrite E1. cbn [mbind option_bind]. rewrite E2. cbn [mbind option_bind]. rewrite E3.
    cbn [mbind option_bind].
    destruct (msb_be v d Wv Hd) as (_ & _ & Hdl & _ & _ & _).
    destruct (normalizer_bits d Hdl Hd1) as (Hnb & _).
    destruct rem; [|by eexists _, _].
    destruct (Z.ltb_spec 0 (leading_zeros d)) as [Hpos|Hz].
    + destruct (unnormalize_spec (len v - 2) (leading_zeros d) w (with_capacity (len v)))
        as (r & Hr & Wr & Lr & Vr); replace (len v - 2 + 2)%nat with (len v) in * by lia.
      * lia.
      * done.
      * lia.
      * rewrite limbs_with_capacity. auto with limb.
      * rewrite <- length_limbs, limbs_with_capacity, length_replicate. lia.
      * done.
      * done.
      * rewrite Hr. cbn [mbind option_bind]. exists q, r. split; [done|]. split; [done|].
        split; [done|]. intros _. split; [apply Wr|].
        rewrite Vw in Vr. pose proof (Z.pow_pos_nonneg 2 (leading_zeros d)). nia.
    + exists q, w. split; [done|]. split; [done|]. split; [done|]. intros _. split; [done|].
      rewrite Vw. replace (leading_zeros d) with 0 by lia. lia.
  - intros Hn. destruct (Nat.leb_spec (len v) 1); [done|].
    destruct (Z.eqb_spec d 0) as [|Hd1]; [done|].
    destruct (Z.eqb_spec du 0) as [|Hu1]; [done|].
    destruct (Nat.leb_spec (len u) (len v)); [done|]. exfalso. apply Hn.
    split_and!; [lia..|congruence|congruence].
Qed.

(** A dividend of four limbs and a divisor of two that needs normalising. *)
Lemma biguint_div_euclid_witness :
  exists q r, div {| digits := [7; 0; 5; 4294967295] |} {| digits := [3; 4294967295] |} true =
              Some (Some (q, r)) /\
    value q = (7 * B ^ 3 + 5 * B + 4294967295) / (3 * B + 4294967295) /\
    value r = (7 * B ^ 3 + 5 * B + 4294967295) mod (3 * B + 4294967295).
Proof.
  assert (W1 : wf {| digits := [7; 0; 5; 4294967295] |}).
  { apply wf_digits. split; [unfold len; cbn; lia|].
    repeat (apply Forall_cons_2; [vm_compute; split; discriminate|]). apply Forall_nil_2. }
  assert (W2 : wf {| digits := [3; 4294967295] |}).
  { apply wf_digits. split; [unfold len; cbn; lia|].
    repeat (apply Forall_cons_2; [vm_compute; split; discriminate|]). apply Forall_nil_2. }
  destruct (biguint_div_euclid _ _ true W1 W2) as [H _].
  destruct H as (q & r & E & _ & Vq & Vr).
  { split; [unfold len; cbn; lia|]. split; discriminate. }
  exists q, r. split; [exact E|]. destruct (Vr eq_refl) as [_ Vr'].
  split; [rewrite Vq|rewrite Vr']; reflexivity.
Defined.

(** The remainder of a division whose divisor is already normalised keeps all limbs
    of the normalised dividend, five instead of the two announced. *)
Lemma div_remainder_length :
  (fun x => match x with Some (Some (_, r)) => len r | _ => 0%nat end)
    (div {| digits := [1; 2; 3; 4] |} {| digits := [4294967295; 7] |} true) = 5%nat.
Proof. vm_compute. reflexivity. Qed.
