(* ===== verification/Rational.v ===== *)
(** * Rational numbers

    Model of [substrate/primitives/arithmetic/src/rational.rs]: fractions of
    128-bit numbers and of unlimited integers, compared by cross-multiplication,
    and the [MultiplyRational] trait of the primitive types. *)

From stdpp Require Import base option numbers strings.
From Stdlib Require Import ZArith Lia.
From S2P Require Import Prelude Arith128.
From S2P Require BigUint BigUintProofs.
Local Open Scope Z_scope.

(** ** MultiplyRational *)

(** The implementation by a type of twice the width. *)
Definition multiply_rational_wide (w : Z) (self n d : Z) (r : Rounding) : option Z :=
  if d =? 0 then None
  else
    let sn := wrapping (2 * w) (self * n) in
    let result := sn / d in
    let remainder := wrapping w (sn mod d) in
    result ← (if bumps r remainder d then checked_add (2 * w) result 1 else Some result);
    if umax w <? result then None else Some (wrapping w result).

Definition multiply_rational (w : Z) (self n d : Z) (r : Rounding) : option Z :=
  if w =? 128 then multiply_by_rational_with_rounding self n d r
  else multiply_rational_wide w self n d r.

(** ** Rational128 *)

Module Rational128.

Record t : Set := mk { n : Z; d : Z }.

Definition zero : t := mk 0 1.
Definition one : t := mk 1 1.
Definition is_zero (self : t) : bool := n self =? 0.
Definition from (n d : Z) : t := mk n (Z.max d 1).
Definition from_unchecked (n d : Z) : t := mk n d.

Definition to_den (self : t) (den : Z) : option t :=
  if den =? d self then Some self
  else
    n ← multiply_by_rational_with_rounding (n self) den (d self) NearestPrefDown;
    Some (mk n den).

Definition lcm (self other : t) : option Z :=
  if d self =? d other then Some (d self)
  else
    let g := gcd (d self) (d other) in
    multiply_by_rational_with_rounding (d self) (d other) g NearestPrefDown.

Definition lazy_saturating_add (self other : t) : t :=
  if is_zero other then self else mk (saturating_add 128 (n self) (n other)) (d self).
Definition lazy_saturating_sub (self other : t) : t :=
  if is_zero other then self else mk (saturating_sub (n self) (n other)) (d self).

Definition scale_error : string := "failed to scale to denominator".
Definition add_error : string := "overflow while adding numerators".
Definition sub_error : string := "overflow while subtracting numerators".

Definition add (self other : t) : outcome string t :=
  (let? lcm := ok_or scale_error (lcm self other) in
   let? self_scaled := ok_or scale_error (to_den self lcm) in
   let? other_scaled := ok_or scale_error (to_den other lcm) in
   let? n := ok_or add_error (checked_add 128 (n self_scaled) (n other_scaled)) in
   Ok (mk n (d self_scaled)))%outcome.

Definition sub (self other : t) : outcome string t :=
  (let? lcm := ok_or scale_error (lcm self other) in
   let? self_scaled := ok_or scale_error (to_den self lcm) in
   let? other_scaled := ok_or scale_error (to_den other lcm) in
   let? n := ok_or sub_error (checked_sub (n self_scaled) (n other_scaled)) in
   Ok (mk n (d self_scaled)))%outcome.

Definition min_value : t := mk 0 1.
Definition max_value : t := mk (umax 128) 1.

(** The two cross products, as unlimited integers. *)
Definition cross (self other : t) : option (BigUint.BigUint * BigUint.BigUint) :=
  self_n ← BigUint.mul (BigUint.to_big_uint (n self)) (BigUint.to_big_uint (d other));
  other_n ← BigUint.mul (BigUint.to_big_uint (n other)) (BigUint.to_big_uint (d self));
  Some (self_n, other_n).

Definition cmp (self other : t) : option comparison :=
  if d self =? d other then Some (n self ?= n other)
  else if d self =? 0 then Some Gt
  else if d other =? 0 then Some Lt
  else '(self_n, other_n) ← cross self other; Some (BigUint.cmp self_n other_n).

Definition eq (self other : t) : option bool :=
  if d self =? d other then Some (n self =? n other)
  else '(self_n, other_n) ← cross self other; Some (BigUint.eq self_n other_n).

End Rational128.

(** ** RationalInfinite *)

Module RationalInfinite.
Import BigUint.

Record t : Set := mk { n : BigUint; d : BigUint }.

(** [Ord::max] returns the second operand unless the first is greater. *)
Definition max (a b : BigUint) : BigUint :=
  match BigUint.cmp a b with Gt => a | _ => b end.

Definition from (n d : BigUint) : t := mk n (max d BigUint.one).
Definition zero : t := mk BigUint.zero BigUint.one.
Definition one : t := mk BigUint.one BigUint.one.

Definition cmp (self other : t) : option comparison :=
  if BigUint.eq (d self) (d other) then Some (BigUint.cmp (n self) (n other))
  else if BigUint.is_zero (d self) then Some Gt
  else if BigUint.is_zero (d other) then Some Lt
  else
    self_n ← BigUint.mul (n self) (d other);
    other_n ← BigUint.mul (n other) (d self);
    Some (BigUint.cmp self_n other_n).

Definition eq (self other : t) : option bool :=
  c ← cmp self other; Some (match c with Eq => true | _ => false end).

Definition from_rational128 (x : Rational128.t) : t :=
  mk (BigUint.to_big_uint (Rational128.n x)) (BigUint.to_big_uint (Rational128.d x)).

End RationalInfinite.

(** * Theorems *)

(** Widths of the primitive unsigned types. *)
Definition primitive_width (w : Z) : Prop := w = 8 \/ w = 16 \/ w = 32 \/ w = 64 \/ w = 128.

Lemma round_div_le r n d : 0 <= n -> 0 < d -> round_div r n d <= n + 1.
Proof.
  intros Hn Hd. rewrite <- bumps_round_div by done.
  assert (n / d <= n) by (apply Z.div_le_upper_bound; nia). destruct (bumps _ _ _); lia.
Qed.

Lemma multiply_rational_wide_spec w a b c r :
  0 < w -> is_uint w a -> is_uint w b -> is_uint w c ->
  multiply_rational_wide w a b c r = rational_mul w a b c r.
Proof.
  intros Hw Ha Hb Hc. unfold multiply_rational_wide, rational_mul.
  destruct (Z.eqb_spec c 0) as [->|Hc0]; [done|]. cbn [orb].
  assert (Hd : 2 ^ (2 * w) = 2 ^ w * 2 ^ w) by (rewrite <- Z.pow_add_r by lia; f_equal; lia).
  assert (Hp : 2 <= 2 ^ w) by (change 2 with (2 ^ 1) at 1; apply Z.pow_le_mono_r; lia).
  unfold is_uint, umax in *.
  rewrite (wrapping_id (2 * w)) by (unfold is_uint, umax; nia).
  pose proof (Z.mod_pos_bound (a * b) c ltac:(lia)) as Hm.
  rewrite (wrapping_id w (_ mod _)) by (unfold is_uint, umax; lia).
  rewrite <- bumps_round_div by lia.
  assert (Hq : 0 <= a * b / c <= a * b).
  { split; [apply Z.div_pos; nia|apply Z.div_le_upper_bound; nia]. }
  set (q := a * b / c) in *. assert (a * b <= (2 ^ w - 1) * (2 ^ w - 1)) by nia.
  destruct (bumps r _ c); cbn [mbind option_bind].
  - unfold checked_add, umax. destruct (Z.leb_spec (q + 1) (2 ^ (2 * w) - 1)); [|nia].
    cbn [mbind option_bind]. destruct (Z.ltb_spec (2 ^ w - 1) (q + 1)); [done|].
    rewrite wrapping_id; [done|]. unfold is_uint, umax. lia.
  - rewrite Z.add_0_r. destruct (Z.ltb_spec (2 ^ w - 1) q); [done|].
    rewrite wrapping_id; [done|]. unfold is_uint, umax. lia.
Qed.

Lemma multiply_rational_spec w a b c r :
  primitive_width w -> is_uint w a -> is_uint w b -> is_uint w c ->
  multiply_rational w a b c r = rational_mul w a b c r.
Proof.
  intros Hw Ha Hb Hc. unfold multiply_rational. destruct (Z.eqb_spec w 128) as [->|].
  - by apply multiply_by_rational_spec.
  - apply multiply_rational_wide_spec; unfold primitive_width in Hw; try done; lia.
Qed.

Module Rational128Proofs.
Import Rational128.

(** A proper fraction of 128-bit numbers. *)
Definition wf (x : t) : Prop := is_uint 128 (n x) /\ is_uint 128 (d x) /\ d x <> 0.

Lemma cross_spec a b :
  is_uint 128 (n a) -> is_uint 128 (d a) -> is_uint 128 (n b) -> is_uint 128 (d b) ->
  exists u v, cross a b = Some (u, v) /\ BigUintProofs.wf u /\ BigUintProofs.wf v /\
    BigUintProofs.value u = n a * d b /\ BigUintProofs.value v = n b * d a.
Proof.
  intros Ha1 Ha2 Hb1 Hb2. unfold cross.
  destruct (BigUintProofs.to_big_uint_spec _ Ha1) as [Wa1 Va1].
  destruct (BigUintProofs.to_big_uint_spec _ Ha2) as [Wa2 Va2].
  destruct (BigUintProofs.to_big_uint_spec _ Hb1) as [Wb1 Vb1].
  destruct (BigUintProofs.to_big_uint_spec _ Hb2) as [Wb2 Vb2].
  destruct (BigUintProofs.mul_spec _ _ Wa1 Wb2) as (u & Eu & Wu & _ & Vu).
  destruct (BigUintProofs.mul_spec _ _ Wb1 Wa2) as (v & Ev & Wv & _ & Vv).
  rewrite Eu. cbn [mbind option_bind]. rewrite Ev. cbn [mbind option_bind].
  exists u, v. split; [done|]. split; [done|]. split; [done|]. split; congruence.
Qed.

Lemma biguint_eq_spec u v :
  BigUintProofs.wf u -> BigUintProofs.wf v ->
  BigUint.eq u v = (BigUintProofs.value u =? BigUintProofs.value v).
Proof.
  intros Wu Wv. unfold BigUint.eq. rewrite BigUintProofs.cmp_spec by done.
  rewrite Z.eqb_compare. by destruct (_ ?= _).
Qed.

Lemma compare_mul_pos_r x y z : 0 < z -> (x * z ?= y * z) = (x ?= y).
Proof.
  intros Hz. destruct (Z.compare_spec x y) as [->|H|H].
  - apply Z.compare_refl.
  - apply Z.compare_lt_iff. nia.
  - apply Z.compare_gt_iff. nia.
Qed.

(** C33: the order and the equality of 128-bit fractions with non-zero
    denominators are those of the rational numbers: comparing is comparing the
    cross products, computed without overflow as unlimited integers. *)
Theorem rational_order_exact (a b : t) :
  wf a -> wf b ->
  cmp a b = Some (n a * d b ?= n b * d a) /\ eq a b = Some (n a * d b =? n b * d a).
Proof.
  intros (Ha1 & Ha2 & Ha0) (Hb1 & Hb2 & Hb0). unfold cmp, eq.
  destruct (Z.eqb_spec (d a) (d b)) as [E|Hne].
  - rewrite E in *. unfold is_uint in *.
    rewrite !Z.eqb_compare, compare_mul_pos_r by lia. done.
  - destruct (Z.eqb_spec (d a) 0); [done|]. destruct (Z.eqb_spec (d b) 0); [done|].
    destruct (cross_spec a b) as (u & v & -> & Wu & Wv & Vu & Vv); [done..|].
    cbn [mbind option_bind].
    by rewrite BigUintProofs.cmp_spec, biguint_eq_spec, Vu, Vv by done.
Qed.

(** Fractions whose cross products need more than 128 bits. *)
Lemma rational_order_exact_witness :
  cmp (mk (2 ^ 128 - 1) (2 ^ 128 - 2)) (mk (2 ^ 128 - 2) (2 ^ 128 - 3)) = Some Lt.
Proof.
  destruct (rational_order_exact (mk (2 ^ 128 - 1) (2 ^ 128 - 2)) (mk (2 ^ 128 - 2) (2 ^ 128 - 3)))
    as [-> _]; [vm_compute; split_and!; discriminate..|reflexivity].
Defined.

(** ** Sums *)

(** Scaling to a multiple of the denominator is exact. *)
Lemma to_den_multiple a den :
  wf a -> is_uint 128 den -> (d a | den) -> den <> 0 ->
  to_den a den =
  if umax 128 <? n a * (den / d a) then None else Some (mk (n a * (den / d a)) den).
Proof.
  intros ((Hn1 & Hn2) & Hd & Hd0) Hden [k ->] Hk0. unfold to_den.
  rewrite Z.div_mul by done. destruct (Z.eqb_spec (k * d a) (d a)) as [E|Hne].
  - assert (k = 1) as -> by nia. rewrite Z.mul_1_r, Z.mul_1_l.
    destruct (Z.ltb_spec (umax 128) (n a)); [lia|]. by destruct a.
  - rewrite multiply_by_rational_spec by (done || by split).
    unfold rational_mul. destruct (Z.eqb_spec (d a) 0); [done|]. cbn [orb].
    assert (E : round_div NearestPrefDown (n a * (k * d a)) (d a) = n a * k).
    { cbn [round_div]. unfold is_uint in Hd. apply div_eq_bounds; nia. }
    rewrite E. destruct (_ <? _); done.
Qed.

Lemma lcm_spec a b :
  wf a -> wf b ->
  lcm a b = if umax 128 <? Z.lcm (d a) (d b) then None else Some (Z.lcm (d a) (d b)).
Proof.
  intros (_ & Ha & Ha0) (_ & Hb & Hb0). unfold lcm. unfold is_uint in Ha, Hb.
  destruct (Z.eqb_spec (d a) (d b)) as [E|Hne].
  - rewrite E, Z.lcm_diag, Z.abs_eq by lia. destruct (Z.ltb_spec (umax 128) (d b)); [lia|done].
  - rewrite gcd_spec by done.
    pose proof (Z.gcd_nonneg (d a) (d b)) as Hg.
    assert (Hg0 : Z.gcd (d a) (d b) <> 0) by (intros E; apply Z.gcd_eq_0 in E; lia).
    pose proof (gcd_le_r (d a) (d b)) as Hgle.
    rewrite multiply_by_rational_spec by (unfold is_uint; lia). unfold rational_mul.
    destruct (Z.eqb_spec (Z.gcd (d a) (d b)) 0); [done|]. cbn [orb].
    assert (E : round_div NearestPrefDown (d a * d b) (Z.gcd (d a) (d b)) = Z.lcm (d a) (d b)).
    { unfold Z.lcm. destruct (Z.gcd_divide_r (d a) (d b)) as [k Hk].
      set (g := Z.gcd (d a) (d b)) in *. rewrite Hk at 2. rewrite Z.div_mul by done.
      rewrite Z.abs_eq by nia. cbn [round_div]. apply div_eq_bounds; [lia|]. rewrite Hk. nia. }
    rewrite E. done.
Qed.

(** The sum over the least common denominator. *)
Definition exact_add (a b : t) : outcome string t :=
  let l := Z.lcm (d a) (d b) in
  let na := n a * (l / d a) in
  let nb := n b * (l / d b) in
  if (umax 128 <? l) || (umax 128 <? na) || (umax 128 <? nb) then Err scale_error
  else if umax 128 <? na + nb then Err add_error
  else Ok (mk (na + nb) l).

Lemma lcm_facts a b :
  wf a -> wf b ->
  let l := Z.lcm (d a) (d b) in (d a | l) /\ (d b | l) /\ 0 < l.
Proof.
  intros (_ & Ha & Ha0) (_ & Hb & Hb0). cbn zeta. split; [apply Z.divide_lcm_l|].
  split; [apply Z.divide_lcm_r|]. pose proof (Z.lcm_nonneg (d a) (d b)).
  assert (Z.lcm (d a) (d b) <> 0); [|lia]. rewrite Z.lcm_eq_0. lia.
Qed.

(** [checked_add] and its error cases.  The sum of two fractions is computed
    over the least common multiple of the denominators without rounding; an
    error is returned exactly when that denominator, a scaled numerator or the
    sum does not fit in 128 bits, and a returned fraction equals the sum of the
    arguments. *)
Theorem rational_add_exact (a b : t) :
  wf a -> wf b ->
  add a b = exact_add a b /\
  (forall c, add a b = Ok c -> n c * (d a * d b) = (n a * d b + n b * d a) * d c).
Proof.
  intros Wa Wb. destruct (lcm_facts a b Wa Wb) as (Da & Db & Hl).
  assert (E : add a b = exact_add a b).
  { unfold add, exact_add. rewrite lcm_spec by done. set (l := Z.lcm (d a) (d b)) in *.
    destruct (Z.ltb_spec (umax 128) l) as [|Hle]; [done|]. cbn [ok_or obind orb].
    rewrite (to_den_multiple a), (to_den_multiple b) by (done || unfold is_uint; lia).
    destruct (Z.ltb_spec (umax 128) (n a * (l / d a))); [done|]. cbn [ok_or obind orb].
    destruct (Z.ltb_spec (umax 128) (n b * (l / d b))); [done|]. cbn [ok_or obind orb n d].
    unfold checked_add. rewrite Z.ltb_antisym.
    destruct (_ <=? _); done. }
  split; [done|]. intros c Hc. rewrite E in Hc. unfold exact_add in Hc.
  destruct (_ || _); [done|]. destruct (_ <? _); [done|]. injection Hc as <-. cbn [n d].
  destruct Wa as (_ & _ & Ha0), Wb as (_ & _ & Hb0).
  set (l := Z.lcm (d a) (d b)) in *.
  assert (Ea : l / d a * d a = l) by (destruct Da as [k ->]; by rewrite Z.div_mul).
  assert (Eb : l / d b * d b = l) by (destruct Db as [k ->]; by rewrite Z.div_mul).
  transitivity (n a * d b * (l / d a * d a) + n b * d a * (l / d b * d b)); [ring|].
  rewrite Ea, Eb. ring.
Qed.

(** One sixth and one tenth. *)
Lemma rational_add_exact_witness : add (mk 1 6) (mk 1 10) = Ok (mk 8 30).
Proof.
  destruct (rational_add_exact (mk 1 6) (mk 1 10)) as [-> _];
    [vm_compute; split_and!; discriminate..|reflexivity].
Defined.

(** ** Deviations from the documentation *)

(** [to_den] is documented to return only accurate results, yet it rounds: a
    third over the denominator two becomes a half. *)
Lemma to_den_rounds : to_den (mk 1 3) 2 = Some (mk 1 2).
Proof. vm_compute. reflexivity. Qed.

(** For the unchecked fraction zero over zero, equality and order disagree: it is
    equal to every fraction with another denominator and yet greater. *)
Lemma zero_over_zero_incoherent :
  eq (from_unchecked 0 0) (mk 3 5) = Some true /\ cmp (from_unchecked 0 0) (mk 3 5) = Some Gt.
Proof. vm_compute. split; reflexivity. Qed.
End Rational128Proofs.

Module RationalInfiniteProofs.
Import BigUintProofs.

Lemma forallb_zero l : forallb (fun d => d =? 0) l = true <-> Forall (fun d => d = 0) l.
Proof.
  induction l as [|x l IH]; cbn [forallb]; [by split|].
  rewrite andb_true_iff, IH, Forall_cons, Z.eqb_eq. done.
Qed.

Lemma is_zero_spec u : wf u -> BigUint.is_zero u = (value u =? 0).
Proof.
  intros W. apply wf_digits in W as [_ W]. rewrite value_be. unfold BigUint.is_zero.
  destruct (BigUint.first_nonzero (BigUint.digits u)) as [i|] eqn:E.
  - destruct (first_nonzero_Some _ _ E) as (x & Hd & Hx & Ht & Hi).
    rewrite <- (drop_zeros _ _ Ht). pose proof (Forall_drop _ i _ W) as W'.
    rewrite Hd in *. pose proof (be_val_nonzero _ _ W' Hx).
    destruct (Z.eqb_spec (be_val (x :: drop (S i) (BigUint.digits u))) 0); [lia|].
    apply not_true_is_false. intros HF%forallb_zero. apply (Forall_drop _ i) in HF.
    rewrite Hd in HF. by apply Forall_cons in HF as [? _].
  - apply first_nonzero_None in E as E'. apply zeros_replicate in E'.
    rewrite E' at 2. rewrite <- (app_nil_r (replicate _ _)), be_val_zeros.
    change (be_val [] =? 0) with true. by apply forallb_zero, first_nonzero_None.
Qed.

Lemma infinite_cmp_spec (a b : RationalInfinite.t) :
  wf (RationalInfinite.n a) -> wf (RationalInfinite.d a) ->
  wf (RationalInfinite.n b) -> wf (RationalInfinite.d b) ->
  value (RationalInfinite.d a) <> 0 -> value (RationalInfinite.d b) <> 0 ->
  RationalInfinite.cmp a b =
  Some (value (RationalInfinite.n a) * value (RationalInfinite.d b) ?=
        value (RationalInfinite.n b) * value (RationalInfinite.d a)).
Proof.
  intros Wna Wda Wnb Wdb Ha Hb. unfold RationalInfinite.cmp.
  rewrite Rational128Proofs.biguint_eq_spec, !is_zero_spec, !cmp_spec by done.
  destruct (Z.eqb_spec (value (RationalInfinite.d a)) (value (RationalInfinite.d b))) as [E|Hne].
  - rewrite E, Rational128Proofs.compare_mul_pos_r; [done|].
    destruct Wdb as [_ W]. pose proof (le_val_bound _ W). unfold value in *. lia.
  - destruct (Z.eqb_spec (value (RationalInfinite.d a)) 0); [done|].
    destruct (Z.eqb_spec (value (RationalInfinite.d b)) 0); [done|].
    destruct (mul_spec _ _ Wna Wdb) as (u & -> & Wu & _ & Vu). cbn [mbind option_bind].
    destruct (mul_spec _ _ Wnb Wda) as (v & -> & Wv & _ & Vv). cbn [mbind option_bind].
    by rewrite cmp_spec, Vu, Vv.
Qed.

(** Fractions of unlimited integers are ordered as rational numbers, and the
    embedding of 128-bit fractions preserves and reflects the order and the
    equality. *)
Theorem rational_infinite_embedding (a b : Rational128.t) :
  Rational128Proofs.wf a -> Rational128Proofs.wf b ->
  RationalInfinite.cmp (RationalInfinite.from_rational128 a) (RationalInfinite.from_rational128 b) =
    Some (Rational128.n a * Rational128.d b ?= Rational128.n b * Rational128.d a) /\
  RationalInfinite.eq (RationalInfinite.from_rational128 a) (RationalInfinite.from_rational128 b) =
    Some (Rational128.n a * Rational128.d b =? Rational128.n b * Rational128.d a).
Proof.
  intros (Ha1 & Ha2 & Ha0) (Hb1 & Hb2 & Hb0).
  destruct (to_big_uint_spec _ Ha1) as [Wa1 Va1], (to_big_uint_spec _ Ha2) as [Wa2 Va2].
  destruct (to_big_uint_spec _ Hb1) as [Wb1 Vb1], (to_big_uint_spec _ Hb2) as [Wb2 Vb2].
  unfold RationalInfinite.eq. rewrite infinite_cmp_spec
    by (unfold RationalInfinite.from_rational128;
        cbn [RationalInfinite.n RationalInfinite.d]; rewrite ?Va2, ?Vb2; done).
  cbn [RationalInfinite.from_rational128 RationalInfinite.n RationalInfinite.d mbind option_bind].
  rewrite Va1, Va2, Vb1, Vb2, Z.eqb_compare. split; [done|]. by destruct (_ ?= _).
Qed.

(** Two thirds and four sixths. *)
Lemma rational_infinite_embedding_witness :
  RationalInfinite.eq (RationalInfinite.from_rational128 (Rational128.mk 2 3))
                      (RationalInfinite.from_rational128 (Rational128.mk 4 6)) = Some true.
Proof.
  destruct (rational_infinite_embedding (Rational128.mk 2 3) (Rational128.mk 4 6)) as [_ ->];
    [vm_compute; split_and!; discriminate..|reflexivity].
Defined.
End RationalInfiniteProofs.
