(* ===== verification/Traits.v ===== *)
(** * Numeric traits

    Model of [substrate/primitives/arithmetic/src/traits.rs]: the saturating
    operations and conversions, and the [ensure_*] operations that say which
    error occurred, for every primitive integer type, signed or not.
    [checked_pow] is the one of the [num_traits] crate: a parameter. *)

From stdpp Require Import base option numbers.
From Stdlib Require Import ZArith Lia.
From S2P Require Import Prelude.
Local Open Scope Z_scope.

(** A primitive integer type: its bounds. *)
Record IntTy : Set := { min_value : Z; max_value : Z }.

Definition unsigned (w : Z) : IntTy := {| min_value := 0; max_value := umax w |}.
Definition signed (w : Z) : IntTy := {| min_value := - 2 ^ (w - 1); max_value := 2 ^ (w - 1) - 1 |}.

Definition fits (T : IntTy) (x : Z) : bool := (min_value T <=? x) && (x <=? max_value T).
Abbreviation in_range T x := (min_value T <= x <= max_value T).

(** The bounds of a primitive type: unsigned or in two's complement. *)
Definition int_type (T : IntTy) : Prop :=
  0 < max_value T /\ (min_value T = 0 \/ min_value T = - (max_value T + 1)).

(** [CheckedAdd], [CheckedSub], [CheckedMul], [CheckedDiv] and [TryFrom] of the
    primitive types. *)
Definition checked (T : IntTy) (x : Z) : option Z := if fits T x then Some x else None.
Definition int_checked_add (T : IntTy) (a b : Z) : option Z := checked T (a + b).
Definition int_checked_sub (T : IntTy) (a b : Z) : option Z := checked T (a - b).
Definition int_checked_mul (T : IntTy) (a b : Z) : option Z := checked T (a * b).
Definition int_checked_div (T : IntTy) (a b : Z) : option Z :=
  if b =? 0 then None else checked T (Z.quot a b).
Definition try_from (T : IntTy) (x : Z) : option Z := checked T x.

(** The value of the type closest to [x]. *)
Definition clamp (T : IntTy) (x : Z) : Z := Z.max (min_value T) (Z.min (max_value T) x).

(** ** Saturating operations *)

Definition unique_saturated_from (T : IntTy) (t : Z) : Z := default (max_value T) (try_from T t).
Definition unique_saturated_into (T : IntTy) (self : Z) : Z := default (max_value T) (try_from T self).

(** [num_traits::Saturating] of the primitive types. *)
Definition int_saturating_add (T : IntTy) (a b : Z) : Z := clamp T (a + b).
Definition int_saturating_sub (T : IntTy) (a b : Z) : Z := clamp T (a - b).

Definition int_saturating_mul (T : IntTy) (self o : Z) : Z :=
  match int_checked_mul T self o with
  | Some x => x
  | None => if negb (Bool.eqb (self <? 0) (o <? 0)) then min_value T else max_value T
  end.

Definition saturating_inc (T : IntTy) (self : Z) : Z := int_saturating_add T self 1.
Definition saturating_dec (T : IntTy) (self : Z) : Z := int_saturating_sub T self 1.
Definition saturating_less_one (T : IntTy) (self : Z) : Z := saturating_dec T self.
Definition saturating_plus_one (T : IntTy) (self : Z) : Z := saturating_inc T self.
Definition saturating_accrue (T : IntTy) (self amount : Z) : Z := int_saturating_add T self amount.
Definition saturating_reduce (T : IntTy) (self amount : Z) : Z := int_saturating_sub T self amount.

(** ** [mod ensure] *)

Inductive ArithmeticError : Set := Underflow | Overflow | DivisionByZero.

Inductive Signum : Set := Negative | Positive.

Definition signum_from (value : Z) : Signum := if value <? 0 then Negative else Positive.
Definition signum_mul (self rhs : Signum) : Signum :=
  match self, rhs with
  | Negative, Negative | Positive, Positive => Positive
  | _, _ => Negative
  end.

Definition equivalent (r : Z) : ArithmeticError :=
  match signum_from r with Negative => Underflow | Positive => Overflow end.
Definition inverse (r : Z) : ArithmeticError :=
  match signum_from r with Negative => Overflow | Positive => Underflow end.
Definition multiplication (l r : Z) : ArithmeticError :=
  match signum_mul (signum_from l) (signum_from r) with
  | Negative => Underflow
  | Positive => Overflow
  end.
Definition division (n d : Z) : ArithmeticError :=
  if d =? 0 then DivisionByZero else multiplication n d.

Definition ensure_add_assign (T : IntTy) (self v : Z) : outcome ArithmeticError Z :=
  ok_or (equivalent v) (int_checked_add T self v).
Definition ensure_sub_assign (T : IntTy) (self v : Z) : outcome ArithmeticError Z :=
  ok_or (inverse v) (int_checked_sub T self v).
Definition ensure_mul_assign (T : IntTy) (self v : Z) : outcome ArithmeticError Z :=
  ok_or (multiplication self v) (int_checked_mul T self v).
Definition ensure_div_assign (T : IntTy) (self v : Z) : outcome ArithmeticError Z :=
  ok_or (division self v) (int_checked_div T self v).

Definition ensure_add := ensure_add_assign.
Definition ensure_sub := ensure_sub_assign.
Definition ensure_mul := ensure_mul_assign.
Definition ensure_div := ensure_div_assign.

Definition ensure_from (T : IntTy) (other : Z) : outcome ArithmeticError Z :=
  ok_or (equivalent other) (try_from T other).
Definition ensure_into (T : IntTy) (self : Z) : outcome ArithmeticError Z :=
  ok_or (equivalent self) (try_from T self).

Section pow.
(** [num_traits::checked_pow]: its type, base and exponent. *)
Context (checked_pow : IntTy -> Z -> Z -> option Z).

Definition int_saturating_pow (T : IntTy) (self exp : Z) : Z :=
  let neg := (self <? 0) && negb (exp mod 2 =? 0) in
  match checked_pow T self exp with
  | Some x => x
  | None => if neg then min_value T else max_value T
  end.

Definition ensure_pow (T : IntTy) (base exp : Z) : outcome ArithmeticError Z :=
  ok_or Overflow (checked_pow T base exp).
End pow.

(** What the crate documents of [checked_pow]: the power, or [None] when it
    overflows. *)
Class CheckedPow (checked_pow : IntTy -> Z -> Z -> option Z) : Prop :=
  checked_pow_spec : forall T a e, int_type T -> in_range T a -> 0 <= e ->
    checked_pow T a e = checked T (a ^ e).

(** * Correctness *)

Lemma checked_spec T x :
  (in_range T x /\ checked T x = Some x) \/
  (x < min_value T /\ checked T x = None) \/ (max_value T < x /\ checked T x = None).
Proof.
  unfold checked, fits.
  destruct (Z.leb_spec (min_value T) x), (Z.leb_spec x (max_value T)); cbn; auto.
Qed.

Lemma checked_clamp T x : in_range T x -> checked T x = Some (clamp T x).
Proof. intros. destruct (checked_spec T x) as [[_ ->]|?]; [|lia]. f_equal. unfold clamp. lia. Qed.

Lemma unsigned_int_type w : 0 < w -> int_type (unsigned w).
Proof.
  intros. unfold int_type, unsigned, umax. cbn.
  pose proof (Z.pow_le_mono_r 2 1 w ltac:(lia) ltac:(lia)). lia.
Qed.

Lemma signed_int_type w : 1 < w -> int_type (signed w).
Proof.
  intros. unfold int_type, signed. cbn.
  pose proof (Z.pow_le_mono_r 2 1 (w - 1) ltac:(lia) ltac:(lia)). lia.
Qed.

Lemma saturating_mul_clamp T a b :
  int_type T -> in_range T a -> in_range T b -> int_saturating_mul T a b = clamp T (a * b).
Proof.
  intros [HT1 HT2] Ha Hb. unfold int_saturating_mul, int_checked_mul.
  destruct (checked_spec T (a * b)) as [[? ->]|[[? ->]|[? ->]]]; unfold clamp; [lia|..];
    destruct (Z.ltb_spec a 0), (Z.ltb_spec b 0); cbn; nia.
Qed.

Lemma pow_sign a e : 0 <= e -> a < 0 -> (e mod 2 = 0 -> 0 < a ^ e) /\ (e mod 2 <> 0 -> a ^ e < 0).
Proof.
  intros He Ha. pose proof (Z.div_mod e 2 ltac:(lia)) as Hd.
  pose proof (Z.mod_pos_bound e 2 ltac:(lia)). pose proof (Z.div_pos e 2 He ltac:(lia)).
  assert (Hsq : 0 < a ^ (2 * (e / 2))).
  { rewrite Z.pow_mul_r by lia. apply Z.pow_pos_nonneg; [|lia]. rewrite Z.pow_2_r. nia. }
  assert (Hpow : a ^ e = a ^ (2 * (e / 2)) * a ^ (e mod 2)).
  { rewrite <- Z.pow_add_r by lia. f_equal. done. }
  rewrite Hpow. split; intros Hm.
  - rewrite Hm, Z.pow_0_r. lia.
  - replace (e mod 2) with 1 by lia. rewrite Z.pow_1_r. nia.
Qed.

Lemma saturating_pow_clamp checked_pow `{!CheckedPow checked_pow} T a e :
  int_type T -> in_range T a -> 0 <= e ->
  int_saturating_pow checked_pow T a e = clamp T (a ^ e).
Proof.
  intros HT Ha He. pose proof HT as [HT1 HT2]. unfold int_saturating_pow.
  rewrite checked_pow_spec by done. pose proof (pow_sign a e He). pose proof (Z.pow_nonneg a e).
  destruct (checked_spec T (a ^ e)) as [[? ->]|[[? ->]|[? ->]]]; unfold clamp; [lia|..];
    destruct (Z.ltb_spec a 0), (Z.eqb_spec (e mod 2) 0); cbn; lia.
Qed.

(** The result an [ensure_*] operation owes for the exact result [x]. *)
Definition exact (T : IntTy) (x : Z) : outcome ArithmeticError Z :=
  if x <? min_value T then Err Underflow
  else if max_value T <? x then Err Overflow
  else Ok x.

Lemma checked_exact T x e :
  (x < min_value T -> e = Underflow) -> (max_value T < x -> e = Overflow) ->
  ok_or e (checked T x) = exact T x.
Proof.
  intros Hlo Hhi. unfold exact.
  destruct (checked_spec T x) as [[? ->]|[[? ->]|[? ->]]]; cbn;
    destruct (Z.ltb_spec x (min_value T)), (Z.ltb_spec (max_value T) x); try lia; try done;
    f_equal; auto.
Qed.

Lemma quot_overflow T a v :
  int_type T -> in_range T a -> in_range T v -> v <> 0 ->
  in_range T (Z.quot a v) \/ (max_value T < Z.quot a v /\ a < 0 /\ v < 0).
Proof.
  intros [HT1 HT2] Ha Hvr Hv. rewrite Z.quot_div by done.
  assert (Hq : 0 <= Z.abs a / Z.abs v <= Z.abs a).
  { split; [apply Z.div_pos; lia|]. apply Z.div_le_upper_bound; nia. }
  destruct (Z.sgn_spec a) as [[? ->]|[[? ->]|[? ->]]],
    (Z.sgn_spec v) as [[? ->]|[[? ->]|[? ->]]]; lia.
Qed.

(** The [ensure_*] operations return the exact result when it fits the
    type, whatever the type, and otherwise name the error that occurred:
    [Overflow] exactly above the maximum, [Underflow] exactly below the minimum
    and [DivisionByZero] exactly for a zero divisor. *)
Theorem ensure_classifies (T : IntTy) (a v : Z) :
  int_type T -> in_range T a -> in_range T v ->
  ensure_add T a v = exact T (a + v) /\
  ensure_sub T a v = exact T (a - v) /\
  ensure_mul T a v = exact T (a * v) /\
  ensure_div T a v = (if v =? 0 then Err DivisionByZero else exact T (Z.quot a v)) /\
  (forall T', int_type T' -> ensure_from T' a = exact T' a /\ ensure_into T' a = exact T' a).
Proof.
  intros HT Ha Hv. pose proof HT as [HT1 HT2].
  unfold ensure_add, ensure_sub, ensure_mul, ensure_div.
  unfold ensure_add_assign, ensure_sub_assign, ensure_mul_assign, ensure_div_assign, int_checked_div.
  unfold division, equivalent, inverse, multiplication, signum_from.
  split_and!; [apply checked_exact..| |].
  all: try (destruct (Z.ltb_spec v 0); intros; (done || lia)).
  - destruct (Z.ltb_spec a 0), (Z.ltb_spec v 0); intros; (done || nia).
  - destruct (Z.ltb_spec a 0), (Z.ltb_spec v 0); intros; (done || nia).
  - destruct (Z.eqb_spec v 0); [done|].
    destruct (quot_overflow T a v) as [?|(? & ? & ?)]; [done..| |]; apply checked_exact;
      destruct (Z.ltb_spec a 0), (Z.ltb_spec v 0); intros; (done || lia).
  - intros T' [? ?]. unfold ensure_from, ensure_into, equivalent, signum_from.
    split; apply checked_exact; destruct (Z.ltb_spec a 0); intros; (done || lia).
Qed.

(** The saturating operations return the value of the type closest to the
    exact product or power, for signed types and negative bases as well; a
    saturating conversion does so from above only: a value below the minimum
    becomes the maximum. *)
Theorem saturating_ops_clamp (checked_pow : IntTy -> Z -> Z -> option Z) (T : IntTy) (a b e : Z) :
  CheckedPow checked_pow -> int_type T -> in_range T a -> in_range T b -> 0 <= e ->
  int_saturating_mul T a b = clamp T (a * b) /\
  int_saturating_pow checked_pow T a e = clamp T (a ^ e) /\
  (forall t, unique_saturated_from T t = (if t <? min_value T then max_value T else clamp T t)).
Proof.
  intros Hpow HT Ha Hb He. split_and!.
  - by apply saturating_mul_clamp.
  - by apply saturating_pow_clamp.
  - intros t. unfold unique_saturated_from, try_from.
    destruct (checked_spec T t) as [[? ->]|[[? ->]|[? ->]]]; cbn; unfold clamp;
      destruct (Z.ltb_spec t (min_value T)); destruct HT; lia.
Qed.

(** ** Witnesses *)

Lemma ensure_classifies_witness :
  ensure_sub (signed 8) (-128) 1 = Err Underflow /\ ensure_div (signed 8) (-128) (-1) = Err Overflow.
Proof.
  split.
  - exact (proj1 (proj2 (ensure_classifies (signed 8) (-128) 1
             ltac:(apply signed_int_type; lia) ltac:(cbn; lia) ltac:(cbn; lia)))).
  - exact (proj1 (proj2 (proj2 (proj2 (ensure_classifies (signed 8) (-128) (-1)
             ltac:(apply signed_int_type; lia) ltac:(cbn; lia) ltac:(cbn; lia)))))).
Defined.

(** A [checked_pow] as documented. *)
Definition reference_checked_pow (T : IntTy) (a e : Z) : option Z := checked T (a ^ e).

Lemma saturating_ops_clamp_witness :
  int_saturating_pow reference_checked_pow (signed 8) (-3) 5 = -128.
Proof.
  assert (H : CheckedPow reference_checked_pow) by (intros ? ? ? _ _ _; reflexivity).
  exact (proj1 (proj2 (saturating_ops_clamp reference_checked_pow (signed 8) (-3) 2 5
           H ltac:(apply signed_int_type; lia) ltac:(cbn; lia) ltac:(cbn; lia) ltac:(lia)))).
Defined.
