(* ===== verification/PerThing.v ===== *)
(** * Parts per thing

    Model of [substrate/primitives/arithmetic/src/per_things.rs]: the fixed point
    fractions of the unit interval [Percent], [PerU16], [Permill], [Perbill] and
    [Perquintill], generated by one macro over the accuracy, the inner and the
    upper integer type.  A value is its number of parts.  Plain [+] and [-] wrap
    as in a release build; operations that abort in every build return
    [None]. *)

From stdpp Require Import base option numbers.
From Stdlib Require Import ZArith Lia.
From S2P Require Import Prelude Arith128 Rational.
Local Open Scope Z_scope.

(** The arguments of [implement_per_thing!]: [$max] and the widths of [$type] and
    [$upper_type]. *)
Record PerThing : Set := { ACCURACY : Z; Inner : Z; Upper : Z }.

Definition Percent : PerThing := {| ACCURACY := 100; Inner := 8; Upper := 16 |}.
Definition PerU16 : PerThing := {| ACCURACY := 65535; Inner := 16; Upper := 32 |}.
Definition Permill : PerThing := {| ACCURACY := 1000000; Inner := 32; Upper := 64 |}.
Definition Perbill : PerThing := {| ACCURACY := 1000000000; Inner := 32; Upper := 64 |}.
Definition Perquintill : PerThing :=
  {| ACCURACY := 1000000000000000000; Inner := 64; Upper := 128 |}.

(** [saturated_into] an unsigned type of width [w]. *)
Definition saturated_into (w x : Z) : Z := Z.min (umax w) x.

Section per_thing.
Context (P : PerThing).

Definition from_parts (parts : Z) : Z := Z.min parts (ACCURACY P).
Definition zero : Z := from_parts 0.
Definition one : Z := from_parts (ACCURACY P).
Definition is_zero (self : Z) : bool := self =? 0.
Definition is_one (self : Z) : bool := self =? ACCURACY P.

Definition less_epsilon (self : Z) : Z :=
  if is_zero self then self else from_parts (self - 1).
Definition try_less_epsilon (self : Z) : outcome Z Z :=
  if is_zero self then Err self else Ok (from_parts (self - 1)).
Definition plus_epsilon (self : Z) : Z :=
  if is_one self then self else from_parts (self + 1).
Definition try_plus_epsilon (self : Z) : outcome Z Z :=
  if is_one self then Err self else Ok (from_parts (self + 1)).

(** [from_rational_with_rounding] over a number type of width [w]. *)
Definition from_rational_with_rounding (w p q : Z) (r : Rounding) : outcome unit Z :=
  if q =? 0 then Err tt
  else if q <? p then Err tt
  else
    match multiply_rational w (ACCURACY P) p q r with
    | None => Err tt
    | Some x => if x <=? umax (Inner P) then Ok x else Err tt
    end.

Definition from_rational (w p q : Z) : Z :=
  match from_rational_with_rounding w p q Down with
  | Ok x => x
  | _ => one
  end.

(** [from_percent] and [from_perthousand], computed in the upper type. *)
Definition from_percent (x : Z) : Z :=
  wrapping (Inner P) (wrapping (Upper P) (Z.min x 100 * ACCURACY P) / 100).
Definition from_perthousand (x : Z) : Z :=
  wrapping (Inner P) (wrapping (Upper P) (Z.min x 1000 * ACCURACY P) / 1000).

Definition square (self : Z) : Z :=
  from_rational (Upper P) (wrapping (Upper P) (self * self))
                (wrapping (Upper P) (ACCURACY P * ACCURACY P)).

Definition rational_mul_correction (x numer denom : Z) (rounding : Rounding) : option Z :=
  if denom =? 0 then None
  else
    let rem := x mod denom in
    let rem_inner := saturated_into (Inner P) rem in
    let rem_mul_upper := wrapping (Upper P) (rem_inner * numer) in
    let rem_mul_div_inner := saturated_into (Inner P) (rem_mul_upper / denom) in
    Some (if bumps rounding (rem_mul_upper mod denom) denom
          then wrapping (Inner P) (rem_mul_div_inner + 1)
          else rem_mul_div_inner).

(** [None] for a zero [part]: the division by it aborts. *)
Definition saturating_reciprocal_mul (w x part : Z) (rounding : Rounding) : option Z :=
  c ← rational_mul_correction x (ACCURACY P) part rounding;
  Some (saturating_add w (saturating_mul w (x / part) (ACCURACY P)) c).

Definition overflow_prune_mul (w x part : Z) (rounding : Rounding) : option Z :=
  c ← rational_mul_correction x part (ACCURACY P) rounding;
  Some (wrapping w (wrapping w (x / ACCURACY P * part) + c)).

Definition mul_floor (w self b : Z) : option Z := overflow_prune_mul w b self Down.
Definition mul_ceil (w self b : Z) : option Z := overflow_prune_mul w b self Up.
(** [ops::Mul<N>]. *)
Definition mul_n (w self b : Z) : option Z := overflow_prune_mul w b self NearestPrefDown.

Definition reciprocal_mul (w self b : Z) : option Z :=
  saturating_reciprocal_mul w b self NearestPrefUp.
Definition reciprocal_mul_floor (w self b : Z) : option Z :=
  saturating_reciprocal_mul w b self Down.
Definition reciprocal_mul_ceil (w self b : Z) : option Z :=
  saturating_reciprocal_mul w b self Up.

Definition int_mul (self b : Z) : Z := from_parts (saturating_mul (Inner P) self b).
Definition int_div (self b : Z) : option Z := if b =? 0 then None else Some (self / b).

Definition saturating_div (self rhs : Z) (r : Rounding) : Z :=
  match from_rational_with_rounding (Inner P) self rhs r with
  | Ok x => x
  | _ => one
  end.

Definition pt_saturating_add (self rhs : Z) : Z :=
  from_parts (saturating_add (Inner P) self rhs).
Definition pt_saturating_sub (self rhs : Z) : Z := from_parts (saturating_sub self rhs).
Definition left_from_one (self : Z) : Z := pt_saturating_sub one self.

(** [Decode]: the decoded inner value; the compact decoding saturates. *)
Definition decode (inner : Z) : option Z := if inner <=? ACCURACY P then Some inner else None.
Definition decode_compact (inner : Z) : Z := from_parts inner.

(** [ops::Mul]. *)
Definition mul (self rhs : Z) : Z :=
  from_parts (wrapping (Inner P) (wrapping (Upper P) (self * rhs) / ACCURACY P)).

(** The loop of [pow]: halving the exponent, at most one round per bit of it. *)
Fixpoint pow_loop (fuel : nat) (self result exp : Z) : Z :=
  match fuel with
  | O => result
  | S fuel =>
    if (0 <? exp) && negb (is_zero result) then
      let '(result, exp) :=
        if negb (exp mod 2 =? 0) then (mul result self, exp - 1) else (result, exp) in
      pow_loop fuel (square self) result (exp / 2)
    else result
  end.

Definition pow (self exp : Z) : Z :=
  if (exp =? 0) || is_one self then one else pow_loop 64 self self (exp - 1).

(** [ops::Div]; [ops::Div<N>], where a divisor that does not fit counts as
    infinite. *)
Definition div (self rhs : Z) : Z := from_rational (Inner P) self rhs.
Definition div_n (self b : Z) : option Z :=
  if umax (Inner P) <? b then Some zero
  else if b =? 0 then None
  else Some (from_parts (self / b)).

Definition add (self rhs : Z) : Z := from_parts (wrapping (Inner P) (self + rhs)).
Definition sub (self rhs : Z) : Z := from_parts (wrapping (Inner P) (self - rhs)).
Definition pt_checked_add (self rhs : Z) : option Z :=
  inner ← Prelude.checked_add (Inner P) self rhs;
  if ACCURACY P <? inner then None else Some (from_parts inner).
Definition pt_checked_sub (self v : Z) : option Z :=
  from_parts <$> Prelude.checked_sub self v.
Definition pt_checked_mul (self rhs : Z) : option Z := Some (mul self rhs).
End per_thing.

(** * Theorems *)

(** What the instances of the macro have in common. *)
Record per_thing_ok (P : PerThing) : Prop := {
  accuracy_bounds : 100 <= ACCURACY P <= umax (Inner P);
  inner_primitive : primitive_width (Inner P);
  upper_primitive : primitive_width (Upper P);
  upper_double : Upper P = 2 * Inner P }.

Lemma per_things_ok :
  per_thing_ok Percent /\ per_thing_ok PerU16 /\ per_thing_ok Permill /\
  per_thing_ok Perbill /\ per_thing_ok Perquintill.
Proof.
  split_and!; constructor;
    first [done | by vm_compute; split; discriminate | unfold primitive_width; cbn; lia].
Qed.

Lemma primitive_pos w : primitive_width w -> 0 < w.
Proof. unfold primitive_width. lia. Qed.

Section per_thing_proofs.
Context (P : PerThing) (HP : per_thing_ok P).
Let A := ACCURACY P.

(** A value of the type. *)
Definition valid (x : Z) : Prop := 0 <= x <= A.

Lemma A_bounds : 100 <= A <= umax (Inner P).
Proof. apply HP. Qed.

Lemma umax_upper : umax (Upper P) = umax (Inner P) * umax (Inner P) + 2 * umax (Inner P).
Proof.
  destruct HP as [_ Hi _ E]. apply primitive_pos in Hi. rewrite E. unfold umax.
  replace (2 * Inner P) with (Inner P + Inner P) by lia. rewrite Z.pow_add_r by lia. ring.
Qed.

Lemma upper_product a b : 0 <= a <= umax (Inner P) -> 0 <= b <= umax (Inner P) ->
  wrapping (Upper P) (a * b) = a * b.
Proof. intros. apply wrapping_id. unfold is_uint. rewrite umax_upper. nia. Qed.

(** ** Correction term *)

(** The correction is the rounded quotient of the remainder, which fits in the
    inner type. *)
Lemma correction_spec x numer denom r :
  0 <= x -> 0 <= numer <= A -> 0 < denom <= A ->
  rational_mul_correction P x numer denom r = Some (round_div r (x mod denom * numer) denom) /\
  0 <= round_div r (x mod denom * numer) denom <= numer.
Proof.
  intros Hx Hn Hd. pose proof A_bounds as HA. unfold rational_mul_correction, saturated_into.
  destruct (Z.eqb_spec denom 0); [lia|].
  pose proof (Z.mod_pos_bound x denom ltac:(lia)) as Hm. rewrite Z.min_r by lia.
  set (rem := x mod denom) in *. rewrite upper_product by lia.
  set (t := rem * numer). assert (Ht : 0 <= t <= denom * numer - numer) by (unfold t; nia).
  pose proof (bumps_round_div r t denom ltac:(lia)) as E.
  assert (Hq : 0 <= t / denom <= numer).
  { split; [apply Z.div_pos; lia|apply Z.div_le_upper_bound; lia]. }
  assert (Hq1 : bumps r (t mod denom) denom = true -> t / denom + 1 <= numer).
  { intros Hb. destruct (Z.eq_dec numer 0) as [->|].
    - unfold t in Hb. rewrite Z.mul_0_r, Z.mod_0_l in Hb by lia.
      destruct r; cbn in Hb; [done..|apply Z.leb_le in Hb|apply Z.ltb_lt in Hb];
        pose proof (Z.div_mod denom 2); pose proof (Z.mod_pos_bound denom 2); lia.
    - assert (t / denom < numer) by (apply Z.div_lt_upper_bound; nia). lia. }
  rewrite Z.min_r by lia. rewrite <- E. destruct (bumps r _ _).
  - specialize (Hq1 eq_refl). rewrite wrapping_id by (unfold is_uint; lia). split; [done|lia].
  - rewrite Z.add_0_r. split; [done|lia].
Qed.

(** Multiplication of an integer of any primitive width by a fraction. *)
Lemma overflow_prune_mul_spec w x part r :
  0 < w -> is_uint w x -> valid part ->
  overflow_prune_mul P w x part r = Some (round_div r (x * part) A).
Proof.
  intros Hw Hx Hp. pose proof A_bounds as HA. unfold overflow_prune_mul. fold A.
  destruct (correction_spec x part A r) as [-> Hc]; [apply Hx|done|lia|]. cbn [mbind option_bind].
  pose proof (Z.div_mod x A ltac:(lia)) as Ex. pose proof (Z.mod_pos_bound x A ltac:(lia)) as Hm.
  assert (Hq : 0 <= x / A) by (apply Z.div_pos; [apply Hx|lia]).
  assert (E : x * part = x / A * part * A + x mod A * part) by (rewrite Ex at 1; ring).
  pose proof (round_div_le_mul r x part A (proj1 Hx) Hp ltac:(lia)) as Hle.
  rewrite E, round_div_add in Hle |- * by lia. destruct Hx as [Hx1 Hx2]. unfold valid in Hp.
  assert (0 <= x / A * part) by nia.
  rewrite (wrapping_id w (_ * _)), wrapping_id by (unfold is_uint; lia). done.
Qed.

Lemma saturating_reciprocal_mul_spec w x part r :
  0 < w -> is_uint w x -> valid part -> part <> 0 ->
  saturating_reciprocal_mul P w x part r = Some (Z.min (umax w) (round_div r (x * A) part)).
Proof.
  intros Hw Hx Hp Hp0. pose proof A_bounds as HA. unfold saturating_reciprocal_mul, valid in *. fold A.
  destruct (correction_spec x A part r) as [-> Hc]; [apply Hx|lia..|]. cbn [mbind option_bind].
  pose proof (Z.div_mod x part ltac:(lia)) as Ex.
  assert (Hq : 0 <= x / part) by (apply Z.div_pos; [apply Hx|lia]).
  assert (E : x * A = x / part * A * part + x mod part * A) by (rewrite Ex at 1; ring).
  rewrite E, round_div_add by lia. f_equal. unfold saturating_add, saturating_mul. lia.
Qed.

Lemma reciprocal_of_zero w x r : saturating_reciprocal_mul P w x 0 r = None.
Proof. done. Qed.

(** ** Fractions from rationals *)

Lemma from_rational_spec w p q r :
  primitive_width w -> umax (Inner P) <= umax w -> is_uint w p -> is_uint w q ->
  from_rational_with_rounding P w p q r =
  if (q =? 0) || (q <? p) then Err tt else Ok (round_div r (A * p) q).
Proof.
  intros Hw Hwi Hp Hq. pose proof A_bounds as HA. unfold from_rational_with_rounding.
  destruct (Z.eqb_spec q 0) as [->|Hq0]; [done|]. destruct (Z.ltb_spec q p) as [|Hle]; [done|].
  cbn [orb]. rewrite multiply_rational_spec by (done || unfold is_uint; fold A; lia).
  unfold rational_mul. destruct (Z.eqb_spec q 0); [done|]. cbn [orb]. fold A.
  unfold is_uint in *. pose proof (round_div_le_mul r A p q ltac:(lia) ltac:(lia) ltac:(lia)).
  destruct (Z.ltb_spec (umax w) (round_div r (A * p) q)); [lia|].
  destruct (Z.leb_spec (round_div r (A * p) q) (umax (Inner P))); [done|lia].
Qed.

Lemma from_parts_valid x : 0 <= x -> valid (from_parts P x).
Proof. pose proof A_bounds. unfold valid, from_parts. fold A. lia. Qed.

Lemma one_eq : one P = A.
Proof. unfold one, from_parts. fold A. lia. Qed.

Lemma zero_eq : zero P = 0.
Proof. pose proof A_bounds. unfold zero, from_parts. fold A. lia. Qed.

Lemma from_rational_eq w p q :
  primitive_width w -> umax (Inner P) <= umax w -> is_uint w p -> is_uint w q ->
  from_rational P w p q = if (q =? 0) || (q <? p) then A else A * p / q.
Proof.
  intros. unfold from_rational. rewrite from_rational_spec, one_eq by done.
  destruct (_ || _); done.
Qed.

(** ** Products and powers *)

Lemma pt_mul_spec a b : valid a -> valid b -> mul P a b = a * b / A /\ valid (a * b / A).
Proof.
  unfold valid. intros Ha Hb. pose proof A_bounds as HA. unfold mul, from_parts. fold A.
  rewrite upper_product by lia.
  assert (0 <= a * b / A <= A).
  { split; [apply Z.div_pos; nia|apply Z.div_le_upper_bound; nia]. }
  rewrite wrapping_id by (unfold is_uint; lia). lia.
Qed.

Lemma square_spec a : valid a -> square P a = a * a / A.
Proof.
  unfold valid. intros Ha. pose proof A_bounds as HA. unfold square. fold A.
  rewrite !upper_product by lia. pose proof umax_upper as HU.
  rewrite from_rational_eq; [|apply HP|nia|unfold is_uint; nia..].
  destruct (Z.eqb_spec (A * A) 0); [nia|]. destruct (Z.ltb_spec (A * A) (a * a)); [nia|].
  cbn [orb]. rewrite Z.div_mul_cancel_l by lia. done.
Qed.

(** [v] parts approximate the [m]-th power of [x] parts from below, at most
    [m - 1] parts short. *)
Definition approx (x m v : Z) : Prop :=
  1 <= m /\ valid v /\ v * A ^ (m - 1) <= x ^ m <= (v + (m - 1)) * A ^ (m - 1).

Lemma power_le x m : valid x -> 1 <= m -> 0 <= x ^ m <= A * A ^ (m - 1).
Proof.
  unfold valid. intros Hx Hm. rewrite <- Z.pow_succ_r by lia.
  replace (Z.succ (m - 1)) with m by lia.
  split; [apply Z.pow_nonneg; lia|apply Z.pow_le_mono_l; lia].
Qed.

Lemma approx_mul x m1 m2 v1 v2 :
  valid x -> approx x m1 v1 -> approx x m2 v2 -> approx x (m1 + m2) (v1 * v2 / A).
Proof.
  intros Hx (H1 & Hv1 & L1 & U1) (H2 & Hv2 & L2 & U2).
  destruct (pt_mul_spec v1 v2 Hv1 Hv2) as [_ Hv]. pose proof A_bounds as HA.
  split; [lia|]. split; [done|].
  pose proof (power_le x m1 Hx ltac:(lia)) as Hp1. pose proof (power_le x m2 Hx ltac:(lia)) as Hp2.
  pose proof (Z.div_mod (v1 * v2) A ltac:(lia)) as Ed.
  pose proof (Z.mod_pos_bound (v1 * v2) A ltac:(lia)) as Hm.
  rewrite Z.pow_add_r by lia.
  replace (m1 + m2 - 1) with (1 + (m1 - 1) + (m2 - 1)) by lia.
  rewrite !Z.pow_add_r, Z.pow_1_r by lia.
  assert (HB1 : 0 < A ^ (m1 - 1)) by (apply Z.pow_pos_nonneg; lia).
  assert (HB2 : 0 < A ^ (m2 - 1)) by (apply Z.pow_pos_nonneg; lia).
  set (B1 := A ^ (m1 - 1)) in *. set (B2 := A ^ (m2 - 1)) in *.
  set (e1 := x ^ m1) in *. set (e2 := x ^ m2) in *. set (q := v1 * v2 / A) in *.
  unfold valid in Hv1, Hv2. split.
  - assert (q * A * (B1 * B2) <= v1 * v2 * (B1 * B2)) by (apply Z.mul_le_mono_nonneg_r; nia).
    assert (v1 * B1 * (v2 * B2) <= e1 * e2) by (apply Z.mul_le_mono_nonneg; nia). lia.
  - assert (S1 : e1 * (e2 - v2 * B2) <= A * B1 * ((m2 - 1) * B2)).
    { apply Z.mul_le_mono_nonneg; lia. }
    assert (S2 : v2 * B2 * (e1 - v1 * B1) <= A * B2 * ((m1 - 1) * B1)).
    { apply Z.mul_le_mono_nonneg; nia. }
    assert (S3 : v1 * v2 * (B1 * B2) <= (q * A + A) * (B1 * B2)).
    { apply Z.mul_le_mono_nonneg_r; nia. }
    lia.
Qed.

(** A power that has dropped to zero approximates all higher powers. *)
Lemma approx_zero x m e : valid x -> approx x m 0 -> m <= e -> approx x e 0.
Proof.
  intros Hx (H1 & Hv & L & U) Hle. pose proof A_bounds as HA.
  split; [lia|]. split; [done|]. unfold valid in Hx.
  pose proof (Z.pow_nonneg x e ltac:(lia)). split; [lia|].
  replace e with (m + (e - m)) at 1 by lia. replace (e - 1) with (m - 1 + (e - m)) at 2 by lia.
  rewrite !Z.pow_add_r by lia.
  pose proof (Z.pow_le_mono_l x A (e - m) ltac:(lia)). pose proof (Z.pow_nonneg x (e - m) ltac:(lia)).
  pose proof (Z.pow_nonneg x m ltac:(lia)). pose proof (Z.pow_nonneg A (m - 1) ltac:(lia)).
  transitivity ((0 + (m - 1)) * A ^ (m - 1) * A ^ (e - m)).
  - apply Z.mul_le_mono_nonneg; lia.
  - rewrite Z.mul_assoc. apply Z.mul_le_mono_nonneg_r; [lia|]. apply Z.mul_le_mono_nonneg_r; lia.
Qed.

Lemma pow_loop_spec fuel x e : forall self s result m exp,
  valid x -> approx x s self -> approx x m result -> 0 <= exp < 2 ^ Z.of_nat fuel ->
  m + s * exp = e -> approx x e (pow_loop P fuel self result exp).
Proof.
  induction fuel as [|fuel IH]; intros self s result m exp Hx Hs Hr Hexp He; cbn [pow_loop].
  { assert (exp = 0) as -> by (cbn in Hexp; lia). by replace e with m by lia. }
  destruct (Z.ltb_spec 0 exp) as [Hpos|]; cbn [andb].
  2: { assert (exp = 0) as -> by lia. by replace e with m by lia. }
  unfold is_zero. destruct (Z.eqb_spec result 0) as [->|_]; cbn [negb].
  { apply (approx_zero x m); [done..|]. destruct Hs. nia. }
  assert (Hss : approx x (s + s) (square P self)).
  { rewrite square_spec by apply Hs. by apply approx_mul. }
  pose proof (Z.div_mod exp 2 ltac:(lia)) as Ed. pose proof (Z.mod_pos_bound exp 2 ltac:(lia)) as Hm.
  replace (Z.of_nat (S fuel)) with (Z.succ (Z.of_nat fuel)) in Hexp by lia.
  rewrite Z.pow_succ_r in Hexp by lia.
  destruct (Z.eqb_spec (exp mod 2) 0) as [E0|E1]; cbn [negb].
  - assert (m + (s + s) * (exp / 2) = e) by (rewrite Ed in He at 1; lia).
    apply (IH _ (s + s) _ m); [done..| |done]. split; [apply Z.div_pos; lia|lia].
  - destruct (pt_mul_spec result self) as [-> _]; [apply Hr|apply Hs|].
    replace ((exp - 1) / 2) with (exp / 2) by (symmetry; apply div_eq_bounds; lia).
    assert (E : exp mod 2 = 1) by lia.
    assert (m + s + (s + s) * (exp / 2) = e) by (rewrite Ed, E in He at 1; lia).
    apply (IH _ (s + s) _ (m + s)); [done|done|by apply approx_mul| |done].
    split; [apply Z.div_pos; lia|lia].
Qed.

Lemma pow_spec x e :
  valid x -> 1 <= e < 2 ^ 64 -> approx x e (pow P x e).
Proof.
  intros Hx He. pose proof A_bounds as HA. unfold pow. destruct (Z.eqb_spec e 0); [lia|]. cbn [orb].
  assert (H1 : approx x 1 x).
  { split; [lia|]. split; [done|]. rewrite Z.pow_1_r. cbn. lia. }
  unfold is_one. fold A. destruct (Z.eqb_spec x A) as [->|].
  - rewrite one_eq. split; [lia|]. split; [done|].
    assert (E : A ^ e = A * A ^ (e - 1)) by (rewrite <- Z.pow_succ_r by lia; f_equal; lia).
    pose proof (Z.pow_nonneg A (e - 1) ltac:(lia)). rewrite E. nia.
  - apply (pow_loop_spec 64 x e x 1 x 1); [done..| |lia].
    change (2 ^ Z.of_nat 64) with (2 ^ 64). lia.
Qed.
End per_thing_proofs.

(** ** Summary *)

(** C34: for every fraction type and every primitive integer width, multiplying an
    integer by a fraction is exact up to the announced rounding (down, up, or to
    the nearest with ties down) and never overflows, although intermediate
    products are kept to the integer's own width. *)
Theorem per_thing_mul_exact (P : PerThing) (w self b : Z) :
  per_thing_ok P -> primitive_width w -> valid P self -> is_uint w b ->
  mul_floor P w self b = Some (b * self / ACCURACY P) /\
  mul_ceil P w self b = Some (round_div Up (b * self) (ACCURACY P)) /\
  mul_n P w self b = Some (round_div NearestPrefDown (b * self) (ACCURACY P)) /\
  b * self / ACCURACY P <= b /\ round_div Up (b * self) (ACCURACY P) <= b.
Proof.
  intros HP Hw Hs Hb. apply primitive_pos in Hw. pose proof (A_bounds P HP) as HA.
  unfold mul_floor, mul_ceil, mul_n. rewrite !(overflow_prune_mul_spec P HP) by done.
  split_and!; [done..| |].
  - apply (round_div_le_mul Down); [apply Hb|apply Hs|lia].
  - apply round_div_le_mul; [apply Hb|apply Hs|lia].
Qed.

(** A third of the largest 64-bit number. *)
Lemma per_thing_mul_exact_witness :
  mul_floor Perbill 64 333333333 (2 ^ 64 - 1) = Some ((2 ^ 64 - 1) * 333333333 / 1000000000).
Proof.
  destruct (per_thing_mul_exact Perbill 64 333333333 (2 ^ 64 - 1)) as [-> _].
  - apply per_things_ok.
  - unfold primitive_width. lia.
  - vm_compute. split; discriminate.
  - vm_compute. split; discriminate.
  - reflexivity.
Defined.

(** C35: dividing an integer by a fraction gives the quotient rounded as requested,
    cut off at the largest integer of the width; a zero fraction aborts. *)
Theorem per_thing_reciprocal_exact (P : PerThing) (w self b : Z) :
  per_thing_ok P -> primitive_width w -> valid P self -> is_uint w b ->
  let sat r := if self =? 0 then None
               else Some (Z.min (umax w) (round_div r (b * ACCURACY P) self)) in
  reciprocal_mul P w self b = sat NearestPrefUp /\
  reciprocal_mul_floor P w self b = sat Down /\
  reciprocal_mul_ceil P w self b = sat Up.
Proof.
  intros HP Hw Hs Hb sat. apply primitive_pos in Hw. unfold sat.
  unfold reciprocal_mul, reciprocal_mul_floor, reciprocal_mul_ceil.
  destruct (Z.eqb_spec self 0) as [->|Hne]; [done|].
  rewrite !(saturating_reciprocal_mul_spec P HP) by done. done.
Qed.

(** One percent of the largest 32-bit number: the reciprocal saturates. *)
Lemma per_thing_reciprocal_exact_witness :
  reciprocal_mul Percent 32 1 (2 ^ 32 - 1) = Some (2 ^ 32 - 1) /\
  reciprocal_mul Percent 32 60 10 = Some 17.
Proof.
  split; refine (eq_trans (proj1 (per_thing_reciprocal_exact Percent 32 _ _ _ _ _ _)) _);
    first [reflexivity | apply per_things_ok | unfold primitive_width; lia
          | vm_compute; split; discriminate].
Defined.

(** C36: a fraction built from a quotient is that quotient in parts, rounded as
    requested, and an error is returned exactly for a zero denominator or a
    quotient above one; [from_rational] rounds down and falls back to one. *)
Theorem per_thing_from_rational_exact (P : PerThing) (w p q : Z) (r : Rounding) :
  per_thing_ok P -> primitive_width w -> Inner P <= w -> is_uint w p -> is_uint w q ->
  from_rational_with_rounding P w p q r =
    (if (q =? 0) || (q <? p) then Err tt else Ok (round_div r (ACCURACY P * p) q)) /\
  from_rational P w p q = (if (q =? 0) || (q <? p) then ACCURACY P else ACCURACY P * p / q) /\
  valid P (from_rational P w p q).
Proof.
  intros HP Hw Hiw Hp Hq. pose proof (A_bounds P HP) as HA.
  assert (Hu : umax (Inner P) <= umax w).
  { unfold umax. pose proof (Z.pow_le_mono_r 2 (Inner P) w). lia. }
  rewrite (from_rational_eq P HP) by done.
  split; [by apply from_rational_spec|]. split; [done|].
  destruct (Z.eqb_spec q 0); [cbn [orb]; unfold valid; lia|].
  destruct (Z.ltb_spec q p); [cbn [orb]; unfold valid; lia|]. unfold is_uint in *. cbn [orb]. split.
  - apply Z.div_pos; nia.
  - apply (round_div_le_mul Down); lia.
Qed.

(** The documented [989 / 1000] as a percentage. *)
Lemma per_thing_from_rational_exact_witness :
  from_rational Percent 64 989 1000 = 98 /\
  from_rational_with_rounding Percent 64 1001 1000 Up = Err tt.
Proof.
  split.
  - refine (eq_trans (proj1 (proj2 (per_thing_from_rational_exact Percent 64 989 1000 Up _ _ _ _ _))) _);
      first [reflexivity | apply per_things_ok | unfold primitive_width; lia
            | vm_compute; (split; discriminate || discriminate)].
  - refine (eq_trans (proj1 (per_thing_from_rational_exact Percent 64 1001 1000 Up _ _ _ _ _)) _);
      first [reflexivity | apply per_things_ok | unfold primitive_width; lia
            | vm_compute; (split; discriminate || discriminate)].
Defined.

(** [pow] terminates for every 64-bit exponent; its result is a fraction that
    never exceeds the exact power and falls short of it by less than the exponent
    in parts. *)
Theorem per_thing_pow_bounds (P : PerThing) (x e : Z) :
  per_thing_ok P -> valid P x -> 1 <= e < 2 ^ 64 ->
  valid P (pow P x e) /\
  pow P x e * ACCURACY P ^ (e - 1) <= x ^ e <= (pow P x e + (e - 1)) * ACCURACY P ^ (e - 1).
Proof. intros HP Hx He. by destruct (pow_spec P HP x e Hx He) as (_ & ? & ?). Qed.

(** The seventh power of a half in billionths. *)
Lemma per_thing_pow_bounds_witness :
  pow Perbill 500000000 7 = 7812500 /\
  7812500 * 1000000000 ^ 6 <= 500000000 ^ 7 <= (7812500 + 6) * 1000000000 ^ 6.
Proof.
  split; [reflexivity|].
  apply (per_thing_pow_bounds Perbill 500000000 7); [apply per_things_ok|vm_compute; split; discriminate|lia].
Defined.

(** ** Deviations from the documentation

    The module documentation promises saturation at the bounds; in a release
    build the plain operators wrap in the inner type first.  The comment in
    [saturating_add] claims that two fractions never overflow the inner type,
    which fails for [PerU16]. *)
Lemma plain_operators_wrap :
  add PerU16 (from_percent PerU16 60) (from_percent PerU16 60) = 13106 /\
  sub Percent 10 20 = 100 /\
  umax (Inner PerU16) < ACCURACY PerU16 + ACCURACY PerU16.
Proof. vm_compute. split_and!; reflexivity. Qed.
