(* ===== verification/Weights.v ===== *)
(** * Weights

    Model of [substrate/primitives/weights/src]: the two dimensional weight of
    [weight_v2.rs] ([Module WeightV2]), the meter of [weight_meter.rs]
    ([Module Meter]) and the conversions of weight into fees of [lib.rs]
    ([Module Fees]).  Both components of a weight are [u64]; a balance has any
    width.  Plain [+], [-] and [*] wrap as in a release build; a division by
    zero aborts ([None]). *)

From stdpp Require Import base option numbers list.
From Stdlib Require Import ZArith Lia.
From S2P Require Import Prelude Traits Arith128 Rational PerThing.
Local Open Scope Z_scope.

Module WeightV2.

Record Weight : Set := mkWeight { ref_time : Z; proof_size : Z }.

Definition set_ref_time (self : Weight) (c : Z) : Weight := mkWeight c (proof_size self).
Definition set_proof_size (self : Weight) (c : Z) : Weight := mkWeight (ref_time self) c.

Definition MAX : Weight := mkWeight (umax 64) (umax 64).

Definition min (self other : Weight) : Weight :=
  mkWeight (Z.min (ref_time self) (ref_time other)) (Z.min (proof_size self) (proof_size other)).
Definition max (self other : Weight) : Weight :=
  mkWeight (Z.max (ref_time self) (ref_time other)) (Z.max (proof_size self) (proof_size other)).

Definition from_parts (ref_time proof_size : Z) : Weight := mkWeight ref_time proof_size.
Definition from_all (value : Z) : Weight := mkWeight value value.
Definition zero : Weight := mkWeight 0 0.
Definition is_zero (self : Weight) : bool :=
  (ref_time self =? ref_time zero) && (proof_size self =? proof_size zero).

Definition saturating_add (self rhs : Weight) : Weight :=
  mkWeight (Prelude.saturating_add 64 (ref_time self) (ref_time rhs))
           (Prelude.saturating_add 64 (proof_size self) (proof_size rhs)).
Definition saturating_sub (self rhs : Weight) : Weight :=
  mkWeight (Prelude.saturating_sub (ref_time self) (ref_time rhs))
           (Prelude.saturating_sub (proof_size self) (proof_size rhs)).
Definition saturating_mul (self : Weight) (scalar : Z) : Weight :=
  mkWeight (Prelude.saturating_mul 64 (ref_time self) scalar)
           (Prelude.saturating_mul 64 (proof_size self) scalar).
(** [u64::saturating_div] is the division: it aborts for a zero scalar. *)
Definition saturating_div (self : Weight) (scalar : Z) : option Weight :=
  if scalar =? 0 then None
  else Some (mkWeight (ref_time self / scalar) (proof_size self / scalar)).
(** [u64::saturating_pow]. *)
Definition u64_saturating_pow (a exp : Z) : Z := Z.min (umax 64) (a ^ exp).
Definition saturating_pow (self : Weight) (exp : Z) : Weight :=
  mkWeight (u64_saturating_pow (ref_time self) exp) (u64_saturating_pow (proof_size self) exp).

Definition saturating_accrue (self amount : Weight) : Weight := saturating_add self amount.
Definition saturating_reduce (self amount : Weight) : Weight := saturating_sub self amount.

Definition checked_add (self rhs : Weight) : option Weight :=
  t ← Prelude.checked_add 64 (ref_time self) (ref_time rhs);
  s ← Prelude.checked_add 64 (proof_size self) (proof_size rhs);
  Some (mkWeight t s).
Definition checked_sub (self rhs : Weight) : option Weight :=
  t ← Prelude.checked_sub (ref_time self) (ref_time rhs);
  s ← Prelude.checked_sub (proof_size self) (proof_size rhs);
  Some (mkWeight t s).
Definition checked_mul (self : Weight) (scalar : Z) : option Weight :=
  t ← Prelude.checked_mul 64 (ref_time self) scalar;
  s ← Prelude.checked_mul 64 (proof_size self) scalar;
  Some (mkWeight t s).
Definition checked_div (self : Weight) (scalar : Z) : option Weight :=
  t ← Prelude.checked_div (ref_time self) scalar;
  s ← Prelude.checked_div (proof_size self) scalar;
  Some (mkWeight t s).

Definition checked_div_per_component (self other : Weight) : option Z :=
  let all_zero := true in
  let '(ref_time, all_zero) :=
    match Prelude.checked_div (ref_time self) (ref_time other) with
    | Some ref_time => (ref_time, false)
    | None => (umax 64, all_zero)
    end in
  let '(proof_size, all_zero) :=
    match Prelude.checked_div (proof_size self) (proof_size other) with
    | Some proof_size => (proof_size, false)
    | None => (umax 64, all_zero)
    end in
  if all_zero : bool then None
  else Some (if ref_time <? proof_size then ref_time else proof_size).

(** The new weight and the result; a failed operation leaves the weight. *)
Definition checked_accrue (self amount : Weight) : Weight * option unit :=
  match checked_add self amount with
  | Some new_self => (new_self, Some tt)
  | None => (self, None)
  end.
Definition checked_reduce (self amount : Weight) : Weight * option unit :=
  match checked_sub self amount with
  | Some new_self => (new_self, Some tt)
  | None => (self, None)
  end.

Definition add_ref_time (self : Weight) (scalar : Z) : Weight :=
  mkWeight (wrapping 64 (ref_time self + scalar)) (proof_size self).
Definition add_proof_size (self : Weight) (scalar : Z) : Weight :=
  mkWeight (ref_time self) (wrapping 64 (proof_size self + scalar)).
Definition sub_ref_time (self : Weight) (scalar : Z) : Weight :=
  mkWeight (wrapping 64 (ref_time self - scalar)) (proof_size self).
Definition sub_proof_size (self : Weight) (scalar : Z) : Weight :=
  mkWeight (ref_time self) (wrapping 64 (proof_size self - scalar)).
Definition saturating_add_ref_time (self : Weight) (scalar : Z) : Weight :=
  mkWeight (Prelude.saturating_add 64 (ref_time self) scalar) (proof_size self).
Definition saturating_add_proof_size (self : Weight) (scalar : Z) : Weight :=
  mkWeight (ref_time self) (Prelude.saturating_add 64 (proof_size self) scalar).
Definition saturating_sub_ref_time (self : Weight) (scalar : Z) : Weight :=
  mkWeight (Prelude.saturating_sub (ref_time self) scalar) (proof_size self).
Definition saturating_sub_proof_size (self : Weight) (scalar : Z) : Weight :=
  mkWeight (ref_time self) (Prelude.saturating_sub (proof_size self) scalar).

Definition div (self : Weight) (scalar : Z) : option Weight :=
  if scalar =? 0 then None
  else Some (mkWeight (ref_time self / scalar) (proof_size self / scalar)).
Definition mul (self : Weight) (scalar : Z) : Weight :=
  mkWeight (wrapping 64 (ref_time self * scalar)) (wrapping 64 (proof_size self * scalar)).

Definition any_gt (self other : Weight) : bool :=
  (ref_time other <? ref_time self) || (proof_size other <? proof_size self).
Definition all_gt (self other : Weight) : bool :=
  (ref_time other <? ref_time self) && (proof_size other <? proof_size self).
Definition any_lt (self other : Weight) : bool :=
  (ref_time self <? ref_time other) || (proof_size self <? proof_size other).
Definition all_lt (self other : Weight) : bool :=
  (ref_time self <? ref_time other) && (proof_size self <? proof_size other).
Definition any_gte (self other : Weight) : bool :=
  (ref_time other <=? ref_time self) || (proof_size other <=? proof_size self).
Definition all_gte (self other : Weight) : bool :=
  (ref_time other <=? ref_time self) && (proof_size other <=? proof_size self).
Definition any_lte (self other : Weight) : bool :=
  (ref_time self <=? ref_time other) || (proof_size self <=? proof_size other).
Definition all_lte (self other : Weight) : bool :=
  (ref_time self <=? ref_time other) && (proof_size self <=? proof_size other).
Definition any_eq (self other : Weight) : bool :=
  (ref_time self =? ref_time other) || (proof_size self =? proof_size other).

Definition try_add (self other limit : Weight) : option Weight :=
  total ← checked_add self other;
  if any_gt total limit then None else Some total.

(** The operators. *)
Definition add (self rhs : Weight) : Weight :=
  mkWeight (wrapping 64 (ref_time self + ref_time rhs))
           (wrapping 64 (proof_size self + proof_size rhs)).
Definition sub (self rhs : Weight) : Weight :=
  mkWeight (wrapping 64 (ref_time self - ref_time rhs))
           (wrapping 64 (proof_size self - proof_size rhs)).
(** [Mul<Weight>] of a fraction. *)
Definition per_mul (P : PerThing) (self : Z) (b : Weight) : option Weight :=
  t ← mul_n P 64 self (ref_time b);
  s ← mul_n P 64 self (proof_size b);
  Some (mkWeight t s).
End WeightV2.
Import WeightV2.

(** ** [weight_meter.rs] *)
Module Meter.

Record WeightMeter : Set := mkMeter { consumed : Weight; limit : Weight }.

Definition with_consumed_and_limit (consumed limit : Weight) : WeightMeter := mkMeter consumed limit.
Definition with_limit (limit : Weight) : WeightMeter := mkMeter WeightV2.zero limit.
Definition new : WeightMeter := with_limit MAX.
Definition remaining (self : WeightMeter) : Weight :=
  WeightV2.saturating_sub (limit self) (consumed self).
Definition limit_to (self : WeightMeter) (weight : Weight) : WeightMeter :=
  with_limit (WeightV2.min (remaining self) weight).

Definition consumed_ratio (self : WeightMeter) : Z :=
  let time := from_rational Perbill 64 (ref_time (consumed self)) (ref_time (limit self)) in
  let pov := from_rational Perbill 64 (proof_size (consumed self)) (proof_size (limit self)) in
  Z.max time pov.

(** The [debug_assert] is compiled out. *)
Definition consume (self : WeightMeter) (w : Weight) : WeightMeter :=
  mkMeter (WeightV2.saturating_accrue (consumed self) w) (limit self).

Definition try_consume (self : WeightMeter) (w : Weight) : WeightMeter * outcome unit unit :=
  match WeightV2.checked_add (consumed self) w with
  | None => (self, Err tt)
  | Some test =>
    if any_gt test (limit self) then (self, Err tt)
    else (mkMeter test (limit self), Ok tt)
  end.

Definition can_consume (self : WeightMeter) (w : Weight) : bool :=
  match WeightV2.checked_add (consumed self) w with
  | None => false
  | Some t => all_lte t (limit self)
  end.

Definition reclaim_proof_size (self : WeightMeter) (s : Z) : WeightMeter :=
  mkMeter (WeightV2.saturating_reduce (consumed self) (WeightV2.from_parts 0 s)) (limit self).
End Meter.

(** ** [lib.rs] *)
Module Fees.

Record RuntimeDbWeight : Set := { read : Z; write : Z }.

Definition reads (self : RuntimeDbWeight) (r : Z) : Weight :=
  WeightV2.from_parts (Prelude.saturating_mul 64 (read self) r) 0.
Definition writes (self : RuntimeDbWeight) (w : Z) : Weight :=
  WeightV2.from_parts (Prelude.saturating_mul 64 (write self) w) 0.
Definition reads_writes (self : RuntimeDbWeight) (r w : Z) : Weight :=
  let read_weight := Prelude.saturating_mul 64 (read self) r in
  let write_weight := Prelude.saturating_mul 64 (write self) w in
  WeightV2.from_parts (Prelude.saturating_add 64 read_weight write_weight) 0.

Record WeightToFeeCoefficient : Set := mkCoeff {
  coeff_integer : Z;
  coeff_frac : Z;
  negative : bool;
  degree : Z
}.

Section fees.
(** [Balance], an unsigned type of width [w], and [num_traits::checked_pow]. *)
Context (w : Z) (checked_pow : IntTy -> Z -> Z -> option Z).
Abbreviation Balance := (unsigned w).

Definition saturating_eval (self : WeightToFeeCoefficient) (result x : Z) : option Z :=
  let power := int_saturating_pow checked_pow Balance x (degree self) in
  frac ← mul_n Perbill w (coeff_frac self) power;
  let integer := int_saturating_mul Balance (coeff_integer self) power in
  Some (if negative self then
          int_saturating_sub Balance (int_saturating_sub Balance result frac) integer
        else
          int_saturating_add Balance (int_saturating_add Balance result frac) integer).

Definition eval (coefficients : list WeightToFeeCoefficient) (x : Z) : option Z :=
  for_in coefficients
    (fun term acc => saturating_eval term acc (unique_saturated_from Balance x)) 0.

Definition polynomial_weight_to_fee (polynomial : list WeightToFeeCoefficient) (weight : Weight) :
    option Z :=
  eval polynomial (ref_time weight).
Definition identity_fee (weight : Weight) : Z := unique_saturated_from Balance (ref_time weight).
Definition fixed_fee (F : Z) (_ : Weight) : Z := F.
Definition constant_multiplier (M : Z) (weight : Weight) : Z :=
  int_saturating_mul Balance (unique_saturated_from Balance (ref_time weight)) M.
End fees.
End Fees.

(** * Correctness *)

(** The invariant of the type and the product order on weights. *)
Definition wf_weight (a : Weight) : Prop := is_uint 64 (ref_time a) /\ is_uint 64 (proof_size a).
Definition weight_le (a b : Weight) : Prop :=
  ref_time a <= ref_time b /\ proof_size a <= proof_size b.
Definition plus (a b : Weight) : Weight :=
  mkWeight (ref_time a + ref_time b) (proof_size a + proof_size b).
Definition scale (n : Z) (a : Weight) : Weight := mkWeight (n * ref_time a) (n * proof_size a).

#[export] Instance weight_le_dec a b : Decision (weight_le a b).
Proof. unfold weight_le. apply _. Defined.

#[export] Instance weight_le_preorder : PreOrder weight_le.
Proof. split; [split; lia|]. intros a b c [? ?] [? ?]. split; lia. Qed.

Lemma all_lte_spec a b : all_lte a b = true <-> weight_le a b.
Proof. unfold all_lte, weight_le. rewrite andb_true_iff, !Z.leb_le. done. Qed.

Lemma any_gt_spec a b : any_gt a b = negb (all_lte a b).
Proof. unfold any_gt, all_lte. rewrite negb_andb, <- !Z.ltb_antisym. done. Qed.

Lemma weight_checked_add_spec a b :
  WeightV2.checked_add a b = if decide (weight_le (plus a b) MAX) then Some (plus a b) else None.
Proof.
  unfold WeightV2.checked_add, Prelude.checked_add, weight_le, plus, MAX. cbn [ref_time proof_size].
  destruct (Z.leb_spec (ref_time a + ref_time b) (umax 64)),
    (Z.leb_spec (proof_size a + proof_size b) (umax 64)); cbn; case_decide; (done || lia).
Qed.

Lemma weight_checked_mul_spec a n :
  WeightV2.checked_mul a n = if decide (weight_le (scale n a) MAX) then Some (scale n a) else None.
Proof.
  unfold WeightV2.checked_mul, Prelude.checked_mul, weight_le, scale, MAX. cbn [ref_time proof_size].
  rewrite !(Z.mul_comm n).
  destruct (Z.leb_spec (ref_time a * n) (umax 64)),
    (Z.leb_spec (proof_size a * n) (umax 64)); cbn; case_decide; (done || lia).
Qed.

Lemma wf_le_max a : wf_weight a -> weight_le a MAX.
Proof. intros [[_ ?] [_ ?]]. done. Qed.

(** Adding under a limit of the type: no overflow is possible. *)
Lemma checked_add_under a b l :
  wf_weight l ->
  match WeightV2.checked_add a b with Some t => all_lte t l | None => false end
    = bool_decide (weight_le (plus a b) l).
Proof.
  intros Hl%wf_le_max. rewrite weight_checked_add_spec. case_decide as Hm.
  - apply eq_bool_prop_intro. rewrite bool_decide_spec, Is_true_true. apply all_lte_spec.
  - rewrite bool_decide_eq_false_2; [done|]. intros H. apply Hm. by trans l.
Qed.

(** ** How many weights fit *)

Lemma fits_div q d n : 0 <= q <= umax 64 -> 0 <= d -> 0 <= n <= umax 64 ->
  n * d <= q <-> n <= default (umax 64) (Prelude.checked_div q d).
Proof.
  intros Hq Hd Hn. unfold Prelude.checked_div. destruct (Z.eqb_spec d 0) as [->|]; cbn; [lia|].
  split; intros H; [apply Z.div_le_lower_bound; lia|].
  pose proof (Z.mul_div_le q d ltac:(lia)). nia.
Qed.

Lemma div_per_component_eq a b :
  checked_div_per_component a b =
  if is_zero b then None
  else Some (Z.min (default (umax 64) (Prelude.checked_div (ref_time a) (ref_time b)))
                   (default (umax 64) (Prelude.checked_div (proof_size a) (proof_size b)))).
Proof.
  unfold checked_div_per_component, Prelude.checked_div, is_zero, WeightV2.zero. cbn [ref_time proof_size].
  destruct (Z.eqb_spec (ref_time b) 0), (Z.eqb_spec (proof_size b) 0); cbn; try done;
    (case_match; f_equal; lia).
Qed.

(** [checked_div_per_component] answers how many copies of a weight fit
    into another: [None] exactly for the zero weight, otherwise the largest
    [u64] number of copies whose product neither overflows nor exceeds [self]
    in a component. *)
Theorem div_per_component_is_largest (a b : Weight) :
  wf_weight a -> wf_weight b ->
  (checked_div_per_component a b = None <-> b = WeightV2.zero) /\
  (forall n m, checked_div_per_component a b = Some n -> is_uint 64 m ->
     m <= n <-> exists p, WeightV2.checked_mul b m = Some p /\ all_lte p a = true).
Proof.
  intros Ha Hb. rewrite div_per_component_eq. split.
  - unfold is_zero, WeightV2.zero. destruct b as [t s]. cbn.
    destruct (Z.eqb_spec t 0), (Z.eqb_spec s 0); cbn; naive_solver.
  - intros n m. destruct (is_zero b); [done|]. intros [= <-] Hm. destruct Ha as [Ha1 Ha2], Hb as [Hb1 Hb2].
    rewrite Z.min_glb_iff, <- !fits_div by (unfold is_uint in *; lia).
    rewrite weight_checked_mul_spec. setoid_rewrite all_lte_spec.
    split.
    + intros Hle. exists (scale m b). rewrite decide_True; [done|].
      trans a; [done|by apply wf_le_max].
    + intros (p & Hp & Hle). case_decide; [|done]. by injection Hp as <-.
Qed.

(** ** The meter *)

Section meter.
Import Meter.

(** A meter that never went over its limit. *)
Record meter_ok (m : WeightMeter) : Prop := {
  ok_consumed : wf_weight (consumed m);
  ok_limit : wf_weight (limit m);
  ok_within : weight_le (consumed m) (limit m);
}.

Lemma can_consume_spec m w :
  wf_weight (limit m) -> can_consume m w = bool_decide (weight_le (plus (consumed m) w) (limit m)).
Proof. intros. by apply checked_add_under. Qed.

Lemma try_consume_spec m w :
  wf_weight (limit m) ->
  try_consume m w =
  if decide (weight_le (plus (consumed m) w) (limit m))
  then (mkMeter (plus (consumed m) w) (limit m), Ok tt) else (m, Err tt).
Proof.
  intros Hl. pose proof (checked_add_under (consumed m) w (limit m) Hl) as Hc.
  rewrite weight_checked_add_spec in Hc. unfold try_consume. rewrite weight_checked_add_spec.
  case_decide as Hm.
  - rewrite any_gt_spec, Hc. case_bool_decide; cbn; case_decide; done.
  - symmetry in Hc. apply bool_decide_eq_false in Hc. by case_decide.
Qed.

Lemma remaining_spec m :
  meter_ok m -> plus (consumed m) (remaining m) = limit m /\ wf_weight (remaining m).
Proof.
  intros [[? ?] [? ?] [? ?]]. destruct m as [[c1 c2] [l1 l2]]. cbn in *.
  unfold remaining, plus, wf_weight, is_uint, WeightV2.saturating_sub, Prelude.saturating_sub in *.
  cbn in *. split; [f_equal; lia|lia].
Qed.

Lemma plus_wf a b l : wf_weight a -> wf_weight b -> wf_weight l -> weight_le (plus a b) l ->
  wf_weight (plus a b).
Proof. intros [? ?] [? ?] [? ?] [? ?]. unfold wf_weight, is_uint, plus in *. cbn in *. lia. Qed.

Lemma try_consume_ok m w : meter_ok m -> wf_weight w -> meter_ok (fst (try_consume m w)).
Proof.
  intros Hm Hw. pose proof Hm as [Hc Hl Hle]. rewrite try_consume_spec by done.
  case_decide; [|done]. split; cbn; [by eapply plus_wf|done..].
Qed.

Lemma reclaim_ok m s : meter_ok m -> 0 <= s -> meter_ok (reclaim_proof_size m s).
Proof.
  intros [[? ?] Hl [? ?]] Hs. split; [|done|]; cbn;
    unfold reclaim_proof_size, wf_weight, weight_le, is_uint, WeightV2.saturating_reduce,
      WeightV2.saturating_sub, Prelude.saturating_sub in *; cbn in *; lia.
Qed.

Lemma limit_to_ok m w : meter_ok m -> wf_weight w -> meter_ok (limit_to m w).
Proof.
  intros Hm [? ?]. destruct (remaining_spec m Hm) as [_ [? ?]].
  split; cbn; unfold limit_to, wf_weight, weight_le, is_uint, WeightV2.min in *; cbn in *; lia.
Qed.

(** What a user of a meter does with it; a refused [try_consume] is skipped. *)
Inductive meter_op : Set :=
| TryConsume (w : Weight)
| Consume (w : Weight)
| ReclaimProofSize (s : Z)
| LimitTo (w : Weight).

Definition op_wf (op : meter_op) : Prop :=
  match op with TryConsume w | Consume w | LimitTo w => wf_weight w | ReclaimProofSize s => is_uint 64 s end.

Definition meter_step (m : WeightMeter) (op : meter_op) : WeightMeter :=
  match op with
  | TryConsume w => fst (try_consume m w)
  | Consume w => consume m w
  | ReclaimProofSize s => reclaim_proof_size m s
  | LimitTo w => limit_to m w
  end.

Definition meter_run (ops : list meter_op) (m : WeightMeter) : WeightMeter :=
  foldl meter_step m ops.

(** Every [consume] of the sequence is of a weight that fits at that point. *)
Fixpoint consumes_fit (ops : list meter_op) (m : WeightMeter) : bool :=
  match ops with
  | [] => true
  | op :: ops =>
    match op with Consume w => can_consume m w | _ => true end && consumes_fit ops (meter_step m op)
  end.

(** A meter, whether within its limit or not. *)
Definition meter_wf (m : WeightMeter) : Prop := wf_weight (consumed m) /\ wf_weight (limit m).

Lemma consume_fits m w :
  wf_weight (limit m) -> can_consume m w = true -> consume m w = fst (try_consume m w).
Proof.
  intros Hl. rewrite can_consume_spec, try_consume_spec by done. intros Hle%bool_decide_eq_true.
  rewrite decide_True by done. destruct m as [[c1 c2] [l1 l2]], w as [w1 w2], Hl as [[? ?] [? ?]], Hle as [? ?].
  cbn in *. unfold consume, plus, WeightV2.saturating_accrue, WeightV2.saturating_add, Prelude.saturating_add.
  cbn. do 2 f_equal; lia.
Qed.

Lemma consume_exceeds m w :
  wf_weight (limit m) -> ref_time (limit m) < umax 64 -> proof_size (limit m) < umax 64 ->
  can_consume m w = false -> ~ weight_le (consumed (consume m w)) (limit m).
Proof.
  intros Hl Ht Hs. rewrite can_consume_spec by done. intros Hn%bool_decide_eq_false [H1 H2]. apply Hn.
  unfold consume, plus, weight_le, WeightV2.saturating_accrue, WeightV2.saturating_add, Prelude.saturating_add in *.
  cbn [consumed limit ref_time proof_size] in *. lia.
Qed.

Lemma meter_step_wf m op : meter_wf m -> op_wf op -> meter_wf (meter_step m op) /\ weight_le (limit (meter_step m op)) (limit m).
Proof.
  intros [[Hc1 Hc2] [Hl1 Hl2]] Hop. destruct op as [w|w|s|w]; cbn [meter_step op_wf] in *.
  - pose proof (plus_wf (consumed m) w (limit m) (conj Hc1 Hc2) Hop (conj Hl1 Hl2)) as Hp.
    rewrite try_consume_spec by done. unfold meter_wf. case_decide; cbn; [specialize (Hp ltac:(done))|]; split; done || by split.
  - destruct Hop as [? ?]. split; [|by split]. split; [|done]. cbn.
    unfold wf_weight, is_uint, WeightV2.saturating_accrue, WeightV2.saturating_add, Prelude.saturating_add in *. cbn. lia.
  - split; [|by split]. split; [|done]. cbn.
    unfold wf_weight, is_uint, WeightV2.saturating_reduce, WeightV2.saturating_sub, Prelude.saturating_sub in *. cbn. lia.
  - destruct Hop as [? ?].
    unfold meter_wf, weight_le, wf_weight, is_uint, limit_to, remaining, WeightV2.saturating_sub, Prelude.saturating_sub in *.
    cbn. lia.
Qed.

Lemma meter_run_wf ops m :
  Forall op_wf ops -> meter_wf m -> meter_wf (meter_run ops m) /\ weight_le (limit (meter_run ops m)) (limit m).
Proof.
  intros Hops. revert m. induction Hops as [|op ops Hop _ IH]; intros m Hm; [by split|].
  destruct (meter_step_wf m op Hm Hop) as [Hm' [? ?]]. destruct (IH _ Hm') as [? [? ?]].
  split; [done|]. split; etrans; done.
Qed.

Lemma meter_step_ok m op :
  meter_ok m -> op_wf op -> (forall w, op = Consume w -> can_consume m w = true) -> meter_ok (meter_step m op).
Proof.
  intros Hm Hop Hfit. destruct op as [w|w|s|w]; cbn in *.
  - by apply try_consume_ok.
  - rewrite consume_fits by (apply Hm || by apply Hfit). by apply try_consume_ok.
  - apply reclaim_ok; [done|apply Hop].
  - by apply limit_to_ok.
Qed.

Lemma meter_run_ok ops m :
  Forall op_wf ops -> consumes_fit ops m = true -> meter_ok m -> meter_ok (meter_run ops m).
Proof.
  intros Hops. revert m. induction Hops as [|op ops Hop _ IH]; intros m Hfit Hm; [done|].
  cbn in Hfit. apply andb_true_iff in Hfit as [Hf Hfit]. apply IH; [done|].
  apply meter_step_ok; [done..|]. by intros w ->.
Qed.

(** C37: a meter whose user asks first never goes over its limit.  After any
    sequence of [try_consume], [consume], [reclaim_proof_size] and [limit_to] the
    limit has at most been lowered; if every plain [consume] of the sequence was
    of a weight that [can_consume] allowed, [consumed] and [remaining] add up to
    the limit and [can_consume] says what fits into [remaining].  In every case
    [can_consume] is exact, [try_consume] accepts exactly these weights and adds
    them without saturating, a refusal changes nothing, and [consume] does the
    same as an accepted [try_consume], while with a weight that does not fit it
    goes over every limit that is not the largest [u64]. *)
Theorem meter_never_exceeds (ops : list meter_op) (m : WeightMeter) (w : Weight) :
  meter_ok m -> Forall op_wf ops -> wf_weight w ->
  let m' := meter_run ops m in
  weight_le (limit m') (limit m) /\
  (consumes_fit ops m = true ->
     plus (consumed m') (remaining m') = limit m' /\ can_consume m' w = all_lte w (remaining m')) /\
  can_consume m' w = bool_decide (weight_le (plus (consumed m') w) (limit m')) /\
  try_consume m' w = (if can_consume m' w
                      then (mkMeter (plus (consumed m') w) (limit m'), Ok tt) else (m', Err tt)) /\
  (can_consume m' w = true -> consume m' w = fst (try_consume m' w)) /\
  (can_consume m' w = false -> ref_time (limit m') < umax 64 -> proof_size (limit m') < umax 64 ->
     ~ weight_le (consumed (consume m' w)) (limit m')).
Proof.
  intros Hm Hops Hw m'.
  destruct (meter_run_wf ops m Hops (conj (ok_consumed _ Hm) (ok_limit _ Hm))) as [[Hc Hl] Hle]. fold m' in Hc, Hl, Hle.
  split_and!; [done| |by apply can_consume_spec| |by apply consume_fits|by intros; apply consume_exceeds].
  - intros Hfit. pose proof (meter_run_ok ops m Hops Hfit Hm) as Hm'. fold m' in Hm'.
    destruct (remaining_spec m' Hm') as [Hr _]. split; [done|].
    rewrite can_consume_spec by done. apply eq_bool_prop_intro.
    rewrite bool_decide_spec, Is_true_true, all_lte_spec, <- Hr. unfold weight_le, plus. cbn. lia.
  - rewrite try_consume_spec, can_consume_spec by done. case_bool_decide; case_decide; done.
Qed.

(** A sub-meter can always be charged back.  A meter made with [limit_to]
    gives out at most what its parent has left and at most the requested
    weight, so that after any use of it that fits the parent can consume all
    that was used. *)
Theorem sub_meter_fits (ops : list meter_op) (m : WeightMeter) (w : Weight) :
  meter_ok m -> wf_weight w -> Forall op_wf ops -> consumes_fit ops (limit_to m w) = true ->
  let used := consumed (meter_run ops (limit_to m w)) in
  weight_le used w /\ can_consume m used = true /\
  meter_ok (fst (try_consume m used)).
Proof.
  intros Hm Hw Hops Hfit used. pose proof (limit_to_ok m w Hm Hw) as Hs.
  destruct (meter_run_ok ops _ Hops Hfit Hs) as [Hu _ [H1 H2]].
  destruct (meter_run_wf ops _ Hops (conj (ok_consumed _ Hs) (ok_limit _ Hs))) as [_ [H3 H4]].
  fold used in Hu, H1, H2. destruct (remaining_spec m Hm) as [Hr _]. cbn in H3, H4.
  split; [split; lia|]. split; [|by apply try_consume_ok].
  rewrite can_consume_spec by apply Hm. apply bool_decide_eq_true. rewrite <- Hr.
  unfold weight_le, plus. cbn. lia.
Qed.
End meter.

(** ** Fees *)

Section fee_polynomials.
Import Fees.
Context (w : Z) (checked_pow : IntTy -> Z -> Z -> option Z).
Context (Hw : primitive_width w) {Hpow : CheckedPow checked_pow}.

Definition coeff_ok (c : WeightToFeeCoefficient) : Prop :=
  is_uint w (coeff_integer c) /\ 0 <= coeff_frac c <= ACCURACY Perbill /\ is_uint 8 (degree c).

(** One term at a power [p] of the argument, and the polynomial. *)
Definition frac_part (c : WeightToFeeCoefficient) (p : Z) : Z :=
  round_div NearestPrefDown (p * coeff_frac c) (ACCURACY Perbill).
Definition term (c : WeightToFeeCoefficient) (x : Z) : Z :=
  let t := frac_part c (x ^ degree c) + coeff_integer c * x ^ degree c in
  if negative c then - t else t.
Definition polynomial (cs : list WeightToFeeCoefficient) (acc x : Z) : Z :=
  foldl (fun acc c => acc + term c x) acc cs.

(** No power and no partial sum leaves the balance type. *)
Fixpoint representable (cs : list WeightToFeeCoefficient) (acc x : Z) : Prop :=
  match cs with
  | [] => True
  | c :: cs =>
    x ^ degree c <= umax w /\ 0 <= acc + term c x <= umax w /\ representable cs (acc + term c x) x
  end.

Lemma clamp_unsigned x : clamp (unsigned w) x = Z.max 0 (Z.min (umax w) x).
Proof. done. Qed.

Lemma umax_pos : 0 < umax w.
Proof. apply (unsigned_int_type w). by apply primitive_pos. Qed.

Lemma frac_part_bounds c p : coeff_ok c -> 0 <= p -> 0 <= frac_part c p <= p.
Proof.
  intros (_ & ? & _) ?. unfold frac_part.
  split; [apply round_div_nonneg|apply round_div_le_mul]; unfold Perbill in *; cbn in *; nia.
Qed.

Lemma saturating_eval_spec c acc x :
  coeff_ok c -> is_uint w acc -> is_uint w x ->
  let p := Z.min (umax w) (x ^ degree c) in
  let t := frac_part c p + coeff_integer c * p in
  saturating_eval w checked_pow c acc x
    = Some (if negative c then Z.max 0 (acc - t) else Z.min (umax w) (acc + t)).
Proof.
  intros Hc Ha Hx p t. pose proof umax_pos as Hu. pose proof Hc as (Hi & Hf & Hd).
  pose proof (primitive_pos w Hw) as Hw0. pose proof (unsigned_int_type w Hw0) as HT.
  assert (Hp0 : 0 <= x ^ degree c) by (apply Z.pow_nonneg, Hx).
  assert (Hp : is_uint w p) by (unfold is_uint, p; lia).
  unfold saturating_eval.
  rewrite saturating_pow_clamp, clamp_unsigned by (done || apply Hd).
  replace (Z.max 0 (Z.min (umax w) (x ^ degree c))) with p by (unfold p; lia).
  unfold mul_n. rewrite overflow_prune_mul_spec by (done || apply per_things_ok).
  cbn [mbind option_bind]. fold (frac_part c p).
  rewrite saturating_mul_clamp by done. unfold int_saturating_sub, int_saturating_add.
  rewrite !clamp_unsigned. pose proof (frac_part_bounds c p Hc (proj1 Hp)).
  assert (0 <= coeff_integer c * p) by (unfold is_uint in *; nia).
  unfold t, is_uint in *. f_equal. destruct (negative c); lia.
Qed.

Lemma saturated_from_u64 x : is_uint 64 x -> unique_saturated_from (unsigned w) x = Z.min (umax w) x.
Proof.
  intros [? _]. unfold unique_saturated_from, try_from.
  destruct (checked_spec (unsigned w) x) as [[? ->]|[[? ->]|[? ->]]]; cbn in *; lia.
Qed.

(** The value of [eval] on accumulator [acc]. *)
Definition eval_from (cs : list WeightToFeeCoefficient) (acc x : Z) : option Z :=
  for_in cs (fun term acc => saturating_eval w checked_pow term acc x) acc.

Lemma eval_total cs acc x :
  Forall coeff_ok cs -> is_uint w acc -> is_uint w x ->
  exists v, eval_from cs acc x = Some v /\ is_uint w v.
Proof.
  intros Hcs. revert acc. induction Hcs as [|c cs Hc _ IH]; intros acc Ha Hx; [by exists acc|].
  unfold eval_from. cbn [for_in]. rewrite saturating_eval_spec by done. cbn [mbind option_bind].
  apply IH; [|done]. pose proof umax_pos. pose proof Hc as ([Hi _] & _ & _).
  assert (0 <= x ^ degree c) by (apply Z.pow_nonneg, Hx).
  set (p := Z.min (umax w) (x ^ degree c)).
  pose proof (frac_part_bounds c p Hc ltac:(lia)). assert (0 <= coeff_integer c * p) by nia.
  unfold is_uint in *. destruct (negative c); lia.
Qed.

Lemma eval_exact cs acc x :
  Forall coeff_ok cs -> is_uint w acc -> is_uint w x -> representable cs acc x ->
  eval_from cs acc x = Some (polynomial cs acc x).
Proof.
  intros Hcs. revert acc. induction Hcs as [|c cs Hc _ IH]; intros acc Ha Hx Hr; [done|].
  destruct Hr as (Hp & Hs & Hr). unfold eval_from. cbn [for_in]. rewrite saturating_eval_spec by done.
  cbn [mbind option_bind]. rewrite Z.min_r by done.
  replace (if negative c then _ else _) with (acc + term c x); [by apply IH|].
  unfold term in *. cbn in *. destruct (negative c); lia.
Qed.

Lemma frac_part_mono c p p' : coeff_ok c -> 0 <= p <= p' -> frac_part c p <= frac_part c p'.
Proof.
  intros (_ & ? & _) ?. unfold frac_part. cbn [round_div].
  apply Z.div_le_mono; unfold Perbill in *; cbn in *; nia.
Qed.

Lemma eval_mono cs x x' : forall acc acc' v v',
  Forall coeff_ok cs -> Forall (fun c => negative c = false) cs ->
  is_uint w acc -> is_uint w acc' -> is_uint w x -> is_uint w x' -> acc <= acc' -> x <= x' ->
  eval_from cs acc x = Some v -> eval_from cs acc' x' = Some v' -> v <= v'.
Proof.
  induction cs as [|c cs IH]; intros acc acc' v v' Hcs Hn Ha Ha' Hx Hx' Hle Hlex.
  { intros [= <-] [= <-]. done. }
  apply Forall_cons in Hcs as [Hc Hcs]. apply Forall_cons in Hn as [Hn Hns].
  unfold eval_from. cbn [for_in]. rewrite !saturating_eval_spec by done. cbn [mbind option_bind].
  rewrite Hn. pose proof umax_pos. pose proof Hc as ([Hi _] & _ & [Hd _]).
  assert (Hpow0 : 0 <= x ^ degree c) by (apply Z.pow_nonneg, Hx).
  assert (Hpm : x ^ degree c <= x' ^ degree c) by (apply Z.pow_le_mono_l; unfold is_uint in *; lia).
  set (p := Z.min (umax w) (x ^ degree c)). set (p' := Z.min (umax w) (x' ^ degree c)).
  pose proof (frac_part_mono c p p' Hc ltac:(lia)).
  pose proof (frac_part_bounds c p Hc ltac:(lia)).
  assert (0 <= coeff_integer c * p <= coeff_integer c * p') by nia.
  apply IH; try done; unfold is_uint in *; lia.
Qed.
End fee_polynomials.

(** A fee polynomial is evaluated without abort or overflow for every
    weight; the fee is the exact polynomial, its fractional parts rounded to
    the nearest, whenever no power and no partial sum leaves the balance type;
    and with no negative term, more weight never costs less. *)
Theorem fee_polynomial_sound (w : Z) (checked_pow : IntTy -> Z -> Z -> option Z)
    (cs : list Fees.WeightToFeeCoefficient) (a b : Weight) :
  CheckedPow checked_pow -> primitive_width w -> Forall (coeff_ok w) cs ->
  wf_weight a -> wf_weight b -> ref_time a <= ref_time b ->
  exists fa fb,
    Fees.polynomial_weight_to_fee w checked_pow cs a = Some fa /\ is_uint w fa /\
    Fees.polynomial_weight_to_fee w checked_pow cs b = Some fb /\ is_uint w fb /\
    (let x := Z.min (umax w) (ref_time a) in
     representable w cs 0 x -> fa = polynomial cs 0 x) /\
    (Forall (fun c => Fees.negative c = false) cs -> fa <= fb).
Proof.
  intros Hpow Hw Hcs [Ha _] [Hb _] Hle. pose proof (umax_pos w Hw) as Hu.
  assert (H0 : is_uint w 0) by (unfold is_uint; lia).
  assert (Hx : forall x, is_uint 64 x -> is_uint w (Z.min (umax w) x)) by (unfold is_uint; lia).
  destruct (eval_total w checked_pow Hw cs 0 _ Hcs H0 (Hx _ Ha)) as (fa & Ea & Hfa).
  destruct (eval_total w checked_pow Hw cs 0 _ Hcs H0 (Hx _ Hb)) as (fb & Eb & Hfb).
  exists fa, fb. unfold Fees.polynomial_weight_to_fee, Fees.eval.
  rewrite !saturated_from_u64 by done. do 4 (split; [done|]). split.
  - intros Hr. pose proof (eval_exact w checked_pow Hw cs 0 _ Hcs H0 (Hx _ Ha) Hr) as He.
    rewrite Ea in He. by injection He.
  - intros Hn. apply (eval_mono w checked_pow Hw cs _ _ 0 0 fa fb Hcs Hn H0 H0 (Hx _ Ha) (Hx _ Hb));
      [lia|lia|exact Ea|exact Eb].
Qed.

(** ** Witnesses *)

Lemma div_per_component_is_largest_witness :
  checked_div_per_component (mkWeight 100 7) (mkWeight 30 0) = Some 3 /\
  (4 <= 3 <-> exists p, WeightV2.checked_mul (mkWeight 30 0) 4 = Some p /\ all_lte p (mkWeight 100 7) = true).
Proof.
  split; [reflexivity|].
  refine (proj2 (div_per_component_is_largest (mkWeight 100 7) (mkWeight 30 0) _ _) 3 4 _ _);
    [..|reflexivity|]; vm_compute; intuition discriminate.
Defined.

Lemma meter_never_exceeds_witness :
  let ops := [TryConsume (mkWeight 6 1); TryConsume (mkWeight 5 0); ReclaimProofSize 1; Consume (mkWeight 1 0)] in
  let m := meter_run ops (Meter.with_limit (mkWeight 10 1)) in
  plus (Meter.consumed m) (Meter.remaining m) = mkWeight 10 1 /\
  Meter.try_consume m (mkWeight 3 1) = (Meter.mkMeter (mkWeight 10 1) (mkWeight 10 1), Ok tt) /\
  ~ weight_le (Meter.consumed (Meter.consume m (mkWeight 4 0))) (mkWeight 10 1).
Proof.
  intros ops m. assert (Hm : meter_ok (Meter.with_limit (mkWeight 10 1))) by (split; vm_compute; intuition discriminate).
  assert (Hops : Forall op_wf ops) by (repeat constructor; vm_compute; discriminate).
  assert (Hw : forall t, 0 <= t <= 4 -> wf_weight (mkWeight t 1) /\ wf_weight (mkWeight t 0)).
  { intros t Ht. unfold wf_weight, is_uint. change (umax 64) with 18446744073709551615. cbn. lia. }
  destruct (meter_never_exceeds ops _ (mkWeight 3 1) Hm Hops (proj1 (Hw 3 ltac:(lia)))) as (_ & H1 & _ & H2 & _).
  destruct (meter_never_exceeds ops _ (mkWeight 4 0) Hm Hops (proj2 (Hw 4 ltac:(lia)))) as (_ & _ & _ & _ & _ & H3).
  split; [apply H1; reflexivity|]. split; [exact H2|]. apply H3; reflexivity.
Defined.

Lemma sub_meter_fits_witness :
  Meter.can_consume (Meter.mkMeter (mkWeight 3 3) (mkWeight 10 4))
    (Meter.consumed (meter_run [TryConsume (mkWeight 5 1); Consume (mkWeight 2 0)]
       (Meter.limit_to (Meter.mkMeter (mkWeight 3 3) (mkWeight 10 4)) (mkWeight 8 8)))) = true.
Proof.
  refine (proj1 (proj2 (sub_meter_fits [TryConsume (mkWeight 5 1); Consume (mkWeight 2 0)]
    (Meter.mkMeter (mkWeight 3 3) (mkWeight 10 4)) (mkWeight 8 8) _ _ _ _)));
    [split| | |reflexivity]; repeat constructor; vm_compute; discriminate.
Defined.

(** The polynomial of the unit tests, without its half cube: [7 x + 2.333 x ^ 2 - 10000]. *)
Definition test_polynomial : list Fees.WeightToFeeCoefficient :=
  [Fees.mkCoeff 2 333333333 false 2; Fees.mkCoeff 7 0 false 1; Fees.mkCoeff 10000 0 true 0].

Lemma fee_polynomial_sound_witness :
  exists fa fb,
    Fees.polynomial_weight_to_fee 64 reference_checked_pow test_polynomial (mkWeight 100 0) = Some fa /\
    Fees.polynomial_weight_to_fee 64 reference_checked_pow test_polynomial MAX = Some fb /\
    fa = polynomial test_polynomial 0 100.
Proof.
  destruct (fee_polynomial_sound 64 reference_checked_pow test_polynomial (mkWeight 100 0) MAX)
    as (fa & fb & Ha & _ & Hb & _ & He & _).
  - intros ? ? ? _ _ _. reflexivity.
  - unfold primitive_width. lia.
  - repeat constructor; vm_compute; discriminate.
  - repeat constructor; vm_compute; discriminate.
  - repeat constructor; vm_compute; discriminate.
  - vm_compute. discriminate.
  - exists fa, fb. split; [exact Ha|]. split; [exact Hb|]. apply He. vm_compute. intuition discriminate.
Defined.
