(* ===== verification/Normalize.v ===== *)
(** * Threshold comparison and normalization

    Model of [substrate/primitives/arithmetic/src/lib.rs]: [ThresholdOrd::tcmp],
    and [normalize], which moves the elements of a vector until they add up to
    a target, for an unsigned integer type of any width and for the parts per
    thing.  [Panic] is a failed [expect] or an index out of bounds; plain [+] and
    [-] wrap as in a release build. *)

From stdpp Require Import base option numbers list strings sorting.
From Stdlib Require Import ZArith Lia.
From S2P Require Import Prelude Traits Arith128 Rational PerThing.
Local Open Scope Z_scope.

Definition tcmp (T : IntTy) (self other threshold : Z) : comparison :=
  if threshold =? 0 then self ?= other
  else
    let upper_bound := int_saturating_add T other threshold in
    let lower_bound := int_saturating_sub T other threshold in
    if upper_bound <=? lower_bound then self ?= other
    else
      match self ?= lower_bound, self ?= upper_bound with
      | Gt, Gt => Gt
      | Lt, Lt => Lt
      | _, _ => Eq
      end.

Section normalize.
(** The width of the number type. *)
Context (w : Z).

(** Stable sorts by the value and by the original index. *)
Fixpoint insert_by (key : nat * Z -> Z) (x : nat * Z) (l : list (nat * Z)) : list (nat * Z) :=
  match l with
  | [] => [x]
  | y :: l => if key x <=? key y then x :: y :: l else y :: insert_by key x l
  end.
Definition sort_by_key (key : nat * Z -> Z) (l : list (nat * Z)) : list (nat * Z) :=
  foldr (insert_by key) [] l.

Definition enumerate (l : list Z) : list (nat * Z) := zip (seq 0 (length l)) l.

(** [sum = sum.checked_add(t)?] over the input. *)
Definition checked_sum (input : list Z) : option Z :=
  for_in input (fun t sum => checked_add w sum t) 0.

(** One bump of the element at [min_index] by [amount]. *)
Definition bump (threshold : Z) (count : nat) (amount : Z) (s : list (nat * Z) * nat) :
    option (list (nat * Z) * nat) :=
  let '(output, min_index) := s in
  '(k, v) ← output !! min_index;
  v ← checked_add w v amount;
  Some (<[min_index := (k, v)]> output,
        if threshold <=? v then ((min_index + 1) mod count)%nat else min_index).

(** One round of [while !leftover.is_zero()] of the increasing branch. *)
Definition bump_leftover (threshold : Z) (count : nat) (s : list (nat * Z) * nat * Z) :
    (list (nat * Z) * nat * Z) + option (list (nat * Z)) :=
  let '(output, min_index, leftover) := s in
  if leftover =? 0 then inr (Some output)
  else match bump threshold count 1 (output, min_index) with
       | None => inr None
       | Some s => inl (s, wrapping w (leftover - 1))
       end.

Definition previous (count max_index : nat) : nat :=
  match max_index with O => (count - 1)%nat | S i => i end.

(** One round of the decreasing [for] loop: what an element cannot give is
    added to [leftover]. *)
Definition lower (threshold : Z) (count : nat) (per_round : Z) (s : list (nat * Z) * nat * Z) :
    option (list (nat * Z) * nat * Z) :=
  let '(output, max_index, leftover) := s in
  '(k, v) ← output !! max_index;
  let '(v, leftover) :=
    match checked_sub v per_round with
    | Some x => (x, leftover)
    | None =>
      let remainder := wrapping w (per_round - v) in
      (saturating_sub v per_round, wrapping w (leftover + remainder))
    end in
  Some (<[max_index := (k, v)]> output,
        if v <=? threshold then previous count max_index else max_index, leftover).

(** One round of [while !leftover.is_zero()] of the decreasing branch. *)
Definition lower_leftover (threshold : Z) (count : nat) (s : list (nat * Z) * nat * Z) :
    (list (nat * Z) * nat * Z) + option (list (nat * Z)) :=
  let '(output, max_index, leftover) := s in
  if leftover =? 0 then inr (Some output)
  else
    match output !! max_index with
    | None => inr None
    | Some (k, v) =>
      match checked_sub v 1 with
      | Some next =>
        inl (<[max_index := (k, next)]> output,
             if next <=? threshold then previous count max_index else max_index,
             wrapping w (leftover - 1))
      | None => inl (output, previous count max_index, leftover)
      end
    end.

(** The result of a loop; [None] also when the fuel does not suffice. *)
Definition finished {St A : Type} (r : St + option A) : option A :=
  match r with inl _ => None | inr x => x end.

Definition increase (output : list (nat * Z)) (count : nat) (targeted_sum per_round leftover : Z) :
    option (list (nat * Z)) :=
  let threshold := targeted_sum / Z.of_nat count in
  '(output, min_index) ←
    (if per_round =? 0 then Some (output, 0%nat)
     else for_in (seq 0 count) (fun _ => bump threshold count per_round) (output, 0%nat));
  finished (loop (Z.to_pos (leftover + 1)) (bump_leftover threshold count)
              (output, min_index, leftover)).

Definition decrease (output : list (nat * Z)) (count : nat) (per_round leftover : Z) :
    option (list (nat * Z)) :=
  let max_index := (count - 1)%nat in
  '(_, threshold) ← head output;
  '(output, max_index, leftover) ←
    (if per_round =? 0 then Some (output, max_index, leftover)
     else for_in (seq 0 count) (fun _ => lower threshold count per_round)
            (output, max_index, leftover));
  finished (loop (Z.to_pos ((leftover + 1) * (Z.of_nat count + 1)))
              (lower_leftover threshold count) (output, max_index, leftover)).

Definition normalize (input : list Z) (targeted_sum : Z) : outcome string (list Z) :=
  obind (ok_or "sum of input cannot fit in `T`" (checked_sum input)) (fun sum =>
  let count := length input in
  obind (ok_or "length of `inputs` cannot fit in `T`" (try_from (unsigned w) (Z.of_nat count)))
  (fun count_t =>
  if (count =? 0)%nat then Ok []
  else
    let diff := wrapping w (Z.max targeted_sum sum - Z.min targeted_sum sum) in
    if diff =? 0 then Ok input
    else
      let needs_bump := sum <? targeted_sum in
      let per_round := diff / count_t in
      let leftover := diff mod count_t in
      let output_with_idx := sort_by_key snd (enumerate input) in
      obind (expect (if needs_bump then increase output_with_idx count targeted_sum per_round leftover
                     else decrease output_with_idx count per_round leftover))
      (fun output_with_idx =>
      Ok (map snd (sort_by_key (fun x => Z.of_nat (fst x)) output_with_idx))))).
End normalize.

(** [Normalizable] for vectors of parts per thing. *)
Definition normalize_per_things (P : PerThing) (self : list Z) (targeted_sum : Z) :
    outcome string (list Z) :=
  obind (normalize (Upper P) self targeted_sum) (fun normalized =>
  Ok (map (fun i => PerThing.from_parts P (saturated_into (Inner P) i)) normalized)).

(** * Correctness *)

(** ** Sums and sorting *)

Fixpoint zsum (l : list Z) : Z := match l with [] => 0 | x :: l => x + zsum l end.

#[export] Instance zsum_perm : Proper (Permutation ==> eq) zsum.
Proof. intros l k. induction 1 as [|x l k _ IH|x y l|l k j _ IH1 _ IH2]; cbn; lia. Qed.

Lemma zsum_nonneg l : Forall (fun x => 0 <= x) l -> 0 <= zsum l.
Proof. induction 1 as [|x l Hx _ IH]; cbn; lia. Qed.

Lemma zsum_app l k : zsum (l ++ k) = zsum l + zsum k.
Proof. induction l as [|x l IH]; cbn; lia. Qed.

Lemma zsum_insert (l : list (nat * Z)) i k v v' :
  l !! i = Some (k, v) -> zsum (map snd (<[i := (k, v')]> l)) = zsum (map snd l) - v + v'.
Proof.
  intros Hi. rewrite insert_take_drop by (by eapply lookup_lt_Some).
  rewrite <- (take_drop_middle l i (k, v) Hi) at 3. rewrite !map_app, !zsum_app. cbn. lia.
Qed.

Lemma zsum_lookup_le (l : list (nat * Z)) i k v :
  Forall (fun x => 0 <= x) (map snd l) -> l !! i = Some (k, v) -> v <= zsum (map snd l).
Proof.
  revert i. induction l as [|[k0 v0] l IH]; intros [|i] Hl Hi; cbn in *; simplify_eq;
    apply Forall_cons in Hl as [Hv Hl]; pose proof (zsum_nonneg _ Hl); [lia|].
  specialize (IH i Hl Hi). lia.
Qed.

Lemma zsum_positive (l : list (nat * Z)) :
  Forall (fun x => 0 <= x) (map snd l) -> 0 < zsum (map snd l) ->
  exists i p, l !! i = Some p /\ 0 < snd p.
Proof.
  induction l as [|[k v] l IH]; cbn; [lia|]. intros [Hv Hl]%Forall_cons Hs.
  destruct (decide (0 < v)); [by exists 0%nat, (k, v)|].
  destruct IH as (i & p & ? & ?); [done|lia|]. by exists (S i), p.
Qed.

Lemma insert_by_perm key x l : insert_by key x l ≡ₚ x :: l.
Proof.
  induction l as [|y l IH]; cbn; [done|]. case_match; [done|]. rewrite IH. apply Permutation_swap.
Qed.

Lemma sort_by_key_perm key l : sort_by_key key l ≡ₚ l.
Proof. induction l as [|x l IH]; cbn; [done|]. by rewrite insert_by_perm, IH. Qed.

Lemma insert_by_sorted key x l :
  Sorted (fun a b => key a <= key b) l -> Sorted (fun a b => key a <= key b) (insert_by key x l).
Proof.
  induction 1 as [|y l Hs IH Hhd]; cbn; [by repeat constructor|].
  destruct (Z.leb_spec (key x) (key y)); [by repeat constructor|].
  constructor; [done|]. destruct Hhd; cbn; [constructor; lia|].
  case_match; constructor; lia.
Qed.

Lemma sort_by_key_sorted key l : Sorted (fun a b => key a <= key b) (sort_by_key key l).
Proof. induction l; cbn; [constructor|by apply insert_by_sorted]. Qed.

Lemma seq_sorted a n : Sorted le (seq a n).
Proof.
  revert a. induction n as [|n IH]; intros a; cbn; constructor; [done|].
  destruct n; cbn; constructor. lia.
Qed.

(** Sorting by the index restores the order of the indices. *)
Lemma sort_by_index l n :
  map fst l ≡ₚ seq 0 n -> map fst (sort_by_key (fun x => Z.of_nat (fst x)) l) = seq 0 n.
Proof.
  intros Hl. apply (Sorted_unique le).
  - pose proof (sort_by_key_sorted (fun x => Z.of_nat (fst x)) l) as Hs.
    induction Hs as [|x k _ IH Hhd]; cbn; constructor; [done|].
    destruct Hhd; cbn; constructor. lia.
  - apply seq_sorted.
  - by rewrite sort_by_key_perm.
Qed.

Lemma enumerate_fst l : map fst (enumerate l) = seq 0 (length l).
Proof. unfold enumerate. apply fst_zip. rewrite length_seq. done. Qed.

Lemma enumerate_snd l : map snd (enumerate l) = l.
Proof. unfold enumerate. apply snd_zip. rewrite length_seq. done. Qed.

(** ** The loops *)

Section loops.
Context (w : Z) (Hw : 0 < w).

(** Working copies of [input]: every index once, with a value related to the
    one of the input. *)
Record frame (R : Z -> Z -> Prop) (input : list Z) (out : list (nat * Z)) : Prop := {
  frame_keys : map fst out ≡ₚ seq 0 (length input);
  frame_vals : forall i k v, out !! i = Some (k, v) ->
    0 <= v /\ exists x, input !! k = Some x /\ R x v;
}.

Lemma frame_length R input out : frame R input out -> length out = length input.
Proof.
  intros [Hk _]. apply Permutation_length in Hk. by rewrite length_map, length_seq in Hk.
Qed.

Lemma frame_nonneg R input out : frame R input out -> Forall (fun x => 0 <= x) (map snd out).
Proof.
  intros [_ Hv]. apply Forall_fmap, Forall_lookup_2. intros i [k v] Hi. by destruct (Hv i k v Hi).
Qed.

Lemma frame_update R input out i k v v' :
  frame R input out -> out !! i = Some (k, v) -> 0 <= v' -> (forall x, R x v -> R x v') ->
  frame R input (<[i := (k, v')]> out).
Proof.
  intros [Hk Hv] Hi Hv' HR. split.
  - rewrite list_fmap_insert, list_insert_id; [done|]. by rewrite list_lookup_fmap, Hi.
  - intros j k' u Hj. destruct (decide (i = j)) as [<-|Hne].
    + rewrite list_lookup_insert_eq in Hj by (by eapply lookup_lt_Some). simplify_eq.
      split; [done|]. destruct (Hv _ _ _ Hi) as (_ & x & ? & ?). eauto.
    + rewrite list_lookup_insert_ne in Hj by done. eauto.
Qed.

Lemma frame_lookup R input out i :
  frame R input out -> (i < length input)%nat ->
  exists k v, out !! i = Some (k, v) /\ 0 <= v <= zsum (map snd out).
Proof.
  intros Hf Hi. destruct (lookup_lt_is_Some_2 out i) as [[k v] Hl].
  { by rewrite (frame_length _ _ _ Hf). }
  exists k, v. split; [done|]. split; [by apply (frame_vals _ _ _ Hf i k v)|].
  eapply zsum_lookup_le; [by eapply frame_nonneg|done].
Qed.

Lemma bump_spec input out i threshold amount :
  frame Z.le input out -> (i < length input)%nat -> 0 <= amount ->
  zsum (map snd out) + amount <= umax w ->
  exists out' i', bump w threshold (length input) amount (out, i) = Some (out', i') /\
    frame Z.le input out' /\ (i' < length input)%nat /\
    zsum (map snd out') = zsum (map snd out) + amount.
Proof.
  intros Hf Hi Ha Hs. destruct (frame_lookup _ _ _ i Hf Hi) as (k & v & Hl & Hv).
  unfold bump. rewrite Hl. cbn [mbind option_bind].
  rewrite (proj2 (checked_add_Some w v amount (v + amount))) by lia. cbn [mbind option_bind].
  eexists _, _. split; [done|]. split; [|split].
  - eapply frame_update; [done|done|lia|]. cbn. intros. lia.
  - case_match; [|done]. apply Nat.mod_upper_bound. lia.
  - rewrite (zsum_insert _ _ _ _ _ Hl). lia.
Qed.

Lemma increase_spec input out targeted_sum per_round leftover :
  frame Z.le input out -> input <> [] -> 0 <= per_round -> 0 <= leftover -> targeted_sum <= umax w ->
  zsum (map snd out) + Z.of_nat (length input) * per_round + leftover = targeted_sum ->
  exists out', increase w out (length input) targeted_sum per_round leftover = Some out' /\
    frame Z.le input out' /\ zsum (map snd out') = targeted_sum.
Proof.
  intros Hf Hne Hp Hl Ht Hsum. assert (Hn : (0 < length input)%nat) by (destruct input; cbn; [done|lia]).
  unfold increase. set (th := targeted_sum / Z.of_nat (length input)).
  assert (exists out1 i1, (if per_round =? 0 then Some (out, 0%nat)
      else for_in (seq 0 (length input)) (fun _ => bump w th (length input) per_round) (out, 0%nat))
        = Some (out1, i1) /\ frame Z.le input out1 /\ (i1 < length input)%nat /\
      zsum (map snd out1) + leftover = targeted_sum) as (out1 & i1 & -> & Hf1 & Hi1 & Hs1).
  { destruct (Z.eqb_spec per_round 0) as [->|Hp0].
    { exists out, 0%nat. split_and!; [done..|lia]. }
    destruct (for_in_seq (fun j s => frame Z.le input s.1 /\ (s.2 < length input)%nat /\
      zsum (map snd s.1) + (Z.of_nat (length input) - Z.of_nat j) * per_round + leftover = targeted_sum)
      (fun _ => bump w th (length input) per_round) (length input) 0%nat (out, 0%nat))
      as ([out1 i1] & Hrun & Hf1 & Hi1 & Hs1); cbn in *.
    - split_and!; [done..|lia].
    - intros j [o i] Hj (Ho & Hi & Hs). cbn in *.
      destruct (bump_spec input o i th per_round) as (o' & i' & Hb & ? & ? & Hs'); [done..|nia|].
      exists (o', i'). cbn. split_and!; [done..|nia].
    - exists out1, i1. split_and!; [done..|nia]. }
  cbn [mbind option_bind].
  destruct (loop_total (fun s => frame Z.le input s.1.1 /\ (s.1.2 < length input)%nat /\
      0 <= s.2 /\ zsum (map snd s.1.1) + s.2 = targeted_sum)
    (fun r => exists o, r = Some o /\ frame Z.le input o /\ zsum (map snd o) = targeted_sum)
    snd (bump_leftover w th (length input)) (Z.to_pos (leftover + 1)) (out1, i1, leftover))
    as (r & -> & o & -> & Ho); [tauto| |done|cbn; lia|].
  - intros [[o i] l] (Ho & Hi & Hl0 & Hs). cbn in *. destruct (Z.eqb_spec l 0) as [->|Hl1].
    { exists o. split_and!; [done..|lia]. }
    destruct (bump_spec input o i th 1) as (o' & i' & Hb & Hf' & Hi' & Hs'); [done..|lia|lia|].
    cbn [bump] in Hb. rewrite Hb. pose proof (zsum_nonneg _ (frame_nonneg _ _ _ Ho)).
    rewrite wrapping_id by (unfold is_uint; lia). cbn. split_and!; (done || lia).
  - cbn. eauto.
Qed.

Lemma previous_lt count i : (i < count)%nat -> (previous count i < count)%nat.
Proof. destruct i; cbn; lia. Qed.

Lemma lower_spec input out i leftover threshold per_round rest :
  frame Z.ge input out -> (i < length input)%nat -> 0 <= per_round -> 0 <= leftover -> 0 <= rest ->
  zsum (map snd out) <= umax w ->
  zsum (map snd out) = rest + per_round + leftover ->
  exists out' i' leftover',
    lower w threshold (length input) per_round (out, i, leftover) = Some (out', i', leftover') /\
    frame Z.ge input out' /\ (i' < length input)%nat /\ 0 <= leftover' /\
    zsum (map snd out') <= umax w /\ zsum (map snd out') = rest + leftover'.
Proof.
  intros Hf Hi Hp Hl0 Hr Hu Hs. destruct (frame_lookup _ _ _ i Hf Hi) as (k & v & Hl & Hv).
  unfold lower. rewrite Hl. cbn [mbind option_bind]. set (v' := Z.max 0 (v - per_round)).
  assert (Hstep : match checked_sub v per_round with
    | Some x => (x, leftover)
    | None => (saturating_sub v per_round, wrapping w (leftover + wrapping w (per_round - v)))
    end = (v', leftover + (per_round - (v - v')))).
  { unfold checked_sub, saturating_sub. destruct (Z.leb_spec per_round v).
    - f_equal; lia.
    - rewrite !wrapping_id by (rewrite ?wrapping_id; unfold is_uint; lia). f_equal. lia. }
  rewrite Hstep. eexists _, _, _. split; [done|]. split_and!.
  - eapply frame_update; [done|done|lia|]. cbn. intros. lia.
  - destruct (v' <=? threshold); [by apply previous_lt|done].
  - lia.
  - rewrite (zsum_insert _ _ _ _ _ Hl). lia.
  - rewrite (zsum_insert _ _ _ _ _ Hl). lia.
Qed.

(** Where the next element is that has something left: the first positive one. *)
Definition positive_index (out : list (nat * Z)) : Z :=
  match list_find (fun p => 0 < snd p) out with Some (j, _) => Z.of_nat j | None => 0 end.

Lemma positive_index_spec R input out :
  frame R input out -> 0 < zsum (map snd out) ->
  exists j k v, positive_index out = Z.of_nat j /\ out !! j = Some (k, v) /\ 0 < v /\
    (j < length input)%nat.
Proof.
  intros Hf Hs. destruct (zsum_positive out (frame_nonneg _ _ _ Hf) Hs) as (i & p & Hi & Hp).
  destruct (list_find_elem_of (fun p => 0 < snd p) out p) as [[j [k v]] Hj].
  { by eapply list_elem_of_lookup_2. } { done. }
  unfold positive_index. rewrite Hj. apply list_find_Some in Hj as (Hj & Hv & _).
  exists j, k, v. split_and!; [done..|]. rewrite <- (frame_length _ _ _ Hf). by eapply lookup_lt_Some.
Qed.

Lemma previous_distance (n i j : nat) :
  (i < n)%nat -> (j < n)%nat -> i <> j ->
  (Z.of_nat (previous n i) - Z.of_nat j) mod Z.of_nat n
    = (Z.of_nat i - Z.of_nat j) mod Z.of_nat n - 1.
Proof.
  intros Hi Hj Hne.
  assert (Hp : Z.of_nat (previous n i) = Z.of_nat i - 1 \/
               (i = 0%nat /\ Z.of_nat (previous n i) = Z.of_nat n - 1)).
  { destruct i; cbn; lia. }
  destruct (decide (j < i)%nat).
  - rewrite !Z.mod_small; lia.
  - assert (Hm : (Z.of_nat i - Z.of_nat j) mod Z.of_nat n = Z.of_nat i - Z.of_nat j + Z.of_nat n).
    { symmetry. apply (Z.mod_unique _ _ (-1)); lia. }
    rewrite Hm. destruct Hp as [->|[-> ->]]; [|rewrite Z.mod_small; lia].
    symmetry. apply (Z.mod_unique _ _ (-1)); lia.
Qed.

(** The rounds left: every unit of [leftover] takes at most one tour. *)
Definition tours (n : nat) (s : list (nat * Z) * nat * Z) : Z :=
  s.2 * (Z.of_nat n + 1) + (Z.of_nat s.1.2 - positive_index s.1.1) mod Z.of_nat n.

Definition lower_inv (input : list Z) (target : Z) (s : list (nat * Z) * nat * Z) : Prop :=
  frame Z.ge input s.1.1 /\ (s.1.2 < length input)%nat /\ 0 <= s.2 /\
  zsum (map snd s.1.1) <= umax w /\ zsum (map snd s.1.1) = target + s.2.

Lemma lower_leftover_step input target threshold s :
  0 <= target -> lower_inv input target s ->
  match lower_leftover w threshold (length input) s with
  | inl s' => lower_inv input target s' /\ tours (length input) s' < tours (length input) s
  | inr r => exists out, r = Some out /\ frame Z.ge input out /\ zsum (map snd out) = target
  end.
Proof.
  destruct s as [[out i] l]. intros Ht (Hf & Hi & Hl & Hu & Hs). cbn in *.
  destruct (Z.eqb_spec l 0) as [->|Hl0]; [exists out; split_and!; [done..|lia]|].
  destruct (frame_lookup _ _ _ i Hf Hi) as (k & v & Hv & Hv0). rewrite Hv.
  set (n := Z.of_nat (length input)). assert (Hn : 0 < n) by lia.
  unfold checked_sub. destruct (Z.leb_spec 1 v).
  - rewrite wrapping_id by (unfold is_uint; lia). split.
    + unfold lower_inv. cbn. rewrite (zsum_insert _ _ _ _ _ Hv). split_and!; try lia.
      * eapply frame_update; [done|done|lia|]. cbn. intros. lia.
      * case_match; [by apply previous_lt|done].
    + unfold tours. cbn [fst snd]. fold n.
      pose proof (Z.mod_pos_bound (Z.of_nat i - positive_index out) n Hn) as Hd.
      match goal with |- _ + ?x mod n < _ => pose proof (Z.mod_pos_bound x n Hn) as Hd' end. nia.
  - split; [unfold lower_inv; cbn; split_and!; try done; by apply previous_lt|].
    destruct (positive_index_spec _ _ _ Hf) as (j & k' & v' & Hj & Hjv & Hv' & Hjn); [lia|].
    unfold tours. cbn [fst snd]. rewrite Hj, previous_distance; [lia|done|done|].
    intros ->. rewrite Hv in Hjv. simplify_eq. lia.
Qed.

Lemma decrease_spec input out targeted_sum per_round leftover :
  frame Z.ge input out -> input <> [] -> 0 <= per_round -> 0 <= leftover -> 0 <= targeted_sum ->
  zsum (map snd out) <= umax w ->
  zsum (map snd out) = targeted_sum + Z.of_nat (length input) * per_round + leftover ->
  exists out', decrease w out (length input) per_round leftover = Some out' /\
    frame Z.ge input out' /\ zsum (map snd out') = targeted_sum.
Proof.
  intros Hf Hne Hp Hl Ht Hu Hsum.
  assert (Hn : (0 < length input)%nat) by (destruct input; cbn; [done|lia]).
  unfold decrease. destruct (frame_lookup _ _ _ 0%nat Hf Hn) as (k0 & th & Hh & _).
  assert (head out = Some (k0, th)) as -> by (by destruct out). cbn [mbind option_bind].
  assert (exists s1, (if per_round =? 0 then Some (out, (length input - 1)%nat, leftover)
      else for_in (seq 0 (length input)) (fun _ => lower w th (length input) per_round)
             (out, (length input - 1)%nat, leftover)) = Some s1 /\ lower_inv input targeted_sum s1)
    as ([[out1 i1] l1] & -> & Hinv).
  { destruct (Z.eqb_spec per_round 0) as [->|Hp0].
    { eexists. split; [done|]. unfold lower_inv. cbn. split_and!; (done || lia). }
    destruct (for_in_seq (fun j s => lower_inv input
        (targeted_sum + (Z.of_nat (length input) - Z.of_nat j) * per_round) s)
      (fun _ => lower w th (length input) per_round) (length input) 0%nat
      (out, (length input - 1)%nat, leftover)) as (s1 & Hrun & Hinv).
    - unfold lower_inv. cbn. split_and!; (done || lia).
    - intros j [[o i] l] Hj (Ho & Hi & Hl' & Hu' & Hs). cbn [fst snd] in *.
      destruct (lower_spec input o i l th per_round
        (targeted_sum + (Z.of_nat (length input) - Z.of_nat (j + 1)) * per_round))
        as (o' & i' & l' & -> & ? & ? & ? & ? & ?); [done|done|done|done|nia|done|nia|].
      eexists. split; [done|]. unfold lower_inv. cbn. split_and!; (done || lia).
    - exists s1. split; [done|]. by replace (_ + _) with targeted_sum in Hinv by lia. }
  cbn [mbind option_bind].
  destruct (loop_total (lower_inv input targeted_sum)
    (fun r => exists o, r = Some o /\ frame Z.ge input o /\ zsum (map snd o) = targeted_sum)
    (tours (length input)) (lower_leftover w th (length input))
    (Z.to_pos ((l1 + 1) * (Z.of_nat (length input) + 1))) (out1, i1, l1))
    as (r & -> & o & -> & Ho); [| |done| |by eauto].
  - intros s (_ & ? & ? & _). unfold tours.
    pose proof (Z.mod_pos_bound (Z.of_nat s.1.2 - positive_index s.1.1) (Z.of_nat (length input))). nia.
  - intros s Hs. by apply lower_leftover_step.
  - destruct Hinv as (_ & _ & Hl1 & _). unfold tours. cbn [fst snd] in *. rewrite Z2Pos.id by nia.
    pose proof (Z.mod_pos_bound (Z.of_nat i1 - positive_index out1) (Z.of_nat (length input))). nia.
Qed.
End loops.

(** ** [normalize] *)

Lemma checked_sum_from w input acc :
  Forall (is_uint w) input -> is_uint w acc ->
  for_in input (fun t sum => checked_add w sum t) acc
    = if acc + zsum input <=? umax w then Some (acc + zsum input) else None.
Proof.
  intros Hin. revert acc. induction Hin as [|x l Hx Hl IH]; intros acc [Ha Hu]; cbn [for_in zsum].
  { rewrite Z.add_0_r. by rewrite (proj2 (Z.leb_le _ _)). }
  assert (0 <= zsum l) by (apply zsum_nonneg; eapply Forall_impl; [done|]; intros ? []; done).
  destruct Hx as [Hx0 _]. destruct (checked_add w acc x) as [s|] eqn:Hs; cbn [mbind option_bind].
  - apply checked_add_Some in Hs as [-> Hs]. rewrite IH by (unfold is_uint; lia).
    by rewrite Z.add_assoc.
  - apply checked_add_None in Hs. by rewrite (proj2 (Z.leb_gt _ _)) by lia.
Qed.

Lemma checked_sum_spec w input :
  0 < w -> Forall (is_uint w) input ->
  checked_sum w input = if zsum input <=? umax w then Some (zsum input) else None.
Proof.
  intros Hw Hin. pose proof (unsigned_int_type w Hw) as [? _]. cbn in *.
  unfold checked_sum. by rewrite checked_sum_from by (done || unfold is_uint; lia).
Qed.

Lemma enumerate_frame (R : Z -> Z -> Prop) w input :
  (forall x, R x x) -> Forall (is_uint w) input ->
  frame R input (sort_by_key snd (enumerate input)).
Proof.
  intros HR Hin. split.
  - rewrite sort_by_key_perm, enumerate_fst. done.
  - intros i k v Hi. apply list_elem_of_lookup_2 in Hi. rewrite sort_by_key_perm in Hi.
    apply list_elem_of_lookup in Hi as [j Hj]. unfold enumerate in Hj.
    apply lookup_zip_Some in Hj as [Hk Hv]. apply lookup_seq in Hk as [-> _].
    split; [|by exists v]. rewrite Forall_lookup in Hin. by apply (Hin j).
Qed.

(** Reading the values back in the original order. *)
Lemma frame_restore R input out :
  frame R input out ->
  let output := map snd (sort_by_key (fun x => Z.of_nat (fst x)) out) in
  zsum output = zsum (map snd out) /\ Forall (fun x => 0 <= x) output /\ Forall2 R input output.
Proof.
  intros Hf. pose proof (sort_by_index out (length input) (frame_keys _ _ _ Hf)) as Hk.
  pose proof (sort_by_key_perm (fun x => Z.of_nat (fst x)) out) as Hp.
  set (srt := sort_by_key _ out) in *. cbn. split_and!.
  - by rewrite Hp.
  - rewrite Hp. by eapply frame_nonneg.
  - assert (Hlen : length srt = length input).
    { apply (f_equal length) in Hk. by rewrite length_map, length_seq in Hk. }
    apply Forall2_same_length_lookup_2; [by rewrite length_map|].
    intros i x y Hx Hy. rewrite list_lookup_fmap in Hy.
    destruct (srt !! i) as [[k v]|] eqn:Hi; [|done]. cbn in Hy. simplify_eq.
    assert (Hki : map fst srt !! i = Some k) by (rewrite list_lookup_fmap, Hi; done).
    rewrite Hk in Hki. apply lookup_seq in Hki as [-> _]. cbn in Hi.
    apply list_elem_of_lookup_2 in Hi. rewrite Hp in Hi. apply list_elem_of_lookup in Hi as [j Hj].
    destruct (frame_vals _ _ _ Hf _ _ _ Hj) as (_ & x' & Hx' & HR). by simplify_eq.
Qed.

(** What a normalization owes: the target, reached from one side only. *)
Definition normalized (input : list Z) (target : Z) (output : list Z) : Prop :=
  zsum output = (if (length input =? 0)%nat then 0 else target) /\
  Forall (fun x => 0 <= x) output /\
  (if zsum input <=? target then Forall2 Z.le input output else Forall2 Z.ge input output).

Lemma normalize_spec w input target :
  0 < w -> Forall (is_uint w) input -> is_uint w target ->
  if umax w <? zsum input then normalize w input target = Err "sum of input cannot fit in `T`"%string
  else if umax w <? Z.of_nat (length input)
  then normalize w input target = Err "length of `inputs` cannot fit in `T`"%string
  else exists output, normalize w input target = Ok output /\ normalized input target output.
Proof.
  intros Hw Hin Ht. unfold normalize. rewrite checked_sum_spec by done.
  assert (Hin0 : Forall (fun x => 0 <= x) input) by (eapply Forall_impl; [done|]; intros ? []; done).
  pose proof (zsum_nonneg _ Hin0) as Hs0. rewrite Z.leb_antisym.
  destruct (Z.ltb_spec (umax w) (zsum input)) as [|Hs]; [done|]. cbn [negb ok_or obind].
  unfold try_from. destruct (checked_spec (unsigned w) (Z.of_nat (length input)))
    as [[Hc ->]|[[Hc ->]|[Hc ->]]]; cbn in Hc; [|lia|rewrite (proj2 (Z.ltb_lt _ _)) by lia; done].
  destruct (Z.ltb_spec (umax w) (Z.of_nat (length input))); [lia|]. cbn [ok_or obind].
  unfold is_uint in Ht. rewrite wrapping_id by (unfold is_uint; lia). unfold normalized.
  destruct (Nat.eqb_spec (length input) 0) as [H0|Hn].
  { apply nil_length_inv in H0 as ->. exists []. cbn. split_and!; (done || by case_match). }
  destruct (Z.eqb_spec (Z.max target (zsum input) - Z.min target (zsum input)) 0) as [Hd|Hd].
  { exists input. split_and!; [done|lia|done|]. rewrite (proj2 (Z.leb_le _ _)) by lia.
    apply Forall2_same_length_lookup_2; [done|]. intros. simplify_eq. lia. }
  set (diff := Z.max target (zsum input) - Z.min target (zsum input)) in *.
  set (n := Z.of_nat (length input)) in *. assert (Hn0 : 0 < n) by lia.
  pose proof (Z.div_mod diff n ltac:(lia)) as Hdm. pose proof (Z.mod_pos_bound diff n Hn0) as Hm.
  pose proof (Z.div_pos diff n ltac:(lia) Hn0) as Hq.
  assert (Hne : input <> []) by (intros ->; done).
  assert (Hsum : zsum (map snd (sort_by_key snd (enumerate input))) = zsum input).
  { by rewrite sort_by_key_perm, enumerate_snd. }
  destruct (Z.ltb_spec (zsum input) target).
  - destruct (increase_spec w input (sort_by_key snd (enumerate input)) target (diff / n) (diff mod n))
      as (out & -> & Hf & Ho); [by eapply enumerate_frame; [lia|]|done|lia|lia|lia|lia|].
    destruct (frame_restore _ _ _ Hf) as (? & ? & ?). eexists. split; [done|].
    rewrite (proj2 (Z.leb_le _ _)) by lia. split_and!; [lia|done..].
  - destruct (decrease_spec w input (sort_by_key snd (enumerate input)) target (diff / n) (diff mod n))
      as (out & -> & Hf & Ho); [by eapply enumerate_frame; [lia|]|done|lia|lia|lia|lia|lia|].
    destruct (frame_restore _ _ _ Hf) as (? & ? & ?). eexists. split; [done|].
    rewrite (proj2 (Z.leb_gt _ _)) by lia. split_and!; [lia|done..].
Qed.

(** C38: [normalize] always returns, for every width: with one of its two
    errors exactly when the sum or the length of the input does not fit, and
    otherwise with a vector of the same length whose sum is exactly the target,
    every element moved in the direction of the target only.  The exception is
    the empty input, for which the answer is [Ok] of the empty vector, with the
    sum zero, whatever the target; the documentation of
    [Normalizable::normalize] promises an error there.  No [expect] fails, no index is out of bounds and the
    one-by-one loops over the leftover end. *)
Theorem normalize_reaches_target (w : Z) (input : list Z) (target : Z) :
  0 < w -> Forall (is_uint w) input -> is_uint w target ->
  if umax w <? zsum input then normalize w input target = Err "sum of input cannot fit in `T`"%string
  else if umax w <? Z.of_nat (length input)
  then normalize w input target = Err "length of `inputs` cannot fit in `T`"%string
  else exists output, normalize w input target = Ok output /\ normalized input target output.
Proof. apply normalize_spec. Qed.

Lemma zsum_elem_le l x : Forall (fun x => 0 <= x) l -> x ∈ l -> x <= zsum l.
Proof.
  induction 1 as [|y l Hy Hl IH]; [by intros ?%elem_of_nil|].
  pose proof (zsum_nonneg _ Hl). cbn. intros [->|Hx]%elem_of_cons; [lia|]. specialize (IH Hx). lia.
Qed.

(** C39: normalizing a vector of parts per thing fails exactly when the sum or
    the length of the input does not fit the upper type, and otherwise gives
    parts per thing that add up to exactly the target, or the empty vector for
    the empty one: the conversion back from the upper type changes no element. *)
Theorem normalize_per_things_exact (P : PerThing) (input : list Z) (target : Z) :
  per_thing_ok P -> Forall (valid P) input -> valid P target ->
  if umax (Upper P) <? zsum input
  then normalize_per_things P input target = Err "sum of input cannot fit in `T`"%string
  else if umax (Upper P) <? Z.of_nat (length input)
  then normalize_per_things P input target = Err "length of `inputs` cannot fit in `T`"%string
  else exists output, normalize_per_things P input target = Ok output /\
    normalized input target output /\ Forall (valid P) output.
Proof.
  intros HP Hin Ht. pose proof (A_bounds P HP) as HA. pose proof (umax_upper P HP) as HU.
  assert (Hup : forall x, valid P x -> is_uint (Upper P) x) by (unfold valid, is_uint; nia).
  pose proof (normalize_spec (Upper P) input target) as H. unfold normalize_per_things.
  specialize (H ltac:(apply primitive_pos, HP) ltac:(by eapply Forall_impl) ltac:(auto)).
  destruct (umax (Upper P) <? zsum input); [by rewrite H|].
  destruct (umax (Upper P) <? Z.of_nat (length input)); [by rewrite H|]. destruct H as (out & Hrun & Hn).
  pose proof Hn as (Hsum & Hpos & _).
  assert (Hv : Forall (valid P) out).
  { apply Forall_forall. intros x Hx. rewrite Forall_forall in Hpos.
    pose proof (zsum_elem_le out x (proj2 (Forall_forall _ _) Hpos) Hx). unfold valid in *.
    specialize (Hpos x Hx). cbn in Hpos. case_match; lia. }
  exists out. split; [|done]. rewrite Hrun. cbn [obind]. f_equal.
  rewrite <- (map_id out) at 2. apply map_ext_Forall. eapply Forall_impl; [done|].
  unfold valid, PerThing.from_parts, saturated_into. intros x Hx. lia.
Qed.

(** [tcmp] is the documented comparison: greater above [other + threshold],
    less below [other - threshold] and equal in between, the saturation of the
    bounds notwithstanding; the defensive branch is never taken for a positive
    threshold. *)
Theorem tcmp_is_documented (T : IntTy) (self other threshold : Z) :
  int_type T -> in_range T self -> in_range T other -> 0 <= threshold ->
  tcmp T self other threshold =
    (if other + threshold <? self then Gt else if self <? other - threshold then Lt else Eq) /\
  (0 < threshold -> int_saturating_sub T other threshold < int_saturating_add T other threshold).
Proof.
  intros [HT1 HT2] Hs Ho Ht. unfold tcmp, int_saturating_add, int_saturating_sub, clamp. split; [|lia].
  destruct (Z.eqb_spec threshold 0) as [->|Ht0].
  - destruct (Z.compare_spec self other), (Z.ltb_spec (other + 0) self), (Z.ltb_spec self (other - 0));
      (done || lia).
  - rewrite (proj2 (Z.leb_gt _ _)) by lia.
    repeat match goal with |- context [?a ?= ?b] => destruct (Z.compare_spec a b) end;
      destruct (Z.ltb_spec (other + threshold) self), (Z.ltb_spec self (other - threshold));
      (done || lia).
Qed.

(** ** Witnesses *)

Lemma normalize_reaches_target_witness :
  exists output, normalize 8 [200; 0; 5; 50] 3 = Ok output /\ normalized [200; 0; 5; 50] 3 output.
Proof.
  refine (normalize_reaches_target 8 [200; 0; 5; 50] 3 _ _ _);
    [lia|repeat constructor; vm_compute; discriminate|vm_compute; split; discriminate].
Defined.

Lemma normalize_per_things_exact_witness :
  exists output, normalize_per_things Percent [33; 33; 33] 100 = Ok output /\
    normalized [33; 33; 33] 100 output /\ Forall (valid Percent) output.
Proof.
  refine (normalize_per_things_exact Percent [33; 33; 33] 100 _ _ _);
    [apply per_things_ok|repeat constructor; vm_compute; discriminate|vm_compute; split; discriminate].
Defined.

Lemma tcmp_is_documented_witness :
  tcmp (unsigned 8) 250 253 10 = Eq /\ tcmp (signed 8) (-128) 0 127 = Lt.
Proof.
  split.
  - refine (eq_trans (proj1 (tcmp_is_documented (unsigned 8) 250 253 10 _ _ _ _)) _);
      [apply unsigned_int_type|vm_compute..|]; try done; vm_compute; intuition discriminate.
  - refine (eq_trans (proj1 (tcmp_is_documented (signed 8) (-128) 0 127 _ _ _ _)) _);
      [apply signed_int_type|vm_compute..|]; try done; vm_compute; intuition discriminate.
Defined.
