(* ===== verification/FixedPoint.v ===== *)
(** * Fixed point numbers

    Model of [substrate/primitives/arithmetic/src/fixed_point.rs]: the trait
    [FixedPointNumber] and the macro [implement_fixed!] behind [FixedI64],
    [FixedU64], [FixedI128] and [FixedU128], over the inner integer type and the
    accuracy; and of the [ensure_*] operations of fixed point numbers of
    [traits.rs].  A number is its inner integer.  [None] in the place of a value
    is a panic; plain [+] and [-] and casts wrap as in a release build. *)

From stdpp Require Import base option numbers list.
From Stdlib Require Import ZArith Lia.
From S2P Require Import Prelude Traits Arith128 Rational PerThing.
Local Open Scope Z_scope.

(** The arguments of [implement_fixed!]: [$inner_type] and [$div]. *)
Record FixedPoint : Set := { FInner : IntTy; DIV : Z }.

Definition FixedI64 : FixedPoint := {| FInner := signed 64; DIV := 1000000000 |}.
Definition FixedU64 : FixedPoint := {| FInner := unsigned 64; DIV := 1000000000 |}.
Definition FixedI128 : FixedPoint := {| FInner := signed 128; DIV := 1000000000000000000 |}.
Definition FixedU128 : FixedPoint := {| FInner := unsigned 128; DIV := 1000000000000000000 |}.

(** Two's complement wrap-around into an integer type; [as] casts. *)
Definition int_wrapping (T : IntTy) (x : Z) : Z :=
  min_value T + (x - min_value T) mod (max_value T - min_value T + 1).

(** [CheckedNeg] of the primitive types. *)
Definition checked_neg (T : IntTy) (x : Z) : option Z := checked T (- x).

Record I129 : Set := mkI129 { value : Z; i129_negative : bool }.

Abbreviation u128 := (unsigned 128).

(** [From<N> for I129]. *)
Definition into_i129 (N : IntTy) (n : Z) : I129 :=
  if n <? 0 then
    let value :=
      match checked_neg N n with
      | Some n => unique_saturated_into u128 n
      | None => saturating_add 128 (unique_saturated_into u128 (max_value N)) 1
      end in
    mkI129 value true
  else mkI129 (unique_saturated_into u128 n) false.

Definition from_i129 (N : IntTy) (n : I129) : option Z :=
  let max_plus_one := saturating_add 128 (unique_saturated_into u128 (max_value N)) 1 in
  if i129_negative n && (min_value N <? 0) && (value n =? max_plus_one) then Some (min_value N)
  else
    unsigned_inner ← try_from N (value n);
    if i129_negative n then checked_neg N unsigned_inner else Some unsigned_inner.

Definition to_bound (R : IntTy) (n m : Z) : Z :=
  if negb (Bool.eqb (n <? 0) (m <? 0)) then min_value R else max_value R.

Section fixed_point.
Context (F : FixedPoint).
Abbreviation T := (FInner F).

Definition fzero : Z := 0.
Definition fone : Z := DIV F.
Definition is_positive (self : Z) : bool := 0 <? self.
Definition is_negative (self : Z) : bool := self <? 0.
(** [FixedPointNumber::is_one], as written. *)
Definition fis_one (self : Z) : bool := self =? 1.

Definition saturating_from_integer (N : IntTy) (int : Z) : Z :=
  let n := into_i129 N int in
  let n := mkI129 (saturating_mul 128 (value n) (unique_saturated_into u128 (DIV F)))
                  (i129_negative n) in
  match from_i129 T n with Some x => x | None => to_bound T int 0 end.

Definition checked_from_integer (int : Z) : option Z := int_checked_mul T int (DIV F).

Definition checked_from_rational (N D : IntTy) (n d : Z) : option Z :=
  if d =? 0 then None
  else
    let n := into_i129 N n in
    let d := into_i129 D d in
    let negative := negb (Bool.eqb (i129_negative n) (i129_negative d)) in
    value ← multiply_by_rational_with_rounding (value n) (unique_saturated_into u128 (DIV F)) (value d)
              (from_signed Minor negative);
    from_i129 T (mkI129 value negative).

(** Aborts for a zero divisor. *)
Definition saturating_from_rational (N D : IntTy) (n d : Z) : option Z :=
  if d =? 0 then None
  else Some (match checked_from_rational N D n d with Some x => x | None => to_bound T n d end).

Definition checked_mul_int (N : IntTy) (self n : Z) : option Z :=
  let lhs := into_i129 T self in
  let rhs := into_i129 N n in
  let negative := negb (Bool.eqb (i129_negative lhs) (i129_negative rhs)) in
  value ← multiply_by_rational_with_rounding (value lhs) (value rhs) (unique_saturated_into u128 (DIV F))
            (from_signed Minor negative);
  from_i129 N (mkI129 value negative).

Definition saturating_mul_int (N : IntTy) (self n : Z) : Z :=
  match checked_mul_int N self n with Some x => x | None => to_bound N self n end.

Definition checked_div_int (N : IntTy) (self d : Z) : option Z :=
  let lhs := into_i129 T self in
  let rhs := into_i129 N d in
  let negative := negb (Bool.eqb (i129_negative lhs) (i129_negative rhs)) in
  n ← checked_div (value lhs) (value rhs);
  value ← checked_div n (unique_saturated_into u128 (DIV F));
  from_i129 N (mkI129 value negative).

Definition saturating_div_int (N : IntTy) (self d : Z) : option Z :=
  if d =? 0 then None
  else Some (match checked_div_int N self d with Some x => x | None => to_bound N self d end).

Definition fsaturating_add (self rhs : Z) : Z := int_saturating_add T self rhs.
Definition fsaturating_sub (self rhs : Z) : Z := int_saturating_sub T self rhs.

Definition saturating_mul_acc_int (N : IntTy) (self n : Z) : Z :=
  if is_negative self && (0 <? n) then
    int_saturating_sub N n (saturating_mul_int N (fsaturating_sub fzero self) n)
  else int_saturating_add N (saturating_mul_int N self n) n.

Definition saturating_abs (self : Z) : Z :=
  if 0 <=? self then self
  else match checked_neg T self with Some x => x | None => max_value T end.

Definition fchecked_add (self rhs : Z) : option Z := int_checked_add T self rhs.
Definition fchecked_sub (self rhs : Z) : option Z := int_checked_sub T self rhs.

Definition fchecked_div (self other : Z) : option Z :=
  if other =? 0 then None
  else
    let lhs := into_i129 T self in
    let rhs := into_i129 T other in
    let negative := negb (Bool.eqb (i129_negative lhs) (i129_negative rhs)) in
    value ← multiply_by_rational_with_rounding (value lhs) (wrapping 128 (DIV F)) (value rhs)
              (from_signed Minor negative);
    from_i129 T (mkI129 value negative).

Definition fchecked_mul (self other : Z) : option Z :=
  let lhs := into_i129 T self in
  let rhs := into_i129 T other in
  let negative := negb (Bool.eqb (i129_negative lhs) (i129_negative rhs)) in
  value ← multiply_by_rational_with_rounding (value lhs) (value rhs) (wrapping 128 (DIV F))
            (from_signed Minor negative);
  from_i129 T (mkI129 value negative).

Definition fsaturating_mul (self rhs : Z) : Z :=
  match fchecked_mul self rhs with Some x => x | None => to_bound T self rhs end.

(** [Div] aborts for a zero divisor and on overflow, [Mul] on overflow. *)
Definition fdiv (self rhs : Z) : option Z := if rhs =? 0 then None else fchecked_div self rhs.
Definition fmul (self rhs : Z) : option Z := fchecked_mul self rhs.
Definition fadd (self rhs : Z) : Z := int_wrapping T (self + rhs).
Definition fsub (self rhs : Z) : Z := int_wrapping T (self - rhs).
Definition fneg (self : Z) : Z := int_wrapping T (0 - self).

Definition reciprocal (self : Z) : option Z := fchecked_div fone self.

(** [i32], the type of the literals [10] and [5] below. *)
Abbreviation i32 := (signed 32).

Definition trunc (self : Z) : option Z :=
  q ← int_checked_div T self (DIV F);
  int_checked_mul T q (DIV F).

Definition frac (self : Z) : option Z :=
  integer ← trunc self;
  let fractional := fsaturating_sub self integer in
  Some (if integer =? fzero then fractional else saturating_abs fractional).

Definition ceil (self : Z) : option Z :=
  if is_negative self then trunc self
  else
    f ← frac self;
    if f =? fzero then Some self else trunc (fsaturating_add self fone).

Definition floor (self : Z) : option Z :=
  if is_negative self then trunc (fsaturating_sub self fone) else trunc self.

Definition round (self : Z) : option Z :=
  f ← frac self;
  let n := fsaturating_mul f (saturating_from_integer i32 10) in
  if n <? saturating_from_integer i32 5 then trunc self
  else if is_positive self then trunc (fsaturating_add self fone)
  else trunc (fsaturating_sub self fone).

(** The loop of [saturating_pow] over the bits of the truncated exponent. *)
Fixpoint fpow_loop (n : nat) (i exp result pow_val : Z) : Z :=
  match n with
  | O => result
  | S n =>
    let result := if 0 <? Z.land (Z.shiftl 1 i) exp then fsaturating_mul result pow_val else result in
    fpow_loop n (i + 1) exp result (fsaturating_mul pow_val pow_val)
  end.

Definition fsaturating_pow (self exp : Z) : Z :=
  if exp =? 0 then saturating_from_integer i32 1
  else
    let exp := wrapping 32 exp in
    let msb_pos := if exp =? 0 then 0 else Z.log2 exp + 1 in
    fpow_loop (Z.to_nat msb_pos) 0 exp (saturating_from_integer i32 1) self.

(** ** The inherent operations of the macro *)

(** The inherent [into_i129] and [from_i129]. *)
Definition const_into_i129 (self : Z) : I129 :=
  if self <? 0 then
    let value :=
      match checked_neg T self with
      | Some n => wrapping 128 n
      | None => saturating_add 128 (wrapping 128 (max_value T)) 1
      end in
    mkI129 value true
  else mkI129 (wrapping 128 self) false.

Definition const_from_i129 (n : I129) : option Z :=
  let max_plus_one := saturating_add 128 (wrapping 128 (max_value T)) 1 in
  if i129_negative n && (min_value T <? 0) && (value n =? max_plus_one) then Some (min_value T)
  else
    let unsigned_inner := int_wrapping T (value n) in
    if negb (wrapping 128 unsigned_inner =? value n) ||
       negb (Bool.eqb (0 <? unsigned_inner) (0 <? value n)) then None
    else if i129_negative n then checked_neg T unsigned_inner
    else Some unsigned_inner.

Definition const_checked_mul_with_rounding (self other : Z) (rounding : SignedRounding) : option Z :=
  let lhs := const_into_i129 self in
  let rhs := const_into_i129 other in
  let negative := negb (Bool.eqb (i129_negative lhs) (i129_negative rhs)) in
  match multiply_by_rational_with_rounding (value lhs) (value rhs) (wrapping 128 (DIV F))
          (from_signed rounding negative) with
  | Some value => const_from_i129 (mkI129 value negative)
  | None => None
  end.
Definition const_checked_mul (self other : Z) : option Z :=
  const_checked_mul_with_rounding self other NearestPrefLow.

Definition checked_rounding_div (self other : Z) (rounding : SignedRounding) : option Z :=
  if other =? 0 then None
  else
    let lhs := const_into_i129 self in
    let rhs := const_into_i129 other in
    let negative := negb (Bool.eqb (i129_negative lhs) (i129_negative rhs)) in
    match multiply_by_rational_with_rounding (value lhs) (wrapping 128 (DIV F)) (value rhs)
            (from_signed rounding negative) with
    | Some value => const_from_i129 (mkI129 value negative)
    | None => None
    end.
Definition const_checked_div (self other : Z) : option Z :=
  checked_rounding_div self other NearestPrefLow.

(** These abort where the checked operation fails. *)
Definition const_mul (self rhs : Z) : option Z := const_checked_mul self rhs.
Definition const_div (self rhs : Z) : option Z := const_checked_div self rhs.

Definition ffrom_rational_with_rounding (a b : Z) (rounding : Rounding) : option Z :=
  if b =? 0 then None
  else
    match multiply_by_rational_with_rounding (wrapping 128 (DIV F)) a b rounding with
    | Some value => const_from_i129 (mkI129 value false)
    | None => None
    end.
Definition ffrom_rational (a b : Z) : option Z := ffrom_rational_with_rounding a b NearestPrefDown.

Definition from_u32 (n : Z) : Z := int_wrapping T (n * DIV F).
Definition from_perbill (n : Z) : option Z := ffrom_rational n 1000000000.

Definition into_perbill (self : Z) : option Z :=
  if self <=? 0 then Some (PerThing.zero Perbill)
  else if DIV F <=? self then Some (PerThing.one Perbill)
  else
    match multiply_by_rational_with_rounding (wrapping 128 self) 1000000000 (wrapping 128 (DIV F))
            NearestPrefDown with
    | Some value =>
      if umax 32 <? value then None else Some (PerThing.from_parts Perbill (wrapping 32 value))
    | None => Some (PerThing.zero Perbill)
    end.

Definition try_into_perthing (P : PerThing) (self : Z) : outcome Z Z :=
  if self <? fzero then Err (PerThing.zero P)
  else if fone <? self then Err (PerThing.one P)
  else Ok (PerThing.from_rational P 128 (wrapping 128 self) (DIV F)).

Definition into_clamped_perthing (P : PerThing) (self : Z) : Z :=
  if self <? fzero then PerThing.zero P
  else if fone <? self then PerThing.one P
  else PerThing.from_rational P 128 (wrapping 128 self) (DIV F).

(** [From<P>] for a fraction with an inner type of width [Inner P]. *)
Definition from_perthing (P : PerThing) (p : Z) : option Z :=
  saturating_from_rational (unsigned (Inner P)) (unsigned (Inner P)) p (ACCURACY P).

Definition fchecked_sqrt (self : Z) : option Z :=
  if self =? 0 then Some 0
  else if self <? 1 then None
  else
    let v := wrapping 128 self in
    let maybe_vd := checked_mul 128 v (DIV F) in
    let r := match maybe_vd with
             | Some vd => sqrt vd
             | None => wrapping 128 (sqrt v * sqrt (DIV F))
             end in
    Some (int_wrapping T r).
(** Aborts where [checked_sqrt] fails. *)
Definition fsqrt (self : Z) : option Z := fchecked_sqrt self.

(** ** [EnsureFixedPointNumber] of [traits.rs] *)

Definition ensure_from_rational (N D : IntTy) (n d : Z) : outcome ArithmeticError Z :=
  ok_or (division n d) (checked_from_rational N D n d).
Definition ensure_mul_int (N : IntTy) (self n : Z) : outcome ArithmeticError Z :=
  ok_or (multiplication self n) (checked_mul_int N self n).
Definition ensure_div_int (N : IntTy) (self d : Z) : outcome ArithmeticError Z :=
  ok_or (division self d) (checked_div_int N self d).
End fixed_point.

(** * Correctness *)

(** An integer type of at most 128 bits. *)
Definition operand (N : IntTy) : Prop := int_type N /\ max_value N <= umax 128 /\ - min_value N <= umax 128.

(** The types of the macro: a positive accuracy with room for ten units. *)
Record fixed_ok (F : FixedPoint) : Prop := {
  fixed_inner : operand (FInner F);
  fixed_div : 0 < DIV F;
  fixed_room : 10 * DIV F <= max_value (FInner F);
}.

Lemma fixed_types_ok : fixed_ok FixedI64 /\ fixed_ok FixedU64 /\ fixed_ok FixedI128 /\ fixed_ok FixedU128.
Proof.
  repeat match goal with |- _ /\ _ => split end; (split; [|reflexivity|vm_compute; discriminate]);
    (split; [first [apply signed_int_type; lia|apply unsigned_int_type; lia]|]);
    vm_compute; split; discriminate.
Qed.

Lemma saturated_into_u128 x : 0 <= x <= umax 128 -> unique_saturated_into u128 x = x.
Proof.
  intros Hx. unfold unique_saturated_into, try_from.
  destruct (checked_spec u128 x) as [[? ->]|[[H ->]|[H ->]]]; cbn in *; lia.
Qed.

Lemma into_i129_spec N n :
  operand N -> in_range N n -> into_i129 N n = mkI129 (Z.abs n) (n <? 0).
Proof.
  intros ([HN1 HN2] & HN3 & HN4) Hn. unfold into_i129. destruct (Z.ltb_spec n 0).
  - f_equal. unfold checked_neg. destruct (checked_spec N (- n)) as [[? ->]|[[? ->]|[? ->]]]; [|lia|].
    + rewrite saturated_into_u128; lia.
    + rewrite saturated_into_u128 by lia. unfold saturating_add. lia.
  - f_equal. rewrite saturated_into_u128; lia.
Qed.

(** A sign and a magnitude. *)
Definition with_sign (negative : bool) (v : Z) : Z := if negative then - v else v.

Lemma from_i129_spec N v negative :
  operand N -> 0 <= v -> from_i129 N (mkI129 v negative) = checked N (with_sign negative v).
Proof.
  intros ([HN1 HN2] & HN3 & HN4) Hv. unfold from_i129. cbn [value i129_negative].
  rewrite saturated_into_u128 by lia. unfold saturating_add, try_from, checked_neg, with_sign.
  destruct negative; cbn [andb].
  - destruct (Z.ltb_spec (min_value N) 0) as [Hs|Hs]; cbn [andb].
    + destruct (Z.eqb_spec v (umax 128 `min` (max_value N + 1))) as [He|He].
      { destruct (checked_spec N (- v)) as [[? ->]|[[? ->]|[? ->]]]; [f_equal|..]; lia. }
      destruct (checked_spec N v) as [[? ->]|[[? ->]|[? ->]]]; cbn [mbind option_bind]; [done|lia|].
      destruct (checked_spec N (- v)) as [[? ->]|[[? ->]|[? ->]]]; (done || lia).
    + destruct (checked_spec N v) as [[? ->]|[[? ->]|[? ->]]]; cbn [mbind option_bind]; [done|lia|].
      destruct (checked_spec N (- v)) as [[? ->]|[[? ->]|[? ->]]]; (done || lia).
  - destruct (checked_spec N v) as [[? ->]|[[? ->]|[? ->]]]; (done || lia).
Qed.

(** The product of two magnitudes over a third, with a sign. *)
Lemma rational_i129 N a b c r negative :
  operand N -> is_uint 128 a -> is_uint 128 b -> is_uint 128 c -> c <> 0 ->
  (v ← multiply_by_rational_with_rounding a b c r; from_i129 N (mkI129 v negative))
    = checked N (with_sign negative (round_div r (a * b) c)).
Proof.
  intros HN Ha Hb Hc Hc0. rewrite multiply_by_rational_spec by done. unfold rational_mul.
  rewrite (proj2 (Z.eqb_neq c 0) Hc0). cbn [orb]. unfold is_uint in *.
  pose proof (round_div_nonneg r (a * b) c ltac:(nia) ltac:(lia)) as Hq.
  destruct (Z.ltb_spec (umax 128) (round_div r (a * b) c)) as [Hbig|]; cbn [mbind option_bind].
  - destruct HN as ([? ?] & ? & ?). unfold with_sign.
    destruct (checked_spec N (if negative then - round_div r (a * b) c else round_div r (a * b) c))
      as [[Hr _]|[[_ ->]|[_ ->]]]; [destruct negative; lia|done|done].
  - by apply from_i129_spec.
Qed.

Lemma abs_uint N n : operand N -> in_range N n -> is_uint 128 (Z.abs n).
Proof. intros ([? ?] & ? & ?) ?. unfold is_uint. lia. Qed.

(** The side conditions of [rational_i129]. *)
Ltac i129_side := first [done | lia | (eapply abs_uint; [|eassumption]; eassumption)].

(** Truncation is division of the magnitudes. *)
Lemma with_sign_quot a b d :
  d <> 0 -> with_sign (negb (Bool.eqb (a <? 0) (b <? 0))) (Z.abs a * Z.abs b / Z.abs d)
    = Z.quot (a * b) (Z.abs d).
Proof.
  intros Hd. rewrite Z.quot_div by lia. rewrite Z.abs_mul, Z.abs_idemp, Z.sgn_mul.
  rewrite (Z.sgn_pos (Z.abs d)) by lia. unfold with_sign.
  destruct (Z.ltb_spec a 0), (Z.ltb_spec b 0); cbn [Bool.eqb negb];
    destruct (Z.sgn_spec a) as [[? ->]|[[? ->]|[? ->]]], (Z.sgn_spec b) as [[? ->]|[[? ->]|[? ->]]];
    try lia; replace (Z.abs a * Z.abs b) with 0 by lia; rewrite Z.div_0_l by lia; lia.
Qed.

Lemma with_sign_quot_by a c b :
  0 < c -> b <> 0 -> with_sign (negb (Bool.eqb (a <? 0) (b <? 0))) (Z.abs a * c / Z.abs b)
    = Z.quot (a * c) b.
Proof.
  intros Hc Hb. rewrite Z.quot_div by lia.
  rewrite Z.abs_mul, Z.sgn_mul, (Z.abs_eq c), (Z.sgn_pos c) by lia. unfold with_sign.
  destruct (Z.ltb_spec a 0), (Z.ltb_spec b 0); cbn [Bool.eqb negb];
    destruct (Z.sgn_spec a) as [[? ->]|[[? ->]|[? ->]]], (Z.sgn_spec b) as [[? ->]|[[? ->]|[? ->]]];
    try lia; replace (Z.abs a) with 0 by lia; rewrite Z.mul_0_l, Z.div_0_l by lia; lia.
Qed.

(** [q] is the rational [n / d], for a positive [d], rounded as documented for
    [SignedRounding]. *)
Definition rounds_to (r : SignedRounding) (n d q : Z) : Prop :=
  match r with
  | Low => d * q <= n < d * q + d
  | High => d * q - d < n <= d * q
  | Minor => q = Z.quot n d
  | Major => if 0 <=? n then d * q - d < n <= d * q else d * q <= n < d * q + d
  | NearestPrefHigh => 2 * (d * q) - d <= 2 * n < 2 * (d * q) + d
  | NearestPrefLow => 2 * (d * q) - d < 2 * n <= 2 * (d * q) + d
  | NearestPrefMajor =>
    if 0 <=? n then 2 * (d * q) - d <= 2 * n < 2 * (d * q) + d
    else 2 * (d * q) - d < 2 * n <= 2 * (d * q) + d
  | NearestPrefMinor =>
    if 0 <=? n then 2 * (d * q) - d < 2 * n <= 2 * (d * q) + d
    else 2 * (d * q) - d <= 2 * n < 2 * (d * q) + d
  end.

Lemma signed_rounding r negative n d :
  0 < d -> (negative = false -> 0 <= n) -> (negative = true -> n <= 0) ->
  rounds_to r n d (with_sign negative (round_div (from_signed r negative) (Z.abs n) d)).
Proof.
  intros Hd Hp Hn. pose proof (round_div_error (from_signed r negative) (Z.abs n) d Hd) as He.
  assert (Hquot : forall v, v = Z.abs n / d -> Z.quot n d = with_sign negative v).
  { intros v ->. rewrite Z.quot_div, (Z.sgn_pos d), (Z.abs_eq d) by lia. unfold with_sign.
    destruct (Z.sgn_spec n) as [[? ->]|[[Hz ->]|[? ->]]], negative; try lia;
      rewrite <- Hz; cbn [Z.abs]; rewrite Z.div_0_l by lia; lia. }
  assert (Hzero : n = 0 -> round_div (from_signed r negative) (Z.abs n) d = 0).
  { intros ->. change (Z.abs 0) with 0. destruct (from_signed r negative); cbn [round_div];
      apply Z.div_small; lia. }
  set (q := round_div _ _ d) in *.
  destruct (decide (n = 0)) as [Hn0|Hn0].
  { rewrite (Hzero Hn0) in *. subst n. replace (with_sign negative 0) with 0 by (by destruct negative).
    destruct r; cbn [rounds_to]; rewrite ?Z.mul_0_r, ?Z.quot_0_l by lia;
      change (0 <=? 0) with true; cbn iota; lia. }
  destruct r, negative; cbn [from_signed rounds_to with_sign] in *;
    try (destruct (Z.leb_spec 0 n)); try lia;
    try (rewrite (Hquot _ eq_refl); unfold q; reflexivity).
Qed.

Section fixed_proofs.
Context (F : FixedPoint) (HF : fixed_ok F).
Abbreviation T := (FInner F).
Abbreviation D := (DIV F).

Lemma D_bounds : 0 < D /\ 10 * D <= max_value T /\ 0 < D <= umax 128 /\ operand T.
Proof. destruct HF as [H1 H2 H3]. pose proof H1 as (? & ? & ?). split_and!; (done || lia). Qed.

Lemma D_uint : wrapping 128 D = D /\ unique_saturated_into u128 D = D /\ is_uint 128 D.
Proof.
  destruct D_bounds as (? & ? & ? & _).
  rewrite wrapping_id, saturated_into_u128 by (unfold is_uint; lia). unfold is_uint. lia.
Qed.

Lemma checked_mul_spec a b :
  in_range T a -> in_range T b -> fchecked_mul F a b = checked T (Z.quot (a * b) D).
Proof.
  intros Ha Hb. destruct D_bounds as (HD & _ & _ & HT), D_uint as (E1 & _ & HDu).
  unfold fchecked_mul. rewrite !into_i129_spec by done. cbn [value i129_negative]. rewrite E1.
  rewrite rational_i129 by i129_side. cbn [from_signed round_div].
  rewrite <- (Z.abs_eq D) by lia. rewrite with_sign_quot by lia. done.
Qed.

Lemma checked_div_spec a b :
  in_range T a -> in_range T b ->
  fchecked_div F a b = if b =? 0 then None else checked T (Z.quot (a * D) b).
Proof.
  intros Ha Hb. destruct D_bounds as (HD & _ & _ & HT), D_uint as (E1 & _ & HDu).
  unfold fchecked_div. destruct (Z.eqb_spec b 0); [done|].
  rewrite !into_i129_spec by done. cbn [value i129_negative]. rewrite E1.
  rewrite rational_i129 by i129_side. cbn [from_signed round_div].
  by rewrite with_sign_quot_by.
Qed.

Lemma checked_from_rational_spec N M n d :
  operand N -> operand M -> in_range N n -> in_range M d ->
  checked_from_rational F N M n d = if d =? 0 then None else checked T (Z.quot (n * D) d).
Proof.
  intros HN HM Hn Hd. destruct D_bounds as (HD & _ & _ & HT), D_uint as (_ & E1 & HDu).
  unfold checked_from_rational. destruct (Z.eqb_spec d 0); [done|].
  rewrite !into_i129_spec by done. cbn [value i129_negative]. rewrite E1.
  rewrite rational_i129 by i129_side. cbn [from_signed round_div].
  by rewrite with_sign_quot_by.
Qed.

Lemma checked_mul_int_spec N a n :
  operand N -> in_range T a -> in_range N n ->
  checked_mul_int F N a n = checked N (Z.quot (a * n) D).
Proof.
  intros HN Ha Hn. destruct D_bounds as (HD & _ & _ & HT), D_uint as (_ & E1 & HDu).
  unfold checked_mul_int. rewrite !into_i129_spec by done. cbn [value i129_negative]. rewrite E1.
  rewrite rational_i129 by i129_side. cbn [from_signed round_div].
  rewrite <- (Z.abs_eq D) by lia. rewrite with_sign_quot by lia. done.
Qed.

Lemma checked_div_int_spec N a d :
  operand N -> in_range T a -> in_range N d ->
  checked_div_int F N a d = if d =? 0 then None else checked N (Z.quot a (d * D)).
Proof.
  intros HN Ha Hd. destruct D_bounds as (HD & _ & _ & HT), D_uint as (_ & E1 & HDu).
  unfold checked_div_int. rewrite !into_i129_spec by done. cbn [value i129_negative].
  unfold checked_div. rewrite E1. destruct (Z.eqb_spec d 0) as [->|Hd0]; [done|].
  destruct (Z.eqb_spec (Z.abs d) 0); [lia|]. cbn [mbind option_bind].
  destruct (Z.eqb_spec D 0); [lia|]. cbn [mbind option_bind].
  rewrite Z.div_div by lia. rewrite from_i129_spec by (done || apply Z.div_pos; lia). f_equal.
  replace (Z.abs d * D) with (Z.abs (d * D)) by (rewrite Z.abs_mul; lia).
  replace (d <? 0) with (d * D <? 0) by (apply eq_bool_prop_intro; rewrite !Is_true_true, !Z.ltb_lt; nia).
  rewrite <- (Z.mul_1_r (Z.abs a)), with_sign_quot_by by lia. by rewrite Z.mul_1_r.
Qed.

(** A saturating operation built from a checked one. *)
Lemma bound_clamp N x n m :
  int_type N -> (x < 0 -> (n < 0 /\ 0 <= m) \/ (0 <= n /\ m < 0)) ->
  (0 < x -> (0 <= n /\ 0 <= m) \/ (n < 0 /\ m < 0)) ->
  match checked N x with Some y => y | None => to_bound N n m end = clamp N x.
Proof.
  intros [H1 H2] Hneg Hpos. unfold to_bound, clamp.
  destruct (checked_spec N x) as [[? ->]|[[? ->]|[? ->]]]; [lia|..];
    destruct (Z.ltb_spec n 0), (Z.ltb_spec m 0); cbn; lia.
Qed.

Lemma quot_signs a b d : d <> 0 ->
  (Z.quot (a * b) d < 0 -> 0 < d -> (a < 0 /\ 0 <= b) \/ (0 <= a /\ b < 0)) /\
  (0 < Z.quot (a * b) d -> 0 < d -> (0 <= a /\ 0 <= b) \/ (a < 0 /\ b < 0)).
Proof.
  intros Hd. split; intros Hq Hd0.
  - destruct (decide (0 <= a * b)) as [H|H]; [pose proof (Z.quot_pos (a * b) d H Hd0); lia|nia].
  - destruct (decide (a * b <= 0)) as [H|H]; [|nia].
    pose proof (Z.quot_pos (- (a * b)) d ltac:(lia) Hd0) as Hp. rewrite Z.quot_opp_l in Hp by lia. lia.
Qed.

(** ** The inherent operations *)

Lemma const_into_i129_eq a : in_range T a -> const_into_i129 F a = mkI129 (Z.abs a) (a <? 0).
Proof.
  intros Ha. destruct D_bounds as (_ & _ & _ & ([H1 H2] & H3 & H4)). unfold const_into_i129.
  rewrite (wrapping_id 128 (max_value T)) by (unfold is_uint; lia).
  destruct (Z.ltb_spec a 0).
  - f_equal. unfold checked_neg. destruct (checked_spec T (- a)) as [[? ->]|[[? ->]|[? ->]]]; [|lia|].
    + rewrite wrapping_id by (unfold is_uint; lia). lia.
    + unfold saturating_add. lia.
  - f_equal. rewrite wrapping_id by (unfold is_uint; lia). lia.
Qed.

Lemma int_wrapping_range x : min_value T <= int_wrapping T x <= max_value T.
Proof.
  destruct D_bounds as (_ & _ & _ & ([H1 H2] & _)). unfold int_wrapping.
  pose proof (Z.mod_pos_bound (x - min_value T) (max_value T - min_value T + 1)). lia.
Qed.

Lemma int_wrapping_id x : in_range T x -> int_wrapping T x = x.
Proof. intros. unfold int_wrapping. rewrite Z.mod_small by lia. lia. Qed.

Lemma const_from_i129_eq v negative :
  0 <= v <= umax 128 -> const_from_i129 F (mkI129 v negative) = checked T (with_sign negative v).
Proof.
  intros Hv. destruct D_bounds as (_ & _ & _ & HT). pose proof HT as ([H1 H2] & H3 & H4).
  rewrite <- from_i129_spec by (done || lia). unfold const_from_i129, from_i129. cbn [value i129_negative].
  rewrite saturated_into_u128, (wrapping_id 128 (max_value T)) by (unfold is_uint; lia).
  destruct (_ && _ && _); [done|]. unfold try_from.
  destruct (checked_spec T v) as [[Hr ->]|[[Hr ->]|[Hr ->]]]; cbn [mbind option_bind]; [|lia|].
  - rewrite int_wrapping_id, wrapping_id by (unfold is_uint; lia).
    rewrite Z.eqb_refl, Bool.eqb_reflx. done.
  - pose proof (int_wrapping_range v) as Hw. set (u := int_wrapping T v) in *.
    destruct (Z.ltb_spec 0 u) as [Hu|Hu].
    + rewrite wrapping_id by (unfold is_uint; lia). by rewrite (proj2 (Z.eqb_neq _ _)) by lia.
    + rewrite (proj2 (Z.ltb_lt 0 v)) by lia. cbn [Bool.eqb negb orb]. by rewrite orb_true_r.
Qed.

Lemma const_mul_spec a b r :
  in_range T a -> in_range T b ->
  exists q, rounds_to r (a * b) D q /\ const_checked_mul_with_rounding F a b r = checked T q.
Proof.
  intros Ha Hb. destruct D_bounds as (HD & _ & _ & HT), D_uint as (E1 & _ & HDu).
  unfold const_checked_mul_with_rounding. rewrite !const_into_i129_eq by done.
  cbn [value i129_negative]. rewrite E1. set (negative := negb _).
  pose proof (rational_i129 T (Z.abs a) (Z.abs b) D (from_signed r negative) negative HT
    ltac:(i129_side) ltac:(i129_side) HDu ltac:(lia)) as Hr.
  rewrite multiply_by_rational_spec in Hr |- * by i129_side. unfold rational_mul in *.
  exists (with_sign negative (round_div (from_signed r negative) (Z.abs (a * b)) D)). rewrite Z.abs_mul. split.
  - rewrite <- Z.abs_mul. apply signed_rounding; [done|..]; unfold negative;
      destruct (Z.ltb_spec a 0), (Z.ltb_spec b 0); cbn; (done || nia).
  - rewrite <- Hr. pose proof (round_div_nonneg (from_signed r negative) (Z.abs a * Z.abs b) D).
    destruct (Z.eqb_spec D 0); [lia|]. cbn [orb].
    destruct (Z.ltb_spec (umax 128) (round_div (from_signed r negative) (Z.abs a * Z.abs b) D));
      cbn [mbind option_bind]; [done|].
    rewrite const_from_i129_eq, from_i129_spec by (done || nia). done.
Qed.

Lemma const_div_spec a b r :
  in_range T a -> in_range T b ->
  if b =? 0 then checked_rounding_div F a b r = None
  else exists q, rounds_to r (a * D * Z.sgn b) (Z.abs b) q /\ checked_rounding_div F a b r = checked T q.
Proof.
  intros Ha Hb. destruct D_bounds as (HD & _ & _ & HT), D_uint as (E1 & _ & HDu).
  unfold checked_rounding_div. destruct (Z.eqb_spec b 0) as [|Hb0]; [done|].
  rewrite !const_into_i129_eq by done. cbn [value i129_negative]. rewrite E1. set (negative := negb _).
  pose proof (rational_i129 T (Z.abs a) D (Z.abs b) (from_signed r negative) negative HT
    ltac:(i129_side) HDu ltac:(i129_side) ltac:(lia)) as Hr.
  rewrite multiply_by_rational_spec in Hr |- * by i129_side. unfold rational_mul in *.
  exists (with_sign negative (round_div (from_signed r negative) (Z.abs (a * D * Z.sgn b)) (Z.abs b))).
  assert (Habs : Z.abs (a * D * Z.sgn b) = Z.abs a * D) by nia. split.
  - apply signed_rounding; [lia|..]; unfold negative;
      destruct (Z.ltb_spec a 0), (Z.ltb_spec b 0); cbn; (done || nia).
  - rewrite Habs, <- Hr. pose proof (round_div_nonneg (from_signed r negative) (Z.abs a * D) (Z.abs b)).
    destruct (Z.eqb_spec (Z.abs b) 0); [lia|]. cbn [orb].
    destruct (Z.ltb_spec (umax 128) (round_div (from_signed r negative) (Z.abs a * D) (Z.abs b)));
      cbn [mbind option_bind]; [done|].
    rewrite const_from_i129_eq, from_i129_spec by (done || nia). done.
Qed.

(** ** Integer parts *)

Lemma saturating_from_integer_spec N int :
  operand N -> in_range N int -> saturating_from_integer F N int = clamp T (int * D).
Proof.
  intros HN Hi. destruct D_bounds as (HD & _ & _ & HT), D_uint as (_ & E1 & HDu).
  pose proof HT as ([H1 H2] & H3 & H4). unfold saturating_from_integer.
  rewrite into_i129_spec by done. cbn [value i129_negative]. rewrite E1. unfold saturating_mul.
  rewrite from_i129_spec by (done || unfold is_uint in *; nia).
  rewrite bound_clamp; [|done|unfold with_sign; destruct (Z.ltb_spec int 0); unfold is_uint in *; nia..].
  unfold with_sign, clamp. destruct (Z.ltb_spec int 0); nia.
Qed.

Lemma small_integer k : 0 <= k <= 10 -> saturating_from_integer F (signed 32) k = k * D.
Proof.
  intros Hk. destruct D_bounds as (HD & ? & ? & ([H1 H2] & H3 & H4)).
  rewrite saturating_from_integer_spec; [unfold clamp; nia| |cbn; lia].
  split; [apply signed_int_type; lia|vm_compute; split; discriminate].
Qed.

(** The integer part, towards zero. *)
Definition integer_part (x : Z) : Z := D * Z.quot x D.

Lemma integer_part_bounds x :
  (0 <= x -> 0 <= integer_part x <= x /\ x < integer_part x + D) /\
  (x <= 0 -> integer_part x - D < x <= integer_part x /\ integer_part x <= 0).
Proof.
  destruct D_bounds as (HD & _). unfold integer_part. split; intros Hx.
  - rewrite Z.quot_div_nonneg by lia. pose proof (Z.div_mod x D). pose proof (Z.mod_pos_bound x D HD).
    pose proof (Z.div_pos x D Hx HD). nia.
  - replace x with (- (- x)) by lia. rewrite Z.quot_opp_l, Z.quot_div_nonneg by lia.
    pose proof (Z.div_mod (- x) D). pose proof (Z.mod_pos_bound (- x) D HD).
    pose proof (Z.div_pos (- x) D ltac:(lia) HD). nia.
Qed.

Lemma trunc_spec x : in_range T x -> trunc F x = Some (integer_part x).
Proof.
  intros Hx. destruct D_bounds as (HD & ? & _ & ([H1 H2] & _)). unfold trunc, int_checked_div, int_checked_mul.
  destruct (Z.eqb_spec D 0); [lia|]. pose proof (integer_part_bounds x) as [Hp Hn].
  unfold integer_part in *.
  destruct (checked_spec T (Z.quot x D)) as [[? ->]|Hbad]; cbn [mbind option_bind].
  - rewrite (Z.mul_comm _ D). destruct (checked_spec T (D * Z.quot x D)) as [[? ->]|Hb]; [done|lia].
  - destruct (decide (0 <= x)); nia.
Qed.

Lemma frac_spec x :
  in_range T x ->
  frac F x = Some (if integer_part x =? 0 then x else Z.abs (x - integer_part x)).
Proof.
  intros Hx. destruct D_bounds as (HD & ? & _ & ([H1 H2] & _)). unfold frac. rewrite trunc_spec by done.
  cbn [mbind option_bind]. pose proof (integer_part_bounds x) as [Hp Hn].
  assert (Hsub : fsaturating_sub F x (integer_part x) = x - integer_part x).
  { unfold fsaturating_sub, int_saturating_sub, clamp. destruct (decide (0 <= x)); lia. }
  rewrite Hsub. unfold fzero. f_equal. destruct (Z.eqb_spec (integer_part x) 0); [lia|].
  unfold saturating_abs. destruct (Z.leb_spec 0 (x - integer_part x)); [lia|].
  unfold checked_neg. destruct (checked_spec T (- (x - integer_part x))) as [[? ->]|Hb]; lia.
Qed.

Lemma integer_part_plus x k : 0 <= x -> 0 <= k -> integer_part (x + k * D) = integer_part x + k * D.
Proof.
  destruct D_bounds as (HD & _). intros Hx Hk. unfold integer_part.
  rewrite !Z.quot_div_nonneg by nia. rewrite Z.div_add by lia. lia.
Qed.

Lemma integer_part_opp x : integer_part (- x) = - integer_part x.
Proof. destruct D_bounds as (HD & _). unfold integer_part. rewrite Z.quot_opp_l by lia. lia. Qed.

Lemma add_one_trunc x :
  0 <= x -> x + D <= max_value T -> trunc F (fsaturating_add F x (fone F)) = Some (integer_part x + D).
Proof.
  intros Hx Hr. destruct D_bounds as (HD & ? & _ & ([H1 H2] & _)).
  unfold fsaturating_add, int_saturating_add, clamp, fone.
  replace (Z.max _ _) with (x + 1 * D) by lia. rewrite trunc_spec by lia.
  rewrite integer_part_plus by lia. f_equal. lia.
Qed.

Lemma sub_one_trunc x :
  x <= 0 -> min_value T <= x - D -> trunc F (fsaturating_sub F x (fone F)) = Some (integer_part x - D).
Proof.
  intros Hx Hr. destruct D_bounds as (HD & ? & _ & ([H1 H2] & _)).
  unfold fsaturating_sub, int_saturating_sub, clamp, fone.
  replace (Z.max _ _) with (- (- x + 1 * D)) by lia. rewrite trunc_spec by lia.
  rewrite integer_part_opp, integer_part_plus, integer_part_opp by lia. f_equal. lia.
Qed.

(** A number that has an integer on both sides within the type. *)
Definition inside (x : Z) : Prop :=
  in_range T x /\ x + D <= max_value T /\ (x < 0 -> min_value T <= x - D).

Lemma ceil_spec x : inside x -> ceil F x = Some (D * - (- x / D)).
Proof.
  intros (Hx & Hmax & Hmin). destruct D_bounds as (HD & _). pose proof (integer_part_bounds x) as [Hp Hn].
  unfold ceil, is_negative. destruct (Z.ltb_spec x 0) as [Hx0|Hx0].
  - rewrite trunc_spec by done. unfold integer_part. f_equal. f_equal.
    rewrite <- (Z.opp_involutive x) at 1. rewrite Z.quot_opp_l, Z.quot_div_nonneg by lia. done.
  - rewrite frac_spec by done. cbn [mbind option_bind]. unfold fzero.
    pose proof (Z.div_mod (- x) D) as Hdm. pose proof (Z.mod_pos_bound (- x) D HD).
    destruct (Z.eqb_spec (if integer_part x =? 0 then x else Z.abs (x - integer_part x)) 0) as [He|He].
    + f_equal. assert (Hi : x = integer_part x) by (destruct (Z.eqb_spec (integer_part x) 0); lia).
      unfold integer_part in Hi. replace (- x) with (- Z.quot x D * D) by lia.
      rewrite Z.div_mul by lia. lia.
    + rewrite add_one_trunc by lia. f_equal.
      assert (integer_part x < x) by (destruct (Z.eqb_spec (integer_part x) 0); lia).
      replace (- x / D) with (- Z.quot x D - 1); [unfold integer_part; lia|]. symmetry.
      apply div_eq_bounds; [done|]. unfold integer_part in *. lia.
Qed.

Lemma floor_spec x :
  inside x -> floor F x = Some (if (x <? 0) && (x mod D =? 0) then x - D else D * (x / D)).
Proof.
  intros (Hx & Hmax & Hmin). destruct D_bounds as (HD & _). pose proof (integer_part_bounds x) as [Hp Hn].
  pose proof (Z.div_mod x D) as Hdm. pose proof (Z.mod_pos_bound x D HD).
  unfold floor, is_negative. destruct (Z.ltb_spec x 0) as [Hx0|Hx0]; cbn [andb].
  - rewrite sub_one_trunc by lia. f_equal. unfold integer_part in *.
    destruct (Z.eqb_spec (x mod D) 0).
    + assert (Z.quot x D = x / D) as -> by nia. lia.
    + assert (Z.quot x D = x / D + 1) as -> by nia. lia.
  - rewrite trunc_spec by done. unfold integer_part. by rewrite Z.quot_div_nonneg by lia.
Qed.

Lemma round_spec x :
  inside x ->
  round F x = Some (if (- D <? x) && (x <? 0) then 0
                    else if 2 * Z.abs (x - integer_part x) <? D then integer_part x
                    else if 0 <? x then integer_part x + D else integer_part x - D).
Proof.
  intros (Hx & Hmax & Hmin). destruct D_bounds as (HD & Hroom & _ & ([H1 H2] & _)).
  pose proof (integer_part_bounds x) as [Hp Hn].
  unfold round. rewrite frac_spec by done. cbn [mbind option_bind]. rewrite !small_integer by lia.
  set (f := if integer_part x =? 0 then x else Z.abs (x - integer_part x)).
  assert (Hf : - D < f < D) by (unfold f; destruct (Z.eqb_spec (integer_part x) 0); lia).
  assert (Hfr : in_range T f) by (unfold f in *; destruct (Z.eqb_spec (integer_part x) 0); lia).
  assert (Hmul : fsaturating_mul F f (10 * D) = clamp T (10 * f)).
  { unfold fsaturating_mul. rewrite checked_mul_spec by lia.
    replace (f * (10 * D)) with (10 * f * D) by lia. rewrite Z.quot_mul by lia.
    apply bound_clamp; [done|lia..]. }
  rewrite Hmul. unfold is_positive.
  assert (Hcmp : (clamp T (10 * f) <? 5 * D) = (2 * f <? D)).
  { apply eq_bool_prop_intro. rewrite !Is_true_true, !Z.ltb_lt. unfold clamp. lia. }
  rewrite Hcmp. rewrite trunc_spec by done. clear Hcmp Hmul Hfr.
  destruct (Z.ltb_spec (- D) x), (Z.ltb_spec x 0); cbn [andb].
  { assert (integer_part x = 0) as E.
    { destruct (Hn ltac:(lia)). unfold integer_part in *. assert (Z.quot x D = 0) as -> by nia. lia. }
    unfold f. rewrite E. rewrite (proj2 (Z.ltb_lt _ _)) by (cbn; lia). done. }
  all: assert (Hfe : f = Z.abs (x - integer_part x))
    by (unfold f; destruct (Z.eqb_spec (integer_part x) 0); lia);
    rewrite Hfe; destruct (Z.ltb_spec (2 * Z.abs (x - integer_part x)) D); [done|].
  all: destruct (Z.ltb_spec 0 x); [by rewrite add_one_trunc by lia|by rewrite sub_one_trunc by lia].
Qed.
End fixed_proofs.

(** C40: for every fixed point type and every integer type of at most 128 bits,
    multiplication, division, conversion from a rational and the mixed
    operations with integers give the exact rational truncated towards zero;
    they fail exactly when that is not representable or the divisor is zero,
    and their saturating versions then return the nearest bound.  The comment
    in [checked_div] calls its rounding equivalent to [NearestPrefMinor] and its
    positive results equal to those of [const_checked_div]; the code truncates
    ([checked_div_is_not_nearest]). *)
Theorem fixed_point_exact (F : FixedPoint) (N : IntTy) (a b n d : Z) :
  fixed_ok F -> operand N -> in_range (FInner F) a -> in_range (FInner F) b ->
  in_range N n -> in_range N d ->
  fchecked_mul F a b = checked (FInner F) (Z.quot (a * b) (DIV F)) /\
  fchecked_div F a b = (if b =? 0 then None else checked (FInner F) (Z.quot (a * DIV F) b)) /\
  checked_from_rational F N N n d
    = (if d =? 0 then None else checked (FInner F) (Z.quot (n * DIV F) d)) /\
  checked_mul_int F N a n = checked N (Z.quot (a * n) (DIV F)) /\
  checked_div_int F N a d = (if d =? 0 then None else checked N (Z.quot a (d * DIV F))) /\
  fsaturating_mul F a b = clamp (FInner F) (Z.quot (a * b) (DIV F)) /\
  saturating_mul_int F N a n = clamp N (Z.quot (a * n) (DIV F)) /\
  saturating_from_integer F N n = clamp (FInner F) (n * DIV F).
Proof.
  intros HF HN Ha Hb Hn Hd. destruct (D_bounds F HF) as (HD & _ & _ & [HT _]).
  pose proof (quot_signs a b (DIV F) ltac:(lia)) as [Hq1 Hq2].
  pose proof (quot_signs a n (DIV F) ltac:(lia)) as [Hq3 Hq4].
  split; [by apply checked_mul_spec|]. split; [by apply checked_div_spec|].
  split; [by apply checked_from_rational_spec|]. split; [by apply checked_mul_int_spec|].
  split; [by apply checked_div_int_spec|]. split; [|split].
  - unfold fsaturating_mul. rewrite checked_mul_spec by done. apply bound_clamp; auto.
  - unfold saturating_mul_int. rewrite checked_mul_int_spec by done. apply bound_clamp; [apply HN|auto..].
  - by apply saturating_from_integer_spec.
Qed.

(** The [const] multiplication and division with an explicit
    [SignedRounding] return the exact rational rounded as the variant is
    documented, signs of both operands included, and [None] exactly when it is
    not representable or the divisor is zero. *)
Theorem fixed_point_rounding (F : FixedPoint) (a b : Z) (r : SignedRounding) :
  fixed_ok F -> in_range (FInner F) a -> in_range (FInner F) b ->
  (exists q, rounds_to r (a * b) (DIV F) q /\
     const_checked_mul_with_rounding F a b r = checked (FInner F) q) /\
  (if b =? 0 then checked_rounding_div F a b r = None
   else exists q, rounds_to r (a * DIV F * Z.sgn b) (Z.abs b) q /\
     checked_rounding_div F a b r = checked (FInner F) q).
Proof. intros HF Ha Hb. split; [by apply const_mul_spec|by apply const_div_spec]. Qed.

(** [trunc], [ceil], [floor] and [round], away from the bounds of the type.
    [ceil] is the least integer above.  [floor] is the largest integer below
    except for negative integers, which it lowers by one.  [round] is the
    nearest integer, halves away from zero, except between minus one and zero,
    where it is always zero. *)
Theorem fixed_integer_parts (F : FixedPoint) (x : Z) :
  fixed_ok F -> inside F x ->
  trunc F x = Some (DIV F * Z.quot x (DIV F)) /\
  ceil F x = Some (DIV F * - (- x / DIV F)) /\
  floor F x = Some (if (x <? 0) && (x mod DIV F =? 0) then x - DIV F else DIV F * (x / DIV F)) /\
  (exists k, round F x = Some (DIV F * k) /\
     (if (- DIV F <? x) && (x <? 0) then k = 0 else rounds_to NearestPrefMajor x (DIV F) k)).
Proof.
  intros HF Hx. split; [apply trunc_spec; [done|apply Hx]|]. split; [by apply ceil_spec|].
  split; [by apply floor_spec|]. rewrite round_spec by done. pose proof (D_bounds F HF) as [HD _].
  destruct (integer_part_bounds F HF x) as [Hp Hn]. unfold integer_part in *. cbn [rounds_to].
  destruct (Z.ltb_spec (- DIV F) x), (Z.ltb_spec x 0); cbn [andb].
  { exists 0. split; [f_equal; lia|done]. }
  all: destruct (Z.leb_spec 0 x); try lia;
    (destruct (Z.ltb_spec (2 * Z.abs (x - DIV F * Z.quot x (DIV F))) (DIV F));
     [exists (Z.quot x (DIV F)); split; [done|lia]|]).
  all: destruct (Z.ltb_spec 0 x).
  all: try (exists (Z.quot x (DIV F) + 1); split; [f_equal; lia|lia]).
  all: try (exists (Z.quot x (DIV F) - 1); split; [f_equal; lia|lia]).
  all: try (assert (x = 0) as -> by lia; rewrite Z.quot_0_l in * by lia; lia).
Qed.

(** ** Parts per thing *)

Section round_trip.
Context (F : FixedPoint) (HF : fixed_ok F) (P : PerThing) (HP : per_thing_ok P).
Context (HU : Upper P <= 128) (k : Z) (Hk : DIV F = k * ACCURACY P).

(** The fixed point number of [p] parts. *)
Lemma parts_bounds p : valid P p ->
  0 < k /\ 0 <= k * p <= DIV F /\ wrapping 128 (k * p) = k * p /\
  checked (FInner F) (k * p) = Some (k * p).
Proof.
  intros Hp. unfold valid in Hp. pose proof (A_bounds P HP).
  destruct (D_bounds F HF) as (? & ? & ? & ([? ?] & ? & ?)). assert (0 < k) by nia.
  assert (Hx : 0 <= k * p <= DIV F) by nia. split; [done|]. split; [done|].
  split; [apply wrapping_id; unfold is_uint; lia|].
  destruct (checked_spec (FInner F) (k * p)) as [[_ ->]|Hb]; [done|lia].
Qed.

Lemma perthing_operand : operand (unsigned (Inner P)) /\ umax (Inner P) <= umax 128.
Proof.
  pose proof (umax_upper P HP) as HUp. pose proof (A_bounds P HP).
  pose proof (Z.pow_le_mono_r 2 (Upper P) 128 ltac:(lia) HU).
  assert (umax (Inner P) <= umax 128) by (unfold umax in *; nia).
  split; [|done]. split; [apply unsigned_int_type, primitive_pos, HP|]. cbn. unfold umax in *. lia.
Qed.

Lemma perthing_through_fixed p :
  valid P p -> (x ← from_perthing F P p; Some (try_into_perthing F P x)) = Some (Ok p).
Proof.
  intros Hp. destruct (parts_bounds p Hp) as (Hk0 & Hx & Hw & Hc). unfold valid in Hp.
  pose proof (A_bounds P HP) as HA. destruct (D_bounds F HF) as (HD & _).
  destruct (D_uint F HF) as (_ & _ & HDi). destruct perthing_operand as [Hop Hin].
  unfold from_perthing, saturating_from_rational. rewrite checked_from_rational_spec by (done || cbn; lia).
  rewrite !(proj2 (Z.eqb_neq (ACCURACY P) 0)) by lia.
  replace (p * DIV F) with (k * p * ACCURACY P) by nia. rewrite Z.quot_mul by lia. rewrite Hc.
  cbn [mbind option_bind]. unfold try_into_perthing, fzero, fone.
  rewrite (proj2 (Z.ltb_ge _ _)) by lia. rewrite (proj2 (Z.ltb_ge _ _)) by lia. rewrite Hw. f_equal. f_equal.
  rewrite from_rational_eq; [|done|unfold primitive_width; lia|done|unfold is_uint in *; lia|done].
  rewrite (proj2 (Z.eqb_neq _ _)) by lia. rewrite (proj2 (Z.ltb_ge _ _)) by lia. cbn [orb].
  rewrite Hk. replace (ACCURACY P * (k * p)) with (p * (k * ACCURACY P)) by lia. apply Z.div_mul. nia.
Qed.

Lemma perbill_through_fixed p :
  P = Perbill -> valid P p -> (x ← from_perbill F p; into_perbill F x) = Some p.
Proof.
  intros EP Hp. destruct (parts_bounds p Hp) as (Hk0 & Hx & Hw & Hc). unfold valid in Hp.
  rewrite EP in Hk, Hp. change (ACCURACY Perbill) with 1000000000 in *.
  destruct (D_bounds F HF) as (HD & _ & HDu & _). destruct (D_uint F HF) as (E1 & _ & HDi).
  assert (Hb : is_uint 128 1000000000) by (vm_compute; split; discriminate).
  assert (Hpu : is_uint 128 p) by (unfold is_uint in *; lia).
  unfold from_perbill, ffrom_rational, ffrom_rational_with_rounding.
  change (1000000000 =? 0) with false. cbn iota. rewrite E1.
  rewrite multiply_by_rational_spec by done. unfold rational_mul.
  change (1000000000 =? 0) with false. cbn [orb round_div].
  rewrite (div_eq_bounds _ _ (k * p)) by nia. rewrite (proj2 (Z.ltb_ge _ _)) by lia.
  rewrite const_from_i129_eq by (done || lia). cbn [with_sign]. rewrite Hc. cbn [mbind option_bind].
  unfold into_perbill. destruct (Z.leb_spec (k * p) 0). { by replace p with 0 by nia. }
  destruct (Z.leb_spec (DIV F) (k * p)). { by replace p with 1000000000 by nia. }
  rewrite E1, Hw. rewrite multiply_by_rational_spec by (done || unfold is_uint; lia).
  unfold rational_mul. rewrite (proj2 (Z.eqb_neq _ _)) by lia. cbn [orb round_div].
  rewrite (div_eq_bounds _ _ p) by nia. rewrite (proj2 (Z.ltb_ge _ _)) by (unfold is_uint in *; lia).
  rewrite (proj2 (Z.ltb_ge _ _)) by (unfold umax; lia).
  rewrite wrapping_id by (unfold is_uint, umax; lia). f_equal. unfold PerThing.from_parts.
  change (ACCURACY Perbill) with 1000000000. lia.
Qed.
End round_trip.

(** Parts per thing survive the way through a fixed point number whose
    accuracy is a multiple of theirs, by [From] and [try_into_perthing], and
    [Perbill] by [from_perbill] and [into_perbill]. *)
Theorem perthing_round_trip (F : FixedPoint) (P : PerThing) (p : Z) :
  fixed_ok F -> per_thing_ok P -> Upper P <= 128 -> (ACCURACY P | DIV F) -> valid P p ->
  (x ← from_perthing F P p; Some (try_into_perthing F P x)) = Some (Ok p) /\
  (P = Perbill -> (x ← from_perbill F p; into_perbill F x) = Some p).
Proof.
  intros HF HP HU [k Hk] Hp.
  split; [by apply (perthing_through_fixed F HF P HP HU k Hk)|].
  intros EP. by apply (perbill_through_fixed F HF P HP HU k Hk).
Qed.

(** ** Square root and power *)

Lemma checked_sqrt_spec (F : FixedPoint) (x : Z) :
  fixed_ok F -> in_range (FInner F) x -> 0 < x -> x * DIV F <= umax 128 ->
  Z.sqrt (x * DIV F) <= max_value (FInner F) ->
  fchecked_sqrt F x = Some (Z.sqrt (x * DIV F)).
Proof.
  intros HF Hx Hpos Hfit Hmax. destruct (D_bounds F HF) as (HD & _ & _ & ([H1 H2] & H3 & _)).
  unfold fchecked_sqrt. rewrite (proj2 (Z.eqb_neq _ _)) by lia. rewrite (proj2 (Z.ltb_ge _ _)) by lia.
  rewrite wrapping_id by (unfold is_uint; lia). unfold checked_mul. rewrite (proj2 (Z.leb_le _ _)) by done.
  rewrite sqrt_spec by (unfold is_uint; nia). pose proof (Z.sqrt_nonneg (x * DIV F)).
  f_equal. apply int_wrapping_id. lia.
Qed.

(** [saturating_pow] casts the exponent to [u32]: a multiple of [2 ^ 32] counts
    as zero. *)
Lemma pow_truncates_exponent (F : FixedPoint) (x n : Z) :
  fixed_ok F -> 0 < n -> fsaturating_pow F x (n * 2 ^ 32) = fone F.
Proof.
  intros HF Hn. unfold fsaturating_pow, wrapping. change (2 ^ 32) with 4294967296.
  rewrite (proj2 (Z.eqb_neq (n * 4294967296) 0)) by lia. rewrite Z.mod_mul by lia.
  cbn [Z.eqb]. change (Z.to_nat 0) with 0%nat. cbn [fpow_loop].
  rewrite small_integer by (done || lia). unfold fone. lia.
Qed.

(** [is_one] compares the inner integer with one. *)
Lemma is_one_of_one (F : FixedPoint) : fixed_ok F -> 1 < DIV F -> fis_one (fone F) = false /\ fis_one 1 = true.
Proof. intros _ HD. unfold fis_one, fone. split; [apply Z.eqb_neq; lia|done]. Qed.

(** Two thirds: [checked_div] truncates where [const_checked_div], and rounding
    to the nearest, give the number above. *)
Lemma checked_div_is_not_nearest :
  let two := 2 * DIV FixedU128 in let three := 3 * DIV FixedU128 in
  fchecked_div FixedU128 two three = Some 666666666666666666 /\
  const_checked_div FixedU128 two three = Some 666666666666666667 /\
  checked_rounding_div FixedU128 two three NearestPrefMinor = Some 666666666666666667.
Proof. vm_compute. split_and!; reflexivity. Qed.

(** ** Witnesses *)

Lemma fixed_point_exact_witness :
  fchecked_mul FixedI64 (-1500000000) 7 = Some (-10) /\
  saturating_mul_int FixedU128 (unsigned 8) (300 * 10 ^ 18) 1 = 255.
Proof.
  split.
  - refine (eq_trans (proj1 (fixed_point_exact FixedI64 (signed 32) (-1500000000) 7 1 1 _ _ _ _ _ _)) _);
      first [reflexivity | apply fixed_types_ok | split; [apply signed_int_type; lia|vm_compute; split; discriminate]
            | vm_compute; split; discriminate].
  - refine (eq_trans (proj1 (proj2 (proj2 (proj2 (proj2 (proj2 (proj2
      (fixed_point_exact FixedU128 (unsigned 8) (300 * 10 ^ 18) 0 1 1 _ _ _ _ _ _)))))))) _);
      first [reflexivity | apply fixed_types_ok | split; [apply unsigned_int_type; lia|vm_compute; split; discriminate]
            | vm_compute; split; discriminate].
Defined.

Lemma fixed_point_rounding_witness :
  exists q, rounds_to NearestPrefLow (-1500000000 * 3) 1000000000 q /\
    const_checked_mul_with_rounding FixedI64 (-1500000000) 3 NearestPrefLow = checked (signed 64) q.
Proof.
  refine (proj1 (fixed_point_rounding FixedI64 (-1500000000) 3 NearestPrefLow _ _ _));
    first [apply fixed_types_ok | vm_compute; split; discriminate].
Defined.

Lemma fixed_integer_parts_witness :
  floor FixedI64 (-1000000000) = Some (-2000000000) /\
  (exists k, round FixedI64 (-700000000) = Some (1000000000 * k) /\ k = 0).
Proof.
  split.
  - refine (eq_trans (proj1 (proj2 (proj2 (fixed_integer_parts FixedI64 (-1000000000) _ _)))) _);
      [apply fixed_types_ok|vm_compute; intuition discriminate|reflexivity].
  - refine (proj2 (proj2 (proj2 (fixed_integer_parts FixedI64 (-700000000) _ _))));
      [apply fixed_types_ok|vm_compute; intuition discriminate].
Defined.

Lemma perthing_round_trip_witness :
  (x ← from_perthing FixedU64 Permill 333333; Some (try_into_perthing FixedU64 Permill x)) = Some (Ok 333333).
Proof.
  refine (proj1 (perthing_round_trip FixedU64 Permill 333333 _ _ _ _ _));
    [apply fixed_types_ok|apply per_things_ok|vm_compute; discriminate|exists 1000; reflexivity
    |vm_compute; split; discriminate].
Defined.
