(* ===== verification/Segment.v ===== *)
(** * The unincluded segment

    Model of [cumulus/pallets/parachain-system/src/unincluded_segment.rs] and
    [consensus_hook.rs]: the bandwidth a parachain uses in the blocks the relay
    chain has not included yet, tracked per block ([Ancestor]) and in total
    ([SegmentTracker]).  A [BTreeMap] is a finite map, iterated in the order of
    its keys.  [Panic] is a failed [expect] or assertion; plain [-] wraps as in
    a release build. *)

From stdpp Require Import base option numbers list gmap sorting.
From Stdlib Require Import ZArith Lia.
From S2P Require Import Prelude.
Local Open Scope Z_scope.

Abbreviation ParaId := Z.
Abbreviation RelayBlockNumber := Z.

Definition key_le {V : Type} (a b : ParaId * V) : Prop := fst a <= fst b.

#[export] Instance key_le_dec {V : Type} : RelDecision (@key_le V).
Proof. intros a b. unfold key_le. apply _. Defined.

(** [BTreeMap::iter]: ascending keys. *)
Definition btree_iter {V : Type} (m : gmap ParaId V) : list (ParaId * V) :=
  merge_sort key_le (map_to_list m).

(** ** The relay chain state a parachain reads *)

(** [AbridgedHrmpChannel] of the relay chain primitives, without the queue head. *)
Record AbridgedHrmpChannel : Set := mkChannel {
  max_capacity : Z;
  max_total_size : Z;
  max_message_size : Z;
  msg_count : Z;
  total_size : Z;
}.

(** [MessagingStateSnapshot], the parts about outgoing messages. *)
Record MessagingStateSnapshot : Set := mkSnapshot {
  remaining_count : Z;
  remaining_size : Z;
  egress_channels : list (ParaId * AbridgedHrmpChannel);
}.

Record HrmpOutboundLimits : Set := mkLimits {
  bytes_remaining : Z;
  messages_remaining : Z;
}.

Record OutboundBandwidthLimits : Set := mkOutbound {
  ump_messages_remaining : Z;
  ump_bytes_remaining : Z;
  limits_outgoing : gmap ParaId HrmpOutboundLimits;
}.

(** [collect] into a [BTreeMap]: of several entries the last one stays. *)
Definition from_relay_chain_state (messaging_state : MessagingStateSnapshot) : OutboundBandwidthLimits :=
  let hrmp_outgoing :=
    foldl (fun m '(id, channel) =>
             <[id := mkLimits (saturating_sub (max_total_size channel) (total_size channel))
                              (saturating_sub (max_capacity channel) (msg_count channel))]> m)
          ∅ (egress_channels messaging_state) in
  mkOutbound (remaining_count messaging_state) (remaining_size messaging_state) hrmp_outgoing.

Inductive BandwidthUpdateError : Set :=
| HrmpMessagesOverflow (recipient : ParaId) (messages_remaining messages_submitted : Z)
| HrmpBytesOverflow (recipient : ParaId) (bytes_remaining bytes_submitted : Z)
| UmpMessagesOverflow (messages_remaining messages_submitted : Z)
| UmpBytesOverflow (bytes_remaining bytes_submitted : Z)
| InvalidHrmpWatermark (submitted latest : RelayBlockNumber)
| UpgradeGoAheadAlreadyProcessed.

(** ** Bandwidth *)

Record HrmpChannelUpdate : Set := mkUpdate { upd_msg_count : Z; upd_total_bytes : Z }.

Definition default_update : HrmpChannelUpdate := mkUpdate 0 0.

Definition is_empty (self : HrmpChannelUpdate) : bool :=
  (upd_msg_count self =? 0) && (upd_total_bytes self =? 0).

Definition channel_append (self other : HrmpChannelUpdate) (recipient : ParaId)
    (limits : OutboundBandwidthLimits) : outcome BandwidthUpdateError HrmpChannelUpdate :=
  obind (expect (limits_outgoing limits !! recipient)) (fun limits =>
  let msg_count := saturating_add 32 (upd_msg_count self) (upd_msg_count other) in
  if messages_remaining limits <? msg_count
  then Err (HrmpMessagesOverflow recipient (messages_remaining limits) msg_count)
  else
    let total_bytes := saturating_add 32 (upd_total_bytes self) (upd_total_bytes other) in
    if bytes_remaining limits <? total_bytes
    then Err (HrmpBytesOverflow recipient (bytes_remaining limits) total_bytes)
    else Ok (mkUpdate msg_count total_bytes)).

Definition channel_subtract (self other : HrmpChannelUpdate) : HrmpChannelUpdate :=
  mkUpdate (wrapping 32 (upd_msg_count self - upd_msg_count other))
           (wrapping 32 (upd_total_bytes self - upd_total_bytes other)).

Record UsedBandwidth : Set := mkUsed {
  ump_msg_count : Z;
  ump_total_bytes : Z;
  hrmp_outgoing : gmap ParaId HrmpChannelUpdate;
}.

Definition default_bandwidth : UsedBandwidth := mkUsed 0 0 ∅.

(** One round of the loop over the channels of the update. *)
Definition append_channel (limits : OutboundBandwidthLimits) (entry : ParaId * HrmpChannelUpdate)
    (m : gmap ParaId HrmpChannelUpdate) : outcome BandwidthUpdateError (gmap ParaId HrmpChannelUpdate) :=
  let '(id, channel) := entry in
  let current := default default_update (m !! id) in
  obind (channel_append current channel id limits) (fun current => Ok (<[id := current]> m)).

Definition bandwidth_append (self other : UsedBandwidth) (limits : OutboundBandwidthLimits) :
    outcome BandwidthUpdateError UsedBandwidth :=
  let msgs := saturating_add 32 (ump_msg_count self) (ump_msg_count other) in
  if ump_messages_remaining limits <? msgs
  then Err (UmpMessagesOverflow (ump_messages_remaining limits) msgs)
  else
    let bytes := saturating_add 32 (ump_total_bytes self) (ump_total_bytes other) in
    if ump_bytes_remaining limits <? bytes
    then Err (UmpBytesOverflow (ump_bytes_remaining limits) bytes)
    else
      obind (for_res (btree_iter (hrmp_outgoing other)) (append_channel limits) (hrmp_outgoing self))
      (fun hrmp => Ok (mkUsed msgs bytes hrmp)).

(** [None] when a channel is missing. *)
Definition bandwidth_subtract (self other : UsedBandwidth) : option UsedBandwidth :=
  hrmp ← for_in (btree_iter (hrmp_outgoing other))
           (fun '(id, channel) m =>
              entry ← m !! id;
              Some (<[id := channel_subtract entry channel]> m))
           (hrmp_outgoing self);
  Some (mkUsed (wrapping 32 (ump_msg_count self - ump_msg_count other))
               (wrapping 32 (ump_total_bytes self - ump_total_bytes other))
               (filter (fun e => is_empty (snd e) = false) hrmp)).

(** ** Ancestors and the tracker *)

Inductive UpgradeGoAhead : Set := Abort | GoAhead.

#[export] Instance UpgradeGoAhead_eq_dec : EqDecision UpgradeGoAhead.
Proof. solve_decision. Defined.

Record Ancestor (H : Type) : Type := mkAncestor {
  anc_used_bandwidth : UsedBandwidth;
  para_head_hash : option H;
  anc_go_ahead : option UpgradeGoAhead;
}.
Arguments mkAncestor {H}.
Arguments anc_used_bandwidth {H}.
Arguments para_head_hash {H}.
Arguments anc_go_ahead {H}.

Definition new_unchecked {H : Type} (used_bandwidth : UsedBandwidth)
    (consumed_go_ahead_signal : option UpgradeGoAhead) : Ancestor H :=
  mkAncestor used_bandwidth None consumed_go_ahead_signal.

Definition replace_para_head_hash {H : Type} (self : Ancestor H) (hash : H) : Ancestor H :=
  mkAncestor (anc_used_bandwidth self) (Some hash) (anc_go_ahead self).

Inductive HrmpWatermarkUpdate : Set :=
| Head (n : RelayBlockNumber)
| Trunk (n : RelayBlockNumber).

Definition watermark_new (watermark relay_parent_number : RelayBlockNumber) : HrmpWatermarkUpdate :=
  if relay_parent_number <=? watermark then Head relay_parent_number else Trunk watermark.

Record SegmentTracker : Set := mkTracker {
  used_bandwidth : UsedBandwidth;
  hrmp_watermark : option RelayBlockNumber;
  consumed_go_ahead_signal : option UpgradeGoAhead;
}.

Definition default_tracker : SegmentTracker := mkTracker default_bandwidth None None.

Definition tracker_append {H : Type} (self : SegmentTracker) (block : Ancestor H)
    (new_watermark : HrmpWatermarkUpdate) (limits : OutboundBandwidthLimits) :
    outcome BandwidthUpdateError SegmentTracker :=
  if bool_decide (is_Some (consumed_go_ahead_signal self)) && bool_decide (is_Some (anc_go_ahead block))
  then Err UpgradeGoAheadAlreadyProcessed
  else
    obind (match hrmp_watermark self, new_watermark with
           | Some watermark, Trunk new =>
             if new <? watermark then Err (InvalidHrmpWatermark new watermark) else Ok tt
           | _, _ => Ok tt
           end) (fun _ =>
    obind (bandwidth_append (used_bandwidth self) (anc_used_bandwidth block) limits) (fun used =>
    let signal := match anc_go_ahead block with
                  | Some consumed => Some consumed
                  | None => consumed_go_ahead_signal self
                  end in
    let watermark := match new_watermark with Trunk w | Head w => w end in
    Ok (mkTracker used (Some watermark) signal))).

(** [None] when a channel is missing or the assertion on the signal fails. *)
Definition tracker_subtract {H : Type} (self : SegmentTracker) (block : Ancestor H) :
    option SegmentTracker :=
  used ← bandwidth_subtract (used_bandwidth self) (anc_used_bandwidth block);
  match anc_go_ahead block with
  | None => Some (mkTracker used (hrmp_watermark self) (consumed_go_ahead_signal self))
  | Some consumed =>
    if bool_decide (consumed_go_ahead_signal self = Some consumed)
    then Some (mkTracker used (hrmp_watermark self) None)
    else None
  end.

Section size.
Context {H : Type} `{EqDecision H}.

(** [iter().position(..)]. *)
Fixpoint position {A : Type} (f : A -> bool) (l : list A) : option nat :=
  match l with
  | [] => None
  | x :: l => if f x then Some 0%nat else S <$> position f l
  end.

Definition size_after_included (included_hash : H) (segment : list (Ancestor H)) : Z :=
  let pivot :=
    default 0%nat (S <$> position (fun a => bool_decide (para_head_hash a = Some included_hash)) segment) in
  wrapping 32 (Z.of_nat (length segment - pivot)).
End size.

(** ** [consensus_hook.rs] *)

Inductive UnincludedSegmentCapacity : Set :=
| ExpectParentIncluded
| CapacityValue (v : Z).

Definition capacity_get (self : UnincludedSegmentCapacity) : Z :=
  match self with ExpectParentIncluded => 1 | CapacityValue v => v end.
Definition is_expecting_included_parent (self : UnincludedSegmentCapacity) : bool :=
  match self with ExpectParentIncluded => true | CapacityValue _ => false end.

(** The capacity of [FixedCapacityUnincludedSegment<N>]. *)
Definition fixed_capacity (N : Z) : UnincludedSegmentCapacity := CapacityValue (Z.max N 1).
