(* ===== verification/SegmentProofs.v ===== *)
(** * Correctness of the segment tracker

    The tracker of [Segment] always holds the exact sum of the bandwidth of the
    ancestors in the segment and the one upgrade signal among them: appending a
    block succeeds exactly when the sum stays within the limits, as long as no
    counter saturates, and dropping the oldest block neither panics nor wraps. *)

From stdpp Require Import base option numbers list gmap sorting.
From Stdlib Require Import ZArith Lia.
From S2P Require Import Prelude Segment.
Local Open Scope Z_scope.

Definition ch_plus (a b : HrmpChannelUpdate) : HrmpChannelUpdate :=
  mkUpdate (upd_msg_count a + upd_msg_count b) (upd_total_bytes a + upd_total_bytes b).

(** What a bandwidth says of a channel. *)
Definition channel (u : UsedBandwidth) (id : ParaId) : HrmpChannelUpdate :=
  default default_update (hrmp_outgoing u !! id).

Definition update_wf (c : HrmpChannelUpdate) : Prop :=
  is_uint 32 (upd_msg_count c) /\ is_uint 32 (upd_total_bytes c).

(** The bandwidth of a block: 32-bit numbers and no empty update. *)
Record bandwidth_ok (u : UsedBandwidth) : Prop := {
  ok_msgs : is_uint 32 (ump_msg_count u);
  ok_bytes : is_uint 32 (ump_total_bytes u);
  ok_channels : forall id c, hrmp_outgoing u !! id = Some c -> update_wf c /\ is_empty c = false;
}.

(** Limits of 32 bits. *)
Record limits_wf (l : OutboundBandwidthLimits) : Prop := {
  lim_msgs : is_uint 32 (ump_messages_remaining l);
  lim_bytes : is_uint 32 (ump_bytes_remaining l);
  lim_channels : forall id c, limits_outgoing l !! id = Some c ->
    is_uint 32 (messages_remaining c) /\ is_uint 32 (bytes_remaining c);
}.

(** A saturated sum of [u32]s cannot pass for one within the limit: the sum is a
    [u32] or the limit is not the maximum itself. *)
Definition unsaturated (limit a b : Z) : Prop := limit < umax 32 \/ a + b <= umax 32.

Definition channel_unsaturated (l : OutboundBandwidthLimits) (id : ParaId) (cur new : HrmpChannelUpdate) : Prop :=
  forall c, limits_outgoing l !! id = Some c ->
    unsaturated (messages_remaining c) (upd_msg_count cur) (upd_msg_count new) /\
    unsaturated (bytes_remaining c) (upd_total_bytes cur) (upd_total_bytes new).

Record countable (u o : UsedBandwidth) (l : OutboundBandwidthLimits) : Prop := {
  cnt_limits : limits_wf l;
  cnt_msgs : unsaturated (ump_messages_remaining l) (ump_msg_count u) (ump_msg_count o);
  cnt_bytes : unsaturated (ump_bytes_remaining l) (ump_total_bytes u) (ump_total_bytes o);
  cnt_channels : forall id c, hrmp_outgoing o !! id = Some c -> channel_unsaturated l id (channel u id) c;
}.

Definition channel_fits (cur new : HrmpChannelUpdate) (l : OutboundBandwidthLimits) (id : ParaId) : Prop :=
  exists c, limits_outgoing l !! id = Some c /\
    upd_msg_count cur + upd_msg_count new <= messages_remaining c /\
    upd_total_bytes cur + upd_total_bytes new <= bytes_remaining c.

(** The limits allow what is used and the new block together. *)
Record fits (u o : UsedBandwidth) (l : OutboundBandwidthLimits) : Prop := {
  fit_msgs : ump_msg_count u + ump_msg_count o <= ump_messages_remaining l;
  fit_bytes : ump_total_bytes u + ump_total_bytes o <= ump_bytes_remaining l;
  fit_channels : forall id c, hrmp_outgoing o !! id = Some c -> channel_fits (channel u id) c l id;
}.

Definition merged (u o : UsedBandwidth) : UsedBandwidth :=
  mkUsed (ump_msg_count u + ump_msg_count o) (ump_total_bytes u + ump_total_bytes o)
         (union_with (fun a b => Some (ch_plus a b)) (hrmp_outgoing u) (hrmp_outgoing o)).

Lemma merged_channel u o id : channel (merged u o) id = ch_plus (channel u id) (channel o id).
Proof.
  unfold channel, merged. cbn. rewrite lookup_union_with.
  destruct (hrmp_outgoing u !! id) as [[a b]|], (hrmp_outgoing o !! id) as [[c d]|]; cbn; try done;
    unfold ch_plus, default_update; cbn; f_equal; lia.
Qed.

Lemma nonempty_plus a b :
  update_wf a -> is_empty a = false -> 0 <= upd_msg_count b /\ 0 <= upd_total_bytes b ->
  is_empty (ch_plus a b) = false.
Proof.
  intros [[? _] [? _]] Hne [? ?]. unfold is_empty, ch_plus in *. cbn.
  apply andb_false_iff in Hne as [Hne%Z.eqb_neq|Hne%Z.eqb_neq]; apply andb_false_iff;
    [left|right]; apply Z.eqb_neq; lia.
Qed.

Lemma ch_plus_comm a b : ch_plus a b = ch_plus b a.
Proof. unfold ch_plus. f_equal; lia. Qed.

(** ** Iteration *)

Lemma btree_iter_perm {V : Type} (m : gmap ParaId V) : btree_iter m ≡ₚ map_to_list m.
Proof. apply merge_sort_Permutation. Qed.

Lemma btree_iter_map {V : Type} (m : gmap ParaId V) : list_to_map (btree_iter m) = m.
Proof.
  rewrite <- (list_to_map_to_list m) at 2. apply list_to_map_proper; [|apply btree_iter_perm].
  rewrite btree_iter_perm. apply NoDup_fst_map_to_list.
Qed.

Lemma btree_iter_nodup {V : Type} (m : gmap ParaId V) : NoDup (btree_iter m).*1.
Proof. rewrite btree_iter_perm. apply NoDup_fst_map_to_list. Qed.

Lemma btree_iter_elem {V : Type} (m : gmap ParaId V) id c : (id, c) ∈ btree_iter m <-> m !! id = Some c.
Proof. rewrite btree_iter_perm. apply elem_of_map_to_list. Qed.

(** ** Appending *)

(** What fits is countable. *)
Lemma fits_countable u o l : limits_wf l -> fits u o l -> countable u o l.
Proof.
  intros Hl [F1 F2 F3]. pose proof Hl as [[_ L1] [_ L2] L3]. unfold unsaturated. split; [done|right; lia..|].
  intros id c Hc lim Hlim. destruct (F3 id c Hc) as (lim' & ? & ? & ?). simplify_eq.
  destruct (L3 id lim Hlim) as [[_ ?] [_ ?]]. split; right; lia.
Qed.

Lemma saturating_below a b l :
  is_uint 32 l -> unsaturated l a b -> saturating_add 32 a b <= l <-> a + b <= l.
Proof. unfold saturating_add, unsaturated, is_uint. lia. Qed.

Section append.
Context (limits : OutboundBandwidthLimits) (Hlim : limits_wf limits).

Lemma channel_append_Ok cur new id r :
  channel_unsaturated limits id cur new ->
  channel_append cur new id limits = Ok r <->
  channel_fits cur new limits id /\ r = ch_plus cur new.
Proof.
  intros Hu. unfold channel_append, channel_fits, ch_plus.
  destruct (limits_outgoing limits !! id) as [c|] eqn:Hc; cbn [expect obind]; [|naive_solver].
  destruct (lim_channels _ Hlim _ _ Hc) as [H1 H2], (Hu _ Hc) as [U1 U2].
  pose proof (saturating_below (upd_msg_count cur) (upd_msg_count new) (messages_remaining c) H1 U1) as Hm.
  pose proof (saturating_below (upd_total_bytes cur) (upd_total_bytes new) (bytes_remaining c) H2 U2) as Hb.
  unfold is_uint in H1, H2.
  destruct (Z.ltb_spec (messages_remaining c)
    (saturating_add 32 (upd_msg_count cur) (upd_msg_count new))).
  { split; [done|]. intros [(c' & [= <-] & ? & ?) _]. lia. }
  destruct (Z.ltb_spec (bytes_remaining c)
    (saturating_add 32 (upd_total_bytes cur) (upd_total_bytes new))).
  { split; [done|]. intros [(c' & [= <-] & ? & ?) _]. lia. }
  split.
  - intros [= <-]. split; [exists c; split_and!; [done|lia..]|]. f_equal; unfold saturating_add; lia.
  - intros [_ ->]. f_equal. f_equal; unfold saturating_add; lia.
Qed.

Definition merge_list (m : gmap ParaId HrmpChannelUpdate) (l : list (ParaId * HrmpChannelUpdate)) :=
  union_with (fun a b => Some (ch_plus a b)) m (list_to_map l : gmap ParaId HrmpChannelUpdate).

Lemma merge_list_cons m id c l :
  id ∉ l.*1 -> merge_list (<[id := ch_plus (default default_update (m !! id)) c]> m) l = merge_list m ((id, c) :: l).
Proof.
  intros Hid. apply map_eq. intros j. unfold merge_list. rewrite !lookup_union_with. cbn [list_to_map foldr].
  destruct (decide (id = j)) as [<-|Hne].
  - rewrite !lookup_insert_eq. rewrite not_elem_of_list_to_map_1 by done.
    destruct (m !! id) as [d|]; cbn; [done|]. f_equal. unfold ch_plus. destruct c. cbn. f_equal; lia.
  - rewrite !lookup_insert_ne by done. done.
Qed.

Lemma append_channels_Ok l : forall m r,
  NoDup l.*1 -> (forall id c, (id, c) ∈ l -> channel_unsaturated limits id (default default_update (m !! id)) c) ->
  for_res l (append_channel limits) m = Ok r <->
  (forall id c, (id, c) ∈ l -> channel_fits (default default_update (m !! id)) c limits id) /\
  r = merge_list m l.
Proof.
  induction l as [|[id c] l IH]; intros m r Hnd Hun; cbn [for_res].
  { unfold merge_list. cbn [list_to_map foldr].
    assert (union_with (fun a b => Some (ch_plus a b)) m ∅ = m) as -> by (apply (right_id_L ∅ _)).
    split; [intros [= <-]; split; [|done]; set_solver|by intros [_ ->]]. }
  apply NoDup_cons in Hnd as [Hid Hnd]. rewrite obind_ok. unfold append_channel.
  assert (Hun' : forall u id' c', (id', c') ∈ l -> channel_unsaturated limits id' (default default_update (<[id:=u]> m !! id')) c').
  { intros u id' c' Hin. rewrite lookup_insert_ne; [apply Hun; set_solver|].
    intros ->. apply Hid. by apply (list_elem_of_fmap_2 fst _ (id', c')). }
  setoid_rewrite obind_ok. setoid_rewrite channel_append_Ok; [|apply Hun; set_solver]. split.
  - intros (m' & (u & [Hfit ->] & [= <-]) & Hrest). apply IH in Hrest as [Hall ->]; [|done|apply Hun'].
    split; [|by apply merge_list_cons]. intros id' c' [[= -> ->]|Hin]%elem_of_cons; [done|].
    specialize (Hall id' c' Hin). rewrite lookup_insert_ne in Hall; [done|].
    intros ->. apply Hid. by apply (list_elem_of_fmap_2 fst _ (id', c')).
  - intros [Hall ->]. eexists. split; [exists (ch_plus (default default_update (m !! id)) c); split;
      [split; [apply Hall; set_solver|done]|done]|].
    apply IH; [done|apply Hun'|]. split; [|symmetry; by apply merge_list_cons].
    intros id' c' Hin. rewrite lookup_insert_ne; [apply Hall; set_solver|].
    intros ->. apply Hid. by apply (list_elem_of_fmap_2 fst _ (id', c')).
Qed.

Lemma bandwidth_append_Ok u o r :
  countable u o limits ->
  bandwidth_append u o limits = Ok r <-> fits u o limits /\ r = merged u o.
Proof.
  intros [_ U1 U2 U3]. unfold bandwidth_append. pose proof (lim_msgs _ Hlim) as H1. pose proof (lim_bytes _ Hlim) as H2.
  pose proof (saturating_below (ump_msg_count u) (ump_msg_count o) _ H1 U1) as Hm.
  pose proof (saturating_below (ump_total_bytes u) (ump_total_bytes o) _ H2 U2) as Hb.
  unfold is_uint in H1, H2.
  destruct (Z.ltb_spec (ump_messages_remaining limits)
    (saturating_add 32 (ump_msg_count u) (ump_msg_count o))).
  { split; [done|]. intros [[? ? ?] _]. lia. }
  destruct (Z.ltb_spec (ump_bytes_remaining limits)
    (saturating_add 32 (ump_total_bytes u) (ump_total_bytes o))).
  { split; [done|]. intros [[? ? ?] _]. lia. }
  rewrite obind_ok. setoid_rewrite append_channels_Ok; [|apply btree_iter_nodup|by intros id c Hin%btree_iter_elem; apply U3].
  setoid_rewrite btree_iter_elem. unfold merge_list. rewrite btree_iter_map. unfold merged.
  split.
  - intros (m & [Hall ->] & [= <-]). split; [split; [lia|lia|done]|].
    f_equal; unfold saturating_add; lia.
  - intros [[? ? Hall] ->]. eexists. split; [by split|]. f_equal. f_equal; unfold saturating_add; lia.
Qed.
End append.

(** ** Totals of a segment *)

Section totals.
Context {H : Type}.
Implicit Types seg : list (Ancestor H).

Definition total (f : UsedBandwidth -> Z) seg : Z :=
  foldr (fun a s => f (anc_used_bandwidth a) + s) 0 seg.

Definition channel_total (id : ParaId) seg : HrmpChannelUpdate :=
  foldr (fun a s => ch_plus (channel (anc_used_bandwidth a) id) s) default_update seg.

Lemma total_snoc f seg a : total f (seg ++ [a]) = total f seg + f (anc_used_bandwidth a).
Proof. unfold total. induction seg as [|b seg IH]; cbn in *; lia. Qed.

Lemma channel_total_snoc id seg a :
  channel_total id (seg ++ [a]) = ch_plus (channel_total id seg) (channel (anc_used_bandwidth a) id).
Proof.
  induction seg as [|b seg IH]; cbn.
  - unfold ch_plus. cbn. f_equal; lia.
  - unfold channel_total in IH. rewrite IH. unfold ch_plus. cbn. f_equal; lia.
Qed.

(** The entry the tracker owes for a total. *)
Definition entry (t : HrmpChannelUpdate) : option HrmpChannelUpdate :=
  if is_empty t then None else Some t.

(** [u] is the exact sum over [seg], without an empty channel. *)
Record tracks (u : UsedBandwidth) seg : Prop := {
  tr_msgs : ump_msg_count u = total ump_msg_count seg;
  tr_bytes : ump_total_bytes u = total ump_total_bytes seg;
  tr_channels : forall id, hrmp_outgoing u !! id = entry (channel_total id seg);
  tr_msgs_u : is_uint 32 (ump_msg_count u);
  tr_bytes_u : is_uint 32 (ump_total_bytes u);
  tr_channels_u : forall id, update_wf (channel_total id seg);
}.

Lemma channel_wf u id : bandwidth_ok u -> update_wf (channel u id).
Proof.
  intros Hu. unfold channel. destruct (hrmp_outgoing u !! id) as [c|] eqn:Hc; cbn.
  - by apply (ok_channels _ Hu id c).
  - split; vm_compute; split; discriminate.
Qed.

Lemma total_nonneg f seg :
  Forall (fun a => bandwidth_ok (anc_used_bandwidth a)) seg -> (forall u, bandwidth_ok u -> 0 <= f u) -> 0 <= total f seg.
Proof. intros Hs Hf. induction Hs as [|a seg Ha _ IH]; cbn; [lia|]. specialize (Hf _ Ha). unfold total in IH. lia. Qed.

Lemma channel_total_nonneg id seg :
  Forall (fun a => bandwidth_ok (anc_used_bandwidth a)) seg ->
  0 <= upd_msg_count (channel_total id seg) /\ 0 <= upd_total_bytes (channel_total id seg).
Proof.
  induction 1 as [|a seg Ha _ IH]; cbn; [lia|].
  destruct (channel_wf _ id Ha) as [[? _] [? _]]. unfold channel_total in IH. lia.
Qed.

Lemma tracks_channel u seg id : tracks u seg -> channel u id = channel_total id seg.
Proof.
  intros Ht. unfold channel. rewrite (tr_channels _ _ Ht). unfold entry, is_empty.
  destruct (channel_total id seg) as [m b]. cbn.
  destruct (Z.eqb_spec m 0), (Z.eqb_spec b 0); cbn; subst; done.
Qed.

Lemma tracks_nil : tracks default_bandwidth [].
Proof. split; cbn; try done; vm_compute; split; discriminate. Qed.

Lemma tracks_append u seg a limits :
  limits_wf limits -> tracks u seg -> bandwidth_ok (anc_used_bandwidth a) ->
  fits u (anc_used_bandwidth a) limits -> tracks (merged u (anc_used_bandwidth a)) (seg ++ [a]).
Proof.
  intros Hl Ht Ha [F1 F2 F3]. pose proof Ht as [T1 T2 T3 [U1 _] [U2 _] U3].
  destruct Ha as [[A1 _] [A2 _] A3]. destruct Hl as [[_ L1] [_ L2] L3].
  assert (Hch : forall id, update_wf (channel_total id (seg ++ [a])) /\
    hrmp_outgoing (merged u (anc_used_bandwidth a)) !! id = entry (channel_total id (seg ++ [a]))).
  { intros id. rewrite channel_total_snoc, <- (tracks_channel u seg id Ht).
    unfold merged, channel. cbn. rewrite lookup_union_with.
    specialize (U3 id). rewrite <- (tracks_channel u seg id Ht) in U3. unfold channel in U3.
    destruct (hrmp_outgoing (anc_used_bandwidth a) !! id) as [c|] eqn:Hc; cbn.
    - destruct (F3 id c Hc) as (lim & Hlim & M & B). unfold channel in M, B.
      destruct (L3 id lim Hlim) as [[_ ?] [_ ?]]. destruct (A3 id c Hc) as [[[? ?] [? ?]] Hne].
      set (cur := default default_update (hrmp_outgoing u !! id)) in *. destruct U3 as [[? ?] [? ?]].
      split; [unfold update_wf, is_uint, ch_plus; cbn; lia|].
      assert (is_empty (ch_plus cur c) = false) as He.
      { rewrite ch_plus_comm. apply nonempty_plus; [done|done|lia]. }
      unfold entry. rewrite He. subst cur. destruct (hrmp_outgoing u !! id); cbn; [done|].
      f_equal. destruct c. unfold ch_plus. cbn. f_equal; lia.
    - replace (ch_plus _ default_update) with (default default_update (hrmp_outgoing u !! id))
        by (destruct (default _ _); unfold ch_plus; cbn; f_equal; lia).
      split; [done|]. rewrite T3. unfold entry.
      destruct (is_empty (channel_total id seg)) eqn:He; cbn; [done|by rewrite He]. }
  split; cbn; rewrite ?total_snoc; unfold is_uint in *; try lia; intros id; apply Hch.
Qed.

(** ** Subtracting *)

Lemma subtract_channels l : forall m : gmap ParaId HrmpChannelUpdate,
  NoDup l.*1 -> (forall id c, (id, c) ∈ l -> is_Some (m !! id)) ->
  exists m', for_in l (fun '(id, channel) m =>
      entry ← m !! id; Some (<[id := channel_subtract entry channel]> m)) m = Some m' /\
    forall id, m' !! id = match (list_to_map l : gmap ParaId HrmpChannelUpdate) !! id with
                          | Some c => (fun e => channel_subtract e c) <$> m !! id
                          | None => m !! id
                          end.
Proof.
  induction l as [|[id c] l IH]; intros m Hnd Hall; cbn [for_in].
  { exists m. split; [done|]. intros. done. }
  apply NoDup_cons in Hnd as [Hid Hnd]. destruct (Hall id c) as [e He]; [set_solver|].
  rewrite He. cbn [mbind option_bind].
  destruct (IH (<[id := channel_subtract e c]> m) Hnd) as (m' & -> & Hm').
  { intros id' c' Hin. destruct (decide (id = id')) as [<-|]; [by rewrite lookup_insert_eq|].
    rewrite lookup_insert_ne by done. apply (Hall id' c'). set_solver. }
  exists m'. split; [done|]. intros j. rewrite Hm'. cbn [list_to_map foldr].
  destruct (decide (id = j)) as [<-|Hne].
  - rewrite lookup_insert_eq. rewrite not_elem_of_list_to_map_1 by done.
    rewrite !lookup_insert_eq, He. done.
  - rewrite !lookup_insert_ne by done. done.
Qed.

Lemma channel_subtract_exact a b :
  update_wf a -> update_wf b -> update_wf (ch_plus a b) -> channel_subtract (ch_plus a b) a = b.
Proof.
  intros [? ?] [Hb1 Hb2] [? ?]. unfold channel_subtract, ch_plus. cbn. destruct b. cbn in *.
  f_equal; rewrite wrapping_id; unfold is_uint in *; cbn in *; lia.
Qed.

(** What remains of a channel when the oldest update is taken off the total. *)
Lemma entry_subtract (o : option HrmpChannelUpdate) (t : HrmpChannelUpdate) :
  (forall c, o = Some c -> update_wf c /\ is_empty c = false) ->
  0 <= upd_msg_count t /\ 0 <= upd_total_bytes t -> update_wf t ->
  update_wf (ch_plus (default default_update o) t) ->
  match o with
  | Some c => (fun e => channel_subtract e c) <$> entry (ch_plus (default default_update o) t)
  | None => entry (ch_plus (default default_update o) t)
  end ≫= (fun x => guard (is_empty x = false);; Some x) = entry t.
Proof.
  intros Ho Ht0 Ht Hsum. destruct o as [c|].
  - change (default default_update (Some c)) with c in *. destruct (Ho c eq_refl) as [Hcw Hne].
    unfold entry at 1. rewrite nonempty_plus by done. cbn [fmap option_fmap option_map mbind option_bind].
    rewrite channel_subtract_exact by done. unfold entry.
    destruct (is_empty t) eqn:He; rewrite option_guard_bool_decide.
    + by rewrite bool_decide_eq_false_2 by congruence.
    + by rewrite bool_decide_eq_true_2 by done.
  - replace (ch_plus (default default_update None) t) with t by (by destruct t).
    unfold entry. destruct (is_empty t) eqn:He; cbn; [done|].
    by rewrite option_guard_bool_decide, bool_decide_eq_true_2 by done.
Qed.

Lemma tracks_subtract u a seg :
  tracks u (a :: seg) -> Forall (fun a => bandwidth_ok (anc_used_bandwidth a)) (a :: seg) ->
  exists u', bandwidth_subtract u (anc_used_bandwidth a) = Some u' /\ tracks u' seg.
Proof.
  intros Ht Hseg. pose proof Ht as [T1 T2 T3 U1 U2 U3]. apply Forall_cons in Hseg as [Ha Hseg].
  pose proof Ha as [[A1 _] [A2 _] A3].
  pose proof (total_nonneg ump_msg_count seg Hseg ltac:(intros ? []; apply ok_msgs0)) as N1.
  pose proof (total_nonneg ump_total_bytes seg Hseg ltac:(intros ? []; apply ok_bytes0)) as N2.
  assert (Hwf : forall id, update_wf (channel_total id seg)).
  { intros id. destruct (U3 id) as [[? ?] [? ?]], (channel_total_nonneg id seg Hseg).
    destruct (channel_wf _ id Ha) as [[? ?] [? ?]]. cbn in *. unfold update_wf, is_uint.
    unfold channel_total in *. lia. }
  unfold bandwidth_subtract.
  destruct (subtract_channels (btree_iter (hrmp_outgoing (anc_used_bandwidth a))) (hrmp_outgoing u)
    (btree_iter_nodup _)) as (m' & -> & Hm').
  { intros id c Hin%btree_iter_elem. rewrite T3. unfold entry. destruct (A3 id c Hin) as [Hcw Hne].
    cbn [channel_total foldr]. unfold channel at 1. rewrite Hin.
    change (default default_update (Some c)) with c.
    rewrite nonempty_plus; [by eauto|done..|by apply channel_total_nonneg]. }
  cbn [mbind option_bind]. eexists. split; [done|]. cbn [total foldr] in T1, T2.
  unfold total in N1, N2. unfold is_uint in *.
  split; cbn; [rewrite wrapping_id; unfold is_uint, total; lia..| |
    rewrite wrapping_id; unfold is_uint; lia|rewrite wrapping_id; unfold is_uint; lia|done].
  intros id. rewrite map_lookup_filter, Hm', btree_iter_map, T3. specialize (U3 id).
  unfold channel_total in U3 |- *. cbn [foldr] in U3 |- *. unfold channel at 1 in U3. unfold channel at 1.
  apply (entry_subtract (hrmp_outgoing (anc_used_bandwidth a) !! id));
    [exact (A3 id)|apply channel_total_nonneg; done|apply Hwf|apply U3].
Qed.
End totals.

(** ** The tracker *)

Section tracker.
Context {H : Type}.
Implicit Types (seg : list (Ancestor H)) (agg : SegmentTracker) (block : Ancestor H).

Record segment_ok seg agg : Prop := {
  seg_bandwidth : Forall (fun a => bandwidth_ok (anc_used_bandwidth a)) seg;
  seg_tracks : tracks (used_bandwidth agg) seg;
  seg_signal : omap anc_go_ahead seg = option_list (consumed_go_ahead_signal agg);
}.

(** At most one upgrade signal, and no step back of the watermark. *)
Definition signal_free agg block : Prop :=
  consumed_go_ahead_signal agg = None \/ anc_go_ahead block = None.
Definition watermark_allowed agg (new : HrmpWatermarkUpdate) : Prop :=
  forall n w, new = Trunk n -> hrmp_watermark agg = Some w -> w <= n.

Lemma segment_ok_nil : segment_ok [] default_tracker.
Proof. split; [constructor|apply tracks_nil|done]. Qed.

Lemma tracker_append_Ok agg block new limits agg' :
  countable (used_bandwidth agg) (anc_used_bandwidth block) limits ->
  tracker_append agg block new limits = Ok agg' <->
  signal_free agg block /\ watermark_allowed agg new /\
  fits (used_bandwidth agg) (anc_used_bandwidth block) limits /\
  agg' = mkTracker (merged (used_bandwidth agg) (anc_used_bandwidth block))
           (Some match new with Trunk w | Head w => w end)
           match anc_go_ahead block with Some s => Some s | None => consumed_go_ahead_signal agg end.
Proof.
  intros Hl. unfold tracker_append, signal_free.
  assert (Hsig : bool_decide (is_Some (consumed_go_ahead_signal agg)) && bool_decide (is_Some (anc_go_ahead block)) = false
    <-> consumed_go_ahead_signal agg = None \/ anc_go_ahead block = None).
  { rewrite andb_false_iff, !bool_decide_eq_false, !eq_None_not_Some. done. }
  destruct (_ && _); [naive_solver|]. rewrite obind_ok. setoid_rewrite obind_ok.
  setoid_rewrite bandwidth_append_Ok; [|apply Hl|done].
  assert (Hwm : match hrmp_watermark agg, new with
    | Some watermark, Trunk n =>
      if n <? watermark then Err (InvalidHrmpWatermark n watermark) else Ok tt
    | _, _ => Ok tt end = Ok (E := BandwidthUpdateError) tt <-> watermark_allowed agg new).
  { unfold watermark_allowed. destruct (hrmp_watermark agg) as [w|], new as [n|n]; try naive_solver.
    destruct (Z.ltb_spec n w); split; try done; [intros Ha; specialize (Ha n w eq_refl eq_refl); lia|].
    intros _ n' w' [= <-] [= <-]. done. }
  split.
  - intros ([] & Hw & used & [Hf ->] & [= <-]). rewrite Hwm in Hw. naive_solver.
  - intros (Hs & Hw & Hf & ->). exists tt. rewrite Hwm. split; [done|]. by eexists.
Qed.

Lemma tracker_append_ok seg agg block new limits agg' :
  countable (used_bandwidth agg) (anc_used_bandwidth block) limits -> segment_ok seg agg -> bandwidth_ok (anc_used_bandwidth block) ->
  tracker_append agg block new limits = Ok agg' -> segment_ok (seg ++ [block]) agg'.
Proof.
  intros Hl [S1 S2 S3] Hb Happ. apply tracker_append_Ok in Happ as (Hs & _ & Hf & ->); [|done].
  split; cbn.
  - by apply Forall_app_2; [|constructor].
  - by eapply tracks_append; [apply Hl|..].
  - rewrite omap_app, S3. cbn. destruct (anc_go_ahead block) as [s|] eqn:Hg; cbn; [|by rewrite app_nil_r].
    destruct Hs as [->|?]; [done|congruence].
Qed.

Lemma tracker_subtract_ok seg agg block :
  segment_ok (block :: seg) agg ->
  exists agg', tracker_subtract agg block = Some agg' /\ segment_ok seg agg' /\
    hrmp_watermark agg' = hrmp_watermark agg.
Proof.
  intros [S1 S2 S3]. destruct (tracks_subtract _ _ _ S2 S1) as (u' & Hu & Ht).
  apply Forall_cons in S1 as [_ S1]. unfold tracker_subtract. rewrite Hu. cbn [mbind option_bind].
  cbn in S3. destruct (anc_go_ahead block) as [s|].
  - destruct (consumed_go_ahead_signal agg) as [s'|]; [|done]. injection S3 as -> Hrest.
    rewrite bool_decide_eq_true_2 by done. eexists. split; [done|]. split; [|done]. by split.
  - eexists. split; [done|]. split; [|done]. by split.
Qed.

(** ** The life of a segment *)

Inductive segment_step : list (Ancestor H) * SegmentTracker -> list (Ancestor H) * SegmentTracker -> Prop :=
| step_append seg agg block new limits agg' :
  countable (used_bandwidth agg) (anc_used_bandwidth block) limits -> bandwidth_ok (anc_used_bandwidth block) ->
  tracker_append agg block new limits = Ok agg' ->
  segment_step (seg, agg) (seg ++ [block], agg')
| step_named seg block agg hash :
  segment_step (seg ++ [block], agg) (seg ++ [replace_para_head_hash block hash], agg)
| step_drop seg block agg agg' :
  tracker_subtract agg block = Some agg' ->
  segment_step (block :: seg, agg) (seg, agg').

(** Naming the head of a block changes no total. *)
Lemma segment_ok_named seg block agg hash :
  segment_ok (seg ++ [block]) agg -> segment_ok (seg ++ [replace_para_head_hash block hash]) agg.
Proof.
  intros [S1 [T1 T2 T3 T4 T5 T6] S3]. split.
  - apply Forall_app in S1 as [? S1]. apply Forall_app. split; [done|]. by inversion S1; constructor.
  - split; try done; rewrite ?total_snoc in *; try done.
    + intros id. rewrite T3, !channel_total_snoc. done.
    + intros id. specialize (T6 id). rewrite channel_total_snoc in *. done.
  - rewrite omap_app in *. done.
Qed.

Lemma reachable_ok s :
  rtc segment_step ([], default_tracker) s -> segment_ok (fst s) (snd s).
Proof.
  intros Hr. remember ([], default_tracker) as s0 eqn:E.
  assert (Hs0 : segment_ok (fst s0) (snd s0)) by (subst; apply segment_ok_nil). clear E.
  induction Hr as [s|s1 s2 s3 Hstep _ IH]; [done|]. apply IH.
  inversion Hstep; subst; cbn in *.
  - by eapply tracker_append_ok.
  - by apply segment_ok_named.
  - destruct (tracker_subtract_ok _ _ _ Hs0) as (agg2 & ? & ? & _). by simplify_eq.
Qed.
End tracker.

(** C14: whatever sequence of blocks is appended, named and dropped, the tracker
    holds the exact sums of the segment and its only upgrade signal.  Therefore
    dropping the oldest block never panics, and a block is accepted exactly when
    three conditions hold: segment and block together respect the limits, a
    watermark below the relay parent is at least that of the tracker, and at most
    one of segment and block consumed an upgrade signal.  A limit is any [u32];
    where it is [u32::MAX] the sum must itself be a [u32], as the counters
    saturate there ([saturated_sum_is_accepted]). *)
Theorem segment_tracker_exact {H : Type} (seg : list (Ancestor H)) (agg : SegmentTracker) :
  rtc segment_step ([], default_tracker) (seg, agg) ->
  tracks (used_bandwidth agg) seg /\
  omap anc_go_ahead seg = option_list (consumed_go_ahead_signal agg) /\
  (forall block rest, seg = block :: rest -> exists agg', tracker_subtract agg block = Some agg') /\
  (forall (block : Ancestor H) new limits, countable (used_bandwidth agg) (anc_used_bandwidth block) limits ->
     (exists agg', tracker_append agg block new limits = Ok agg') <->
     fits (used_bandwidth agg) (anc_used_bandwidth block) limits /\
     watermark_allowed agg new /\ signal_free agg block).
Proof.
  intros Hr. pose proof (reachable_ok _ Hr) as Hok. cbn in Hok.
  split; [apply Hok|]. split; [apply Hok|]. split.
  - intros block rest ->. destruct (tracker_subtract_ok rest agg block Hok) as (agg' & ? & _). by exists agg'.
  - intros block new limits Hl. setoid_rewrite tracker_append_Ok; [|done]. naive_solver.
Qed.

(** ** Witness *)

Definition example_limits : OutboundBandwidthLimits := mkOutbound 5 (umax 32) {[ 2000 := mkLimits 64 4 ]}.
Definition example_block : Ancestor nat :=
  new_unchecked (mkUsed 1 10 {[ 2000 := mkUpdate 1 16 ]}) (Some GoAhead).
Definition example_next : Ancestor nat :=
  new_unchecked (mkUsed 4 1000 {[ 2000 := mkUpdate 3 48 ]}) None.
Definition example_tracker : SegmentTracker :=
  mkTracker (mkUsed 1 10 {[ 2000 := mkUpdate 1 16 ]}) (Some 7) (Some GoAhead).

Lemma example_limits_wf : limits_wf example_limits.
Proof.
  split; [vm_compute; intuition discriminate..|]. intros id c Hc. cbn in Hc.
  apply lookup_singleton_Some in Hc as [_ <-]. vm_compute. intuition discriminate.
Qed.

Lemma example_bandwidth_ok : bandwidth_ok (anc_used_bandwidth example_block).
Proof.
  split; [vm_compute; intuition discriminate..|]. intros id c Hc. cbn in Hc.
  apply lookup_singleton_Some in Hc as [_ <-]. vm_compute. intuition discriminate.
Qed.

Lemma example_fits u o n b :
  hrmp_outgoing o = {[ 2000 := mkUpdate n b ]} -> ump_msg_count u + ump_msg_count o <= 5 ->
  ump_total_bytes u + ump_total_bytes o <= umax 32 ->
  upd_msg_count (channel u 2000) + n <= 4 -> upd_total_bytes (channel u 2000) + b <= 64 -> fits u o example_limits.
Proof.
  intros Ho ? ? ? ?. split; [done|done|]. intros id c. rewrite Ho. intros [<- <-]%lookup_singleton_Some.
  exists (mkLimits 64 4). by split_and!.
Qed.

Lemma example_reachable : rtc segment_step ([], default_tracker) ([example_block], example_tracker).
Proof.
  apply rtc_once. apply (step_append [] default_tracker example_block (Head 7) example_limits).
  - apply fits_countable; [apply example_limits_wf|]. by apply (example_fits _ _ 1 16).
  - apply example_bandwidth_ok.
  - vm_compute. reflexivity.
Qed.

Lemma segment_tracker_exact_witness :
  tracks (used_bandwidth example_tracker) [example_block] /\
  (exists agg', tracker_subtract example_tracker example_block = Some agg') /\
  exists agg', tracker_append example_tracker example_next (Trunk 7) example_limits = Ok agg'.
Proof.
  destruct (segment_tracker_exact [example_block] example_tracker example_reachable)
    as (Ht & _ & Hdrop & Happ).
  assert (Hf : fits (used_bandwidth example_tracker) (anc_used_bandwidth example_next) example_limits)
    by (by apply (example_fits _ _ 3 48)).
  split; [exact Ht|]. split; [exact (Hdrop example_block [] eq_refl)|].
  apply (Happ example_next (Trunk 7) example_limits (fits_countable _ _ _ example_limits_wf Hf)).
  split; [exact Hf|]. split; [|by right]. by intros n w [= <-] [= <-].
Defined.

(** Two blocks whose sizes add up to more than a [u32]: with the limit
    [u32::MAX] the second is accepted and the total is too low. *)
Lemma saturated_sum_is_accepted :
  let limits := mkOutbound 2 (umax 32) ∅ in
  let block : Ancestor nat := new_unchecked (mkUsed 1 (umax 32) ∅) None in
  match tracker_append default_tracker block (Head 1) limits with
  | Ok agg => exists agg', tracker_append agg block (Head 1) limits = Ok agg' /\
      ump_total_bytes (used_bandwidth agg') = umax 32
  | _ => False
  end.
Proof. vm_compute. eexists. split; reflexivity. Qed.
