(* ===== verification/Descendants.v ===== *)
(** * Descendants of the relay parent

    Model of [cumulus/pallets/parachain-system/src/descendant_validation.rs]: the
    headers a collator adds on top of the relay parent must form a chain, each
    sealed by an authority of its epoch.  Headers, their hash and the BABE digest
    items are an interface ([RelayHeaders]); signature verification is one of its
    operations. *)

From stdpp Require Import base option numbers list.
From Stdlib Require Import ZArith Lia.
From S2P Require Import Prelude.
Local Open Scope Z_scope.

(** What the code uses of [sp_runtime::traits::Header] and of the digest items of
    [sp_consensus_babe]. *)
Class RelayHeaders (Hdr Hash : Type) : Type := {
  AuthorityId : Type;
  AuthoritySignature : Type;
  DigestItem : Type;
  hdr_hash : Hdr -> Hash;
  hdr_parent_hash : Hdr -> Hash;
  hdr_number : Hdr -> Z;
  hdr_state_root : Hdr -> Hash;
  hdr_logs : Hdr -> list DigestItem;
  hdr_with_logs : list DigestItem -> Hdr -> Hdr;
  as_babe_pre_digest : DigestItem -> option Z;
  as_next_epoch_descriptor : DigestItem -> option (list AuthorityId);
  as_babe_seal : DigestItem -> option AuthoritySignature;
  authority_verify : AuthorityId -> Hash -> AuthoritySignature -> bool;
}.

Inductive RelayParentVerificationError (Hash : Type) : Type :=
| InvalidNumberOfDescendants (expected received : Z)
| MissingAuthorities
| InvalidStateRoot (expected found : Hash)
| InvalidChainSequence (expected found : Hash) (number : Z)
| MissingPredigest (hash : Hash)
| MissingSeal (hash : Hash)
| InvalidSeal (hash : Hash)
| MissingNextEpochAuthorities (number : Z) (hash : Hash)
| MissingAuthorityId
| InvalidSignature (number : Z) (hash : Hash).
Arguments InvalidNumberOfDescendants {Hash}.
Arguments MissingAuthorities {Hash}.
Arguments InvalidStateRoot {Hash}.
Arguments InvalidChainSequence {Hash}.
Arguments MissingPredigest {Hash}.
Arguments MissingSeal {Hash}.
Arguments InvalidSeal {Hash}.
Arguments MissingNextEpochAuthorities {Hash}.
Arguments MissingAuthorityId {Hash}.
Arguments InvalidSignature {Hash}.

Section descendants.
Context {Hdr Hash : Type} `{EqDecision Hash} `{RH : RelayHeaders Hdr Hash}.

(** The authority index and the descriptor of the next epoch; of several items
    the last one counts. *)
Definition find_authority_idx_epoch_digest (header : Hdr) : option (Z * option (list AuthorityId)) :=
  let '(babe_pre_digest, next_epoch_digest) :=
    foldl (fun '(pre, next) log =>
             (match as_babe_pre_digest log with Some digest => Some digest | None => pre end,
              match as_next_epoch_descriptor log with Some digest => Some digest | None => next end))
          (None, None) (hdr_logs header) in
  (fun index => (index, next_epoch_digest)) <$> babe_pre_digest.

(** The variables of the loop over the headers. *)
Record Verifier : Type := mkVerifier {
  current_authorities : list AuthorityId;
  maybe_next_authorities : option (list AuthorityId);
  next_expected_parent_hash : option Hash;
}.

(** The authorities after a header: those of the next epoch if it starts one and
    is not the relay parent. *)
Definition rotate_authorities (index : nat) (header : Hdr) (descriptor : option (list AuthorityId)) (v : Verifier) :
    outcome (RelayParentVerificationError Hash) (list AuthorityId * option (list AuthorityId)) :=
  match descriptor with
  | Some authorities =>
    if (index =? 0)%nat then Ok (current_authorities v, maybe_next_authorities v)
    else
      match maybe_next_authorities v with
      | None => Err (MissingNextEpochAuthorities (hdr_number header) (hdr_hash header))
      | Some next_authorities => Ok (next_authorities, Some authorities)
      end
  | None => Ok (current_authorities v, maybe_next_authorities v)
  end.

(** The seal of a header: the last digest item, signed over the hash without it. *)
Definition verify_seal (authorities : list AuthorityId) (authority_index : Z) (header : Hdr) :
    outcome (RelayParentVerificationError Hash) unit :=
  match authorities !! Z.to_nat authority_index with
  | None => Err MissingAuthorityId
  | Some authority_id =>
    match last (hdr_logs header) with
    | None => Err (MissingSeal (hdr_hash header))
    | Some seal =>
      match as_babe_seal seal with
      | None => Err (InvalidSeal (hdr_hash header))
      | Some signature =>
        let unsealed := hdr_with_logs (take (length (hdr_logs header) - 1) (hdr_logs header)) header in
        if authority_verify authority_id (hdr_hash unsealed) signature then Ok tt
        else Err (InvalidSignature (hdr_number header) (hdr_hash header))
      end
    end
  end.

(** One round of the loop. *)
Definition verify_header (entry : nat * Hdr) (v : Verifier) : outcome (RelayParentVerificationError Hash) Verifier :=
  let '(index, current_header) := entry in
  let sealed_header_hash := hdr_hash current_header in
  obind (match next_expected_parent_hash v with
         | Some expected_hash =>
           if bool_decide (hdr_parent_hash current_header = expected_hash) then Ok tt
           else Err (InvalidChainSequence expected_hash (hdr_parent_hash current_header) (hdr_number current_header))
         | None => Ok tt
         end) (fun _ =>
  obind (ok_or (MissingPredigest sealed_header_hash) (find_authority_idx_epoch_digest current_header))
    (fun '(authority_index, next_epoch_descriptor) =>
  obind (rotate_authorities index current_header next_epoch_descriptor v) (fun '(current, next) =>
  obind (verify_seal current authority_index current_header) (fun _ =>
  Ok (mkVerifier current next (Some sealed_header_hash)))))).

(** [read_authorities] is [None] when the proof lacks the authorities;
    [read_next_authorities] is the result after [ok().flatten()]. *)
Definition verify_relay_parent_descendants (read_authorities read_next_authorities : option (list AuthorityId))
    (relay_parent_descendants : list Hdr) (relay_parent_state_root : Hash) (expected_rp_descendants_num : Z) :
    outcome (RelayParentVerificationError Hash) unit :=
  let expected := wrapping 32 (expected_rp_descendants_num + 1) in
  if negb (zlen relay_parent_descendants =? expected)
  then Err (InvalidNumberOfDescendants expected (zlen relay_parent_descendants))
  else
    obind (ok_or MissingAuthorities read_authorities) (fun authorities =>
    obind (match relay_parent_descendants with
           | relay_parent :: _ =>
             if bool_decide (hdr_state_root relay_parent = relay_parent_state_root) then Ok tt
             else Err (InvalidStateRoot relay_parent_state_root (hdr_state_root relay_parent))
           | [] => Ok tt
           end) (fun _ =>
    obind (for_res (imap pair relay_parent_descendants) verify_header (mkVerifier authorities read_next_authorities None))
      (fun _ => Ok tt))).

(** ** What is verified *)

(** A header is sealed by the authority of the set that its digest names. *)
Definition sealed_by (authorities : list AuthorityId) (header : Hdr) : Prop :=
  exists index descriptor authority rest seal signature,
    find_authority_idx_epoch_digest header = Some (index, descriptor) /\
    authorities !! Z.to_nat index = Some authority /\
    hdr_logs header = rest ++ [seal] /\ as_babe_seal seal = Some signature /\
    authority_verify authority (hdr_hash (hdr_with_logs rest header)) signature = true.

Definition epoch_change (header : Hdr) : option (list AuthorityId) :=
  find_authority_idx_epoch_digest header ≫= snd.

(** The authority sets in the order of their epochs: that of the relay parent, the
    next one of the proof, and those the headers announce. *)
Definition authority_sets (authorities : list AuthorityId) (next : option (list AuthorityId)) (headers : list Hdr) :
    list (list AuthorityId) :=
  authorities :: match next with Some n => n :: omap epoch_change headers | None => [] end.

(** Every header has the hash of the one before it as parent, and is sealed by an
    authority of the set that as many epoch changes select as there are up to it. *)
Definition chain_sealed (sets : list (list AuthorityId)) (headers : list Hdr) : Prop :=
  forall i header, headers !! i = Some header ->
    (forall before, i <> 0%nat -> headers !! pred i = Some before -> hdr_parent_hash header = hdr_hash before) /\
    exists set, sets !! length (omap epoch_change (take i (drop 1 headers))) = Some set /\ sealed_by set header.

Record descendants_valid (authorities next : option (list AuthorityId)) (headers : list Hdr) (root : Hash)
    (expected : Z) : Prop := {
  dv_length : zlen headers = wrapping 32 (expected + 1);
  dv_root : forall header, headers !! 0%nat = Some header -> hdr_state_root header = root;
  dv_sealed : exists set, authorities = Some set /\ chain_sealed (authority_sets set next (drop 1 headers)) headers;
}.

Lemma verify_seal_Ok set index header :
  verify_seal set index header = Ok tt <->
  exists authority rest seal signature,
    set !! Z.to_nat index = Some authority /\ hdr_logs header = rest ++ [seal] /\ as_babe_seal seal = Some signature /\
    authority_verify authority (hdr_hash (hdr_with_logs rest header)) signature = true.
Proof.
  unfold verify_seal. destruct (set !! Z.to_nat index) as [authority|]; [|naive_solver].
  destruct (hdr_logs header) as [|seal rest _] eqn:Hlogs using rev_ind; [split; [done|]; intros (? & rest & ? & ? & _ & Hr & _); by destruct rest|].
  rewrite last_snoc, length_app. cbn [length]. replace (length rest + 1 - 1)%nat with (length rest) by lia.
  rewrite take_app_length. destruct (as_babe_seal seal) as [signature|] eqn:Hs.
  - destruct (authority_verify authority _ signature) eqn:Hv; (split; [intros Hx|intros (? & ? & ? & ? & ? & Hr & ? & ?)]); try done.
    + by exists authority, rest, seal, signature.
    + apply app_inj_tail in Hr as [-> ->]. congruence.
  - split; [done|]. intros (? & ? & ? & ? & _ & Hr & ? & _). apply app_inj_tail in Hr as [_ ->]. congruence.
Qed.

(** The loop from some header on; [sets] are the sets still to come. *)
Definition sets_at (first : bool) (header : Hdr) (sets : list (list AuthorityId)) : list (list AuthorityId) :=
  if first then sets else drop (length (option_list (epoch_change header))) sets.

Fixpoint sealed_from (first : bool) (sets : list (list AuthorityId)) (parent : option Hash) (headers : list Hdr) : Prop :=
  match headers with
  | [] => True
  | header :: headers =>
    (forall h, parent = Some h -> hdr_parent_hash header = h) /\
    (exists set, sets_at first header sets !! 0%nat = Some set /\ sealed_by set header) /\
    sealed_from false (sets_at first header sets) (Some (hdr_hash header)) headers
  end.

Definition sets_of (v : Verifier) (headers : list Hdr) : list (list AuthorityId) :=
  authority_sets (current_authorities v) (maybe_next_authorities v) headers.

Lemma epoch_changes_cons header headers :
  omap epoch_change (header :: headers) = option_list (epoch_change header) ++ omap epoch_change headers.
Proof. cbn. by destruct (epoch_change header). Qed.

Lemma rotate_sets k header v headers i d :
  find_authority_idx_epoch_digest header = Some (i, d) ->
  let sets := sets_at (k =? 0)%nat header (sets_of v (if (k =? 0)%nat then headers else header :: headers)) in
  match rotate_authorities k header d v with
  | Ok (current, next) => sets = authority_sets current next headers
  | _ => sets = []
  end.
Proof.
  intros Hf. assert (He : epoch_change header = d) by (unfold epoch_change; by rewrite Hf).
  unfold rotate_authorities, sets_at, sets_of, authority_sets.
  destruct (k =? 0)%nat; [by destruct d|]. rewrite epoch_changes_cons, He.
  by destruct d as [a|], (maybe_next_authorities v) as [n|].
Qed.

Lemma verify_header_Ok k header v v' :
  verify_header (k, header) v = Ok v' <->
  (forall h, next_expected_parent_hash v = Some h -> hdr_parent_hash header = h) /\
  exists i d current next, find_authority_idx_epoch_digest header = Some (i, d) /\
    rotate_authorities k header d v = Ok (current, next) /\ verify_seal current i header = Ok tt /\
    v' = mkVerifier current next (Some (hdr_hash header)).
Proof.
  unfold verify_header. cbn zeta.
  assert (Hparent : match next_expected_parent_hash v with
    | Some expected => if bool_decide (hdr_parent_hash header = expected) then Ok tt
        else Err (InvalidChainSequence expected (hdr_parent_hash header) (hdr_number header))
    | None => Ok tt end = Ok tt <-> forall h, next_expected_parent_hash v = Some h -> hdr_parent_hash header = h).
  { destruct (next_expected_parent_hash v) as [h|]; [case_bool_decide|]; naive_solver. }
  rewrite <- Hparent. rewrite obind_ok. split.
  - intros ([] & Hp & Hr). split; [done|].
    destruct (find_authority_idx_epoch_digest header) as [[i d]|]; [|done]. cbn [ok_or obind] in Hr.
    apply obind_ok in Hr as ([current next] & Hrot & Hr). apply obind_ok in Hr as ([] & Hs & [= <-]). by exists i, d, current, next.
  - intros (Hp & i & d & current & next & -> & Hrot & Hs & ->). exists tt. split; [done|].
    cbn [ok_or obind]. rewrite Hrot. cbn [obind]. by rewrite Hs.
Qed.

Lemma verify_headers_Ok headers : forall k v,
  (exists v', for_res (imap (fun i h => (k + i, h)%nat) headers) verify_header v = Ok v') <->
  sealed_from (k =? 0)%nat (sets_of v (if (k =? 0)%nat then drop 1 headers else headers))
    (next_expected_parent_hash v) headers.
Proof.
  induction headers as [|header headers IH]; intros k v; [cbn; split; by eauto|].
  cbn [imap for_res sealed_from]. rewrite Nat.add_0_r.
  assert (Himap : imap ((fun i h => (k + i, h)%nat) ∘ S) headers = imap (fun i h => (S k + i, h)%nat) headers).
  { apply imap_ext. intros. cbn. f_equal. lia. }
  rewrite Himap. setoid_rewrite obind_ok. setoid_rewrite verify_header_Ok.
  change (drop 1 (header :: headers)) with (drop 0 headers). rewrite drop_0.
  split.
  - intros (v' & v1 & (Hp & i & d & current & next & Hf & Hrot & Hs & ->) & Hrest).
    pose proof (rotate_sets k header v headers i d Hf) as Hsets. cbv zeta in Hsets. rewrite Hrot in Hsets.
    rewrite Hsets. split; [done|]. split.
    + exists current. split; [done|]. apply verify_seal_Ok in Hs as (authority & rest & seal & signature & ? & ? & ? & ?).
      by exists i, d, authority, rest, seal, signature.
    + apply (IH (S k) (mkVerifier current next (Some (hdr_hash header)))). by exists v'.
  - intros (Hp & (set & Hset & i & d & authority & rest & seal & signature & Hf & Hseal) & Hrest).
    pose proof (rotate_sets k header v headers i d Hf) as Hsets. cbv zeta in Hsets.
    destruct (rotate_authorities k header d v) as [[current next]|e|] eqn:Hrot; [|by rewrite Hsets in Hset..].
    rewrite Hsets in Hset, Hrest. injection Hset as <-.
    destruct (proj2 (IH (S k) (mkVerifier current next (Some (hdr_hash header)))) Hrest) as [v' Hv'].
    exists v', (mkVerifier current next (Some (hdr_hash header))). split; [|done]. split; [done|].
    exists i, d, current, next. split_and!; [done..| |done]. apply verify_seal_Ok. by exists authority, rest, seal, signature.
Qed.

Lemma sealed_from_iff headers : forall (first : bool) sets parent,
  sealed_from first sets parent headers <->
  forall i header, headers !! i = Some header ->
    (forall h, match i with O => parent | S j => hdr_hash <$> headers !! j end = Some h -> hdr_parent_hash header = h) /\
    exists set, sets !! length (omap epoch_change (if first then take i (drop 1 headers) else take (S i) headers)) = Some set /\
      sealed_by set header.
Proof.
  induction headers as [|header headers IH]; intros first sets parent; [done|].
  assert (Hat : forall n, sets !! length (omap epoch_change
      (if first then take n (drop 1 (header :: headers)) else take (S n) (header :: headers)))
    = sets_at first header sets !! length (omap epoch_change (take n headers))).
  { intros n. unfold sets_at. destruct first; [done|]. cbn [take]. rewrite lookup_drop, epoch_changes_cons, length_app. done. }
  cbn [sealed_from]. rewrite IH. split.
  - intros (Hp & Hs & Hrest) [|i] h Hh; rewrite Hat; [by injection Hh as <-|].
    destruct (Hrest i h Hh) as [Hp' Hs']. split; [by destruct i|done].
  - intros Hall. destruct (Hall 0%nat header eq_refl) as [Hp Hs]. rewrite Hat in Hs. split_and!; [done..|].
    intros i h Hh. destruct (Hall (S i) h Hh) as [Hp' Hs']. rewrite Hat in Hs'. split; [by destruct i|done].
Qed.

(** [verify_relay_parent_descendants] accepts exactly the valid chains of
    descendants: the expected number of headers, starting with a header of the
    relay parent's state root, each the child of the one before and sealed by an
    authority of its epoch. *)
Theorem descendants_verified authorities next headers root expected :
  verify_relay_parent_descendants authorities next headers root expected = Ok tt <->
  descendants_valid authorities next headers root expected.
Proof.
  assert (Hchain : forall set, (exists v', for_res (imap pair headers) verify_header (mkVerifier set next None) = Ok v') <->
    chain_sealed (authority_sets set next (drop 1 headers)) headers).
  { intros set. rewrite (verify_headers_Ok headers 0 (mkVerifier set next None)), sealed_from_iff.
    apply forall_proper. intros [|i]; apply forall_proper; intros h; cbn; [naive_solver|].
    split; intros Hx Hh; destruct (Hx Hh) as [Hp Hs]; (split; [|done]).
    - intros before _ Hb. apply Hp. by rewrite Hb.
    - intros x Hx'. destruct (headers !! i) as [b|] eqn:Hb; [|done]. injection Hx' as <-. by apply Hp. }
  unfold verify_relay_parent_descendants. cbv zeta. destruct (Z.eqb_spec (zlen headers) (wrapping 32 (expected + 1))) as [Hl|Hl];
    cbn [negb]; [|split; [done|by intros []]].
  destruct authorities as [set|]; cbn [ok_or obind]; [|split; [done|by intros [_ _ (? & ? & _)]]].
  assert (Hroot : match headers with
    | relay_parent :: _ => if bool_decide (hdr_state_root relay_parent = root) then Ok tt
        else Err (InvalidStateRoot root (hdr_state_root relay_parent))
    | [] => Ok tt end = Ok tt <-> forall header, headers !! 0%nat = Some header -> hdr_state_root header = root).
  { destruct headers as [|h t]; cbn; [naive_solver|]. case_bool_decide; naive_solver. }
  rewrite obind_ok. split.
  - intros ([] & Hr & Hrest). rewrite Hroot in Hr. apply obind_ok in Hrest as (v' & Hv & _).
    split; [done..|]. exists set. split; [done|]. apply Hchain. by exists v'.
  - intros [_ Hr (set' & [= <-] & Hc)]. apply Hchain in Hc as [v' Hv]. exists tt. rewrite Hroot. split; [done|]. by rewrite Hv.
Qed.

(** The verification never panics. *)
Lemma verify_descendants_total authorities next headers root expected :
  verify_relay_parent_descendants authorities next headers root expected <> Panic.
Proof.
  assert (Hone : forall k h v, verify_header (k, h) v <> Panic).
  { intros k h v. unfold verify_header, verify_seal, rotate_authorities, ok_or, obind. repeat case_match; congruence. }
  assert (Hall : forall l v, for_res l verify_header v <> Panic).
  { induction l as [|[k h] l IH]; intros v; [done|]. cbn [for_res]. specialize (Hone k h v).
    by destruct (verify_header (k, h) v); [apply IH| |]. }
  unfold verify_relay_parent_descendants. cbv zeta. destruct (negb _); [done|]. destruct authorities as [set|]; [|done].
  cbn [ok_or obind]. specialize (Hall (imap pair headers) (mkVerifier set next None)).
  destruct (for_res _ _ _), headers; cbn [obind]; try case_bool_decide; done.
Qed.
End descendants.

(** ** Example

    Three headers, the last one the start of an epoch; a seal is the number of the
    authority and the hash it signs. *)
Inductive example_item : Set :=
| ItemPreDigest (index : Z)
| ItemEpoch (authorities : list Z)
| ItemSeal (authority signed : Z).

Record example_header : Set := mkExampleHeader {
  eh_number : Z;
  eh_parent : Z;
  eh_root : Z;
  eh_logs : list example_item;
}.

#[export] Instance example_headers : RelayHeaders example_header Z := {|
  AuthorityId := Z;
  AuthoritySignature := Z * Z;
  DigestItem := example_item;
  hdr_hash h := 1000 * eh_number h + Z.of_nat (length (eh_logs h));
  hdr_parent_hash := eh_parent;
  hdr_number := eh_number;
  hdr_state_root := eh_root;
  hdr_logs := eh_logs;
  hdr_with_logs logs h := mkExampleHeader (eh_number h) (eh_parent h) (eh_root h) logs;
  as_babe_pre_digest i := match i with ItemPreDigest n => Some n | _ => None end;
  as_next_epoch_descriptor i := match i with ItemEpoch l => Some l | _ => None end;
  as_babe_seal i := match i with ItemSeal a h => Some (a, h) | _ => None end;
  authority_verify a h s := (a =? s.1) && (h =? s.2);
|}.

Definition example_chain (signer : Z) : list example_header := [
  mkExampleHeader 1 0 9 [ItemPreDigest 0; ItemSeal 11 1001];
  mkExampleHeader 2 1002 8 [ItemPreDigest 1; ItemSeal 12 2001];
  mkExampleHeader 3 2002 7 [ItemPreDigest 0; ItemEpoch [31]; ItemSeal signer 3002]].

(** The header that starts the epoch is sealed by the authorities of that epoch,
    and an authority of the epoch before is refused. *)
Lemma example_chain_verified :
  verify_relay_parent_descendants (Some [11; 12]) (Some [21; 22]) (example_chain 21) 9 2 = Ok tt /\
  verify_relay_parent_descendants (Some [11; 12]) (Some [21; 22]) (example_chain 11) 9 2 = Err (InvalidSignature 3 3003) /\
  verify_relay_parent_descendants (Some [11; 12]) None (example_chain 21) 9 2 = Err (MissingNextEpochAuthorities 3 3003).
Proof. vm_compute. split_and!; reflexivity. Qed.
