(* ===== verification/ParaSystem.v ===== *)
(** * The parachain system pallet

    Model of the message and segment handling of
    [cumulus/pallets/parachain-system/src/lib.rs]: [on_initialize],
    [set_validation_data] up to the inbound messages (which are in [Inherent]),
    [send_upward_message], [schedule_code_upgrade] and [on_finalize], with the fee
    tracker of [polkadot/runtime/parachains/src/lib.rs].  The storage of the pallet
    is one record.  What the relay chain state proof yields is an input, every
    entry readable or not; the digest items of the block, the hash function and
    the codec of signals are parameters.  The queue of outgoing horizontal messages is an interface
    ([XcmpMessageSource]).  [None] is a panic; plain [+] and [-] wrap as in a
    release build. *)

From stdpp Require Import base option numbers list gmap.
From Stdlib Require Import ZArith Lia.
From Stdlib Require Import Strings.Byte.
From S2P Require Import Prelude Traits Arith128 Rational PerThing FixedPoint Weights.
From S2P Require Import Segment Descendants.
Local Open Scope Z_scope.

(** ** [FeeTracker] *)
Module FeeTracker.

Definition MIN_FEE_FACTOR : Z := from_u32 FixedU128 1.
Definition EXPONENTIAL_FEE_BASE : Z := default 0 (ffrom_rational FixedU128 105 100).
Definition MESSAGE_SIZE_FEE_BASE : Z := default 0 (ffrom_rational FixedU128 1 1000).

Definition do_increase_fee_factor (fee_factor message_size : Z) : Z :=
  let message_size_factor :=
    fsaturating_mul FixedU128 (saturating_from_integer FixedU128 (unsigned 128) (message_size / 1024))
                    MESSAGE_SIZE_FEE_BASE in
  fsaturating_mul FixedU128 fee_factor
                  (fsaturating_add FixedU128 EXPONENTIAL_FEE_BASE message_size_factor).

(** The new factor and whether it was decreased; [None] if the division panics. *)
Definition do_decrease_fee_factor (fee_factor : Z) : option (Z * bool) :=
  if fee_factor =? MIN_FEE_FACTOR then Some (fee_factor, false)
  else
    q ← fdiv FixedU128 fee_factor EXPONENTIAL_FEE_BASE;
    Some (Z.max MIN_FEE_FACTOR q, true).
End FeeTracker.

(** ** Data *)

Record AsyncBackingParams : Set := mkAsyncBacking { max_candidate_depth : Z; allowed_ancestry_len : Z }.

Record AbridgedHostConfiguration : Set := mkHostConfig {
  max_code_size : Z;
  max_head_data_size : Z;
  max_upward_queue_count : Z;
  max_upward_queue_size : Z;
  max_upward_message_size : Z;
  max_upward_message_num_per_candidate : Z;
  hrmp_max_message_num_per_candidate : Z;
  validation_upgrade_cooldown : Z;
  validation_upgrade_delay : Z;
  async_backing_params : AsyncBackingParams;
}.

Record PersistedValidationData (Root : Type) : Type := mkVfp {
  parent_head : bytes;
  relay_parent_number : Z;
  relay_parent_storage_root : Root;
  max_pov_size : Z;
}.
Arguments mkVfp {Root}.
Arguments parent_head {Root}.
Arguments max_pov_size {Root}.
Arguments relay_parent_number {Root}.
Arguments relay_parent_storage_root {Root}.

Record PoVMessages (Root : Type) : Type := mkPoV {
  relay_storage_root_or_hash : Root;
  core_selector : Z;
  bundle_index : Z;
  pov_ump_msg_count : Z;
  hrmp_outbound_count : Z;
  hrmp_outbound_recipients : list ParaId;
}.
Arguments mkPoV {Root}.
Arguments relay_storage_root_or_hash {Root}.
Arguments core_selector {Root}.
Arguments bundle_index {Root}.
Arguments pov_ump_msg_count {Root}.
Arguments hrmp_outbound_count {Root}.
Arguments hrmp_outbound_recipients {Root}.

Record CoreInfo : Set := mkCoreInfo { selector : Z; claim_queue_offset : Z; number_of_cores : Z }.

(** What a block's digest says: the core, the bundle index and whether this is
    the last block of the core. *)
Record Digest : Set := mkDigest {
  core_info : option CoreInfo;
  block_bundle_index : option Z;
  is_last_block_in_core : option bool;
}.

Inductive UMPSignal : Set :=
| SelectCore (selector claim_queue_offset : Z)
| ApprovedPeer (peer : bytes).

Inductive ChannelStatus : Set :=
| Closed
| Full
| Ready (max_size_now max_size_ever : Z).

Record ChannelInfo : Set := mkChannelInfo {
  info_max_capacity : Z;
  info_max_total_size : Z;
  info_max_message_size : Z;
  info_msg_count : Z;
  info_total_size : Z;
}.

Inductive MessageSendError : Set := QueueFull | NoChannel | TooBig | Other | TooManyChannels.

(** ** Interface of the queue of outgoing horizontal messages

    The queue asks for the status of a channel and for its parameters; it
    returns the messages taken and its new state, [None] when it panics. *)
Class XcmpMessageSource (Q : Type) : Type :=
  take_outbound_messages :
    (ParaId -> ChannelStatus) -> (ParaId -> option ChannelInfo) -> Z -> list ParaId -> Q ->
    option (list (ParaId * bytes) * Q).

#[export] Instance unit_source : XcmpMessageSource unit := fun _ _ _ _ q => Some ([], q).

(** What the pallet relies on: at most one message per recipient, only into
    channels that are ready, and no more bytes than fit there now. *)
Class XcmpMessageSourceLaws (Q : Type) {S : XcmpMessageSource Q} (wf : Q -> Prop)
    (admissible : (ParaId -> ChannelStatus) -> Q -> Prop) : Prop := {
  taken_total : forall status info n excluded q,
    wf q -> exists taken q', take_outbound_messages status info n excluded q = Some (taken, q') /\ wf q';
  taken_distinct : forall status info n excluded q taken q',
    wf q -> take_outbound_messages status info n excluded q = Some (taken, q') -> NoDup taken.*1;
  taken_fits : forall status info n excluded q taken q' id data,
    wf q -> admissible status q ->
    take_outbound_messages status info n excluded q = Some (taken, q') -> (id, data) ∈ taken ->
    exists now ever, status id = Ready now ever /\ zlen data <= now;
}.

(** ** Configuration *)

(** The implementations of the trait. *)
Inductive CheckAssociatedRelayNumber : Set :=
| RelayNumberStrictlyIncreases
| AnyRelayNumber
| RelayNumberMonotonicallyIncreases.

(** [false] if the implementation panics. *)
Definition check_associated_relay_number (self : CheckAssociatedRelayNumber) (current previous : Z) : bool :=
  match self with
  | RelayNumberStrictlyIncreases => negb (current <=? previous)
  | AnyRelayNumber => true
  | RelayNumberMonotonicallyIncreases => negb (current <? previous)
  end.

Record ParaConfig : Set := mkParaConfig {
  cfg_check_relay_number : CheckAssociatedRelayNumber;
  cfg_relay_parent_offset : Z;
  cfg_v3_scheduling : bool;
}.

(** ** Storage *)

Record Pallet (H Root Q : Type) : Type := mkPallet {
  UnincludedSegment : list (Ancestor H);
  AggregatedUnincludedSegment : option SegmentTracker;
  RelevantMessagingState : option MessagingStateSnapshot;
  HostConfiguration : option AbridgedHostConfiguration;
  ValidationData : option (PersistedValidationData Root);
  LastRelayChainBlockNumber : Z;
  DidSetValidationCode : bool;
  NewValidationCode : option bytes;
  PendingValidationCode : option bytes;
  UpgradeRestrictionSignal : option unit;
  UpgradeGoAheadSignal : option UpgradeGoAhead;
  PendingUpwardMessages : list bytes;
  UpwardMessages : list bytes;
  PendingUpwardSignals : list bytes;
  PendingApprovedPeer : option bytes;
  UpwardDeliveryFeeFactor : Z;
  PoVMessagesTracker : option (PoVMessages Root);
  PreviousCoreCount : option Z;
  AnnouncedHrmpMessagesPerCandidate : Z;
  HrmpWatermark : Z;
  HrmpOutboundMessages : list (ParaId * bytes);
  OutboundXcmp : Q;
}.
Arguments mkPallet {H Root Q}.
Arguments UnincludedSegment {H Root Q}.
Arguments AggregatedUnincludedSegment {H Root Q}.
Arguments RelevantMessagingState {H Root Q}.
Arguments HostConfiguration {H Root Q}.
Arguments ValidationData {H Root Q}.
Arguments LastRelayChainBlockNumber {H Root Q}.
Arguments DidSetValidationCode {H Root Q}.
Arguments NewValidationCode {H Root Q}.
Arguments PendingValidationCode {H Root Q}.
Arguments UpgradeRestrictionSignal {H Root Q}.
Arguments UpgradeGoAheadSignal {H Root Q}.
Arguments PendingUpwardMessages {H Root Q}.
Arguments UpwardMessages {H Root Q}.
Arguments PendingUpwardSignals {H Root Q}.
Arguments PendingApprovedPeer {H Root Q}.
Arguments UpwardDeliveryFeeFactor {H Root Q}.
Arguments PoVMessagesTracker {H Root Q}.
Arguments PreviousCoreCount {H Root Q}.
Arguments AnnouncedHrmpMessagesPerCandidate {H Root Q}.
Arguments HrmpWatermark {H Root Q}.
Arguments HrmpOutboundMessages {H Root Q}.
Arguments OutboundXcmp {H Root Q}.

(** [binary_search_by_key] in a vector that is sorted by recipient (the sound states
    of [relay_ok] are). *)
Definition channel_index (channels : list (ParaId * AbridgedHrmpChannel)) (id : ParaId) : option nat :=
  fst <$> list_find (fun c => fst c = id) channels.

(** ** Bandwidth *)

Definition adjust_channel (channels : list (ParaId * AbridgedHrmpChannel))
    (entry : ParaId * HrmpChannelUpdate) : list (ParaId * AbridgedHrmpChannel) :=
  let '(para_id, used) := entry in
  match channel_index channels para_id with
  | None => channels
  | Some i =>
    match channels !! i with
    | None => channels
    | Some (id, c) =>
      let total_size := Z.min (wrapping 32 (total_size c + upd_total_bytes used)) (max_total_size c) in
      let msg_count := Z.min (wrapping 32 (msg_count c + upd_msg_count used)) (max_capacity c) in
      <[i := (id, mkChannel (max_capacity c) (max_total_size c) (max_message_size c)
                            msg_count total_size)]> channels
    end
  end.

(** [adjust_egress_bandwidth_limits] on the messaging state. *)
Definition adjust_egress_bandwidth_limits (agg : option SegmentTracker)
    (messaging_state : option MessagingStateSnapshot) : option MessagingStateSnapshot :=
  match agg with
  | None => messaging_state
  | Some unincluded_segment =>
    match messaging_state with
    | None => None
    | Some s =>
      let used_bandwidth := used_bandwidth unincluded_segment in
      let channels := foldl adjust_channel (egress_channels s) (btree_iter (hrmp_outgoing used_bandwidth)) in
      Some (mkSnapshot (saturating_sub (remaining_count s) (ump_msg_count used_bandwidth))
                       (saturating_sub (remaining_size s) (ump_total_bytes used_bandwidth)) channels)
    end
  end.

(** [GetChannelInfo] over the messaging state of the storage. *)
Definition get_channel_status (messaging_state : option MessagingStateSnapshot) (id : ParaId) :
    ChannelStatus :=
  match messaging_state with
  | None => Closed
  | Some d =>
    match channel_index (egress_channels d) id with
    | None => Closed
    | Some i =>
      match egress_channels d !! i with
      | None => Closed
      | Some (_, meta) =>
        if max_capacity meta <? wrapping 32 (msg_count meta + 1) then Full
        else Ready (wrapping 32 (max_total_size meta - total_size meta)) (max_message_size meta)
      end
    end
  end.

Definition get_channel_info (messaging_state : option MessagingStateSnapshot) (id : ParaId) :
    option ChannelInfo :=
  d ← messaging_state;
  i ← channel_index (egress_channels d) id;
  '(_, c) ← egress_channels d !! i;
  Some (mkChannelInfo (max_capacity c) (max_total_size c) (max_message_size c) (msg_count c) (total_size c)).

(** The [scan] over the pending upward messages: how many fit, and their size. *)
Fixpoint count_fitting (available_capacity available_size : Z) (up : list bytes) (state : Z * Z) : Z * Z :=
  match up with
  | [] => state
  | msg :: up =>
    let '(cap_used, size_used) := state in
    let new_cap := saturating_add 32 cap_used 1 in
    let new_size := saturating_add 32 size_used (wrapping 32 (zlen msg)) in
    match checked_sub available_capacity new_cap, checked_sub available_size new_size with
    | Some _, Some _ => count_fitting available_capacity available_size up (new_cap, new_size)
    | _, _ => state
    end
  end.

Section pallet.
Context {H Root Q : Type} `{EqDecision H, EqDecision Root} `{XcmpMessageSource Q}.
(** [UMPSignal::encode] and the zero root of [PoVMessages::default]. *)
Context (encode_signal : UMPSignal -> bytes) (zero_root : Root).
Implicit Types p : Pallet H Root Q.

(** ** Initialization of a block *)

Definition V3_CLAIM_QUEUE_LOOKAHEAD : Z := 2.
Definition V2_CLAIM_QUEUE_LOOKAHEAD : Z := 1.

Definition max_allowed_claim_queue_offset (v3_enabled : bool) (relay_parent_offset : Z) : Z :=
  if v3_enabled then V3_CLAIM_QUEUE_LOOKAHEAD
  else saturating_add 8 V2_CLAIM_QUEUE_LOOKAHEAD relay_parent_offset.

(** [core_info_exists_at_max_once] of the digest. *)
Inductive CoreInfoExistsAtMaxOnce : Set :=
| Once (core_info : CoreInfo)
| MoreThanOnce
| NotFound.

Definition replace_last (hash : H) (chain : list (Ancestor H)) : list (Ancestor H) :=
  match last chain with
  | None => chain
  | Some ancestor => <[(length chain - 1)%nat := replace_para_head_hash ancestor hash]> chain
  end.

(** The storage and the weight of [on_initialize]; [None] when the digest is
    refused. *)
Definition on_initialize (db : Fees.RuntimeDbWeight) (v3_enabled : bool) (relay_parent_offset : Z)
    (digest : CoreInfoExistsAtMaxOnce) (parent_hash : H) p : option (Pallet H Root Q * WeightV2.Weight) :=
  let weight := WeightV2.zero in
  let '(new_code, weight) :=
    if negb (DidSetValidationCode p)
    then (None, WeightV2.add weight (Fees.writes db 1))
    else (NewValidationCode p, weight) in
  let segment := replace_last parent_hash (UnincludedSegment p) in
  let weight := WeightV2.add weight (Fees.reads_writes db 1 1) in
  let weight := WeightV2.add weight (Fees.reads_writes db 3 2) in
  let weight := WeightV2.add weight (Fees.reads_writes db 1 5) in
  let weight := WeightV2.add weight (Fees.reads_writes db 1 1) in
  let hrmp_max :=
    default 0 (hrmp_max_message_num_per_candidate <$> HostConfiguration p) in
  let weight := WeightV2.add weight
    (Fees.reads_writes db (wrapping 64 (3 + hrmp_max)) (wrapping 64 (4 + hrmp_max))) in
  let weight := WeightV2.add weight (Fees.reads_writes db 1 1) in
  let weight := WeightV2.add weight (Fees.reads_writes db 6 3) in
  let weight := WeightV2.add weight (Fees.reads db 1) in
  _ ← match digest with
      | Once core_info =>
        if claim_queue_offset core_info <=? max_allowed_claim_queue_offset v3_enabled relay_parent_offset
        then Some tt else None
      | NotFound => Some tt
      | MoreThanOnce => None
      end;
  Some (mkPallet segment (AggregatedUnincludedSegment p) (RelevantMessagingState p)
          (HostConfiguration p) None (LastRelayChainBlockNumber p) (DidSetValidationCode p) new_code
          (PendingValidationCode p) (UpgradeRestrictionSignal p) (UpgradeGoAheadSignal p)
          (PendingUpwardMessages p) [] (PendingUpwardSignals p) (PendingApprovedPeer p)
          (UpwardDeliveryFeeFactor p) (PoVMessagesTracker p) (PreviousCoreCount p) hrmp_max
          (HrmpWatermark p) [] (OutboundXcmp p), weight).

(** ** Dropping included ancestors *)

(** The search for the included head; [None] if an ancestor has no head yet. *)
Fixpoint included_position (para_head : H) (chain : list (Ancestor H)) : option (option nat) :=
  match chain with
  | [] => Some None
  | block :: chain =>
    head_hash ← para_head_hash block;
    if bool_decide (head_hash = para_head) then Some (Some 0%nat)
    else i ← included_position para_head chain; Some (option_map S i)
  end.

Definition maybe_drop_included_ancestors (para_head : option H) (capacity : UnincludedSegmentCapacity)
    (parent_hash : H) (chain : list (Ancestor H)) (agg : option SegmentTracker) :
    option (list (Ancestor H) * option SegmentTracker) :=
  included_head ←
    match para_head, is_expecting_included_parent capacity with
    | Some h, true => if bool_decide (h = parent_hash) then Some h else None
    | Some h, false => Some h
    | None, true => Some parent_hash
    | None, false => None
    end;
  i ← included_position included_head chain;
  let idx := match i with Some i => S i | None => 0%nat end in
  let dropped := take idx chain in
  let new_chain := drop idx chain in
  let new_len := (length chain - length dropped)%nat in
  new_agg ← match dropped with
            | [] => Some agg
            | _ =>
              a ← agg;
              a ← for_in dropped (fun block a => tracker_subtract a block) a;
              Some (Some a)
            end;
  if wrapping 32 (Z.of_nat new_len) <? capacity_get capacity then Some (new_chain, new_agg) else None.

(** ** The inherent *)

Context {Hdr : Type} `{RH : !RelayHeaders Hdr Root}.

(** What [RelayChainStateProof] reads, with the included head already hashed;
    [None] is an entry that cannot be read. *)
Record RelayChainStateProof : Type := mkRelayProof {
  read_included_para_head : option H;
  read_authorities : option (list AuthorityId);
  read_next_authorities : option (option (list AuthorityId));
  read_upgrade_go_ahead_signal : option (option UpgradeGoAhead);
  read_upgrade_restriction_signal : option (option unit);
  read_abridged_host_configuration : option AbridgedHostConfiguration;
  read_messaging_state_snapshot : AbridgedHostConfiguration -> option MessagingStateSnapshot;
}.

(** The inherent data; [relay_chain_state] is what [RelayChainStateProof::new]
    makes of the proof, [None] if that fails. *)
Record BasicParachainInherentData : Type := mkInherentData {
  validation_data : PersistedValidationData Root;
  relay_chain_state : option RelayChainStateProof;
  relay_parent_descendants : list Hdr;
  collator_peer_id : option bytes;
}.

Inductive InherentError : Set := BadOrigin.

(** The pending code after the go-ahead signal of the relay chain: applied,
    discarded or left alone. *)
Definition process_go_ahead (signal in_segment : option UpgradeGoAhead) (pending : option bytes) :
    option (option bytes) :=
  _ ← match in_segment with
      | Some s => if bool_decide (signal = Some s) then Some tt else None
      | None => Some tt
      end;
  match signal, in_segment with
  | Some _, Some _ => Some pending
  | Some GoAhead, None => _ ← pending; Some None
  | Some Abort, None => Some None
  | None, _ => Some pending
  end.

(** Descendants are only asked for with an offset and without V3 scheduling. *)
Definition check_descendants (cfg : ParaConfig) (data : BasicParachainInherentData) (proof : RelayChainStateProof) : bool :=
  if (0 <? cfg_relay_parent_offset cfg) && negb (cfg_v3_scheduling cfg) then
    match verify_relay_parent_descendants (read_authorities proof) (mjoin (read_next_authorities proof))
            (relay_parent_descendants data) (relay_parent_storage_root (validation_data data))
            (cfg_relay_parent_offset cfg) with
    | Ok _ => true
    | _ => false
    end
  else true.

(** [set_validation_data] up to the inbound messages; [capacity] is the answer of
    the consensus hook.  The code update, events, digest logs, the copy of the
    proof in the storage and [OnSystemEvent] concern other pallets. *)
Definition set_validation_data (cfg : ParaConfig) (origin_is_none : bool) (data : BasicParachainInherentData)
    (capacity : UnincludedSegmentCapacity) (parent_hash : H) p : outcome InherentError (Pallet H Root Q) :=
  obind (ensure origin_is_none BadOrigin) (fun _ =>
  obind (if bool_decide (is_Some (ValidationData p)) then Panic else Ok tt) (fun _ =>
  let vfp := validation_data data in
  obind (if check_associated_relay_number (cfg_check_relay_number cfg) (relay_parent_number vfp)
              (LastRelayChainBlockNumber p) then Ok tt else Panic) (fun _ =>
  obind (expect (relay_chain_state data)) (fun relay_state_proof =>
  obind (if check_descendants cfg data relay_state_proof then Ok tt else Panic) (fun _ =>
  obind (expect (maybe_drop_included_ancestors (read_included_para_head relay_state_proof) capacity parent_hash
                   (UnincludedSegment p) (AggregatedUnincludedSegment p))) (fun '(segment, agg) =>
  obind (expect (read_upgrade_go_ahead_signal relay_state_proof)) (fun upgrade_go_ahead_signal =>
  obind (expect (process_go_ahead upgrade_go_ahead_signal (agg ≫= consumed_go_ahead_signal)
                   (PendingValidationCode p))) (fun pending =>
  obind (expect (read_upgrade_restriction_signal relay_state_proof)) (fun upgrade_restriction_signal =>
  obind (expect (read_abridged_host_configuration relay_state_proof)) (fun host_config =>
  obind (expect (read_messaging_state_snapshot relay_state_proof host_config)) (fun relevant_messaging_state =>
  Ok (mkPallet segment agg (Some relevant_messaging_state)
        (Some host_config) (Some vfp) (LastRelayChainBlockNumber p)
        (DidSetValidationCode p) (NewValidationCode p) pending upgrade_restriction_signal
        upgrade_go_ahead_signal (PendingUpwardMessages p) (UpwardMessages p)
        (PendingUpwardSignals p) (collator_peer_id data) (UpwardDeliveryFeeFactor p)
        (PoVMessagesTracker p) (PreviousCoreCount p) (AnnouncedHrmpMessagesPerCandidate p)
        (HrmpWatermark p) (HrmpOutboundMessages p) (OutboundXcmp p))))))))))))).

(** ** Calls during a block *)

Definition send_upward_message (message : bytes) p : outcome MessageSendError (Pallet H Root Q) :=
  let message_len := zlen message in
  let pending := PendingUpwardMessages p ++ [message] in
  let put fee :=
    mkPallet (UnincludedSegment p) (AggregatedUnincludedSegment p) (RelevantMessagingState p)
      (HostConfiguration p) (ValidationData p) (LastRelayChainBlockNumber p) (DidSetValidationCode p)
      (NewValidationCode p) (PendingValidationCode p) (UpgradeRestrictionSignal p)
      (UpgradeGoAheadSignal p) pending (UpwardMessages p) (PendingUpwardSignals p)
      (PendingApprovedPeer p) fee (PoVMessagesTracker p) (PreviousCoreCount p)
      (AnnouncedHrmpMessagesPerCandidate p) (HrmpWatermark p) (HrmpOutboundMessages p)
      (OutboundXcmp p) in
  match HostConfiguration p with
  | Some cfg =>
    if max_upward_message_size cfg <? message_len then Err TooBig
    else
      let threshold := max_upward_queue_size cfg / 2 in
      let total_size := foldr (fun m s => zlen m + s) 0 pending in
      if threshold <? total_size
      then Ok (put (FeeTracker.do_increase_fee_factor (UpwardDeliveryFeeFactor p) message_len))
      else Ok (put (UpwardDeliveryFeeFactor p))
  | None => Ok (put (UpwardDeliveryFeeFactor p))
  end.

Inductive PalletError : Set :=
| OverlappingUpgrades
| ProhibitedByPolkadot
| CodeTooBig
| ValidationDataNotAvailable
| HostConfigurationNotAvailable.

Definition schedule_code_upgrade (code : bytes) p : outcome PalletError (Pallet H Root Q) :=
  obind (ensure (bool_decide (is_Some (ValidationData p))) ValidationDataNotAvailable) (fun _ =>
  obind (ensure (bool_decide (UpgradeRestrictionSignal p = None)) ProhibitedByPolkadot) (fun _ =>
  obind (ensure (negb (bool_decide (is_Some (PendingValidationCode p)))) OverlappingUpgrades) (fun _ =>
  obind (ok_or HostConfigurationNotAvailable (HostConfiguration p)) (fun cfg =>
  obind (ensure (zlen code <=? max_code_size cfg) CodeTooBig) (fun _ =>
  Ok (mkPallet (UnincludedSegment p) (AggregatedUnincludedSegment p) (RelevantMessagingState p)
        (HostConfiguration p) (ValidationData p) (LastRelayChainBlockNumber p) true (Some code)
        (Some code) (UpgradeRestrictionSignal p) (UpgradeGoAheadSignal p) (PendingUpwardMessages p)
        (UpwardMessages p) (PendingUpwardSignals p) (PendingApprovedPeer p)
        (UpwardDeliveryFeeFactor p) (PoVMessagesTracker p) (PreviousCoreCount p)
        (AnnouncedHrmpMessagesPerCandidate p) (HrmpWatermark p) (HrmpOutboundMessages p)
        (OutboundXcmp p))))))).

(** ** Finalization of a block *)

(** The [UMP_SEPARATOR] and the signals after the messages. *)
Definition send_ump_signals (core_info : option CoreInfo) (signals : list bytes) (peer : option bytes)
    (upward : list bytes) : list bytes :=
  let ump_signals :=
    match core_info with
    | Some ci => signals ++ [encode_signal (SelectCore (selector ci) (claim_queue_offset ci))]
    | None => signals
    end in
  let ump_signals :=
    match peer with
    | Some peer => ump_signals ++ [encode_signal (ApprovedPeer peer)]
    | None => ump_signals
    end in
  match ump_signals with [] => upward | _ => upward ++ [[]] ++ ump_signals end.

(** The tracker of the current proof of validity: kept for a later block of the
    same bundle, started anew otherwise. *)
Definition current_pov_tracker (vfp : PersistedValidationData Root) (digest : Digest)
    (tracker : option (PoVMessages Root)) : PoVMessages Root :=
  let current_core_selector := default 0 (selector <$> core_info digest) in
  let current_bundle_index := default 0 (block_bundle_index digest) in
  let fresh := mkPoV zero_root 0 0 0 0 [] in
  let t := match tracker with
           | Some t =>
             if bool_decide (relay_storage_root_or_hash t = relay_parent_storage_root vfp)
                && (core_selector t =? current_core_selector)
                && (bundle_index t <? current_bundle_index) then t else fresh
           | None => fresh
           end in
  mkPoV (relay_parent_storage_root vfp) current_core_selector current_bundle_index
        (pov_ump_msg_count t) (hrmp_outbound_count t) (hrmp_outbound_recipients t).

(** [None] on a failed [expect].  Where the host configuration or the messaging
    state is missing the code returns early; with a messaging state there is an
    adjusted one, so the inner early return of the code is not reached. *)
Definition on_finalize (digest : Digest) p : option (Pallet H Root Q) :=
  let relay_upgrade_go_ahead := UpgradeGoAheadSignal p in
  vfp ← ValidationData p;
  let early :=
    mkPallet (UnincludedSegment p) (AggregatedUnincludedSegment p) (RelevantMessagingState p)
      (HostConfiguration p) (ValidationData p) (relay_parent_number vfp) false (NewValidationCode p)
      (PendingValidationCode p) None None (PendingUpwardMessages p) (UpwardMessages p)
      (PendingUpwardSignals p) (PendingApprovedPeer p) (UpwardDeliveryFeeFactor p)
      (PoVMessagesTracker p) (PreviousCoreCount p) (AnnouncedHrmpMessagesPerCandidate p)
      (HrmpWatermark p) (HrmpOutboundMessages p) (OutboundXcmp p) in
  match HostConfiguration p, RelevantMessagingState p with
  | Some host_config, Some state =>
    let total_bandwidth_out := from_relay_chain_state state in
    let adjusted := adjust_egress_bandwidth_limits (AggregatedUnincludedSegment p) (Some state) in
    let pov_tracker := current_pov_tracker vfp digest (PoVMessagesTracker p) in
    let '(available_capacity, available_size) :=
      match adjusted with Some s => (remaining_count s, remaining_size s) | None => (0, 0) end in
    let available_capacity :=
      Z.min available_capacity
        (saturating_sub (max_upward_message_num_per_candidate host_config) (pov_ump_msg_count pov_tracker)) in
    let '(num, total_size) := count_fitting available_capacity available_size (PendingUpwardMessages p) (0, 0) in
    let sent := take (Z.to_nat num) (PendingUpwardMessages p) in
    let up := drop (Z.to_nat num) (PendingUpwardMessages p) in
    let pov_ump := saturating_add 32 (pov_ump_msg_count pov_tracker) num in
    let core_count := default 1 (number_of_cores <$> core_info digest) in
    let last := default true (is_last_block_in_core digest) in
    let upward := if last then send_ump_signals (core_info digest) (PendingUpwardSignals p) (PendingApprovedPeer p) sent
                  else sent in
    let threshold := max_upward_queue_size host_config / 2 in
    let remaining_total_size := foldr (fun m s => zlen m + s) 0 up in
    fee ← (if remaining_total_size <=? threshold
           then fst <$> FeeTracker.do_decrease_fee_factor (UpwardDeliveryFeeFactor p)
           else Some (UpwardDeliveryFeeFactor p));
    let maximum_channels :=
      Z.min (hrmp_max_message_num_per_candidate host_config) (AnnouncedHrmpMessagesPerCandidate p) in
    let maximum_channels := saturating_sub maximum_channels (hrmp_outbound_count pov_tracker) in
    '(outbound_messages, queue) ←
      take_outbound_messages (get_channel_status adjusted) (get_channel_info adjusted) maximum_channels
        (hrmp_outbound_recipients pov_tracker) (OutboundXcmp p);
    let pov := mkPoV (relay_storage_root_or_hash pov_tracker) (core_selector pov_tracker)
                 (bundle_index pov_tracker) pov_ump
                 (saturating_add 32 (hrmp_outbound_count pov_tracker) (wrapping 32 (zlen outbound_messages)))
                 (hrmp_outbound_recipients pov_tracker ++ outbound_messages.*1) in
    let hrmp : gmap ParaId HrmpChannelUpdate :=
      foldl (fun m '(recipient, data) => <[recipient := mkUpdate 1 (wrapping 32 (zlen data))]> m)
            ∅ outbound_messages in
    let used := mkUsed num total_size hrmp in
    let aggregated := default default_tracker (AggregatedUnincludedSegment p) in
    let consumed :=
      if bool_decide (is_Some (consumed_go_ahead_signal aggregated)) then None
      else relay_upgrade_go_ahead in
    let ancestor := new_unchecked used consumed in
    let watermark_update := watermark_new (HrmpWatermark p) (relay_parent_number vfp) in
    match tracker_append aggregated ancestor watermark_update total_bandwidth_out with
    | Ok aggregated =>
      Some (mkPallet (UnincludedSegment p ++ [ancestor]) (Some aggregated) adjusted
              (HostConfiguration p) (ValidationData p) (relay_parent_number vfp) false
              (NewValidationCode p) (PendingValidationCode p) None None up upward
              (if last then [] else PendingUpwardSignals p) (if last then None else PendingApprovedPeer p)
              fee (Some pov) (Some core_count) 0 (HrmpWatermark p) outbound_messages queue)
    | _ => None
    end
  | _, _ => Some early
  end.
End pallet.
