(* ===== verification/ParaSystemProofs.v ===== *)
(** * Correctness of the parachain system pallet

    The invariant of the storage over hooks and calls, which inherents are
    accepted and what dropping the included ancestors does, and that finalization
    does not hit the [expect] on the limits of the unincluded segment as long as
    the segment itself is within them: the messages [on_finalize] selects fit next
    to those of the segment. *)

From stdpp Require Import base option numbers list gmap sorting.
From Stdlib Require Import ZArith Lia.
From S2P Require Import Prelude Traits Arith128 Rational PerThing FixedPoint Weights.
From S2P Require Import Segment SegmentProofs Descendants ParaSystem.
Local Open Scope Z_scope.

(** ** The fee factor *)

Lemma fee_constants :
  FeeTracker.MIN_FEE_FACTOR = 10 ^ 18 /\ FeeTracker.EXPONENTIAL_FEE_BASE = 1050000000000000000 /\
  FeeTracker.MESSAGE_SIZE_FEE_BASE = 10 ^ 15.
Proof. vm_compute. auto. Qed.

Lemma decrease_fee_spec fee :
  FeeTracker.MIN_FEE_FACTOR <= fee <= umax 128 ->
  exists fee' b, FeeTracker.do_decrease_fee_factor fee = Some (fee', b) /\
    FeeTracker.MIN_FEE_FACTOR <= fee' <= fee.
Proof.
  destruct fee_constants as (E1 & E2 & _). intros Hf. unfold FeeTracker.do_decrease_fee_factor.
  rewrite E1, E2 in *. change (10 ^ 18) with 1000000000000000000 in *.
  destruct (Z.eqb_spec fee 1000000000000000000) as [->|Hne].
  { exists 1000000000000000000, false. split; [reflexivity|lia]. }
  unfold fdiv. change (1050000000000000000 =? 0) with false. cbn iota.
  rewrite checked_div_spec; [|apply fixed_types_ok|cbn; lia|vm_compute; split; discriminate].
  change (1050000000000000000 =? 0) with false. cbn iota. change (DIV FixedU128) with 1000000000000000000.
  rewrite Z.quot_div_nonneg by lia.
  set (q := fee * 1000000000000000000 / 1050000000000000000).
  assert (0 <= q <= fee).
  { split; [apply Z.div_pos; lia|]. apply Z.div_le_upper_bound; lia. }
  destruct (checked_spec (FInner FixedU128) q) as [[_ ->]|Hb]; [|cbn in Hb; lia].
  cbn [mbind option_bind]. eexists _, _. split; [done|]. lia.
Qed.

Lemma mul_by_more a b :
  0 <= a <= umax 128 -> 10 ^ 18 <= b <= umax 128 -> a <= fsaturating_mul FixedU128 a b <= umax 128.
Proof.
  intros Ha Hb. unfold fsaturating_mul.
  rewrite checked_mul_spec; [|apply fixed_types_ok|cbn; lia..].
  change (DIV FixedU128) with (10 ^ 18). rewrite Z.quot_div_nonneg by lia.
  assert (Hle : a <= a * b / 10 ^ 18) by (apply Z.div_le_lower_bound; nia).
  destruct (checked_spec (FInner FixedU128) (a * b / 10 ^ 18)) as [[Hr ->]|Hb'].
  - cbn in Hr. lia.
  - destruct Hb' as [[Hr ->]|[Hr ->]]; unfold to_bound; cbn in *;
      destruct (Z.ltb_spec a 0), (Z.ltb_spec b 0); cbn; lia.
Qed.

Lemma saturating_mul_nonneg a b :
  0 <= a <= umax 128 -> 0 <= b <= umax 128 -> 0 <= fsaturating_mul FixedU128 a b.
Proof.
  intros Ha Hb. unfold fsaturating_mul. rewrite checked_mul_spec; [|apply fixed_types_ok|cbn; lia..].
  generalize (Z.quot (a * b) (DIV FixedU128)). intros q.
  destruct (checked_spec (FInner FixedU128) q) as [[Hr ->]|Hb'].
  - cbn in Hr. lia.
  - destruct Hb' as [[Hr ->]|[Hr ->]]; unfold to_bound; cbn in *;
      destruct (Z.ltb_spec a 0), (Z.ltb_spec b 0); cbn; lia.
Qed.

Lemma increase_fee_spec fee size :
  FeeTracker.MIN_FEE_FACTOR <= fee <= umax 128 -> 0 <= size <= umax 64 ->
  fee <= FeeTracker.do_increase_fee_factor fee size <= umax 128.
Proof.
  destruct fee_constants as (E1 & E2 & E3). intros Hf Hs. unfold FeeTracker.do_increase_fee_factor.
  rewrite E1, E2, E3 in *.
  assert (Hq : 0 <= size / 1024 <= umax 128).
  { split; [apply Z.div_pos; lia|]. apply Z.div_le_upper_bound; [lia|].
    change (umax 64) with 18446744073709551615 in Hs. change (umax 128) with 340282366920938463463374607431768211455. lia. }
  rewrite saturating_from_integer_spec; [|apply fixed_types_ok|split; [apply unsigned_int_type; lia|]|cbn; lia].
  2: { vm_compute. split; discriminate. }
  match goal with |- context [fsaturating_add _ _ ?x] => assert (Hy : 0 <= x) by
    (apply saturating_mul_nonneg; [unfold clamp; cbn; lia|vm_compute; split; discriminate]);
    revert Hy; generalize x end.
  intros y Hy. apply mul_by_more; [lia|]. unfold fsaturating_add, int_saturating_add, clamp. cbn -[umax].
  change (umax 128) with 340282366920938463463374607431768211455. lia.
Qed.

(** ** Channels *)

(** The channel of a recipient. *)
Definition get_channel (channels : list (ParaId * AbridgedHrmpChannel)) (id : ParaId) :
    option AbridgedHrmpChannel :=
  i ← channel_index channels id; snd <$> channels !! i.

Lemma channel_index_cons k c channels id :
  channel_index ((k, c) :: channels) id = if decide (k = id) then Some 0%nat else S <$> channel_index channels id.
Proof.
  unfold channel_index. cbn. case_decide; [done|].
  destruct (list_find _ channels) as [[i [k' c']]|]; done.
Qed.

Lemma get_channel_cons k c channels id :
  get_channel ((k, c) :: channels) id = if decide (k = id) then Some c else get_channel channels id.
Proof.
  unfold get_channel. rewrite channel_index_cons. case_decide; [done|].
  destruct (channel_index channels id); done.
Qed.

(** A channel after some more use. *)
Definition adjusted_channel (u : HrmpChannelUpdate) (c : AbridgedHrmpChannel) : AbridgedHrmpChannel :=
  mkChannel (max_capacity c) (max_total_size c) (max_message_size c)
    (Z.min (wrapping 32 (msg_count c + upd_msg_count u)) (max_capacity c))
    (Z.min (wrapping 32 (total_size c + upd_total_bytes u)) (max_total_size c)).

Lemma adjust_channel_cons k c channels id u :
  adjust_channel ((k, c) :: channels) (id, u) =
  if decide (k = id) then (k, adjusted_channel u c) :: channels
  else (k, c) :: adjust_channel channels (id, u).
Proof.
  unfold adjust_channel. rewrite channel_index_cons. case_decide; [done|].
  destruct (channel_index channels id) as [i|]; cbn; [|done].
  destruct (channels !! i) as [[k' c']|]; done.
Qed.

Lemma get_adjust_channel channels id u j :
  get_channel (adjust_channel channels (id, u)) j =
  if decide (id = j) then adjusted_channel u <$> get_channel channels j else get_channel channels j.
Proof.
  induction channels as [|[k c] channels IH]; [by case_decide|].
  rewrite adjust_channel_cons. destruct (decide (k = id)) as [->|Hk].
  - rewrite !get_channel_cons. by repeat case_decide.
  - rewrite !get_channel_cons. rewrite IH. repeat case_decide; congruence.
Qed.

Lemma get_adjust_channels l j : forall channels,
  NoDup l.*1 ->
  get_channel (foldl adjust_channel channels l) j =
  match (list_to_map l : gmap ParaId HrmpChannelUpdate) !! j with
  | Some u => adjusted_channel u <$> get_channel channels j
  | None => get_channel channels j
  end.
Proof.
  induction l as [|[id u] l IH]; intros channels Hnd; [done|].
  apply NoDup_cons in Hnd as [Hid Hnd]. cbn [foldl]. rewrite IH by done. rewrite get_adjust_channel.
  cbn [list_to_map foldr]. case_decide as Hj.
  - subst j. rewrite lookup_insert_eq. by rewrite not_elem_of_list_to_map_1 by done.
  - by rewrite lookup_insert_ne by done.
Qed.

Definition limits_of (c : AbridgedHrmpChannel) : HrmpOutboundLimits :=
  mkLimits (saturating_sub (max_total_size c) (total_size c)) (saturating_sub (max_capacity c) (msg_count c)).

Lemma relay_limits state id :
  NoDup (egress_channels state).*1 ->
  limits_outgoing (from_relay_chain_state state) !! id
    = limits_of <$> get_channel (egress_channels state) id.
Proof.
  intros Hnd. unfold from_relay_chain_state. cbn.
  enough (Hgen : forall chs (m : gmap ParaId HrmpOutboundLimits), NoDup chs.*1 ->
    foldl (fun m '(id, channel) => <[id := limits_of channel]> m) m chs !! id
      = match get_channel chs id with Some c => Some (limits_of c) | None => m !! id end).
  { fold limits_of. rewrite Hgen by done. by destruct (get_channel _ id). }
  induction chs as [|[k c] chs IH]; intros m Hn; [done|].
  apply NoDup_cons in Hn as [Hk Hn]. cbn [foldl]. rewrite IH by done. rewrite get_channel_cons.
  case_decide as Hid; [subst k|by rewrite lookup_insert_ne by done].
  rewrite lookup_insert_eq. destruct (get_channel chs id) as [c'|] eqn:Hg; [|done].
  exfalso. apply Hk. unfold get_channel, channel_index in Hg.
  destruct (list_find (fun c => c.1 = id) chs) as [[i [k' c'']]|] eqn:Hf; [|done].
  apply list_find_Some in Hf as (Hi & Hk' & _). cbn in Hk'. subst k'.
  apply (list_elem_of_fmap_2 fst _ (id, c'')). by eapply list_elem_of_lookup_2.
Qed.

(** ** What the relay chain promises *)

Record channel_ok (c : AbridgedHrmpChannel) : Prop := {
  ch_count : 0 <= msg_count c <= max_capacity c;
  ch_size : 0 <= total_size c <= max_total_size c;
  ch_capacity : max_capacity c < umax 32;
  ch_total : max_total_size c < umax 32;
}.

(** A messaging state: recipients once each, queues within their bounds and no
    bound the largest 32-bit number. *)
Record relay_ok (s : MessagingStateSnapshot) : Prop := {
  relay_count : 0 <= remaining_count s < umax 32;
  relay_size : 0 <= remaining_size s < umax 32;
  relay_sorted : StronglySorted Z.lt (egress_channels s).*1;
  relay_channels : forall id c, get_channel (egress_channels s) id = Some c -> channel_ok c;
}.

Lemma relay_distinct s : relay_ok s -> NoDup (egress_channels s).*1.
Proof.
  intros Hs. pose proof (relay_sorted _ Hs) as Hsort. induction Hsort as [|x l _ IH Hx]; constructor; [|done].
  intros Hin. rewrite Forall_forall in Hx. apply Hx in Hin. lia.
Qed.

(** The relay chain still has room for what the segment already sent. *)
Record within (u : UsedBandwidth) (s : MessagingStateSnapshot) : Prop := {
  within_msgs : ump_msg_count u <= remaining_count s;
  within_bytes : ump_total_bytes u <= remaining_size s;
  within_channels : forall id c, get_channel (egress_channels s) id = Some c ->
    upd_msg_count (channel u id) <= max_capacity c - msg_count c /\
    upd_total_bytes (channel u id) <= max_total_size c - total_size c;
}.

(** As no limit is the maximum, no saturated count passes. *)
Lemma relay_countable s u o : relay_ok s -> countable u o (from_relay_chain_state s).
Proof.
  intros Hs. pose proof (relay_distinct _ Hs) as R3. destruct Hs as [R1 R2 _ R4].
  assert (Hch : forall id l, limits_outgoing (from_relay_chain_state s) !! id = Some l ->
    0 <= messages_remaining l < umax 32 /\ 0 <= bytes_remaining l < umax 32).
  { intros id l Hl. rewrite relay_limits in Hl by done. destruct (get_channel _ id) as [c|] eqn:Hc; [|done].
    injection Hl as <-. destruct (R4 id c Hc). unfold limits_of, saturating_sub. cbn. lia. }
  unfold unsaturated, is_uint. split; [split|left; cbn; lia..|].
  - unfold is_uint. cbn. lia.
  - unfold is_uint. cbn. lia.
  - intros id l Hl. unfold is_uint. specialize (Hch id l Hl). lia.
  - intros id c _ l Hl. unfold unsaturated. specialize (Hch id l Hl). lia.
Qed.

(** The bandwidth of the segment, nothing for a missing tracker. *)
Definition segment_used (agg : option SegmentTracker) : UsedBandwidth :=
  used_bandwidth (default default_tracker agg).

Lemma adjusted_state agg s :
  0 <= remaining_count s -> 0 <= remaining_size s ->
  exists s', adjust_egress_bandwidth_limits agg (Some s) = Some s' /\
    remaining_count s' = saturating_sub (remaining_count s) (ump_msg_count (segment_used agg)) /\
    remaining_size s' = saturating_sub (remaining_size s) (ump_total_bytes (segment_used agg)).
Proof.
  intros ? ?. destruct agg as [t|]; eexists; (split; [done|]); [done|].
  cbn. unfold saturating_sub. lia.
Qed.

Lemma adjusted_get agg s s' id :
  adjust_egress_bandwidth_limits agg (Some s) = Some s' ->
  get_channel (egress_channels s') id =
  match hrmp_outgoing (segment_used agg) !! id with
  | Some u => adjusted_channel u <$> get_channel (egress_channels s) id
  | None => get_channel (egress_channels s) id
  end.
Proof.
  destruct agg as [t|]; [|by intros [= <-]]. intros [= <-]. cbn [egress_channels].
  change (segment_used (Some t)) with (used_bandwidth t).
  rewrite get_adjust_channels by apply btree_iter_nodup. by rewrite btree_iter_map.
Qed.

Lemma status_Ready s id now ever :
  get_channel_status (Some s) id = Ready now ever ->
  exists c, get_channel (egress_channels s) id = Some c /\
    wrapping 32 (msg_count c + 1) <= max_capacity c /\
    now = wrapping 32 (max_total_size c - total_size c).
Proof.
  unfold get_channel_status, get_channel. destruct (channel_index _ id) as [i|]; [|done].
  cbn [mbind option_bind]. destruct (egress_channels s !! i) as [[k c]|]; [|done].
  destruct (Z.ltb_spec (max_capacity c) (wrapping 32 (msg_count c + 1))); [done|].
  intros [= <- <-]. exists c. done.
Qed.

(** A channel that is ready after the adjustment has room for the segment and one
    more message of the announced size. *)
Lemma ready_has_room agg s s' id now ever :
  relay_ok s -> (forall id, update_wf (channel (segment_used agg) id)) -> within (segment_used agg) s ->
  adjust_egress_bandwidth_limits agg (Some s) = Some s' ->
  get_channel_status (Some s') id = Ready now ever ->
  exists c, get_channel (egress_channels s) id = Some c /\ now < umax 32 /\
    upd_msg_count (channel (segment_used agg) id) + 1 <= messages_remaining (limits_of c) /\
    upd_total_bytes (channel (segment_used agg) id) + now = bytes_remaining (limits_of c).
Proof.
  intros Hs Hwf [W1 W2 W3] Hadj Hst. pose proof (relay_distinct _ Hs) as R3.
  destruct Hs as [R1 R2 _ R4]. apply status_Ready in Hst as (c' & Hc' & Hcap & ->).
  rewrite (adjusted_get agg s s' id Hadj) in Hc'.
  assert (exists c, get_channel (egress_channels s) id = Some c /\
    c' = adjusted_channel (channel (segment_used agg) id) c) as (c & Hc & ->).
  { unfold channel. destruct (hrmp_outgoing (segment_used agg) !! id) as [u|].
    - destruct (get_channel (egress_channels s) id) as [c|]; [|done]. injection Hc' as <-. by exists c.
    - exists c'. split; [done|]. destruct (R4 id c' Hc') as [? ? ? ?].
      unfold adjusted_channel. cbn. rewrite !Z.add_0_r, !wrapping_id by (unfold is_uint; lia).
      destruct c'. cbn in *. f_equal; lia. }
  clear Hc' Hadj. destruct (R4 id c Hc) as [[? ?] [? ?] ? ?]. destruct (W3 id c Hc) as [Wm Wb].
  destruct (Hwf id) as [[? ?] [? ?]]. set (u := channel (segment_used agg) id) in *.
  exists c. split; [done|]. unfold limits_of, adjusted_channel, saturating_sub in *. cbn in *.
  rewrite (wrapping_id 32 (msg_count c + upd_msg_count u)) in Hcap by (unfold is_uint; lia).
  rewrite (wrapping_id 32 (_ `min` _ + 1)) in Hcap by (unfold is_uint; lia).
  rewrite !(wrapping_id 32 (total_size c + upd_total_bytes u)) by (unfold is_uint; lia).
  rewrite !wrapping_id by (unfold is_uint; lia). lia.
Qed.

(** ** Upward messages *)

Definition bytes_of (l : list bytes) : Z := foldr (fun m s => zlen m + s) 0 l.

Lemma bytes_of_nonneg l : 0 <= bytes_of l.
Proof.
  induction l as [|m l IH]; [done|]. cbn. fold (bytes_of l). assert (0 <= zlen m) by (unfold zlen; lia). lia.
Qed.

(** The selected messages are the longest fitting prefix: their number and size
    are exact. *)
Lemma count_fitting_spec cap size up : forall c s num total,
  0 <= c -> 0 <= s -> c <= cap < umax 32 -> s <= size < umax 32 ->
  Forall (fun m => zlen m <= umax 32) up ->
  count_fitting cap size up (c, s) = (num, total) ->
  c <= num <= cap /\ s <= total <= size /\
  num - c <= zlen up /\ total = s + bytes_of (take (Z.to_nat (num - c)) up).
Proof.
  induction up as [|m up IH]; intros c s num total Hc Hs Hcap Hsize Hall Heq; cbn [count_fitting] in Heq.
  { injection Heq as <- <-. rewrite Z.sub_diag. change (Z.to_nat 0) with 0%nat. unfold zlen, bytes_of. cbn. lia. }
  apply Forall_cons in Hall as [Hm Hall]. assert (0 <= zlen m) by (unfold zlen; lia).
  rewrite (wrapping_id 32 (zlen m)) in Heq by (unfold is_uint; lia).
  assert (Hstop : (c, s) = (num, total) -> c <= num <= cap /\ s <= total <= size /\
    num - c <= zlen (m :: up) /\ total = s + bytes_of (take (Z.to_nat (num - c)) (m :: up))).
  { intros [= <- <-]. rewrite Z.sub_diag. change (Z.to_nat 0) with 0%nat. unfold zlen, bytes_of. cbn. lia. }
  destruct (checked_sub cap (saturating_add 32 c 1)) as [x|] eqn:E1; [|by apply Hstop].
  destruct (checked_sub size (saturating_add 32 s (zlen m))) as [y|] eqn:E2; [|by apply Hstop].
  apply checked_sub_Some in E1 as [_ E1]. apply checked_sub_Some in E2 as [_ E2].
  unfold saturating_add in *. rewrite Z.min_r in Heq by lia. rewrite Z.min_r in Heq by lia.
  apply IH in Heq as (? & ? & ? & Ht); [|lia..|done]. split; [lia|]. split; [lia|].
  split; [unfold zlen in *; cbn [length]; lia|]. rewrite Ht.
  replace (Z.to_nat (num - c)) with (S (Z.to_nat (num - (c + 1)))) by lia. cbn. fold (bytes_of (take (Z.to_nat (num - (c + 1))) up)). lia.
Qed.

(** The selection stops only at a message that does not fit. *)
Lemma count_fitting_maximal cap size up : forall c s num total m rest,
  0 <= c -> 0 <= s -> c <= cap < umax 32 -> s <= size < umax 32 ->
  Forall (fun m => zlen m <= umax 32) up ->
  count_fitting cap size up (c, s) = (num, total) -> drop (Z.to_nat (num - c)) up = m :: rest ->
  cap <= num \/ size < total + zlen m.
Proof.
  induction up as [|x up IH]; intros c s num total m rest Hc Hs Hcap Hsize Hall Heq Hdrop.
  { by rewrite drop_nil in Hdrop. }
  cbn [count_fitting] in Heq. apply Forall_cons in Hall as [Hm Hall]. assert (0 <= zlen x) by (unfold zlen; lia).
  rewrite (wrapping_id 32 (zlen x)) in Heq by (unfold is_uint; lia).
  assert (Hstop : (c, s) = (num, total) -> x = m).
  { intros [= <- <-]. rewrite Z.sub_diag in Hdrop. by injection Hdrop. }
  unfold saturating_add in *.
  destruct (checked_sub cap (Z.min (umax 32) (c + 1))) as [a|] eqn:E1.
  2: { apply checked_sub_None in E1. injection Heq as <- <-. lia. }
  destruct (checked_sub size (Z.min (umax 32) (s + zlen x))) as [b|] eqn:E2.
  2: { apply checked_sub_None in E2. rewrite <- (Hstop Heq). injection Heq as <- <-. lia. }
  apply checked_sub_Some in E1 as [_ E1]. apply checked_sub_Some in E2 as [_ E2].
  rewrite Z.min_r in Heq by lia. rewrite Z.min_r in Heq by lia.
  pose proof Heq as Hspec. apply count_fitting_spec in Hspec as (Hn & _); [|lia..|done].
  apply (IH _ _ _ _ m rest) in Heq; [done|lia..|done|].
  replace (Z.to_nat (num - c)) with (S (Z.to_nat (num - (c + 1)))) in Hdrop by lia. done.
Qed.

(** ** Horizontal messages *)

(** The channel updates of a list of messages. *)
Definition updates (l : list (ParaId * bytes)) : gmap ParaId HrmpChannelUpdate :=
  foldl (fun m '(recipient, data) => <[recipient := mkUpdate 1 (wrapping 32 (zlen data))]> m) ∅ l.

Lemma updates_lookup l id :
  NoDup l.*1 -> updates l !! id = (fun d => mkUpdate 1 (wrapping 32 (zlen d))) <$> (list_to_map l : gmap ParaId bytes) !! id.
Proof.
  intros Hnd. unfold updates.
  enough (Hgen : forall m : gmap ParaId HrmpChannelUpdate,
    foldl (fun m '(recipient, data) => <[recipient := mkUpdate 1 (wrapping 32 (zlen data))]> m) m l !! id
      = match (list_to_map l : gmap ParaId bytes) !! id with
        | Some d => Some (mkUpdate 1 (wrapping 32 (zlen d)))
        | None => m !! id
        end).
  { rewrite Hgen. by destruct (list_to_map l !! id). }
  induction l as [|[k d] l IH]; intros m; [done|]. apply NoDup_cons in Hnd as [Hk Hnd].
  cbn [foldl list_to_map foldr]. rewrite IH by done. destruct (decide (k = id)) as [->|Hne].
  - rewrite !lookup_insert_eq. by rewrite not_elem_of_list_to_map_1 by done.
  - by rewrite !lookup_insert_ne by done.
Qed.

Lemma updates_Some l id u :
  NoDup l.*1 -> updates l !! id = Some u <-> exists d, (id, d) ∈ l /\ u = mkUpdate 1 (wrapping 32 (zlen d)).
Proof.
  intros Hnd. rewrite updates_lookup by done. rewrite fmap_Some. split.
  - intros (d & Hd & ->). exists d. split; [|done]. by apply elem_of_list_to_map_2.
  - intros (d & Hd & ->). exists d. split; [|done]. by apply elem_of_list_to_map_1.
Qed.

(** ** The storage *)

Section pallet_proofs.
Context {H Root Q : Type} `{EqDecision H, EqDecision Root} `{XcmpMessageSource Q}.
Context (encode_signal : UMPSignal -> bytes) (zero_root : Root).
Implicit Types p : Pallet H Root Q.

(** The invariant of the storage. *)
Record pallet_ok p : Prop := {
  pal_segment : segment_ok (UnincludedSegment p) (default default_tracker (AggregatedUnincludedSegment p));
  pal_tracked : AggregatedUnincludedSegment p = None -> UnincludedSegment p = [];
  pal_watermark : forall w, AggregatedUnincludedSegment p ≫= hrmp_watermark = Some w -> w <= HrmpWatermark p;
  pal_fee : FeeTracker.MIN_FEE_FACTOR <= UpwardDeliveryFeeFactor p <= umax 128;
}.

Lemma segment_used_wf p id : pallet_ok p -> update_wf (channel (segment_used (AggregatedUnincludedSegment p)) id).
Proof.
  intros [[_ Ht _] _ _ _]. unfold segment_used. rewrite (tracks_channel _ _ id Ht). apply (tr_channels_u _ _ Ht).
Qed.

Lemma segment_used_nonneg p :
  pallet_ok p -> 0 <= ump_msg_count (segment_used (AggregatedUnincludedSegment p)) /\
  0 <= ump_total_bytes (segment_used (AggregatedUnincludedSegment p)).
Proof. intros [[_ Ht _] _ _ _]. split; [apply (tr_msgs_u _ _ Ht)|apply (tr_bytes_u _ _ Ht)]. Qed.

(** Every message goes to a channel that is ready and has room for it. *)
Definition fit_now (s : MessagingStateSnapshot) (taken : list (ParaId * bytes)) : Prop :=
  forall id d, (id, d) ∈ taken -> exists now ever, get_channel_status (Some s) id = Ready now ever /\ zlen d <= now.

(** Messages that fit now fit next to those of the segment. *)
Lemma horizontal_fits p s s' taken :
  pallet_ok p -> relay_ok s -> within (segment_used (AggregatedUnincludedSegment p)) s ->
  adjust_egress_bandwidth_limits (AggregatedUnincludedSegment p) (Some s) = Some s' ->
  NoDup taken.*1 -> fit_now s' taken ->
  (forall id d, (id, d) ∈ taken -> is_uint 32 (zlen d)) /\
  (forall id u, updates taken !! id = Some u ->
     channel_fits (channel (segment_used (AggregatedUnincludedSegment p)) id) u (from_relay_chain_state s) id).
Proof.
  intros Hp Hs Hw Hadj Hnd Hnow.
  assert (Hfit : forall id d, (id, d) ∈ taken -> is_uint 32 (zlen d) /\
    channel_fits (channel (segment_used (AggregatedUnincludedSegment p)) id) (mkUpdate 1 (zlen d))
      (from_relay_chain_state s) id).
  { intros id d Hin. destruct (Hnow id d Hin) as (now & ever & Hst & Hlen).
    destruct (ready_has_room _ s s' id now ever Hs (fun id => segment_used_wf p id Hp) Hw Hadj Hst)
      as (c & Hc & Hmax & Hm & Hb).
    split; [unfold is_uint, zlen in *; lia|]. exists (limits_of c).
    rewrite relay_limits, Hc by by apply relay_distinct. cbn [fmap option_fmap option_map upd_msg_count upd_total_bytes].
    split; [done|]. lia. }
  split; [intros id d Hin; by destruct (Hfit id d Hin)|].
  intros id u (d & Hin & ->)%updates_Some; [|done]. destruct (Hfit id d Hin) as [Hu Hf]. by rewrite wrapping_id by done.
Qed.

Lemma updates_wf taken id c : updates taken !! id = Some c -> update_wf c /\ is_empty c = false.
Proof.
  unfold updates.
  assert (Hgen : forall m : gmap ParaId HrmpChannelUpdate,
    (forall id c, m !! id = Some c -> update_wf c /\ is_empty c = false) ->
    foldl (fun m '(recipient, data) => <[recipient := mkUpdate 1 (wrapping 32 (zlen data))]> m) m taken !! id = Some c ->
    update_wf c /\ is_empty c = false); [|by apply Hgen].
  induction taken as [|[k d] taken IH]; intros m Hm; [apply Hm|]. apply IH. intros id' c'.
  destruct (decide (k = id')) as [->|Hne]; [rewrite lookup_insert_eq|rewrite lookup_insert_ne by done; apply Hm].
  intros [= <-]. split; [split; [vm_compute; split; discriminate|]|done]. unfold is_uint, wrapping. cbn [upd_total_bytes].
  change (umax 32) with (2 ^ 32 - 1). pose proof (Z.mod_pos_bound (zlen d) (2 ^ 32) ltac:(lia)). lia.
Qed.

Lemma count_fitting_uint cap size up : forall c s num total,
  is_uint 32 c -> is_uint 32 s -> count_fitting cap size up (c, s) = (num, total) -> is_uint 32 num /\ is_uint 32 total.
Proof.
  assert (Hu : 0 <= umax 32) by (vm_compute; discriminate).
  induction up as [|m up IH]; intros c s num total Hc Hs; cbn [count_fitting]; [by intros [= <- <-]|].
  destruct (checked_sub cap _) as [x|]; [|by intros [= <- <-]]. destruct (checked_sub size _) as [y|]; [|by intros [= <- <-]].
  apply IH; unfold is_uint, saturating_add in *; [lia|].
  unfold wrapping. change (umax 32) with (2 ^ 32 - 1) in *. pose proof (Z.mod_pos_bound (zlen m) (2 ^ 32) ltac:(lia)). lia.
Qed.

(** What [on_finalize] needs besides the invariant: the inherent ran, the relay
    chain state is sound and still has room for what the segment sent. *)
Record ready_to_finalize (wf : Q -> Prop) p (vfp : PersistedValidationData Root) (hc : AbridgedHostConfiguration)
    (state : MessagingStateSnapshot) : Prop := {
  rtf_data : ValidationData p = Some vfp;
  rtf_config : HostConfiguration p = Some hc;
  rtf_state : RelevantMessagingState p = Some state;
  rtf_relay : relay_ok state;
  rtf_messages : Forall (fun m => zlen m <= umax 32) (PendingUpwardMessages p);
  rtf_queue : wf (OutboundXcmp p);
}.

(** The call of [on_finalize] on the queue of horizontal messages. *)
Definition handed_over (digest : Digest) p : option (list (ParaId * bytes) * Q) :=
  vfp ← ValidationData p;
  host_config ← HostConfiguration p;
  state ← RelevantMessagingState p;
  let adjusted := adjust_egress_bandwidth_limits (AggregatedUnincludedSegment p) (Some state) in
  let pov_tracker := current_pov_tracker zero_root vfp digest (PoVMessagesTracker p) in
  take_outbound_messages (get_channel_status adjusted) (get_channel_info adjusted)
    (saturating_sub (Z.min (hrmp_max_message_num_per_candidate host_config) (AnnouncedHrmpMessagesPerCandidate p))
                    (hrmp_outbound_count pov_tracker))
    (hrmp_outbound_recipients pov_tracker) (OutboundXcmp p).

(** The ancestor of a finalized block counts exactly the messages that left. *)
Record accounts p (a : Ancestor H) p' : Prop := {
  acc_sent : exists sent, PendingUpwardMessages p = sent ++ PendingUpwardMessages p' /\
    sent `prefix_of` UpwardMessages p' /\
    ump_msg_count (anc_used_bandwidth a) = zlen sent /\
    ump_total_bytes (anc_used_bandwidth a) = bytes_of sent;
  acc_channels : forall id u, hrmp_outgoing (anc_used_bandwidth a) !! id = Some u <->
    exists d, (id, d) ∈ HrmpOutboundMessages p' /\ u = mkUpdate 1 (zlen d);
}.

Lemma upward_prefix (core : option CoreInfo) signals peer (sent : list bytes) (b : bool) :
  sent `prefix_of` (if b then send_ump_signals encode_signal core signals peer sent else sent).
Proof.
  destruct b; [|done]. unfold send_ump_signals.
  destruct (match peer with Some _ => _ | None => _ end) as [|x l]; [done|]. by apply prefix_app_r.
Qed.

Lemma watermark_new_allowed p vfp :
  pallet_ok p ->
  watermark_allowed (default default_tracker (AggregatedUnincludedSegment p))
    (watermark_new (HrmpWatermark p) (relay_parent_number vfp)) /\
  match watermark_new (HrmpWatermark p) (@relay_parent_number Root vfp) with Trunk w | Head w => w end
    <= HrmpWatermark p.
Proof.
  intros Hp. unfold watermark_new. destruct (Z.leb_spec (relay_parent_number vfp) (HrmpWatermark p)).
  - split; [|done]. intros n w [=].
  - split; [|lia]. intros n w [= <-] Hw. apply (pal_watermark _ Hp).
    destruct (AggregatedUnincludedSegment p); done.
Qed.

(** A message that stays behind has no room in this block. *)
Definition no_room (zero : Root) digest p vfp (state : MessagingStateSnapshot) (a : Ancestor H) (msg : bytes) : Prop :=
  exists hc, HostConfiguration p = Some hc /\
  let used := segment_used (AggregatedUnincludedSegment p) in
  let own := anc_used_bandwidth a in
  let pov := current_pov_tracker zero vfp digest (PoVMessagesTracker p) in
  max_upward_message_num_per_candidate hc <= pov_ump_msg_count pov + ump_msg_count own \/
  remaining_count state <= ump_msg_count used + ump_msg_count own \/
  remaining_size state < ump_total_bytes used + ump_total_bytes own + zlen msg.

Lemma fee_step p (b : bool) :
  pallet_ok p ->
  exists fee, (if b then fst <$> FeeTracker.do_decrease_fee_factor (UpwardDeliveryFeeFactor p)
               else Some (UpwardDeliveryFeeFactor p)) = Some fee /\
    FeeTracker.MIN_FEE_FACTOR <= fee <= umax 128.
Proof.
  intros Hp. pose proof (pal_fee _ Hp) as Hf.
  destruct (decrease_fee_spec _ Hf) as (fee' & d & Hd & Hfee'). rewrite Hd.
  destruct b; [exists fee'|exists (UpwardDeliveryFeeFactor p)]; (split; [done|lia]).
Qed.

(** The upward messages selected for the block. *)
Lemma upward_selection p state s m num total :
  pallet_ok p -> relay_ok state -> within (segment_used (AggregatedUnincludedSegment p)) state ->
  Forall (fun m => zlen m <= umax 32) (PendingUpwardMessages p) ->
  remaining_count s = saturating_sub (remaining_count state) (ump_msg_count (segment_used (AggregatedUnincludedSegment p))) ->
  remaining_size s = saturating_sub (remaining_size state) (ump_total_bytes (segment_used (AggregatedUnincludedSegment p))) ->
  0 <= m ->
  count_fitting (Z.min (remaining_count s) m) (remaining_size s) (PendingUpwardMessages p) (0, 0) = (num, total) ->
  let sent := take (Z.to_nat num) (PendingUpwardMessages p) in
  is_uint 32 num /\ is_uint 32 total /\ num = zlen sent /\ total = bytes_of sent /\
  ump_msg_count (segment_used (AggregatedUnincludedSegment p)) + num <= remaining_count state /\
  ump_total_bytes (segment_used (AggregatedUnincludedSegment p)) + total <= remaining_size state /\
  forall msg rest, drop (Z.to_nat num) (PendingUpwardMessages p) = msg :: rest ->
    m <= num \/ remaining_count state <= ump_msg_count (segment_used (AggregatedUnincludedSegment p)) + num \/
    remaining_size state < ump_total_bytes (segment_used (AggregatedUnincludedSegment p)) + total + zlen msg.
Proof.
  intros Hp Hr Hw Hm Ec Es Hm0 Hcf. pose proof (relay_count _ Hr). pose proof (relay_size _ Hr).
  destruct (segment_used_nonneg p Hp) as [? ?], Hw as [? ? _]. unfold saturating_sub in *.
  assert (Hmax : forall msg rest, drop (Z.to_nat (num - 0)) (PendingUpwardMessages p) = msg :: rest ->
    Z.min (remaining_count s) m <= num \/ remaining_size s < total + zlen msg).
  { intros msg rest Hd. eapply (count_fitting_maximal _ _ _ 0 0); [lia..|exact Hm|exact Hcf|exact Hd]. }
  apply count_fitting_spec in Hcf as (Hn & Ht & Hlen & Htot); [|lia..|done].
  rewrite Z.sub_0_r in Hlen, Htot, Hmax. cbn [Z.add] in Htot. unfold is_uint.
  split; [lia|]. split; [lia|].
  split; [unfold zlen in *; rewrite length_take; lia|]. split; [done|]. split; [lia|]. split; [lia|].
  intros msg rest Hd. specialize (Hmax msg rest Hd). lia.
Qed.

(** The run of [on_finalize] up to the check of the limits: [a] is the new block of
    the segment, [taken] what the queue handed over and [k] the storage in the
    end. *)
Record finalizing digest p vfp hc state s (a : Ancestor H) taken q' (k : SegmentTracker -> Pallet H Root Q) : Prop := {
  fin_adjusted : adjust_egress_bandwidth_limits (AggregatedUnincludedSegment p) (Some state) = Some s;
  fin_run : on_finalize encode_signal zero_root digest p =
    match tracker_append (default default_tracker (AggregatedUnincludedSegment p)) a
            (watermark_new (HrmpWatermark p) (@relay_parent_number Root vfp)) (from_relay_chain_state state) with
    | Ok t => Some (k t)
    | _ => None
    end;
  fin_handed : handed_over digest p = Some (taken, q');
  fin_counted : count_fitting
    (Z.min (remaining_count s) (saturating_sub (max_upward_message_num_per_candidate hc)
       (pov_ump_msg_count (current_pov_tracker zero_root vfp digest (PoVMessagesTracker p)))))
    (remaining_size s) (PendingUpwardMessages p) (0, 0)
    = (ump_msg_count (anc_used_bandwidth a), ump_total_bytes (anc_used_bandwidth a));
  fin_updates : hrmp_outgoing (anc_used_bandwidth a) = updates taken;
  fin_signal : signal_free (default default_tracker (AggregatedUnincludedSegment p)) a;
  fin_segment : forall t, UnincludedSegment (k t) = UnincludedSegment p ++ [a] /\
    AggregatedUnincludedSegment (k t) = Some t /\ HrmpWatermark (k t) = HrmpWatermark p /\
    OutboundXcmp (k t) = q' /\ HrmpOutboundMessages (k t) = taken;
  fin_upward : forall t, let n := Z.to_nat (ump_msg_count (anc_used_bandwidth a)) in
    PendingUpwardMessages (k t) = drop n (PendingUpwardMessages p) /\
    take n (PendingUpwardMessages p) `prefix_of` UpwardMessages (k t);
  fin_fee : forall t, FeeTracker.MIN_FEE_FACTOR <= UpwardDeliveryFeeFactor (k t) <= umax 128;
}.

Lemma finalize_run {wf admissible} `{!XcmpMessageSourceLaws Q wf admissible} digest p vfp hc state :
  pallet_ok p -> ready_to_finalize wf p vfp hc state ->
  exists s a taken q' k, finalizing digest p vfp hc state s a taken q' k /\ NoDup taken.*1 /\ wf q'.
Proof.
  intros Hp [E1 E2 E3 Hr Hm Hq].
  destruct (adjusted_state (AggregatedUnincludedSegment p) state) as (s & Hs & _); [apply Hr..|].
  pose proof (eq_refl (on_finalize encode_signal zero_root digest p)) as Hrun. unfold on_finalize in Hrun at 2.
  pose proof (eq_refl (handed_over digest p)) as Hho. unfold handed_over in Hho at 2.
  rewrite E1, E2, E3 in Hrun, Hho. cbn [mbind option_bind] in Hrun, Hho. cbv zeta in Hrun, Hho. rewrite Hs in Hrun, Hho.
  set (pov := current_pov_tracker zero_root vfp digest (PoVMessagesTracker p)) in *.
  destruct (count_fitting _ _ _ _) as [num total] eqn:Hcf in Hrun.
  match type of Hrun with context [if ?b then fst <$> _ else _] =>
    destruct (fee_step p b Hp) as (fee & Ef & Hfee); rewrite Ef in Hrun end.
  cbn [mbind option_bind] in Hrun.
  match type of Hrun with context [take_outbound_messages ?st ?info ?n ?ex ?q] =>
    destruct (taken_total st info n ex q Hq) as (taken & q' & Htake & Hq');
    pose proof (taken_distinct _ _ _ _ _ _ _ Hq Htake) as Hnd; rewrite Htake in Hrun, Hho end.
  cbn [mbind option_bind] in Hrun. fold (updates taken) in Hrun.
  set (consumed := if bool_decide _ then None else UpgradeGoAheadSignal p) in Hrun.
  set (a := new_unchecked (H := H) (mkUsed num total (updates taken)) consumed) in Hrun.
  match type of Hrun with _ = match _ with Ok t => Some (@?k t) | _ => _ end =>
    exists s, a, taken, q', k end.
  split; [|by split]. split; try done.
  - unfold signal_free. cbn. unfold consumed. case_bool_decide as Hb; [by right|left]. by apply eq_None_not_Some.
  - intros t. cbn. split; [done|]. apply upward_prefix.
Qed.

Lemma finalizing_bandwidth_ok digest p vfp hc state s a taken q' k :
  finalizing digest p vfp hc state s a taken q' k -> bandwidth_ok (anc_used_bandwidth a).
Proof.
  intros Hf. destruct (count_fitting_uint _ _ _ 0 0 _ _ ltac:(vm_compute; split; discriminate)
    ltac:(vm_compute; split; discriminate) (fin_counted _ _ _ _ _ _ _ _ _ _ Hf)) as [Hn Ht].
  split; [done..|]. rewrite (fin_updates _ _ _ _ _ _ _ _ _ _ Hf). apply updates_wf.
Qed.

(** Whatever the room on the relay chain, a block that finalizes keeps the
    invariant. *)
Lemma finalize_keeps {wf admissible} `{!XcmpMessageSourceLaws Q wf admissible} digest p vfp hc state p' :
  pallet_ok p -> ready_to_finalize wf p vfp hc state -> on_finalize encode_signal zero_root digest p = Some p' ->
  pallet_ok p' /\ wf (OutboundXcmp p') /\ PendingUpwardMessages p' `suffix_of` PendingUpwardMessages p /\
  exists a, UnincludedSegment p' = UnincludedSegment p ++ [a].
Proof.
  intros Hp Hr Hfin. destruct (finalize_run digest p vfp hc state Hp Hr) as (s & a & taken & q' & k & Hf & _ & Hq').
  pose proof (finalizing_bandwidth_ok _ _ _ _ _ _ _ _ _ _ Hf) as Hb.
  pose proof (relay_countable state (segment_used (AggregatedUnincludedSegment p)) (anc_used_bandwidth a) (rtf_relay _ _ _ _ _ Hr)) as Hcnt.
  rewrite (fin_run _ _ _ _ _ _ _ _ _ _ Hf) in Hfin. destruct (tracker_append _ _ _ _) as [t|e|] eqn:Happ; [|done..].
  injection Hfin as <-. pose proof (tracker_append_ok _ _ _ _ _ _ Hcnt (pal_segment _ Hp) Hb Happ) as Hseg.
  apply tracker_append_Ok in Happ as (_ & _ & _ & Et); [|done].
  destruct (fin_segment _ _ _ _ _ _ _ _ _ _ Hf t) as (S1 & S2 & S3 & S4 & _), (fin_upward _ _ _ _ _ _ _ _ _ _ Hf t) as [U1 _].
  split; [split|]; rewrite ?S1, ?S2, ?S3, ?S4, ?U1.
  - done.
  - done.
  - cbn. rewrite Et. intros w [= <-]. by apply watermark_new_allowed.
  - apply (fin_fee _ _ _ _ _ _ _ _ _ _ Hf).
  - split; [done|]. split; [by apply suffix_drop|by exists a].
Qed.

(** With room for the segment and for what the queue hands over the block
    finalizes. *)
Lemma finalize_spec {wf admissible} `{!XcmpMessageSourceLaws Q wf admissible} digest p vfp hc state taken q' :
  pallet_ok p -> ready_to_finalize wf p vfp hc state -> within (segment_used (AggregatedUnincludedSegment p)) state ->
  handed_over digest p = Some (taken, q') ->
  (forall s, adjust_egress_bandwidth_limits (AggregatedUnincludedSegment p) (Some state) = Some s -> fit_now s taken) ->
  exists p' a, on_finalize encode_signal zero_root digest p = Some p' /\
    UnincludedSegment p' = UnincludedSegment p ++ [a] /\ accounts p a p' /\
    fits (segment_used (AggregatedUnincludedSegment p)) (anc_used_bandwidth a) (from_relay_chain_state state) /\
    HrmpOutboundMessages p' = taken /\ OutboundXcmp p' = q' /\
    (forall msg rest, PendingUpwardMessages p' = msg :: rest -> no_room zero_root digest p vfp state a msg).
Proof.
  intros Hp Hr Hw Hho Hnow. destruct (finalize_run digest p vfp hc state Hp Hr) as (s & a & taken0 & q0 & k & Hf & Hnd & _).
  destruct Hf as [Hs Hrun Hho' Hcf Hupd Hfree Hseg Hup Hfee]. rewrite Hho in Hho'. injection Hho' as <- <-.
  pose proof Hr as [E1 E2 E3 Hrel Hm Hq].
  destruct (adjusted_state (AggregatedUnincludedSegment p) state) as (s' & Hs' & Hcnt & Hsz); [apply Hrel..|].
  rewrite Hs in Hs'. injection Hs' as <-.
  apply upward_selection with (state := state) in Hcf as (_ & _ & En & Et & Fn & Ft & Hmax); try done;
    [|unfold saturating_sub; lia].
  destruct (horizontal_fits p state s taken Hp Hrel Hw Hs Hnd (Hnow s Hs)) as [Hu Hch].
  assert (Hfits : fits (segment_used (AggregatedUnincludedSegment p)) (anc_used_bandwidth a)
    (from_relay_chain_state state)) by (split; [done..|]; rewrite Hupd; apply Hch).
  destruct (watermark_new_allowed p vfp Hp) as [Hwm _].
  pose proof (proj2 (tracker_append_Ok _ a _ _ _ (relay_countable state _ _ Hrel)) (conj Hfree (conj Hwm (conj Hfits eq_refl)))) as Happ.
  rewrite Happ in Hrun. eexists _, a. split; [exact Hrun|]. clear Hrun Happ.
  match goal with |- context [k ?t] => destruct (Hseg t) as (S1 & S2 & S3 & S4 & S5), (Hup t) as [U1 U2] end.
  split; [done|]. split; [|split; [done|split; [done|split; [done|]]]].
  - split.
    + eexists. rewrite U1. split; [symmetry; apply take_drop|]. split; [done|]. by split.
    + intros id u. rewrite S5, Hupd, updates_Some by done.
      split; intros (d & Hd & ->); exists d; (split; [done|]); by rewrite wrapping_id by by eapply Hu.
  - rewrite U1. intros msg rest Hrest. exists hc. split; [done|]. specialize (Hmax msg rest Hrest).
    cbv zeta. unfold saturating_sub in Hmax. lia.
Qed.

(** Without room for the upward messages of the segment no block finalizes. *)
Lemma finalize_needs_room {wf admissible} `{!XcmpMessageSourceLaws Q wf admissible} digest p vfp hc state :
  pallet_ok p -> ready_to_finalize wf p vfp hc state ->
  let used := segment_used (AggregatedUnincludedSegment p) in
  remaining_count state < ump_msg_count used \/ remaining_size state < ump_total_bytes used ->
  on_finalize encode_signal zero_root digest p = None.
Proof.
  intros Hp Hr used Hlt. destruct (finalize_run digest p vfp hc state Hp Hr) as (s & a & taken & q' & k & Hf & _).
  rewrite (fin_run _ _ _ _ _ _ _ _ _ _ Hf). destruct (tracker_append _ _ _ _) as [t|e|] eqn:Happ; [|done..].
  apply tracker_append_Ok in Happ as (_ & _ & [F1 F2 _] & _); [|by apply relay_countable; apply Hr].
  destruct (finalizing_bandwidth_ok _ _ _ _ _ _ _ _ _ _ Hf) as [[? _] [? _] _].
  unfold used, segment_used in Hlt. cbn in F1, F2. lia.
Qed.

(** A page larger than what its channel has room for makes [on_finalize] panic. *)
Lemma finalize_stuck {wf admissible} `{!XcmpMessageSourceLaws Q wf admissible} digest p vfp hc state s taken q' id d now ever :
  pallet_ok p -> ready_to_finalize wf p vfp hc state -> within (segment_used (AggregatedUnincludedSegment p)) state ->
  handed_over digest p = Some (taken, q') ->
  adjust_egress_bandwidth_limits (AggregatedUnincludedSegment p) (Some state) = Some s ->
  (id, d) ∈ taken -> get_channel_status (Some s) id = Ready now ever -> now < zlen d -> is_uint 32 (zlen d) ->
  on_finalize encode_signal zero_root digest p = None.
Proof.
  intros Hp Hr Hw Hho Hs Hin Hst Hlt Hd. destruct (finalize_run digest p vfp hc state Hp Hr) as (s' & a & taken0 & q0 & k & Hf & Hnd & _).
  pose proof (rtf_relay _ _ _ _ _ Hr) as Hrel. rewrite (fin_run _ _ _ _ _ _ _ _ _ _ Hf).
  destruct (tracker_append _ _ _ _) as [t|e|] eqn:Happ; [|done..]. exfalso.
  apply tracker_append_Ok in Happ as (_ & _ & [_ _ Hch] & _); [|by apply relay_countable].
  rewrite (fin_handed _ _ _ _ _ _ _ _ _ _ Hf) in Hho. injection Hho as -> ->.
  destruct (ready_has_room _ state s id now ever Hrel (fun id => segment_used_wf p id Hp) Hw Hs Hst) as (c & Hc & _ & _ & Hb).
  destruct (Hch id (mkUpdate 1 (zlen d))) as (l & Hl & _ & Hbytes).
  { rewrite (fin_updates _ _ _ _ _ _ _ _ _ _ Hf). apply updates_Some; [done|]. exists d. by rewrite wrapping_id. }
  rewrite relay_limits, Hc in Hl by by apply relay_distinct. injection Hl as <-.
  unfold segment_used in *. cbn [upd_total_bytes] in Hbytes. lia.
Qed.

(** ** The inherent *)

Definition named (a : Ancestor H) : Prop := is_Some (para_head_hash a).

Lemma included_position_spec h chain :
  Forall named chain ->
  exists i, included_position h chain = Some i /\
    match i with
    | Some i => exists pre a post, chain = pre ++ a :: post /\ length pre = i /\ para_head_hash a = Some h /\
        Forall (fun b => para_head_hash b <> Some h) pre
    | None => Forall (fun b => para_head_hash b <> Some h) chain
    end.
Proof.
  induction 1 as [|a chain [x Hx] _ IH]; cbn [included_position]; [by exists None|].
  rewrite Hx. cbn [mbind option_bind]. case_bool_decide as Hd.
  - subst x. exists (Some 0%nat). split; [done|]. by exists [], a, chain.
  - destruct IH as (i & -> & Hi). exists (option_map S i). split; [done|]. destruct i as [i|]; cbn.
    + destruct Hi as (pre & b & post & -> & <- & Hb & Hpre). exists (a :: pre), b, post.
      split_and!; try done. constructor; [congruence|done].
    + constructor; [congruence|done].
Qed.

Lemma subtract_all (dropped rest : list (Ancestor H)) : forall agg,
  segment_ok (dropped ++ rest) agg ->
  exists agg', for_in dropped (fun block a => tracker_subtract a block) agg = Some agg' /\
    segment_ok rest agg' /\ hrmp_watermark agg' = hrmp_watermark agg.
Proof.
  induction dropped as [|b dropped IH]; intros agg Hs; [by exists agg|].
  destruct (tracker_subtract_ok _ _ _ Hs) as (agg1 & H1 & Hs1 & Hw1).
  destruct (IH _ Hs1) as (agg' & H2 & Hs2 & Hw2). exists agg'.
  cbn [for_in]. rewrite H1. cbn [mbind option_bind]. split_and!; [done..|congruence].
Qed.

(** [dropped] is the part of the segment up to the first block with head [h]. *)
Definition up_to (h : H) (dropped kept : list (Ancestor H)) : Prop :=
  (dropped = [] /\ Forall (fun b => para_head_hash b <> Some h) kept) \/
  (exists pre a, dropped = pre ++ [a] /\ para_head_hash a = Some h /\
     Forall (fun b => para_head_hash b <> Some h) pre).

(** The segment determines what is dropped. *)
Lemma up_to_unique h d1 k1 d2 k2 : up_to h d1 k1 -> up_to h d2 k2 -> d1 ++ k1 = d2 ++ k2 -> k1 = k2.
Proof.
  assert (Hfind : forall d k, up_to h d k ->
    list_find (fun b => para_head_hash b = Some h) (d ++ k) =
      match last d with Some a => Some ((length d - 1)%nat, a) | None => None end).
  { intros d k [[-> Hk]|(pre & a & -> & Ha & Hpre)]; [by apply list_find_None|].
    rewrite last_snoc, length_app, <- app_assoc. cbn [app length]. apply list_find_Some.
    replace (length pre + 1 - 1)%nat with (length pre) by lia. split; [by rewrite list_lookup_middle|]. split; [done|].
    intros j y Hj Hlt. rewrite lookup_app_l in Hj by done. rewrite Forall_forall in Hpre.
    apply Hpre. by eapply list_elem_of_lookup_2. }
  intros H1 H2 E. pose proof (Hfind _ _ H1) as F1. pose proof (Hfind _ _ H2) as F2. rewrite E, F2 in F1.
  destruct d1 as [|x1 d1 _] using rev_ind; destruct d2 as [|x2 d2 _] using rev_ind; rewrite ?last_snoc in F1; try done.
  injection F1 as Hl _. rewrite !length_app in Hl. cbn [length] in Hl.
  eapply app_inj_1 in E as [_ ?]; [done|]. rewrite !length_app. cbn. lia.
Qed.

(** The head the inherent takes as included. *)
Definition head_is (head : option H) capacity parent h : Prop :=
  head = Some h /\ (is_expecting_included_parent capacity = true -> h = parent) \/
  head = None /\ is_expecting_included_parent capacity = true /\ h = parent.

Lemma drop_spec head capacity parent h p :
  pallet_ok p -> Forall named (UnincludedSegment p) -> zlen (UnincludedSegment p) <= umax 32 ->
  head_is head capacity parent h ->
  exists dropped kept agg, UnincludedSegment p = dropped ++ kept /\ up_to h dropped kept /\
    maybe_drop_included_ancestors head capacity parent
      (UnincludedSegment p) (AggregatedUnincludedSegment p)
      = (if zlen kept <? capacity_get capacity then Some (kept, agg) else None) /\
    segment_ok kept (default default_tracker agg) /\ (agg = None -> kept = []) /\
    agg ≫= hrmp_watermark = AggregatedUnincludedSegment p ≫= hrmp_watermark.
Proof.
  intros Hp Hn Hlen Hh. unfold maybe_drop_included_ancestors.
  assert (Hhead : match head, is_expecting_included_parent capacity with
    | Some h, true => if bool_decide (h = parent) then Some h else None
    | Some h, false => Some h
    | None, true => Some parent
    | None, false => None
    end = Some h).
  { destruct Hh as [[-> Hh]|(-> & -> & ->)]; [|done].
    destruct (is_expecting_included_parent capacity); [|done]. by rewrite bool_decide_true by auto. }
  rewrite Hhead. cbn [mbind option_bind]. clear Hhead Hh.
  destruct (included_position_spec h _ Hn) as (i & -> & Hi). cbn [mbind option_bind].
  destruct i as [i|].
  - destruct Hi as (pre & a & post & Hc & <- & Ha & Hpre).
    assert (Hseg : UnincludedSegment p = (pre ++ [a]) ++ post) by by rewrite <- app_assoc.
    assert (Et : length (pre ++ [a]) = S (length pre)) by (rewrite length_app; cbn; lia).
    destruct (AggregatedUnincludedSegment p) as [g|] eqn:Hg;
      [|by rewrite (pal_tracked _ Hp Hg) in Hc; destruct pre].
    pose proof (pal_segment _ Hp) as Hs. rewrite Hg, Hseg in Hs. change (default default_tracker (Some g)) with g in Hs.
    destruct (subtract_all _ _ _ Hs) as (g' & H1 & Hs' & Hw).
    exists (pre ++ [a]), post, (Some g'). split; [done|]. split; [right; by exists pre, a|].
    split; [|by split_and!]. rewrite Hseg, <- Et, take_app_length, drop_app_length.
    replace (length ((pre ++ [a]) ++ post) - length (pre ++ [a]))%nat with (length post) by (rewrite length_app; lia).
    rewrite wrapping_id; [|unfold is_uint, zlen in *; rewrite Hseg, length_app in Hlen; lia].
    destruct (pre ++ [a]) eqn:Epre; [by destruct pre|].
    cbn [mbind option_bind]. rewrite H1. done.
  - exists [], (UnincludedSegment p), (AggregatedUnincludedSegment p). split; [done|]. split; [by left|].
    split; [|split; [apply Hp|split; [apply Hp|done]]]. cbn [take drop length mbind option_bind].
    rewrite Nat.sub_0_r, wrapping_id; [done|]. unfold is_uint, zlen in *. lia.
Qed.

(** The upgrade signal of the relay chain agrees with the one an ancestor of the
    segment acted upon, and a go-ahead nobody acted upon has code to apply. *)
Definition signal_agrees (signal in_segment : option UpgradeGoAhead) (pending : option bytes) : Prop :=
  match in_segment with
  | Some s => signal = Some s
  | None => signal = Some GoAhead -> is_Some pending
  end.

Lemma process_go_ahead_spec signal in_segment pending :
  signal_agrees signal in_segment pending <->
  exists r, process_go_ahead signal in_segment pending = Some r.
Proof.
  unfold signal_agrees, process_go_ahead. destruct in_segment as [s|].
  - case_bool_decide as Hs; cbn; [subst; destruct s; split; by eauto|]. split; [done|by intros [? ?]].
  - cbn. destruct signal as [[]|], pending; cbn; (split; [intros Hx|intros [? Hx] Hy]); try (by eauto); by destruct (Hx eq_refl).
Qed.

Context {Hdr : Type} `{RH : !RelayHeaders Hdr Root}.
Implicit Types (data : BasicParachainInherentData (H := H) (Hdr := Hdr) (Root := Root))
  (proof : RelayChainStateProof (H := H) (Root := Root) (Hdr := Hdr)).

(** What the inherent checks, with the blocks of the segment it keeps. *)
Record inherent_accepts (cfg : ParaConfig) data capacity parent p proof h (kept : list (Ancestor H)) : Prop := {
  ia_number : check_associated_relay_number (cfg_check_relay_number cfg) (relay_parent_number (validation_data data))
    (LastRelayChainBlockNumber p) = true;
  ia_proof : relay_chain_state data = Some proof;
  ia_descendants : 0 < cfg_relay_parent_offset cfg -> cfg_v3_scheduling cfg = false ->
    descendants_valid (read_authorities proof) (mjoin (read_next_authorities proof)) (relay_parent_descendants data)
      (relay_parent_storage_root (validation_data data)) (cfg_relay_parent_offset cfg);
  ia_head : head_is (read_included_para_head proof) capacity parent h;
  ia_kept : exists dropped, UnincludedSegment p = dropped ++ kept /\ up_to h dropped kept;
  ia_room : zlen kept < capacity_get capacity;
  ia_signal : exists signal, read_upgrade_go_ahead_signal proof = Some signal /\
    signal_agrees signal (head (omap anc_go_ahead kept)) (PendingValidationCode p);
  ia_restriction : is_Some (read_upgrade_restriction_signal proof);
  ia_messaging : exists hc, read_abridged_host_configuration proof = Some hc /\
    is_Some (read_messaging_state_snapshot proof hc);
}.

Lemma check_descendants_spec cfg data proof :
  check_descendants cfg data proof = true <->
  (0 < cfg_relay_parent_offset cfg -> cfg_v3_scheduling cfg = false ->
   descendants_valid (read_authorities proof) (mjoin (read_next_authorities proof)) (relay_parent_descendants data)
     (relay_parent_storage_root (validation_data data)) (cfg_relay_parent_offset cfg)).
Proof.
  unfold check_descendants. rewrite <- descendants_verified.
  destruct (Z.ltb_spec 0 (cfg_relay_parent_offset cfg)), (cfg_v3_scheduling cfg); cbn [andb negb];
    try (split; [intros _ ? ?|]; done || lia).
  destruct (verify_relay_parent_descendants _ _ _ _ _) as [[]| |]; split; naive_solver.
Qed.

(** A segment knows the signal its blocks acted upon. *)
Lemma signal_in_segment (kept : list (Ancestor H)) agg :
  segment_ok kept (default default_tracker agg) -> agg ≫= consumed_go_ahead_signal = head (omap anc_go_ahead kept).
Proof. intros [_ _ ->]. destruct agg as [t|]; cbn; [by destruct (consumed_go_ahead_signal t)|done]. Qed.

(** Dropping the included blocks, for whatever head the proof has. *)
Lemma drop_outcome head capacity parent p :
  pallet_ok p -> Forall named (UnincludedSegment p) -> zlen (UnincludedSegment p) <= umax 32 ->
  match maybe_drop_included_ancestors head capacity parent (UnincludedSegment p) (AggregatedUnincludedSegment p) with
  | Some (kept, agg) => exists h dropped, head_is head capacity parent h /\ UnincludedSegment p = dropped ++ kept /\
      up_to h dropped kept /\ zlen kept < capacity_get capacity /\ segment_ok kept (default default_tracker agg) /\
      (agg = None -> kept = []) /\ agg ≫= hrmp_watermark = AggregatedUnincludedSegment p ≫= hrmp_watermark
  | None => forall h dropped kept, head_is head capacity parent h -> UnincludedSegment p = dropped ++ kept ->
      up_to h dropped kept -> ~ zlen kept < capacity_get capacity
  end.
Proof.
  intros Hp Hn Hl. destruct (maybe_drop_included_ancestors _ _ _ _ _) as [[seg agg]|] eqn:Hdrop.
  - assert (exists h, head_is head capacity parent h) as [h Hh].
    { unfold maybe_drop_included_ancestors in Hdrop. apply bind_Some in Hdrop as (h & Hh & _). exists h. unfold head_is.
      destruct head, (is_expecting_included_parent capacity); try done;
        [case_bool_decide; [|done]|..]; injection Hh as ->; naive_solver. }
    destruct (drop_spec _ _ _ _ _ Hp Hn Hl Hh) as (dropped & kept & agg' & E & Hu & Hm & Hs & Hg & Hw).
    rewrite Hm in Hdrop. destruct (Z.ltb_spec (zlen kept) (capacity_get capacity)); [injection Hdrop as -> ->|done].
    by exists h, dropped.
  - intros h dropped kept Hh E Hu Hroom.
    destruct (drop_spec _ _ _ _ _ Hp Hn Hl Hh) as (dropped' & kept' & agg & E' & Hu' & Hm & _).
    rewrite Hdrop in Hm. rewrite E in E'. rewrite (up_to_unique _ _ _ _ _ Hu Hu' E') in Hroom.
    by destruct (Z.ltb_spec (zlen kept') (capacity_get capacity)); [|lia].
Qed.

(** What is accepted determines the blocks that are kept. *)
Lemma accepts_kept cfg data capacity parent p proof h dropped kept proof' h' kept' :
  relay_chain_state data = Some proof -> head_is (read_included_para_head proof) capacity parent h ->
  UnincludedSegment p = dropped ++ kept -> up_to h dropped kept ->
  inherent_accepts cfg data capacity parent p proof' h' kept' -> proof' = proof /\ kept' = kept.
Proof.
  intros Hproof Hh E Hu Ha. destruct (ia_kept _ _ _ _ _ _ _ _ Ha) as (dropped' & E' & Hu').
  assert (proof' = proof) as -> by (pose proof (ia_proof _ _ _ _ _ _ _ _ Ha); congruence). split; [done|].
  assert (h' = h) as -> by (pose proof (ia_head _ _ _ _ _ _ _ _ Ha); unfold head_is in *; naive_solver congruence).
  rewrite E in E'. by apply (up_to_unique _ _ _ _ _ Hu' Hu).
Qed.

(** What the inherent leaves in the storage. *)
Record inherent_ran data p proof p' : Prop := {
  ir_pallet : pallet_ok p';
  ir_data : ValidationData p' = Some (validation_data data);
  ir_peer : PendingApprovedPeer p' = collator_peer_id data;
  ir_upward : PendingUpwardMessages p' = PendingUpwardMessages p;
  ir_queue : OutboundXcmp p' = OutboundXcmp p;
  ir_state : exists hc state, HostConfiguration p' = Some hc /\ RelevantMessagingState p' = Some state /\
    read_messaging_state_snapshot proof hc = Some state;
}.

(** The inherent returns exactly what it accepts, and panics otherwise. *)
Lemma inherent_spec cfg data capacity parent p :
  pallet_ok p -> Forall named (UnincludedSegment p) -> zlen (UnincludedSegment p) <= umax 32 -> ValidationData p = None ->
  match set_validation_data cfg true data capacity parent p with
  | Ok p' => exists proof h, inherent_accepts cfg data capacity parent p proof h (UnincludedSegment p') /\
      inherent_ran data p proof p'
  | Err _ => False
  | Panic => forall proof h kept, ~ inherent_accepts cfg data capacity parent p proof h kept
  end.
Proof.
  intros Hp Hn Hl Hv. unfold set_validation_data. cbn [ensure obind]. rewrite Hv, bool_decide_false by by intros [? ?].
  cbn [obind]. destruct (check_associated_relay_number _ _ _) eqn:Hnum; [|intros ? ? ? []; congruence]. cbn [obind].
  destruct (relay_chain_state data) as [proof|] eqn:Hproof; [|intros ? ? ? []; congruence]. cbn [expect obind].
  pose proof (check_descendants_spec cfg data proof) as Hd. pose proof (drop_outcome (read_included_para_head proof) capacity parent p Hp Hn Hl) as Ho.
  destruct (check_descendants cfg data proof); cbn [obind]; [assert (Hdesc := proj1 Hd eq_refl)|].
  2: { intros proof' h kept []. assert (proof' = proof) as -> by congruence. by apply Hd in ia_descendants0. }
  destruct (maybe_drop_included_ancestors _ _ _ _ _) as [[seg agg]|]; cbn [expect obind].
  2: { intros proof' h kept [? Hp' ? ? (dropped & ? & ?) ?]. assert (proof' = proof) as -> by congruence. by eapply Ho. }
  destruct Ho as (h & dropped & Hh & E & Hu & Hroom & Hs & Hg & Hw).
  pose proof (accepts_kept cfg data capacity parent p proof h dropped seg) as Hsame.
  destruct (read_upgrade_go_ahead_signal proof) as [signal|] eqn:Hsig; cbn [expect obind].
  2: { intros ? ? ? Ha. destruct (Hsame _ _ _ Hproof Hh E Hu Ha) as [-> ->]. destruct Ha as [? ? ? ? ? ? (? & ? & _) ? ?]. congruence. }
  pose proof (process_go_ahead_spec signal (agg ≫= consumed_go_ahead_signal) (PendingValidationCode p)) as Hgo.
  rewrite (signal_in_segment _ _ Hs) in *.
  destruct (process_go_ahead _ _ _) as [pending|]; cbn [expect obind].
  2: { intros ? ? ? Ha. destruct (Hsame _ _ _ Hproof Hh E Hu Ha) as [-> ->]. destruct Ha as [? ? ? ? ? ? (x & ? & Hx) ? ?].
       assert (x = signal) as -> by congruence. by apply Hgo in Hx as [? ?]. }
  destruct (read_upgrade_restriction_signal proof) as [r|] eqn:Hr; cbn [expect obind].
  2: { intros ? ? ? Ha. destruct (Hsame _ _ _ Hproof Hh E Hu Ha) as [-> ->]. destruct Ha as [? ? ? ? ? ? ? [? ?] ?]. congruence. }
  destruct (read_abridged_host_configuration proof) as [hc|] eqn:Hc; cbn [expect obind].
  2: { intros ? ? ? Ha. destruct (Hsame _ _ _ Hproof Hh E Hu Ha) as [-> ->]. destruct Ha as [? ? ? ? ? ? ? ? (? & ? & _)]. congruence. }
  destruct (read_messaging_state_snapshot proof hc) as [state|] eqn:Hst; cbn [expect obind].
  2: { intros ? ? ? Ha. destruct (Hsame _ _ _ Hproof Hh E Hu Ha) as [-> ->]. destruct Ha as [? ? ? ? ? ? ? ? (? & ? & [? ?])]. congruence. }
  exists proof, h. split; split; cbn; rewrite ?Hr, ?Hst; try done; [by exists dropped|exists signal|by exists hc|split|by exists hc, state].
  - split; [done|]. apply Hgo. by exists pending.
  - done.
  - done.
  - cbn. rewrite Hw. apply Hp.
  - apply Hp.
Qed.
(** ** Blocks *)

Inductive phase : Set := Finalized | Initialized | InherentDone.

Definition set_watermark w p : Pallet H Root Q :=
  mkPallet (UnincludedSegment p) (AggregatedUnincludedSegment p) (RelevantMessagingState p)
    (HostConfiguration p) (ValidationData p) (LastRelayChainBlockNumber p) (DidSetValidationCode p)
    (NewValidationCode p) (PendingValidationCode p) (UpgradeRestrictionSignal p) (UpgradeGoAheadSignal p)
    (PendingUpwardMessages p) (UpwardMessages p) (PendingUpwardSignals p) (PendingApprovedPeer p)
    (UpwardDeliveryFeeFactor p) (PoVMessagesTracker p) (PreviousCoreCount p)
    (AnnouncedHrmpMessagesPerCandidate p) w (HrmpOutboundMessages p) (OutboundXcmp p).

Definition set_queue q p : Pallet H Root Q :=
  mkPallet (UnincludedSegment p) (AggregatedUnincludedSegment p) (RelevantMessagingState p)
    (HostConfiguration p) (ValidationData p) (LastRelayChainBlockNumber p) (DidSetValidationCode p)
    (NewValidationCode p) (PendingValidationCode p) (UpgradeRestrictionSignal p) (UpgradeGoAheadSignal p)
    (PendingUpwardMessages p) (UpwardMessages p) (PendingUpwardSignals p) (PendingApprovedPeer p)
    (UpwardDeliveryFeeFactor p) (PoVMessagesTracker p) (PreviousCoreCount p)
    (AnnouncedHrmpMessagesPerCandidate p) (HrmpWatermark p) (HrmpOutboundMessages p) q.

(** Any messaging state that the proof yields is sound. *)
Definition sound_relay data : Prop :=
  forall proof hc state, relay_chain_state data = Some proof ->
    read_messaging_state_snapshot proof hc = Some state -> relay_ok state.

(** What happens to the storage, block after block.  A vector has at most [u32::MAX]
    elements; the watermark of inbound messages only moves forward (the theorems
    of [InherentChain] show it); the queue of outgoing messages belongs to another
    pallet and changes as that pallet likes, within its invariant. *)
Inductive block_step (wf : Q -> Prop) : phase * Pallet H Root Q -> phase * Pallet H Root Q -> Prop :=
| step_initialize db v3 offset digest parent p p' weight :
  on_initialize db v3 offset digest parent p = Some (p', weight) ->
  block_step wf (Finalized, p) (Initialized, p')
| step_inherent cfg data capacity parent p p' :
  zlen (UnincludedSegment p) <= umax 32 -> sound_relay data ->
  set_validation_data cfg true data capacity parent p = Ok p' ->
  block_step wf (Initialized, p) (InherentDone, p')
| step_watermark ph w p : HrmpWatermark p <= w -> block_step wf (ph, p) (ph, set_watermark w p)
| step_queue ph q p : wf q -> block_step wf (ph, p) (ph, set_queue q p)
| step_send ph message p p' :
  zlen message <= umax 32 -> send_upward_message message p = Ok p' -> block_step wf (ph, p) (ph, p')
| step_schedule ph code p p' :
  schedule_code_upgrade code p = Ok p' -> block_step wf (ph, p) (ph, p')
| step_finalize digest p p' :
  on_finalize encode_signal zero_root digest p = Some p' ->
  block_step wf (InherentDone, p) (Finalized, p').

(** The storage with an empty segment, before the first block. *)
Record genesis (wf : Q -> Prop) p : Prop := {
  gen_segment : UnincludedSegment p = [];
  gen_tracker : AggregatedUnincludedSegment p = None;
  gen_fee : UpwardDeliveryFeeFactor p = FeeTracker.MIN_FEE_FACTOR;
  gen_messages : Forall (fun m => zlen m <= umax 32) (PendingUpwardMessages p);
  gen_queue : wf (OutboundXcmp p);
}.

(** Every block of the segment has its head, but for the last one between its
    finalization and the initialization of the next. *)
Definition heads_named (ph : phase) (seg : list (Ancestor H)) : Prop :=
  match ph with
  | Finalized => Forall named (take (length seg - 1) seg)
  | _ => Forall named seg
  end.

(** What the phases add: no validation data before the inherent, and a sound relay
    chain state after it. *)
Definition phase_ok (ph : phase) p : Prop :=
  match ph with
  | Finalized => True
  | Initialized => ValidationData p = None
  | InherentDone => exists vfp hc state, ValidationData p = Some vfp /\ HostConfiguration p = Some hc /\
      RelevantMessagingState p = Some state /\ relay_ok state
  end.

Record block_ok (wf : Q -> Prop) (ph : phase) p : Prop := {
  bo_pallet : pallet_ok p;
  bo_heads : heads_named ph (UnincludedSegment p);
  bo_messages : Forall (fun m => zlen m <= umax 32) (PendingUpwardMessages p);
  bo_queue : wf (OutboundXcmp p);
  bo_phase : phase_ok ph p;
}.

Lemma initialize_ok db v3 offset digest parent p p' weight :
  pallet_ok p -> heads_named Finalized (UnincludedSegment p) ->
  on_initialize db v3 offset digest parent p = Some (p', weight) ->
  pallet_ok p' /\ heads_named Initialized (UnincludedSegment p') /\
  PendingUpwardMessages p' = PendingUpwardMessages p /\ OutboundXcmp p' = OutboundXcmp p /\ ValidationData p' = None.
Proof.
  intros [P1 P2 P3 P4] Hn Hi. unfold on_initialize in Hi.
  destruct (if negb _ then _ else _) as [code w0]. apply bind_Some in Hi as ([] & _ & [= <- <-]).
  match goal with |- ?A /\ ?B /\ _ => cut (A /\ B); [by intros [? ?]|] end.
  cbn [heads_named UnincludedSegment] in *. unfold replace_last.
  destruct (UnincludedSegment p) as [|a seg _] eqn:Hseg using rev_ind; [split; [split|]; done|].
  rewrite last_snoc. cbn [UnincludedSegment AggregatedUnincludedSegment].
  assert (E : <[(length (seg ++ [a]) - 1)%nat := replace_para_head_hash a parent]> (seg ++ [a])
              = seg ++ [replace_para_head_hash a parent]).
  { rewrite length_app. cbn [length]. replace (length seg + 1 - 1)%nat with (length seg + 0)%nat by lia.
    by rewrite insert_app_r. }
  split; [split|]; cbn; rewrite ?E.
  - by apply segment_ok_named.
  - intros Hg. apply P2 in Hg. by destruct seg.
  - done.
  - done.
  - apply Forall_app. split; [|constructor; [by eexists|done]].
    rewrite length_app in Hn. cbn [length] in Hn.
    replace (length seg + 1 - 1)%nat with (length seg) in Hn by lia. by rewrite take_app_length in Hn.
Qed.

(** The fields of the storage that the calls during a block leave alone. *)
Definition same_inherent p p' : Prop :=
  UnincludedSegment p' = UnincludedSegment p /\ ValidationData p' = ValidationData p /\
  HostConfiguration p' = HostConfiguration p /\ RelevantMessagingState p' = RelevantMessagingState p /\
  OutboundXcmp p' = OutboundXcmp p.

Lemma send_ok message p p' :
  pallet_ok p -> zlen message <= umax 32 -> send_upward_message message p = Ok p' ->
  pallet_ok p' /\ same_inherent p p' /\ PendingUpwardMessages p' = PendingUpwardMessages p ++ [message].
Proof.
  intros [P1 P2 P3 P4] Hm Hs. pose proof (increase_fee_spec _ (zlen message) P4) as Hf.
  unfold send_upward_message in Hs. destruct (HostConfiguration p) as [cfg|] eqn:Hc.
  - destruct (_ <? _); [done|]. destruct (_ <? _); injection Hs as <-; (split; [split|]; cbn; try done).
    change (umax 32) with 4294967295 in Hm. change (umax 64) with 18446744073709551615 in Hf. unfold zlen in *. lia.
  - injection Hs as <-. split; [split|]; done.
Qed.

Lemma schedule_ok code p p' :
  pallet_ok p -> schedule_code_upgrade code p = Ok p' ->
  pallet_ok p' /\ same_inherent p p' /\ PendingUpwardMessages p' = PendingUpwardMessages p.
Proof.
  intros [P1 P2 P3 P4] Hs. unfold schedule_code_upgrade in Hs.
  repeat (apply obind_ok in Hs as (? & _ & Hs)). injection Hs as <-. split; [split|]; done.
Qed.

Lemma phase_ok_same ph p p' : same_inherent p p' -> phase_ok ph p -> phase_ok ph p'.
Proof. intros (_ & E1 & E2 & E3 & _). unfold phase_ok. by rewrite E1, E2, E3. Qed.

Lemma block_ok_same wf ph p p' :
  block_ok wf ph p -> pallet_ok p' -> same_inherent p p' ->
  Forall (fun m => zlen m <= umax 32) (PendingUpwardMessages p') -> block_ok wf ph p'.
Proof.
  intros [_ B2 _ B4 B5] Hp Hs Hm. pose proof Hs as (E1 & _ & _ & _ & E5).
  split; [done|by rewrite E1|done|by rewrite E5|by eapply phase_ok_same].
Qed.

Lemma inherent_done_ready wf p :
  block_ok wf InherentDone p -> exists vfp hc state, ready_to_finalize wf p vfp hc state.
Proof. intros [_ _ B3 B4 (vfp & hc & state & ? & ? & ? & ?)]. by exists vfp, hc, state. Qed.

Lemma block_step_ok {wf admissible} `{!XcmpMessageSourceLaws Q wf admissible} s s' :
  block_step wf s s' -> block_ok wf s.1 s.2 -> block_ok wf s'.1 s'.2.
Proof.
  intros Hstep Hok. pose proof Hok as [B1 B2 B3 B4 B5]. destruct Hstep as [db v3 offset digest parent p p' weight Hi|
    cfg data capacity parent p p' Hl Hsound Hi|ph w p Hw|ph q p Hq|ph message p p' Hm Hs|ph code p p' Hs|digest p p' Hf];
    cbn [fst snd] in *.
  - destruct (initialize_ok _ _ _ _ _ _ _ _ B1 B2 Hi) as (? & ? & E1 & E2 & E3). split; rewrite ?E1, ?E2; done.
  - pose proof (inherent_spec cfg data capacity parent p B1 B2 Hl B5) as Hspec. rewrite Hi in Hspec.
    destruct Hspec as (proof & h & Ha & [R1 R2 R3 R4 R5 (hc & state & R6 & R7 & R8)]). split; rewrite ?R4, ?R5; try done.
    + destruct (ia_kept _ _ _ _ _ _ _ _ Ha) as (dropped & E & _). cbn in B2. rewrite E in B2. by apply Forall_app in B2 as [_ ?].
    + exists (validation_data data), hc, state. split_and!; [done..|]. eapply Hsound; [|done]. apply Ha.
  - apply (block_ok_same _ _ p); [done| |done|done]. destruct B1 as [P1 P2 P3 P4]. split; [done..| |done].
    intros w' Hw'. specialize (P3 _ Hw'). cbn. lia.
  - split; [by destruct B1|done..].
  - destruct (send_ok _ _ _ B1 Hm Hs) as (? & ? & E). apply (block_ok_same _ _ p); [done..|]. rewrite E.
    apply Forall_app. by split; [|constructor].
  - destruct (schedule_ok _ _ _ B1 Hs) as (? & ? & E). apply (block_ok_same _ _ p); [done..|]. by rewrite E.
  - destruct (inherent_done_ready _ _ Hok) as (vfp & hc & state & Hready).
    destruct (finalize_keeps digest p vfp hc state p' B1 Hready Hf) as (? & ? & Hsuf & a & E). split; try done.
    + cbn in *. rewrite E, length_app. cbn [length].
      replace (length (UnincludedSegment p) + 1 - 1)%nat with (length (UnincludedSegment p)) by lia. by rewrite take_app_length.
    + destruct Hsuf as [pre Hpre]. rewrite Hpre in B3. by apply Forall_app in B3 as [_ ?].
Qed.

Lemma genesis_ok wf p : genesis wf p -> block_ok wf Finalized p.
Proof.
  intros [E1 E2 E3 E4 E5]. split; [split| | | |]; cbn; rewrite ?E1, ?E2, ?E3; done.
Qed.

Lemma blocks_ok {wf admissible} `{!XcmpMessageSourceLaws Q wf admissible} p0 ph p :
  genesis wf p0 -> rtc (block_step wf) (Finalized, p0) (ph, p) -> block_ok wf ph p.
Proof.
  intros Hg Hr. apply genesis_ok in Hg. change (block_ok wf (ph, p).1 (ph, p).2).
  change (block_ok wf (Finalized, p0).1 (Finalized, p0).2) in Hg.
  induction Hr as [|s1 s2 s3 Hs _ IH]; [done|]. apply IH. by eapply block_step_ok.
Qed.
End pallet_proofs.

(** ** Properties *)

Section properties.
Context {H Root Q : Type} `{EqDecision H, EqDecision Root} `{XcmpMessageSource Q}.
Context {Hdr : Type} `{RH : !RelayHeaders Hdr Root}.
Context (encode_signal : UMPSignal -> bytes) (zero_root : Root).
Context {wf : Q -> Prop} {admissible : (ParaId -> ChannelStatus) -> Q -> Prop}.
Context `{!XcmpMessageSourceLaws Q wf admissible}.
Abbreviation steps := (rtc (block_step (Hdr := Hdr) encode_signal zero_root wf)).

(** C15: in every state that the hooks and calls of the pallet reach, block after
    block, the total the pallet keeps is the exact sum over the blocks of the
    unincluded segment, and there is one unless the segment is empty; every block
    of the segment but the one just finalized knows its head; the watermark that
    the segment recorded is at most the current one; and the fee factor stays
    between one and the maximum.  This holds for every block that finalizes.  Of
    the relay chain it is assumed that a messaging state that the proof yields is
    sound ([relay_ok]: no limit is [u32::MAX]), of the inbound messages that they
    do not move the watermark back. *)
Theorem para_blocks_invariant (p0 : Pallet H Root Q) (ph : phase) (p : Pallet H Root Q) :
  genesis wf p0 -> steps (Finalized, p0) (ph, p) ->
  segment_ok (UnincludedSegment p) (default default_tracker (AggregatedUnincludedSegment p)) /\
  (AggregatedUnincludedSegment p = None -> UnincludedSegment p = []) /\
  heads_named ph (UnincludedSegment p) /\
  (forall w, AggregatedUnincludedSegment p ≫= hrmp_watermark = Some w -> w <= HrmpWatermark p) /\
  FeeTracker.MIN_FEE_FACTOR <= UpwardDeliveryFeeFactor p <= umax 128.
Proof.
  intros Hg Hr. destruct (blocks_ok _ _ _ _ _ Hg Hr) as [[P1 P2 P3 P4] Hn _ _ _]. done.
Qed.

(** C16: in an initialized block the inherent (with the right origin) succeeds exactly
    for the data it should accept, and panics otherwise.  It accepts if the relay
    chain block number passes the check of the configuration, the proof and its
    entries can be read, the relay parent's descendants are a sealed chain where
    they are asked for, the included head is present (or may be missing) and is
    the parent where the parent must be included, the segment has room after the
    included blocks are dropped, and the upgrade signal is the one an unincluded
    block acted upon or has code to apply.  It then drops exactly the blocks up to
    the included head, takes their bandwidth off the total, and stores the
    validation data and the peer of the collator. *)
Theorem inherent_drops_included (p0 p : Pallet H Root Q) cfg
    (data : BasicParachainInherentData (H := H) (Hdr := Hdr) (Root := Root)) capacity parent :
  genesis wf p0 -> steps (Finalized, p0) (Initialized, p) -> zlen (UnincludedSegment p) <= umax 32 ->
  match set_validation_data cfg true data capacity parent p with
  | Ok p' => exists proof h, inherent_accepts cfg data capacity parent p proof h (UnincludedSegment p') /\
      segment_ok (UnincludedSegment p') (default default_tracker (AggregatedUnincludedSegment p')) /\
      ValidationData p' = Some (validation_data data) /\ PendingApprovedPeer p' = collator_peer_id data
  | Err _ => False
  | Panic => forall proof h kept, ~ inherent_accepts cfg data capacity parent p proof h kept
  end.
Proof.
  intros Hg Hr Hl. destruct (blocks_ok _ _ _ _ _ Hg Hr) as [Hp Hn _ _ Hv].
  pose proof (inherent_spec cfg data capacity parent p Hp Hn Hl Hv) as Hi.
  destruct (set_validation_data cfg true data capacity parent p) as [p'|e|]; [|done..].
  destruct Hi as (proof & h & Ha & [[Hs _ _ _] ? ? _ _ _]). by exists proof, h.
Qed.

(** C17: a block whose inherent ran finalizes, if the relay chain still has room for
    what the unincluded segment already sent ([within]; where the upward messages
    of the segment have none, even an empty block fails, see
    [finalize_needs_room]) and the queue of horizontal messages is admissible for
    the channels as they are.  The upward
    messages sent are a prefix of the pending ones, the new block of the segment
    accounts for exactly the messages that left, and together with those of the
    segment they stay within what the relay chain offers.  A message stays behind
    only if it has no room. *)
Theorem finalize_never_panics (p0 p : Pallet H Root Q) digest vfp state :
  genesis wf p0 -> steps (Finalized, p0) (InherentDone, p) ->
  ValidationData p = Some vfp -> RelevantMessagingState p = Some state ->
  within (segment_used (AggregatedUnincludedSegment p)) state ->
  (forall s, adjust_egress_bandwidth_limits (AggregatedUnincludedSegment p) (Some state) = Some s ->
     admissible (get_channel_status (Some s)) (OutboundXcmp p)) ->
  exists p' a, on_finalize encode_signal zero_root digest p = Some p' /\
    UnincludedSegment p' = UnincludedSegment p ++ [a] /\ accounts p a p' /\
    fits (segment_used (AggregatedUnincludedSegment p)) (anc_used_bandwidth a) (from_relay_chain_state state) /\
    segment_ok (UnincludedSegment p') (default default_tracker (AggregatedUnincludedSegment p')) /\
    (forall msg rest, PendingUpwardMessages p' = msg :: rest -> no_room zero_root digest p vfp state a msg).
Proof.
  intros Hg Hr Ev Es Hw Hadm. pose proof (blocks_ok _ _ _ _ _ Hg Hr) as Hok. pose proof (bo_pallet _ _ _ Hok) as Hp.
  destruct (inherent_done_ready _ _ Hok) as (vfp' & hc & state' & Hready).
  pose proof Hready as [E1 E2 E3 _ _ Hq]. rewrite Ev in E1. rewrite Es in E3. injection E1 as <-. injection E3 as <-.
  destruct (finalize_run encode_signal zero_root digest p vfp hc state Hp Hready) as (s & _ & taken & q' & _ & [Hs _ Hho _ _ _ _ _ _] & _).
  assert (Hnow : forall s, adjust_egress_bandwidth_limits (AggregatedUnincludedSegment p) (Some state) = Some s -> fit_now s taken).
  { intros s1 Hs1 id d Hin. pose proof Hho as Htake. unfold handed_over in Htake.
    rewrite Ev, E2, Es in Htake. cbn [mbind option_bind] in Htake. cbv zeta in Htake. rewrite Hs1 in Htake.
    exact (taken_fits _ _ _ _ _ _ _ id d Hq (Hadm s1 Hs1) Htake Hin). }
  destruct (finalize_spec encode_signal zero_root digest p vfp hc state taken q' Hp Hready Hw Hho Hnow)
    as (p' & a & Hf & Hseg & Ha & Hfit & _ & _ & Hmax).
  exists p', a. split_and!; try done. apply (finalize_keeps encode_signal zero_root digest p vfp hc state p' Hp Hready Hf).
Qed.
End properties.

(** ** Witnesses *)

(** The source that never has a message. *)
#[local] Instance unit_laws : XcmpMessageSourceLaws unit (fun _ => True) (fun _ _ => True).
Proof.
  split; unfold take_outbound_messages, unit_source; [by eauto|..].
  - intros ? ? ? ? ? taken ? _ [= <- <-]. constructor.
  - intros ? ? ? ? ? taken ? ? ? _ _ [= <- <-] Hin. by apply elem_of_nil in Hin.
Qed.

Definition example_encode (s : UMPSignal) : bytes :=
  match s with SelectCore _ _ => [Byte.x00] | ApprovedPeer peer => Byte.x01 :: peer end.

Definition example_genesis : Pallet nat Z unit :=
  mkPallet [] None None None None 0 false None None None None [[Byte.x01; Byte.x02]; [Byte.x03]] [] [] None
    FeeTracker.MIN_FEE_FACTOR None None 0 0 [] tt.

Definition example_relay : MessagingStateSnapshot :=
  mkSnapshot 1 100 [(2000, mkChannel 8 1024 512 0 0)].
Definition example_host : AbridgedHostConfiguration :=
  mkHostConfig 1000 100 10 100 50 10 4 1 1 (mkAsyncBacking 3 2).
Definition example_vfp (number : Z) : PersistedValidationData Z := mkVfp [] number 9 1000.
Definition example_digest : Digest := mkDigest None None None.

(** Blocks must come with the relay parent and two descendants, the second of which
    starts an epoch. *)
Definition example_config : ParaConfig := mkParaConfig RelayNumberStrictlyIncreases 2 false.
Definition example_proof (head : nat) (relay : MessagingStateSnapshot) :
    RelayChainStateProof (H := nat) (Root := Z) (Hdr := example_header) :=
  mkRelayProof (H := nat) (Root := Z) (Hdr := example_header) (Some head) (Some [11; 12]) (Some (Some [21; 22]))
    (Some None) (Some None) (Some example_host) (fun _ => Some relay).
Definition example_data (number : Z) (head : nat) (relay : MessagingStateSnapshot) :
    BasicParachainInherentData (H := nat) (Root := Z) (Hdr := example_header) :=
  mkInherentData (H := nat) (Root := Z) (Hdr := example_header) (example_vfp number) (Some (example_proof head relay))
    (example_chain 21) (Some [Byte.x07]).

Definition example_db : Fees.RuntimeDbWeight := {| Fees.read := 1; Fees.write := 1 |}.

Definition example_initialized : Pallet nat Z unit := Eval vm_compute in
  default example_genesis (fst <$> on_initialize example_db false 0 NotFound 7%nat example_genesis).
Definition example_run {E A : Type} (d : A) (x : outcome E A) : A := match x with Ok a => a | _ => d end.
Definition example_inherent : Pallet nat Z unit := Eval vm_compute in
  example_run example_genesis
    (set_validation_data example_config true (example_data 5 7 example_relay) (CapacityValue 2) 7%nat example_initialized).
Definition example_finalized : Pallet nat Z unit := Eval vm_compute in
  default example_genesis (on_finalize example_encode 0 example_digest example_inherent).
(** The second block: the first one is in the segment, and got the head 8. *)
Definition example_second : Pallet nat Z unit := Eval vm_compute in
  default example_genesis (fst <$> on_initialize example_db false 0 NotFound 8%nat example_finalized).

Abbreviation example_step :=
  (block_step (H := nat) (Hdr := example_header) example_encode 0 (fun _ : unit => True)).

Lemma example_genesis_ok : genesis (fun _ => True) example_genesis.
Proof. split; try done. repeat constructor; vm_compute; discriminate. Qed.

Lemma example_relay_ok : relay_ok example_relay.
Proof.
  split; [vm_compute; split; [discriminate|reflexivity]..| |].
  - repeat constructor.
  - intros id c Hc. unfold get_channel, channel_index in Hc. cbn in Hc.
    destruct (decide (2000 = id)); cbn in Hc; [injection Hc as <-|done].
    split; vm_compute; (split; discriminate) || reflexivity.
Qed.

Lemma example_sound number head relay : relay_ok relay -> sound_relay (example_data number head relay).
Proof. intros Hr proof hc state [= <-] [= <-]. done. Qed.

Lemma example_to_inherent : rtc example_step (Finalized, example_genesis) (InherentDone, example_inherent).
Proof.
  eapply rtc_l; [eapply (step_initialize _ _ _ example_db false 0 NotFound 7%nat); vm_compute; reflexivity|].
  apply rtc_once. apply (step_inherent _ _ _ example_config (example_data 5 7 example_relay) (CapacityValue 2) 7%nat);
    [vm_compute; discriminate|apply example_sound, example_relay_ok|vm_compute; reflexivity].
Qed.

Lemma example_to_second : rtc example_step (Finalized, example_genesis) (Initialized, example_second).
Proof.
  eapply rtc_r; [eapply rtc_r; [apply example_to_inherent|]|].
  - apply (step_finalize _ _ _ example_digest _ example_finalized). vm_compute. reflexivity.
  - eapply (step_initialize _ _ _ example_db false 0 NotFound 8%nat). vm_compute. reflexivity.
Qed.

Lemma para_blocks_invariant_witness :
  exists a, UnincludedSegment example_second = [a] /\ para_head_hash a = Some 8%nat /\
    ump_msg_count (anc_used_bandwidth a) = 1 /\
    segment_ok [a] (default default_tracker (AggregatedUnincludedSegment example_second)) /\
    heads_named Initialized [a].
Proof.
  destruct (para_blocks_invariant (H := nat) (Hdr := example_header) example_encode 0 example_genesis Initialized example_second
    example_genesis_ok example_to_second) as (H1 & _ & H2 & _).
  eexists. split; [reflexivity|]. split; [reflexivity|]. split; [reflexivity|]. exact (conj H1 H2).
Defined.

(** The relay chain has included the first block: it is dropped. *)
Lemma inherent_drops_included_witness :
  exists p' proof h, set_validation_data example_config true (example_data 6 8 example_relay) (CapacityValue 2) 8%nat example_second = Ok p' /\
    inherent_accepts example_config (example_data 6 8 example_relay) (CapacityValue 2) 8%nat example_second proof h [] /\
    UnincludedSegment example_second <> [] /\ PendingApprovedPeer p' = Some [Byte.x07].
Proof.
  pose proof (inherent_drops_included (H := nat) (Hdr := example_header) example_encode 0 example_genesis example_second
    example_config (example_data 6 8 example_relay) (CapacityValue 2) 8%nat example_genesis_ok example_to_second
    ltac:(vm_compute; discriminate)) as Hi.
  destruct (set_validation_data example_config true (example_data 6 8 example_relay) (CapacityValue 2) 8%nat example_second)
    as [p'|e|] eqn:E; [|destruct Hi|vm_compute in E; discriminate E].
  destruct Hi as (proof & h & Ha & _ & _ & Hpeer). exists p', proof, h. split; [reflexivity|].
  assert (Es : UnincludedSegment p' = []) by (vm_compute in E; injection E as <-; reflexivity).
  rewrite Es in Ha. split; [exact Ha|]. split; [vm_compute; discriminate|exact Hpeer].
Defined.

Lemma example_within : within (segment_used (AggregatedUnincludedSegment example_inherent)) example_relay.
Proof.
  split; [vm_compute; discriminate..|]. intros id c Hc. apply (relay_channels _ example_relay_ok) in Hc.
  replace (channel _ id) with default_update by reflexivity. destruct Hc as [? ? _ _].
  cbn [upd_msg_count upd_total_bytes default_update]. lia.
Qed.

Lemma finalize_never_panics_witness :
  exists p' a, on_finalize example_encode 0 example_digest example_inherent = Some p' /\
    UnincludedSegment p' = UnincludedSegment example_inherent ++ [a] /\ accounts example_inherent a p'.
Proof.
  destruct (finalize_never_panics (H := nat) (Hdr := example_header) example_encode 0 example_genesis example_inherent example_digest
    (example_vfp 5) example_relay example_genesis_ok example_to_inherent eq_refl eq_refl example_within (fun _ _ => I))
    as (p' & a & H1 & H2 & H3 & _).
  exact (ex_intro _ p' (ex_intro _ a (conj H1 (conj H2 H3)))).
Defined.
