(* ===== verification/XcmpQueue.v ===== *)
(** * The queue of horizontal messages

    Model of the outbound side of [cumulus/pallets/xcmp-queue/src/lib.rs]: the
    state of the outgoing channels with their pages and signals, the sending of
    fragments and signals, suspension in both directions, and
    [take_outbound_messages], which [ParaSystem] calls at the end of a block.
    The storage of the pallet is one record; a [ValueQuery] map is a finite map
    with its default.  The encoding of a fragment is an argument.  [defensive!]
    logs and continues, plain [+] and [-] wrap as in a release build. *)

From stdpp Require Import base option numbers list gmap sorting.
From Stdlib Require Import ZArith Lia.
From Stdlib Require Import Strings.Byte.
From S2P Require Import Prelude Traits Arith128 Rational PerThing FixedPoint Weights.
From S2P Require Import Segment ParaSystem.
Local Open Scope Z_scope.

(** ** Data *)

Inductive XcmpMessageFormat : Set :=
| ConcatenatedVersionedXcm
| ConcatenatedEncodedBlob
| Signals
| ConcatenatedOpaqueVersionedXcm.

#[export] Instance XcmpMessageFormat_eq_dec : EqDecision XcmpMessageFormat.
Proof. solve_decision. Defined.

(** The derived codec: one byte, the index of the variant. *)
Definition encode_format (f : XcmpMessageFormat) : bytes :=
  match f with
  | ConcatenatedVersionedXcm => [x00]
  | ConcatenatedEncodedBlob => [x01]
  | Signals => [x02]
  | ConcatenatedOpaqueVersionedXcm => [x03]
  end.

Definition decode_format (page : bytes) : option XcmpMessageFormat :=
  match page with
  | x00 :: _ => Some ConcatenatedVersionedXcm
  | x01 :: _ => Some ConcatenatedEncodedBlob
  | x02 :: _ => Some Signals
  | x03 :: _ => Some ConcatenatedOpaqueVersionedXcm
  | _ => None
  end.

Inductive OutboundState : Set := StateOk | Suspended.

#[export] Instance OutboundState_eq_dec : EqDecision OutboundState.
Proof. solve_decision. Defined.

Inductive ChannelSignal : Set := Suspend | Resume.

Definition encode_signal_page (s : ChannelSignal) : bytes :=
  encode_format Signals ++ match s with Suspend => [x00] | Resume => [x01] end.

(** [OutboundChannelFlags]: the bits of a [u32]. *)
Module Flags.
Definition CONCATENATED_OPAQUE_VERSIONED_XCM_SUPPORT : Z := 1.
Definition CONCATENATED_OPAQUE_VERSIONED_XCM_NOTIFICATION_SENT : Z := Z.shiftl 1 1.
Definition empty : Z := 0.

Definition has_concatenated_opaque_versioned_xcm_support (self : Z) : bool :=
  negb (Z.land self CONCATENATED_OPAQUE_VERSIONED_XCM_SUPPORT =? empty).

Definition should_send_concatenated_opaque_versioned_xcm_notification (self : Z) : bool :=
  if has_concatenated_opaque_versioned_xcm_support self then false
  else if negb (Z.land self CONCATENATED_OPAQUE_VERSIONED_XCM_NOTIFICATION_SENT =? empty) then false
  else true.

Definition notice_concatenated_opaque_versioned_xcm_support (self : Z) : Z :=
  Z.lor self CONCATENATED_OPAQUE_VERSIONED_XCM_SUPPORT.

Definition notice_concatenated_opaque_versioned_xcm_notification_sent (self : Z) : Z :=
  Z.lor self CONCATENATED_OPAQUE_VERSIONED_XCM_NOTIFICATION_SENT.
End Flags.

Record OutboundChannelDetails : Set := mkDetails {
  recipient : ParaId;
  state : OutboundState;
  signals_exist : bool;
  first_index : Z;
  last_index : Z;
  flags : Z;
  queued_bytes : Z;
}.

Definition details_new (recipient : ParaId) : OutboundChannelDetails :=
  mkDetails recipient StateOk false 0 0 Flags.empty 0.

Definition with_signals (d : OutboundChannelDetails) : OutboundChannelDetails :=
  mkDetails (recipient d) (state d) true (first_index d) (last_index d) (flags d) (queued_bytes d).

Definition with_state (s : OutboundState) (d : OutboundChannelDetails) : OutboundChannelDetails :=
  mkDetails (recipient d) s (signals_exist d) (first_index d) (last_index d) (flags d) (queued_bytes d).

Definition with_flags (f : Z) (d : OutboundChannelDetails) : OutboundChannelDetails :=
  mkDetails (recipient d) (state d) (signals_exist d) (first_index d) (last_index d) f (queued_bytes d).

Record QueueConfigData : Set := mkQueueConfig {
  suspend_threshold : Z;
  drop_threshold : Z;
  resume_threshold : Z;
}.

Definition default_queue_config : QueueConfigData := mkQueueConfig 32 48 8.

Inductive QueueError : Set :=
| BadQueueConfig
| AlreadySuspended
| AlreadyResumed
| TooManyActiveOutboundChannels
| SignalTooBig
| RetryPage.

Definition validate (c : QueueConfigData) : outcome QueueError unit :=
  if (resume_threshold c <? suspend_threshold c) && (suspend_threshold c <=? drop_threshold c)
     && (0 <? resume_threshold c)
  then Ok tt else Err BadQueueConfig.

(** The storage of the pallet. *)
Record Queue : Type := mkQueue {
  OutboundXcmpStatus : list OutboundChannelDetails;
  OutboundXcmpMessages : gmap (ParaId * Z) bytes;
  SignalMessages : gmap ParaId bytes;
  DeliveryFeeFactor : gmap ParaId Z;
  InboundXcmpSuspended : gset ParaId;
  QueueConfig : QueueConfigData;
  QueueSuspended : bool;
}.

(** The bounds of the runtime's configuration. *)
Class QueueBounds : Set := {
  MaxPageSize : Z;
  MaxActiveOutboundChannels : Z;
  MaxInboundSuspended : Z;
}.

Definition set_status (l : list OutboundChannelDetails) (q : Queue) : Queue :=
  mkQueue l (OutboundXcmpMessages q) (SignalMessages q) (DeliveryFeeFactor q) (InboundXcmpSuspended q) (QueueConfig q) (QueueSuspended q).
Definition set_messages (m : gmap (ParaId * Z) bytes) (q : Queue) : Queue :=
  mkQueue (OutboundXcmpStatus q) m (SignalMessages q) (DeliveryFeeFactor q) (InboundXcmpSuspended q) (QueueConfig q) (QueueSuspended q).
Definition set_signals (m : gmap ParaId bytes) (q : Queue) : Queue :=
  mkQueue (OutboundXcmpStatus q) (OutboundXcmpMessages q) m (DeliveryFeeFactor q) (InboundXcmpSuspended q) (QueueConfig q) (QueueSuspended q).
Definition set_fees (m : gmap ParaId Z) (q : Queue) : Queue :=
  mkQueue (OutboundXcmpStatus q) (OutboundXcmpMessages q) (SignalMessages q) m (InboundXcmpSuspended q) (QueueConfig q) (QueueSuspended q).
Definition set_suspended (s : gset ParaId) (q : Queue) : Queue :=
  mkQueue (OutboundXcmpStatus q) (OutboundXcmpMessages q) (SignalMessages q) (DeliveryFeeFactor q) s (QueueConfig q) (QueueSuspended q).

Definition set_queue_config (c : QueueConfigData) (q : Queue) : Queue :=
  mkQueue (OutboundXcmpStatus q) (OutboundXcmpMessages q) (SignalMessages q) (DeliveryFeeFactor q)
          (InboundXcmpSuspended q) c (QueueSuspended q).
Definition set_queue_suspended (b : bool) (q : Queue) : Queue :=
  mkQueue (OutboundXcmpStatus q) (OutboundXcmpMessages q) (SignalMessages q) (DeliveryFeeFactor q)
          (InboundXcmpSuspended q) (QueueConfig q) b.

Definition message_at (q : Queue) (id : ParaId) (i : Z) : bytes := default [] (OutboundXcmpMessages q !! (id, i)).
Definition signal_of (q : Queue) (id : ParaId) : bytes := default [] (SignalMessages q !! id).

(** ** Calls

    The flag tells whether the check of the origin passes. *)

Inductive CallError : Set := BadOrigin | QueueErr (e : QueueError).

Definition suspend_xcm_execution (origin_ok : bool) (q : Queue) : outcome CallError Queue :=
  if negb origin_ok then Err BadOrigin
  else if QueueSuspended q then Err (QueueErr AlreadySuspended)
  else Ok (set_queue_suspended true q).

Definition resume_xcm_execution (origin_ok : bool) (q : Queue) : outcome CallError Queue :=
  if negb origin_ok then Err BadOrigin
  else if negb (QueueSuspended q) then Err (QueueErr AlreadyResumed)
  else Ok (set_queue_suspended false q).

(** [QueueConfig::try_mutate] followed by the validation: an error leaves the
    stored configuration. *)
Definition try_mutate_config (origin_ok : bool) (f : QueueConfigData -> QueueConfigData) (q : Queue) : outcome CallError Queue :=
  if negb origin_ok then Err BadOrigin
  else match validate (f (QueueConfig q)) with
       | Ok _ => Ok (set_queue_config (f (QueueConfig q)) q)
       | Err e => Err (QueueErr e)
       | Panic => Panic
       end.

Definition update_suspend_threshold (origin_ok : bool) (new : Z) : Queue -> outcome CallError Queue :=
  try_mutate_config origin_ok (fun data => mkQueueConfig new (drop_threshold data) (resume_threshold data)).
Definition update_drop_threshold (origin_ok : bool) (new : Z) : Queue -> outcome CallError Queue :=
  try_mutate_config origin_ok (fun data => mkQueueConfig (suspend_threshold data) new (resume_threshold data)).
Definition update_resume_threshold (origin_ok : bool) (new : Z) : Queue -> outcome CallError Queue :=
  try_mutate_config origin_ok (fun data => mkQueueConfig (suspend_threshold data) (drop_threshold data) new).

(** [QueuePausedQuery]; [is_controller] is the conversion of the origin of a
    sibling and its check against the controller origin. *)
Definition xcmp_is_paused (is_controller : ParaId -> bool) (para : ParaId) (q : Queue) : bool :=
  QueueSuspended q && negb (is_controller para).

(** ** Delivery fees *)

Definition get_fee_factor (id : ParaId) (q : Queue) : Z :=
  default FeeTracker.MIN_FEE_FACTOR (DeliveryFeeFactor q !! id).

Definition set_fee_factor (id : ParaId) (val : Z) (q : Queue) : Queue :=
  set_fees (<[id := val]> (DeliveryFeeFactor q)) q.

Definition increase_fee_factor (id : ParaId) (message_size : Z) (q : Queue) : Queue :=
  set_fee_factor id (FeeTracker.do_increase_fee_factor (get_fee_factor id q) message_size) q.

Definition decrease_fee_factor (id : ParaId) (q : Queue) : option Queue :=
  '(fee_factor, _) ← FeeTracker.do_decrease_fee_factor (get_fee_factor id q);
  Some (set_fee_factor id fee_factor q).

Definition THRESHOLD_FACTOR : Z := 2.
Definition MAX_POSSIBLE_ALLOCATION : Z := 33554432.

Section queue.
Context `{QueueBounds}.

(** ** Channels *)

Definition channel_position (all_channels : list OutboundChannelDetails) (id : ParaId) : option nat :=
  position (fun d => recipient d =? id) all_channels.

Definition try_get_outbound_channel (all_channels : list OutboundChannelDetails) (id : ParaId) :
    option OutboundChannelDetails :=
  i ← channel_position all_channels id; all_channels !! i.

Definition try_push (d : OutboundChannelDetails) (l : list OutboundChannelDetails) :
    option (list OutboundChannelDetails) :=
  if zlen l <? MaxActiveOutboundChannels then Some (l ++ [d]) else None.

(** The channels and the index of the one for [id]. *)
Definition try_get_or_insert_outbound_channel (all_channels : list OutboundChannelDetails) (id : ParaId) :
    option (list OutboundChannelDetails * nat) :=
  match channel_position all_channels id with
  | Some i => Some (all_channels, i)
  | None => l ← try_push (details_new id) all_channels; Some (l, length all_channels)
  end.

(** ** Sending *)

(** The last page, if it has the format and room for the fragment. *)
Definition existing_page (id : ParaId) (format : XcmpMessageFormat) (fragment_len max_message_size : Z)
    (d : OutboundChannelDetails) (q : Queue) : option bytes :=
  if first_index d <? last_index d then
    let page := message_at q id (last_index d - 1) in
    if negb (bool_decide (decode_format page = Some format)) then None
    else if max_message_size <? zlen page + fragment_len then None
    else Some page
  else None.

(** The number of pages queued and the new storage. *)
Definition send_fragment (get_channel_info : ParaId -> option ChannelInfo) (id : ParaId)
    (format : XcmpMessageFormat) (encoded_fragment : bytes) (q : Queue) :
    outcome MessageSendError (Z * Queue) :=
  let encoded_fragment_len := zlen encoded_fragment in
  obind (ok_or NoChannel (get_channel_info id)) (fun channel_info =>
  let max_message_size := Z.min (info_max_message_size channel_info) MaxPageSize in
  let format_size := zlen (encode_format format) in
  obind (ok_or TooBig (checked_add 64 encoded_fragment_len format_size)) (fun size_to_check =>
  if max_message_size <? size_to_check then Err TooBig
  else
  obind (ok_or TooManyChannels (try_get_or_insert_outbound_channel (OutboundXcmpStatus q) id)) (fun '(all_channels, i) =>
  obind (expect (all_channels !! i)) (fun d =>
  let d :=
    match format with
    | ConcatenatedOpaqueVersionedXcm =>
      with_flags (Flags.notice_concatenated_opaque_versioned_xcm_notification_sent (flags d)) d
    | _ => d
    end in
  let '(current_page, last, queued) :=
    match existing_page id format encoded_fragment_len max_message_size d q with
    | Some page => (page, last_index d, queued_bytes d)
    | None =>
      let new_page := encode_format format in
      (new_page, wrapping 16 (last_index d + 1), saturating_add 32 (queued_bytes d) (wrapping 32 (zlen new_page)))
    end in
  let current_page := current_page ++ encoded_fragment in
  let queued := saturating_add 32 queued (wrapping 32 encoded_fragment_len) in
  let d := mkDetails (recipient d) (state d) (signals_exist d) (first_index d) last (flags d) queued in
  if MaxPageSize <? zlen current_page then Err TooBig
  else
  let page_count := saturating_sub last (first_index d) in
  let q := set_messages (<[(id, wrapping 16 (last - 1)) := current_page]> (OutboundXcmpMessages q)) q in
  let threshold := info_max_total_size channel_info / THRESHOLD_FACTOR in
  let q := if threshold <? queued then increase_fee_factor id encoded_fragment_len q else q in
  Ok (page_count, set_status (<[i := d]> all_channels) q))))).

Definition send_signal (dest : ParaId) (signal : ChannelSignal) (q : Queue) : outcome QueueError Queue :=
  obind (match channel_position (OutboundXcmpStatus q) dest with
         | Some i => Ok (alter with_signals i (OutboundXcmpStatus q))
         | None => ok_or TooManyActiveOutboundChannels
                     (try_push (with_signals (details_new dest)) (OutboundXcmpStatus q))
         end) (fun s =>
  let page := encode_signal_page signal in
  if MaxPageSize <? zlen page then Err SignalTooBig
  else Ok (set_status s (set_signals (<[dest := page]> (SignalMessages q)) q))).

(** ** Suspension *)

Definition suspend_channel (target : ParaId) (q : Queue) : Queue :=
  match channel_position (OutboundXcmpStatus q) target with
  | Some i => set_status (alter (with_state Suspended) i (OutboundXcmpStatus q)) q
  | None =>
    match try_push (with_state Suspended (details_new target)) (OutboundXcmpStatus q) with
    | Some s => set_status s q
    | None => q
    end
  end.

Definition resume_channel (target : ParaId) (q : Queue) : Queue :=
  match channel_position (OutboundXcmpStatus q) target with
  | Some i =>
    match OutboundXcmpStatus q !! i with
    | Some d =>
      if first_index d =? last_index d then set_status (delete i (OutboundXcmpStatus q)) q
      else set_status (<[i := with_state StateOk d]> (OutboundXcmpStatus q)) q
    | None => q
    end
  | None => q
  end.

(** The inbound queue of [para] has [ready_pages] pages now. *)
Definition on_queue_changed (para : ParaId) (ready_pages : Z) (q : Queue) : Queue :=
  let suspended_channels := InboundXcmpSuspended q in
  let suspended := bool_decide (para ∈ suspended_channels) in
  if suspended && (ready_pages <=? resume_threshold (QueueConfig q)) then
    match send_signal para Resume q with
    | Ok q => set_suspended (suspended_channels ∖ {[ para ]}) q
    | _ => q
    end
  else if negb suspended && (suspend_threshold (QueueConfig q) <=? ready_pages) then
    match send_signal para Suspend q with
    | Ok q =>
      if Z.of_nat (size suspended_channels) <? MaxInboundSuspended
      then set_suspended ({[ para ]} ∪ suspended_channels) q
      else q
    | _ => q
    end
  else q.

(** [target] sent a page of opaque messages, so it can read them. *)
Definition notice_opaque_support (target : ParaId) (q : Queue) : Queue :=
  match try_get_or_insert_outbound_channel (OutboundXcmpStatus q) target with
  | Some (all_channels, i) =>
    set_status
      (alter (fun d => with_flags (Flags.notice_concatenated_opaque_versioned_xcm_support (flags d)) d) i all_channels) q
  | None => set_status (OutboundXcmpStatus q) q
  end.

Definition clear_messages (q : Queue) : Queue :=
  set_status ((fun d => mkDetails (recipient d) (state d) (signals_exist d) 0 0 (flags d) 0) <$> OutboundXcmpStatus q)
             (set_messages ∅ q).

(** ** Taking the messages of a block *)

(** The ['page_fetch] block: the page to send, or [None] when the channel waits. *)
Definition fetch_page (max_size_now : Z) (d : OutboundChannelDetails) (q : Queue) :
    option (bytes * OutboundChannelDetails * Queue) :=
  let id := recipient d in
  if signals_exist d then
    let page := signal_of q id in
    if zlen page <? max_size_now then
      Some (page, mkDetails id (state d) false (first_index d) (last_index d) (flags d) (queued_bytes d),
            set_signals (delete id (SignalMessages q)) q)
    else None
  else if bool_decide (state d = Suspended) then None
  else
    let page := message_at q id (first_index d) in
    if (first_index d <? last_index d) && (zlen page <? max_size_now) then
      Some (page, mkDetails id (state d) (signals_exist d) (wrapping 16 (first_index d + 1)) (last_index d)
                            (flags d) (saturating_sub (queued_bytes d) (wrapping 32 (zlen page))),
            set_messages (delete (id, first_index d) (OutboundXcmpMessages q)) q)
    else if Flags.should_send_concatenated_opaque_versioned_xcm_notification (flags d) then
      let page := encode_format ConcatenatedOpaqueVersionedXcm in
      if MaxPageSize <? zlen page then None
      else
        Some (page, with_flags (Flags.notice_concatenated_opaque_versioned_xcm_notification_sent (flags d)) d, q)
    else None.

(** What a closed channel leaves behind is removed. *)
Definition discard (d : OutboundChannelDetails) (q : Queue) : Queue :=
  let q := set_messages
    (foldl (fun m i => delete (recipient d, first_index d + Z.of_nat i) m) (OutboundXcmpMessages q)
           (seq 0 (Z.to_nat (last_index d - first_index d)))) q in
  if signals_exist d then set_signals (delete (recipient d) (SignalMessages q)) q else q.

Definition reset_if_empty (d : OutboundChannelDetails) : OutboundChannelDetails :=
  if first_index d =? last_index d
  then mkDetails (recipient d) (state d) (signals_exist d) 0 0 (flags d) 0
  else d.

(** The closure of [retain_mut]: the details to retain, if any, the messages
    taken so far and the storage. *)
Definition attend (get_channel_status : ParaId -> ChannelStatus) (get_channel_info : ParaId -> option ChannelInfo)
    (max_message_count : Z) (excluded_recipients : list ParaId) (d : OutboundChannelDetails)
    (result : list (ParaId * bytes)) (q : Queue) :
    option (option OutboundChannelDetails * list (ParaId * bytes) * Queue) :=
  let id := recipient d in
  match get_channel_status id with
  | Closed => Some (None, result, discard d q)
  | Full => Some (Some d, result, q)
  | Ready max_size_now max_size_ever =>
    if bool_decide (id ∈ excluded_recipients) then Some (Some d, result, q)
    else if zlen result =? max_message_count then Some (Some d, result, q)
    else
      match fetch_page max_size_now d q with
      | None => Some (Some d, result, q)
      | Some (page, d, q) =>
        let d := reset_if_empty d in
        let result := if max_size_ever <? zlen page then result else result ++ [(id, page)] in
        let max_total_size :=
          match get_channel_info id with
          | Some channel_info => info_max_total_size channel_info
          | None => MAX_POSSIBLE_ALLOCATION
          end in
        let threshold := max_total_size / THRESHOLD_FACTOR in
        if queued_bytes d <=? threshold
        then q ← decrease_fee_factor id q; Some (Some d, result, q)
        else Some (Some d, result, q)
      end
  end.

(** [retain_mut]. *)
Fixpoint retain_mut (f : OutboundChannelDetails -> list (ParaId * bytes) -> Queue ->
      option (option OutboundChannelDetails * list (ParaId * bytes) * Queue))
    (statuses : list OutboundChannelDetails) (result : list (ParaId * bytes)) (q : Queue) :
    option (list OutboundChannelDetails * list (ParaId * bytes) * Queue) :=
  match statuses with
  | [] => Some ([], result, q)
  | d :: statuses =>
    '(kept, result, q) ← f d result q;
    '(rest, result, q) ← retain_mut f statuses result q;
    Some (option_list kept ++ rest, result, q)
  end.

(** [BoundedVec::try_rotate_left]: an error, and no change, out of range. *)
Definition try_rotate_left (n : nat) (l : list OutboundChannelDetails) : list OutboundChannelDetails :=
  if Nat.leb n (length l) then drop n l ++ take n l else l.

Definition xcmp_take_outbound_messages (get_channel_status : ParaId -> ChannelStatus)
    (get_channel_info : ParaId -> option ChannelInfo) (maximum_channels : Z)
    (excluded_recipients : list ParaId) (q : Queue) : option (list (ParaId * bytes) * Queue) :=
  let statuses := OutboundXcmpStatus q in
  let max_message_count := Z.min (zlen statuses) maximum_channels in
  '(kept, result, q) ← retain_mut (attend get_channel_status get_channel_info max_message_count excluded_recipients)
                          statuses [] q;
  let pruned := (length statuses - length kept)%nat in
  Some (merge_sort key_le result, set_status (try_rotate_left (length result - pruned) kept) q).

#[export] Instance xcmp_queue_source : XcmpMessageSource Queue := xcmp_take_outbound_messages.
End queue.
