(* ===== verification/XcmpQueueProofs.v ===== *)
(** * Correctness of the queue of horizontal messages

    Every channel is a first-in first-out queue of pages: sending appends, a
    block takes at most one page from the front, and nothing else is lost or
    duplicated.  The cached byte counts are exact.  The queue discharges the
    interface [ParaSystem] relies on, except for one case: the notification page
    is handed over without a look at the room left in the channel. *)

From stdpp Require Import base option numbers list gmap sorting.
From Stdlib Require Import ZArith Lia.
From Stdlib Require Import Strings.Byte.
From S2P Require Import Prelude Traits Arith128 Rational PerThing FixedPoint Weights.
From S2P Require Import Segment SegmentProofs Descendants ParaSystem ParaSystemProofs XcmpQueue.
Local Open Scope Z_scope.

Lemma Forall2_impl_in {A B : Type} (P Q : A -> B -> Prop) l k :
  Forall2 P l k -> (forall x y, x ∈ l -> P x y -> Q x y) -> Forall2 Q l k.
Proof.
  induction 1 as [|x y l k Hxy _ IH]; intros Hi; constructor; [apply Hi; [left|done]|].
  apply IH. intros x' y' Hin. apply Hi. by right.
Qed.

#[local] Instance key_le_trans {V : Type} : Transitive (@key_le V).
Proof. intros a b c. unfold key_le. lia. Qed.

#[local] Instance key_le_total {V : Type} : Total (@key_le V).
Proof. intros a b. unfold key_le. lia. Qed.

Section queue_proofs.
Context `{QueueBounds}.
Implicit Types (q : Queue) (d : OutboundChannelDetails) (id : ParaId).

(** ** Invariant *)

(** The pages of a channel, oldest first. *)
Definition page_range q id (first : Z) (n : nat) : list bytes :=
  (fun i => message_at q id (first + Z.of_nat i)) <$> seq 0 n.

Definition pages q d : list bytes :=
  page_range q (recipient d) (first_index d) (Z.to_nat (last_index d - first_index d)).

Record details_ok q d : Prop := {
  det_first : 0 <= first_index d <= last_index d;
  det_last : last_index d <= umax 16;
  det_pages : forall i, first_index d <= i < last_index d -> is_Some (OutboundXcmpMessages q !! (recipient d, i));
  det_only : forall i, is_Some (OutboundXcmpMessages q !! (recipient d, i)) -> first_index d <= i < last_index d;
  det_bytes : queued_bytes d = bytes_of (pages q d);
  det_bytes_u : is_uint 32 (queued_bytes d);
  det_signals : signals_exist d = true -> is_Some (SignalMessages q !! recipient d);
}.

Definition fees_ok q : Prop :=
  forall id, FeeTracker.MIN_FEE_FACTOR <= get_fee_factor id q <= umax 128.

Record queue_ok q : Prop := {
  que_distinct : NoDup (recipient <$> OutboundXcmpStatus q);
  que_details : Forall (details_ok q) (OutboundXcmpStatus q);
  que_only : forall id i, is_Some (OutboundXcmpMessages q !! (id, i)) -> id ∈ recipient <$> OutboundXcmpStatus q;
  que_fees : fees_ok q;
  que_signals : map_Forall (fun _ page => decode_format page = Some Signals) (SignalMessages q);
}.

(** Two states that agree on what they store for a recipient. *)
Definition agree id q q' : Prop :=
  (forall i, OutboundXcmpMessages q !! (id, i) = OutboundXcmpMessages q' !! (id, i)) /\
  SignalMessages q !! id = SignalMessages q' !! id.

#[local] Instance agree_equivalence id : Equivalence (agree id).
Proof.
  unfold agree. split.
  - intros q. done.
  - intros q1 q2 [H1 H2]. split; [|done]. intros i. by rewrite H1.
  - intros q1 q2 q3 [H1 H2] [H3 H4]. split; [|congruence]. intros i. by rewrite H1.
Qed.

Lemma agree_pages q q' d : agree (recipient d) q q' -> pages q d = pages q' d.
Proof.
  intros [Ha _]. unfold pages, page_range. apply list_fmap_ext. intros i x _. unfold message_at. by rewrite Ha.
Qed.

Lemma agree_ok q q' d : agree (recipient d) q q' -> details_ok q d -> details_ok q' d.
Proof.
  intros Ha [D1 D2 D3 D4 D5 D6 D7]. pose proof (agree_pages _ _ _ Ha) as Hp. destruct Ha as [Ha Hs].
  split; try done.
  - intros i Hi. rewrite <- Ha. auto.
  - intros i Hi. rewrite <- Ha in Hi. auto.
  - congruence.
  - rewrite <- Hs. done.
Qed.

Lemma page_range_cons q id first n :
  page_range q id first (S n) = message_at q id first :: page_range q id (first + 1) n.
Proof.
  unfold page_range. cbn [seq fmap list_fmap]. rewrite Z.add_0_r. f_equal.
  rewrite <- (fmap_S_seq 0 n), <- list_fmap_compose. apply list_fmap_ext. intros i x _. cbn. f_equal. lia.
Qed.

Lemma page_range_snoc q id first n :
  page_range q id first (S n) = page_range q id first n ++ [message_at q id (first + Z.of_nat n)].
Proof. unfold page_range. by rewrite seq_S, fmap_app. Qed.

Lemma page_range_same q q' id first n :
  (forall i, first <= i < first + Z.of_nat n -> message_at q id i = message_at q' id i) ->
  page_range q id first n = page_range q' id first n.
Proof.
  intros Hm. unfold page_range. apply list_fmap_ext. intros i x Hx. apply lookup_seq in Hx as [-> ?].
  apply Hm. lia.
Qed.

Lemma page_range_length q id first n : length (page_range q id first n) = n.
Proof. unfold page_range. by rewrite length_fmap, length_seq. Qed.

(** ** A page of a channel *)

(** What sending [page] over the channel of [d] means. *)
Inductive sent (now : Z) d q (page : bytes) d' q' : Prop :=
| sent_signal :
  signals_exist d = true -> signals_exist d' = false ->
  page = signal_of q (recipient d) -> zlen page < now ->
  pages q' d' = pages q d -> sent now d q page d' q'
| sent_page :
  signals_exist d = false -> state d = StateOk -> zlen page < now ->
  pages q d = page :: pages q' d' -> sent now d q page d' q'
| sent_notification :
  signals_exist d = false -> state d = StateOk ->
  Flags.should_send_concatenated_opaque_versioned_xcm_notification (flags d) = true ->
  Flags.should_send_concatenated_opaque_versioned_xcm_notification (flags d') = false ->
  page = encode_format ConcatenatedOpaqueVersionedXcm ->
  pages q' d' = pages q d -> sent now d q page d' q'.

(** Only the entries of one recipient change, and the fees are left alone. *)
Record only_of id q q' : Prop := {
  only_status : OutboundXcmpStatus q' = OutboundXcmpStatus q;
  only_fees : DeliveryFeeFactor q' = DeliveryFeeFactor q;
  only_agree : forall id', id' <> id -> agree id' q q';
  only_signals : SignalMessages q' ⊆ SignalMessages q;
}.

Lemma notice_sent_flag f :
  Flags.should_send_concatenated_opaque_versioned_xcm_notification
    (Flags.notice_concatenated_opaque_versioned_xcm_notification_sent f) = false.
Proof.
  unfold Flags.should_send_concatenated_opaque_versioned_xcm_notification,
    Flags.notice_concatenated_opaque_versioned_xcm_notification_sent,
    Flags.CONCATENATED_OPAQUE_VERSIONED_XCM_NOTIFICATION_SENT, Flags.empty.
  destruct (Flags.has_concatenated_opaque_versioned_xcm_support _); [done|].
  destruct (Z.eqb_spec (Z.land (Z.lor f (Z.shiftl 1 1)) (Z.shiftl 1 1)) 0) as [E|]; [|done].
  apply (f_equal (fun x => Z.testbit x 1)) in E. rewrite Z.land_spec, Z.lor_spec in E.
  change (Z.testbit (Z.shiftl 1 1) 1) with true in E. rewrite Bool.orb_true_r in E. discriminate.
Qed.

Lemma take_front q d :
  details_ok q d -> first_index d < last_index d ->
  let page := message_at q (recipient d) (first_index d) in
  let d' := mkDetails (recipient d) (state d) (signals_exist d) (wrapping 16 (first_index d + 1)) (last_index d)
              (flags d) (saturating_sub (queued_bytes d) (wrapping 32 (zlen page))) in
  let q' := set_messages (delete (recipient d, first_index d) (OutboundXcmpMessages q)) q in
  details_ok q' d' /\ pages q d = page :: pages q' d'.
Proof.
  intros [D1 D2 D3 D4 D5 D6 D7] Hlt page d' q'.
  assert (Ew : wrapping 16 (first_index d + 1) = first_index d + 1) by (apply wrapping_id; unfold is_uint; lia).
  assert (Hp : pages q d = page :: pages q' d').
  { unfold pages, d'. cbn [recipient first_index last_index]. rewrite Ew.
    replace (Z.to_nat (last_index d - first_index d)) with (S (Z.to_nat (last_index d - (first_index d + 1)))) by lia.
    rewrite page_range_cons. f_equal. apply page_range_same. intros i Hi. unfold message_at, q'. cbn.
    rewrite lookup_delete_ne; [done|]. intros [=]. lia. }
  split; [|done]. rewrite Hp in D5. cbn in D5. fold (bytes_of (pages q' d')) in D5.
  pose proof (bytes_of_nonneg (pages q' d')) as Hn. assert (Hz : 0 <= zlen page) by (unfold zlen; lia).
  unfold is_uint in D6.
  assert (Es : saturating_sub (queued_bytes d) (wrapping 32 (zlen page)) = bytes_of (pages q' d')).
  { rewrite wrapping_id by (unfold is_uint; lia). unfold saturating_sub. lia. }
  assert (Ed : d' = mkDetails (recipient d) (state d) (signals_exist d) (first_index d + 1) (last_index d)
    (flags d) (bytes_of (pages q' d'))) by (unfold d' at 1; by rewrite Ew, Es).
  remember (bytes_of (pages q' d')) as b eqn:Eb. rewrite Ed.
  split; cbn; unfold is_uint; try done; try lia.
  - intros i Hi. rewrite lookup_delete_ne by (intros [=]; lia). apply D3. lia.
  - intros i Hi. destruct (decide (i = first_index d)) as [->|Hne].
    + rewrite lookup_delete_eq in Hi. by destruct Hi.
    + rewrite lookup_delete_ne in Hi by (intros [=]; lia). apply D4 in Hi. lia.
  - rewrite Eb at 1. unfold pages, d'. cbn. by rewrite Ew.
Qed.

Lemma fetch_spec now d q page d' q' :
  details_ok q d -> fetch_page now d q = Some (page, d', q') ->
  recipient d' = recipient d /\ details_ok q' d' /\ sent now d q page d' q' /\ only_of (recipient d) q q'.
Proof.
  intros Hd Hf. unfold fetch_page in Hf. destruct (signals_exist d) eqn:Hs.
  - destruct (Z.ltb_spec (zlen (signal_of q (recipient d))) now) as [Hl|]; [|done]. injection Hf as <- <- <-.
    split; [done|]. split; [|split].
    + destruct Hd as [D1 D2 D3 D4 D5 D6 D7]. by split.
    + by apply sent_signal.
    + split; [done..| |apply delete_subseteq]. intros id Hid. split; [done|]. cbn. by rewrite lookup_delete_ne.
  - case_bool_decide as Hst; [done|]. assert (state d = StateOk) as Hok by by destruct (state d).
    destruct ((first_index d <? last_index d) && _) eqn:Hc.
    + apply andb_true_iff in Hc as [Hc1%Z.ltb_lt Hc2%Z.ltb_lt]. injection Hf as <- <- <-.
      destruct (take_front q d Hd Hc1) as [Hd' Hp]. rewrite Hs in *. split; [done|]. split; [done|]. split.
      * by apply sent_page.
      * split; [done..| |done]. intros id Hid. split; [|done]. intros i. cbn. rewrite lookup_delete_ne; [done|congruence].
    + destruct (Flags.should_send_concatenated_opaque_versioned_xcm_notification _) eqn:Hn; [|done].
      destruct (MaxPageSize <? _); [done|]. injection Hf as <- <- <-. split; [done|]. split; [|split].
      * destruct Hd as [D1 D2 D3 D4 D5 D6 D7]. by split.
      * apply sent_notification; try done. apply notice_sent_flag.
      * by split.
Qed.

Lemma reset_ok q d :
  details_ok q d ->
  details_ok q (reset_if_empty d) /\ pages q (reset_if_empty d) = pages q d /\
  recipient (reset_if_empty d) = recipient d /\ signals_exist (reset_if_empty d) = signals_exist d /\
  flags (reset_if_empty d) = flags d.
Proof.
  intros Hd. unfold reset_if_empty. destruct (Z.eqb_spec (first_index d) (last_index d)) as [E|]; [|done].
  assert (Hp : pages q d = []) by (unfold pages; by rewrite E, Z.sub_diag).
  split; [|done]. destruct Hd as [D1 D2 D3 D4 D5 D6 D7]. split; cbn; try done.
  - intros i Hi. lia.
  - intros i Hi. apply D4 in Hi. lia.
Qed.

(** ** One channel *)

(** What a block did with the channel of [d], whose status is [st]: the details
    kept, the page handed over, and the storage. *)
Inductive outcome_of (st : ChannelStatus) d q (q' : Queue) : option OutboundChannelDetails -> option bytes -> Prop :=
| out_closed :
  st = Closed -> (forall i, OutboundXcmpMessages q' !! (recipient d, i) = None) -> outcome_of st d q q' None None
| out_wait : st <> Closed -> pages q' d = pages q d -> outcome_of st d q q' (Some d) None
| out_sent now ever page d' :
  st = Ready now ever -> recipient d' = recipient d -> sent now d q page d' q' -> zlen page <= ever ->
  outcome_of st d q q' (Some d') (Some page)
| out_oversize now ever page d' :
  st = Ready now ever -> recipient d' = recipient d -> sent now d q page d' q' -> ever < zlen page ->
  outcome_of st d q q' (Some d') None.

Lemma sent_transport now d q1 q2 page d1 q1' d2 q2' :
  agree (recipient d) q1 q2 -> pages q1' d1 = pages q2' d2 ->
  signals_exist d1 = signals_exist d2 -> flags d1 = flags d2 ->
  sent now d q1 page d1 q1' -> sent now d q2 page d2 q2'.
Proof.
  intros Ha Hp Hs Hf Hsent. pose proof (agree_pages _ _ _ Ha) as Hpd. destruct Ha as [_ Hsig].
  destruct Hsent; [apply sent_signal|apply sent_page|apply sent_notification]; try congruence.
  unfold signal_of in *. by rewrite <- Hsig.
Qed.

Lemma outcome_transport st d q1 q2 q1' q2' kept page :
  agree (recipient d) q1 q2 -> agree (recipient d) q1' q2' ->
  outcome_of st d q1 q1' kept page -> outcome_of st d q2 q2' kept page.
Proof.
  intros Ha Ha' Ho. destruct Ho as [Hc Hn|Hc Hp|now ever page d' Hc Hr Hs Hl|now ever page d' Hc Hr Hs Hl].
  - apply out_closed; [done|]. intros i. destruct Ha' as [Ha' _]. by rewrite <- Ha'.
  - apply out_wait; [done|]. by rewrite <- (agree_pages _ _ _ Ha'), <- (agree_pages _ _ _ Ha).
  - eapply out_sent; [done..| |done]. eapply sent_transport; [done| |done..|done].
    apply agree_pages. by rewrite Hr.
  - eapply out_oversize; [done..| |done]. eapply sent_transport; [done| |done..|done].
    apply agree_pages. by rewrite Hr.
Qed.

Lemma discard_ok d q :
  details_ok q d ->
  (forall i, OutboundXcmpMessages (discard d q) !! (recipient d, i) = None) /\ only_of (recipient d) q (discard d q).
Proof.
  intros [D1 D2 D3 D4 D5 D6 D7].
  set (m := foldl (fun m i => delete (recipient d, first_index d + Z.of_nat i) m) (OutboundXcmpMessages q)
              (seq 0 (Z.to_nat (last_index d - first_index d)))).
  assert (Hm : OutboundXcmpMessages (discard d q) = m) by (unfold discard; by destruct (signals_exist d)).
  assert (Hgen : forall l (m0 : gmap (ParaId * Z) bytes) k,
    foldl (fun m i => delete (recipient d, first_index d + Z.of_nat i) m) m0 l !! k
      = (if decide (k ∈ (fun i => (recipient d, first_index d + Z.of_nat i)) <$> l) then None else m0 !! k)).
  { induction l as [|j l IH]; intros m0 k; [done|]. cbn [foldl fmap list_fmap]. rewrite IH.
    destruct (decide (k ∈ _ <$> l)) as [Hin|Hin]; [by rewrite decide_True by (by right)|].
    destruct (decide (k = (recipient d, first_index d + Z.of_nat j))) as [->|Hne].
    - rewrite lookup_delete_eq, decide_True; [done|by left].
    - rewrite lookup_delete_ne by congruence. rewrite decide_False; [done|]. by rewrite not_elem_of_cons. }
  rewrite Hm. split.
  - intros i. unfold m. rewrite Hgen. destruct (decide _) as [|Hni]; [done|].
    destruct (OutboundXcmpMessages q !! (recipient d, i)) as [x|] eqn:Hx; [|done]. exfalso. apply Hni.
    assert (first_index d <= i < last_index d) by (apply D4; by rewrite Hx).
    apply list_elem_of_fmap. exists (Z.to_nat (i - first_index d)). split; [f_equal; lia|].
    apply elem_of_seq. lia.
  - split; [unfold discard; by destruct (signals_exist d)..| |].
    2: { unfold discard. destruct (signals_exist d); [apply delete_subseteq|done]. }
    intros id Hid. split.
    + intros i. rewrite Hm. unfold m. rewrite Hgen. rewrite decide_False; [done|].
      intros (j & [=] & _)%list_elem_of_fmap. done.
    + unfold discard. destruct (signals_exist d); [|done]. cbn. by rewrite lookup_delete_ne.
Qed.

Lemma set_fee_ok id fee q :
  fees_ok q -> FeeTracker.MIN_FEE_FACTOR <= fee <= umax 128 -> fees_ok (set_fee_factor id fee q).
Proof.
  intros Hq Hf id'. unfold get_fee_factor, set_fee_factor. cbn.
  destruct (decide (id = id')) as [->|Hne]; [by rewrite lookup_insert_eq|].
  rewrite lookup_insert_ne by done. apply Hq.
Qed.

Lemma decrease_fee_total id q :
  fees_ok q -> exists fee, decrease_fee_factor id q = Some (set_fee_factor id fee q) /\
    fees_ok (set_fee_factor id fee q).
Proof.
  intros Hq. destruct (decrease_fee_spec _ (Hq id)) as (fee & b & Hd & Hf). pose proof (Hq id).
  exists fee. unfold decrease_fee_factor. rewrite Hd. split; [done|]. apply set_fee_ok; [done|lia].
Qed.

Section taking.
Context (status : ParaId -> ChannelStatus) (info : ParaId -> option ChannelInfo).
Context (count : Z) (excluded : list ParaId).

(** One run of the closure. *)
Record attended d (result : list (ParaId * bytes)) q kept page (q' : Queue) : Prop := {
  att_run : attend status info count excluded d result q
    = Some (kept, result ++ option_list ((recipient d,.) <$> page), q');
  att_outcome : outcome_of (status (recipient d)) d q q' kept page;
  att_kept : forall d', kept = Some d' -> recipient d' = recipient d /\ details_ok q' d';
  att_fees : fees_ok q';
  att_status : OutboundXcmpStatus q' = OutboundXcmpStatus q;
  att_frame : forall id, id <> recipient d -> agree id q q';
  att_signals : SignalMessages q' ⊆ SignalMessages q;
  att_limit : is_Some page -> zlen result <> count /\ recipient d ∉ excluded;
}.

Lemma attended_wait d result q :
  details_ok q d -> fees_ok q -> status (recipient d) <> Closed ->
  attend status info count excluded d result q = Some (Some d, result, q) ->
  attended d result q (Some d) None q.
Proof.
  intros Hd Hf Hs Hr. split; try done.
  - cbn. by rewrite app_nil_r.
  - by apply out_wait.
  - by intros d' [= <-].
Qed.

Lemma attend_spec d result q :
  details_ok q d -> fees_ok q -> exists kept page q', attended d result q kept page q'.
Proof.
  intros Hd Hfees. destruct (status (recipient d)) as [| |now ever] eqn:Hst.
  - exists None, None, (discard d q). destruct (discard_ok d q Hd) as [Hn [O1 O2 O3 O4]]. split; try done.
    + unfold attend. rewrite Hst. cbn. by rewrite app_nil_r.
    + apply out_closed; done.
    + unfold fees_ok, get_fee_factor. rewrite O2. apply Hfees.
  - exists (Some d), None, q. apply attended_wait; try done; [congruence|]. unfold attend. by rewrite Hst.
  - assert (Hwait : attend status info count excluded d result q = Some (Some d, result, q) ->
      exists kept page q', attended d result q kept page q').
    { intros Hr. exists (Some d), None, q. apply attended_wait; try done. congruence. }
    destruct (decide (recipient d ∈ excluded)) as [Hex|Hex].
    { apply Hwait. unfold attend. by rewrite Hst, bool_decide_true. }
    destruct (zlen result =? count) eqn:Hcount.
    { apply Hwait. unfold attend. by rewrite Hst, bool_decide_false, Hcount by done. }
    destruct (fetch_page now d q) as [[[page d1] q1]|] eqn:Hfetch.
    2: { apply Hwait. unfold attend. by rewrite Hst, bool_decide_false, Hcount, Hfetch by done. }
    destruct (fetch_spec _ _ _ _ _ _ Hd Hfetch) as (Hr & Hd1 & Hsent & [O1 O2 O3 O4]).
    destruct (reset_ok _ _ Hd1) as (Hd2 & Hp2 & Hr2 & Hs2 & Hf2).
    assert (Hfees1 : fees_ok q1) by (unfold fees_ok, get_fee_factor; rewrite O2; apply Hfees).
    destruct (decrease_fee_total (recipient d) q1 Hfees1) as (fee & Hdec & Hfees2).
    set (q2 := if queued_bytes (reset_if_empty d1) <=? match info (recipient d) with
        | Some channel_info => info_max_total_size channel_info
        | None => MAX_POSSIBLE_ALLOCATION end / THRESHOLD_FACTOR
      then set_fee_factor (recipient d) fee q1 else q1).
    assert (Hag : forall id, agree id q1 q2) by (intros id; unfold q2; by destruct (_ <=? _)).
    exists (Some (reset_if_empty d1)), (if ever <? zlen page then None else Some page), q2. split.
    + unfold attend. rewrite Hst, bool_decide_false, Hcount, Hfetch by done. cbn -[Z.div].
      unfold q2. destruct (_ <=? _); rewrite ?Hdec; destruct (ever <? zlen page); cbn; by rewrite ?app_nil_r.
    + assert (Hsent2 : sent now d q page (reset_if_empty d1) q2).
      { eapply sent_transport; [done| |done..|exact Hsent]. rewrite <- Hp2. apply agree_pages. apply Hag. }
      destruct (Z.ltb_spec ever (zlen page)); [eapply out_oversize|eapply out_sent]; try done; congruence.
    + intros d' [= <-]. split; [congruence|]. eapply agree_ok; [apply Hag|done].
    + unfold q2. by destruct (_ <=? _).
    + unfold q2. by destruct (_ <=? _).
    + intros id Hid. etransitivity; [by apply O3|]. apply Hag.
    + etransitivity; [|exact O4]. unfold q2. by destruct (_ <=? _).
    + intros _. split; [by apply Z.eqb_neq|done].
Qed.

(** ** All channels *)

Record retained statuses (result : list (ParaId * bytes)) q outs (q' : Queue) : Prop := {
  ret_run : retain_mut (attend status info count excluded) statuses result q
    = Some (omap fst outs, result ++ omap (fun '(d, o) => (recipient d,.) <$> snd o) (zip statuses outs), q');
  ret_outcomes : Forall2 (fun d o => outcome_of (status (recipient d)) d q q' (fst o) (snd o)) statuses outs;
  ret_kept : Forall2 (fun d o => forall d', fst o = Some d' -> recipient d' = recipient d /\ details_ok q' d')
    statuses outs;
  ret_fees : fees_ok q';
  ret_status : OutboundXcmpStatus q' = OutboundXcmpStatus q;
  ret_frame : forall id, id ∉ recipient <$> statuses -> agree id q q';
  ret_signals : SignalMessages q' ⊆ SignalMessages q;
  ret_excluded : Forall2 (fun d o => is_Some (snd o) -> recipient d ∉ excluded) statuses outs;
  ret_count : zlen result <= count ->
    zlen result + zlen (omap (fun '(d, o) => (recipient d,.) <$> snd o) (zip statuses outs)) <= count;
}.

Lemma retain_spec statuses : forall result q,
  NoDup (recipient <$> statuses) -> Forall (details_ok q) statuses -> fees_ok q ->
  exists outs q', retained statuses result q outs q'.
Proof.
  induction statuses as [|d statuses IH]; intros result q Hnd Hd Hf.
  { exists [], q. split; try done; cbn; [by rewrite app_nil_r|unfold zlen; cbn; lia]. }
  cbn in Hnd. apply NoDup_cons in Hnd as [Hnin Hnd]. apply Forall_cons in Hd as [Hd Hds].
  destruct (attend_spec d result q Hd Hf) as (kept & page & q1 & [A1 A2 A3 A4 A5 A6 AS A7]).
  assert (Hneq : forall d', d' ∈ statuses -> recipient d' <> recipient d).
  { intros d' Hin E. apply Hnin. rewrite <- E. by apply list_elem_of_fmap_2. }
  destruct (IH (result ++ option_list ((recipient d,.) <$> page)) q1 Hnd) as (outs & q' & [R1 R2 R3 R4 R5 R6 RS R7 R8]); [|done|].
  { apply Forall_forall. intros d' Hin. rewrite Forall_forall in Hds. eapply agree_ok; [|by apply Hds]. auto. }
  assert (Hdq : agree (recipient d) q1 q') by by apply R6.
  exists ((kept, page) :: outs), q'. split.
  - cbn. rewrite A1. cbn. rewrite R1. cbn. rewrite <- app_assoc. by destruct kept, page.
  - constructor; [by eapply outcome_transport|].
    eapply Forall2_impl_in; [exact R2|]. intros d' o Hin Ho. eapply outcome_transport; [|done|exact Ho].
    symmetry. auto.
  - constructor; [|done]. intros d' E. apply A3 in E as [E Hok]. split; [done|]. eapply agree_ok; [|done]. by rewrite E.
  - done.
  - congruence.
  - intros id Hid. cbn in Hid. apply not_elem_of_cons in Hid as [? ?]. etransitivity; [by apply A6|by apply R6].
  - by etransitivity.
  - constructor; [|done]. intros Hp. by apply A7.
  - intros Hc. destruct page as [page|]; cbn in R8 |- *.
    + destruct A7 as [Hne _]; [done|]. unfold zlen in *. rewrite length_app in R8. cbn in *. lia.
    + rewrite app_nil_r in R8. auto.
Qed.

Lemma new_sublist statuses (outs : list (option OutboundChannelDetails * option bytes)) :
  (omap (fun '(d, o) => (recipient d,.) <$> snd o) (zip statuses outs)).*1 `sublist_of` (recipient <$> statuses).
Proof.
  revert outs. induction statuses as [|d statuses IH]; intros [|[kept page] outs]; cbn; [done|done|apply sublist_nil_l|].
  destruct page; cbn; by constructor.
Qed.

Lemma kept_sublist q' statuses (outs : list (option OutboundChannelDetails * option bytes)) :
  Forall2 (fun d o => forall d', fst o = Some d' -> recipient d' = recipient d /\ details_ok q' d') statuses outs ->
  (recipient <$> omap fst outs) `sublist_of` (recipient <$> statuses) /\ Forall (details_ok q') (omap fst outs).
Proof.
  induction 1 as [|d [kept page] statuses outs Hk _ [IH1 IH2]]; cbn; [done|].
  destruct kept as [d'|]; cbn in *.
  - destruct (Hk d' eq_refl) as [-> ?]. split; by constructor.
  - split; [by constructor|done].
Qed.

Lemma unique_index statuses i j d d0 :
  NoDup (recipient <$> statuses) -> statuses !! i = Some d -> statuses !! j = Some d0 ->
  recipient d0 = recipient d -> j = i.
Proof.
  intros Hnd Hi Hj E. eapply NoDup_lookup; [exact Hnd|rewrite list_lookup_fmap, Hj; cbn; by rewrite E|].
  by rewrite list_lookup_fmap, Hi.
Qed.

Lemma outcome_recipient st d q q' kept page d' :
  outcome_of st d q q' kept page -> kept = Some d' -> recipient d' = recipient d.
Proof. clear status info count excluded. intros Ho E. destruct Ho; congruence. Qed.

Lemma outs_lookup q q' statuses (outs : list (option OutboundChannelDetails * option bytes)) d :
  NoDup (recipient <$> statuses) ->
  Forall2 (fun d o => outcome_of (status (recipient d)) d q q' (fst o) (snd o)) statuses outs -> d ∈ statuses ->
  exists i kept page, statuses !! i = Some d /\ outs !! i = Some (kept, page) /\
    outcome_of (status (recipient d)) d q q' kept page /\
    (forall p, (recipient d, p) ∈ omap (fun '(d, o) => (recipient d,.) <$> snd o) (zip statuses outs) <-> page = Some p) /\
    (forall d', d' ∈ omap fst outs /\ recipient d' = recipient d <-> kept = Some d').
Proof.
  clear info count excluded. intros Hnd Hf [i Hi]%list_elem_of_lookup. pose proof (Forall2_lookup_l _ _ _ _ _ Hf Hi) as ([kept page] & Ho & Hout).
  exists i, kept, page. split; [done|]. split; [done|]. split; [done|]. split.
  - intros p. rewrite list_elem_of_omap. split.
    + intros ([d0 o] & Hz & E). apply list_elem_of_lookup in Hz as [j Hz].
      apply lookup_zip_Some in Hz as [Hj Hoj]. apply fmap_Some in E as (p' & Ep & [= E ->]).
      assert (j = i) as -> by by eapply unique_index. naive_solver.
    + intros ->. exists (d, (kept, Some p)). split; [|done]. apply list_elem_of_lookup. exists i.
      by apply lookup_zip_Some.
  - intros d'. rewrite list_elem_of_omap. split.
    + intros [([kept' page'] & Hin & E) Hr]. cbn in E. apply list_elem_of_lookup in Hin as [j Hj].
      pose proof (Forall2_lookup_r _ _ _ _ _ Hf Hj) as (d0 & Hj0 & Hout0).
      pose proof (outcome_recipient _ _ _ _ _ _ d' Hout0 E) as Hr0.
      assert (j = i) as -> by (eapply unique_index; [done|exact Hi|exact Hj0|congruence]). naive_solver.
    + intros ->. split; [|by eapply outcome_recipient]. exists (Some d', page). split; [|done].
      by eapply list_elem_of_lookup_2.
Qed.
End taking.

Lemma rotate_perm n (l : list OutboundChannelDetails) : try_rotate_left n l ≡ₚ l.
Proof.
  unfold try_rotate_left. destruct (Nat.leb n (length l)); [|done]. rewrite Permutation_app_comm. by rewrite take_drop.
Qed.

(** ** [take_outbound_messages] *)

(** What a block did with one channel. *)
Record channel_taken (status : ParaId -> ChannelStatus) (excluded : list ParaId) q d
    (taken : list (ParaId * bytes)) q' kept page : Prop := {
  ct_outcome : outcome_of (status (recipient d)) d q q' kept page;
  ct_page : forall p, (recipient d, p) ∈ taken <-> page = Some p;
  ct_kept : forall d', d' ∈ OutboundXcmpStatus q' /\ recipient d' = recipient d <-> kept = Some d';
  ct_excluded : is_Some page -> recipient d ∉ excluded;
}.

Lemma take_spec status info n excluded q :
  queue_ok q ->
  exists taken q', xcmp_take_outbound_messages status info n excluded q = Some (taken, q') /\ queue_ok q' /\
    NoDup taken.*1 /\ StronglySorted key_le taken /\ (0 <= n -> zlen taken <= n) /\
    (forall id p, (id, p) ∈ taken -> id ∈ recipient <$> OutboundXcmpStatus q) /\
    (forall d, d ∈ OutboundXcmpStatus q -> exists kept page, channel_taken status excluded q d taken q' kept page) /\
    (forall d', d' ∈ OutboundXcmpStatus q' -> recipient d' ∈ recipient <$> OutboundXcmpStatus q).
Proof.
  intros [Q1 Q2 Q3 Q4 Q5]. unfold xcmp_take_outbound_messages.
  set (count := Z.min (zlen (OutboundXcmpStatus q)) n).
  destruct (retain_spec status info count excluded (OutboundXcmpStatus q) [] q Q1 Q2 Q4)
    as (outs & q1 & [R1 R2 R3 R4 R5 R6 RS R7 R8]).
  rewrite R1. cbn [mbind option_bind]. rewrite app_nil_l.
  set (new := omap _ (zip _ outs)) in *.
  assert (Hperm : merge_sort key_le new ≡ₚ new) by apply merge_sort_Permutation.
  destruct (kept_sublist _ _ _ R3) as [K1 K2].
  set (rot := try_rotate_left _ _).
  assert (Hrot : rot ≡ₚ omap fst outs) by apply rotate_perm.
  assert (Hlook : forall d, d ∈ OutboundXcmpStatus q ->
    exists kept page, channel_taken status excluded q d (merge_sort key_le new) (set_status rot q1) kept page).
  { intros d Hd. destruct (outs_lookup _ _ _ _ _ d Q1 R2 Hd) as (i & kept & page & Hi & Hoi & Ho & Hp & Hk).
    exists kept, page. split.
    - eapply outcome_transport; [| |exact Ho]; done.
    - intros p. by rewrite Hperm.
    - intros d'. cbn. by rewrite Hrot.
    - exact (Forall2_lookup_lr _ _ _ _ _ _ R7 Hi Hoi). }
  eexists _, _. split; [done|]. split; [split|].
  - cbn. rewrite Hrot. by eapply sublist_NoDup.
  - cbn. apply Forall_forall. intros d Hd. rewrite Hrot in Hd. rewrite Forall_forall in K2.
    eapply agree_ok; [|by apply K2]. done.
  - cbn. intros id i Hi. destruct (decide (id ∈ recipient <$> OutboundXcmpStatus q)) as [Hid|Hid].
    + apply list_elem_of_fmap in Hid as (d & -> & Hd). destruct (Hlook d Hd) as (kept & page & [C1 _ C3 _]).
      assert (Hkept : kept <> None) by (destruct C1 as [? Hnone| | |]; try done; cbn in Hnone; rewrite Hnone in Hi; by destruct Hi).
      destruct kept as [d'|]; [|done]. destruct (proj2 (C3 d') eq_refl) as [Hin <-]. by apply list_elem_of_fmap_2.
    + exfalso. apply Hid. apply (Q3 id i). destruct (R6 id Hid) as [Ha _]. by rewrite Ha.
  - exact R4.
  - intros id page Hp. apply (Q5 id). by eapply lookup_weaken.
  - split; [rewrite Hperm; eapply sublist_NoDup; [exact Q1|apply new_sublist]|].
    split; [apply StronglySorted_merge_sort; apply _|].
    split; [|split; [|split; [done|]]].
    + intros Hn. unfold zlen in *. rewrite Hperm. cbn in R8. unfold new, count in *. lia.
    + intros id p Hin. rewrite Hperm in Hin.
      eapply elem_of_submseteq; [|apply sublist_submseteq, (new_sublist (OutboundXcmpStatus q) outs)].
      by apply (list_elem_of_fmap_2 fst) in Hin.
    + cbn. intros d' Hd'. rewrite Hrot in Hd'. eapply elem_of_submseteq; [|by apply sublist_submseteq, K1].
      by apply list_elem_of_fmap_2.
Qed.

(** ** The interface of the parachain system *)

(** A channel that gets the notification page next, should it have no page that fits. *)
Definition notifies d : Prop :=
  signals_exist d = false /\ state d = StateOk /\
  Flags.should_send_concatenated_opaque_versioned_xcm_notification (flags d) = true.

(** No such channel is full to the byte. *)
Definition notification_room (status : ParaId -> ChannelStatus) q : Prop :=
  forall d now ever, d ∈ OutboundXcmpStatus q -> status (recipient d) = Ready now ever -> notifies d -> 0 < now.

(** A page handed over fits its channel, or is the notification. *)
Lemma taken_page status info n excluded q taken q' id page :
  queue_ok q -> xcmp_take_outbound_messages status info n excluded q = Some (taken, q') -> (id, page) ∈ taken ->
  exists d now ever, d ∈ OutboundXcmpStatus q /\ recipient d = id /\ status id = Ready now ever /\
    (zlen page <= now \/ notifies d /\ page = encode_format ConcatenatedOpaqueVersionedXcm).
Proof.
  intros Hq Ht Hin. destruct (take_spec status info n excluded q Hq) as (? & ? & Ht' & _ & _ & _ & _ & Hid & Hall & _).
  rewrite Ht' in Ht. injection Ht as -> ->. apply Hid in Hin as Hr. apply list_elem_of_fmap in Hr as (d & -> & Hd).
  destruct (Hall d Hd) as (kept & page' & [C1 C2 _ _]). apply C2 in Hin as ->.
  inversion C1 as [| |now ever ? d' Hst _ Hsent _|]; subst. exists d, now, ever. split_and!; [done..|].
  destruct Hsent as [| |? ? ? _ -> _]; [left; lia..|]. by right.
Qed.

#[export] Instance xcmp_queue_laws : XcmpMessageSourceLaws Queue queue_ok notification_room.
Proof.
  split; unfold take_outbound_messages, xcmp_queue_source.
  - intros status info n excluded q Hq.
    destruct (take_spec status info n excluded q Hq) as (taken & q' & Ht & Hq' & _). eauto.
  - intros status info n excluded q taken q' Hq Ht.
    destruct (take_spec status info n excluded q Hq) as (? & ? & Ht' & _ & Hnd & _). naive_solver.
  - intros status info n excluded q taken q' id data Hq Hadm Ht Hin.
    destruct (taken_page _ _ _ _ _ _ _ _ _ Hq Ht Hin) as (d & now & ever & Hd & <- & Hst & Hfit).
    exists now, ever. split; [done|]. destruct Hfit as [|[Hn ->]]; [done|].
    assert (0 < now) by by eapply Hadm. unfold zlen. cbn. lia.
Qed.

(** ** Channels as queues of pages *)

Definition pages_of q id : list bytes :=
  match try_get_outbound_channel (OutboundXcmpStatus q) id with
  | Some d => pages q d
  | None => []
  end.

Lemma position_Some {A : Type} (f : A -> bool) l i :
  position f l = Some i -> exists x, l !! i = Some x /\ f x = true.
Proof.
  revert i. induction l as [|x l IH]; intros i; cbn; [done|]. destruct (f x) eqn:Hx.
  - intros [= <-]. by exists x.
  - intros (j & Hj & ->)%fmap_Some. by apply IH.
Qed.

Lemma position_None {A : Type} (f : A -> bool) l : position f l = None -> Forall (fun x => f x = false) l.
Proof.
  induction l as [|x l IH]; cbn; [done|]. destruct (f x) eqn:Hx; [done|].
  intros Hn%fmap_None. constructor; auto.
Qed.

Lemma channel_Some l id i : channel_position l id = Some i -> exists d, l !! i = Some d /\ recipient d = id.
Proof. intros (d & Hd & E%Z.eqb_eq)%position_Some. by exists d. Qed.

Lemma channel_None l id : channel_position l id = None -> id ∉ recipient <$> l.
Proof.
  intros Hf%position_None (d & -> & Hd)%list_elem_of_fmap. rewrite Forall_forall in Hf. apply Hf in Hd. lia.
Qed.

Lemma pages_of_in q d :
  NoDup (recipient <$> OutboundXcmpStatus q) -> d ∈ OutboundXcmpStatus q -> pages_of q (recipient d) = pages q d.
Proof.
  intros Hnd [j Hj]%list_elem_of_lookup. unfold pages_of, try_get_outbound_channel.
  destruct (channel_position _ _) as [i|] eqn:Hi; cbn.
  - apply channel_Some in Hi as (d0 & Hd0 & E). rewrite Hd0. cbn.
    assert (i = j) as -> by by eapply unique_index. congruence.
  - apply channel_None in Hi. destruct Hi. apply list_elem_of_fmap_2. by eapply list_elem_of_lookup_2.
Qed.

Lemma pages_of_notin q id : id ∉ recipient <$> OutboundXcmpStatus q -> pages_of q id = [].
Proof.
  intros Hid. unfold pages_of, try_get_outbound_channel. destruct (channel_position _ _) as [i|] eqn:Hi; [|done].
  apply channel_Some in Hi as (d & Hd & <-). destruct Hid. apply list_elem_of_fmap_2. by eapply list_elem_of_lookup_2.
Qed.

(** The fields of a channel that say which pages it has. *)
Definition same_pages d d' : Prop :=
  recipient d' = recipient d /\ first_index d' = first_index d /\ last_index d' = last_index d /\
  queued_bytes d' = queued_bytes d.

(** A change of the list of channels that leaves the pages alone. *)
Record status_change q q' : Prop := {
  sc_messages : OutboundXcmpMessages q' = OutboundXcmpMessages q;
  sc_fees : DeliveryFeeFactor q' = DeliveryFeeFactor q;
  sc_distinct : NoDup (recipient <$> OutboundXcmpStatus q');
  sc_origin : forall d', d' ∈ OutboundXcmpStatus q' ->
    (exists d, d ∈ OutboundXcmpStatus q /\ same_pages d d') \/
    (same_pages (details_new (recipient d')) d' /\ recipient d' ∉ recipient <$> OutboundXcmpStatus q);
  sc_kept : forall d, d ∈ OutboundXcmpStatus q -> first_index d < last_index d ->
    exists d', d' ∈ OutboundXcmpStatus q' /\ same_pages d d';
  sc_signals : forall d', d' ∈ OutboundXcmpStatus q' -> signals_exist d' = true ->
    is_Some (SignalMessages q' !! recipient d');
  sc_pages : map_Forall (fun _ page => decode_format page = Some Signals) (SignalMessages q');
}.

Lemma same_pages_eq q q' d d' :
  OutboundXcmpMessages q' = OutboundXcmpMessages q -> same_pages d d' -> pages q' d' = pages q d.
Proof. intros E (E1 & E2 & E3 & _). unfold pages, page_range, message_at. by rewrite E, E1, E2, E3. Qed.

Lemma same_pages_ok q q' d d' :
  OutboundXcmpMessages q' = OutboundXcmpMessages q -> same_pages d d' ->
  (signals_exist d' = true -> is_Some (SignalMessages q' !! recipient d')) ->
  details_ok q d -> details_ok q' d'.
Proof.
  intros E Hs Hsig [D1 D2 D3 D4 D5 D6 D7]. pose proof (same_pages_eq _ _ _ _ E Hs) as Hp.
  destruct Hs as (E1 & E2 & E3 & E4). split; rewrite ?E2, ?E3, ?E4, ?Hp; try done; rewrite ?E, ?E1; done.
Qed.

Lemma new_details_ok q id :
  id ∉ recipient <$> OutboundXcmpStatus q -> queue_ok q -> details_ok q (details_new id).
Proof.
  intros Hid Hq. split; cbn; try done.
  - intros i Hi. lia.
  - intros i Hi. by apply (que_only _ Hq) in Hi.
Qed.

Lemma status_change_ok q q' :
  queue_ok q -> status_change q q' -> queue_ok q' /\ forall id, pages_of q' id = pages_of q id.
Proof.
  intros Hq [S1 S2 S3 S4 S5 S6 S7]. pose proof Hq as [Q1 Q2 Q3 Q4 _]. rewrite Forall_forall in Q2. split; [split|].
  - done.
  - apply Forall_forall. intros d' Hd'. destruct (S4 d' Hd') as [(d & Hd & Hs)|[Hs Hn]].
    + eapply same_pages_ok; [done..|by apply S6|by apply Q2].
    + eapply same_pages_ok; [done..|by apply S6|by apply new_details_ok].
  - intros id i Hi. rewrite S1 in Hi. pose proof (Q3 _ _ Hi) as (d & -> & Hd)%list_elem_of_fmap.
    apply (det_only _ _ (Q2 d Hd)) in Hi. destruct (S5 d Hd) as (d' & Hd' & <- & _); [lia|].
    by apply list_elem_of_fmap_2.
  - unfold fees_ok, get_fee_factor. rewrite S2. apply Q4.
  - done.
  - intros id. destruct (decide (id ∈ recipient <$> OutboundXcmpStatus q')) as [Hid|Hid].
    + apply list_elem_of_fmap in Hid as (d' & -> & Hd'). rewrite pages_of_in by done.
      destruct (S4 d' Hd') as [(d & Hd & Hs)|[Hs Hn]].
      * rewrite (same_pages_eq _ _ _ _ S1 Hs). destruct Hs as (-> & _). by rewrite pages_of_in.
      * rewrite (same_pages_eq _ _ _ _ S1 Hs). by rewrite pages_of_notin.
    + rewrite (pages_of_notin q') by done. destruct (decide (id ∈ recipient <$> OutboundXcmpStatus q)) as [Hid'|Hid'].
      * apply list_elem_of_fmap in Hid' as (d & -> & Hd). rewrite pages_of_in by done.
        destruct (decide (first_index d < last_index d)) as [Hlt|Hge].
        -- destruct (S5 d Hd Hlt) as (d' & Hd' & E & _). destruct Hid. rewrite <- E. by apply list_elem_of_fmap_2.
        -- unfold pages. by replace (Z.to_nat (last_index d - first_index d)) with 0%nat by lia.
      * by rewrite pages_of_notin.
Qed.

(** Three such changes: one channel updated, added or removed. *)
Lemma alter_change q q' f i :
  queue_ok q -> OutboundXcmpStatus q' = alter f i (OutboundXcmpStatus q) ->
  OutboundXcmpMessages q' = OutboundXcmpMessages q -> DeliveryFeeFactor q' = DeliveryFeeFactor q ->
  (forall d, same_pages d (f d)) ->
  (forall id, is_Some (SignalMessages q !! id) -> is_Some (SignalMessages q' !! id)) ->
  (forall d, OutboundXcmpStatus q !! i = Some d -> signals_exist (f d) = true -> is_Some (SignalMessages q' !! recipient d)) ->
  map_Forall (fun _ page => decode_format page = Some Signals) (SignalMessages q') ->
  status_change q q'.
Proof.
  intros [Q1 Q2 Q3 Q4 _] E1 E2 E3 Hf Hsig Hnew Hpg. rewrite Forall_forall in Q2. split; [done|done|..|done]; rewrite E1.
  - replace (recipient <$> alter f i (OutboundXcmpStatus q)) with (recipient <$> OutboundXcmpStatus q); [done|].
    apply list_eq. intros j. rewrite !list_lookup_fmap. destruct (decide (i = j)) as [<-|Hne].
    + rewrite list_lookup_alter_eq. destruct (OutboundXcmpStatus q !! i) as [d|]; [|done]. cbn.
      f_equal. symmetry. apply Hf.
    + by rewrite list_lookup_alter_ne.
  - intros d' [j Hj]%list_elem_of_lookup. left. destruct (decide (i = j)) as [<-|Hne].
    + rewrite list_lookup_alter_eq in Hj. apply fmap_Some in Hj as (d & Hd & ->). exists d.
      split; [by eapply list_elem_of_lookup_2|apply Hf].
    + rewrite list_lookup_alter_ne in Hj by done. exists d'. split; [by eapply list_elem_of_lookup_2|done].
  - intros d [j Hj]%list_elem_of_lookup _. destruct (decide (i = j)) as [<-|Hne].
    + exists (f d). split; [|apply Hf]. apply (list_elem_of_lookup_2 _ i). by rewrite list_lookup_alter_eq, Hj.
    + exists d. split; [|done]. apply (list_elem_of_lookup_2 _ j). by rewrite list_lookup_alter_ne.
  - intros d' [j Hj]%list_elem_of_lookup Hs. destruct (decide (i = j)) as [<-|Hne].
    + rewrite list_lookup_alter_eq in Hj. apply fmap_Some in Hj as (d & Hd & ->).
      destruct (Hf d) as [-> _]. by apply Hnew.
    + rewrite list_lookup_alter_ne in Hj by done. apply Hsig. apply (det_signals q d'); [|done].
      apply Q2. by eapply list_elem_of_lookup_2.
Qed.

Lemma push_change q q' d l :
  queue_ok q -> recipient d ∉ recipient <$> OutboundXcmpStatus q -> same_pages (details_new (recipient d)) d ->
  try_push d (OutboundXcmpStatus q) = Some l -> OutboundXcmpStatus q' = l ->
  OutboundXcmpMessages q' = OutboundXcmpMessages q -> DeliveryFeeFactor q' = DeliveryFeeFactor q ->
  (forall id, is_Some (SignalMessages q !! id) -> is_Some (SignalMessages q' !! id)) ->
  (signals_exist d = true -> is_Some (SignalMessages q' !! recipient d)) ->
  map_Forall (fun _ page => decode_format page = Some Signals) (SignalMessages q') ->
  status_change q q'.
Proof.
  intros [Q1 Q2 Q3 Q4 _] Hn Hs Hp E1 E2 E3 Hsig Hnew Hpg. rewrite Forall_forall in Q2.
  unfold try_push in Hp. destruct (_ <? _); [injection Hp as Hp|done]. subst l. split; [done|done|..|done]; rewrite E1.
  - rewrite fmap_app. apply NoDup_app. split; [done|]. split; [|apply NoDup_singleton].
    intros id Hid E%list_elem_of_singleton. by subst id.
  - intros d' [Hd'|Hd'%list_elem_of_singleton]%elem_of_app; [|subst d']; [left; by exists d'|right; done].
  - intros d' Hd' _. exists d'. split; [|done]. apply elem_of_app. by left.
  - intros d' [Hd'|Hd'%list_elem_of_singleton]%elem_of_app He; [|subst d'; auto].
    apply Hsig. apply (det_signals q d'); auto.
Qed.

Lemma remove_change q i d :
  queue_ok q -> OutboundXcmpStatus q !! i = Some d -> first_index d = last_index d ->
  status_change q (set_status (delete i (OutboundXcmpStatus q)) q).
Proof.
  intros [Q1 Q2 Q3 Q4 Q5] Hi He. rewrite Forall_forall in Q2.
  assert (Hl : OutboundXcmpStatus q = take i (OutboundXcmpStatus q) ++ d :: drop (S i) (OutboundXcmpStatus q))
    by (symmetry; by apply take_drop_middle).
  assert (Hin : forall d', d' ∈ delete i (OutboundXcmpStatus q) -> d' ∈ OutboundXcmpStatus q).
  { intros d' Hd'. rewrite Hl, elem_of_app, elem_of_cons. rewrite delete_take_drop, elem_of_app in Hd'. tauto. }
  split; cbn; [done|done|..|done].
  - eapply sublist_NoDup; [exact Q1|]. apply fmap_sublist, sublist_delete.
  - intros d' Hd'. left. exists d'. split; [auto|done].
  - intros d' Hd' Hlt. exists d'. split; [|done]. rewrite delete_take_drop, elem_of_app.
    rewrite Hl, elem_of_app, elem_of_cons in Hd'. destruct Hd' as [?|[->|?]]; [tauto|lia|tauto].
  - intros d' Hd' Hs. apply (det_signals q d'); auto.
Qed.

Definition keeps_queues q q' : Prop := queue_ok q' /\ forall id, pages_of q' id = pages_of q id.

Lemma keeps_refl q : queue_ok q -> keeps_queues q q.
Proof. by split. Qed.

Lemma send_signal_ok dest signal q q' :
  queue_ok q -> send_signal dest signal q = Ok q' ->
  keeps_queues q q' /\ SignalMessages q' !! dest = Some (encode_signal_page signal) /\
  exists d, d ∈ OutboundXcmpStatus q' /\ recipient d = dest /\ signals_exist d = true.
Proof.
  intros Hq Hs. unfold send_signal in Hs. apply obind_ok in Hs as (l & Hl & Hs).
  destruct (_ <? _); [done|]. injection Hs as <-.
  assert (Hmono : forall id, is_Some (SignalMessages q !! id) ->
    is_Some (<[dest := encode_signal_page signal]> (SignalMessages q) !! id)).
  { intros id Hid. destruct (decide (dest = id)) as [->|]; [by rewrite lookup_insert_eq|by rewrite lookup_insert_ne]. }
  assert (Hpg : map_Forall (fun _ page => decode_format page = Some Signals)
    (<[dest := encode_signal_page signal]> (SignalMessages q))) by (by apply map_Forall_insert_2; [|apply Hq]).
  destruct (channel_position _ _) as [i|] eqn:Hi.
  - injection Hl as <-. apply channel_Some in Hi as (d & Hd & <-). split; [|split].
    + apply status_change_ok; [done|]. eapply (alter_change _ _ with_signals i); try done.
      cbn. intros d0 Hd0 _. assert (d0 = d) as -> by congruence. by rewrite lookup_insert_eq.
    + cbn. by rewrite lookup_insert_eq.
    + exists (with_signals d). split; [|done]. cbn. apply (list_elem_of_lookup_2 _ i). by rewrite list_lookup_alter_eq, Hd.
  - destruct (try_push _ _) as [l'|] eqn:Hp; [injection Hl as ->|done]. split; [|split].
    + apply status_change_ok; [done|]. eapply (push_change _ _ (with_signals (details_new dest))); [done|by apply channel_None|done|exact Hp|done..| |done].
      cbn. intros _. by rewrite lookup_insert_eq.
    + cbn. by rewrite lookup_insert_eq.
    + exists (with_signals (details_new dest)). split; [|done]. cbn. unfold try_push in Hp.
      destruct (_ <? _); [injection Hp as <-|done]. apply elem_of_app. right. by apply list_elem_of_singleton.
Qed.

Lemma suspend_channel_ok target q : queue_ok q -> keeps_queues q (suspend_channel target q).
Proof.
  intros Hq. unfold suspend_channel. destruct (channel_position _ _) as [i|] eqn:Hi.
  - apply status_change_ok; [done|]. eapply (alter_change _ _ (with_state Suspended) i); try done; [|apply Hq].
    cbn. intros d Hd Hs. apply (det_signals q d); [|done]. destruct Hq as [_ Q2 _ _ _].
    rewrite Forall_forall in Q2. apply Q2. by eapply list_elem_of_lookup_2.
  - destruct (try_push _ _) as [l|] eqn:Hp; [|by apply keeps_refl].
    apply status_change_ok; [done|]. eapply (push_change _ _ (with_state Suspended (details_new target))); [done|by apply channel_None|done|exact Hp|done..|apply Hq].
Qed.

Lemma resume_channel_ok target q : queue_ok q -> keeps_queues q (resume_channel target q).
Proof.
  intros Hq. unfold resume_channel. destruct (channel_position _ _) as [i|] eqn:Hi; [|by apply keeps_refl].
  apply channel_Some in Hi as (d & Hd & <-). rewrite Hd. destruct (Z.eqb_spec (first_index d) (last_index d)) as [E|].
  - apply status_change_ok; [done|]. by eapply remove_change.
  - apply status_change_ok; [done|]. eapply (alter_change _ _ (with_state StateOk) i); try done; [|..|apply Hq]; cbn.
    + apply list_eq. intros j. destruct (decide (i = j)) as [<-|Hne].
      * rewrite list_lookup_alter_eq, list_lookup_insert_eq, Hd; [done|]. by eapply lookup_lt_Some.
      * by rewrite list_lookup_alter_ne, list_lookup_insert_ne.
    + intros d0 Hd0 Hs. apply (det_signals q d0); [|done]. destruct Hq as [_ Q2 _ _ _].
      rewrite Forall_forall in Q2. apply Q2. by eapply list_elem_of_lookup_2.
Qed.

Lemma keeps_suspended q q' s : keeps_queues q q' -> keeps_queues q (set_suspended s q').
Proof.
  intros [[Q1 Q2 Q3 Q4 Q5] Hp]. split; [|done]. split; try done.
  eapply Forall_impl; [exact Q2|]. intros d. by apply agree_ok.
Qed.

Lemma on_queue_changed_ok para ready_pages q : queue_ok q -> keeps_queues q (on_queue_changed para ready_pages q).
Proof.
  intros Hq. unfold on_queue_changed. destruct (bool_decide _ && _).
  - destruct (send_signal para Resume q) as [q'| |] eqn:Hs; [|by apply keeps_refl..].
    apply keeps_suspended. by eapply send_signal_ok.
  - destruct (negb _ && _); [|by apply keeps_refl].
    destruct (send_signal para Suspend q) as [q'| |] eqn:Hs; [|by apply keeps_refl..].
    destruct (_ <? _); [apply keeps_suspended|]; by eapply send_signal_ok.
Qed.

(** ** Sending a fragment *)

(** The page with index [k] is written: a new last page, or the last one again. *)
Lemma put_page q d k page d' :
  details_ok q d -> first_index d <= k -> last_index d - 1 <= k <= last_index d -> k + 1 <= umax 16 ->
  recipient d' = recipient d -> first_index d' = first_index d -> last_index d' = k + 1 ->
  signals_exist d' = signals_exist d ->
  let q' := set_messages (<[(recipient d, k) := page]> (OutboundXcmpMessages q)) q in
  pages q' d' = take (Z.to_nat (k - first_index d)) (pages q d) ++ [page] /\
  (queued_bytes d' = bytes_of (pages q' d') -> is_uint 32 (queued_bytes d') -> details_ok q' d').
Proof.
  intros [D1 D2 D3 D4 D5 D6 D7] H1 H2 H3 E1 E2 E3 E4 q'. set (m := Z.to_nat (k - first_index d)).
  split.
  - unfold pages at 1. rewrite E1, E2, E3.
    replace (Z.to_nat (k + 1 - first_index d)) with (S m) by lia. rewrite page_range_snoc. f_equal.
    + transitivity (page_range q (recipient d) (first_index d) m).
      * apply page_range_same. intros i Hi. unfold message_at, q'. cbn. rewrite lookup_insert_ne; [done|]. intros [=]. lia.
      * unfold pages, page_range. rewrite <- fmap_take, take_seq. do 2 f_equal. lia.
    + unfold message_at, q'. cbn. replace (first_index d + Z.of_nat m) with k by lia. by rewrite lookup_insert_eq.
  - intros Hb Hu. split; rewrite ?E1, ?E2, ?E3; cbn; try done; try lia.
    + intros i Hi. destruct (decide (i = k)) as [->|Hne]; [by rewrite lookup_insert_eq|].
      rewrite lookup_insert_ne by congruence. apply D3. lia.
    + intros i Hi. destruct (decide (i = k)) as [->|Hne]; [lia|].
      rewrite lookup_insert_ne in Hi by congruence. apply D4 in Hi. lia.
    + rewrite E4. done.
Qed.

Lemma get_or_insert_spec q id l i :
  queue_ok q -> try_get_or_insert_outbound_channel (OutboundXcmpStatus q) id = Some (l, i) ->
  exists d, l !! i = Some d /\ recipient d = id /\ details_ok q d /\ pages q d = pages_of q id /\
    (d ∈ OutboundXcmpStatus q \/ d = details_new id) /\ NoDup (recipient <$> l) /\
    (forall d0, d0 ∈ l /\ recipient d0 <> id <-> d0 ∈ OutboundXcmpStatus q /\ recipient d0 <> id).
Proof.
  intros Hq Hg. unfold try_get_or_insert_outbound_channel in Hg. pose proof Hq as [Q1 Q2 _ _ _].
  rewrite Forall_forall in Q2. destruct (channel_position _ _) as [j|] eqn:Hj.
  - injection Hg as <- <-. apply channel_Some in Hj as (d & Hd & <-).
    assert (Hin : d ∈ OutboundXcmpStatus q) by by eapply list_elem_of_lookup_2.
    exists d. split; [done|]. split; [done|]. split; [auto|]. split; [by rewrite pages_of_in|].
    split; [by left|]. split; [done|]. done.
  - apply channel_None in Hj. unfold try_push in Hg. destruct (_ <? _); [injection Hg as <- <-|done].
    exists (details_new id). split; [by apply list_lookup_middle|]. split; [done|].
    split; [by apply new_details_ok|]. split; [by rewrite pages_of_notin|]. split; [by right|]. split.
    + rewrite fmap_app. apply NoDup_app. split; [done|]. split; [|apply NoDup_singleton].
      intros x Hx E%list_elem_of_singleton. by subst x.
    + intros d0. rewrite elem_of_app, list_elem_of_singleton. split; [|tauto].
      intros [[?| ->] ?]; [done|]. by cbn in *.
Qed.

(** One channel replaced, all others as before. *)
Lemma replace_channel q l i d q1 d' :
  queue_ok q -> l !! i = Some d -> NoDup (recipient <$> l) ->
  (forall d0, d0 ∈ l /\ recipient d0 <> recipient d <-> d0 ∈ OutboundXcmpStatus q /\ recipient d0 <> recipient d) ->
  recipient d' = recipient d -> details_ok q1 d' -> fees_ok q1 ->
  (forall id, id <> recipient d -> agree id q q1) -> SignalMessages q1 = SignalMessages q ->
  let q' := set_status (<[i := d']> l) q1 in
  queue_ok q' /\ pages_of q' (recipient d) = pages q1 d' /\
  forall id, id <> recipient d -> pages_of q' id = pages_of q id.
Proof.
  intros Hq Hi Hnd Hl Er Hd' Hf Ha Es q'. pose proof Hq as [Q1 Q2 Q3 _ Q5]. rewrite Forall_forall in Q2.
  assert (Hlen : (i < length l)%nat) by by eapply lookup_lt_Some.
  assert (Hrec : recipient <$> <[i := d']> l = recipient <$> l).
  { rewrite list_fmap_insert, Er. apply list_insert_id. by rewrite list_lookup_fmap, Hi. }
  assert (Hin' : d' ∈ <[i := d']> l) by (apply (list_elem_of_lookup_2 _ i); by rewrite list_lookup_insert_eq).
  assert (Hold : forall d0, d0 ∈ <[i := d']> l -> d0 = d' \/ d0 ∈ OutboundXcmpStatus q /\ recipient d0 <> recipient d).
  { intros d0 [j Hj]%list_elem_of_lookup. destruct (decide (i = j)) as [<-|Hne].
    - rewrite list_lookup_insert_eq in Hj by done. left. congruence.
    - rewrite list_lookup_insert_ne in Hj by done. right. apply Hl. split; [by eapply list_elem_of_lookup_2|].
      intros E. apply Hne. symmetry. by apply (unique_index l i j d d0). }
  assert (Hkeep : forall d0, d0 ∈ OutboundXcmpStatus q -> recipient d0 <> recipient d -> d0 ∈ <[i := d']> l).
  { intros d0 Hd0 Hne. destruct (proj2 (Hl d0) (conj Hd0 Hne)) as [[j Hj]%list_elem_of_lookup _].
    apply (list_elem_of_lookup_2 _ j). rewrite list_lookup_insert_ne; [done|]. intros <-. congruence. }
  assert (Hnd' : NoDup (recipient <$> OutboundXcmpStatus q')) by (cbn; by rewrite Hrec).
  split; [split|].
  - done.
  - apply Forall_forall. intros d0 Hd0. destruct (Hold d0 Hd0) as [->|[Hin Hne]].
    + by apply (agree_ok q1).
    + by apply (agree_ok q); [apply Ha|apply Q2].
  - cbn. intros id j Hj. rewrite Hrec. destruct (decide (id = recipient d)) as [->|Hne].
    + apply list_elem_of_fmap_2. by eapply list_elem_of_lookup_2.
    + destruct (Ha id Hne) as [Ham _]. rewrite <- Ham in Hj. apply Q3 in Hj.
      apply list_elem_of_fmap in Hj as (d0 & -> & Hd0). rewrite <- Hrec. apply list_elem_of_fmap_2. by apply Hkeep.
  - done.
  - cbn. by rewrite Es.
  - split; [rewrite <- Er; by apply (pages_of_in q' d')|]. intros id Hne.
    destruct (decide (id ∈ recipient <$> OutboundXcmpStatus q)) as [Hid|Hid].
    + apply list_elem_of_fmap in Hid as (d0 & -> & Hd0). rewrite (pages_of_in q' d0 Hnd' (Hkeep _ Hd0 Hne)), (pages_of_in q d0 Q1 Hd0).
      symmetry. by apply agree_pages, Ha.
    + rewrite !pages_of_notin; [done|done|]. cbn. intros (d0 & -> & Hd0)%list_elem_of_fmap.
      destruct (Hold d0 Hd0) as [->|[Hin _]]; [congruence|]. destruct Hid. by apply list_elem_of_fmap_2.
Qed.

Lemma alter_lookup_insert {A : Type} (f : A -> A) i (l : list A) x : l !! i = Some x -> alter f i l = <[i := f x]> l.
Proof.
  intros Hi. rewrite list_insert_alter. apply list_eq. intros j. destruct (decide (i = j)) as [<-|Hne].
  - by rewrite !list_lookup_alter_eq, Hi.
  - by rewrite !list_lookup_alter_ne.
Qed.

Lemma notice_opaque_support_ok target q :
  queue_ok q -> queue_ok (notice_opaque_support target q) /\
  forall id, pages_of (notice_opaque_support target q) id = pages_of q id.
Proof.
  intros Hq. unfold notice_opaque_support.
  destruct (try_get_or_insert_outbound_channel _ _) as [[l i]|] eqn:Hg; [|by destruct q].
  destruct (get_or_insert_spec _ _ _ _ Hq Hg) as (d & Hi & <- & [D1 D2 D3 D4 D5 D6 D7] & Hpd & _ & Hnd & Hl).
  rewrite (alter_lookup_insert _ _ _ _ Hi).
  destruct (replace_channel q l i d q (with_flags (Flags.notice_concatenated_opaque_versioned_xcm_support (flags d)) d))
    as (Hq' & Hp & Ho); try done; [apply Hq|].
  split; [done|]. intros id. destruct (decide (id = recipient d)) as [->|Hne]; [|by apply Ho]. by rewrite Hp, <- Hpd.
Qed.

(** What depends neither on the thresholds nor on the suspension. *)
Lemma reconfigured_ok q c b :
  queue_ok q -> queue_ok (set_queue_config c (set_queue_suspended b q)) /\
  forall id, pages_of (set_queue_config c (set_queue_suspended b q)) id = pages_of q id.
Proof.
  intros [Q1 Q2 Q3 Q4 Q5]. split; [|done]. split; try done. apply (Forall_impl _ _ _ Q2).
  intros d [D1 D2 D3 D4 D5 D6 D7]. by split.
Qed.

(** Sending appends to the last page or adds one. *)
Inductive appended (format : XcmpMessageFormat) (fragment : bytes) : list bytes -> list bytes -> Prop :=
| appended_new ps : appended format fragment ps (ps ++ [encode_format format ++ fragment])
| appended_last ps page :
  decode_format page = Some format -> appended format fragment (ps ++ [page]) (ps ++ [page ++ fragment]).

(** Room for one more page in the 16-bit indices and the 32-bit byte count. *)
Definition room q id (fragment : bytes) : Prop :=
  zlen fragment + 1 <= umax 32 /\
  forall d, d ∈ OutboundXcmpStatus q -> recipient d = id ->
    last_index d < umax 16 /\ queued_bytes d + zlen fragment + 1 <= umax 32.

Lemma bytes_of_app l k : bytes_of (l ++ k) = bytes_of l + bytes_of k.
Proof. unfold bytes_of. induction l as [|x l IH]; cbn [app foldr]; lia. Qed.

Lemma existing_page_spec q id format n max d page :
  existing_page id format n max d q = Some page ->
  first_index d < last_index d /\ page = message_at q id (last_index d - 1) /\ decode_format page = Some format /\
  zlen page + n <= max.
Proof.
  unfold existing_page. destruct (Z.ltb_spec (first_index d) (last_index d)); [|done].
  case_bool_decide as Hf; cbn; [|done]. destruct (Z.ltb_spec max (zlen (message_at q id (last_index d - 1)) + n)); [done|].
  by intros [= <-].
Qed.

Lemma last_page q d :
  first_index d < last_index d ->
  pages q d = take (Z.to_nat (last_index d - 1 - first_index d)) (pages q d) ++ [message_at q (recipient d) (last_index d - 1)].
Proof.
  intros Hlt. set (m := Z.to_nat (last_index d - 1 - first_index d)). unfold pages.
  replace (Z.to_nat (last_index d - first_index d)) with (S m) by lia. rewrite page_range_snoc.
  replace (first_index d + Z.of_nat m) with (last_index d - 1) by lia. f_equal.
  rewrite take_app_le by (rewrite page_range_length; lia). rewrite take_ge; [done|]. rewrite page_range_length. lia.
Qed.

(** The write of [send_fragment], for the details [d] of the channel. *)
Lemma write_page q format fragment max d page last queued fl :
  details_ok q d -> last_index d < umax 16 -> queued_bytes d + zlen fragment + 1 <= umax 32 ->
  (page, last, queued) = match existing_page (recipient d) format (zlen fragment) max d q with
    | Some page => (page, last_index d, queued_bytes d)
    | None => (encode_format format, wrapping 16 (last_index d + 1),
               saturating_add 32 (queued_bytes d) (wrapping 32 (zlen (encode_format format))))
    end ->
  let queued' := saturating_add 32 queued (wrapping 32 (zlen fragment)) in
  let q1 := set_messages (<[(recipient d, wrapping 16 (last - 1)) := page ++ fragment]> (OutboundXcmpMessages q)) q in
  let d' := mkDetails (recipient d) (state d) (signals_exist d) (first_index d) last fl queued' in
  details_ok q1 d' /\ appended format fragment (pages q d) (pages q1 d').
Proof.
  intros Hd Hlast Hq Hex queued' q1 d'. pose proof Hd as [D1 D2 D3 D4 D5 D6 D7].
  assert (Hz : 0 <= zlen fragment) by (unfold zlen; lia). unfold is_uint in D6.
  assert (Hl1 : zlen (encode_format format) = 1) by by destruct format.
  assert (Ef : wrapping 32 (zlen fragment) = zlen fragment) by (apply wrapping_id; unfold is_uint; lia).
  destruct (existing_page _ _ _ _ _ _) as [pg|] eqn:Hp; injection Hex as -> -> ->.
  - apply existing_page_spec in Hp as (Hlt & -> & Hdec & _).
    assert (Ew : wrapping 16 (last_index d - 1) = last_index d - 1) by (apply wrapping_id; unfold is_uint; lia).
    pose proof (last_page q d Hlt) as Hlp. unfold q1. rewrite Ew.
    destruct (put_page q d (last_index d - 1) (message_at q (recipient d) (last_index d - 1) ++ fragment) d' Hd)
      as [Hpp Hok]; try done; try (cbn; lia).
    assert (Eq : queued' = bytes_of (pages q d) + zlen fragment) by (unfold queued', saturating_add; lia).
    split.
    + apply Hok; cbn [queued_bytes d']; [|unfold is_uint; lia]. rewrite Hpp, Eq, Hlp at 1.
      rewrite !bytes_of_app. cbn. rewrite zlen_app. lia.
    + rewrite Hpp. rewrite Hlp at 1. by constructor.
  - assert (Ew : wrapping 16 (last_index d + 1) = last_index d + 1) by (apply wrapping_id; unfold is_uint; lia).
    assert (Eq : queued' = queued_bytes d + 1 + zlen fragment).
    { unfold queued'. rewrite Hl1, (wrapping_id 32 1), Ef by done. unfold saturating_add. lia. }
    unfold q1. subst d'. rewrite Ew, Eq.
    replace (wrapping 16 (last_index d + 1 - 1)) with (last_index d)
      by (rewrite wrapping_id; unfold is_uint; lia).
    set (d' := mkDetails _ _ _ _ _ _ _).
    destruct (put_page q d (last_index d) (encode_format format ++ fragment) d' Hd) as [Hpp Hok]; try done; try (cbn; lia).
    assert (Ht : take (Z.to_nat (last_index d - first_index d)) (pages q d) = pages q d)
      by (apply take_ge; unfold pages; rewrite page_range_length; lia).
    rewrite Ht in Hpp. rewrite Hpp. split; [|constructor].
    apply Hok; [|unfold is_uint; cbn; lia].
    rewrite Hpp, bytes_of_app. cbn. rewrite zlen_app. lia.
Qed.

(** When a fragment is refused. *)
Definition refusal (info : ParaId -> option ChannelInfo) id (fragment : bytes) q : option MessageSendError :=
  match info id with
  | None => Some NoChannel
  | Some ci =>
    if Z.min (info_max_message_size ci) MaxPageSize <? zlen fragment + 1 then Some TooBig
    else if bool_decide (id ∈ recipient <$> OutboundXcmpStatus q) || (zlen (OutboundXcmpStatus q) <? MaxActiveOutboundChannels)
    then None else Some TooManyChannels
  end.

Lemma get_or_insert_total q id :
  bool_decide (id ∈ recipient <$> OutboundXcmpStatus q) || (zlen (OutboundXcmpStatus q) <? MaxActiveOutboundChannels)
  = bool_decide (is_Some (try_get_or_insert_outbound_channel (OutboundXcmpStatus q) id)).
Proof.
  unfold try_get_or_insert_outbound_channel, try_push. destruct (channel_position _ _) as [i|] eqn:Hi.
  - rewrite bool_decide_true; [by rewrite bool_decide_true by eauto|].
    apply channel_Some in Hi as (d & Hd & <-). apply list_elem_of_fmap_2. by eapply list_elem_of_lookup_2.
  - rewrite bool_decide_false by by apply channel_None. by destruct (_ <? _).
Qed.

(** The details with the flag of the format. *)
Definition noticed (format : XcmpMessageFormat) d : OutboundChannelDetails :=
  match format with
  | ConcatenatedOpaqueVersionedXcm =>
    with_flags (Flags.notice_concatenated_opaque_versioned_xcm_notification_sent (flags d)) d
  | _ => d
  end.

Lemma noticed_ok q format d :
  details_ok q d -> details_ok q (noticed format d) /\ pages q (noticed format d) = pages q d /\
  same_pages d (noticed format d).
Proof. intros [D1 D2 D3 D4 D5 D6 D7]. destruct format; (split; [by split|done]). Qed.

(** After the checks: the page is written and the fee raised beyond the threshold. *)
Lemma send_written q l i d format fragment max b page last queued :
  queue_ok q -> l !! i = Some d -> NoDup (recipient <$> l) -> details_ok q d ->
  (forall d0, d0 ∈ l /\ recipient d0 <> recipient d <-> d0 ∈ OutboundXcmpStatus q /\ recipient d0 <> recipient d) ->
  last_index d < umax 16 -> queued_bytes d + zlen fragment + 1 <= umax 32 ->
  (page, last, queued) = match existing_page (recipient d) format (zlen fragment) max (noticed format d) q with
    | Some page => (page, last_index (noticed format d), queued_bytes (noticed format d))
    | None => (encode_format format, wrapping 16 (last_index (noticed format d) + 1),
               saturating_add 32 (queued_bytes (noticed format d)) (wrapping 32 (zlen (encode_format format))))
    end ->
  let queued' := saturating_add 32 queued (wrapping 32 (zlen fragment)) in
  let q1 := set_messages (<[(recipient d, wrapping 16 (last - 1)) := page ++ fragment]> (OutboundXcmpMessages q)) q in
  let q2 := if b : bool then increase_fee_factor (recipient d) (zlen fragment) q1 else q1 in
  let d' := mkDetails (recipient (noticed format d)) (state (noticed format d)) (signals_exist (noticed format d))
              (first_index (noticed format d)) last (flags (noticed format d)) queued' in
  let q' := set_status (<[i := d']> l) q2 in
  queue_ok q' /\ saturating_sub last (first_index d') = zlen (pages_of q' (recipient d)) /\
  appended format fragment (pages q d) (pages_of q' (recipient d)) /\
  (forall id', id' <> recipient d -> pages_of q' id' = pages_of q id') /\
  get_fee_factor (recipient d) q <= get_fee_factor (recipient d) q'.
Proof.
  intros Hq Hi Hnd Hd Hl Hlast Hqb Hex.
  destruct (noticed_ok q format d Hd) as (Hd1 & Hp1 & Er & Ef & El & Eq).
  rewrite <- El in Hlast. rewrite <- Eq in Hqb.
  pose proof (write_page q format fragment max _ page last queued (flags (noticed format d)) Hd1 Hlast Hqb) as Hw.
  rewrite Er, Hp1 in *. destruct (Hw Hex) as [Hok Happ]. clear Hw. cbv zeta.
  set (q1 := set_messages _ q) in *. set (d' := mkDetails _ _ _ _ _ _ _) in *.
  set (q2 := if b then _ else q1). set (q' := set_status _ _).
  assert (Hz : 0 <= zlen fragment <= umax 64).
  { unfold zlen. destruct Hd1 as [_ _ _ _ _ [? _] _]. change (umax 32) with 4294967295 in Hqb.
    change (umax 64) with 18446744073709551615. unfold zlen in Hqb. lia. }
  pose proof (que_fees _ Hq (recipient d)) as Hfee.
  pose proof (increase_fee_spec _ _ Hfee Hz) as Hinc.
  assert (Hfees : fees_ok q2).
  { unfold q2. destruct b; [apply set_fee_ok|]; [apply Hq|change (get_fee_factor (recipient d) q1) with (get_fee_factor (recipient d) q); lia|apply Hq]. }
  assert (Hag : forall id, agree id q1 q2) by (intros id; unfold q2; by destruct b).
  destruct (replace_channel q l i d q2 d') as (Hq' & Hp' & Hothers); try done.
  - by apply (agree_ok q1).
  - intros id Hid. etransitivity; [|apply Hag]. split; [|done]. intros j. cbn.
    rewrite lookup_insert_ne; [done|]. congruence.
  - unfold q2. by destruct b.
  - fold q' in Hq', Hp', Hothers. split; [done|]. rewrite Hp'.
    rewrite <- (agree_pages q1 q2 d' (Hag _)). split; [|split; [done|split; [done|]]].
    + unfold pages, zlen. rewrite page_range_length. cbn. destruct Hok as [? ? _ _ _ _ _]. cbn in *.
      unfold saturating_sub. lia.
    + unfold q', q2. destruct b; [|apply Z.le_refl]. cbn. unfold get_fee_factor at 2. cbn. rewrite lookup_insert_eq. cbn.
      change (get_fee_factor (recipient d) q1) with (get_fee_factor (recipient d) q). lia.
Qed.


Lemma page_bound q id format fragment max d :
  max <= MaxPageSize -> zlen fragment + 1 <= max ->
  zlen (match existing_page id format (zlen fragment) max d q with
        | Some page => page
        | None => encode_format format
        end ++ fragment) <= MaxPageSize.
Proof.
  intros H1 H2. rewrite zlen_app. destruct (existing_page _ _ _ _ _ _) as [page|] eqn:Hp.
  - apply existing_page_spec in Hp as (_ & _ & _ & Hl). lia.
  - assert (zlen (encode_format format) = 1) by by destruct format. lia.
Qed.

Lemma send_fragment_spec info id format fragment q :
  queue_ok q -> room q id fragment ->
  match refusal info id fragment q with
  | Some e => send_fragment info id format fragment q = Err e
  | None => exists n q', send_fragment info id format fragment q = Ok (n, q') /\ queue_ok q' /\
      n = zlen (pages_of q' id) /\ appended format fragment (pages_of q id) (pages_of q' id) /\
      (forall id', id' <> id -> pages_of q' id' = pages_of q id') /\
      get_fee_factor id q <= get_fee_factor id q'
  end.
Proof.
  intros Hq [Hf Hroom]. unfold refusal, send_fragment. destruct (info id) as [ci|]; cbn [ok_or obind]; [|done].
  assert (Hadd : checked_add 64 (zlen fragment) (zlen (encode_format format)) = Some (zlen fragment + 1)).
  { unfold checked_add. replace (zlen (encode_format format)) with 1 by by destruct format.
    change (umax 32) with 4294967295 in Hf. change (umax 64) with 18446744073709551615.
    destruct (Z.leb_spec (zlen fragment + 1) 18446744073709551615); [done|lia]. }
  rewrite Hadd. cbn [ok_or obind]. set (max := Z.min _ MaxPageSize).
  destruct (Z.ltb_spec max (zlen fragment + 1)) as [|Hmax]; [done|].
  rewrite get_or_insert_total.
  destruct (try_get_or_insert_outbound_channel _ _) as [[l i]|] eqn:Hg; cbn [ok_or obind]; [|done].
  rewrite bool_decide_true by eauto.
  destruct (get_or_insert_spec _ _ _ _ Hq Hg) as (d & Hi & <- & Hd & Hpd & Hor & Hnd & Hl).
  rewrite Hi. cbn [expect obind]. fold (noticed format d).
  destruct (match existing_page _ _ _ _ _ _ with Some page => _ | None => _ end) as [[page last] queued] eqn:Hex.
  pose proof (page_bound q (recipient d) format fragment max (noticed format d) ltac:(lia) Hmax) as Hpb.
  assert (Hpage : zlen (page ++ fragment) <= MaxPageSize).
  { destruct (existing_page _ _ _ _ _ _); injection Hex as <- <- <-; done. }
  destruct (Z.ltb_spec MaxPageSize (zlen (page ++ fragment))); [lia|].
  eexists _, _. split; [reflexivity|]. rewrite <- Hpd.
  assert (Hlim : last_index d < umax 16 /\ queued_bytes d + zlen fragment + 1 <= umax 32).
  { destruct Hor as [Hin|Ed]; [by apply Hroom|]. rewrite Ed. cbn. change (umax 16) with 65535. lia. }
  eapply send_written; try done; apply Hlim.
Qed.

(** ** The abstract queue *)

(** What is visible of an operation: a fragment sent, the messages of a block
    taken, all messages cleared, or nothing. *)
Inductive action : Type :=
| Send (id : ParaId) (format : XcmpMessageFormat) (fragment : bytes)
| Take (status : ParaId -> ChannelStatus) (maximum : Z) (excluded : list ParaId) (taken : list (ParaId * bytes))
| Clear
| Internal.

(** What a block takes from one channel with pages [old], leaving [new]. *)
Inductive taken_from (st : ChannelStatus) (id : ParaId) (taken : list (ParaId * bytes)) (old new : list bytes) : Prop :=
| taken_closed : st = Closed -> new = [] -> (forall p, (id, p) ∉ taken) -> taken_from st id taken old new
| taken_nothing : new = old -> (forall p, (id, p) ∉ taken) -> taken_from st id taken old new
| taken_front now ever p :
  st = Ready now ever -> old = p :: new -> zlen p < now -> zlen p <= ever -> (id, p) ∈ taken ->
  taken_from st id taken old new
| taken_oversize now ever p :
  st = Ready now ever -> old = p :: new -> ever < zlen p -> (forall p, (id, p) ∉ taken) ->
  taken_from st id taken old new
| taken_control now ever p :
  st = Ready now ever -> new = old -> (id, p) ∈ taken -> zlen p <= ever ->
  decode_format p = Some Signals \/ p = encode_format ConcatenatedOpaqueVersionedXcm ->
  taken_from st id taken old new.

(** One step of a family of first-in first-out queues of pages. *)
Inductive fifo_step (c c' : ParaId -> list bytes) : action -> Prop :=
| fifo_send id format fragment :
  appended format fragment (c id) (c' id) -> (forall id', id' <> id -> c' id' = c id') ->
  fifo_step c c' (Send id format fragment)
| fifo_take status maximum excluded taken :
  NoDup taken.*1 -> StronglySorted key_le taken -> (0 <= maximum -> zlen taken <= maximum) ->
  (forall id, id ∈ excluded -> forall p, (id, p) ∉ taken) ->
  (forall id, taken_from (status id) id taken (c id) (c' id)) ->
  fifo_step c c' (Take status maximum excluded taken)
| fifo_clear : (forall id, c' id = []) -> fifo_step c c' Clear
| fifo_internal : (forall id, c' id = c id) -> fifo_step c c' Internal.

(** The operations of the pallet. *)
Inductive queue_step q : action -> Queue -> Prop :=
| step_send_fragment info id format fragment n q' :
  room q id fragment -> send_fragment info id format fragment q = Ok (n, q') ->
  queue_step q (Send id format fragment) q'
| step_send_signal dest signal q' : send_signal dest signal q = Ok q' -> queue_step q Internal q'
| step_suspend target : queue_step q Internal (suspend_channel target q)
| step_resume target : queue_step q Internal (resume_channel target q)
| step_changed para ready_pages : queue_step q Internal (on_queue_changed para ready_pages q)
| step_notice target : queue_step q Internal (notice_opaque_support target q)
| step_suspend_execution origin_ok q' : suspend_xcm_execution origin_ok q = Ok q' -> queue_step q Internal q'
| step_resume_execution origin_ok q' : resume_xcm_execution origin_ok q = Ok q' -> queue_step q Internal q'
| step_update origin_ok f q' : try_mutate_config origin_ok f q = Ok q' -> queue_step q Internal q'
| step_clear : queue_step q Clear (clear_messages q)
| step_take status info maximum excluded taken q' :
  xcmp_take_outbound_messages status info maximum excluded q = Some (taken, q') ->
  queue_step q (Take status maximum excluded taken) q'.

Lemma clear_messages_ok q : queue_ok q -> queue_ok (clear_messages q) /\ forall id, pages_of (clear_messages q) id = [].
Proof.
  intros [Q1 Q2 Q3 Q4 Q5]. unfold clear_messages.
  assert (Hrec : recipient <$> OutboundXcmpStatus (clear_messages q) = recipient <$> OutboundXcmpStatus q)
    by (cbn; rewrite <- list_fmap_compose; by apply list_fmap_ext).
  assert (Hdet : forall d, d ∈ OutboundXcmpStatus (clear_messages q) -> first_index d = 0 /\ last_index d = 0 /\ queued_bytes d = 0 /\
    exists d0, d0 ∈ OutboundXcmpStatus q /\ recipient d = recipient d0 /\ signals_exist d = signals_exist d0).
  { intros d (d0 & -> & Hd0)%list_elem_of_fmap. split_and!; [done..|]. by exists d0. }
  assert (Hq' : queue_ok (clear_messages q)).
  { split; [by rewrite Hrec| |cbn; intros id i; rewrite lookup_empty; by intros [? ?]|done|done].
    apply Forall_forall. intros d Hd. destruct (Hdet d Hd) as (E1 & E2 & E3 & d0 & Hd0 & E4 & E5).
    split; rewrite ?E1, ?E2, ?E3; [lia|vm_compute; discriminate|lia| | |vm_compute; split; discriminate|].
    - intros i. cbn. rewrite lookup_empty. by intros [? ?].
    - unfold pages. by rewrite E1, E2.
    - rewrite E5, E4. rewrite Forall_forall in Q2. apply (det_signals _ _ (Q2 d0 Hd0)). }
  split; [done|]. intros id. destruct (decide (id ∈ recipient <$> OutboundXcmpStatus (clear_messages q))) as [Hin|Hin].
  - apply list_elem_of_fmap in Hin as (d & -> & Hd). fold (clear_messages q). rewrite pages_of_in by (done || apply Hq').
    destruct (Hdet d Hd) as (E1 & E2 & _). unfold pages. by rewrite E1, E2.
  - by apply pages_of_notin.
Qed.

Lemma not_taken status excluded q d taken q' kept :
  channel_taken status excluded q d taken q' kept None -> forall p, (recipient d, p) ∉ taken.
Proof. intros [_ C2 _ _] p Hp. by apply C2 in Hp. Qed.

Lemma sent_taken now ever st d q page d' q' taken :
  queue_ok q -> d ∈ OutboundXcmpStatus q -> st = Ready now ever -> sent now d q page d' q' ->
  zlen page <= ever -> (recipient d, page) ∈ taken ->
  taken_from st (recipient d) taken (pages q d) (pages q' d').
Proof.
  intros Hq Hd Hst Hs Hl Hin. destruct Hs as [Hs _ -> _ Hp|_ _ Hn Hp|_ _ _ _ -> Hp].
  - eapply taken_control; [done|done|exact Hin|done|]. left.
    destruct Hq as [_ Q2 _ _ Q5]. rewrite Forall_forall in Q2.
    destruct (det_signals _ _ (Q2 d Hd) Hs) as [page Hpage]. unfold signal_of. rewrite Hpage. by apply (Q5 (recipient d)).
  - by eapply taken_front.
  - eapply taken_control; [done|done|exact Hin|done|by right].
Qed.

Lemma outcome_taken_from status excluded q d taken q' kept page :
  queue_ok q -> queue_ok q' -> d ∈ OutboundXcmpStatus q ->
  (forall d', d' ∈ OutboundXcmpStatus q' -> recipient d' ∈ recipient <$> OutboundXcmpStatus q) ->
  channel_taken status excluded q d taken q' kept page ->
  taken_from (status (recipient d)) (recipient d) taken (pages_of q (recipient d)) (pages_of q' (recipient d)).
Proof.
  intros Hq Hq' Hd Hsub Hct. pose proof (que_distinct _ Hq) as Hnd. pose proof (que_distinct _ Hq') as Hnd'.
  rewrite (pages_of_in q d) by done.
  assert (Hk : forall d', kept = Some d' -> recipient d' = recipient d /\ pages_of q' (recipient d) = pages q' d').
  { intros d' Hd'. apply (ct_kept _ _ _ _ _ _ _ _ Hct) in Hd' as [Hin <-]. split; [done|]. by apply pages_of_in. }
  pose proof (ct_outcome _ _ _ _ _ _ _ _ Hct) as Ho.
  destruct Ho as [Hc Hn|Hc Hp|now ever page d' Hst Hr Hs Hl|now ever page d' Hst Hr Hs Hl].
  - apply taken_closed; [done| |by eapply not_taken]. apply pages_of_notin.
    intros (d' & E & Hin)%list_elem_of_fmap.
    discriminate (proj1 (ct_kept _ _ _ _ _ _ _ _ Hct d') (conj Hin (eq_sym E))).
  - destruct (Hk d eq_refl) as [_ ->]. apply taken_nothing; [done|]. by eapply not_taken.
  - destruct (Hk d' eq_refl) as [_ ->]. eapply sent_taken; try done.
    by apply (ct_page _ _ _ _ _ _ _ _ Hct).
  - destruct (Hk d' eq_refl) as [_ ->]. pose proof (not_taken _ _ _ _ _ _ _ Hct) as Hnt.
    destruct Hs as [? ? ? ? Hp|? ? ? Hp|? ? ? ? ? Hp]; [by apply taken_nothing|by eapply taken_oversize|by apply taken_nothing].
Qed.

Lemma queue_step_fifo q a q' :
  queue_ok q -> queue_step q a q' -> queue_ok q' /\ fifo_step (pages_of q) (pages_of q') a.
Proof.
  intros Hq Hstep. destruct Hstep as [info id format fragment n q' Hroom Hs|dest signal q' Hs|target|target|para ready|
    target|ok q' Hs|ok q' Hs|ok f q' Hs| |status info maximum excluded taken q' Ht].
  - pose proof (send_fragment_spec info id format fragment q Hq Hroom) as Hspec.
    destruct (refusal _ _ _ _); [congruence|]. destruct Hspec as (n' & q1 & E & Hq1 & _ & Ha & Ho & _).
    replace q' with q1 by congruence. split; [done|]. by apply fifo_send.
  - destruct (send_signal_ok _ _ _ _ Hq Hs) as [[? ?] _]. split; [done|by apply fifo_internal].
  - destruct (suspend_channel_ok target q Hq). split; [done|by apply fifo_internal].
  - destruct (resume_channel_ok target q Hq). split; [done|by apply fifo_internal].
  - destruct (on_queue_changed_ok para ready q Hq). split; [done|by apply fifo_internal].
  - destruct (notice_opaque_support_ok target q Hq). split; [done|by apply fifo_internal].
  - unfold suspend_xcm_execution in Hs. repeat case_match; simplify_eq.
    destruct (reconfigured_ok q (QueueConfig q) true Hq). split; [done|by apply fifo_internal].
  - unfold resume_xcm_execution in Hs. repeat case_match; simplify_eq.
    destruct (reconfigured_ok q (QueueConfig q) false Hq). split; [done|by apply fifo_internal].
  - unfold try_mutate_config in Hs. repeat case_match; simplify_eq.
    destruct (reconfigured_ok q (f (QueueConfig q)) (QueueSuspended q) Hq). split; [done|by apply fifo_internal].
  - destruct (clear_messages_ok q Hq). split; [done|by apply fifo_clear].
  - destruct (take_spec status info maximum excluded q Hq) as (? & ? & Ht' & Hq' & Hnd & Hsort & Hmax & Hid & Hall & Hsub).
    rewrite Ht' in Ht. injection Ht as -> ->. split; [done|]. apply fifo_take; try done.
    + intros id Hex p Hp. pose proof (Hid _ _ Hp) as (d & -> & Hd)%list_elem_of_fmap.
      destruct (Hall d Hd) as (kept & page & Hct). apply (ct_page _ _ _ _ _ _ _ _ Hct) in Hp as ->.
      by apply (ct_excluded _ _ _ _ _ _ _ _ Hct).
    + intros id. destruct (decide (id ∈ recipient <$> OutboundXcmpStatus q)) as [Hin|Hin].
      * apply list_elem_of_fmap in Hin as (d & -> & Hd). destruct (Hall d Hd) as (kept & page & Hct).
        by eapply outcome_taken_from.
      * rewrite (pages_of_notin q), (pages_of_notin q'); [|intros (d' & -> & Hd')%list_elem_of_fmap; auto|done].
        apply taken_nothing; [done|]. intros p Hp. by apply Hid in Hp.
Qed.

(** ** Fairness *)

(** A channel that has something to send, for which there is room. *)
Definition able (status : ParaId -> ChannelStatus) d q : Prop :=
  exists now ever page d' q', status (recipient d) = Ready now ever /\
    fetch_page now d q = Some (page, d', q') /\ zlen page <= ever.

Definition all_able status (excluded : list ParaId) q : Prop :=
  forall d, d ∈ OutboundXcmpStatus q -> able status d q /\ recipient d ∉ excluded.

Lemma able_agree status d q q' : agree (recipient d) q q' -> able status d q -> able status d q'.
Proof.
  intros [Hm Hs] (now & ever & page & d' & q1 & Hst & Hf & Hl).
  assert (Hsig : signal_of q' (recipient d) = signal_of q (recipient d)) by (unfold signal_of; by rewrite Hs).
  assert (Hmsg : message_at q' (recipient d) (first_index d) = message_at q (recipient d) (first_index d))
    by (unfold message_at; by rewrite Hm).
  exists now, ever, page, d'. unfold fetch_page in *. rewrite Hsig, Hmsg.
  repeat case_match; simplify_eq; eexists; done.
Qed.

Section rotation.
Context (status : ParaId -> ChannelStatus) (info : ParaId -> option ChannelInfo).
Context (count : Z) (excluded : list ParaId).

Lemma attend_able d result q :
  details_ok q d -> fees_ok q -> able status d q -> recipient d ∉ excluded -> zlen result <> count ->
  exists d' page q', attended status info count excluded d result q (Some d') (Some page) q'.
Proof.
  intros Hd Hf (now & ever & page & d1 & q1 & Hst & Hfetch & Hl) Hex Hc.
  destruct (attend_spec status info count excluded d result q Hd Hf) as (kept & page' & q' & Ha).
  pose proof (att_run _ _ _ _ _ _ _ _ _ _ Ha) as Hrun. unfold attend in Hrun.
  rewrite Hst, bool_decide_false, Hfetch in Hrun by done.
  destruct (Z.eqb_spec (zlen result) count); [done|]. destruct (Z.ltb_spec ever (zlen page)); [lia|].
  assert (kept = Some (reset_if_empty d1) /\ page' = Some page) as [-> ->].
  { destruct (_ <=? _); [apply bind_Some in Hrun as (q2 & _ & Hrun)|]; injection Hrun as <- Hr _;
      apply app_inv_head in Hr; destruct page'; naive_solver. }
  by eexists _, _, _.
Qed.

Lemma retain_able statuses : forall result q,
  NoDup (recipient <$> statuses) -> Forall (details_ok q) statuses -> fees_ok q ->
  (forall d, d ∈ statuses -> able status d q /\ recipient d ∉ excluded) -> zlen result <= count ->
  exists kept new q', retain_mut (attend status info count excluded) statuses result q = Some (kept, result ++ new, q') /\
    recipient <$> kept = recipient <$> statuses /\
    new.*1 = take (Z.to_nat (count - zlen result)) (recipient <$> statuses).
Proof.
  induction statuses as [|d statuses IH]; intros result q Hnd Hds Hf Hab Hc.
  { exists [], [], q. cbn. rewrite app_nil_r. split; [done|]. split; [done|]. by rewrite take_nil. }
  cbn in Hnd. apply NoDup_cons in Hnd as [Hnin Hnd]. apply Forall_cons in Hds as [Hd Hds].
  destruct (Hab d) as [Habd Hex]; [by left|].
  destruct (Z.eq_dec (zlen result) count) as [E|Hne].
  - destruct (IH result q) as (kept & new & q' & Hr & Hk & Hn); try done; [intros d' Hd'; apply Hab; by right|].
    exists (d :: kept), new, q'. destruct Habd as (now & ever & page & d1 & q1 & Hst & _ & _).
    assert (Ha : attend status info count excluded d result q = Some (Some d, result, q))
      by (unfold attend; by rewrite Hst, bool_decide_false, E, Z.eqb_refl by done).
    cbn [retain_mut]. rewrite Ha. cbn [mbind option_bind]. rewrite Hr. cbn. split; [done|]. split; [by rewrite Hk|]. rewrite Hn, E, Z.sub_diag. done.
  - destruct (attend_able d result q) as (d' & page & q1 & [A1 A2 A3 A4 A5 A6 AS A7]); try done.
    assert (Hag : forall d0, d0 ∈ statuses -> agree (recipient d0) q q1).
    { intros d0 Hd0. apply A6. intros E. apply Hnin. rewrite <- E. by apply list_elem_of_fmap_2. }
    destruct (IH (result ++ [(recipient d, page)]) q1) as (kept & new & q' & Hr & Hk & Hn); try done.
    + apply Forall_forall. intros d0 Hd0. rewrite Forall_forall in Hds. eapply agree_ok; [by apply Hag|by apply Hds].
    + intros d0 Hd0. destruct (Hab d0) as [? ?]; [by right|]. split; [|done]. eapply able_agree; [by apply Hag|done].
    + rewrite zlen_app. unfold zlen in *. cbn. lia.
    + exists (d' :: kept), ((recipient d, page) :: new), q'.
      change (option_list ((recipient d,.) <$> Some page)) with [(recipient d, page)] in A1.
      cbn [retain_mut]. rewrite A1. cbn [mbind option_bind]. rewrite Hr. cbn. rewrite <- app_assoc. destruct (A3 d' eq_refl) as [-> _]. rewrite Hk, Hn.
      split; [done|]. split; [done|]. rewrite zlen_app.
      replace (Z.to_nat (count - zlen result)) with (S (Z.to_nat (count - (zlen result + zlen [(recipient d, page)]))))
        by (unfold zlen; cbn; unfold zlen in *; lia). done.
Qed.
End rotation.

(** If every channel can send, the first ones do, and they go to the back. *)
Lemma take_able status info n excluded q taken q' :
  queue_ok q -> all_able status excluded q -> 0 <= n ->
  xcmp_take_outbound_messages status info n excluded q = Some (taken, q') ->
  let k := Z.to_nat (Z.min (zlen (OutboundXcmpStatus q)) n) in
  let rs := recipient <$> OutboundXcmpStatus q in
  taken.*1 ≡ₚ take k rs /\ recipient <$> OutboundXcmpStatus q' = drop k rs ++ take k rs.
Proof.
  intros Hq Hab Hn Ht k rs. pose proof Hq as [Q1 Q2 _ Q4 _]. unfold xcmp_take_outbound_messages in Ht.
  destruct (retain_able status info (Z.min (zlen (OutboundXcmpStatus q)) n) excluded (OutboundXcmpStatus q) [] q)
    as (kept & new & q1 & Hr & Hk & Hnew); try done; [unfold zlen; cbn; lia|].
  rewrite Hr in Ht. cbn [mbind option_bind app] in Ht. injection Ht as <- <-.
  change (zlen (@nil (ParaId * bytes))) with 0 in Hnew. rewrite Z.sub_0_r in Hnew. fold k rs in Hnew.
  assert (Hlen : length kept = length (OutboundXcmpStatus q)) by (apply (f_equal length) in Hk; by rewrite !length_fmap in Hk).
  assert (Hln : length new = k).
  { apply (f_equal length) in Hnew. rewrite length_fmap, length_take in Hnew. unfold rs in Hnew.
    rewrite length_fmap in Hnew. unfold k, zlen in *. lia. }
  split; [by rewrite merge_sort_Permutation, Hnew|]. cbn. rewrite Hlen, Nat.sub_diag, Nat.sub_0_r, Hln.
  unfold try_rotate_left. replace (Nat.leb k (length kept)) with true
    by (symmetry; apply Nat.leb_le; unfold k, zlen; lia).
  by rewrite fmap_app, fmap_drop, fmap_take, Hk.
Qed.

(** A run of blocks: in each one every channel can send and at most [n] messages
    leave; between blocks, channels may be added behind the others. *)
Inductive blocks_of (n : Z) : Queue -> list (list (ParaId * bytes)) -> Prop :=
| blocks_nil q : blocks_of n q []
| blocks_cons q status info excluded taken q1 q2 rest :
  queue_ok q -> all_able status excluded q ->
  xcmp_take_outbound_messages status info n excluded q = Some (taken, q1) ->
  (recipient <$> OutboundXcmpStatus q1) `prefix_of` (recipient <$> OutboundXcmpStatus q2) ->
  blocks_of n q2 rest -> blocks_of n q (taken :: rest).

Lemma blocks_serve n q run : blocks_of n q run -> 1 <= n -> forall i id,
  (recipient <$> OutboundXcmpStatus q) !! i = Some id -> Z.of_nat i < n * zlen run ->
  Exists (fun taken => id ∈ taken.*1) run.
Proof.
  intros Hrun Hn. induction Hrun as [q|q status info excluded taken q1 q2 rest Hq Hab Ht [more Hp] _ IH]; intros i id Hi Hlt.
  { unfold zlen in Hlt. cbn in Hlt. lia. }
  assert (Hn0 : 0 <= n) by lia. destruct (take_able _ _ _ _ _ _ _ Hq Hab Hn0 Ht) as [Htk Hrot].
  set (k := Z.to_nat (Z.min (zlen (OutboundXcmpStatus q)) n)) in *.
  destruct (decide (i < k)%nat) as [Hik|Hik].
  - apply Exists_cons_hd. rewrite Htk. apply (list_elem_of_lookup_2 _ i). by rewrite lookup_take_lt.
  - apply Exists_cons_tl. pose proof (lookup_lt_Some _ _ _ Hi) as Hlen. rewrite length_fmap in Hlen.
    assert (Hk : k = Z.to_nat n) by (unfold k, zlen in *; lia).
    apply (IH (i - k)%nat).
    + rewrite Hp, Hrot, <- app_assoc. rewrite lookup_app_l by (rewrite length_drop, length_fmap; lia).
      rewrite lookup_drop. by replace (k + (i - k))%nat with i by lia.
    + unfold zlen in *. cbn [length] in Hlt. rewrite Nat2Z.inj_succ, Z.mul_succ_r in Hlt. lia.
Qed.

(** ** Properties *)

(** The pallet before its first operation. *)
Definition empty_queue (config : QueueConfigData) : Queue := mkQueue [] ∅ ∅ ∅ ∅ config false.

Lemma empty_queue_ok config : queue_ok (empty_queue config).
Proof.
  split; cbn.
  - constructor.
  - constructor.
  - intros id i. rewrite lookup_empty. by intros [? ?].
  - intros id. unfold get_fee_factor. cbn. rewrite lookup_empty. cbn [default].
    split; [apply Z.le_refl|]. vm_compute. discriminate.
  - apply map_Forall_empty.
Qed.

Definition queue_reachable (config : QueueConfigData) q : Prop :=
  rtc (fun q q' => exists a, queue_step q a q') (empty_queue config) q.

Lemma reachable_queue_ok config q : queue_reachable config q -> queue_ok q.
Proof.
  intros Hr. assert (Hok : queue_ok (empty_queue config)) by apply empty_queue_ok. unfold queue_reachable in Hr.
  induction Hr as [|q1 q2 q3 [a Hs] _ IH]; [done|]. apply IH. by eapply queue_step_fifo.
Qed.

(** C18: the pallet implements one first-in first-out queue of pages per recipient.
    A fragment sent is appended to the last page or starts a new one; a block
    takes from each channel at most its front page or one control page, in
    ascending order of recipients and within the given number, and only a page
    too large for the channel or the pages of a closed channel are dropped;
    [clear_messages] empties all queues, and every other operation leaves them
    alone.  The byte count cached for a channel is the exact size of its queue.
    A fragment is sent with [room] for it: the last page index of the channel is
    below [u16::MAX] and its byte count stays a [u32].  Without it the claim is
    false, as the index wraps and the queue looks empty ([page_index_wraps]). *)
Theorem xcmp_queue_refines_fifo config q a q' :
  queue_reachable config q -> queue_step q a q' ->
  fifo_step (pages_of q) (pages_of q') a /\
  (forall d, d ∈ OutboundXcmpStatus q' -> queued_bytes d = bytes_of (pages_of q' (recipient d))).
Proof.
  intros Hr Hs. apply reachable_queue_ok in Hr. destruct (queue_step_fifo q a q' Hr Hs) as [Hq' Hf].
  split; [done|]. intros d Hd. rewrite pages_of_in by (done || apply Hq').
  destruct Hq' as [_ Q2 _ _ _]. rewrite Forall_forall in Q2. apply (det_bytes _ _ (Q2 d Hd)).
Qed.

(** C20: no channel starves.  In a run of blocks in which every channel has a page
    that fits, a channel at position [i] is served once the blocks together send
    more than [i] messages, however many channels join behind it. *)
Theorem xcmp_channels_served n q run i d :
  1 <= n -> blocks_of n q run -> OutboundXcmpStatus q !! i = Some d -> Z.of_nat i < n * zlen run ->
  exists taken, taken ∈ run /\ recipient d ∈ taken.*1.
Proof.
  intros Hn Hr Hi Hlt. apply (blocks_serve n q run) with (id := recipient d) in Hlt; [|done..|].
  - by apply Exists_exists in Hlt.
  - by rewrite list_lookup_fmap, Hi.
Qed.
End queue_proofs.

(** ** The queue below the parachain system *)

(** The notification, handed over for a channel that is full to the byte. *)
Definition notified_when_full (s : MessagingStateSnapshot) q (taken : list (ParaId * bytes)) : Prop :=
  exists d ever, d ∈ OutboundXcmpStatus q /\ notifies d /\ get_channel_status (Some s) (recipient d) = Ready 0 ever /\
    (recipient d, encode_format ConcatenatedOpaqueVersionedXcm) ∈ taken.

Definition fits_channel (s : MessagingStateSnapshot) (m : ParaId * bytes) : bool :=
  match get_channel_status (Some s) m.1 with Ready now _ => zlen m.2 <=? now | _ => false end.

Lemma queue_finalizes {B : QueueBounds} {H Root : Type} `{EqDecision H, EqDecision Root}
    (encode : UMPSignal -> bytes) (zero : Root) (p : Pallet H Root Queue) digest vfp hc state s :
  pallet_ok p -> ready_to_finalize queue_ok p vfp hc state -> within (segment_used (AggregatedUnincludedSegment p)) state ->
  adjust_egress_bandwidth_limits (AggregatedUnincludedSegment p) (Some state) = Some s ->
  exists taken q', handed_over zero digest p = Some (taken, q') /\
    (on_finalize encode zero digest p = None <-> notified_when_full s (OutboundXcmp p) taken).
Proof.
  intros Hp Hr Hw Hs. destruct (finalize_run encode zero digest p vfp hc state Hp Hr) as (s1 & _ & taken & q' & _ & [Hs1 _ Hho _ _ _ _ _ _] & _).
  assert (s1 = s) as -> by congruence. exists taken, q'. split; [done|].
  pose proof Hho as Htake. unfold handed_over in Htake. pose proof Hr as [E1 E2 E3 _ _ Hq].
  rewrite E1, E2, E3 in Htake. cbn [mbind option_bind] in Htake. cbv zeta in Htake. rewrite Hs in Htake. split.
  - intros Hnone. destruct (decide (Forall (fun m => fits_channel s m = true) taken)) as [Hall|Hnot].
    + destruct (finalize_spec encode zero digest p vfp hc state taken q' Hp Hr Hw Hho) as (p' & a & Hf & _); [|congruence].
      intros s' Hs' id d Hin. assert (s' = s) as -> by congruence. rewrite Forall_forall in Hall. apply Hall in Hin.
      unfold fits_channel in Hin. cbn [fst snd] in Hin. destruct (get_channel_status (Some s) id) as [| |now ever]; [done..|].
      exists now, ever. split; [done|]. by apply Z.leb_le.
    + apply not_Forall_Exists in Hnot; [|apply _]. apply Exists_exists in Hnot as ([id page] & Hin & Hlt).
      destruct (taken_page _ _ _ _ _ _ _ _ _ Hq Htake Hin) as (d & now & ever & Hd & <- & Hst & Hfit).
      unfold fits_channel in Hlt. cbn [fst snd compose] in Hlt. rewrite Hst in Hlt. apply not_true_is_false, Z.leb_gt in Hlt.
      destruct Hfit as [|[Hn ->]]; [lia|]. apply status_Ready in Hst as Hnow. destruct Hnow as (c & _ & _ & Enow).
      assert (now = 0) as ->.
      { pose proof (Z.mod_pos_bound (max_total_size c - total_size c) (2 ^ 32) ltac:(lia)). unfold wrapping in Enow.
        change (zlen (encode_format ConcatenatedOpaqueVersionedXcm)) with 1 in Hlt. lia. }
      by exists d, ever.
  - intros (d & ever & Hd & Hn & Hst & Hin).
    apply (finalize_stuck encode zero digest p vfp hc state s taken q' (recipient d) (encode_format ConcatenatedOpaqueVersionedXcm) 0 ever); try done; vm_compute; try split; discriminate || reflexivity.
Qed.

(** A runtime with small bounds, and a parachain with one channel. *)
#[local] Instance example_bounds : QueueBounds :=
  { MaxPageSize := 100; MaxActiveOutboundChannels := 2; MaxInboundSuspended := 1 }.

Definition example_info (id : ParaId) : option ChannelInfo :=
  if id =? 2000 then Some (mkChannelInfo 8 64 32 0 0) else None.

(** One fragment of two bytes, for the channel 2000. *)
Definition example_queue : Queue := Eval vm_compute in
  match send_fragment example_info 2000 ConcatenatedVersionedXcm [x05; x06] (empty_queue default_queue_config) with
  | Ok (_, q) => q
  | _ => empty_queue default_queue_config
  end.

Definition queue_genesis : Pallet nat Z Queue :=
  mkPallet [] None None (Some example_host) None 0 false None None None None [] [] [] None
    FeeTracker.MIN_FEE_FACTOR None None 0 0 [] (empty_queue default_queue_config).

(** The relay chain state when [total_size] bytes of 64 are in use. *)
Definition queue_relay (total_size : Z) : MessagingStateSnapshot :=
  mkSnapshot 10 100 [(2000, mkChannel 8 64 32 1 total_size)].

Definition queue_block (total_size : Z) : option (Pallet nat Z Queue) :=
  '(p, _) ← on_initialize example_db false 0 NotFound 7%nat queue_genesis;
  match set_validation_data example_config true (example_data 5 7 (queue_relay total_size)) (CapacityValue 2) 7%nat p with
  | Ok p => Some (set_queue example_queue p)
  | _ => None
  end.

Definition queue_full : Pallet nat Z Queue := Eval vm_compute in default queue_genesis (queue_block 64).
Definition queue_partly : Pallet nat Z Queue := Eval vm_compute in default queue_genesis (queue_block 10).

Lemma example_queue_ok : queue_ok example_queue.
Proof.
  apply (reachable_queue_ok default_queue_config). apply rtc_once. exists (Send 2000 ConcatenatedVersionedXcm [x05; x06]).
  apply (step_send_fragment _ example_info _ _ _ 1); [|vm_compute; reflexivity].
  split; [vm_compute; discriminate|]. intros d Hd. by apply elem_of_nil in Hd.
Qed.

Lemma queue_relay_ok t : 0 <= t <= 64 -> relay_ok (queue_relay t).
Proof.
  intros Ht. split; [vm_compute; split; [discriminate|reflexivity]..| |].
  - repeat constructor.
  - intros id c Hc. unfold get_channel, channel_index in Hc. cbn in Hc.
    destruct (decide (2000 = id)); cbn in Hc; [injection Hc as <-|done].
    split; cbn; [lia|lia|reflexivity..].
Qed.

Lemma queue_genesis_ok : genesis queue_ok queue_genesis.
Proof. split; try done. apply empty_queue_ok. Qed.

Lemma queue_block_reachable t p :
  0 <= t <= 64 -> queue_block t = Some p ->
  rtc (block_step (Hdr := example_header) example_encode 0 queue_ok) (Finalized, queue_genesis) (InherentDone, p).
Proof.
  intros Ht Hb. apply bind_Some in Hb as ([p1 w] & H1 & Hb).
  destruct (set_validation_data _ _ _ _ _ _) as [p2| |] eqn:H2; [|done..]. injection Hb as <-.
  eapply rtc_l; [by eapply step_initialize|]. eapply rtc_l; [eapply step_inherent; [| |exact H2]|].
  - vm_compute in H1. injection H1 as <- <-. vm_compute. discriminate.
  - by apply example_sound, queue_relay_ok.
  - apply rtc_once, step_queue, example_queue_ok.
Qed.

Lemma queue_block_within t p :
  0 <= t <= 64 -> queue_block t = Some p ->
  AggregatedUnincludedSegment p = None /\ RelevantMessagingState p = Some (queue_relay t) /\
  within (segment_used (AggregatedUnincludedSegment p)) (queue_relay t).
Proof.
  intros Ht Hb. apply bind_Some in Hb as ([p1 w] & H1 & Hb). vm_compute in H1. injection H1 as <- <-.
  destruct (set_validation_data _ _ _ _ _ _) as [p2| |] eqn:H2; [|done..]. injection Hb as <-.
  vm_compute in H2. injection H2 as <-. split; [done|]. split; [done|].
  split; [vm_compute; discriminate..|]. intros id c Hc. apply (relay_channels _ (queue_relay_ok t Ht)) in Hc.
  replace (channel _ id) with default_update by reflexivity. destruct Hc as [? ? _ _].
  cbn [upd_msg_count upd_total_bytes default_update]. lia.
Qed.

(** C19: the XCMP queue below the parachain system.  In a block whose inherent ran,
    with room on the relay chain for what the unincluded segment sent, the queue
    always hands over its messages, and [on_finalize] panics exactly if one of
    them is the notification of the opaque format for a channel that is full to
    the byte: the only page that the queue sends without a check of the room
    left.  Such a block can be reached. *)
Theorem finalize_with_xcmp_queue :
  (forall (B : QueueBounds) (H Root Hdr : Type) (EqH : EqDecision H) (EqR : EqDecision Root) (RH : RelayHeaders Hdr Root)
      (encode : UMPSignal -> bytes) (zero : Root) (p0 p : Pallet H Root Queue) digest state s,
    genesis queue_ok p0 -> rtc (block_step (Hdr := Hdr) encode zero queue_ok) (Finalized, p0) (InherentDone, p) ->
    RelevantMessagingState p = Some state -> within (segment_used (AggregatedUnincludedSegment p)) state ->
    adjust_egress_bandwidth_limits (AggregatedUnincludedSegment p) (Some state) = Some s ->
    exists taken q', handed_over zero digest p = Some (taken, q') /\
      (on_finalize encode zero digest p = None <-> notified_when_full s (OutboundXcmp p) taken)) /\
  (exists (B : QueueBounds) (p0 p : Pallet nat Z Queue) digest state,
    genesis queue_ok p0 /\
    rtc (block_step (Hdr := example_header) example_encode 0 queue_ok) (Finalized, p0) (InherentDone, p) /\
    RelevantMessagingState p = Some state /\ within (segment_used (AggregatedUnincludedSegment p)) state /\
    on_finalize example_encode 0 digest p = None).
Proof.
  split.
  - intros B H Root Hdr EqH EqR RH encode zero p0 p digest state s Hg Hr Es Hw Hs. pose proof (blocks_ok _ _ _ _ _ Hg Hr) as Hok.
    destruct (inherent_done_ready _ _ Hok) as (vfp & hc & state' & Hready).
    assert (state' = state) as -> by (pose proof (rtf_state _ _ _ _ _ Hready); congruence).
    apply (queue_finalizes encode zero p digest vfp hc state s (bo_pallet _ _ _ Hok) Hready Hw Hs).
  - exists example_bounds, queue_genesis, queue_full, example_digest, (queue_relay 64).
    assert (Hb : queue_block 64 = Some queue_full) by (vm_compute; reflexivity).
    destruct (queue_block_within 64 queue_full ltac:(lia) Hb) as (_ & Es & Hw).
    split; [apply queue_genesis_ok|]. split; [by apply (queue_block_reachable 64)|]. split; [done|]. split; [done|].
    vm_compute. reflexivity.
Qed.

Lemma finalize_with_xcmp_queue_witness :
  exists p', on_finalize example_encode 0 example_digest queue_partly = Some p'.
Proof.
  assert (Hb : queue_block 10 = Some queue_partly) by (vm_compute; reflexivity).
  destruct (queue_block_within 10 queue_partly ltac:(lia) Hb) as (_ & Es & Hw).
  destruct (proj1 finalize_with_xcmp_queue example_bounds nat Z example_header _ _ _ example_encode 0 queue_genesis queue_partly
    example_digest (queue_relay 10) (queue_relay 10) queue_genesis_ok (queue_block_reachable 10 queue_partly ltac:(lia) Hb)
    Es Hw eq_refl) as (taken & q' & _ & Hiff).
  destruct (on_finalize example_encode 0 example_digest queue_partly) as [p'|] eqn:E; [exists p'; reflexivity|].
  exfalso. destruct (proj1 Hiff eq_refl) as (d & ever & Hd & _ & Hst & _).
  cbn in Hd. apply list_elem_of_singleton in Hd as ->. vm_compute in Hst. discriminate Hst.
Defined.

Lemma xcmp_queue_refines_fifo_witness :
  fifo_step (pages_of (empty_queue default_queue_config)) (pages_of example_queue)
    (Send 2000 ConcatenatedVersionedXcm [x05; x06]).
Proof.
  apply (xcmp_queue_refines_fifo default_queue_config (empty_queue default_queue_config)).
  - apply rtc_refl.
  - apply (step_send_fragment _ example_info _ _ _ 1); [|vm_compute; reflexivity].
    split; [vm_compute; discriminate|]. intros d Hd. by apply elem_of_nil in Hd.
Defined.

Definition example_status (id : ParaId) : ChannelStatus := Ready 10 32.

Lemma xcmp_channels_served_witness :
  exists taken, taken ∈ [[(2000, [x00; x05; x06])]] /\ 2000 ∈ taken.*1.
Proof.
  apply (xcmp_channels_served 1 example_queue [[(2000, [x00; x05; x06])]] 0
    (mkDetails 2000 StateOk false 0 1 0 3)); [lia| |reflexivity|reflexivity].
  eapply (blocks_cons _ _ example_status example_info []); [apply example_queue_ok| |vm_compute; reflexivity|done|constructor].
  intros d Hd. cbn in Hd. apply list_elem_of_singleton in Hd as ->. split; [|by apply not_elem_of_nil].
  eexists 10, 32, _, _, _. split; [reflexivity|]. split; [vm_compute; reflexivity|]. vm_compute. discriminate.
Defined.

(** ** What the code does not keep *)

Section limits.
Context {B : QueueBounds}.

(** Resuming an empty channel removes it together with the mark of a signal that
    waits to be sent: the signal stays in the storage and no block sends it. *)
Lemma resume_loses_signal q d :
  queue_ok q -> d ∈ OutboundXcmpStatus q -> signals_exist d = true -> first_index d = last_index d ->
  (recipient d ∉ recipient <$> OutboundXcmpStatus (resume_channel (recipient d) q)) /\
  is_Some (SignalMessages (resume_channel (recipient d) q) !! recipient d).
Proof.
  intros [Q1 Q2 _ _ _] Hd Hs He. rewrite Forall_forall in Q2. pose proof (det_signals _ _ (Q2 d Hd) Hs) as Hsig.
  apply list_elem_of_lookup in Hd as [j Hj]. unfold resume_channel.
  destruct (channel_position _ _) as [i|] eqn:Hi.
  - apply channel_Some in Hi as (d0 & Hd0 & E). assert (i = j) as -> by by eapply unique_index.
    rewrite Hj, He, Z.eqb_refl. split; [|done]. cbn. intros (d1 & E1 & Hin)%list_elem_of_fmap.
    apply list_elem_of_lookup in Hin as [k Hk]. assert (k <> j /\ OutboundXcmpStatus q !! k = Some d1 \/
      S k <> j /\ OutboundXcmpStatus q !! S k = Some d1) as [[Hne Hk']|[Hne Hk']].
    { destruct (decide (k < j)%nat); [left|right].
      - rewrite list_lookup_delete_lt in Hk by done. split; [lia|done].
      - rewrite list_lookup_delete_ge in Hk by lia. split; [lia|done]. }
    + apply Hne. by apply (unique_index (OutboundXcmpStatus q) j k d d1).
    + apply Hne. by apply (unique_index (OutboundXcmpStatus q) j (S k) d d1).
  - apply channel_None in Hi. destruct Hi. apply list_elem_of_fmap_2. by eapply list_elem_of_lookup_2.
Qed.

(** Beyond the bound on suspended channels the signal to suspend is sent but not
    recorded, so the signal to resume never follows. *)
Lemma suspension_never_ends para pages later q q' :
  resume_threshold (QueueConfig q) < suspend_threshold (QueueConfig q) <= pages ->
  Z.of_nat (size (InboundXcmpSuspended q)) = MaxInboundSuspended -> para ∉ InboundXcmpSuspended q ->
  send_signal para Suspend q = Ok q' -> later <= resume_threshold (QueueConfig q) ->
  on_queue_changed para pages q = q' /\ on_queue_changed para later q' = q'.
Proof.
  intros Ht Hmax Hp Hs Hl. split.
  - unfold on_queue_changed. rewrite bool_decide_false by done. cbn.
    destruct (Z.leb_spec (suspend_threshold (QueueConfig q)) pages); [|lia]. rewrite Hs.
    by destruct (Z.ltb_spec (Z.of_nat (size (InboundXcmpSuspended q))) MaxInboundSuspended); [lia|].
  - assert (InboundXcmpSuspended q' = InboundXcmpSuspended q /\ QueueConfig q' = QueueConfig q) as [E1 E2].
    { unfold send_signal in Hs. apply obind_ok in Hs as (l & _ & Hs). destruct (_ <? _); [done|]. by injection Hs as <-. }
    unfold on_queue_changed. rewrite E1, E2, bool_decide_false by done. cbn.
    by destruct (Z.leb_spec (suspend_threshold (QueueConfig q)) later); [lia|].
Qed.
End limits.

(** A channel whose indices ran to the end of their 16 bits: the next new page
    makes the queue look empty. *)
Definition late_queue : Queue :=
  mkQueue [mkDetails 2000 StateOk false 65534 65535 0 1] {[ (2000, 65534) := [x03] ]} ∅ ∅ ∅ default_queue_config false.

Lemma page_index_wraps :
  match send_fragment example_info 2000 ConcatenatedVersionedXcm [x05; x06] late_queue with
  | Ok (n, q) => n = 0 /\ pages_of late_queue 2000 = [[x03]] /\ pages_of q 2000 = []
  | _ => False
  end.
Proof. vm_compute. auto. Qed.
