(* ===== verification/MqPage.v ===== *)
(** * Pages of the message queue

    Model of [Page] and [ItemHeader] of [substrate/frame/message-queue/src/lib.rs]:
    a page keeps its messages in one byte heap, each behind a header with its
    length and a flag.  The codec of the header is outside the repository and is
    the class [HeaderCodec], with what the code relies on in [HeaderLaws];
    [scale_header] is the documented format.  A page is shown to represent a
    list of messages with their flags and a cursor. *)

From stdpp Require Import base option numbers list.
From Stdlib Require Import ZArith Lia.
From Stdlib Require Import Strings.Byte.
From S2P Require Import Prelude Codec.
Local Open Scope Z_scope.

Record ItemHeader : Set := mkHeader {
  payload_len : Z;
  is_processed : bool;
}.

(** [Encode], [Decode] and [MaxEncodedLen] of a header whose size type has [w] bits. *)
Class HeaderCodec : Set := {
  size_bits : Z;
  header_len : nat;
  encode_header : ItemHeader -> bytes;
  decode_header : bytes -> option (ItemHeader * bytes);
}.

Class HeaderLaws (C : HeaderCodec) : Prop := {
  size_bits_le : 0 <= size_bits <= 32;
  header_len_pos : (0 < header_len)%nat;
  encode_header_len h : length (encode_header h) = header_len;
  decode_encode_header h rest :
    is_uint size_bits (payload_len h) -> decode_header (encode_header h ++ rest) = Some (h, rest);
  decode_header_short bs : (length bs < header_len)%nat -> decode_header bs = None;
}.

(** The heap size of a page. *)
Class HeapSize : Set := heap_size : Z.

Section page.
Context `{HeaderCodec, HeapSize}.

Record Page : Set := mkPage {
  remaining : Z;
  remaining_size : Z;
  first_index : Z;
  first : Z;
  last : Z;
  heap : bytes;
}.

(** [saturated_into] the size type. *)
Definition into_size (x : Z) : Z := Z.min (umax size_bits) x.

(** [BoundedVec::defensive_truncate_from]. *)
Definition truncate (l : bytes) : bytes := take (Z.to_nat heap_size) l.

Definition from_message (message : bytes) : Page :=
  let len := into_size (zlen message) in
  let header := mkHeader len false in
  mkPage 1 len 0 0 0 (truncate (encode_header header ++ message)).

Definition heap_pos (self : Page) : Z := zlen (heap self).

Definition can_append_message_at (pos message_len : Z) : option Z :=
  let data_len := saturating_add 64 (Z.of_nat header_len) message_len in
  let new_pos := saturating_add 64 pos data_len in
  if new_pos <=? heap_size then Some new_pos else None.

Definition try_append_message (message : bytes) (self : Page) : option Page :=
  let pos := heap_pos self in
  _ ← can_append_message_at pos (zlen message);
  let len := into_size (zlen message) in
  let header := mkHeader len false in
  Some (mkPage (saturating_add size_bits (remaining self) 1)
               (saturating_add size_bits (remaining_size self) len)
               (first_index self) (first self) (into_size pos)
               (truncate (heap self ++ encode_header header ++ message))).

Definition peek_first (self : Page) : option bytes :=
  if last self <? first self then None
  else
    let f := Z.min (first self) (zlen (heap self)) in
    '(h, item_slice) ← decode_header (drop (Z.to_nat f) (heap self));
    if payload_len h <=? zlen item_slice then Some (take (Z.to_nat (payload_len h)) item_slice) else None.

(** [heap[pos..pos + d.len()].copy_from_slice(d)]; the slice is there, because
    a header of the same length was just decoded from it. *)
Definition copy_from_slice (pos : nat) (d heap : bytes) : bytes :=
  take pos heap ++ d ++ drop (pos + length d) heap.

Definition skip_first (processed : bool) (self : Page) : Page :=
  let f := Z.to_nat (Z.min (first self) (zlen (heap self))) in
  match decode_header (drop f (heap self)) with
  | Some (h, _) =>
    let self :=
      if processed && negb (is_processed h) then
        mkPage (saturating_sub (remaining self) 1) (saturating_sub (remaining_size self) (payload_len h))
               (first_index self) (first self) (last self)
               (copy_from_slice f (encode_header (mkHeader (payload_len h) true)) (heap self))
      else self in
    let first := saturating_add size_bits (first self) (into_size (Z.of_nat header_len)) in
    mkPage (remaining self) (remaining_size self) (saturating_add size_bits (first_index self) 1)
           (saturating_add size_bits first (payload_len h)) (last self) (heap self)
  | None => self
  end.

(** The loop of [peek_index]: skip [index] items. *)
Fixpoint skip_items (index : nat) (pos : Z) (item_slice : bytes) : option (Z * bytes) :=
  match index with
  | O => Some (pos, item_slice)
  | S index =>
    '(h, item_slice) ← decode_header item_slice;
    let item_len := payload_len h in
    if zlen item_slice <? item_len then None
    else skip_items index (saturating_add 64 pos (saturating_add 64 (Z.of_nat header_len) item_len))
                    (drop (Z.to_nat item_len) item_slice)
  end.

(** Position, flag and payload. *)
Definition peek_index (index : nat) (self : Page) : option (Z * bool * bytes) :=
  '(pos, item_slice) ← skip_items index 0 (heap self);
  '(h, item_slice) ← decode_header item_slice;
  if zlen item_slice <? payload_len h then None
  else Some (pos, is_processed h, take (Z.to_nat (payload_len h)) item_slice).

(** [None] when [pos] is beyond the heap and the slice panics. *)
Definition note_processed_at_pos (pos : Z) (self : Page) : option Page :=
  if zlen (heap self) <? pos then None
  else
    match decode_header (drop (Z.to_nat pos) (heap self)) with
    | Some (h, _) =>
      if negb (is_processed h) then
        Some (mkPage (saturating_sub (remaining self) 1) (saturating_sub (remaining_size self) (payload_len h))
                     (first_index self) (first self) (last self)
                     (copy_from_slice (Z.to_nat pos) (encode_header (mkHeader (payload_len h) true)) (heap self)))
      else Some self
    | None => Some self
    end.

Definition is_complete (self : Page) : bool := remaining self =? 0.

(** [MaxMessageLen]. *)
Definition max_message_len : Z := saturating_sub heap_size (Z.of_nat header_len).
End page.

(** ** A page represents a list of items

    An item is a message with its processed flag; [page_repr p items k]: the heap
    of [p] holds [items] in order, and the first [k] of them are behind the cursor. *)
Abbreviation item := (bytes * bool)%type.

Definition header_of (i : item) : ItemHeader := mkHeader (zlen i.1) i.2.

Section repr.
Context `{HC : HeaderCodec, HL : !HeaderLaws HC, HS : HeapSize}.

Definition encode_item (i : item) : bytes := encode_header (header_of i) ++ i.1.

Definition encode_items (items : list item) : bytes := items ≫= encode_item.

Definition unprocessed (items : list item) : list item := filter (fun i => i.2 = false) items.

Definition total_size (items : list item) : Z :=
  foldr (fun i n => zlen i.1 + n) 0 items.

Record page_repr (p : Page) (items : list item) (k : nat) : Prop := {
  repr_heap : heap p = encode_items items;
  repr_bound : zlen (heap p) <= heap_size;
  repr_cursor : (k <= length items)%nat;
  repr_nonempty : items <> [];
  repr_remaining : remaining p = zlen (unprocessed items);
  repr_size : remaining_size p = total_size (unprocessed items);
  repr_first_index : first_index p = Z.of_nat k;
  repr_first : first p = zlen (encode_items (take k items));
  repr_last : last p = zlen (encode_items (take (pred (length items)) items));
}.

(** [HeapSize] is a value of the size type, with room for a header. *)
Hypothesis heap_size_fits : heap_size <= umax size_bits.
Hypothesis heap_size_header : Z.of_nat header_len <= heap_size.

Lemma umax_usize : umax size_bits < umax 64.
Proof.
  pose proof size_bits_le. unfold umax.
  pose proof (Z.pow_lt_mono_r 2 size_bits 64). lia.
Qed.

Lemma length_encode_item i : length (encode_item i) = (header_len + length i.1)%nat.
Proof. unfold encode_item. by rewrite length_app, encode_header_len. Qed.

Lemma encode_items_app a b : encode_items (a ++ b) = encode_items a ++ encode_items b.
Proof. unfold encode_items. by rewrite bind_app. Qed.

Lemma encode_items_cons i l : encode_items (i :: l) = encode_item i ++ encode_items l.
Proof. done. Qed.

Lemma encode_items_middle items k i :
  items !! k = Some i ->
  encode_items items = encode_items (take k items) ++ encode_item i ++ encode_items (drop (S k) items).
Proof.
  intros Hi. rewrite <- (take_drop_middle items k i Hi) at 1.
  by rewrite encode_items_app.
Qed.

Lemma total_size_cons i l : total_size (i :: l) = zlen i.1 + total_size l.
Proof. done. Qed.

Lemma total_size_app a b : total_size (a ++ b) = total_size a + total_size b.
Proof. induction a as [|x a IH]; [done|]. cbn [app]. rewrite !total_size_cons. lia. Qed.

(** Each item takes at least a byte, and its payload is in the heap. *)
Lemma items_fit items :
  zlen items + total_size items <= zlen (encode_items items) /\ 0 <= total_size items.
Proof.
  pose proof header_len_pos. unfold zlen.
  induction items as [|i items IH]; [done|].
  rewrite encode_items_cons, length_app, length_encode_item, total_size_cons. cbn [length].
  unfold zlen in *. lia.
Qed.

Lemma encode_items_sublist_le a b c :
  zlen (encode_items b) <= zlen (encode_items (a ++ b ++ c)).
Proof. unfold zlen. rewrite !encode_items_app, !length_app. lia. Qed.

Lemma unprocessed_le items :
  zlen (unprocessed items) <= zlen items /\ total_size (unprocessed items) <= total_size items.
Proof.
  unfold zlen, unprocessed. induction items as [|[m []] items IH]; [done|..].
  - rewrite filter_cons_False by done. rewrite total_size_cons. cbn [length]. unfold zlen. lia.
  - rewrite filter_cons_True by done. rewrite !total_size_cons. cbn [length]. unfold zlen. lia.
Qed.

Lemma payload_fits (items : list item) k (i : item) :
  zlen (encode_items items) <= heap_size -> items !! k = Some i -> is_uint size_bits (zlen i.1).
Proof.
  intros Hb Hi. rewrite (encode_items_middle items k i Hi) in Hb.
  unfold zlen in *. rewrite !length_app, length_encode_item in Hb. unfold is_uint. lia.
Qed.

(** Decoding at the position of an item. *)
Lemma decode_at items k i :
  zlen (encode_items items) <= heap_size -> items !! k = Some i ->
  decode_header (drop (length (encode_items (take k items))) (encode_items items)) =
    Some (header_of i, i.1 ++ encode_items (drop (S k) items)).
Proof.
  intros Hb Hi. rewrite (encode_items_middle items k i Hi), drop_app_length. unfold encode_item.
  rewrite <- app_assoc. apply decode_encode_header. by apply (payload_fits items k).
Qed.

Lemma position_lt items k i :
  items !! k = Some i ->
  (length (encode_items (take k items)) + header_len + length i.1 <= length (encode_items items))%nat.
Proof.
  intros Hi. rewrite (encode_items_middle items k i Hi), !length_app, length_encode_item. lia.
Qed.
(** *** Marking an item as processed *)

Definition mark (k : nat) (items : list item) : list item := alter (fun i => (i.1, true)) k items.

Lemma mark_middle items k i :
  items !! k = Some i -> mark k items = take k items ++ (i.1, true) :: drop (S k) items.
Proof.
  unfold mark. revert k. induction items as [|x items IH]; intros [|k] Hi; try done.
  - cbn in *. by simplify_eq.
  - cbn in *. f_equal. by apply IH.
Qed.

Lemma encode_items_mark items k i :
  items !! k = Some i ->
  copy_from_slice (length (encode_items (take k items))) (encode_header (mkHeader (zlen i.1) true))
    (encode_items items) = encode_items (mark k items).
Proof.
  intros Hi. rewrite (mark_middle items k i Hi), encode_items_app, encode_items_cons.
  rewrite (encode_items_middle items k i Hi). unfold copy_from_slice, encode_item.
  rewrite take_app_length, <- drop_drop, drop_app_length, encode_header_len, <- !app_assoc. f_equal.
  change (header_of (i.1, true)) with (mkHeader (zlen i.1) true). f_equal.
  rewrite <- (encode_header_len (header_of i)). apply drop_app_length.
Qed.

Lemma unprocessed_mark (items : list item) k (i : item) :
  items !! k = Some i ->
  zlen (unprocessed (mark k items)) = zlen (unprocessed items) - (if i.2 then 0 else 1) /\
  total_size (unprocessed (mark k items)) = total_size (unprocessed items) - (if i.2 then 0 else zlen i.1).
Proof.
  intros Hi. rewrite (mark_middle items k i Hi). generalize (eq_sym (take_drop_middle items k i Hi)).
  generalize (take k items) (drop (S k) items). clear Hi. intros a b ->.
  unfold unprocessed. rewrite !filter_app.
  rewrite (filter_cons_False _ (i.1, true)) by done.
  rewrite !total_size_app. unfold zlen. rewrite !length_app. destruct i as [m []].
  - rewrite (filter_cons_False _ (m, true)) by done. cbn [length fst snd]. lia.
  - rewrite (filter_cons_True _ (m, false)) by done. rewrite total_size_cons. cbn [length fst snd]. unfold zlen. lia.
Qed.

Lemma mark_prefix items k i j :
  items !! k = Some i ->
  length (encode_items (take j (mark k items))) = length (encode_items (take j items)).
Proof.
  intros Hi. revert items k Hi. induction j as [|j IH]; intros [|x items] [|k] Hi; try done.
  - change (mark 0 (x :: items)) with ((x.1, true) :: items).
    rewrite !firstn_cons, !encode_items_cons, !length_app, !length_encode_item. done.
  - change (mark (S k) (x :: items)) with (x :: mark k items).
    rewrite !firstn_cons, !encode_items_cons, !length_app. f_equal. by apply IH.
Qed.

Lemma length_mark items k : length (mark k items) = length items.
Proof. apply length_alter. Qed.

Lemma drop_mark_lt items j k : (j < k)%nat -> drop k (mark j items) = drop k items.
Proof.
  revert j k. induction items as [|x items IH]; intros [|j] [|k] Hlt; try done; try lia.
  cbn [drop]. change (mark (S j) (x :: items)) with (x :: mark j items). cbn [drop]. apply IH. lia.
Qed.

(** The page after the flag of item [j] was set. *)
Lemma page_repr_mark p (items : list item) k j (i : item) :
  page_repr p items k -> items !! j = Some i -> i.2 = false ->
  page_repr (mkPage (saturating_sub (remaining p) 1) (saturating_sub (remaining_size p) (zlen i.1))
                    (first_index p) (first p) (last p)
                    (copy_from_slice (length (encode_items (take j items)))
                       (encode_header (mkHeader (zlen i.1) true)) (heap p)))
            (mark j items) k.
Proof.
  intros [Hh Hb Hk Hn Hr Hs Hfi Hf Hl] Hi Hflag.
  destruct (unprocessed_mark items j i Hi) as [Hr' Hs']. rewrite Hflag in Hr', Hs'.
  pose proof (items_fit (unprocessed (mark j items))) as [_ ?].
  assert (Hlen : length (encode_items (mark j items)) = length (encode_items items)).
  { pose proof (mark_prefix items j i (length items) Hi) as Hp.
    by rewrite (firstn_all items), <- (length_mark items j), firstn_all in Hp. }
  split; cbn; rewrite ?length_mark; try done.
  - rewrite Hh. by apply encode_items_mark.
  - rewrite Hh, (encode_items_mark items j i Hi). unfold zlen in *. rewrite Hlen, <- Hh. done.
  - intros Hnil. apply (f_equal length) in Hnil. rewrite length_mark in Hnil. by destruct items.
  - rewrite Hr, Hr'. unfold saturating_sub, zlen in *. lia.
  - rewrite Hs, Hs'. unfold saturating_sub. lia.
  - rewrite Hf. unfold zlen. by rewrite (mark_prefix items j i).
  - rewrite Hl. unfold zlen. by rewrite (mark_prefix items j i).
Qed.

(** *** The operations on the representation *)

Lemma from_message_repr m :
  zlen m <= max_message_len -> page_repr (from_message m) [(m, false)] 0.
Proof.
  intros Hm. unfold max_message_len, saturating_sub, zlen in Hm.
  assert (Hlen : into_size (zlen m) = zlen m) by (unfold into_size, zlen; lia).
  assert (Hl : length (encode_items [(m, false)]) = (header_len + length m)%nat).
  { rewrite encode_items_cons, app_nil_r. apply length_encode_item. }
  assert (Hh : heap (from_message m) = encode_items [(m, false)]).
  { cbn [from_message heap]. rewrite Hlen. unfold truncate.
    change (encode_header _ ++ m) with (encode_item (m, false)).
    rewrite take_ge by (rewrite length_encode_item; cbn [fst]; lia).
    by rewrite encode_items_cons, app_nil_r. }
  split; try done.
  - rewrite Hh. unfold zlen. lia.
  - cbn. lia.
  - cbn [from_message remaining_size]. rewrite Hlen. change (zlen m = zlen m + 0). lia.
Qed.

(** A message is appended exactly when it fits; the others and the cursor stay. *)
Lemma try_append_repr m p items k :
  page_repr p items k -> zlen m <= umax 64 ->
  match try_append_message m p with
  | Some p' => page_repr p' (items ++ [(m, false)]) k
  | None => heap_size < zlen (encode_items (items ++ [(m, false)]))
  end.
Proof.
  intros [Hh Hb Hk Hn Hr Hs Hfi Hf Hl] Hm.
  pose proof umax_usize. pose proof (unprocessed_le items) as [Hu1 Hu2].
  pose proof (items_fit items) as [Hi1 Hi2]. pose proof header_len_pos.
  pose proof (items_fit (unprocessed items)) as [_ Hu3].
  assert (He : length (encode_items (items ++ [(m, false)])) =
               (length (encode_items items) + header_len + length m)%nat).
  { rewrite encode_items_app, length_app, encode_items_cons, app_nil_r, length_encode_item. cbn [fst]. lia. }
  unfold try_append_message, can_append_message_at, heap_pos. rewrite Hh in *.
  unfold zlen in *.
  destruct (Z.leb_spec (saturating_add 64 (Z.of_nat (length (encode_items items)))
    (saturating_add 64 (Z.of_nat header_len) (Z.of_nat (length m)))) heap_size) as [Hfit|Hfit];
    unfold saturating_add in Hfit; cbn [mbind option_bind].
  2: { rewrite He. lia. }
  assert (Hlen : into_size (zlen m) = zlen m) by (unfold into_size, zlen; lia).
  unfold zlen in Hlen. rewrite Hlen.
  assert (Hpre : take (length items) (items ++ [(m, false)]) = items) by apply take_app_length.
  assert (Hun : unprocessed (items ++ [(m, false)]) = unprocessed items ++ [(m, false)]).
  { unfold unprocessed. by rewrite filter_app. }
  split; cbn [heap remaining remaining_size first_index first last]; unfold zlen.
  - unfold truncate. rewrite take_ge; [by rewrite encode_items_app, encode_items_cons, app_nil_r|].
    rewrite !length_app, encode_header_len. lia.
  - unfold truncate. rewrite take_ge; rewrite !length_app, encode_header_len; lia.
  - rewrite length_app. lia.
  - by destruct items.
  - rewrite Hun. unfold saturating_add. rewrite length_app. cbn [length]. lia.
  - rewrite Hun, total_size_app, total_size_cons. unfold saturating_add. cbn [fst total_size foldr].
    unfold zlen. lia.
  - done.
  - by rewrite take_app_le.
  - rewrite length_app, Nat.add_1_r. cbn [pred]. rewrite Hpre. unfold into_size. lia.
Qed.

(** The first item at the cursor, also if it was processed already. *)
Lemma peek_first_repr p items k :
  page_repr p items k -> peek_first p = fst <$> items !! k.
Proof.
  intros [Hh Hb Hk Hn Hr Hs Hfi Hf Hl]. unfold peek_first. rewrite Hf, Hl, Hh in *.
  destruct (items !! k) as [i|] eqn:Hi.
  - pose proof (position_lt items k i Hi).
    assert (Hle : (length (encode_items (take k items)) <= length (encode_items (take (pred (length items)) items)))%nat).
    { apply lookup_lt_Some in Hi. rewrite <- (take_drop k (take (pred (length items)) items)), take_take, encode_items_app, length_app.
      rewrite Nat.min_l by lia. lia. }
    unfold zlen in *. destruct (Z.ltb_spec (Z.of_nat (length (encode_items (take (pred (length items)) items))))
      (Z.of_nat (length (encode_items (take k items))))); [lia|].
    rewrite Z.min_l, Nat2Z.id, (decode_at items k i) by (unfold zlen; done || lia). cbn [mbind option_bind].
    unfold header_of, zlen. cbn [payload_len].
    destruct (Z.leb_spec (Z.of_nat (length i.1)) (Z.of_nat (length (i.1 ++ encode_items (drop (S k) items)))));
      [|rewrite length_app in *; lia].
    by rewrite Nat2Z.id, take_app_length.
  - apply lookup_ge_None in Hi. assert (k = length items) as -> by lia. rewrite firstn_all.
    destruct (lookup_lt_is_Some_2 items (pred (length items))) as [i Hi']; [destruct items; cbn in *; [done|lia]|].
    pose proof (position_lt items _ i Hi'). pose proof header_len_pos. unfold zlen.
    destruct (Z.ltb_spec (Z.of_nat (length (encode_items (take (pred (length items)) items))))
      (Z.of_nat (length (encode_items items)))); [done|lia].
Qed.

(** Moving the cursor over an item. *)
Lemma page_repr_advance p items k (i : item) :
  page_repr p items k -> items !! k = Some i ->
  page_repr (mkPage (remaining p) (remaining_size p) (saturating_add size_bits (first_index p) 1)
               (saturating_add size_bits (saturating_add size_bits (first p) (into_size (Z.of_nat header_len)))
                  (zlen i.1)) (last p) (heap p)) items (S k).
Proof.
  intros [Hh Hb Hk Hn Hr Hs Hfi Hf Hl] Hi. pose proof (lookup_lt_Some _ _ _ Hi).
  pose proof (items_fit items) as [Hi1 Hi2]. pose proof (position_lt items k i Hi). pose proof header_len_pos.
  rewrite Hh in Hb. unfold zlen in *.
  split; cbn [heap remaining remaining_size first_index first last]; unfold zlen; try done.
  - by rewrite Hh.
  - rewrite Hfi. unfold saturating_add. lia.
  - rewrite Hf, (take_S_r items k i Hi), encode_items_app, length_app, encode_items_cons, app_nil_r, length_encode_item.
    unfold saturating_add, into_size. lia.
Qed.

Lemma lookup_mark items k (i : item) : items !! k = Some i -> mark k items !! k = Some (i.1, true).
Proof. intros Hi. unfold mark. by rewrite list_lookup_alter_eq, Hi. Qed.

Lemma decode_at_cursor p items k (i : item) :
  page_repr p items k -> items !! k = Some i ->
  decode_header (drop (Z.to_nat (Z.min (first p) (zlen (heap p)))) (heap p)) =
    Some (header_of i, i.1 ++ encode_items (drop (S k) items)) /\
  Z.to_nat (Z.min (first p) (zlen (heap p))) = length (encode_items (take k items)).
Proof.
  intros [Hh Hb Hk Hn Hr Hs Hfi Hf Hl] Hi. pose proof (position_lt items k i Hi).
  assert (E : Z.to_nat (Z.min (first p) (zlen (heap p))) = length (encode_items (take k items))).
  { rewrite Hf, Hh. unfold zlen. lia. }
  split; [|done]. rewrite E, Hh in *. by apply decode_at.
Qed.

(** Skipping the item at the cursor, and marking it. *)
Lemma skip_first_repr b p items k (i : item) :
  page_repr p items k -> items !! k = Some i ->
  page_repr (skip_first b p) (if b && negb i.2 then mark k items else items) (S k).
Proof.
  intros Hp Hi. destruct (decode_at_cursor p items k i Hp Hi) as [Hd Hf].
  unfold skip_first. cbv zeta. rewrite Hd. cbn [payload_len is_processed header_of].
  destruct (b && negb i.2) eqn:Hb; [|by apply page_repr_advance].
  rewrite Hf. apply andb_true_iff in Hb as [_ Hb%negb_true_iff].
  pose proof (page_repr_mark p items k k i Hp Hi Hb) as Hm.
  apply (page_repr_advance _ _ _ _ Hm (lookup_mark items k i Hi)).
Qed.

Lemma skip_items_spec items index pos :
  (index <= length items)%nat -> 0 <= pos -> pos + zlen (encode_items items) <= heap_size ->
  skip_items index pos (encode_items items) =
    Some (pos + zlen (encode_items (take index items)), encode_items (drop index items)).
Proof.
  revert items pos. induction index as [|index IH]; intros items pos Hi Hpos Hfit.
  { cbn [skip_items]. change (zlen (encode_items (take 0 items))) with 0. by rewrite Z.add_0_r, drop_0. }
  destruct items as [|i items]; [cbn in Hi; lia|]. cbn [skip_items].
  pose proof umax_usize. pose proof (payload_fits (i :: items) 0 i ltac:(lia) eq_refl) as Hu.
  rewrite firstn_cons, skipn_cons, !encode_items_cons in *. unfold encode_item in *. rewrite <- !app_assoc in *.
  rewrite decode_encode_header by done. cbn [mbind option_bind header_of payload_len].
  unfold is_uint, zlen in *. rewrite !length_app, encode_header_len in *.
  destruct (Z.ltb_spec (Z.of_nat (length i.1 + length (encode_items items))) (Z.of_nat (length i.1))); [lia|].
  rewrite Nat2Z.id, drop_app_length.
  assert (E : saturating_add 64 pos (saturating_add 64 (Z.of_nat header_len) (Z.of_nat (length i.1))) =
              pos + Z.of_nat header_len + Z.of_nat (length i.1)) by (unfold saturating_add; lia).
  rewrite E, IH by (cbn [length] in *; lia). do 2 f_equal. lia.
Qed.

Lemma skip_items_add a b pos s :
  skip_items (a + b) pos s = '(pos, s) ← skip_items a pos s; skip_items b pos s.
Proof.
  revert pos s. induction a as [|a IH]; intros pos s; [done|]. cbn [Nat.add skip_items].
  destruct (decode_header s) as [[h s']|]; [|done]. cbn [mbind option_bind].
  destruct (_ <? _); [done|]. apply IH.
Qed.

(** Looking an item up by its index. *)
Lemma peek_index_repr p items k index :
  page_repr p items k ->
  peek_index index p =
    (fun i : item => (zlen (encode_items (take index items)), i.2, i.1)) <$> items !! index.
Proof.
  intros [Hh Hb Hk Hn Hr Hs Hfi Hf Hl]. rewrite Hh in Hb. unfold peek_index. rewrite Hh.
  destruct (items !! index) as [i|] eqn:Hi.
  - rewrite skip_items_spec by (apply lookup_lt_Some in Hi; lia). cbn [mbind option_bind].
    rewrite (drop_S items i index Hi), encode_items_cons. unfold encode_item. rewrite <- app_assoc.
    rewrite decode_encode_header by (by apply (payload_fits items index)).
    cbn [mbind option_bind header_of payload_len is_processed].
    destruct (Z.ltb_spec (zlen (i.1 ++ encode_items (drop (S index) items))) (zlen i.1)) as [Hlt|_].
    { unfold zlen in Hlt. rewrite length_app in Hlt. lia. }
    unfold zlen at 2. by rewrite Nat2Z.id, take_app_length, Z.add_0_l.
  - apply lookup_ge_None in Hi. replace index with (length items + (index - length items))%nat by lia.
    rewrite skip_items_add, skip_items_spec, drop_all by lia. cbn [mbind option_bind].
    assert (Hnil : decode_header (encode_items []) = None)
      by (apply decode_header_short; pose proof header_len_pos; cbn; lia).
    destruct (index - length items)%nat; cbn [skip_items mbind option_bind]; by rewrite Hnil.
Qed.

(** Setting the flag of the item found by its index. *)
Lemma note_processed_repr p items k j (i : item) :
  page_repr p items k -> items !! j = Some i ->
  exists p', note_processed_at_pos (zlen (encode_items (take j items))) p = Some p' /\
    page_repr p' (mark j items) k.
Proof.
  intros Hp Hi. pose proof (page_repr_mark p items k j i Hp Hi) as Hm.
  pose proof Hp as [Hh Hb Hk Hn Hr Hs Hfi Hf Hl].
  pose proof (position_lt items j i Hi). unfold note_processed_at_pos.
  destruct (Z.ltb_spec (zlen (heap p)) (zlen (encode_items (take j items)))) as [Hlt|_].
  { rewrite Hh in Hlt. unfold zlen in Hlt. lia. }
  unfold zlen. rewrite Nat2Z.id, Hh, (decode_at items j i) by (rewrite <- ?Hh; done).
  cbn [header_of payload_len is_processed]. destruct i.2 eqn:Hflag; cbn [negb].
  - exists p. split; [done|]. rewrite (mark_middle items j i Hi), <- Hflag, <- surjective_pairing.
    by rewrite (take_drop_middle items j i Hi).
  - eexists. split; [done|]. rewrite <- Hh. by apply Hm.
Qed.

Lemma is_complete_repr p items k :
  page_repr p items k -> is_complete p = forallb snd items.
Proof.
  intros [_ _ _ _ Hr _ _ _ _]. unfold is_complete. rewrite Hr. clear Hr.
  induction items as [|[m []] items IH]; [done|exact IH|].
  unfold unprocessed. rewrite filter_cons_True by done. cbn [forallb snd andb]. unfold zlen. cbn [length].
  apply Z.eqb_neq. lia.
Qed.

(** *** Writing a page and reading it *)

Definition build_page (m : bytes) (ms : list bytes) : option Page :=
  foldl (fun p msg => p ≫= try_append_message msg) (Some (from_message m)) ms.

(** Take [n] messages out of a page. *)
Fixpoint read_page (n : nat) (p : Page) : list bytes * Page :=
  match n with
  | O => ([], p)
  | S n =>
    match peek_first p with
    | Some msg => let '(msgs, p) := read_page n (skip_first true p) in (msg :: msgs, p)
    | None => ([], p)
    end
  end.

Definition fresh (ms : list bytes) : list item := (fun msg => (msg, false)) <$> ms.

Lemma fst_fresh ms : (fresh ms).*1 = ms.
Proof. induction ms as [|msg ms IH]; [done|]. change ((fresh (msg :: ms)).*1) with (msg :: (fresh ms).*1). by rewrite IH. Qed.

Lemma length_fresh ms :
  zlen (encode_items (fresh ms)) = foldr (fun msg n => Z.of_nat header_len + zlen msg + n) 0 ms.
Proof.
  induction ms as [|msg ms IH]; [done|]. cbn [foldr]. rewrite <- IH.
  change (fresh (msg :: ms)) with ((msg, false) :: fresh ms). rewrite encode_items_cons. unfold zlen.
  rewrite length_app, length_encode_item. cbn [fst]. lia.
Qed.

Lemma build_page_repr m ms :
  Forall (fun msg => zlen msg <= max_message_len) (m :: ms) ->
  match build_page m ms with
  | Some p => page_repr p (fresh (m :: ms)) 0
  | None => heap_size < zlen (encode_items (fresh (m :: ms)))
  end.
Proof.
  intros Hms. apply Forall_cons in Hms as [Hm Hms]. unfold build_page. revert Hms.
  induction ms as [|msg ms IH] using rev_ind; intros Hms; [by apply from_message_repr|].
  apply Forall_app in Hms as [Hms Hmsg]. apply Forall_cons in Hmsg as [Hmsg _]. specialize (IH Hms). rewrite foldl_app. cbn [foldl].
  assert (E : fresh (m :: ms ++ [msg]) = fresh (m :: ms) ++ [(msg, false)]) by (unfold fresh; by rewrite app_comm_cons, fmap_app).
  rewrite E. destruct (foldl _ _ ms) as [p|]; cbn [mbind option_bind].
  - apply try_append_repr; [done|]. pose proof umax_usize. unfold max_message_len, saturating_sub in Hmsg. lia.
  - rewrite encode_items_app. unfold zlen in *. rewrite length_app. lia.
Qed.

Lemma read_page_repr n : forall p items k,
  page_repr p items k -> Forall (fun it => it.2 = true) (take k items) -> Forall (fun it => it.2 = false) (drop k items) ->
  (n = length items - k)%nat ->
  exists p' items', read_page n p = ((drop k items).*1, p') /\ page_repr p' items' (length items') /\
    Forall (fun it => it.2 = true) items'.
Proof.
  induction n as [|n IH]; intros p items k Hp Ht Hf Hn; pose proof (repr_cursor _ _ _ Hp) as Hk.
  - assert (k = length items) as -> by lia. exists p, items. rewrite drop_all. by rewrite firstn_all in Ht.
  - destruct (lookup_lt_is_Some_2 items k) as [[msg flag] Hi]; [lia|].
    rewrite (drop_S items _ k Hi) in Hf |- *. apply Forall_cons in Hf as [Hflag Hf]. cbn in Hflag. subst flag.
    pose proof (skip_first_repr true p items k _ Hp Hi) as Hskip. cbn [snd negb andb] in Hskip.
    pose proof (drop_mark_lt items k (S k) ltac:(lia)) as Hd.
    destruct (IH _ _ _ Hskip) as (p' & items' & Hread & Hp' & Hall).
    + rewrite (mark_middle items k _ Hi), take_app, length_take_le, take_take, Nat.min_r by lia.
      replace (S k - k)%nat with 1%nat by lia. apply Forall_app_2; [done|]. by repeat constructor.
    + by rewrite Hd.
    + rewrite length_mark. lia.
    + exists p', items'. cbn [read_page]. rewrite (peek_first_repr p items k Hp), Hi. cbn [fmap option_fmap option_map fst].
      by rewrite Hread, Hd.
Qed.

(** C24: what is written to a page is read from it.  Appending messages to a new
    page fails exactly when they do not fit the heap; otherwise [peek_index]
    finds each of them unprocessed under its number, and taking them out one by
    one from the front gives them in order and leaves the page complete. *)
Theorem page_round_trip m ms :
  Forall (fun msg => zlen msg <= max_message_len) (m :: ms) ->
  (is_Some (build_page m ms) <->
     foldr (fun msg n => Z.of_nat header_len + zlen msg + n) 0 (m :: ms) <= heap_size) /\
  forall p, build_page m ms = Some p ->
    (forall i, (fun x => (x.1.2, x.2)) <$> peek_index i p = (fun msg => (false, msg)) <$> (m :: ms) !! i) /\
    exists p', read_page (S (length ms)) p = (m :: ms, p') /\ is_complete p' = true /\ peek_first p' = None.
Proof.
  intros Hms. pose proof (build_page_repr m ms Hms) as Hb. rewrite <- length_fresh. split.
  - destruct (build_page m ms) as [p|]; [|split; [by intros []|lia]].
    split; [|by eexists]. intros _. rewrite <- (repr_heap _ _ _ Hb). apply Hb.
  - intros p E. rewrite E in Hb. split.
    + intros i. rewrite (peek_index_repr p _ _ i Hb). unfold fresh. rewrite list_lookup_fmap. by destruct ((m :: ms) !! i).
    + destruct (read_page_repr (S (length ms)) p _ _ Hb) as (p' & items' & Hread & Hp' & Hall).
      * by rewrite take_0.
      * rewrite drop_0. apply Forall_fmap, Forall_true. done.
      * unfold fresh. rewrite length_fmap. cbn. lia.
      * exists p'. rewrite Hread, drop_0, fst_fresh. split_and!; try done.
        -- rewrite (is_complete_repr _ _ _ Hp'). apply forallb_forall. intros x Hx%list_elem_of_In.
           rewrite Forall_forall in Hall. by apply Hall.
        -- rewrite (peek_first_repr _ _ _ Hp'). by rewrite (proj2 (lookup_ge_None items' _)).
Qed.
End repr.

(** *** The documented header format

    A size of [k] bytes, little-endian, and a byte for the flag. *)
Definition scale_decode_header (k : nat) (bs : bytes) : option (ItemHeader * bytes) :=
  n ← le_read k bs;
  match drop k bs with
  | b :: rest =>
    if Z_of_byte b =? 0 then Some (mkHeader n false, rest)
    else if Z_of_byte b =? 1 then Some (mkHeader n true, rest) else None
  | [] => None
  end.

Definition scale_header (k : nat) : HeaderCodec := {|
  size_bits := 8 * Z.of_nat k;
  header_len := k + 1;
  encode_header h := le_encode k (payload_len h) ++ [byte_of_Z (Z.b2z (is_processed h))];
  decode_header := scale_decode_header k;
|}.

#[export] Instance scale_header_laws k : (k <= 4)%nat -> HeaderLaws (scale_header k).
Proof.
  intros Hk. split; cbn [size_bits header_len encode_header decode_header scale_header].
  - lia.
  - lia.
  - intros h. rewrite length_app, length_le_encode. done.
  - intros [n f] rest Hn. cbn [payload_len is_processed] in *. unfold scale_decode_header.
    rewrite <- app_assoc, le_read_encode.
    2: { unfold is_uint, umax in Hn. rewrite Z.pow_mul_r in Hn by lia. change (2 ^ 8) with 256 in Hn. lia. }
    cbn [mbind option_bind]. rewrite drop_app_length' by (by rewrite length_le_encode).
    cbn [app]. rewrite Z_of_byte_of_Z. by destruct f.
  - intros bs Hbs. unfold scale_decode_header, le_read. case_decide as Hd; [|done]. cbn [mbind option_bind].
    destruct (drop k bs) eqn:E; [done|]. apply (f_equal length) in E. rewrite length_drop in E. cbn in E. lia.
Qed.

Lemma page_round_trip_witness :
  let C := scale_header 4 in let S : HeapSize := 32 in
  is_Some (build_page [x01; x02] [[x03]; []]).
Proof.
  assert (H4 : (4 <= 4)%nat) by lia. pose proof (scale_header_laws 4 H4) as HL4.
  refine (proj2 (proj1 (page_round_trip (HC := scale_header 4) (HS := 32) _ _ [x01; x02] [[x03]; []] _)) _);
    [by vm_compute|by vm_compute|repeat constructor; by vm_compute|by vm_compute].
Defined.
