(* ===== verification/MessageQueue.v ===== *)
(** * The message queue pallet

    Model of [substrate/frame/message-queue/src/lib.rs]: the books of the queues
    and the ring of the ready ones, enqueueing, servicing by weight, overweight
    messages, reaping and sweeping, and the footprints of
    [substrate/frame/support/src/traits/messages.rs].  The configuration of the
    pallet (message processor, change handler, pause query, weights) is the class
    [Config].  The processor and the handler work on the whole storage, so they
    may call back into the pallet; the token of [with_service_mutex] is an
    argument of the calls it guards.  [None] is a loop that ran out of fuel. *)

From stdpp Require Import base option numbers list gmap.
From Stdlib Require Import ZArith Lia.
From S2P Require Import Prelude Codec Weights MqPage.
Local Open Scope Z_scope.

(** A single link in the double-linked ready ring. *)
Record Neighbours (O : Type) : Type := mkNeighbours { prev : O; next : O }.
Arguments mkNeighbours {O}.
Arguments prev {O}.
Arguments next {O}.

Record BookState (O : Type) : Type := mkBook {
  bs_begin : Z;
  bs_end : Z;
  bs_count : Z;
  ready_neighbours : option (Neighbours O);
  message_count : Z;
  bs_size : Z;
}.
Arguments mkBook {O}.
Arguments bs_begin {O}.
Arguments bs_end {O}.
Arguments bs_count {O}.
Arguments ready_neighbours {O}.
Arguments message_count {O}.
Arguments bs_size {O}.

Definition default_book {O : Type} : BookState O := mkBook 0 0 0 None 0 0.

Record QueueFootprint : Set := mkFootprint {
  fp_pages : Z;
  fp_ready_pages : Z;
  fp_storage_count : Z;
  fp_storage_size : Z;
}.

Definition footprint_of {O : Type} (book : BookState O) : QueueFootprint :=
  mkFootprint (bs_count book) (saturating_sub (bs_end book) (bs_begin book)) (message_count book) (bs_size book).

(** ** The footprints of batches of messages *)

Record BatchFootprint : Set := mkBatch {
  msgs_count : Z;
  size_in_bytes : Z;
  new_pages_count : Z;
}.

Record BatchesFootprints : Set := mkBatches {
  first_page_pos : Z;
  footprints : list BatchFootprint;
}.

Definition push (msg : bytes) (new_page : bool) (self : BatchesFootprints) : BatchesFootprints :=
  let previous_footprint := default (mkBatch 0 0 0) (list.last (footprints self)) in
  let new_pages_count :=
    if new_page then saturating_add 32 (new_pages_count previous_footprint) 1
    else new_pages_count previous_footprint in
  mkBatches (first_page_pos self)
    (footprints self ++
      [mkBatch (saturating_add 64 (msgs_count previous_footprint) 1)
               (saturating_add 64 (size_in_bytes previous_footprint) (zlen msg)) new_pages_count]).

Inductive ProcessMessageError : Set :=
| BadFormat
| Corrupt
| Unsupported
| Overweight (w : WeightV2.Weight)
| Yield
| StackLimitReached.

Inductive Event (O : Type) : Type :=
| ProcessingFailed (id : bytes) (origin : O) (error : ProcessMessageError)
| Processed (id : bytes) (origin : O) (weight_used : WeightV2.Weight) (success : bool)
| OverweightEnqueued (id : bytes) (origin : O) (page_index message_index : Z)
| PageReaped (origin : O) (index : Z).
Arguments ProcessingFailed {O}.
Arguments Processed {O}.
Arguments OverweightEnqueued {O}.
Arguments PageReaped {O}.

Inductive Error : Set :=
| NotReapable
| NoPage
| NoMessage
| AlreadyProcessed
| Queued
| InsufficientWeight
| TemporarilyUnprocessable
| QueuePaused
| RecursiveDisallowed.

Inductive ExecuteOverweightError : Set :=
| ENotFound
| EAlreadyProcessed
| EInsufficientWeight
| EQueuePaused
| EOther
| ERecursiveDisallowed.

Inductive PageExecutionStatus : Set := PBailed | PNoProgress | PNoMore.

Inductive ItemExecutionStatus : Set := IBailed | INoProgress | INoItem | IExecuted (processed : bool).

Inductive MessageExecutionStatus : Set :=
| MInsufficientWeight
| MOverweight
| MProcessed
| MUnprocessable (permanent : bool)
| MStackLimitReached.

(** The storage: the three items of the pallet, the deposited events and the
    storage of the other pallets. *)
Record Storage (O X : Type) `{Countable O} : Type := mkStorage {
  BookStateFor : gmap O (BookState O);
  ServiceHead : option O;
  Pages : gmap (O * Z) Page;
  Events : list (Event O);
  Rest : X;
}.
Arguments mkStorage {O X _ _}.
Arguments BookStateFor {O X _ _}.
Arguments ServiceHead {O X _ _}.
Arguments Pages {O X _ _}.
Arguments Events {O X _ _}.
Arguments Rest {O X _ _}.

(** [WeightInfo], the benchmarked weights. *)
Record WeightInfo : Set := mkWeightInfo {
  w_bump_service_head : WeightV2.Weight;
  w_set_service_head : WeightV2.Weight;
  w_service_queue_base : WeightV2.Weight;
  w_service_page_base_completion : WeightV2.Weight;
  w_service_page_base_no_completion : WeightV2.Weight;
  w_service_page_item : WeightV2.Weight;
  w_ready_ring_unknit : WeightV2.Weight;
  w_execute_overweight_page_removed : WeightV2.Weight;
  w_execute_overweight_page_updated : WeightV2.Weight;
}.

(** [Config], and the host functions the pallet calls: the hash of a message, and
    whether another transaction layer can be opened. *)
Class Config (O X : Type) `{Countable O} : Type := {
  process_message :
    bytes -> O -> Meter.WeightMeter -> bytes -> Storage O X ->
    (bool + ProcessMessageError) * Meter.WeightMeter * bytes * Storage O X;
  on_queue_changed : O -> QueueFootprint -> Storage O X -> Storage O X;
  is_paused : O -> Storage O X -> bool;
  MaxStale : Z;
  ServiceWeight : option WeightV2.Weight;
  IdleMaxServiceWeight : option WeightV2.Weight;
  weights : WeightInfo;
  blake2_256 : bytes -> bytes;
  layer_available : Storage O X -> bool;
}.

(** The rounds of a servicing loop: every round takes weight, and no more than
    [2 ^ 65] can be taken. *)
Definition service_fuel : positive := 2 ^ 66.

Section pallet.
Context {O X : Type} `{Countable O} `{HeaderCodec, HeapSize} `{!Config O X}.
Implicit Types (s : Storage O X) (book : BookState O) (weight : Meter.WeightMeter).

(** ** Storage access *)

Definition set_books f s : Storage O X :=
  mkStorage (f (BookStateFor s)) (ServiceHead s) (Pages s) (Events s) (Rest s).
Definition set_head h s : Storage O X :=
  mkStorage (BookStateFor s) h (Pages s) (Events s) (Rest s).
Definition set_pages f s : Storage O X :=
  mkStorage (BookStateFor s) (ServiceHead s) (f (Pages s)) (Events s) (Rest s).
Definition deposit_event e s : Storage O X :=
  mkStorage (BookStateFor s) (ServiceHead s) (Pages s) (Events s ++ [e]) (Rest s).

Definition get_book (o : O) s : BookState O := default default_book (BookStateFor s !! o).
Definition put_book (o : O) book s : Storage O X := set_books <[o := book]> s.
Definition get_page (o : O) (i : Z) s : option Page := Pages s !! (o, i).
Definition put_page (o : O) (i : Z) (p : Page) s : Storage O X := set_pages <[(o, i) := p]> s.
Definition remove_page (o : O) (i : Z) s : Storage O X := set_pages (delete (o, i)) s.

Definition with_neighbours (n : option (Neighbours O)) book : BookState O :=
  mkBook (bs_begin book) (bs_end book) (bs_count book) n (message_count book) (bs_size book).
Definition with_begin (b : Z) book : BookState O :=
  mkBook b (bs_end book) (bs_count book) (ready_neighbours book) (message_count book) (bs_size book).
Definition with_count (c : Z) book : BookState O :=
  mkBook (bs_begin book) (bs_end book) c (ready_neighbours book) (message_count book) (bs_size book).
Definition with_content (n z : Z) book : BookState O :=
  mkBook (bs_begin book) (bs_end book) (bs_count book) (ready_neighbours book) n z.

(** One message of [len] bytes less. *)
Definition note_message_gone (len : Z) book : BookState O :=
  with_content (saturating_sub (message_count book) 1) (saturating_sub (bs_size book) len) book.

(** ** The ready ring *)

Definition ready_ring_knit (origin : O) s : Storage O X * option (Neighbours O) :=
  match ServiceHead s with
  | Some head =>
    let head_book_state := get_book head s in
    match ready_neighbours head_book_state with
    | None => (s, None)
    | Some head_neighbours =>
      let tail := prev head_neighbours in
      let s := put_book head (with_neighbours (Some (mkNeighbours origin (next head_neighbours))) head_book_state) s in
      let tail_book_state := get_book tail s in
      match ready_neighbours tail_book_state with
      | None => (s, None)
      | Some tail_neighbours =>
        let s := put_book tail (with_neighbours (Some (mkNeighbours (prev tail_neighbours) origin)) tail_book_state) s in
        (s, Some (mkNeighbours tail head))
      end
    end
  | None => (set_head (Some origin) s, Some (mkNeighbours origin origin))
  end.

(** [BookStateFor::mutate] of the neighbours of a book. *)
Definition mutate_neighbours (o : O) (f : Neighbours O -> Neighbours O) s : Storage O X :=
  let book := get_book o s in put_book o (with_neighbours (f <$> ready_neighbours book) book) s.

Definition ready_ring_unknit (origin : O) (neighbours : Neighbours O) s : Storage O X :=
  if decide (origin = next neighbours) then set_head None s
  else
    let s := mutate_neighbours (next neighbours) (fun n => mkNeighbours (prev neighbours) (next n)) s in
    let s := mutate_neighbours (prev neighbours) (fun n => mkNeighbours (prev n) (next neighbours)) s in
    match ServiceHead s with
    | Some head => if decide (head = origin) then set_head (Some (next neighbours)) s else s
    | None => s
    end.

(** Whether the weight was consumed. *)
Definition consumes weight (w : WeightV2.Weight) : option Meter.WeightMeter :=
  match Meter.try_consume weight w with
  | (weight, Ok _) => Some weight
  | _ => None
  end.

Definition bump_service_head weight s : Meter.WeightMeter * Storage O X * option O :=
  match consumes weight (w_bump_service_head weights) with
  | None => (weight, s, None)
  | Some weight =>
    match ServiceHead s with
    | Some head =>
      match ready_neighbours (get_book head s) with
      | Some head_neighbours => (weight, set_head (Some (next head_neighbours)) s, Some head)
      | None => (weight, s, None)
      end
    | None => (weight, s, None)
    end
  end.

Definition set_service_head weight (queue : O) s : Meter.WeightMeter * Storage O X * outcome unit bool :=
  match consumes weight (w_set_service_head weights) with
  | None => (weight, s, Err tt)
  | Some weight =>
    match ready_neighbours (get_book queue s) with
    | Some _ => (weight, set_head (Some queue) s, Ok true)
    | None => (weight, s, Ok false)
    end
  end.

(** ** Weight limits *)

Definition single_msg_overhead : WeightV2.Weight :=
  WeightV2.saturating_add
    (WeightV2.saturating_add
      (WeightV2.saturating_add
        (WeightV2.saturating_add (w_bump_service_head weights) (w_service_queue_base weights))
        (WeightV2.max (w_service_page_base_completion weights) (w_service_page_base_no_completion weights)))
      (w_service_page_item weights))
    (w_ready_ring_unknit weights).

Definition max_message_weight (limit : WeightV2.Weight) : option WeightV2.Weight :=
  let service_weight := default WeightV2.zero ServiceWeight in
  let on_idle_weight := default WeightV2.zero IdleMaxServiceWeight in
  let max_message_weight := if WeightV2.any_gt service_weight on_idle_weight then service_weight else on_idle_weight in
  if WeightV2.is_zero max_message_weight then WeightV2.checked_sub limit single_msg_overhead
  else WeightV2.checked_sub max_message_weight single_msg_overhead.

(** ** Enqueueing *)

(** The round of the loop of [do_enqueue_messages]: the book, the page in
    progress and the storage. *)
Definition enqueue_one (origin : O) (message : bytes) (st : BookState O * option Page * Storage O X)
  : BookState O * option Page * Storage O X :=
  let '(book, maybe_page, s) := st in
  let '(maybe_page, s) :=
    match maybe_page with
    | Some page =>
      match try_append_message message page with
      | Some page => (Some page, s)
      | None => (None, put_page origin (bs_end book - 1) page s)
      end
    | None => (None, s)
    end in
  let '(book, maybe_page) :=
    match maybe_page with
    | Some page => (book, Some page)
    | None =>
      (mkBook (bs_begin book) (saturating_add 32 (bs_end book) 1) (saturating_add 32 (bs_count book) 1)
              (ready_neighbours book) (message_count book) (bs_size book),
       Some (from_message message))
    end in
  (with_content (saturating_add 64 (message_count book) 1) (saturating_add 64 (bs_size book) (zlen message)) book,
   maybe_page, s).

Definition do_enqueue_messages (origin : O) (messages : list bytes) s : Storage O X :=
  let book := get_book origin s in
  let maybe_page := if bs_begin book <? bs_end book then get_page origin (bs_end book - 1) s else None in
  let '(book, maybe_page, s) := foldl (fun st m => enqueue_one origin m st) (book, maybe_page, s) messages in
  let s := match maybe_page with Some page => put_page origin (bs_end book - 1) page s | None => s end in
  let '(book, s) :=
    match ready_neighbours book with
    | Some _ => (book, s)
    | None =>
      match ready_ring_knit origin s with
      | (s, Some neighbours) => (with_neighbours (Some neighbours) book, s)
      | (s, None) => (book, s)
      end
    end in
  put_book origin book s.

Definition enqueue_messages (messages : list bytes) (origin : O) s : Storage O X :=
  let s := do_enqueue_messages origin messages s in
  on_queue_changed origin (footprint_of (get_book origin s)) s.

Definition enqueue_message (message : bytes) (origin : O) s : Storage O X :=
  let s := do_enqueue_messages origin [message] s in
  on_queue_changed origin (footprint_of (get_book origin s)) s.

Definition sweep_queue (origin : O) s : Storage O X :=
  match BookStateFor s !! origin with
  | None => s
  | Some book =>
    let book := with_begin (bs_end book) book in
    let s := match ready_neighbours book with Some n => ready_ring_unknit origin n s | None => s end in
    put_book origin (with_neighbours None book) s
  end.

Definition footprint (origin : O) s : QueueFootprint := footprint_of (get_book origin s).

(** ** Processing a message *)

Definition process_message_payload (origin : O) (page_index message_index : Z) (message : bytes) weight
    (overweight_limit : WeightV2.Weight) s : MessageExecutionStatus * Meter.WeightMeter * Storage O X :=
  let prev_consumed := Meter.consumed weight in
  if negb (layer_available s) then (MUnprocessable true, weight, s)
  else
    let '(res, weight, id, s') := process_message message origin weight (blake2_256 message) s in
    match res with
    | inr (Overweight w) =>
      if WeightV2.any_gt w overweight_limit
      then (MOverweight, weight, deposit_event (OverweightEnqueued id origin page_index message_index) s)
      else (MInsufficientWeight, weight, s)
    | inr Yield => (MUnprocessable false, weight, s)
    | inr StackLimitReached =>
      (MStackLimitReached, weight, deposit_event (ProcessingFailed id origin StackLimitReached) s)
    | inr error => (MUnprocessable true, weight, deposit_event (ProcessingFailed id origin error) s)
    | inl success =>
      let weight_used := WeightV2.saturating_sub (Meter.consumed weight) prev_consumed in
      (MProcessed, weight, deposit_event (Processed id origin weight_used success) s')
    end.

(** The result of a closure under the mutex; [token] tells whether a call up the
    stack holds it. *)
Definition with_service_mutex {R : Type} (token : bool) (f : unit -> R) : outcome unit R :=
  if token then Err tt else Ok (f tt).

(** ** Overweight messages and reaping *)

Definition do_execute_overweight_inner (origin : O) (page_index index : Z) (weight_limit : WeightV2.Weight) s
  : outcome Error WeightV2.Weight * Storage O X :=
  let book := get_book origin s in
  if is_paused origin s then (Err QueuePaused, s) else
  match get_page origin page_index s with
  | None => (Err NoPage, s)
  | Some page =>
    match peek_index (Z.to_nat index) page with
    | None => (Err NoMessage, s)
    | Some (pos, processed, payload) =>
      if negb ((page_index <? bs_begin book) || ((page_index =? bs_begin book) && (pos <? first page)))
      then (Err Queued, s)
      else if processed then (Err AlreadyProcessed, s)
      else
        let '(status, weight_counter, s) :=
          process_message_payload origin page_index index payload (Meter.with_limit weight_limit) WeightV2.MAX s in
        match status with
        | MOverweight | MInsufficientWeight => (Err InsufficientWeight, s)
        | MStackLimitReached | MUnprocessable false => (Err TemporarilyUnprocessable, s)
        | MUnprocessable true | MProcessed =>
          match note_processed_at_pos pos page with
          | None => (Panic, s)
          | Some page =>
            let book := note_message_gone (zlen payload) book in
            let '(book, page_weight, s) :=
              if remaining page =? 0 then
                (with_count (saturating_sub (bs_count book) 1) book, w_execute_overweight_page_removed weights,
                 remove_page origin page_index s)
              else (book, w_execute_overweight_page_updated weights, put_page origin page_index page s) in
            let s := put_book origin book s in
            let s := on_queue_changed origin (footprint_of book) s in
            (Ok (WeightV2.saturating_add (Meter.consumed weight_counter) page_weight), s)
          end
        end
    end
  end.

(** An [Err] of the mutex becomes [RecursiveDisallowed]. *)
Definition do_execute_overweight (token : bool) (origin : O) (page_index index : Z) (weight_limit : WeightV2.Weight) s
  : outcome Error WeightV2.Weight * Storage O X :=
  match with_service_mutex token (fun _ => do_execute_overweight_inner origin page_index index weight_limit s) with
  | Ok x => x
  | Err _ => (Err RecursiveDisallowed, s)
  | Panic => (Panic, s)
  end.

Definition overweight_error (e : Error) : ExecuteOverweightError :=
  match e with
  | InsufficientWeight => EInsufficientWeight
  | AlreadyProcessed => EAlreadyProcessed
  | QueuePaused => EQueuePaused
  | NoPage | NoMessage | Queued => ENotFound
  | RecursiveDisallowed => ERecursiveDisallowed
  | _ => EOther
  end.

Definition execute_overweight (token : bool) (weight_limit : WeightV2.Weight) (message_origin : O) (page index : Z) s
  : outcome ExecuteOverweightError WeightV2.Weight * Storage O X :=
  let weight := Meter.with_limit weight_limit in
  match consumes weight (WeightV2.max (w_execute_overweight_page_removed weights)
                                      (w_execute_overweight_page_updated weights)) with
  | None => (Err EInsufficientWeight, s)
  | Some weight =>
    match do_execute_overweight token message_origin page index (Meter.remaining weight) s with
    | (Ok w, s) => (Ok w, s)
    | (Err e, s) => (Err (overweight_error e), s)
    | (Panic, s) => (Panic, s)
    end
  end.

(** The closure [cullable]; [u32] arithmetic wraps, and a division by zero
    cannot happen as [overflow] is positive unless it wraps. *)
Definition cullable (page_index : Z) book : option bool :=
  let total_pages := bs_count book in
  let ready_pages := Z.min (saturating_sub (bs_end book) (bs_begin book)) total_pages in
  let stale_pages := total_pages - ready_pages in
  let max_stale := MaxStale in
  match checked_sub stale_pages (wrapping 32 (max_stale + 1)) with
  | None => Some false
  | Some x =>
    let overflow := wrapping 32 (x + 1) in
    if overflow =? 0 then None
    else
      let backlog := Z.max (wrapping 32 (max_stale * max_stale) / overflow) max_stale in
      let watermark := saturating_sub (bs_begin book) backlog in
      Some (page_index <? watermark)
  end.

Definition do_reap_page_inner (origin : O) (page_index : Z) s : outcome Error unit * Storage O X :=
  let book := get_book origin s in
  if negb (page_index <? bs_begin book) then (Err NotReapable, s) else
  match get_page origin page_index s with
  | None => (Err NoPage, s)
  | Some page =>
    match (if remaining page =? 0 then Some true else cullable page_index book) with
    | None => (Panic, s)
    | Some false => (Err NotReapable, s)
    | Some true =>
      let s := remove_page origin page_index s in
      let book := with_count (saturating_sub (bs_count book) 1) book in
      let book := with_content (saturating_sub (message_count book) (remaining page))
                               (saturating_sub (bs_size book) (remaining_size page)) book in
      let s := put_book origin book s in
      let s := on_queue_changed origin (footprint_of book) s in
      (Ok tt, deposit_event (PageReaped origin page_index) s)
    end
  end.

Definition do_reap_page (token : bool) (origin : O) (page_index : Z) s : outcome Error unit * Storage O X :=
  match with_service_mutex token (fun _ => do_reap_page_inner origin page_index s) with
  | Ok x => x
  | Err _ => (Err RecursiveDisallowed, s)
  | Panic => (Panic, s)
  end.

(** ** Servicing *)

(** The book and the page being serviced, the meter and the storage. *)
Abbreviation page_state := (BookState O * Page * Meter.WeightMeter * Storage O X)%type.

Definition service_page_item (origin : O) (page_index : Z) (overweight_limit : WeightV2.Weight) (st : page_state)
  : ItemExecutionStatus * page_state :=
  let '(book, page, weight, s) := st in
  if is_complete page then (INoItem, (book, page, weight, s)) else
  match consumes weight (w_service_page_item weights) with
  | None => (IBailed, (book, page, weight, s))
  | Some weight =>
    match peek_first page with
    | None => (INoItem, (book, page, weight, s))
    | Some payload =>
      let s := put_page origin page_index page s in
      let s := put_book origin book s in
      let '(res, weight, s) :=
        process_message_payload origin page_index (first_index page) payload weight overweight_limit s in
      let book := get_book origin s in
      match get_page origin page_index s with
      | None => (INoItem, (book, page, weight, s))
      | Some page =>
        match res with
        | MInsufficientWeight => (IBailed, (book, page, weight, s))
        | MUnprocessable false => (INoProgress, (book, page, weight, s))
        | MProcessed | MUnprocessable true | MStackLimitReached =>
          (IExecuted true, (note_message_gone (zlen payload) book, skip_first true page, weight, s))
        | MOverweight => (IExecuted false, (book, skip_first false page, weight, s))
        end
      end
    end
  end.

(** A round of the loop of [service_page]. *)
Definition service_page_step (origin : O) (page_index : Z) (overweight_limit : WeightV2.Weight) (st : Z * page_state)
  : (Z * page_state) + (PageExecutionStatus * Z * page_state) :=
  let '(total_processed, st) := st in
  match service_page_item origin page_index overweight_limit st with
  | (IBailed, st) => inr (PBailed, total_processed, st)
  | (INoItem, st) => inr (PNoMore, total_processed, st)
  | (INoProgress, st) => inr (PNoProgress, total_processed, st)
  | (IExecuted true, st) => inl (saturating_add 32 total_processed 1, st)
  | (IExecuted false, st) => inl (total_processed, st)
  end.

Definition service_page (origin : O) (overweight_limit : WeightV2.Weight) book weight s
  : option (Z * PageExecutionStatus * BookState O * Meter.WeightMeter * Storage O X) :=
  match consumes weight (WeightV2.max (w_service_page_base_completion weights)
                                      (w_service_page_base_no_completion weights)) with
  | None => Some (0, PBailed, book, weight, s)
  | Some weight =>
    let page_index := bs_begin book in
    match get_page origin page_index s with
    | None => Some (0, PNoMore, book, weight, s)
    | Some page =>
      match loop service_fuel (service_page_step origin page_index overweight_limit) (0, (book, page, weight, s)) with
      | inl _ => None
      | inr (status, total_processed, (book, page, weight, s)) =>
        if is_complete page then
          Some (total_processed, status, with_count (saturating_sub (bs_count book) 1) book, weight,
                remove_page origin page_index s)
        else Some (total_processed, status, book, weight, put_page origin page_index page s)
      end
    end
  end.

(** A round of the loop of [service_queue]; the result of the loop is an option,
    as a round may run out of fuel. *)
Definition service_queue_step (origin : O) (overweight_limit : WeightV2.Weight)
    (st : Z * BookState O * Meter.WeightMeter * Storage O X)
  : (Z * BookState O * Meter.WeightMeter * Storage O X) +
    option (Z * BookState O * Meter.WeightMeter * Storage O X) :=
  let '(total_processed, book, weight, s) := st in
  if bs_begin book <? bs_end book then
    match service_page origin overweight_limit book weight s with
    | None => inr None
    | Some (processed, status, book, weight, s) =>
      let total_processed := saturating_add 32 total_processed processed in
      match status with
      | PBailed | PNoProgress => inr (Some (total_processed, book, weight, s))
      | PNoMore => inl (total_processed, with_begin (saturating_add 32 (bs_begin book) 1) book, weight, s)
      end
    end
  else inr (Some (total_processed, book, weight, s)).

Definition service_queue (origin : O) (overweight_limit : WeightV2.Weight) weight s
  : option (bool * option O * Meter.WeightMeter * Storage O X) :=
  match consumes weight (WeightV2.saturating_add (w_service_queue_base weights) (w_ready_ring_unknit weights)) with
  | None => Some (false, None, weight, s)
  | Some weight =>
    let book := get_book origin s in
    if is_paused origin s then Some (false, next <$> ready_neighbours book, weight, s)
    else
      match loop service_fuel (service_queue_step origin overweight_limit) (0, book, weight, s) with
      | inl _ | inr None => None
      | inr (Some (total_processed, book, weight, s)) =>
        let next_ready := next <$> ready_neighbours book in
        let '(book, s) :=
          if bs_end book <=? bs_begin book then
            match ready_neighbours book with
            | Some neighbours => (with_neighbours None book, ready_ring_unknit origin neighbours s)
            | None => (book, s)
            end
          else (book, s) in
        let s := put_book origin book s in
        let s := if 0 <? total_processed then on_queue_changed origin (footprint_of book) s else s in
        Some (0 <? total_processed, next_ready, weight, s)
      end
  end.

(** A round of the loop of [service_queues_impl]: the next queue, the last one
    without progress, the meter and the storage. *)
Definition service_queues_step (overweight_limit : WeightV2.Weight)
    (st : O * option O * Meter.WeightMeter * Storage O X)
  : (O * option O * Meter.WeightMeter * Storage O X) + option (Meter.WeightMeter * Storage O X) :=
  let '(nxt, last_no_progress, weight, s) := st in
  match service_queue nxt overweight_limit weight s with
  | None => inr None
  | Some (progressed, n, weight, s) =>
    match n with
    | None => inr (Some (weight, s))
    | Some n =>
      if negb progressed then
        if decide (last_no_progress = Some n) then inr (Some (weight, s))
        else inl (n, match last_no_progress with None => Some nxt | Some _ => last_no_progress end, weight, s)
      else inl (n, None, weight, s)
    end
  end.

(** The [context] only selects a diagnostic.  The weight consumed is also the
    result when the mutex is taken. *)
Definition service_queues_impl (token : bool) (weight_limit : WeightV2.Weight) s
  : option (WeightV2.Weight * Storage O X) :=
  let weight := Meter.with_limit weight_limit in
  let overweight_limit := default WeightV2.zero (max_message_weight weight_limit) in
  match
    with_service_mutex token (fun _ =>
      match bump_service_head weight s with
      | (weight, s, None) => Some (Meter.consumed weight, s)
      | (weight, s, Some nxt) =>
        match loop service_fuel (service_queues_step overweight_limit) (nxt, None, weight, s) with
        | inr (Some (weight, s)) => Some (Meter.consumed weight, s)
        | _ => None
        end
      end)
  with
  | Ok r => r
  | Err _ => Some (Meter.consumed weight, s)
  | Panic => None
  end.

Definition service_queues (token : bool) (weight_limit : WeightV2.Weight) s := service_queues_impl token weight_limit s.

Definition on_initialize (token : bool) s : option (WeightV2.Weight * Storage O X) :=
  match ServiceWeight with
  | Some weight_limit => service_queues_impl token weight_limit s
  | None => Some (WeightV2.zero, s)
  end.

Definition on_idle (token : bool) (remaining_weight : WeightV2.Weight) s : option (WeightV2.Weight * Storage O X) :=
  match IdleMaxServiceWeight with
  | Some weight_limit => service_queues_impl token (WeightV2.min weight_limit remaining_weight) s
  | None => Some (WeightV2.zero, s)
  end.

(** ** The footprints of batches *)

(** A round of the loop of [get_batches_footprints]: the messages left, whether
    the next one starts a page, the pages, the position in the last page and
    what was collected. *)
Definition footprints_step (total_pages_limit : Z) (st : list bytes * bool * Z * Z * BatchesFootprints)
  : (list bytes * bool * Z * Z * BatchesFootprints) + BatchesFootprints :=
  let '(msgs, new_page, total_pages_count, current_page_pos, batches) := st in
  match msgs with
  | [] => inr batches
  | msg :: rest =>
    if total_pages_limit <? total_pages_count then inr batches
    else
      match can_append_message_at current_page_pos (zlen msg) with
      | Some new_pos => inl (rest, false, total_pages_count, new_pos, push msg new_page batches)
      | None => inl (msgs, true, wrapping 32 (total_pages_count + 1), 0, batches)
      end
  end.

Definition get_batches_footprints (origin : O) (msgs : list bytes) (total_pages_limit : Z) s
  : option BatchesFootprints :=
  let book := get_book origin s in
  let '(total_pages_count, current_page_pos, batches) :=
    if bs_begin book <? bs_end book then
      let total_pages_count := bs_end book - bs_begin book in
      match get_page origin (bs_end book - 1) s with
      | Some page => (total_pages_count, heap_pos page, mkBatches (heap_pos page) [])
      | None => (total_pages_count, heap_size, mkBatches 0 [])
      end
    else (0, heap_size, mkBatches 0 []) in
  match loop service_fuel (footprints_step total_pages_limit)
          (msgs, false, total_pages_count, current_page_pos, batches) with
  | inr batches => Some batches
  | inl _ => None
  end.

(** ** [do_try_state] *)

(** The unprocessed messages a page shows to [peek_index]; the heap bounds the
    number of items. *)
Fixpoint counted_remaining (fuel i : nat) (page : Page) : Z :=
  match fuel with
  | 0%nat => 0
  | S fuel =>
    match peek_index i page with
    | Some (_, processed, _) => (if processed then 0 else 1) + counted_remaining fuel (S i) page
    | None => 0
    end
  end.

(** The checks on the book at the head; [None] for the unwrap of a missing page. *)
Definition try_head (head : O) s : option bool :=
  let book := get_book head s in
  match ready_neighbours book with
  | None => Some false
  | Some n =>
    if bool_decide (is_Some (BookStateFor s !! head)) && (0 <? message_count book) && (0 <? bs_size book)
       && (bs_begin book <? bs_end book)
       && (negb (bool_decide (next n = head)) || bool_decide (prev n = head))
    then
      foldr (fun i r =>
        match get_page head i s with
        | None => None
        | Some page =>
          if (0 <? remaining page) && (remaining page =? counted_remaining (S (length (heap page))) 0 page)
          then r else Some false
        end) (Some true) (seqZ (bs_begin book) (bs_end book - bs_begin book))
    else Some false
  end.

(** The basic checks on a book. *)
Definition try_book book : bool :=
  (bs_begin book <=? bs_end book) && (bs_end book <? 2 ^ 30) && (message_count book <? 2 ^ 30)
  && (bs_size book <? 2 ^ 30) && (bs_count book <? 2 ^ 30)
  && (fp_ready_pages (footprint_of book) <=? fp_pages (footprint_of book)).

(** A round of the walk around the ring, which bumps the head. *)
Definition try_ring_step (starting_origin : O) s : Storage O X + (option bool * Storage O X) :=
  match bump_service_head Meter.new s with
  | (_, s, None) => inr (Some true, s)
  | (_, s, Some head) =>
    match try_head head s with
    | Some true =>
      if bool_decide (next <$> ready_neighbours (get_book head s) = Some starting_origin)
      then inr (Some true, s) else inl s
    | r => inr (r, s)
    end
  end.

(** [None] for a panic; the maps of the storage have as many keys as values. *)
Definition do_try_state s : option bool * Storage O X :=
  if forallb try_book (map_to_list (BookStateFor s)).*2 then
    match ServiceHead s with
    | None => (Some true, s)
    | Some starting_origin =>
      match loop service_fuel (try_ring_step starting_origin) s with
      | inr r => r
      | inl s => (None, s)
      end
    end
  else (Some false, s).
End pallet.
