(* ===== verification/MqRing.v ===== *)
(** * The ready ring of the message queue

    The double-linked ring that [ready_ring_knit], [ready_ring_unknit],
    [bump_service_head] and [set_service_head] of
    [substrate/frame/message-queue/src/lib.rs] keep through the books is a list of
    distinct queues: knitting appends, unknitting removes, bumping rotates. *)

From stdpp Require Import base option numbers list gmap.
From Stdlib Require Import ZArith Lia.
From S2P Require Import Prelude Codec Weights MqPage MessageQueue.
Local Open Scope Z_scope.

(** ** Rings as lists

    [c] are the other queues of the ring, from the one after [o] around. *)
Definition links {O : Type} (o : O) (c : list O) : Neighbours O :=
  mkNeighbours (default o (list.last c)) (default o (head c)).

Record ring {O : Type} (h : option O) (nb : O -> option (Neighbours O)) (l : list O) : Prop := {
  ring_nodup : NoDup l;
  ring_head : h = head l;
  ring_links a o b : l = a ++ o :: b -> nb o = Some (links o (b ++ a));
  ring_out o : o ∉ l -> nb o = None;
}.

Section rings.
Context {O : Type} `{EqDecision O}.
Implicit Types (h : option O) (nb : O -> option (Neighbours O)) (l : list O).

Lemma ring_ext h nb nb' l : (forall o, nb' o = nb o) -> ring h nb l -> ring h nb' l.
Proof. intros E [Hn Hh Hl Ho]. split; [done|done|..]; intros; rewrite E; eauto. Qed.

(** The same links with another head. *)
Lemma ring_rotate h nb a b : ring h nb (a ++ b) -> ring (head (b ++ a)) nb (b ++ a).
Proof.
  intros [Hn Hh Hl Ho]. split; [|done|..].
  - by rewrite (Permutation_app_comm b a).
  - intros x o y E. apply app_eq_app in E as [k [[-> E]|[-> E]]].
    + destruct k as [|z k]; cbn in E.
      * subst a. rewrite !app_nil_r in *. rewrite (Hl [] o (y ++ x)) by done. by rewrite app_nil_r.
      * injection E as -> ->. rewrite (Hl (a ++ x) z k) by (by rewrite <- app_assoc). by rewrite app_assoc.
    + subst a. rewrite (Hl k o (y ++ b)) by (by rewrite <- !app_assoc). by rewrite <- !app_assoc.
  - intros o Hi. apply Ho. set_solver.
Qed.

Lemma last_app_default (d : O) a b : default d (list.last (a ++ b)) = default (default d (list.last a)) (list.last b).
Proof. rewrite last_app. by destruct (list.last b). Qed.

Lemma head_app_default (d : O) a b : default d (head (a ++ b)) = default (default d (head b)) (head a).
Proof. by destruct a. Qed.

(** A queue of the ring is the head, or the tail, when nothing is before, or after it. *)
Lemma position_first {A : Type} (p q : A) (z : O) a b :
  NoDup (a ++ z :: b) ->
  (if decide (z = default z (head a)) then p else q) = match a with [] => p | _ => q end.
Proof.
  intros Hn. destruct a as [|y a]; [by rewrite decide_True|]. cbn in *.
  apply NoDup_cons in Hn as [Hn _]. rewrite decide_False; [done|]. set_solver.
Qed.

Lemma position_last {A : Type} (p q : A) (z : O) a b :
  NoDup (a ++ z :: b) ->
  (if decide (z = default z (list.last b)) then p else q) = match b with [] => p | _ => q end.
Proof.
  intros Hn. apply NoDup_app in Hn as (_ & _ & Hn). apply NoDup_cons in Hn as [Hn _].
  destruct b as [|y b]; [by rewrite decide_True|].
  destruct (list.last (y :: b)) as [w|] eqn:El; [|by apply last_None in El].
  rewrite decide_False; [done|]. apply last_Some in El as [c Hc]. rewrite Hc in Hn. set_solver.
Qed.

Lemma last_middle (d z : O) a b : default d (list.last (a ++ z :: b)) = default z (list.last b).
Proof. rewrite last_app, last_cons. by destruct (list.last b). Qed.

Lemma head_middle (d z : O) a b : default d (head (a ++ z :: b)) = default z (head a).
Proof. by destruct a. Qed.

Lemma last_nonempty {A : Type} (p q : A) (a : list O) :
  match a with [] => p | _ => q end = match list.last a with None => p | Some _ => q end.
Proof. destruct a as [|y a]; [done|]. by destruct (list.last (y :: a)) eqn:El; [|apply last_None in El]. Qed.

(** A new queue between the tail and the head. *)
Lemma ring_knit nb nb' x t o :
  ring (Some x) nb (x :: t) -> o ∉ x :: t ->
  let tl := default x (list.last t) in
  nb' o = Some (mkNeighbours tl x) ->
  (forall z, z <> o ->
     nb' z = (fun n => mkNeighbours (if decide (z = x) then o else prev n)
                                    (if decide (z = tl) then o else next n)) <$> nb z) ->
  ring (Some x) nb' ((x :: t) ++ [o]).
Proof.
  intros [Hn _ Hl Ho] Hi tl Hself Hothers. split.
  - apply NoDup_app. split; [done|]. split; [set_solver|]. apply NoDup_singleton.
  - done.
  - intros a z b E. destruct b as [|y b _] using rev_ind.
    + apply app_inj_tail in E as [<- <-]. rewrite Hself. cbn [app]. unfold links. f_equal.
      cbn [head default]. rewrite last_cons. unfold tl. by destruct (list.last t).
    + rewrite app_comm_cons, app_assoc in E. apply app_inj_tail in E as [E <-].
      assert (Hz : z ∈ x :: t) by (rewrite E; set_solver).
      rewrite Hothers, (Hl a z b E) by (by intros ->). cbn [fmap option_fmap option_map].
      assert (Hx : x = default z (head a)) by (by rewrite <- (head_middle x z a b), <- E).
      assert (Htl : tl = default z (list.last b)).
      { rewrite <- (last_middle x z a b), <- E, last_cons. unfold tl. by destruct (list.last t). }
      rewrite Hx, Htl, E in *. rewrite (position_first _ _ z a b Hn), (position_last _ _ z a b Hn).
      f_equal. unfold links. cbn [prev next]. rewrite !last_app_default, !head_app_default. f_equal.
      * rewrite last_nonempty. by destruct (list.last a).
      * by destruct b.
  - intros z Hz. rewrite Hothers by set_solver. by rewrite Ho by set_solver.
Qed.

(** A queue taken out of the ring. *)
Lemma ring_unknit h nb nb' a o b :
  ring h nb (a ++ o :: b) ->
  let n := links o (b ++ a) in
  nb' o = None ->
  (forall z, z <> o ->
     nb' z = (fun m => mkNeighbours (if decide (z = next n) then prev n else prev m)
                                    (if decide (z = prev n) then next n else next m)) <$> nb z) ->
  ring (head (a ++ b)) nb' (a ++ b).
Proof.
  intros Hr n Hself Hothers.
  cut (ring (head (b ++ a)) nb' (b ++ a)).
  { intros Hc. apply (ring_rotate _ _ b a Hc). }
  apply (ring_rotate _ _ a (o :: b)) in Hr. cbn [app] in Hr. fold n in Hothers.
  revert n Hothers Hr. generalize (b ++ a). clear a b. intros l n Hothers [Hn _ Hl Ho].
  apply NoDup_cons in Hn as [Hno Hn]. split; [done|done|..].
  - intros a z b ->. rewrite Hothers by set_solver. rewrite (Hl (o :: a) z b) by done.
    cbn [fmap option_fmap option_map]. f_equal. unfold links at 3. unfold n, links. cbn [prev next]. clear Hl n Hothers.
    rewrite !last_middle, !head_middle, (position_first _ _ z a b Hn), (position_last _ _ z a b Hn).
    rewrite !head_app_default, !last_app_default. f_equal.
    + rewrite last_nonempty. by destruct (list.last a).
    + by destruct b.
  - intros z Hz. destruct (decide (z = o)) as [->|Hzo]; [done|].
    rewrite Hothers, Ho by set_solver. done.
Qed.
End rings.

(** ** The ring of the books *)

Section ring_ops.
Context {O X : Type} `{Countable O} `{HeaderCodec, HeapSize} `{!Config O X}.
Implicit Types (s : Storage O X) (book : BookState O) (l : list O).

Definition neighbours_of s (o : O) : option (Neighbours O) := ready_neighbours (get_book o s).

Definition queue_ring s l : Prop := ring (ServiceHead s) (neighbours_of s) l.

(** Only links differ. *)
Record relinked s s' : Prop := {
  relinked_pages : Pages s' = Pages s;
  relinked_events : Events s' = Events s;
  relinked_rest : Rest s' = Rest s;
  relinked_books o : get_book o s' = with_neighbours (neighbours_of s' o) (get_book o s);
}.

Lemma get_put_book z o book s : get_book z (put_book o book s) = if decide (z = o) then book else get_book z s.
Proof.
  unfold get_book, put_book, set_books. cbn [BookStateFor]. case_decide as E.
  - by rewrite E, lookup_insert_eq.
  - by rewrite lookup_insert_ne by congruence.
Qed.

Lemma neighbours_put z o book s :
  neighbours_of (put_book o book s) z = if decide (z = o) then ready_neighbours book else neighbours_of s z.
Proof. unfold neighbours_of. rewrite get_put_book. by case_decide. Qed.

Lemma get_set_head z h s : get_book z (set_head h s) = get_book z s.
Proof. done. Qed.

Lemma with_neighbours_id book : with_neighbours (ready_neighbours book) book = book.
Proof. by destruct book. Qed.

Lemma relinked_refl s : relinked s s.
Proof. split; try done. intros o. unfold neighbours_of. by rewrite with_neighbours_id. Qed.

Lemma relinked_put s s' o n :
  relinked s s' -> relinked s (put_book o (with_neighbours n (get_book o s')) s').
Proof.
  intros [Hp He Hr Hb]. split; try done. intros z. unfold neighbours_of. rewrite get_put_book.
  case_decide as E; [subst z; by rewrite (Hb o)|apply Hb].
Qed.

Lemma relinked_set_head s s' h : relinked s s' -> relinked s (set_head h s').
Proof. intros [Hp He Hr Hb]. by split. Qed.

Lemma ready_ring_knit_spec s l o :
  queue_ring s l -> o ∉ l ->
  exists s' n, ready_ring_knit o s = (s', Some n) /\ relinked s s' /\
    forall book, queue_ring (put_book o (with_neighbours (Some n) book) s') (l ++ [o]).
Proof.
  intros Hr Ho. unfold ready_ring_knit. destruct l as [|x t].
  - rewrite (ring_head _ _ _ Hr). cbn [head]. eexists _, _. split; [done|].
    split; [apply relinked_set_head, relinked_refl|]. intros book. split; cbn [app].
    + apply NoDup_singleton.
    + done.
    + intros [|? [|]] z [|] [=]. subst z. unfold neighbours_of. by rewrite get_put_book, decide_True.
    + intros z Hz. unfold neighbours_of. rewrite get_put_book, decide_False by set_solver.
      apply (ring_out _ _ _ Hr z). set_solver.
  - rewrite (ring_head _ _ _ Hr). cbn [head].
    pose proof (ring_links _ _ _ Hr [] x t eq_refl) as Hx. rewrite app_nil_r in Hx.
    unfold neighbours_of in Hx. rewrite Hx. cbn [prev next links].
    set (tl := default x (list.last t)).
    assert (Htl : exists n, neighbours_of s tl = Some n).
    { destruct (list.last t) as [w|] eqn:El; [|by eexists]. apply last_Some in El as [c ->].
      eexists. by apply (ring_links _ _ _ Hr (x :: c) w []). }
    destruct Htl as [n Hn]. set (s1 := put_book x _ s). fold (neighbours_of s1 tl).
    set (n1 := if decide (tl = x) then mkNeighbours o (default x (head t)) else n).
    assert (Hn1 : neighbours_of s1 tl = Some n1).
    { unfold s1, n1. rewrite neighbours_put. by case_decide. }
    rewrite Hn1. eexists _, _. split; [done|]. split; [apply relinked_put, relinked_put, relinked_refl|].
    intros book. change (queue_ring ?s _) with (ring (ServiceHead s) (neighbours_of s) ((x :: t) ++ [o])).
    cbn [ServiceHead put_book set_books s1]. rewrite (ring_head _ _ _ Hr). cbn [head].
    apply (ring_knit (neighbours_of s)).
    + unfold queue_ring in Hr. by rewrite (ring_head _ _ _ Hr) in Hr.
    + done.
    + by rewrite neighbours_put, decide_True.
    + intros z Hz. rewrite neighbours_put, decide_False, neighbours_put by done. fold tl. unfold s1. rewrite neighbours_put.
      unfold n1. destruct (decide (z = tl)) as [->|].
      * rewrite Hn. cbn. case_decide as Et; [|done]. rewrite Et in Hn. unfold neighbours_of in Hn. rewrite Hx in Hn. by injection Hn as <-.
      * case_decide as Ex; [subst z; unfold neighbours_of; rewrite Hx; done|]. destruct (neighbours_of s z) as [[]|]; done.
Qed.

Lemma neighbours_mutate o f s z :
  neighbours_of (mutate_neighbours o f s) z = if decide (z = o) then f <$> neighbours_of s z else neighbours_of s z.
Proof.
  unfold mutate_neighbours. cbv zeta. rewrite neighbours_put. by case_decide as E; [subst z|].
Qed.

Lemma relinked_mutate s s' o f : relinked s s' -> relinked s (mutate_neighbours o f s').
Proof. apply relinked_put. Qed.

Lemma ready_ring_unknit_spec s a o b :
  queue_ring s (a ++ o :: b) ->
  let s' := ready_ring_unknit o (links o (b ++ a)) s in
  relinked s s' /\ forall book, queue_ring (put_book o (with_neighbours None book) s') (a ++ b).
Proof.
  intros Hr s'. pose proof (ring_rotate _ _ a (o :: b) Hr) as Hrot. cbn [app] in Hrot.
  assert (Ho : o ∉ b ++ a) by (apply NoDup_cons, (ring_nodup _ _ _ Hrot)).
  assert (Hnil : o = next (links o (b ++ a)) -> b ++ a = []).
  { unfold links. cbn [next]. destruct (b ++ a); [done|]. cbn. set_solver. }
  assert (Hn : forall z, z <> o -> neighbours_of s' z =
    (fun m => mkNeighbours (if decide (z = next (links o (b ++ a))) then prev (links o (b ++ a)) else prev m)
                           (if decide (z = prev (links o (b ++ a))) then next (links o (b ++ a)) else next m))
      <$> neighbours_of s z).
  { intros z Hz. unfold s', ready_ring_unknit. case_decide as Eo.
    - rewrite (ring_out _ _ _ Hrot z); [|rewrite (Hnil Eo); set_solver].
      change (neighbours_of s z = None). apply (ring_out _ _ _ Hrot). rewrite (Hnil Eo). set_solver.
    - cbv zeta. set (s1 := mutate_neighbours _ _ (mutate_neighbours _ _ s)).
      assert (E : neighbours_of s1 z = (fun m => mkNeighbours
        (if decide (z = next (links o (b ++ a))) then prev (links o (b ++ a)) else prev m)
        (if decide (z = prev (links o (b ++ a))) then next (links o (b ++ a)) else next m)) <$> neighbours_of s z).
      { unfold s1. rewrite !neighbours_mutate. destruct (neighbours_of s z) as [[]|]; repeat case_decide; done. }
      destruct (ServiceHead s1) as [x|]; [destruct (decide (x = o))|]; exact E. }
  assert (Hh : ServiceHead s' = head (a ++ b)).
  { unfold s', ready_ring_unknit. case_decide as Eo.
    - specialize (Hnil Eo). by destruct b, a.
    - cbv zeta. set (s1 := mutate_neighbours _ _ (mutate_neighbours _ _ s)).
      change (ServiceHead s1) with (ServiceHead s). rewrite (ring_head _ _ _ Hr).
      destruct a as [|x a]; cbn [app head].
      + rewrite decide_True by done. cbn in Eo. rewrite app_nil_r in *. by destruct b.
      + rewrite decide_False by set_solver. apply (ring_head _ _ _ Hr). }
  split.
  - unfold s', ready_ring_unknit. case_decide; [apply relinked_set_head, relinked_refl|]. cbv zeta.
    repeat case_match; repeat apply relinked_set_head; repeat apply relinked_mutate; apply relinked_refl.
  - intros book. unfold queue_ring. cbn [put_book set_books ServiceHead]. rewrite Hh.
    apply (ring_unknit (ServiceHead s) (neighbours_of s) _ a o b Hr).
    + by rewrite neighbours_put, decide_True.
    + intros z Hz. by rewrite neighbours_put, decide_False, Hn.
Qed.

Lemma bump_service_head_spec weight s x t weight' :
  queue_ring s (x :: t) -> consumes weight (w_bump_service_head weights) = Some weight' ->
  exists s', bump_service_head weight s = (weight', s', Some x) /\ relinked s s' /\ queue_ring s' (t ++ [x]).
Proof.
  intros Hr Hw. unfold bump_service_head. rewrite Hw, (ring_head _ _ _ Hr). cbn [head].
  pose proof (ring_links _ _ _ Hr [] x t eq_refl) as Hx. unfold neighbours_of in Hx. rewrite Hx, app_nil_r.
  eexists. split; [done|]. split; [apply relinked_set_head, relinked_refl|].
  pose proof (ring_rotate _ _ [x] t Hr) as Hrot.
  unfold queue_ring. cbn [set_head ServiceHead next links].
  replace (Some (default x (head t))) with (head (t ++ [x])) by (by destruct t). exact Hrot.
Qed.

Lemma set_service_head_spec weight s l o weight' :
  queue_ring s l -> consumes weight (w_set_service_head weights) = Some weight' ->
  exists s' r, set_service_head weight o s = (weight', s', Ok r) /\ relinked s s' /\
    (r = true <-> o ∈ l) /\ exists l', queue_ring s' l' /\ l' ≡ₚ l /\ (o ∈ l -> head l' = Some o).
Proof.
  intros Hr Hw. unfold set_service_head. rewrite Hw. fold (neighbours_of s o).
  destruct (decide (o ∈ l)) as [Ho|Ho].
  - apply list_elem_of_split in Ho as (a & b & ->). rewrite (ring_links _ _ _ Hr a o b eq_refl).
    eexists _, _. split; [done|]. split; [apply relinked_set_head, relinked_refl|].
    split; [set_solver|]. exists ((o :: b) ++ a). split; [apply (ring_rotate _ _ a (o :: b) Hr)|].
    split; [apply Permutation_app_comm|done].
  - rewrite (ring_out _ _ _ Hr o Ho). eexists _, _. split; [done|]. split; [apply relinked_refl|].
    split; [done|]. by exists l.
Qed.
End ring_ops.
