(* ===== verification/MqInv.v ===== *)
(** * Invariant of the message queue

    The state that [do_try_state] of [substrate/frame/message-queue/src/lib.rs]
    checks, and more: the pages of every queue hold lists of messages, the book
    of the queue counts them exactly, and the queues with ready pages are in the
    ring.  Enqueueing, sweeping, reaping and executing overweight messages
    preserve it. *)

From stdpp Require Import base option numbers list gmap fin_maps.
From Stdlib Require Import ZArith Lia.
From S2P Require Import Prelude Codec Weights MqPage MessageQueue MqRing.
Local Open Scope Z_scope.

(** ** Sums over the pages of a queue *)

(** The items of a page and its cursor. *)
Abbreviation apage := (list item * nat)%type.

Definition pages_sum (f : list item -> Z) (m : gmap Z apage) : Z := map_fold (fun _ a n => f a.1 + n) 0 m.

Section sums.
Context (f : list item -> Z).
Implicit Types (m : gmap Z apage).

Lemma pages_sum_fresh m i a : m !! i = None -> pages_sum f (<[i := a]> m) = f a.1 + pages_sum f m.
Proof. intros Hi. unfold pages_sum. rewrite (map_fold_insert_L _ _ i a m); [done|intros; lia|done]. Qed.

Lemma pages_sum_delete m i a : m !! i = Some a -> pages_sum f m = f a.1 + pages_sum f (delete i m).
Proof. intros Hi. rewrite <- (pages_sum_fresh (delete i m) i a) by apply lookup_delete_eq. by rewrite insert_delete_id. Qed.

Lemma pages_sum_update m i a b :
  m !! i = Some a -> pages_sum f (<[i := b]> m) = pages_sum f m - f a.1 + f b.1.
Proof.
  intros Hi. rewrite (pages_sum_delete m i a Hi). rewrite <- (insert_delete_eq m i b), (pages_sum_fresh (delete i m)) by apply lookup_delete_eq.
  lia.
Qed.

Lemma pages_sum_bound m n :
  (forall i a, m !! i = Some a -> 0 <= f a.1 <= n) -> 0 <= pages_sum f m <= Z.of_nat (size m) * n.
Proof.
  induction m as [|i a m Hi IH] using map_ind; intros Hf.
  - unfold pages_sum. rewrite map_fold_empty, map_size_empty. lia.
  - rewrite pages_sum_fresh, map_size_insert_None by done.
    pose proof (Hf i a (lookup_insert_eq m i a)).
    assert (0 <= pages_sum f m <= Z.of_nat (size m) * n).
    { apply IH. intros j b Hj. apply (Hf j). rewrite lookup_insert_ne; [done|]. by intros <-; rewrite Hi in Hj. }
    lia.
Qed.

Lemma pages_sum_nonneg m : (forall l, 0 <= f l) -> 0 <= pages_sum f m.
Proof.
  intros Hf. induction m as [|i a m Hi IH] using map_ind.
  - unfold pages_sum. by rewrite map_fold_empty.
  - rewrite pages_sum_fresh by done. specialize (Hf a.1). lia.
Qed.

Lemma pages_sum_lookup m i a : (forall l, 0 <= f l) -> m !! i = Some a -> f a.1 <= pages_sum f m.
Proof. intros Hf Hi. rewrite (pages_sum_delete m i a Hi). pose proof (pages_sum_nonneg (delete i m) Hf). lia. Qed.
End sums.

(** Keys in a range. *)
Lemma map_size_between {A : Type} (m : gmap Z A) a n :
  a <= n -> (forall i x, m !! i = Some x -> a <= i < n) -> Z.of_nat (size m) <= n - a.
Proof.
  intros Hn Hm. rewrite <- length_map_to_list, <- (length_fmap fst).
  assert (Hl : (length (map_to_list m).*1 <= length (seqZ a (n - a)))%nat).
  { apply NoDup_incl_length; [apply NoDup_ListNoDup, NoDup_fst_map_to_list|].
    intros i. rewrite <- !list_elem_of_In, list_elem_of_fmap, elem_of_seqZ. intros ([j x] & -> & Hj).
    apply elem_of_map_to_list in Hj. cbn. pose proof (Hm j x Hj). lia. }
  rewrite length_seqZ in Hl. lia.
Qed.

Lemma map_size_window {A : Type} (m : gmap Z A) a b :
  (forall i, a <= i < b -> is_Some (m !! i)) -> b - a <= Z.of_nat (size m).
Proof.
  intros Hm. rewrite <- length_map_to_list, <- (length_fmap fst).
  assert (Hl : (length (seqZ a (b - a)) <= length (map_to_list m).*1)%nat).
  { apply NoDup_incl_length; [apply NoDup_ListNoDup, NoDup_seqZ|].
    intros i. rewrite <- !list_elem_of_In, list_elem_of_fmap, elem_of_seqZ. intros Hi.
    destruct (Hm i ltac:(lia)) as [x Hx]. exists (i, x). split; [done|]. by apply elem_of_map_to_list. }
  rewrite length_seqZ in Hl. lia.
Qed.

(** ** The invariant *)

Section inv.
Context {O X : Type} `{Countable O} `{HC : HeaderCodec, HL : !HeaderLaws HC, HS : HeapSize} `{!Config O X}.
Implicit Types (s : Storage O X) (book : BookState O) (l : list O) (m : gmap Z apage) (msg : bytes) (dn : list bytes).

(** The abstract pages of a queue. *)
Definition pages_repr s (o : O) m : Prop :=
  forall i, option_Forall2 (fun p a => page_repr p a.1 a.2) (get_page o i s) (m !! i).

(** The book counts the pages and messages; the ready pages are there, but for
    the first one, which [execute_overweight] may remove. *)
Record book_ok book m : Prop := {
  book_window : 0 <= bs_begin book <= bs_end book /\ bs_end book <= umax 32;
  book_below i a : m !! i = Some a -> 0 <= i < bs_end book;
  book_ready i : bs_begin book < i < bs_end book -> is_Some (m !! i);
  book_fresh i a : m !! i = Some a -> bs_begin book <= i -> Forall (fun it => it.2 = false) (drop a.2 a.1);
  book_count : bs_count book = Z.of_nat (size m);
  book_messages : message_count book = pages_sum (fun items => zlen (unprocessed items)) m;
  book_bytes : bs_size book = pages_sum (fun items => total_size (unprocessed items)) m;
}.

(** The messages of a page from the cursor on. *)
Definition rest_of (oa : option apage) : list bytes :=
  match oa with Some a => (drop a.2 a.1).*1 | None => [] end.

(** The messages still to be serviced, in order. *)
Definition awaiting book m : list bytes :=
  seqZ (bs_begin book) (bs_end book - bs_begin book) ≫= fun i => rest_of (m !! i).

Record mq_inv s l : Prop := {
  mq_ring : queue_ring s l;
  mq_listed o : bs_begin (get_book o s) < bs_end (get_book o s) -> o ∈ l;
  mq_queue o : exists m, pages_repr s o m /\ book_ok (get_book o s) m;
}.

Definition mq_ok s : Prop := exists l, mq_inv s l.

(** Messages were appended to pages, or in new ones. *)
Definition extends m m' : Prop :=
  forall i items k, m !! i = Some (items, k) -> exists more, m' !! i = Some (items ++ more, k).

(** ** The messages of a queue, read off the storage *)

Definition page_items (p : Page) : list item :=
  omap (fun i => (fun x => (x.2, x.1.2)) <$> peek_index i p) (seq 0 (length (heap p))).

Definition waiting (o : O) s : list bytes :=
  let book := get_book o s in
  seqZ (bs_begin book) (bs_end book - bs_begin book) ≫= fun i =>
    match get_page o i s with Some p => (drop (Z.to_nat (first_index p)) (page_items p)).*1 | None => [] end.

Hypothesis heap_size_fits : heap_size <= umax size_bits.
Hypothesis heap_size_header : Z.of_nat header_len <= heap_size.

Lemma omap_lookup_seq {A : Type} (l : list A) n a : omap (fun i => l !! i) (seq a n) = take n (drop a l).
Proof.
  revert a. induction n as [|n IH]; intros a; [done|]. cbn [seq omap list_omap].
  destruct (l !! a) as [x|] eqn:E.
  - rewrite (drop_S l x a E). cbn [take]. f_equal. apply IH.
  - apply lookup_ge_None in E. change (list_omap _ _ _ _) with (omap (fun i => l !! i) (seq (S a) n)).
    by rewrite IH, !drop_ge, !take_nil by lia.
Qed.

Lemma page_items_repr p items k : page_repr p items k -> page_items p = items.
Proof.
  intros Hp. unfold page_items. transitivity (omap (fun i => items !! i) (seq 0 (length (heap p)))).
  - apply list_omap_ext, Forall2_same_length_lookup_2; [done|]. intros i x y Hx Hy.
    simplify_eq. rewrite (peek_index_repr heap_size_fits p items k) by done. by destruct (items !! x) as [[]|].
  - rewrite omap_lookup_seq, drop_0. apply take_ge. pose proof (items_fit items) as [Hf ?].
    rewrite (repr_heap _ _ _ Hp). unfold zlen in Hf. lia.
Qed.

Lemma waiting_repr s o m : pages_repr s o m -> waiting o s = awaiting (get_book o s) m.
Proof.
  intros Hm. unfold waiting, awaiting, rest_of. apply list_bind_ext; [|done]. intros i. specialize (Hm i).
  destruct Hm as [p a Hp|]; [|done]. by rewrite (page_items_repr _ _ _ Hp), (repr_first_index _ _ _ Hp), Nat2Z.id.
Qed.
(** ** Pages in the storage *)

Lemma get_put_page o i j p s : get_page o j (put_page o i p s) = if decide (j = i) then Some p else get_page o j s.
Proof.
  unfold get_page, put_page, set_pages. cbn [Pages]. case_decide as E.
  - by rewrite E, lookup_insert_eq.
  - by rewrite lookup_insert_ne by congruence.
Qed.

Lemma get_put_page_ne o o' i j p s : o' <> o -> get_page o' j (put_page o i p s) = get_page o' j s.
Proof. intros Ho. unfold get_page, put_page, set_pages. cbn [Pages]. by rewrite lookup_insert_ne by congruence. Qed.

Lemma get_remove_page o i j s : get_page o j (remove_page o i s) = if decide (j = i) then None else get_page o j s.
Proof.
  unfold get_page, remove_page, set_pages. cbn [Pages]. case_decide as E.
  - by rewrite E, lookup_delete_eq.
  - by rewrite lookup_delete_ne by congruence.
Qed.

Lemma get_remove_page_ne o o' i j s : o' <> o -> get_page o' j (remove_page o i s) = get_page o' j s.
Proof. intros Ho. unfold get_page, remove_page, set_pages. cbn [Pages]. by rewrite lookup_delete_ne by congruence. Qed.

Lemma put_put_page o i p p' s : put_page o i p' (put_page o i p s) = put_page o i p' s.
Proof. unfold put_page, set_pages. cbn [BookStateFor ServiceHead Pages Events Rest]. by rewrite insert_insert_eq. Qed.

Lemma pages_repr_ext s s' o m : (forall i, get_page o i s' = get_page o i s) -> pages_repr s o m -> pages_repr s' o m.
Proof. intros E Hm i. rewrite E. apply Hm. Qed.

Lemma pages_repr_put s o m i p a :
  pages_repr s o m -> page_repr p a.1 a.2 -> pages_repr (put_page o i p s) o (<[i := a]> m).
Proof.
  intros Hm Hp j. rewrite get_put_page. case_decide as E.
  - rewrite E, lookup_insert_eq. by constructor.
  - rewrite lookup_insert_ne by congruence. apply Hm.
Qed.

Lemma pages_repr_remove s o m i : pages_repr s o m -> pages_repr (remove_page o i s) o (delete i m).
Proof.
  intros Hm j. rewrite get_remove_page. case_decide as E.
  - rewrite E, lookup_delete_eq. constructor.
  - rewrite lookup_delete_ne by congruence. apply Hm.
Qed.

Lemma pages_repr_lookup s o m i p :
  pages_repr s o m -> get_page o i s = Some p -> exists a, m !! i = Some a /\ page_repr p a.1 a.2.
Proof. intros Hm Hp. specialize (Hm i). rewrite Hp in Hm. inversion Hm; subst. eauto. Qed.

Lemma pages_repr_lookup_None s o m i : pages_repr s o m -> get_page o i s = None -> m !! i = None.
Proof. intros Hm Hp. specialize (Hm i). rewrite Hp in Hm. by inversion Hm. Qed.

Lemma pages_repr_inj s o m m' : pages_repr s o m -> pages_repr s o m' -> m = m'.
Proof.
  intros Hm Hm'. apply map_eq. intros i. specialize (Hm i). specialize (Hm' i).
  destruct Hm as [p [items k] Hp|]; inversion Hm' as [? [items' k'] Hp' E|]; [subst|done].
  cbn [fst snd] in *. f_equal. rewrite <- (page_items_repr _ _ _ Hp), <- (page_items_repr _ _ _ Hp').
  pose proof (repr_first_index _ _ _ Hp). pose proof (repr_first_index _ _ _ Hp'). f_equal. lia.
Qed.

Lemma page_bounds p items k :
  page_repr p items k ->
  0 <= zlen (unprocessed items) <= heap_size /\ 0 <= total_size (unprocessed items) <= heap_size.
Proof.
  intros Hp. pose proof (repr_bound _ _ _ Hp) as Hb. rewrite (repr_heap _ _ _ Hp) in Hb.
  pose proof (items_fit items) as [? ?]. pose proof (items_fit (unprocessed items)) as [_ ?].
  pose proof (unprocessed_le items) as [? ?]. unfold zlen in *. lia.
Qed.

(** The counters of a book never saturate. *)
Lemma book_counters s o m book :
  pages_repr s o m -> book_ok book m ->
  0 <= bs_count book <= bs_end book /\
  0 <= message_count book <= bs_end book * heap_size /\ 0 <= bs_size book <= bs_end book * heap_size.
Proof.
  intros Hm [Hw Hbelow _ _ Hc Hmc Hb].
  assert (Hbound : forall i a, m !! i = Some a ->
    0 <= zlen (unprocessed a.1) <= heap_size /\ 0 <= total_size (unprocessed a.1) <= heap_size).
  { intros i a Ha. pose proof (Hm i) as Hp. rewrite Ha in Hp. inversion Hp; subst. by eapply page_bounds. }
  pose proof (map_size_between m 0 (bs_end book) ltac:(lia) Hbelow) as Hsize.
  pose proof (pages_sum_bound (fun items => zlen (unprocessed items)) m heap_size ltac:(naive_solver)) as H1.
  pose proof (pages_sum_bound (fun items => total_size (unprocessed items)) m heap_size ltac:(naive_solver)) as H2.
  rewrite <- Hmc in H1. rewrite <- Hb in H2. nia.
Qed.
(** ** A message at the end of the queue *)

Lemma unprocessed_snoc items (msg : bytes) :
  zlen (unprocessed (items ++ [(msg, false)])) = zlen (unprocessed items) + 1 /\
  total_size (unprocessed (items ++ [(msg, false)])) = total_size (unprocessed items) + zlen msg.
Proof.
  unfold unprocessed. rewrite filter_app, total_size_app, filter_cons_True by done. cbn [filter list_filter].
  rewrite total_size_cons. unfold zlen. rewrite length_app. cbn [length fst total_size foldr]. lia.
Qed.

Lemma awaiting_ext book book' m m' :
  bs_begin book' = bs_begin book -> bs_end book' = bs_end book ->
  (forall i, bs_begin book <= i < bs_end book -> rest_of (m' !! i) = rest_of (m !! i)) ->
  awaiting book' m' = awaiting book m.
Proof.
  intros Hb He Hm. unfold awaiting. rewrite Hb, He.
  assert (Hall : forall i, i ∈ seqZ (bs_begin book) (bs_end book - bs_begin book) -> rest_of (m' !! i) = rest_of (m !! i)).
  { intros i. rewrite elem_of_seqZ. intros Hi. apply Hm. lia. }
  induction (seqZ (bs_begin book) (bs_end book - bs_begin book)) as [|i l IH]; [done|]. cbn [mbind list_bind].
  rewrite Hall by left. f_equal. apply IH. intros j Hj. apply Hall. by right.
Qed.

Definition with_end (e : Z) book : BookState O :=
  mkBook (bs_begin book) e (bs_count book) (ready_neighbours book) (message_count book) (bs_size book).

(** The last ready page. *)
Lemma awaiting_snoc book m :
  bs_begin book < bs_end book ->
  awaiting book m = awaiting (with_end (bs_end book - 1) book) m ++ rest_of (m !! (bs_end book - 1)).
Proof.
  intros Hlt. unfold awaiting. cbn [bs_begin bs_end with_end].
  replace (bs_end book - bs_begin book) with ((bs_end book - 1 - bs_begin book) + 1) by lia.
  rewrite seqZ_app, bind_app by lia. f_equal.
  replace (bs_begin book + (bs_end book - 1 - bs_begin book)) with (bs_end book - 1) by lia.
  change (seqZ (bs_end book - 1) 1) with [bs_end book - 1]. cbn [mbind list_bind]. apply app_nil_r.
Qed.

Lemma book_ok_append book m items k msg :
  book_ok book m -> bs_begin book < bs_end book -> m !! (bs_end book - 1) = Some (items, k) -> (k <= length items)%nat ->
  let book' := with_content (message_count book + 1) (bs_size book + zlen msg) book in
  let m' := <[bs_end book - 1 := (items ++ [(msg, false)], k)]> m in
  book_ok book' m' /\ awaiting book' m' = awaiting book m ++ [msg].
Proof.
  intros [Hw Hbelow Hready Hfresh Hc Hmc Hb] Hlt Hlast Hk book' m'.
  destruct (unprocessed_snoc items msg) as [Hu1 Hu2]. split.
  - split; cbn [bs_begin bs_end bs_count message_count bs_size book' with_content]; unfold m'.
    + done.
    + intros i a. rewrite lookup_insert. case_decide; [intros _; subst; lia|apply Hbelow].
    + intros i Hi. rewrite lookup_insert. case_decide; [done|by apply Hready].
    + intros i a. rewrite lookup_insert. case_decide; [|apply Hfresh].
      intros [= <-] Hi. cbn [fst snd]. subst i. pose proof (Hfresh _ _ Hlast Hi) as Hf. cbn [fst snd] in Hf.
      rewrite drop_app_le by done. apply Forall_app_2; [done|by repeat constructor].
    + by rewrite map_size_insert_Some by done.
    + rewrite (pages_sum_update _ m _ _ _ Hlast), Hmc. cbn [fst]. lia.
    + rewrite (pages_sum_update _ m _ _ _ Hlast), Hb. cbn [fst]. lia.
  - rewrite (awaiting_snoc book' m'), (awaiting_snoc book m) by done. rewrite <- app_assoc. f_equal.
    + apply awaiting_ext; try done. intros i. cbn [bs_begin bs_end with_end]. intros Hi.
      unfold m'. by rewrite lookup_insert_ne by lia.
    + cbn [bs_end book' with_content]. unfold m'. rewrite lookup_insert_eq, Hlast. cbn [rest_of fst snd].
      by rewrite drop_app_le, fmap_app.
Qed.

Lemma book_ok_new book m msg :
  book_ok book m -> bs_end book < umax 32 ->
  let book' := mkBook (bs_begin book) (bs_end book + 1) (bs_count book + 1) (ready_neighbours book)
                      (message_count book + 1) (bs_size book + zlen msg) in
  let m' := <[bs_end book := ([(msg, false)], 0%nat)]> m in
  book_ok book' m' /\ awaiting book' m' = awaiting book m ++ [msg].
Proof.
  intros [Hw Hbelow Hready Hfresh Hc Hmc Hb] Hlt book' m'.
  assert (Hnew : m !! bs_end book = None).
  { destruct (m !! bs_end book) eqn:E; [|done]. apply Hbelow in E. lia. }
  split.
  - split; cbn [bs_begin bs_end bs_count message_count bs_size book']; unfold m'.
    + lia.
    + intros i a. rewrite lookup_insert. case_decide; [intros _; lia|]. intros Ha%Hbelow. lia.
    + intros i Hi. rewrite lookup_insert. case_decide; [done|apply Hready; lia].
    + intros i a. rewrite lookup_insert. case_decide; [|apply Hfresh]. intros [= <-] _. by repeat constructor.
    + rewrite map_size_insert_None by done. lia.
    + rewrite pages_sum_fresh, Hmc by done. cbn [fst]. change (zlen (unprocessed [(msg, false)])) with 1. lia.
    + rewrite pages_sum_fresh, Hb by done. cbn [fst].
      change (total_size (unprocessed [(msg, false)])) with (zlen msg + 0). lia.
  - rewrite (awaiting_snoc book' m') by (cbn; lia). cbn [bs_end book'].
    replace (bs_end book + 1 - 1) with (bs_end book) by lia. unfold m' at 2. rewrite lookup_insert_eq. f_equal.
    apply awaiting_ext; try done. intros i. cbn [bs_begin bs_end with_end]. intros Hi.
    unfold m'. by rewrite lookup_insert_ne by lia.
Qed.
(** ** Enqueueing *)

Lemma max_message_len_bound (msg : bytes) : zlen msg <= max_message_len -> 0 <= zlen msg <= umax 32.
Proof.
  unfold max_message_len, saturating_sub, zlen. pose proof size_bits_le.
  assert (umax size_bits <= umax 32) by (unfold umax; pose proof (Z.pow_le_mono_r 2 size_bits 32); lia). lia.
Qed.

Lemma heap_size_32 : 0 <= heap_size <= umax 32.
Proof.
  pose proof size_bits_le.
  assert (umax size_bits <= umax 32) by (unfold umax; pose proof (Z.pow_le_mono_r 2 size_bits 32); lia). lia.
Qed.

(** One more message does not saturate the counters of the book. *)
Lemma counters_room s o m book msg :
  pages_repr s o m -> book_ok book m -> zlen msg <= max_message_len ->
  saturating_add 64 (message_count book) 1 = message_count book + 1 /\
  saturating_add 64 (bs_size book) (zlen msg) = bs_size book + zlen msg.
Proof.
  intros Hm Hb Hmsg. pose proof (book_counters s o m book Hm Hb) as (_ & ? & ?).
  pose proof (max_message_len_bound msg Hmsg). pose proof heap_size_32.
  pose proof (book_window _ _ Hb) as [? ?].
  assert (bs_end book * heap_size <= umax 32 * umax 32) by (apply Z.mul_le_mono_nonneg; lia).
  change (umax 32 * umax 32) with 18446744065119617025 in *. change (umax 32) with 4294967295 in *.
  unfold saturating_add. change (umax 64) with 18446744073709551615. lia.
Qed.

(** The storage with the page in progress stored. *)
Definition flushed (o : O) (st : BookState O * option Page * Storage O X) : Storage O X :=
  let '(book, maybe_page, s) := st in
  match maybe_page with Some p => put_page o (bs_end book - 1) p s | None => s end.

(** After [done] messages. *)
Record enqueueing (o : O) s0 m0 (done : list bytes) (st : BookState O * option Page * Storage O X) : Prop := {
  enq_book : BookState O := st.1.1;
  enq_repr : exists m, pages_repr (flushed o st) o m /\ book_ok enq_book m /\
    awaiting enq_book m = waiting o s0 ++ done /\ extends m0 m;
  enq_page : is_Some st.1.2 -> bs_begin enq_book < bs_end enq_book;
  enq_end : bs_end (get_book o s0) <= bs_end enq_book <= bs_end (get_book o s0) + zlen done;
  enq_begin : bs_begin enq_book = bs_begin (get_book o s0);
  enq_links : ready_neighbours enq_book = ready_neighbours (get_book o s0);
  enq_messages : message_count enq_book = message_count (get_book o s0) + zlen done;
  enq_others o' i : o' <> o -> get_page o' i st.2 = get_page o' i s0;
  enq_books : BookStateFor st.2 = BookStateFor s0 /\ ServiceHead st.2 = ServiceHead s0 /\
    Events st.2 = Events s0 /\ Rest st.2 = Rest s0;
}.

(** The books, and what is not of the pallet, is the same. *)
Lemma enqueueing_new o s0 m0 dn book s m msg :
  pages_repr s o m -> book_ok book m -> awaiting book m = waiting o s0 ++ dn -> extends m0 m ->
  bs_end (get_book o s0) <= bs_end book <= bs_end (get_book o s0) + zlen dn -> bs_begin book = bs_begin (get_book o s0) ->
  ready_neighbours book = ready_neighbours (get_book o s0) ->
  message_count book = message_count (get_book o s0) + zlen dn ->
  (forall o' i, o' <> o -> get_page o' i s = get_page o' i s0) ->
  (BookStateFor s = BookStateFor s0 /\ ServiceHead s = ServiceHead s0 /\ Events s = Events s0 /\ Rest s = Rest s0) ->
  zlen msg <= max_message_len -> bs_end (get_book o s0) + zlen dn < umax 32 ->
  enqueueing o s0 m0 (dn ++ [msg]) (enqueue_one o msg (book, None, s)).
Proof.
  intros Hm Hb Ha Hext Hend Hbegin Hlinks Hmsgs Hothers Hbooks Hmsg Hroom.
  assert (Hlen : zlen (dn ++ [msg]) = zlen dn + 1) by (unfold zlen; rewrite length_app; cbn; lia).
  destruct (counters_room _ _ _ _ _ Hm Hb Hmsg) as [Hc1 Hc2].
  pose proof (book_ok_new book m msg Hb ltac:(lia)) as [Hnew Hanew].
  pose proof (from_message_repr heap_size_fits heap_size_header msg Hmsg) as Hfrom.
  pose proof (book_counters s o m book Hm Hb) as (Hcount & _). pose proof (book_window _ _ Hb).
  assert (E : enqueue_one o msg (book, None, s) =
    (mkBook (bs_begin book) (bs_end book + 1) (bs_count book + 1) (ready_neighbours book)
            (message_count book + 1) (bs_size book + zlen msg), Some (from_message msg), s)).
  { unfold enqueue_one, with_content. cbn [bs_begin bs_end bs_count ready_neighbours message_count bs_size].
    rewrite Hc1, Hc2. unfold saturating_add. rewrite !Z.min_r by lia. done. }
  rewrite E. split; cbn [fst snd bs_begin bs_end bs_count ready_neighbours message_count bs_size]; try (done || lia).
  eexists. split; [|split; [exact Hnew|split]].
  - cbn [flushed bs_end]. replace (bs_end book + 1 - 1) with (bs_end book) by lia. by apply pages_repr_put.
  - by rewrite Hanew, Ha, app_assoc.
  - intros i items k Hi. destruct (Hext i items k Hi) as [more Hmore]. exists more.
    rewrite lookup_insert_ne; [done|]. intros <-. pose proof (book_below _ _ Hb _ _ Hmore). lia.
Qed.

Lemma enqueue_one_spec o s0 m0 dn st msg :
  enqueueing o s0 m0 dn st -> zlen msg <= max_message_len ->
  bs_end (get_book o s0) + zlen dn < umax 32 ->
  enqueueing o s0 m0 (dn ++ [msg]) (enqueue_one o msg st).
Proof.
  destruct st as [[book mp] s]. intros [eb (m & Hm & Hb & Ha & Hext) Hpage Hend Hbegin Hlinks Hmsgs Hothers Hbooks] Hmsg Hroom.
  cbn [fst snd] in *. subst eb. cbn [flushed] in Hm.
  destruct mp as [page|]; [|by apply (enqueueing_new o s0 m0 dn book s m)].
  destruct (try_append_message msg page) as [page'|] eqn:Happ.
  - assert (Hlen : zlen (dn ++ [msg]) = zlen dn + 1) by (unfold zlen; rewrite length_app; cbn; lia).
    destruct (counters_room _ _ _ _ _ Hm Hb Hmsg) as [Hc1 Hc2]. specialize (Hpage ltac:(eauto)).
    destruct (pages_repr_lookup _ _ _ (bs_end book - 1) page Hm) as ([items k] & Hlast & Hp).
    { by rewrite get_put_page, decide_True. }
    cbn [fst snd] in Hp. pose proof (repr_cursor _ _ _ Hp) as Hk.
    pose proof (max_message_len_bound msg Hmsg).
    pose proof (try_append_repr heap_size_fits heap_size_header msg page items k Hp) as Hrepr. rewrite Happ in Hrepr.
    pose proof (book_ok_append book m items k msg Hb Hpage Hlast Hk) as [Hb' Ha'].
    unfold enqueue_one. rewrite Happ, Hc1, Hc2.
    split; cbn [fst snd bs_begin bs_end ready_neighbours message_count with_content]; try (done || lia).
    eexists. split; [|split; [exact Hb'|split]].
    + cbn [flushed bs_end with_content]. rewrite <- (put_put_page o (bs_end book - 1) page).
      apply pages_repr_put; [done|]. cbn [fst snd]. apply Hrepr.
      change (umax 32) with 4294967295 in *. unfold umax. lia.
    + by rewrite Ha', Ha, app_assoc.
    + intros i its j Hi. destruct (Hext i its j Hi) as [more Hmore]. rewrite lookup_insert. case_decide as Ei.
      * subst i. rewrite Hlast in Hmore. injection Hmore as -> ->. exists (more ++ [(msg, false)]). by rewrite app_assoc.
      * by exists more.
  - pose proof (enqueueing_new o s0 m0 dn book (put_page o (bs_end book - 1) page s) m msg) as Hnew.
    unfold enqueue_one in *. rewrite Happ. apply Hnew; try done.
    intros o' i Ho. rewrite get_put_page_ne by done. by apply Hothers.
Qed.
Lemma enqueue_all o s0 m0 ms : forall dn st,
  enqueueing o s0 m0 dn st -> Forall (fun msg => zlen msg <= max_message_len) ms ->
  bs_end (get_book o s0) + zlen dn + zlen ms <= umax 32 ->
  enqueueing o s0 m0 (dn ++ ms) (foldl (fun st msg => enqueue_one o msg st) st ms).
Proof.
  induction ms as [|msg ms IH]; intros dn st He Hms Hroom; cbn [foldl].
  - by rewrite app_nil_r.
  - apply Forall_cons in Hms as [Hmsg Hms]. replace (dn ++ msg :: ms) with ((dn ++ [msg]) ++ ms) by (by rewrite <- app_assoc).
    unfold zlen in *. cbn [length] in Hroom. apply IH; [|done|].
    + apply enqueue_one_spec; [done..|]. unfold zlen. lia.
    + unfold zlen. rewrite length_app. cbn [length]. lia.
Qed.

Lemma enqueueing_start o s m :
  pages_repr s o m -> book_ok (get_book o s) m ->
  enqueueing o s m [] (get_book o s, (if bs_begin (get_book o s) <? bs_end (get_book o s)
                                      then get_page o (bs_end (get_book o s) - 1) s else None), s).
Proof.
  intros Hm Hb. split; cbn [fst snd]; try (done || (unfold zlen; cbn; lia)).
  - exists m. split; [|split; [done|split]].
    + unfold flushed. destruct (_ <? _); [|done]. destruct (get_page o _ s) as [p|] eqn:E; [|done].
      apply (pages_repr_ext s); [|done]. intros i. rewrite get_put_page. by case_decide; [subst|].
    + rewrite app_nil_r. symmetry. by apply waiting_repr.
    + intros i items k Hi. exists []. by rewrite app_nil_r.
  - intros Hs. destruct (Z.ltb_spec (bs_begin (get_book o s)) (bs_end (get_book o s))); [done|by destruct Hs].
Qed.

Record enqueued (o : O) (ms : list bytes) s s' : Prop := {
  enqd_waiting : waiting o s' = waiting o s ++ ms;
  enqd_count : message_count (get_book o s') = message_count (get_book o s) + zlen ms;
  enqd_begin : bs_begin (get_book o s') = bs_begin (get_book o s);
  enqd_end : bs_end (get_book o s) <= bs_end (get_book o s') <= bs_end (get_book o s) + zlen ms;
  enqd_others o' : o' <> o -> get_book o' s' = with_neighbours (neighbours_of s' o') (get_book o' s) /\
    forall i, get_page o' i s' = get_page o' i s;
  enqd_extends m : pages_repr s o m -> exists m', pages_repr s' o m' /\ extends m m' /\ book_ok (get_book o s') m';
  enqd_rest : Events s' = Events s /\ Rest s' = Rest s;
}.

(** The storage after the links of other books changed and the book of [o] was
    written. *)
Lemma enqueued_close s l o ms book m m0 s3 l' :
  mq_inv s l -> pages_repr s o m0 ->
  pages_repr s3 o m -> book_ok book m -> awaiting book m = waiting o s ++ ms -> extends m0 m ->
  bs_end (get_book o s) <= bs_end book <= bs_end (get_book o s) + zlen ms ->
  bs_begin book = bs_begin (get_book o s) -> message_count book = message_count (get_book o s) + zlen ms ->
  (forall o' i, o' <> o -> get_page o' i s3 = get_page o' i s) ->
  (forall o', o' <> o -> get_book o' s3 = with_neighbours (neighbours_of s3 o') (get_book o' s)) ->
  Events s3 = Events s -> Rest s3 = Rest s ->
  queue_ring (put_book o book s3) l' -> o ∈ l' -> l ⊆ l' ->
  enqueued o ms s (put_book o book s3) /\ mq_inv (put_book o book s3) l'.
Proof.
  intros [Hring Hlisted Hqueue] Hm0 Hm Hb Ha Hext Hend Hbegin Hmsgs Hpages Hbooks Hev Hrest Hring' Ho Hl.
  assert (Hself : get_book o (put_book o book s3) = book) by (by rewrite get_put_book, decide_True).
  assert (Hother : forall o', o' <> o -> get_book o' (put_book o book s3) =
    with_neighbours (neighbours_of (put_book o book s3) o') (get_book o' s)).
  { intros o' Ho'. rewrite get_put_book, decide_False, neighbours_put, decide_False by done. by apply Hbooks. }
  split.
  - split; rewrite ?Hself; try done.
    + rewrite (waiting_repr (put_book o book s3) o m) by done. by rewrite Hself.
    + intros o' Ho'. split; [by apply Hother|]. intros i. by apply Hpages.
    + intros m1 Hm1. rewrite (pages_repr_inj s o m1 m0) by done. by exists m.
  - split; [done|..].
    + intros o'. destruct (decide (o' = o)) as [->|Ho']; [done|]. rewrite (Hother o' Ho'). cbn.
      intros Hlt%Hlisted. by apply Hl.
    + intros o'. destruct (decide (o' = o)) as [->|Ho']; [rewrite Hself; by exists m|].
      destruct (Hqueue o') as (m' & Hm' & Hb'). exists m'. split.
      * apply (pages_repr_ext s); [|done]. intros i. by apply Hpages.
      * rewrite (Hother o' Ho'). by destruct Hb'.
Qed.

(** What [do_enqueue_messages] does: the messages go to the end of the queue, the
    queue goes to the end of the ring unless it is there. *)
Lemma do_enqueue_messages_spec s l o ms :
  mq_inv s l -> Forall (fun msg => zlen msg <= max_message_len) ms ->
  bs_end (get_book o s) + zlen ms <= umax 32 ->
  enqueued o ms s (do_enqueue_messages o ms s) /\
  mq_inv (do_enqueue_messages o ms s) (if decide (o ∈ l) then l else l ++ [o]).
Proof.
  intros [Hring Hlisted Hqueue] Hms Hroom. destruct (Hqueue o) as (m0 & Hm0 & Hb0).
  pose proof (enqueue_all o s m0 ms [] _ (enqueueing_start o s m0 Hm0 Hb0) Hms) as He.
  cbn [app] in He. unfold zlen at 1 in He. cbn [length] in He. specialize (He ltac:(lia)).
  unfold do_enqueue_messages. cbv zeta. destruct (foldl _ _ ms) as [[book mp] s1].
  destruct He as [eb (m & Hm & Hb & Ha & Hext) _ Hend Hbegin Hlinks Hmsgs Hothers (Hbooks & Hhead & Hev & Hrest)].
  cbn [fst snd] in *. subst eb. change (match mp with Some page => put_page o (bs_end book - 1) page s1 | None => s1 end) with (flushed o (book, mp, s1)).
  set (s2 := flushed o (book, mp, s1)) in *.
  assert (Hs2 : BookStateFor s2 = BookStateFor s /\ ServiceHead s2 = ServiceHead s /\ Events s2 = Events s /\ Rest s2 = Rest s)
    by (unfold s2, flushed; destruct mp; done).
  destruct Hs2 as (Hbooks2 & Hhead2 & Hev2 & Hrest2).
  assert (Hget : forall z, get_book z s2 = get_book z s) by (intros z; unfold get_book; by rewrite Hbooks2).
  assert (Hpages2 : forall o' i, o' <> o -> get_page o' i s2 = get_page o' i s).
  { intros o' i Ho. rewrite <- Hothers by done. unfold s2, flushed. destruct mp; [by apply get_put_page_ne|done]. }
  assert (Hring2 : queue_ring s2 l).
  { unfold queue_ring. rewrite Hhead2. apply (ring_ext _ (neighbours_of s)); [|done]. intros z. unfold neighbours_of. by rewrite Hget. }
  case_decide as Ho.
  - pose proof Ho as (a & b & ->)%list_elem_of_split.
    pose proof (ring_links _ _ _ Hring a o b eq_refl) as Hn. unfold neighbours_of in Hn. rewrite Hlinks, Hn.
    apply (enqueued_close s (a ++ o :: b) o ms book m m0 s2); try done.
    + intros z Hz. unfold neighbours_of. by rewrite Hget, with_neighbours_id.
    + unfold queue_ring in *. cbn [ServiceHead put_book set_books]. apply (ring_ext _ (neighbours_of s2)); [|done].
      intros z. rewrite neighbours_put. case_decide; [subst z|done]. unfold neighbours_of. by rewrite Hget, Hlinks.
  - pose proof (ring_out _ _ _ Hring o Ho) as Hn. unfold neighbours_of in Hn. rewrite Hlinks, Hn.
    destruct (ready_ring_knit_spec s2 l o Hring2 Ho) as (s3 & n & -> & [Hp3 He3 Hr3 Hb3] & Hknit).
    apply (enqueued_close s l o ms (with_neighbours (Some n) book) m m0 s3); try done.
    + apply (pages_repr_ext s2); [|done]. intros i. unfold get_page. by rewrite Hp3.
    + by destruct Hb.
    + intros o' i Ho'. unfold get_page in *. rewrite Hp3. by apply Hpages2.
    + intros z Hz. by rewrite Hb3, Hget.
    + by rewrite He3.
    + by rewrite Hr3.
    + set_solver.
    + set_solver.
Qed.
(** ** Storages with the same queues *)

Record agrees s s' : Prop := {
  agrees_book o : get_book o s' = get_book o s;
  agrees_head : ServiceHead s' = ServiceHead s;
  agrees_page o i : get_page o i s' = get_page o i s;
}.

Lemma agrees_refl s : agrees s s.
Proof. done. Qed.

Lemma agrees_sym s s' : agrees s s' -> agrees s' s.
Proof. intros [Hb Hh Hp]. split; intros; symmetry; auto. Qed.

Lemma agrees_trans s s' s'' : agrees s s' -> agrees s' s'' -> agrees s s''.
Proof. intros [Hb Hh Hp] [Hb' Hh' Hp']. split; intros; etransitivity; eauto. Qed.

Lemma agrees_waiting s s' o : agrees s s' -> waiting o s' = waiting o s.
Proof.
  intros [Hb Hh Hp]. unfold waiting. rewrite Hb. apply list_bind_ext; [|done]. intros i. by rewrite Hp.
Qed.

Lemma agrees_pages s s' o m : agrees s s' -> pages_repr s o m -> pages_repr s' o m.
Proof. intros [Hb Hh Hp]. apply pages_repr_ext. auto. Qed.

Lemma agrees_ring s s' l : agrees s s' -> queue_ring s l -> queue_ring s' l.
Proof.
  intros [Hb Hh Hp] Hr. unfold queue_ring. rewrite Hh. apply (ring_ext _ (neighbours_of s)); [|done].
  intros o. unfold neighbours_of. by rewrite Hb.
Qed.

Lemma agrees_inv s s' l : agrees s s' -> mq_inv s l -> mq_inv s' l.
Proof.
  intros Ha [Hring Hlisted Hqueue]. split.
  - by apply (agrees_ring s).
  - intros o. rewrite (agrees_book _ _ Ha). apply Hlisted.
  - intros o. destruct (Hqueue o) as (m & Hm & Hb). exists m. rewrite (agrees_book _ _ Ha).
    split; [by apply (agrees_pages s)|done].
Qed.

(** The pallet before its first call. *)
Lemma mq_ok_start (events : list (Event O)) (rest : X) : mq_inv (mkStorage ∅ None ∅ events rest) [].
Proof.
  assert (Hget : forall o, get_book o (mkStorage ∅ None ∅ events rest) = default_book)
    by (intros o; unfold get_book; cbn [BookStateFor]; by rewrite lookup_empty).
  split.
  - split; [constructor|done|by intros [] ? ?|]. intros o _. unfold neighbours_of. by rewrite Hget.
  - intros o. rewrite Hget. cbn. lia.
  - intros o. exists ∅. rewrite Hget. split; [intros i; unfold get_page; cbn; rewrite !lookup_empty; constructor|].
    split; cbn; try (by intros ? ?; rewrite lookup_empty); try done; lia.
Qed.

(** ** What a processor may do to the queues

    It may enqueue messages, as often as there are page numbers left; the other
    calls are guarded by the mutex. *)
Definition bounded (ms : list bytes) : Prop := Forall (fun msg => zlen msg <= max_message_len) ms.

Inductive grows : Storage O X -> Storage O X -> Prop :=
| grows_agrees s s' : agrees s s' -> grows s s'
| grows_enqueue s o ms s' s'' :
    bounded ms -> bs_end (get_book o s) + zlen ms <= umax 32 ->
    agrees (do_enqueue_messages o ms s) s' -> grows s' s'' -> grows s s''.

Lemma grows_then s s' s'' : grows s s' -> agrees s' s'' -> grows s s''.
Proof.
  induction 1 as [s s' Ha|s o ms s1 s' Hms Hroom Ha Hg IH]; intros Ha'.
  - apply grows_agrees. by eapply agrees_trans.
  - eapply grows_enqueue; eauto.
Qed.

(** The queue of [o] after growth. *)
Record grown (o : O) s s' : Prop := {
  grown_waiting : exists more, waiting o s' = waiting o s ++ more /\
    message_count (get_book o s') = message_count (get_book o s) + zlen more;
  grown_begin : bs_begin (get_book o s') = bs_begin (get_book o s);
  grown_end : bs_end (get_book o s) <= bs_end (get_book o s');
  grown_pages m : pages_repr s o m -> exists m', pages_repr s' o m' /\ extends m m' /\ book_ok (get_book o s') m';
}.

Lemma extends_refl m : extends m m.
Proof. intros i items k Hi. exists []. by rewrite app_nil_r. Qed.

Lemma extends_trans m m' m'' : extends m m' -> extends m' m'' -> extends m m''.
Proof.
  intros H1 H2 i items k Hi. destruct (H1 i items k Hi) as [more1 Hi1]. destruct (H2 _ _ _ Hi1) as [more2 Hi2].
  exists (more1 ++ more2). by rewrite app_assoc.
Qed.

Lemma grown_agrees s s' l o : mq_inv s l -> agrees s s' -> grown o s s'.
Proof.
  intros Hinv Ha. pose proof (agrees_book _ _ Ha o) as Hb. split; rewrite ?Hb; try done.
  - exists []. rewrite (agrees_waiting s s' o Ha), app_nil_r. unfold zlen. cbn. split; [done|lia].
  - intros m Hm. destruct (mq_queue _ _ Hinv o) as (m' & Hm' & Hbook). rewrite (pages_repr_inj s o m m') by done.
    exists m'. split; [by apply (agrees_pages s)|]. split; [apply extends_refl|done].
Qed.

Lemma grown_trans s s' s'' o : grown o s s' -> grown o s' s'' -> grown o s s''.
Proof.
  intros [(w1 & Hw1 & Hc1) Hb1 He1 Hp1] [(w2 & Hw2 & Hc2) Hb2 He2 Hp2]. split.
  - exists (w1 ++ w2). rewrite Hw2, Hw1, app_assoc, Hc2, Hc1. unfold zlen. rewrite length_app. split; [done|lia].
  - congruence.
  - lia.
  - intros m Hm. destruct (Hp1 m Hm) as (m1 & Hm1 & Hx1 & _). destruct (Hp2 m1 Hm1) as (m2 & Hm2 & Hx2 & Hb).
    exists m2. split; [done|]. split; [by eapply extends_trans|done].
Qed.

Lemma grown_enqueue s l o ms z :
  mq_inv s l -> bounded ms -> bs_end (get_book o s) + zlen ms <= umax 32 -> grown z s (do_enqueue_messages o ms s).
Proof.
  intros Hinv Hms Hroom. destruct (do_enqueue_messages_spec s l o ms Hinv Hms Hroom) as [He Hinv'].
  destruct (decide (z = o)) as [->|Hz].
  - split.
    + exists ms. split; apply He.
    + apply He.
    + apply (enqd_end _ _ _ _ He).
    + apply He.
  - destruct (enqd_others _ _ _ _ He z Hz) as [Hb Hp].
    split; try (by rewrite Hb).
    + exists []. rewrite app_nil_r. split.
      * unfold waiting. rewrite Hb. apply list_bind_ext; [|done]. intros i. by rewrite Hp.
      * rewrite Hb. unfold zlen. cbn. lia.
    + intros m Hm. destruct (mq_queue _ _ Hinv' z) as (m' & Hm' & Hbook).
      assert (Hm2 : pages_repr (do_enqueue_messages o ms s) z m) by (by apply (pages_repr_ext s)).
      rewrite (pages_repr_inj _ z m' m Hm' Hm2) in Hbook.
      exists m. split; [done|]. split; [apply extends_refl|done].
Qed.

Lemma grows_spec s s' :
  grows s s' -> forall l, mq_inv s l -> exists l', mq_inv s' (l ++ l') /\ forall o, grown o s s'.
Proof.
  induction 1 as [s s' Ha|s o ms s' s'' Hms Hroom Ha _ IH]; intros l Hinv.
  - exists []. rewrite app_nil_r. split; [by apply (agrees_inv s)|]. intros o. by apply (grown_agrees s s' l).
  - destruct (do_enqueue_messages_spec s l o ms Hinv Hms Hroom) as [_ Hinv'].
    pose proof (agrees_inv _ _ _ Ha Hinv') as Hinv2. destruct (IH _ Hinv2) as (l' & Hinv3 & Hgrown).
    assert (Hz : forall z, grown z s s'').
    { intros z. apply (grown_trans s s'); [|done]. apply (grown_trans s (do_enqueue_messages o ms s)).
      - by apply (grown_enqueue s l).
      - by eapply grown_agrees. }
    destruct (decide (o ∈ l)); [by exists l'|]. exists ([o] ++ l'). by rewrite app_assoc.
Qed.
(** ** Messages and pages that go *)

Lemma total_size_nonneg items : 0 <= total_size items.
Proof. apply items_fit. Qed.

(** What a page contributes to the counters. *)
Lemma counters_lookup book m i a :
  book_ok book m -> m !! i = Some a ->
  zlen (unprocessed a.1) <= message_count book /\ total_size (unprocessed a.1) <= bs_size book /\ 1 <= bs_count book.
Proof.
  intros Hb Hi. rewrite (book_messages _ _ Hb), (book_bytes _ _ Hb), (book_count _ _ Hb).
  split; [apply (pages_sum_lookup (fun items => zlen (unprocessed items)) m i a); [intros; apply zlen_nonneg|done]|].
  split; [apply (pages_sum_lookup (fun items => total_size (unprocessed items)) m i a); [intros; apply total_size_nonneg|done]|].
  assert (size m <> 0)%nat; [|lia]. intros Hz%map_size_empty_inv. subst. set_solver.
Qed.

(** A page behind the ready ones, or a used up first page, is removed. *)
Lemma book_ok_delete book m i a :
  book_ok book m -> m !! i = Some a -> i <= bs_begin book -> (i = bs_begin book -> drop a.2 a.1 = []) ->
  let book' := with_content (message_count book - zlen (unprocessed a.1))
                 (bs_size book - total_size (unprocessed a.1)) (with_count (bs_count book - 1) book) in
  book_ok book' (delete i m) /\ awaiting book' (delete i m) = awaiting book m.
Proof.
  intros Hok Hi Hle Hnil book'. pose proof Hok as [Hw Hbelow Hready Hfresh Hc Hmc Hb].
  split; [split|]; cbn [bs_begin bs_end bs_count message_count bs_size book' with_content with_count].
  - done.
  - intros j b [_ Hj]%lookup_delete_Some. by apply (Hbelow j b).
  - intros j Hj. rewrite lookup_delete_ne by lia. by apply Hready.
  - intros j b [_ Hj]%lookup_delete_Some. by apply Hfresh.
  - rewrite map_size_delete_Some by done. pose proof (counters_lookup book m i a Hok Hi). lia.
  - rewrite Hmc, (pages_sum_delete _ m i a Hi). lia.
  - rewrite Hb, (pages_sum_delete _ m i a Hi). lia.
  - apply awaiting_ext; try done. intros j Hj. destruct (decide (j = i)) as [->|Hji]; [|by rewrite lookup_delete_ne by done].
    rewrite lookup_delete_eq, Hi. cbn [rest_of]. by rewrite Hnil by lia.
Qed.

(** A message behind the cursor is marked. *)
Lemma book_ok_mark book m i items k j msg :
  book_ok book m -> m !! i = Some (items, k) -> items !! j = Some (msg, false) ->
  i < bs_begin book \/ (i = bs_begin book /\ (j < k)%nat) ->
  let book' := with_content (message_count book - 1) (bs_size book - zlen msg) book in
  let m' := <[i := (mark j items, k)]> m in
  book_ok book' m' /\ awaiting book' m' = awaiting book m.
Proof.
  intros Hok Hi Hj Hpos book' m'. pose proof Hok as [Hw Hbelow Hready Hfresh Hc Hmc Hb].
  destruct (unprocessed_mark items j (msg, false) Hj) as [Hu1 Hu2]. cbn [fst snd] in Hu1, Hu2.
  assert (Hdrop : bs_begin book <= i -> drop k (mark j items) = drop k items).
  { intros ?. apply drop_mark_lt. destruct Hpos as [|[]]; lia. }
  split; [split|]; cbn [bs_begin bs_end bs_count message_count bs_size book' with_content]; unfold m'.
  - done.
  - intros z b. rewrite lookup_insert. case_decide; [intros _; subst; by eapply Hbelow|apply Hbelow].
  - intros z Hz. rewrite lookup_insert. case_decide; [done|by apply Hready].
  - intros z b. rewrite lookup_insert. case_decide; [|apply Hfresh].
    intros [= <-] Hle. cbn [fst snd]. subst z. rewrite Hdrop by done. apply (Hfresh _ _ Hi Hle).
  - by rewrite map_size_insert_Some by done.
  - rewrite (pages_sum_update _ m _ _ _ Hi), Hmc. cbn [fst]. lia.
  - rewrite (pages_sum_update _ m _ _ _ Hi), Hb. cbn [fst]. lia.
  - apply awaiting_ext; try done. intros z Hz. rewrite lookup_insert. case_decide; [subst z|done].
    rewrite Hi. cbn [rest_of fst snd]. by rewrite Hdrop by lia.
Qed.

(** The message at the cursor of the first ready page is taken. *)
Lemma awaiting_cons book m :
  bs_begin book < bs_end book ->
  awaiting book m = rest_of (m !! bs_begin book) ++ awaiting (with_begin (bs_begin book + 1) book) m.
Proof.
  intros Hlt. unfold awaiting. cbn [bs_begin bs_end with_begin].
  replace (bs_end book - bs_begin book) with (1 + (bs_end book - (bs_begin book + 1))) by lia.
  rewrite seqZ_app, bind_app by lia. f_equal.
  change (seqZ (bs_begin book) 1) with [bs_begin book]. cbn [mbind list_bind]. apply app_nil_r.
Qed.

Lemma book_ok_advance book m items k msg (b : bool) :
  book_ok book m -> bs_begin book < bs_end book ->
  m !! bs_begin book = Some (items, k) -> items !! k = Some (msg, false) ->
  let book' := if b then with_content (message_count book - 1) (bs_size book - zlen msg) book else book in
  let m' := <[bs_begin book := (if b then mark k items else items, S k)]> m in
  book_ok book' m' /\ awaiting book m = msg :: awaiting book' m'.
Proof.
  intros Hok Hlt Hi Hj book' m'. pose proof Hok as [Hw Hbelow Hready Hfresh Hc Hmc Hb].
  destruct (unprocessed_mark items k (msg, false) Hj) as [Hu1 Hu2]. cbn [fst snd] in Hu1, Hu2.
  assert (Hdrop : drop (S k) (if b then mark k items else items) = drop (S k) items).
  { destruct b; [|done]. apply drop_mark_lt. lia. }
  assert (Hbook : bs_begin book' = bs_begin book /\ bs_end book' = bs_end book /\ bs_count book' = bs_count book)
    by (unfold book'; by destruct b).
  destruct Hbook as (Eb & Ee & Ec). split; [split|]; rewrite ?Eb, ?Ee, ?Ec; unfold m'.
  - done.
  - intros z a. rewrite lookup_insert. case_decide; [intros _; subst; by eapply Hbelow|apply Hbelow].
  - intros z Hz. rewrite lookup_insert. case_decide; [done|by apply Hready].
  - intros z a. rewrite lookup_insert. case_decide; [|apply Hfresh].
    intros [= <-] Hle. cbn [fst snd]. rewrite Hdrop. pose proof (Hfresh _ _ Hi ltac:(lia)) as Hf. cbn [fst snd] in Hf.
    rewrite (drop_S items _ k Hj) in Hf. by apply Forall_cons in Hf as [_ Hf].
  - by rewrite map_size_insert_Some by done.
  - rewrite (pages_sum_update _ m _ _ _ Hi). unfold book'. destruct b; cbn [fst message_count with_content]; lia.
  - rewrite (pages_sum_update _ m _ _ _ Hi). unfold book'. destruct b; cbn [fst bs_size with_content]; lia.
  - rewrite (awaiting_cons book m), (awaiting_cons book' (<[_ := _]> m)) by (rewrite ?Eb, ?Ee; done).
    rewrite Eb, Hi, lookup_insert_eq. cbn [rest_of fst snd]. rewrite Hdrop, (drop_S items _ k Hj). cbn. do 2 f_equal.
    symmetry. apply awaiting_ext; unfold with_begin; cbn [bs_begin bs_end]; [done|done|].
    intros z Hz. by rewrite lookup_insert_ne by lia.
Qed.
End inv.
