(* ===== verification/MqService.v ===== *)
(** * Servicing the message queue

    The operations of [substrate/frame/message-queue/src/lib.rs] that take
    messages away, on the invariant of [MqInv.v]: sweeping, reaping, executing an
    overweight message, and servicing by weight, for processors that may enqueue
    messages while they run. *)

From stdpp Require Import base option numbers list gmap.
From Stdlib Require Import ZArith Lia.
From S2P Require Import Prelude Codec Weights MqPage MessageQueue MqRing MqInv.
Local Open Scope Z_scope.

Section ops.
Context {O X : Type} `{Countable O} `{HC : HeaderCodec, HL : !HeaderLaws HC, HS : HeapSize} `{!Config O X}.
Implicit Types (s : Storage O X) (book : BookState O) (l : list O) (m : gmap Z apage) (msg : bytes).

Hypothesis heap_size_fits : heap_size <= umax size_bits.
Hypothesis heap_size_header : Z.of_nat header_len <= heap_size.

(** ** One queue changes *)

Lemma inv_update s l o s' m' :
  mq_inv s l ->
  (forall o' i, o' <> o -> get_page o' i s' = get_page o' i s) ->
  (forall o', o' <> o -> get_book o' s' = get_book o' s) ->
  pages_repr s' o m' -> book_ok (get_book o s') m' ->
  neighbours_of s' o = neighbours_of s o -> ServiceHead s' = ServiceHead s ->
  (bs_begin (get_book o s') < bs_end (get_book o s') -> bs_begin (get_book o s) < bs_end (get_book o s)) ->
  mq_inv s' l.
Proof.
  intros [Hring Hlisted Hqueue] Hp Hb Hm' Hok Hn Hh Hready. split.
  - unfold queue_ring. rewrite Hh. apply (ring_ext _ (neighbours_of s)); [|done].
    intros z. destruct (decide (z = o)) as [->|Hz]; [done|]. unfold neighbours_of. by rewrite Hb.
  - intros z. destruct (decide (z = o)) as [->|Hz]; [auto|]. rewrite Hb by done. apply Hlisted.
  - intros z. destruct (decide (z = o)) as [->|Hz]; [by exists m'|].
    destruct (Hqueue z) as (m & Hm & Hbook). exists m. rewrite Hb by done.
    split; [apply (pages_repr_ext s); auto|done].
Qed.

Lemma waiting_other s s' o :
  (forall i, get_page o i s' = get_page o i s) -> get_book o s' = get_book o s -> waiting o s' = waiting o s.
Proof. intros Hp Hb. unfold waiting. rewrite Hb. apply list_bind_ext; [|done]. intros i. by rewrite Hp. Qed.

Lemma inv_update_waiting s l o s' m m' :
  mq_inv s l -> pages_repr s o m ->
  (forall o' i, o' <> o -> get_page o' i s' = get_page o' i s) ->
  (forall o', o' <> o -> get_book o' s' = get_book o' s) ->
  pages_repr s' o m' -> book_ok (get_book o s') m' ->
  neighbours_of s' o = neighbours_of s o -> ServiceHead s' = ServiceHead s ->
  bs_begin (get_book o s') = bs_begin (get_book o s) -> bs_end (get_book o s') = bs_end (get_book o s) ->
  awaiting (get_book o s') m' = awaiting (get_book o s) m ->
  mq_inv s' l /\ forall z, waiting z s' = waiting z s.
Proof.
  intros Hinv Hm Hp Hb Hm' Hok Hn Hh Ebegin Eend Haw. split.
  - apply (inv_update s l o s' m'); try done. by rewrite Ebegin, Eend.
  - intros z. destruct (decide (z = o)) as [->|Hz]; [|apply waiting_other; auto].
    by rewrite (waiting_repr heap_size_fits s' o m'), (waiting_repr heap_size_fits s o m), Haw.
Qed.

Lemma agrees_inv_waiting s s' s0 l :
  agrees s s' -> mq_inv s l /\ (forall z, waiting z s = waiting z s0) ->
  mq_inv s' l /\ (forall z, waiting z s' = waiting z s0).
Proof.
  intros Ha [Hinv Hw]. split; [by apply (agrees_inv s)|]. intros z. by rewrite (agrees_waiting s s').
Qed.

Class QuietHandler : Prop := on_queue_changed_agrees o fp s : agrees s (on_queue_changed o fp s).
Context `{!QuietHandler}.

(** ** Reaping *)

Lemma agrees_deposit e s : agrees s (deposit_event e s).
Proof. done. Qed.

Lemma do_reap_page_inner_spec s l o i r s' :
  mq_inv s l -> do_reap_page_inner o i s = (r, s') ->
  mq_inv s' l /\ (forall z, waiting z s' = waiting z s) /\
  (r = Ok tt -> bs_count (get_book o s') = bs_count (get_book o s) - 1 /\ get_page o i s' = None).
Proof.
  intros Hinv. unfold do_reap_page_inner. cbv zeta.
  destruct (Z.ltb_spec i (bs_begin (get_book o s))) as [Hlt|]; cbn [negb]; [|by intros [= <- <-]].
  destruct (get_page o i s) as [page|] eqn:Hpage; [|by intros [= <- <-]].
  destruct (if remaining page =? 0 then _ else _) as [[]|]; [|by intros [= <- <-]..].
  intros [= <- <-]. destruct (mq_queue _ _ Hinv o) as (m & Hm & Hb).
  destruct (pages_repr_lookup _ _ _ _ _ Hm Hpage) as ([items k] & Hi & Hp). cbn [fst snd] in Hp.
  pose proof (counters_lookup _ _ _ _ Hb Hi) as (Hc1 & Hc2 & Hc3). cbn [fst] in Hc1, Hc2.
  pose proof (book_ok_delete _ _ _ _ Hb Hi ltac:(lia) ltac:(lia)) as [Hok Haw]. cbn [fst] in Hok, Haw.
  rewrite (repr_remaining _ _ _ Hp), (repr_size _ _ _ Hp).
  cbn [message_count bs_size with_count]. set (book' := with_content _ _ _) in Hok, Haw.
  assert (E : with_content (saturating_sub (message_count (get_book o s)) (zlen (unprocessed items)))
    (saturating_sub (bs_size (get_book o s)) (total_size (unprocessed items)))
    (with_count (saturating_sub (bs_count (get_book o s)) 1) (get_book o s)) = book').
  { unfold book', saturating_sub. by rewrite !Z.max_r by lia. }
  rewrite E. set (s1 := put_book o book' (remove_page o i s)).
  match goal with |- mq_inv ?s _ /\ _ => set (s2 := s) end.
  assert (Ha : agrees s1 s2) by (eapply agrees_trans; [apply on_queue_changed_agrees|apply agrees_deposit]).
  cut (mq_inv s2 l /\ forall z, waiting z s2 = waiting z s).
  { intros [Hi2 Hw2]. split_and!; [done|done|]. intros _. rewrite (agrees_book _ _ Ha), (agrees_page _ _ Ha). unfold s1. rewrite get_put_book, decide_True by done.
       split; [done|]. change (get_page o i (remove_page o i s) = None). by rewrite get_remove_page, decide_True. }
  apply (agrees_inv_waiting s1); [done|].
  assert (Hself : get_book o s1 = book') by (unfold s1; by rewrite get_put_book, decide_True).
  apply (inv_update_waiting s l o s1 m (delete i m)); rewrite ?Hself; try done.
  - intros z j Hz. by apply get_remove_page_ne.
  - intros z Hz. unfold s1. by rewrite get_put_book, decide_False.
  - by apply (pages_repr_remove s).
  - unfold s1. by rewrite neighbours_put, decide_True.
Qed.

(** ** Taking a queue out of the ring *)

Lemma book_ok_neighbours book m n : book_ok book m -> book_ok (with_neighbours n book) m.
Proof. intros [Hw Hbelow Hready Hfresh Hc Hmc Hb]. by split. Qed.

Lemma book_ok_with_begin book m e :
  book_ok book m -> bs_begin book <= e <= bs_end book -> book_ok (with_begin e book) m.
Proof.
  intros [Hw Hbelow Hready Hfresh Hc Hmc Hb] He. split; cbn [bs_begin bs_end bs_count message_count bs_size with_begin]; try done.
  - lia.
  - intros i Hi. apply Hready. lia.
  - intros i a Ha Hi. apply (Hfresh i a Ha). lia.
Qed.

Lemma inv_unknit s a o b book m :
  mq_inv s (a ++ o :: b) -> pages_repr s o m -> book_ok book m -> bs_end book <= bs_begin book ->
  let s' := put_book o (with_neighbours None book) (ready_ring_unknit o (links o (b ++ a)) s) in
  mq_inv s' (a ++ b) /\ waiting o s' = [] /\ (forall z, z <> o -> waiting z s' = waiting z s).
Proof.
  intros [Hring Hlisted Hqueue] Hm Hok Hempty s'.
  destruct (ready_ring_unknit_spec s a o b Hring) as [[Hp He Hr Hb] Hring'].
  assert (Hpages : forall z i, get_page z i s' = get_page z i s) by (intros; unfold get_page; cbn; by rewrite Hp).
  assert (Hself : get_book o s' = with_neighbours None book) by (unfold s'; by rewrite get_put_book, decide_True).
  assert (Hother : forall z, z <> o -> get_book z s' = with_neighbours (neighbours_of s' z) (get_book z s)).
  { intros z Hz. unfold s'. rewrite get_put_book, neighbours_put, !decide_False by done. apply Hb. }
  split; [split|split].
  - apply Hring'.
  - intros z. destruct (decide (z = o)) as [->|Hz]; [rewrite Hself; cbn; lia|].
    rewrite Hother by done. cbn. intros Hz'%Hlisted. set_solver.
  - intros z. destruct (decide (z = o)) as [->|Hz].
    + exists m. rewrite Hself. split; [by apply (pages_repr_ext s)|by apply book_ok_neighbours].
    + destruct (Hqueue z) as (m' & Hm' & Hb'). exists m'. rewrite Hother by done.
      split; [by apply (pages_repr_ext s)|by apply book_ok_neighbours].
  - unfold waiting. rewrite Hself. cbn [bs_begin bs_end with_neighbours]. by rewrite seqZ_nil by lia.
  - intros z Hz. unfold waiting. rewrite Hother by done. apply list_bind_ext; [|done]. intros i. by rewrite Hpages.
Qed.

Lemma not_listed s l o : mq_inv s l -> o ∉ l -> waiting o s = [].
Proof.
  intros Hinv Ho. unfold waiting. rewrite seqZ_nil; [done|].
  destruct (Z.lt_ge_cases (bs_begin (get_book o s)) (bs_end (get_book o s))) as [Hlt|]; [|lia].
  by apply (mq_listed _ _ Hinv) in Hlt.
Qed.

Lemma sweep_queue_spec s l o :
  mq_inv s l ->
  exists l', mq_inv (sweep_queue o s) l' /\ l' ⊆ l /\
    waiting o (sweep_queue o s) = [] /\ forall z, z <> o -> waiting z (sweep_queue o s) = waiting z s.
Proof.
  intros Hinv. destruct (mq_queue _ _ Hinv o) as (m & Hm & Hok). unfold sweep_queue.
  destruct (BookStateFor s !! o) as [book|] eqn:Hbook.
  2: { exists l. split; [done|]. split; [done|]. split; [|done]. unfold waiting, get_book. by rewrite Hbook. }
  assert (Hget : get_book o s = book) by (unfold get_book; by rewrite Hbook). rewrite Hget in Hok.
  pose proof (book_window _ _ Hok) as Hw.
  pose proof (book_ok_with_begin book m (bs_end book) Hok ltac:(lia)) as Hok'. cbv zeta.
  destruct (decide (o ∈ l)) as [Ho|Ho].
  - apply list_elem_of_split in Ho as (a & b & ->).
    pose proof (ring_links _ _ _ (mq_ring _ _ Hinv) a o b eq_refl) as Hn. unfold neighbours_of in Hn. rewrite Hget in Hn.
    cbn [ready_neighbours with_begin]. rewrite Hn.
    destruct (inv_unknit s a o b (with_begin (bs_end book) book) m Hinv Hm Hok' ltac:(cbn; lia)) as (Hinv' & Hnil & Hothers).
    exists (a ++ b). split; [done|]. split; [set_solver|done].
  - pose proof (ring_out _ _ _ (mq_ring _ _ Hinv) o Ho) as Hn. unfold neighbours_of in Hn. rewrite Hget in Hn.
    cbn [ready_neighbours with_begin]. rewrite Hn. set (s' := put_book o _ s).
    assert (Hself : get_book o s' = with_neighbours None (with_begin (bs_end book) book))
      by (unfold s'; by rewrite get_put_book, decide_True).
    assert (Hother : forall z, z <> o -> get_book z s' = get_book z s)
      by (intros z Hz; unfold s'; by rewrite get_put_book, decide_False).
    exists l. split; [|split; [done|split]].
    + apply (inv_update s l o s' m); rewrite ?Hself; try done.
      * by apply book_ok_neighbours.
      * unfold s'. rewrite neighbours_put, decide_True by done. unfold neighbours_of. by rewrite Hget, Hn.
      * cbn. lia.
    + unfold waiting. rewrite Hself. cbn [bs_begin bs_end with_neighbours with_begin]. by rewrite seqZ_nil by lia.
    + intros z Hz. apply waiting_other; [done|auto].
Qed.

(** ** Meters *)

(** The limit stays, the consumption grows up to it. *)
Record spends (w w' : Meter.WeightMeter) : Prop := {
  spends_ok : meter_ok w -> meter_ok w';
  spends_limit : Meter.limit w' = Meter.limit w;
  spends_more : weight_le (Meter.consumed w) (Meter.consumed w');
}.

Definition cost (w : WeightV2.Weight) : Z := WeightV2.ref_time w + WeightV2.proof_size w.

(** The weight that is left, as a number. *)
Definition left_in (w : Meter.WeightMeter) : Z := cost (Meter.limit w) - cost (Meter.consumed w).

Lemma spends_refl w : spends w w.
Proof. done. Qed.

Lemma spends_trans w w' w'' : spends w w' -> spends w' w'' -> spends w w''.
Proof. intros [H1 H2 H3] [H4 H5 H6]. split; [auto|congruence|by etransitivity]. Qed.

Lemma spends_left w w' : spends w w' -> left_in w' <= left_in w.
Proof. intros [_ Hl [? ?]]. unfold left_in, cost. rewrite Hl. lia. Qed.

Lemma left_in_bound w : meter_ok w -> 0 <= left_in w < Z.pos service_fuel.
Proof.
  intros [[? ?] [? ?] [? ?]]. unfold left_in, cost, is_uint in *. change (Z.pos service_fuel) with (2 ^ 66).
  unfold umax in *. lia.
Qed.

Lemma consumes_spec w x w' :
  meter_ok w -> wf_weight x -> consumes w x = Some w' -> spends w w' /\ left_in w' = left_in w - cost x.
Proof.
  intros Hw Hx. unfold consumes. pose proof (try_consume_ok w x Hw Hx) as Hok.
  rewrite try_consume_spec in * by apply Hw. case_decide; [|done]. intros [= <-].
  split; [split|]; cbn [fst Meter.consumed Meter.limit] in *; [done|done|..].
  - unfold weight_le, plus. cbn. destruct Hx as [[? _] [? _]]. lia.
  - unfold left_in, cost, plus. cbn. lia.
Qed.

(** What the pallet relies on: a processor spends what it uses and only enqueues
    messages, and the weights are [u64]s of which those of the servicing loops
    are not zero. *)
Class ProcessorLaws : Prop := {
  process_grows msg o w id s b w' id' s' :
    process_message msg o w id s = (inl b, w', id', s') -> grows s s';
  process_spends msg o w id s r w' id' s' :
    process_message msg o w id s = (r, w', id', s') -> spends w w';
}.

Class WeightLaws : Prop := {
  wf_bump : wf_weight (w_bump_service_head weights);
  wf_queue : wf_weight (WeightV2.saturating_add (w_service_queue_base weights) (w_ready_ring_unknit weights));
  wf_page : wf_weight (WeightV2.max (w_service_page_base_completion weights) (w_service_page_base_no_completion weights));
  wf_item : wf_weight (w_service_page_item weights);
  queue_costs : 0 < cost (WeightV2.saturating_add (w_service_queue_base weights) (w_ready_ring_unknit weights));
  page_costs : 0 < cost (WeightV2.max (w_service_page_base_completion weights) (w_service_page_base_no_completion weights));
  item_costs : 0 < cost (w_service_page_item weights);
}.
Context `{!ProcessorLaws, !WeightLaws}.

Lemma process_message_payload_spec o i j msg w lim s res w' s' :
  process_message_payload o i j msg w lim s = (res, w', s') -> grows s s' /\ spends w w'.
Proof.
  unfold process_message_payload. cbv zeta. destruct (layer_available s); cbn [negb].
  2: { intros [= <- <- <-]. split; [by apply grows_agrees|apply spends_refl]. }
  destruct (process_message msg o w (blake2_256 msg) s) as [[[r w1] id] s1] eqn:E.
  pose proof (process_spends _ _ _ _ _ _ _ _ _ E) as Hsp.
  assert (Hsame : forall e, grows s (deposit_event e s)) by (intros; by apply grows_agrees).
  destruct r as [b|[| | |x| |]].
  - intros [= <- <- <-]. split; [|done]. by apply (grows_then _ s1), agrees_deposit; eapply process_grows.
  - intros [= <- <- <-]; auto.
  - intros [= <- <- <-]; auto.
  - intros [= <- <- <-]; auto.
  - case_match; intros [= <- <- <-]; split; auto. by apply grows_agrees.
  - intros [= <- <- <-]. split; [by apply grows_agrees|done].
  - intros [= <- <- <-]; auto.
Qed.

(** ** An item

    Messages leave a queue at the front and are added at the end. *)

(** The answers of the processor that end the wait of a message. *)
Definition finished (st : MessageExecutionStatus) : bool :=
  match st with MProcessed | MUnprocessable true | MStackLimitReached | MOverweight => true | _ => false end.

(** The message was given to the processor, with such an answer. *)
Definition handled (lim : WeightV2.Weight) (o : O) (msg : bytes) : Prop :=
  exists i j w s st w' s', process_message_payload o i j msg w lim s = (st, w', s') /\ finished st = true.

Definition fifo (lim : WeightV2.Weight) s s' : Prop :=
  forall z, exists gone more, waiting z s ++ more = gone ++ waiting z s' /\ Forall (handled lim z) gone.

Lemma fifo_trans lim s s' s'' : fifo lim s s' -> fifo lim s' s'' -> fifo lim s s''.
Proof.
  intros Hf Hf' z. destruct (Hf z) as (g1 & m1 & E1 & F1). destruct (Hf' z) as (g2 & m2 & E2 & F2).
  exists (g1 ++ g2), (m1 ++ m2). split; [by rewrite app_assoc, E1, <- app_assoc, E2, app_assoc|by apply Forall_app_2].
Qed.

Lemma fifo_same lim s s' : (forall z, waiting z s' = waiting z s) -> fifo lim s s'.
Proof. intros Hs z. exists [], []. by rewrite app_nil_r, Hs. Qed.

Abbreviation page_state := (BookState O * Page * Meter.WeightMeter * Storage O X)%type.

(** The storage with the book and the page of the queue written back. *)
Definition page_view (o : O) (i : Z) (st : page_state) : Storage O X :=
  let '(book, page, _, s) := st in put_book o book (put_page o i page s).

Record in_page (lim : WeightV2.Weight) (o : O) (i : Z) s0 (w0 : Meter.WeightMeter) (st : page_state) : Prop := {
  ip_inv : exists l, mq_inv (page_view o i st) l;
  ip_begin : bs_begin st.1.1.1 = i;
  ip_ready : i < bs_end st.1.1.1;
  ip_fifo : fifo lim s0 (page_view o i st);
  ip_spends : spends w0 st.1.2;
  ip_meter : meter_ok st.1.2;
}.

(** Nothing is left of page [i] of the queue. *)
Definition used_up (o : O) (i : Z) s : Prop := forall m, pages_repr s o m -> rest_of (m !! i) = [].

Lemma page_view_page o i st : get_page o i (page_view o i st) = Some st.1.1.2.
Proof.
  destruct st as [[[book page] w] s]. cbn [page_view fst snd].
  change (get_page o i (put_page o i page s) = Some page). by rewrite get_put_page, decide_True.
Qed.

Lemma page_view_book o i st : get_book o (page_view o i st) = st.1.1.1.
Proof. destruct st as [[[book page] w] s]. cbn [page_view fst snd]. by rewrite get_put_book, decide_True. Qed.

(** A page whose cursor shows nothing, or that is complete, is used up. *)
Lemma used_up_page lim o i s0 w0 st :
  in_page lim o i s0 w0 st -> is_complete st.1.1.2 = true \/ peek_first st.1.1.2 = None -> used_up o i (page_view o i st).
Proof.
  intros [[l Hinv] Hbegin Hready _ _ _] Hc m Hm. destruct (mq_queue _ _ Hinv o) as (m' & Hm' & Hok).
  rewrite (pages_repr_inj heap_size_fits _ _ _ _ Hm' Hm) in Hok.
  destruct (pages_repr_lookup _ _ _ _ _ Hm (page_view_page o i st)) as ([items k] & Hi & Hp).
  rewrite Hi. cbn [rest_of fst snd] in *. rewrite page_view_book in Hok.
  pose proof (book_fresh _ _ Hok i (items, k) Hi ltac:(lia)) as Hf. cbn [fst snd] in Hf.
  destruct (items !! k) as [it|] eqn:Hk.
  - destruct Hc as [Hc|Hc].
    + rewrite (is_complete_repr _ _ _ Hp) in Hc. rewrite (drop_S items it k Hk) in Hf. apply Forall_cons in Hf as [Hf _].
      rewrite forallb_forall in Hc. rewrite Hc in Hf; [done|]. apply list_elem_of_In. by eapply list_elem_of_lookup_2.
    + rewrite (peek_first_repr heap_size_fits _ _ _ Hp), Hk in Hc. done.
  - apply lookup_ge_None in Hk. by rewrite drop_ge.
Qed.
Lemma page_view_agrees o i w page s :
  get_page o i s = Some page -> agrees s (page_view o i (get_book o s, page, w, s)).
Proof.
  intros Hp. split; [|done|]; cbn [page_view].
  - intros z. rewrite get_put_book. by case_decide; [subst|].
  - intros z j. change (get_page z j (put_page o i page s) = get_page z j s).
    destruct (decide (z = o)) as [->|Hz]; [|by apply get_put_page_ne]. rewrite get_put_page. by case_decide; [subst|].
Qed.

Lemma grows_fifo lim s s' l : mq_inv s l -> grows s s' -> fifo lim s s'.
Proof.
  intros Hinv Hg z. destruct (grows_spec heap_size_fits heap_size_header s s' Hg l Hinv) as (l' & _ & Hgrown).
  destruct (grown_waiting _ _ _ (Hgrown z)) as (more & Hw & _). exists [], more. by rewrite Hw.
Qed.

(** The storage and the page after the processor ran. *)
Lemma grows_page lim o i s0 w0 st s2 w2 :
  in_page lim o i s0 w0 st -> grows (page_view o i st) s2 -> spends st.1.2 w2 ->
  exists page2, get_page o i s2 = Some page2 /\ in_page lim o i s0 w0 (get_book o s2, page2, w2, s2) /\
    (forall it, peek_first st.1.1.2 = Some it -> peek_first page2 = Some it).
Proof.
  intros [[l Hinv] Hbegin Hready Hfifo Hsp Hmeter] Hg Hsp2.
  destruct (grows_spec heap_size_fits heap_size_header _ _ Hg l Hinv) as (l' & Hinv2 & Hgrown).
  specialize (Hgrown o). destruct (mq_queue _ _ Hinv o) as (m & Hm & Hok).
  destruct (pages_repr_lookup _ _ _ _ _ Hm (page_view_page o i st)) as ([items k] & Hi & Hp).
  destruct (grown_pages _ _ _ Hgrown m Hm) as (m' & Hm' & Hext & Hok'). destruct (Hext i items k Hi) as [more Hi'].
  pose proof (Hm' i) as Hget. rewrite Hi' in Hget. inversion Hget as [page2 ? Hp2 Heq|]; subst. symmetry in Heq.
  pose proof (page_view_agrees o (bs_begin st.1.1.1) w2 page2 s2 Heq) as Ha.
  pose proof (grown_begin _ _ _ Hgrown) as Hb. pose proof (grown_end _ _ _ Hgrown) as He.
  rewrite page_view_book in Hb, He. exists page2. split; [done|]. split; [split|].
  - eexists. by apply (agrees_inv s2).
  - done.
  - cbn [fst snd]. lia.
  - apply (fifo_trans _ _ _ _ Hfifo). apply (fifo_trans _ _ s2); [by eapply grows_fifo|].
    apply fifo_same. intros z. by apply agrees_waiting.
  - by apply (spends_trans _ st.1.2).
  - by apply (spends_ok _ _ Hsp2).
  - cbn [fst snd] in *. intros it. rewrite (peek_first_repr heap_size_fits _ _ _ Hp), (peek_first_repr heap_size_fits _ _ _ Hp2).
    intros (x & Hx & ->)%fmap_Some. by rewrite (lookup_app_l_Some _ _ _ _ Hx).
Qed.

(** The message at the cursor is taken out. *)
Lemma advance_page lim o i s0 w0 book page w s payload (b : bool) :
  in_page lim o i s0 w0 (book, page, w, s) -> peek_first page = Some payload -> handled lim o payload ->
  in_page lim o i s0 w0 (if b then note_message_gone (zlen payload) book else book, skip_first b page, w, s).
Proof.
  intros Hip Hpeek Hhandled. pose proof (ip_begin _ _ _ _ _ _ Hip) as Hbegin. cbn [fst snd] in Hbegin. subst i.
  pose proof Hip as [[l Hinv] _ Hready Hfifo Hsp Hmeter]. set (i := bs_begin book) in *.
  set (v := page_view o i (book, page, w, s)) in *. cbn [fst snd] in *.
  destruct (mq_queue _ _ Hinv o) as (m & Hm & Hok).
  destruct (pages_repr_lookup _ _ _ _ _ Hm (page_view_page o i (book, page, w, s))) as ([items k] & Hi & Hp).
  cbn [fst snd] in Hp. rewrite (peek_first_repr heap_size_fits _ _ _ Hp) in Hpeek.
  apply fmap_Some in Hpeek as ([payload' flag] & Hk & ->). cbn [fst].
  assert (Hbook : get_book o v = book) by apply (page_view_book o i (book, page, w, s)). rewrite Hbook in Hok.
  pose proof (book_fresh _ _ Hok i _ Hi ltac:(lia)) as Hf. cbn [fst snd] in Hf.
  rewrite (drop_S items _ k Hk) in Hf. apply Forall_cons in Hf as [Hflag _]. cbn in Hflag. subst flag.
  pose proof (counters_lookup _ _ _ _ Hok Hi) as (Hc1 & Hc2 & _). cbn [fst] in Hc1, Hc2.
  destruct (unprocessed_mark items k (payload', false) Hk) as [Hu1 Hu2]. cbn [fst snd] in Hu1, Hu2.
  pose proof (zlen_nonneg (unprocessed (mark k items))). pose proof (total_size_nonneg (unprocessed (mark k items))).
  assert (Hgone : note_message_gone (zlen payload') book =
    with_content (message_count book - 1) (bs_size book - zlen payload') book).
  { unfold note_message_gone, saturating_sub. by rewrite !Z.max_r by lia. }
  rewrite Hgone in *. clear Hgone.
  destruct (book_ok_advance book m items k payload' b Hok Hready Hi Hk) as [Hok' Haw].
  set (book' := if b then _ else book) in *. set (v' := page_view o i (book', skip_first b page, w, s)).
  assert (Hself : get_book o v' = book') by apply (page_view_book o i (book', skip_first b page, w, s)).
  assert (Hends : bs_begin book' = bs_begin book /\ bs_end book' = bs_end book /\ ready_neighbours book' = ready_neighbours book)
    by (unfold book'; by destruct b).
  destruct Hends as (Eb & Ee & En).
  assert (Hm' : pages_repr v' o (<[i := (if b then mark k items else items, S k)]> m)).
  { apply (pages_repr_ext (put_page o i (skip_first b page) (put_page o i page s))).
    - intros j. by rewrite put_put_page.
    - apply pages_repr_put; [exact Hm|]. pose proof (skip_first_repr heap_size_fits heap_size_header b page items k _ Hp Hk) as Hskip.
      cbn [snd fst negb] in *. by rewrite andb_true_r in Hskip. }
  assert (Hother : forall z j, z <> o -> get_page z j v' = get_page z j v).
  { intros z j Hz. transitivity (get_page z j s); [|symmetry]; by apply get_put_page_ne. }
  assert (Hbooks : forall z, z <> o -> get_book z v' = get_book z v).
  { intros z Hz. unfold v', v. cbn [page_view]. by rewrite !get_put_book, !decide_False. }
  split; cbn [fst snd]; try done.
  - exists l. fold v'. apply (inv_update v l o v' (<[i := (if b then mark k items else items, S k)]> m)); rewrite ?Hself, ?Hbook; try done.
    + unfold neighbours_of. by rewrite Hself, Hbook.
  - lia.
  - apply (fifo_trans _ _ v); [done|]. fold v'. intros z. destruct (decide (z = o)) as [->|Hz].
    + exists [payload'], []. split; [|by repeat constructor]. rewrite app_nil_r, (waiting_repr heap_size_fits v o m Hm), (waiting_repr heap_size_fits v' o _ Hm').
      by rewrite Hself, Hbook, Haw.
    + exists [], []. split; [|done]. rewrite app_nil_r. symmetry. apply waiting_other; auto.
Qed.

Lemma service_page_item_spec o i lim s0 w0 st status st' :
  in_page lim o i s0 w0 st -> service_page_item o i lim st = (status, st') ->
  in_page lim o i s0 w0 st' /\ left_in st'.1.2 <= left_in st.1.2 /\
  match status with
  | IExecuted _ => left_in st'.1.2 < left_in st.1.2
  | INoItem => used_up o i (page_view o i st')
  | IBailed | INoProgress => True
  end.
Proof.
  destruct st as [[[book page] w] s]. intros Hip. unfold service_page_item.
  destruct (is_complete page) eqn:Hcomplete.
  { intros [= <- <-]. split; [done|]. split; [done|]. apply (used_up_page _ _ _ _ _ _ Hip). by left. }
  destruct (consumes w (w_service_page_item weights)) as [w1|] eqn:Hw; [|by intros [= <- <-]].
  pose proof (ip_meter _ _ _ _ _ _ Hip) as Hmeter. cbn [fst snd] in Hmeter.
  destruct (consumes_spec _ _ _ Hmeter wf_item Hw) as [Hsp Hleft]. pose proof item_costs as Hcost.
  assert (Hip1 : in_page lim o i s0 w0 (book, page, w1, s)).
  { destruct Hip as [Hinv Hbegin Hready Hfifo Hsp0 _]. split; try done; cbn [fst snd] in *.
    - by apply (spends_trans _ w).
    - by apply Hsp. }
  destruct (peek_first page) as [payload|] eqn:Hpeek.
  2: { intros [= <- <-]. split; [done|]. cbn [fst snd]. split; [lia|]. apply (used_up_page _ _ _ _ _ _ Hip1). by right. }
  cbv zeta. change (put_book o book (put_page o i page s)) with (page_view o i (book, page, w1, s)).
  destruct (process_message_payload o i (first_index page) payload w1 lim (page_view o i (book, page, w1, s)))
    as [[res w2] s2] eqn:Hproc.
  pose proof Hproc as Hcall. apply process_message_payload_spec in Hproc as [Hg Hsp2].
  destruct (grows_page lim o i s0 w0 _ s2 w2 Hip1 Hg Hsp2) as (page2 & Hget & Hip2 & Hpeek2).
  specialize (Hpeek2 payload Hpeek). rewrite Hget. pose proof (spends_left _ _ Hsp2) as Hle. cbn [fst snd] in Hle |- *.
  assert (Hhandled : finished res = true -> handled lim o payload) by (intros Hf; repeat eexists; eauto).
  assert (Hskip : forall b : bool, finished res = true ->
    in_page lim o i s0 w0 (if b then note_message_gone (zlen payload) (get_book o s2) else get_book o s2, skip_first b page2, w2, s2))
    by (intros b Hf; exact (advance_page lim o i s0 w0 _ _ _ _ payload b Hip2 Hpeek2 (Hhandled Hf))).
  destruct res as [| | |[]|]; intros [= <- <-]; cbn [fst snd];
    (split; [done || by apply (Hskip true) || by apply (Hskip false)|]); (split; [lia|]); lia || done.
Qed.
(** ** A page *)

Record in_queue (lim : WeightV2.Weight) (o : O) s0 (w0 : Meter.WeightMeter) book (w : Meter.WeightMeter) s : Prop := {
  iq_inv : exists l, mq_inv (put_book o book s) l;
  iq_fifo : fifo lim s0 (put_book o book s);
  iq_spends : spends w0 w;
  iq_meter : meter_ok w;
}.

Lemma complete_unprocessed p items k :
  page_repr p items k -> is_complete p = true ->
  zlen (unprocessed items) = 0 /\ total_size (unprocessed items) = 0.
Proof.
  intros Hp Hc. unfold is_complete in Hc. apply Z.eqb_eq in Hc. rewrite (repr_remaining _ _ _ Hp) in Hc.
  split; [done|]. unfold zlen in Hc. by destruct (unprocessed items); [|cbn in Hc; lia].
Qed.

(** A complete page is removed. *)
Lemma remove_complete lim o i s0 w0 book page w s :
  in_page lim o i s0 w0 (book, page, w, s) -> is_complete page = true ->
  let book' := with_count (saturating_sub (bs_count book) 1) book in
  in_queue lim o s0 w0 book' w (remove_page o i s) /\ used_up o i (remove_page o i s).
Proof.
  intros Hip Hc book'. pose proof (used_up_page _ _ _ _ _ _ Hip (or_introl Hc)) as Hused.
  pose proof Hip as [[l Hinv] Hbegin Hready Hfifo Hsp Hmeter]. cbn [fst snd] in *.
  set (v := page_view o i (book, page, w, s)) in *.
  destruct (mq_queue _ _ Hinv o) as (m & Hm & Hok). specialize (Hused m Hm).
  assert (Hbook : get_book o v = book) by apply (page_view_book o i (book, page, w, s)). rewrite Hbook in Hok.
  destruct (pages_repr_lookup _ _ _ _ _ Hm (page_view_page o i (book, page, w, s))) as ([items k] & Hi & Hp).
  cbn [fst snd] in Hp. destruct (complete_unprocessed _ _ _ Hp Hc) as [Hz1 Hz2].
  pose proof (counters_lookup _ _ _ _ Hok Hi) as (_ & _ & Hcount).
  rewrite Hi in Hused. cbn [rest_of fst snd] in Hused. apply fmap_nil_inv in Hused.
  destruct (book_ok_delete _ _ _ _ Hok Hi ltac:(lia) ltac:(done)) as [Hok' Haw]. cbn [fst snd] in Hok', Haw.
  rewrite Hz1, Hz2, !Z.sub_0_r in Hok', Haw.
  assert (E : with_content (message_count book) (bs_size book) (with_count (bs_count book - 1) book) = book').
  { unfold book', saturating_sub. by rewrite Z.max_r by lia. }
  rewrite E in Hok', Haw. set (v' := put_book o book' (remove_page o i s)).
  assert (Hself : get_book o v' = book') by (unfold v'; by rewrite get_put_book, decide_True).
  assert (Hm' : pages_repr v' o (delete i m)).
  { apply (pages_repr_ext (remove_page o i (put_page o i page s))).
    - intros j. unfold v'. change (get_page o j (put_book o book' (remove_page o i s))) with (get_page o j (remove_page o i s)).
      rewrite !get_remove_page, get_put_page. by case_decide.
    - apply pages_repr_remove. exact Hm. }
  destruct (inv_update_waiting v l o v' m (delete i m) Hinv Hm) as [Hinv' Hwait]; rewrite ?Hself, ?Hbook; try done.
  { intros z j Hz. transitivity (get_page z j s); [by apply get_remove_page_ne|symmetry; by apply get_put_page_ne]. }
  { intros z Hz. unfold v', v. cbn [page_view]. by rewrite !get_put_book, !decide_False. }
  { unfold neighbours_of. by rewrite Hself, Hbook. }
  split; [split|].
  - by exists l.
  - apply (fifo_trans _ _ v); [done|]. by apply fifo_same.
  - done.
  - done.
  - intros m1 Hm1. rewrite <- (pages_repr_inj heap_size_fits (remove_page o i s) o (delete i m) m1); [|exact Hm'|done].
    by rewrite lookup_delete_eq.
Qed.

Lemma service_page_loop o i lim s0 w0 st :
  in_page lim o i s0 w0 st ->
  exists status n st', loop service_fuel (service_page_step o i lim) (0, st) = inr (status, n, st') /\
    in_page lim o i s0 w0 st' /\ (status = PNoMore -> used_up o i (page_view o i st')) /\ left_in st'.1.2 <= left_in st.1.2.
Proof.
  intros Hip.
  destruct (loop_total
    (fun x => in_page lim o i s0 w0 x.2 /\ left_in x.2.1.2 <= left_in st.1.2)
    (fun r => in_page lim o i s0 w0 r.2 /\ (r.1.1 = PNoMore -> used_up o i (page_view o i r.2)) /\ left_in r.2.1.2 <= left_in st.1.2)
    (fun x => left_in x.2.1.2) (service_page_step o i lim) service_fuel (0, st)) as ([[status n] st'] & Hloop & HQ).
  - intros [n x] [Hx _]. apply (left_in_bound _ (ip_meter _ _ _ _ _ _ Hx)).
  - intros [n x] [Hx Hle]. cbn [snd] in *. unfold service_page_step.
    destruct (service_page_item o i lim x) as [status x'] eqn:E.
    pose proof (service_page_item_spec _ _ _ _ _ _ _ _ Hx E) as (Hx' & Hle' & Hstatus).
    destruct status as [| | |[]]; cbn [fst snd]; split_and!; done || lia.
  - done.
  - apply (left_in_bound _ (ip_meter _ _ _ _ _ _ Hip)).
  - by exists status, n, st'.
Qed.

Lemma put_book_agrees o book s s' : agrees s s' -> agrees (put_book o book s) (put_book o book s').
Proof.
  intros [Hb Hh Hp]. split; [|done|done]. intros z. rewrite !get_put_book. by case_decide.
Qed.

Lemma put_page_agrees o i page s : get_page o i s = Some page -> agrees s (put_page o i page s).
Proof.
  intros Hp. split; [done|done|]. intros z j. destruct (decide (z = o)) as [->|Hz]; [|by apply get_put_page_ne].
  rewrite get_put_page. by case_decide; [subst|].
Qed.

(** A page that can be paid for is serviced, and the loop ends. *)
Lemma service_page_spec o lim s0 w0 book w s :
  in_queue lim o s0 w0 book w s -> bs_begin book < bs_end book ->
  exists n status book' w' s', service_page o lim book w s = Some (n, status, book', w', s') /\
    in_queue lim o s0 w0 book' w' s' /\ bs_begin book' = bs_begin book /\ bs_begin book' < bs_end book' /\
    left_in w' <= left_in w /\ (status = PNoMore -> used_up o (bs_begin book') s' /\ left_in w' < left_in w).
Proof.
  intros Hiq Hlt. pose proof Hiq as [[l Hinv] Hfifo Hsp Hmeter]. unfold service_page. cbv zeta.
  destruct (consumes w _) as [w1|] eqn:Hw; [|by eexists _, _, _, _, _; split_and!].
  destruct (consumes_spec _ _ _ Hmeter wf_page Hw) as [Hsp1 Hleft]. pose proof page_costs as Hcost.
  destruct (get_page o (bs_begin book) s) as [page|] eqn:Hpage.
  2: { eexists _, _, _, _, _. split; [done|].
       split_and!; [split; [by exists l|done|by apply (spends_trans _ w)|by apply Hsp1]|done|done|lia|].
       intros _. split; [|lia]. intros m Hm. by rewrite (pages_repr_lookup_None _ _ _ _ Hm Hpage). }
  assert (Hip : in_page lim o (bs_begin book) s0 w0 (book, page, w1, s)).
  { assert (Ha : agrees (put_book o book s) (page_view o (bs_begin book) (book, page, w1, s)))
      by (by apply put_book_agrees, put_page_agrees).
    split; cbn [fst snd]; try done.
    - exists l. by apply (agrees_inv (put_book o book s)).
    - apply (fifo_trans _ _ _ _ Hfifo), fifo_same. intros z. by apply agrees_waiting.
    - by apply (spends_trans _ w).
    - by apply Hsp1. }
  destruct (service_page_loop o (bs_begin book) lim s0 w0 _ Hip) as (status & n & st' & Hloop & Hip' & Hused & Hle).
  rewrite Hloop. destruct st' as [[[book' page'] w'] s']. cbn [fst snd] in Hle.
  pose proof (ip_begin _ _ _ _ _ _ Hip') as Hbegin. pose proof (ip_ready _ _ _ _ _ _ Hip') as Hready. cbn [fst snd] in Hbegin, Hready.
  destruct (is_complete page') eqn:Hc; eexists _, _, _, _, _; (split; [done|]).
  - destruct (remove_complete _ _ _ _ _ _ _ _ _ Hip' Hc) as [Hiq' Hused']. cbn [bs_begin bs_end with_count].
    split_and!; [done|done|lia|lia|]. intros _. rewrite Hbegin. split; [done|lia].
  - split_and!; [|done|lia|lia|].
    + destruct Hip' as [Hinv' _ _ Hfifo' Hsp' Hm']. by split.
    + intros Hstatus. rewrite Hbegin. split; [by apply Hused|lia].
Qed.

(** ** A queue *)

Lemma used_up_begin o book s l m :
  mq_inv (put_book o book s) l -> bs_begin book < bs_end book -> used_up o (bs_begin book) s -> pages_repr s o m ->
  awaiting (with_begin (bs_begin book + 1) book) m = awaiting book m.
Proof. intros Hinv Hlt Hused Hm. by rewrite (awaiting_cons book m), (Hused m Hm). Qed.

(** The next page becomes the first one. *)
Lemma next_page lim o s0 w0 book w s :
  in_queue lim o s0 w0 book w s -> bs_begin book < bs_end book -> used_up o (bs_begin book) s ->
  in_queue lim o s0 w0 (with_begin (saturating_add 32 (bs_begin book) 1) book) w s.
Proof.
  intros [[l Hinv] Hfifo Hsp Hmeter] Hlt Hused. destruct (mq_queue _ _ Hinv o) as (m & Hm & Hok).
  assert (Hbook : get_book o (put_book o book s) = book) by (by rewrite get_put_book, decide_True). rewrite Hbook in Hok.
  pose proof (book_window _ _ Hok) as Hw.
  assert (E : saturating_add 32 (bs_begin book) 1 = bs_begin book + 1) by (unfold saturating_add; lia). rewrite E. clear E.
  set (book' := with_begin (bs_begin book + 1) book). set (v' := put_book o book' s).
  assert (Hself : get_book o v' = book') by (unfold v'; by rewrite get_put_book, decide_True).
  assert (Hother : forall z, z <> o -> get_book z v' = get_book z (put_book o book s))
    by (intros z Hz; unfold v'; by rewrite !get_put_book, !decide_False).
  split; [|apply (fifo_trans _ _ _ _ Hfifo), fifo_same|done|done].
  - exists l. apply (inv_update _ l o v' m Hinv); rewrite ?Hself, ?Hbook; try done.
    + apply book_ok_with_begin; [done|lia].
    + unfold neighbours_of. by rewrite Hself, Hbook.
  - intros z. destruct (decide (z = o)) as [->|Hz]; [|by apply waiting_other; auto].
    fold v'. rewrite (waiting_repr heap_size_fits v' o m Hm), (waiting_repr heap_size_fits (put_book o book s) o m Hm), Hself, Hbook.
    by eapply used_up_begin.
Qed.

Lemma service_queue_loop o lim s0 w0 book w s :
  in_queue lim o s0 w0 book w s ->
  exists n book' w' s', loop service_fuel (service_queue_step o lim) (0, book, w, s) = inr (Some (n, book', w', s')) /\
    in_queue lim o s0 w0 book' w' s' /\ left_in w' <= left_in w.
Proof.
  intros Hiq.
  destruct (loop_total
    (fun x => in_queue lim o s0 w0 x.1.1.2 x.1.2 x.2 /\ left_in x.1.2 <= left_in w)
    (fun r => exists x, r = Some x /\ in_queue lim o s0 w0 x.1.1.2 x.1.2 x.2 /\ left_in x.1.2 <= left_in w)
    (fun x => left_in x.1.2) (service_queue_step o lim) service_fuel (0, book, w, s)) as (r & Hloop & HQ).
  - intros x [Hx _]. apply (left_in_bound _ (iq_meter _ _ _ _ _ _ _ Hx)).
  - intros [[[n b] w1] s1] [Hx Hle]. cbn [fst snd] in *. unfold service_queue_step.
    destruct (Z.ltb_spec (bs_begin b) (bs_end b)) as [Hlt|Hge]; [|by eexists].
    destruct (service_page_spec o lim s0 w0 b w1 s1 Hx Hlt) as (k & status & b' & w' & s' & -> & Hx' & Hb & Hready & Hle' & Hmore).
    destruct status; [eexists; split_and!; [done|done|cbn; lia]..|].
    destruct (Hmore eq_refl) as [Hused Hless]. cbn [fst snd]. split_and!; [|lia|lia]. by apply next_page.
  - done.
  - apply (left_in_bound _ (iq_meter _ _ _ _ _ _ _ Hiq)).
  - destruct HQ as ([[[n b] w1] s1] & -> & Hx & Hle). by exists n, b, w1, s1.
Qed.

Lemma get_mutate z x f s :
  get_book z (mutate_neighbours x f s) =
  if decide (z = x) then with_neighbours (f <$> neighbours_of s z) (get_book z s) else get_book z s.
Proof. unfold mutate_neighbours. cbv zeta. rewrite get_put_book. by case_decide; [subst|]. Qed.

(** Unknitting does not look at the book of the queue itself. *)
Lemma unknit_put o n b b' s :
  agrees (put_book o b (ready_ring_unknit o n (put_book o b' s))) (put_book o b (ready_ring_unknit o n s)).
Proof.
  unfold ready_ring_unknit. case_decide as Eo; [|cbv zeta].
  - split; [|done|done]. intros z. rewrite !get_put_book. case_decide; [done|].
    rewrite !get_set_head, get_put_book, decide_False by done. done.
  - set (f := mutate_neighbours (next n) _). set (g := mutate_neighbours (prev n) _).
    change (ServiceHead (g (f (put_book o b' s)))) with (ServiceHead s). change (ServiceHead (g (f s))) with (ServiceHead s).
    assert (Hz : forall z, z <> o -> get_book z (g (f (put_book o b' s))) = get_book z (g (f s))).
    { intros z Hz. unfold f, g, neighbours_of. rewrite !get_mutate. unfold neighbours_of. rewrite !get_mutate.
      unfold neighbours_of. rewrite !get_put_book. by destruct (decide (z = o)). }
    destruct (ServiceHead s) as [h|]; [case_decide|]; (split; [|done|done]); intros z; rewrite !get_put_book;
      (case_decide; [done|]); symmetry; by apply Hz.
Qed.

(** After some servicing since [s0] and [w0]. *)
Record serviced (lim : WeightV2.Weight) s0 (w0 w : Meter.WeightMeter) s : Prop := {
  sv_inv : exists l, mq_inv s l;
  sv_fifo : fifo lim s0 s;
  sv_spends : spends w0 w;
  sv_meter : meter_ok w;
}.

Lemma serviced_agrees lim s0 w0 w s s' : agrees s s' -> serviced lim s0 w0 w s -> serviced lim s0 w0 w s'.
Proof.
  intros Ha [[l Hinv] Hf Hsp Hm]. split; [|apply (fifo_trans _ _ _ _ Hf), fifo_same|done|done].
  - exists l. by apply (agrees_inv s).
  - intros z. by apply agrees_waiting.
Qed.

(** The queue leaves the ring when it has no ready pages. *)
Lemma finish_queue lim o s0 w0 book w s :
  in_queue lim o s0 w0 book w s ->
  let '(book', s') :=
    if bs_end book <=? bs_begin book then
      match ready_neighbours book with
      | Some neighbours => (with_neighbours None book, ready_ring_unknit o neighbours s)
      | None => (book, s)
      end
    else (book, s) in
  serviced lim s0 w0 w (put_book o book' s').
Proof.
  intros [[l Hinv] Hfifo Hsp Hmeter].
  destruct (Z.leb_spec (bs_end book) (bs_begin book)) as [Hge|Hlt]; [|by split; [exists l|..]].
  destruct (ready_neighbours book) as [n|] eqn:Hn; [|by split; [exists l|..]].
  assert (Hbook : get_book o (put_book o book s) = book) by (by rewrite get_put_book, decide_True).
  apply (serviced_agrees _ _ _ _ (put_book o (with_neighbours None book) (ready_ring_unknit o n (put_book o book s)))).
  { apply unknit_put. }
  destruct (mq_queue _ _ Hinv o) as (m & Hm & Hok). rewrite Hbook in Hok.
  destruct (decide (o ∈ l)) as [Ho|Ho].
  2: { pose proof (ring_out _ _ _ (mq_ring _ _ Hinv) o Ho) as Hout. unfold neighbours_of in Hout. by rewrite Hbook, Hn in Hout. }
  apply list_elem_of_split in Ho as (a & b & ->).
  pose proof (ring_links _ _ _ (mq_ring _ _ Hinv) a o b eq_refl) as Hin. unfold neighbours_of in Hin.
  rewrite Hbook, Hn in Hin. injection Hin as ->.
  destruct (inv_unknit _ a o b book m Hinv Hm Hok Hge) as (Hinv' & Hnil & Hothers).
  split; [by exists (a ++ b)|apply (fifo_trans _ _ _ _ Hfifo), fifo_same|done|done].
  intros z. destruct (decide (z = o)) as [->|Hz]; [|by apply Hothers].
  rewrite Hnil. unfold waiting. rewrite Hbook. by rewrite seqZ_nil by lia.
Qed.

Lemma service_queue_spec o lim s0 w0 w s :
  serviced lim s0 w0 w s ->
  exists p n w' s', service_queue o lim w s = Some (p, n, w', s') /\ serviced lim s0 w0 w' s' /\
    (is_Some n -> left_in w' < left_in w).
Proof.
  intros [[l Hinv] Hf Hsp Hm]. unfold service_queue.
  destruct (consumes w _) as [w1|] eqn:Hw.
  2: { eexists _, _, _, _. split; [done|]. split; [by split; [exists l|..]|]. by intros []. }
  destruct (consumes_spec _ _ _ Hm wf_queue Hw) as [Hsp1 Hleft]. pose proof queue_costs as Hcost.
  assert (Hsp' : spends w0 w1) by (by apply (spends_trans _ w)).
  assert (Hm1 : meter_ok w1) by (by apply Hsp1). cbv zeta.
  destruct (is_paused o s).
  { eexists _, _, _, _. split; [done|]. split; [by split; [exists l|..]|]. intros _. lia. }
  assert (Hiq : in_queue lim o s0 w0 (get_book o s) w1 s).
  { assert (Ha : agrees s (put_book o (get_book o s) s)).
    { split; [|done|done]. intros z. rewrite get_put_book. by case_decide; [subst|]. }
    split; [|apply (fifo_trans _ _ _ _ Hf), fifo_same|done|done].
    - exists l. by apply (agrees_inv s).
    - intros z. by apply agrees_waiting. }
  destruct (service_queue_loop o lim s0 w0 _ w1 s Hiq) as (n & book' & w' & s' & -> & Hiq' & Hle).
  pose proof (finish_queue lim o s0 w0 book' w' s' Hiq') as Hfin.
  destruct (if bs_end book' <=? bs_begin book' then _ else _) as [book2 s2].
  eexists _, _, _, _. split; [done|]. split; [|intros _; lia].
  destruct (0 <? n); [|done]. apply (serviced_agrees _ _ _ _ (put_book o book2 s2)); [apply on_queue_changed_agrees|done].
Qed.

Lemma bump_inv w s l w' s' r :
  mq_inv s l -> bump_service_head w s = (w', s', r) ->
  (exists l', mq_inv s' l' /\ l' ≡ₚ l) /\ (forall z, waiting z s' = waiting z s) /\
  (w' = w \/ consumes w (w_bump_service_head weights) = Some w').
Proof.
  intros Hinv. destruct (consumes w (w_bump_service_head weights)) as [w1|] eqn:Hw.
  2: { unfold bump_service_head. rewrite Hw. intros [= <- <- <-]. split; [by exists l|]. split; [done|by left]. }
  destruct l as [|x t].
  - unfold bump_service_head. rewrite Hw, (ring_head _ _ _ (mq_ring _ _ Hinv)). cbn [head].
    intros [= <- <- <-]. split; [by exists []|]. split; [done|by right].
  - destruct (bump_service_head_spec w s x t w1 (mq_ring _ _ Hinv) Hw) as (s1 & -> & [Hp _ _ Hb] & Hr).
    intros [= <- <- <-]. pose proof Hinv as [_ Hlisted Hqueue].
    assert (Hpages : forall z i, get_page z i s1 = get_page z i s) by (intros; unfold get_page; by rewrite Hp).
    split; [|split; [|by right]].
    + exists (t ++ [x]). split; [split; [done|..]|by rewrite (Permutation_app_comm t [x])].
      * intros o. rewrite Hb. cbn. intros Ho%Hlisted. set_solver.
      * intros o. destruct (Hqueue o) as (m & Hm & Hok). exists m. rewrite Hb.
        split; [by apply (pages_repr_ext s)|by apply book_ok_neighbours].
    + intros z. unfold waiting. rewrite Hb. apply list_bind_ext; [|done]. intros i. by rewrite Hpages.
Qed.

Lemma service_queues_loop lim s0 w0 x w s :
  serviced lim s0 w0 w s ->
  exists w' s', loop service_fuel (service_queues_step lim) (x, None, w, s) = inr (Some (w', s')) /\ serviced lim s0 w0 w' s'.
Proof.
  intros Hs.
  destruct (loop_total (fun y => serviced lim s0 w0 y.1.2 y.2)
    (fun r => exists y, r = Some y /\ serviced lim s0 w0 y.1 y.2)
    (fun y => left_in y.1.2) (service_queues_step lim) service_fuel (x, None, w, s)) as (r & Hloop & HQ).
  - intros y Hy. apply (left_in_bound _ (sv_meter _ _ _ _ _ Hy)).
  - intros [[[z lnp] w1] s1] Hy. cbn [fst snd] in *. unfold service_queues_step.
    destruct (service_queue_spec z lim s0 w0 w1 s1 Hy) as (p & n & w2 & s2 & -> & Hy2 & Hless).
    destruct n as [n|]; [|by eexists]. specialize (Hless ltac:(eauto)).
    destruct p; cbn [negb]; [done|]. case_decide; [by eexists|done].
  - done.
  - apply (left_in_bound _ (sv_meter _ _ _ _ _ Hs)).
  - destruct HQ as ([w1 s1] & -> & Hy). by exists w1, s1.
Qed.

(** Servicing ends, stays in its limit, keeps the invariant and takes messages
    from the front of the queues only. *)
Lemma service_queues_impl_spec limit s l :
  mq_inv s l -> wf_weight limit ->
  exists used s', service_queues_impl false limit s = Some (used, s') /\
    (exists l', mq_inv s' l') /\ fifo (default WeightV2.zero (max_message_weight limit)) s s' /\ weight_le used limit.
Proof.
  intros Hinv Hlim. unfold service_queues_impl, with_service_mutex. cbv zeta.
  set (lim := default WeightV2.zero (max_message_weight limit)).
  assert (Hw0 : meter_ok (Meter.with_limit limit)).
  { split; [done|done|]. destruct Hlim as [[? _] [? _]]. done. }
  destruct (bump_service_head (Meter.with_limit limit) s) as [[w1 s1] x] eqn:Hbump.
  destruct (bump_inv _ _ _ _ _ _ Hinv Hbump) as ((l1 & Hinv1 & _) & Hwait & Hw1).
  assert (Hs1 : serviced lim s (Meter.with_limit limit) w1 s1).
  { assert (Hsp : spends (Meter.with_limit limit) w1).
    { destruct Hw1 as [->|Hw1]; [apply spends_refl|]. by apply (consumes_spec _ _ _ Hw0 wf_bump). }
    split; [by exists l1|by apply fifo_same|done|]. by apply Hsp. }
  assert (Hdone : forall w2 s2, serviced lim s (Meter.with_limit limit) w2 s2 ->
    (exists l', mq_inv s2 l') /\ fifo lim s s2 /\ weight_le (Meter.consumed w2) limit).
  { intros w2 s2 [Hi Hf Hsp Hm]. split_and!; [done|done|]. pose proof (ok_within _ Hm) as Hle.
    by rewrite (spends_limit _ _ Hsp) in Hle. }
  destruct x as [x|]; [|eauto].
  destruct (service_queues_loop lim _ _ x _ _ Hs1) as (w2 & s2 & -> & Hs2).
  eauto.
Qed.

(** ** Overweight messages *)

(** The processor leaves the queues alone when it is given the overweight
    message: processing it enqueues nothing. *)
Definition overweight_quiet o (i j : Z) (lim : WeightV2.Weight) s : Prop :=
  forall page pos payload, get_page o i s = Some page -> peek_index (Z.to_nat j) page = Some (pos, false, payload) ->
    agrees s (process_message_payload o i j payload (Meter.with_limit lim) WeightV2.MAX s).2.

(** A processor that never enqueues is quiet on every message. *)
Definition quiet_processor : Prop :=
  forall msg o w id s b w' id' s', process_message msg o w id s = (inl b, w', id', s') -> agrees s s'.

Lemma quiet_overweight o i j lim s : quiet_processor -> overweight_quiet o i j lim s.
Proof.
  intros Hq page pos msg _ _. unfold process_message_payload. cbv zeta.
  destruct (layer_available s); cbn [negb]; [|done]. set (w := Meter.with_limit lim).
  destruct (process_message msg o w (blake2_256 msg) s) as [[[r w1] id] s1] eqn:E.
  destruct r as [b|[| | |x| |]]; try done; [|by case_match].
  apply (agrees_trans _ s1); [by eapply Hq|done].
Qed.

(** The item found by [peek_index] and its place. *)
Lemma peek_overweight s l o i page j pos flag payload :
  mq_inv s l -> get_page o i s = Some page -> peek_index j page = Some (pos, flag, payload) ->
  exists m items k, pages_repr s o m /\ book_ok (get_book o s) m /\ m !! i = Some (items, k) /\ page_repr page items k /\
    items !! j = Some (payload, flag) /\ pos = zlen (encode_items (take j items)) /\ (pos < first page -> (j < k)%nat).
Proof.
  intros Hinv Hpage Hpeek. destruct (mq_queue _ _ Hinv o) as (m & Hm & Hok).
  destruct (pages_repr_lookup _ _ _ _ _ Hm Hpage) as ([items k] & Hi & Hp). cbn [fst snd] in Hp.
  rewrite (peek_index_repr heap_size_fits _ _ _ _ Hp) in Hpeek. apply fmap_Some in Hpeek as ([a b] & Hj & [= -> -> ->]).
  exists m, items, k. split_and!; try done. rewrite (repr_first _ _ _ Hp). intros Hlt.
  destruct (Nat.lt_ge_cases j k) as [|Hge]; [done|]. exfalso.
  rewrite <- (take_drop k (take j items)), take_take, Nat.min_l, encode_items_app in Hlt by done.
  unfold zlen in Hlt. rewrite length_app in Hlt. lia.
Qed.

(** Nothing is ready in a page without unprocessed messages. *)
Lemma complete_drop book m i items k :
  book_ok book m -> m !! i = Some (items, k) -> bs_begin book <= i -> zlen (unprocessed items) = 0 -> drop k items = [].
Proof.
  intros Hok Hi Hle Hz. pose proof (book_fresh _ _ Hok i _ Hi Hle) as Hf. cbn [fst snd] in Hf.
  destruct (drop k items) as [|it rest] eqn:E; [done|]. apply Forall_cons in Hf as [Hf _].
  assert (Hin : it ∈ unprocessed items).
  { apply list_elem_of_filter. split; [done|]. rewrite <- (take_drop k items), E. set_solver. }
  unfold zlen in Hz. destruct (unprocessed items); [set_solver|cbn in Hz; lia].
Qed.

(** Item [j] of page [i] was executed: it is marked, or went with its page. *)
Record executed (o : O) (i : Z) (j : nat) l s s' : Prop := {
  ex_inv : mq_inv s' l;
  ex_waiting z : waiting z s' = waiting z s;
  ex_count : message_count (get_book o s') = message_count (get_book o s) - 1;
  ex_page : get_page o i s' = None \/
    exists page pos payload, get_page o i s' = Some page /\ peek_index j page = Some (pos, true, payload);
}.

Lemma executed_agrees o i j l s s' s'' : executed o i j l s s' -> agrees s' s'' -> executed o i j l s s''.
Proof.
  intros [Hi Hw Hc Hp] Ha. split; rewrite ?(agrees_book _ _ Ha), ?(agrees_page _ _ Ha); try done.
  - by apply (agrees_inv s').
  - intros z. by rewrite (agrees_waiting s').
Qed.

(** The message is marked, and its page goes with the last message. *)
Lemma overweight_done s l o i j page pos payload s1 :
  mq_inv s l -> agrees s s1 -> get_page o i s = Some page -> peek_index j page = Some (pos, false, payload) ->
  i < bs_begin (get_book o s) \/ (i = bs_begin (get_book o s) /\ pos < first page) ->
  exists page', note_processed_at_pos pos page = Some page' /\
    let book := note_message_gone (zlen payload) (get_book o s) in
    let fin := if remaining page' =? 0
               then put_book o (with_count (saturating_sub (bs_count book) 1) book) (remove_page o i s1)
               else put_book o book (put_page o i page' s1) in
    executed o i j l s fin.
Proof.
  intros Hinv Ha Hpage Hpeek Hpos.
  destruct (peek_overweight _ _ _ _ _ _ _ _ _ Hinv Hpage Hpeek) as (m & items & k & Hm & Hok & Hi & Hp & Hj & -> & Hjk).
  destruct (note_processed_repr heap_size_fits _ _ _ _ _ Hp Hj) as (page' & Hnote & Hp'). exists page'. split; [done|].
  pose proof (counters_lookup _ _ _ _ Hok Hi) as (Hc1 & Hc2 & Hc3). cbn [fst] in Hc1, Hc2.
  destruct (unprocessed_mark items j _ Hj) as [Hu1 Hu2]. cbn [fst snd] in Hu1, Hu2.
  pose proof (zlen_nonneg (unprocessed (mark j items))). pose proof (total_size_nonneg (unprocessed (mark j items))).
  assert (Hgone : note_message_gone (zlen payload) (get_book o s) =
    with_content (message_count (get_book o s) - 1) (bs_size (get_book o s) - zlen payload) (get_book o s)).
  { unfold note_message_gone, saturating_sub. by rewrite !Z.max_r by lia. }
  rewrite Hgone. cbv zeta.
  destruct (book_ok_mark (get_book o s) m i items k j payload Hok Hi Hj ltac:(naive_solver)) as [Hok' Haw].
  set (book' := with_content _ _ (get_book o s)) in *. set (m' := <[i := (mark j items, k)]> m) in *.
  assert (Hbooks : forall b z, z <> o -> get_book z (put_book o b s1) = get_book z s).
  { intros b z Hz. rewrite get_put_book, decide_False by done. apply Ha. }
  assert (Hm1 : pages_repr (put_page o i page' s1) o m').
  { apply pages_repr_put; [by apply (agrees_pages s)|done]. }
  pose proof (agrees_head _ _ Ha) as Hhead.
  destruct (Z.eqb_spec (remaining page') 0) as [Hz|Hz].
  - assert (Hzero : zlen (unprocessed (mark j items)) = 0) by (by rewrite <- (repr_remaining _ _ _ Hp')).
    assert (Hi' : m' !! i = Some (mark j items, k)) by apply lookup_insert_eq.
    assert (Hzero' : total_size (unprocessed (mark j items)) = 0).
    { unfold zlen in Hzero. by destruct (unprocessed (mark j items)); [|cbn in Hzero; lia]. }
    destruct (book_ok_delete book' m' i _ Hok' Hi') as [Hok2 Haw2].
    { cbn. destruct Hpos as [|[]]; lia. }
    { intros Heq. eapply complete_drop; [done|exact Hi'|cbn in *; lia|done]. }
    cbn [fst snd] in Hok2, Haw2. rewrite Hzero, Hzero', !Z.sub_0_r in Hok2, Haw2. unfold saturating_sub.
    rewrite Z.max_r by (cbn; lia). set (book2 := with_count _ book').
    change (with_content _ _ _) with book2 in Hok2, Haw2.
    assert (Hself : get_book o (put_book o book2 (remove_page o i s1)) = book2) by (by rewrite get_put_book, decide_True).
    destruct (inv_update_waiting s l o (put_book o book2 (remove_page o i s1)) m (delete i m') Hinv Hm)
      as [Hinv' Hwait]; rewrite ?Hself; try done.
    + intros z n Hz'. rewrite <- (agrees_page _ _ Ha). by apply get_remove_page_ne.
    + intros z Hz'. rewrite get_put_book, decide_False by done. apply (agrees_book _ _ Ha).
    + unfold m'. rewrite delete_insert_eq. apply (pages_repr_remove s1). by apply (agrees_pages s).
    + by rewrite neighbours_put, decide_True.
    + by rewrite Haw2.
    + split; rewrite ?Hself; [done|done|done|]. left. change (get_page o i (remove_page o i s1) = None).
      by rewrite get_remove_page, decide_True.
  - assert (Hself : get_book o (put_book o book' (put_page o i page' s1)) = book') by (by rewrite get_put_book, decide_True).
    destruct (inv_update_waiting s l o (put_book o book' (put_page o i page' s1)) m m' Hinv Hm)
      as [Hinv' Hwait]; rewrite ?Hself; try done.
    + intros z n Hz'. rewrite <- (agrees_page _ _ Ha). by apply get_put_page_ne.
    + intros z Hz'. rewrite get_put_book, decide_False by done. apply (agrees_book _ _ Ha).
    + by rewrite neighbours_put, decide_True.
    + split; rewrite ?Hself; [done|done|done|]. right. exists page'. eexists _, _.
      split; [change (get_page o i (put_page o i page' s1) = Some page'); by rewrite get_put_page, decide_True|].
      rewrite (peek_index_repr heap_size_fits _ _ _ _ Hp'), (lookup_mark _ _ _ Hj). done.
Qed.

Lemma execute_overweight_spec s l o i j lim r s' :
  mq_inv s l -> overweight_quiet o i j lim s -> do_execute_overweight_inner o i j lim s = (r, s') ->
  match r with
  | Ok _ => executed o i (Z.to_nat j) l s s'
  | Err _ => agrees s s'
  | Panic => False
  end.
Proof.
  intros Hinv Hq. unfold do_execute_overweight_inner. cbv zeta.
  destruct (is_paused o s); [by intros [= <- <-]|].
  destruct (get_page o i s) as [page|] eqn:Hpage; [|by intros [= <- <-]].
  destruct (peek_index (Z.to_nat j) page) as [[[pos flag] payload]|] eqn:Hpeek; [|by intros [= <- <-]].
  destruct (negb _) eqn:Hguard; [by intros [= <- <-]|].
  destruct flag; [by intros [= <- <-]|].
  destruct (process_message_payload o i j payload (Meter.with_limit lim) WeightV2.MAX s) as [[status w1] s1] eqn:Hproc.
  pose proof (Hq _ _ _ Hpage Hpeek) as Ha. rewrite Hproc in Ha. cbn [snd] in Ha.
  destruct (overweight_done s l o i (Z.to_nat j) page pos payload s1 Hinv Ha Hpage Hpeek) as (page' & Hnote & Hfin).
  { apply negb_false_iff, orb_true_iff in Hguard as [Hg%Z.ltb_lt|[Hg1%Z.eqb_eq Hg2%Z.ltb_lt]%andb_true_iff]; auto. }
  rewrite Hnote. cbv zeta in Hfin.
  destruct status as [| | |[]|]; try (by intros [= <- <-]); destruct (remaining page' =? 0); intros [= <- <-];
    apply (executed_agrees _ _ _ _ _ _ _ Hfin), on_queue_changed_agrees.
Qed.
End ops.
