(* ===== verification/MqFootprint.v ===== *)
(** * Footprints of batches

    [get_batches_footprints] of [substrate/frame/message-queue/src/lib.rs] tells,
    without enqueueing, how many pages each prefix of a list of messages would
    add; the xcmp-queue pallet relies on it to bound what it enqueues.  It is
    shown to agree with [do_enqueue_messages]. *)

From stdpp Require Import base option numbers list gmap.
From Stdlib Require Import ZArith Lia.
From S2P Require Import Prelude Codec Weights MqPage MessageQueue MqRing MqInv.
Local Open Scope Z_scope.

Section footprints.
Context {O X : Type} `{Countable O} `{HC : HeaderCodec, HL : !HeaderLaws HC, HS : HeapSize} `{!Config O X}.
Implicit Types (s : Storage O X) (book : BookState O) (l : list O) (msg : bytes).

Hypothesis heap_size_fits : heap_size <= umax size_bits.
Hypothesis heap_size_header : Z.of_nat header_len <= heap_size.

(** The state of the enqueueing loop after some messages. *)
Definition enqueue_start (o : O) s : BookState O * option Page * Storage O X :=
  let book := get_book o s in
  (book, if bs_begin book <? bs_end book then get_page o (bs_end book - 1) s else None, s).

Definition enqueue_fold (o : O) (ms : list bytes) s : BookState O * option Page * Storage O X :=
  foldl (fun st m => enqueue_one o m st) (enqueue_start o s) ms.

(** The page number after the last page. *)
Definition end_after (o : O) (ms : list bytes) s : Z := bs_end (enqueue_fold o ms s).1.1.

Lemma do_enqueue_end o ms s : bs_end (get_book o (do_enqueue_messages o ms s)) = end_after o ms s.
Proof.
  unfold do_enqueue_messages, end_after, enqueue_fold, enqueue_start. cbv zeta.
  destruct (foldl _ _ ms) as [[book mp] s1]. cbn [fst snd].
  destruct (ready_neighbours book); [by rewrite get_put_book, decide_True|].
  destruct (ready_ring_knit o _) as [s2 [n|]]; by rewrite get_put_book, decide_True.
Qed.

Lemma enqueue_fold_snoc o ms msg s : enqueue_fold o (ms ++ [msg]) s = enqueue_one o msg (enqueue_fold o ms s).
Proof. unfold enqueue_fold. by rewrite foldl_app. Qed.

Lemma can_append_spec pos len :
  0 <= pos <= heap_size -> 0 <= len <= umax 32 ->
  can_append_message_at pos len =
    if pos + Z.of_nat header_len + len <=? heap_size then Some (pos + Z.of_nat header_len + len) else None.
Proof.
  intros Hpos Hlen. pose proof (heap_size_32 heap_size_fits heap_size_header) as Hh.
  unfold can_append_message_at, saturating_add. change (umax 32) with 4294967295 in *. change (umax 64) with 18446744073709551615.
  rewrite (Z.min_r _ (Z.of_nat header_len + len)) by lia. rewrite Z.min_r by lia. by rewrite Z.add_assoc.
Qed.

Lemma heap_pos_repr p items k : page_repr p items k -> heap_pos p = zlen (encode_items items) /\ 0 <= heap_pos p <= heap_size.
Proof.
  intros Hp. unfold heap_pos. pose proof (repr_bound _ _ _ Hp). rewrite (repr_heap _ _ _ Hp) in *.
  split; [done|]. unfold zlen in *. lia.
Qed.

Lemma encode_snoc items msg :
  zlen (encode_items (items ++ [(msg, false)])) = zlen (encode_items items) + Z.of_nat header_len + zlen msg.
Proof.
  rewrite encode_items_app, encode_items_cons, app_nil_r. unfold zlen. rewrite length_app, length_encode_item. cbn [fst]. lia.
Qed.

(** Where the next message would go, and whether a page is in progress. *)
Definition page_pos (st : BookState O * option Page * Storage O X) : Z :=
  match st.1.2 with Some p => heap_pos p | None => heap_size end.

(** A message goes to the page in progress when it fits, and to a new one
    otherwise. *)
Lemma enqueue_one_position o s0 m0 dn st msg :
  enqueueing o s0 m0 dn st -> zlen msg <= max_message_len -> bs_end st.1.1 < umax 32 ->
  match can_append_message_at (page_pos st) (zlen msg) with
  | Some new_pos => bs_end (enqueue_one o msg st).1.1 = bs_end st.1.1 /\ page_pos (enqueue_one o msg st) = new_pos
  | None => bs_end (enqueue_one o msg st).1.1 = bs_end st.1.1 + 1 /\
      can_append_message_at 0 (zlen msg) = Some (page_pos (enqueue_one o msg st))
  end.
Proof.
  destruct st as [[book mp] s]. intros [eb (m & Hm & Hb & _) Hpage _ _ _ _ _ _] Hmsg Hroom.
  cbn [fst snd] in *. subst eb. pose proof (max_message_len_bound heap_size_fits heap_size_header msg Hmsg) as Hlen.
  pose proof (from_message_repr heap_size_fits heap_size_header msg Hmsg) as Hfrom.
  destruct (heap_pos_repr _ _ _ Hfrom) as [Hpos0 Hpos0']. rewrite (encode_snoc [] msg : zlen (encode_items [(msg, false)]) = _) in Hpos0.
  change (zlen (encode_items [])) with 0 in Hpos0.
  assert (Hnew : bs_end (enqueue_one o msg (book, None, s)).1.1 = bs_end book + 1).
  { cbn. unfold saturating_add. lia. }
  assert (Hat0 : can_append_message_at 0 (zlen msg) = Some (heap_pos (from_message msg))).
  { rewrite can_append_spec by lia. rewrite <- Hpos0. destruct (Z.leb_spec (heap_pos (from_message msg)) heap_size); [done|lia]. }
  destruct mp as [page|]; cbn [page_pos fst snd].
  - destruct (pages_repr_lookup _ _ _ (bs_end book - 1) page Hm) as ([items k] & Hi & Hp).
    { cbn [flushed]. by rewrite get_put_page, decide_True. }
    cbn [fst snd] in Hp. destruct (heap_pos_repr _ _ _ Hp) as [Hpos Hpos'].
    pose proof (try_append_repr heap_size_fits heap_size_header msg page items k Hp) as Hrepr.
    assert (Happ : try_append_message msg page = None <-> can_append_message_at (heap_pos page) (zlen msg) = None).
    { unfold try_append_message. by destruct (can_append_message_at (heap_pos page) (zlen msg)). }
    destruct (can_append_message_at (heap_pos page) (zlen msg)) as [new_pos|] eqn:Hcan.
    + destruct (try_append_message msg page) as [page'|] eqn:Htry; [|discriminate (proj1 Happ eq_refl)].
      unfold enqueue_one. rewrite Htry. cbn [fst snd bs_end with_content]. split; [done|].
      specialize (Hrepr ltac:(change (umax 32) with 4294967295 in *; unfold umax; lia)).
      change (heap_pos page' = new_pos).
      destruct (heap_pos_repr _ _ _ Hrepr) as [-> _]. rewrite encode_snoc, <- Hpos.
      rewrite can_append_spec in Hcan by lia. by destruct (_ <=? _); [injection Hcan as <-|].
    + assert (Htry : try_append_message msg page = None) by (by apply Happ).
      unfold enqueue_one in *. rewrite Htry. done.
  - rewrite can_append_spec by lia. pose proof header_len_pos.
    destruct (Z.leb_spec (heap_size + Z.of_nat header_len + zlen msg) heap_size); [lia|]. done.
Qed.

Lemma enqueue_fold_spec o s l ms :
  mq_inv s l -> bounded ms -> bs_end (get_book o s) + zlen ms <= umax 32 ->
  exists m0, enqueueing o s m0 ms (enqueue_fold o ms s).
Proof.
  intros Hinv Hms Hroom. destruct (mq_queue _ _ Hinv o) as (m0 & Hm0 & Hb0). exists m0.
  apply (enqueue_all heap_size_fits heap_size_header o s m0 ms [] _
    (enqueueing_start heap_size_fits o s m0 Hm0 Hb0) Hms).
  unfold zlen at 1. cbn [length]. lia.
Qed.

(** The total size of the first messages. *)
Definition batch_size (ms : list bytes) : Z := foldr (fun msg n => zlen msg + n) 0 ms.

(** What [get_batches_footprints] should say of the first [n] messages. *)
Definition batch_of (o : O) (msgs : list bytes) s (n : nat) : BatchFootprint :=
  mkBatch (Z.of_nat n) (batch_size (take n msgs)) (end_after o (take n msgs) s - bs_end (get_book o s)).

Section batches.
Context (o : O) s l (msgs : list bytes) (limit : Z).
Hypothesis Hinv : mq_inv s l.
Hypothesis Hmsgs : bounded msgs.
Hypothesis Hroom : bs_end (get_book o s) + zlen msgs < umax 32.
Hypothesis Hlimit : is_uint 32 limit.

Abbreviation book0 := (get_book o s).
Abbreviation ends n := (end_after o (take n msgs) s).

Lemma prefix_spec n :
  exists m0, enqueueing o s m0 (take n msgs) (enqueue_fold o (take n msgs) s).
Proof.
  eapply enqueue_fold_spec; [done|by apply Forall_take|].
  unfold zlen in *. rewrite length_take. lia.
Qed.

Lemma ends_bound n : bs_end book0 <= ends n <= bs_end book0 + Z.of_nat n /\ ends n < umax 32.
Proof.
  destruct (prefix_spec n) as [m0 He]. pose proof (enq_end _ _ _ _ _ He) as Hb.
  unfold enq_book, end_after, zlen in *. rewrite length_take in Hb. lia.
Qed.

(** The next message. *)
Lemma ends_step n msg :
  msgs !! n = Some msg ->
  let st := enqueue_fold o (take n msgs) s in
  match can_append_message_at (page_pos st) (zlen msg) with
  | Some new_pos => ends (S n) = ends n /\ page_pos (enqueue_fold o (take (S n) msgs) s) = new_pos
  | None => ends (S n) = ends n + 1 /\
      can_append_message_at 0 (zlen msg) = Some (page_pos (enqueue_fold o (take (S n) msgs) s))
  end.
Proof.
  intros Hn st. destruct (prefix_spec n) as [m0 He]. pose proof (ends_bound n) as [_ Hlt].
  unfold end_after. rewrite (take_S_r msgs n msg Hn), enqueue_fold_snoc. fold st in He |- *.
  apply (enqueue_one_position o s m0 (take n msgs)); [done| |exact Hlt].
  apply (Forall_lookup_1 _ _ _ _ Hmsgs Hn).
Qed.

Lemma ends_mono n k : (n <= k)%nat -> ends n <= ends k.
Proof.
  induction 1 as [|k _ IH]; [done|]. destruct (msgs !! k) as [msg|] eqn:Hk.
  - pose proof (ends_step k msg Hk) as Hs. cbv zeta in Hs. destruct (can_append_message_at _ _); lia.
  - apply lookup_ge_None in Hk. rewrite (take_ge msgs (S k)) by lia. rewrite (take_ge msgs k) in IH by lia. done.
Qed.

Lemma book_window_end : 0 <= bs_end book0.
Proof. destruct (mq_queue _ _ Hinv o) as (m & _ & Hok). pose proof (book_window _ _ Hok). lia. Qed.

Lemma batch_size_snoc ms msg : batch_size (ms ++ [msg]) = batch_size ms + zlen msg.
Proof. induction ms as [|x ms IH]; cbn; [lia|]. fold (batch_size ms) (batch_size (ms ++ [msg])). lia. Qed.

Lemma batch_size_concat ms : batch_size ms = zlen (concat ms).
Proof. induction ms as [|x ms IH]; cbn; [done|]. fold (batch_size ms). rewrite IH. unfold zlen. rewrite length_app. lia. Qed.

Lemma batch_size_bound ms : bounded ms -> 0 <= batch_size ms <= zlen ms * umax 32.
Proof.
  induction 1 as [|msg ms Hmsg _ IH]; [done|]. pose proof (max_message_len_bound heap_size_fits heap_size_header msg Hmsg).
  cbn [batch_size foldr]. fold (batch_size ms). unfold zlen in *. cbn [length]. lia.
Qed.

(** The footprints collected so far are those of the prefixes. *)
Record collecting (st : list bytes * bool * Z * Z * BatchesFootprints) : Prop := {
  col_n : nat := length (footprints st.2);
  col_rest : st.1.1.1.1 = drop col_n msgs;
  col_le : (col_n <= length msgs)%nat;
  col_batches : footprints st.2 = batch_of o msgs s <$> seq 1 col_n;
  col_within : (0 < col_n)%nat -> ends col_n - bs_begin book0 <= limit;
  col_page : if st.1.1.1.2 : bool
    then st.1.2 = 0 /\ st.1.1.2 = ends col_n - bs_begin book0 + 1 /\
      (forall msg, msgs !! col_n = Some msg ->
         can_append_message_at (page_pos (enqueue_fold o (take col_n msgs) s)) (zlen msg) = None) /\ (col_n < length msgs)%nat
    else st.1.2 = page_pos (enqueue_fold o (take col_n msgs) s) /\ st.1.1.2 = ends col_n - bs_begin book0;
}.

Lemma push_batch b n msg new_page :
  footprints b = batch_of o msgs s <$> seq 1 n -> msgs !! n = Some msg ->
  ends (S n) = ends n + (if new_page : bool then 1 else 0) ->
  footprints (push msg new_page b) = batch_of o msgs s <$> seq 1 (S n).
Proof.
  intros Hb Hn Hends. unfold push. cbn [footprints]. rewrite Hb, seq_S, fmap_app. f_equal. cbn [fmap list_fmap].
  pose proof (lookup_lt_Some _ _ _ Hn) as Hlt. pose proof (ends_bound n) as [Hb1 Hb2]. pose proof (ends_bound (S n)) as [Hb3 Hb4].
  assert (Hlast : default (mkBatch 0 0 0) (list.last (batch_of o msgs s <$> seq 1 n)) = batch_of o msgs s n).
  { destruct n as [|n].
    - cbn. unfold batch_of. cbn [take batch_size foldr]. f_equal. cbn in Hb1. lia.
    - rewrite seq_S, fmap_app. cbn [fmap list_fmap]. by rewrite last_snoc. }
  rewrite Hlast. change (1 + n)%nat with (S n). unfold batch_of. cbn [msgs_count size_in_bytes new_pages_count].
  assert (Hsize : batch_size (take (S n) msgs) = batch_size (take n msgs) + zlen msg).
  { by rewrite (take_S_r msgs n msg Hn), batch_size_snoc. }
  assert (Hbound : 0 <= batch_size (take (S n) msgs) <= umax 64).
  { pose proof (batch_size_bound (take (S n) msgs) (Forall_take _ _ _ Hmsgs)) as [? ?].
    split; [done|]. unfold zlen in *. rewrite length_take in *.
    pose proof (book_window_end) as Hw. change (umax 32) with 4294967295 in *. change (umax 64) with 18446744073709551615. lia. }
  do 2 f_equal.
  - unfold saturating_add. unfold zlen in *. change (umax 32) with 4294967295 in *. change (umax 64) with 18446744073709551615.
    pose proof book_window_end. lia.
  - unfold saturating_add. lia.
  - unfold saturating_add. destruct new_page; [|lia]. pose proof book_window_end. lia.
Qed.

(** The footprints are those of the prefixes whose ready pages fit the limit. *)
Definition collected (b : BatchesFootprints) : Prop :=
  let n := length (footprints b) in
  footprints b = batch_of o msgs s <$> seq 1 n /\ (n <= length msgs)%nat /\
  ((0 < n)%nat -> ends n - bs_begin book0 <= limit) /\ ((n < length msgs)%nat -> limit < ends (S n) - bs_begin book0).

Definition rounds_left (st : list bytes * bool * Z * Z * BatchesFootprints) : Z :=
  2 * zlen st.1.1.1.1 + (if st.1.1.1.2 : bool then 0 else 1).

Lemma footprints_step_spec st :
  collecting st ->
  match footprints_step limit st with
  | inl st' => collecting st' /\ rounds_left st' < rounds_left st
  | inr b => collected b
  end.
Proof.
  destruct st as [[[[rest new_page] total] pos] b]. intros [n Hrest Hle Hb Hwithin Hpage].
  unfold footprints_step. cbn [fst snd] in *. subst n. set (n := length (footprints b)) in *.
  destruct rest as [|msg rest].
  { split; [done|]. split; [done|]. split; [done|]. fold n. apply (f_equal length) in Hrest.
    rewrite length_drop in Hrest. cbn in Hrest. lia. }
  assert (Hn : msgs !! n = Some msg).
  { rewrite <- (Nat.add_0_r n), <- lookup_drop, <- Hrest. done. }
  assert (Hrest' : rest = drop (S n) msgs) by (rewrite (drop_S msgs msg n Hn) in Hrest; by injection Hrest).
  pose proof (lookup_lt_Some _ _ _ Hn) as Hlt. pose proof (ends_step n msg Hn) as Hstep. cbv zeta in Hstep.
  pose proof (ends_bound n) as [Hb1 Hb2]. pose proof (ends_mono n (S n) ltac:(lia)) as Hmono.
  destruct (mq_queue _ _ Hinv o) as (m & _ & Hok). pose proof (book_window _ _ Hok) as Hw. clear m Hok.
  assert (Hpush : forall np : bool, ends (S n) = ends n + (if np then 1 else 0) -> ends (S n) - bs_begin book0 <= limit ->
    collecting (rest, false, ends (S n) - bs_begin book0, page_pos (enqueue_fold o (take (S n) msgs) s), push msg np b)).
  { intros np Hends Hlim. pose proof (push_batch b n msg np Hb Hn Hends) as Hfp.
    assert (Hlen : length (footprints (push msg np b)) = S n) by (by rewrite Hfp, length_fmap, length_seq).
    split; cbn [fst snd]; rewrite ?Hlen; try done. }
  destruct (Z.ltb_spec limit total) as [Hlim|Hlim].
  { split; [done|]. split; [done|]. split; [done|]. intros _. fold n. destruct new_page.
    - destruct Hpage as (_ & -> & Hno & _). rewrite (Hno msg Hn) in Hstep. lia.
    - destruct Hpage as [_ ->]. lia. }
  assert (Hrounds : zlen (msg :: rest) = zlen rest + 1) by (unfold zlen; cbn; lia).
  destruct new_page.
  - destruct Hpage as (-> & -> & Hno & _). rewrite (Hno msg Hn) in Hstep. destruct Hstep as [Hends ->].
    unfold rounds_left. cbn [fst snd]. split; [|lia].
    replace (ends n - bs_begin book0 + 1) with (ends (S n) - bs_begin book0) in * by lia. by apply Hpush.
  - destruct Hpage as [-> ->]. unfold rounds_left.
    destruct (can_append_message_at _ _) as [new_pos|] eqn:Hcan; cbn [fst snd].
    + destruct Hstep as [Hends <-]. split; [|lia]. rewrite <- Hends in *. apply Hpush; lia.
    + split; [|lia]. split; cbn [fst snd]; try done. split_and!; [done| | |done].
      * fold n. unfold wrapping. rewrite Z.mod_small; [done|]. unfold umax in *. lia.
      * intros msg' Hn'. fold n in Hn' |- *. by simplify_eq.
Qed.

Lemma get_batches_footprints_spec : exists b, get_batches_footprints o msgs limit s = Some b /\ collected b.
Proof.
  destruct (mq_queue _ _ Hinv o) as (m & _ & Hok). pose proof (book_window _ _ Hok) as Hw. clear m Hok.
  unfold get_batches_footprints. cbv zeta.
  assert (Hstart : let '(total, pos, b) :=
      if bs_begin book0 <? bs_end book0 then
        match get_page o (bs_end book0 - 1) s with
        | Some page => (bs_end book0 - bs_begin book0, heap_pos page, mkBatches (heap_pos page) [])
        | None => (bs_end book0 - bs_begin book0, heap_size, mkBatches 0 [])
        end
      else (0, heap_size, mkBatches 0 []) in collecting (msgs, false, total, pos, b)).
  { destruct (Z.ltb_spec (bs_begin book0) (bs_end book0)) as [Hlt|Hge]; [destruct (get_page o (bs_end book0 - 1) s) eqn:Hp|];
      (split; cbn [fst snd footprints length]; [done|lia|done|lia|]);
      unfold page_pos, end_after, enqueue_fold, enqueue_start; rewrite !take_0; cbn [foldl fst snd];
      destruct (Z.ltb_spec (bs_begin book0) (bs_end book0)); rewrite ?Hp; (split; [done|lia]) || lia. }
  destruct (if bs_begin book0 <? bs_end book0 then _ else _) as [[total pos] b0].
  destruct (loop_total collecting collected rounds_left (footprints_step limit) service_fuel (msgs, false, total, pos, b0))
    as (b & -> & Hb).
  - intros [[[[rest []] ?] ?] ?] _; unfold rounds_left, zlen; cbn [fst snd]; lia.
  - apply footprints_step_spec.
  - done.
  - unfold rounds_left. cbn [fst snd]. change (Z.pos service_fuel) with (2 ^ 66). unfold umax in *. lia.
  - by exists b.
Qed.
End batches.

(** The footprints, in terms of what enqueueing the prefixes does. *)
Lemma footprints_of_prefixes s l o msgs limit :
  mq_inv s l -> bounded msgs -> bs_end (get_book o s) + zlen msgs < umax 32 -> is_uint 32 limit ->
  let after n := get_book o (do_enqueue_messages o (take n msgs) s) in
  exists b k, get_batches_footprints o msgs limit s = Some b /\ (k <= length msgs)%nat /\
    footprints b = (fun n => mkBatch (Z.of_nat n) (batch_size (take n msgs)) (bs_end (after n) - bs_end (get_book o s)))
      <$> seq 1 k /\
    forall n, (1 <= n <= length msgs)%nat -> (n <= k)%nat <-> fp_ready_pages (footprint_of (after n)) <= limit.
Proof.
  intros Hinv Hms Hroom Hlim after.
  destruct (get_batches_footprints_spec o s l msgs limit Hinv Hms Hroom)
    as (b & E & Hb & Hk & Hin & Hout).
  assert (Hend : forall n, bs_end (after n) = end_after o (take n msgs) s) by (intros; apply do_enqueue_end).
  assert (Hbegin : forall n, bs_begin (after n) = bs_begin (get_book o s)).
  { intros n. apply (do_enqueue_messages_spec heap_size_fits heap_size_header s l o (take n msgs) Hinv).
    - by apply Forall_take.
    - unfold zlen in *. rewrite length_take. lia. }
  pose proof (ends_mono o s l msgs Hinv Hms Hroom) as Hmono.
  exists b, (length (footprints b)). split_and!; [done|done| |].
  - rewrite Hb at 1. apply list_fmap_ext. intros i n Hn. unfold batch_of. by rewrite Hend.
  - intros n Hn. cbn [footprint_of fp_ready_pages]. rewrite Hend, Hbegin. unfold saturating_sub. unfold is_uint in Hlim.
    split; intros Hle.
    + specialize (Hin ltac:(lia)). specialize (Hmono n (length (footprints b)) Hle). lia.
    + destruct (Nat.le_gt_cases n (length (footprints b))) as [|Hgt]; [done|]. specialize (Hout ltac:(lia)).
      specialize (Hmono (S (length (footprints b))) n ltac:(lia)). lia.
Qed.

(** The position reported is one in a page. *)
Lemma footprints_pos s l o msgs limit b :
  mq_inv s l -> get_batches_footprints o msgs limit s = Some b -> 0 <= first_page_pos b <= heap_size.
Proof.
  intros Hinv. unfold get_batches_footprints. cbv zeta. pose proof (heap_size_32 heap_size_fits heap_size_header) as [Hh _].
  assert (Hpage : forall i page, get_page o i s = Some page -> 0 <= heap_pos page <= heap_size).
  { intros i page Hp. destruct (mq_queue _ _ Hinv o) as (m & Hm & _). specialize (Hm i). rewrite Hp in Hm.
    inversion Hm as [? a Hrepr|]; subst. pose proof (repr_bound _ _ _ Hrepr). unfold heap_pos, zlen in *. lia. }
  assert (Hloop : forall total pos b0, 0 <= first_page_pos b0 <= heap_size ->
    match loop service_fuel (footprints_step limit) (msgs, false, total, pos, b0) with
    | inr batches => Some batches
    | inl _ => None
    end = Some b -> 0 <= first_page_pos b <= heap_size).
  { intros total pos b0 H0 E.
    pose proof (loop_keeps (fun st : list bytes * bool * Z * Z * BatchesFootprints => 0 <= first_page_pos st.2 <= heap_size)
      (fun b => 0 <= first_page_pos b <= heap_size) (footprints_step limit)) as Hk.
    specialize (Hk ltac:(intros [[[[[|msg rest] np] t] p] b1] H1; cbn [footprints_step snd] in *; repeat case_match; simplify_eq; done)
      service_fuel (msgs, false, total, pos, b0) H0).
    destruct (loop _ _ _); [done|by injection E as <-]. }
  destruct (bs_begin _ <? _); [destruct (get_page o _ s) as [page|] eqn:Hp|]; apply Hloop; cbn [first_page_pos];
    [by eapply Hpage|lia|lia].
Qed.
End footprints.
