(* ===== verification/MqProofs.v ===== *)
(** * Correctness of the message queue

    The theorems on [substrate/frame/message-queue/src/lib.rs], put together from
    [MqInv.v], [MqService.v] and [MqFootprint.v], with a small configuration
    that shows their hypotheses can hold, and the corner cases found on the way. *)

From stdpp Require Import base option numbers list gmap.
From Stdlib Require Import ZArith Lia.
From Stdlib Require Import Strings.Byte.
From S2P Require Import Prelude Codec Weights MqPage MessageQueue MqRing MqInv MqService MqFootprint.
Local Open Scope Z_scope.

Section claims.
Context {O X : Type} `{Countable O} `{HC : HeaderCodec, HL : !HeaderLaws HC, HS : HeapSize} `{!Config O X}.
Implicit Types (s : Storage O X) (o : O).

Hypothesis heap_size_fits : heap_size <= umax size_bits.
Hypothesis heap_size_header : Z.of_nat header_len <= heap_size.

(** ** The life of the pallet *)

Inductive mq_op : Type :=
| OpEnqueue (o : O) (ms : list bytes)
| OpService (limit : WeightV2.Weight)
| OpOverweight (o : O) (page index : Z) (limit : WeightV2.Weight)
| OpReap (o : O) (page : Z)
| OpSweep (o : O)
| OpSetHead (weight : Meter.WeightMeter) (o : O).

(** The state a call leaves; [None] if it panics. *)
Definition settled {E A : Type} (x : outcome E A * Storage O X) : option (Storage O X) :=
  match x.1 with
  | Panic => None
  | _ => Some x.2
  end.

(** The calls come from outside, so nobody holds the mutex. *)
Definition mq_step (op : mq_op) s : option (Storage O X) :=
  match op with
  | OpEnqueue o ms => Some (enqueue_messages ms o s)
  | OpService limit => snd <$> service_queues false limit s
  | OpOverweight o page index limit => settled (do_execute_overweight false o page index limit s)
  | OpReap o page => settled (do_reap_page false o page s)
  | OpSweep o => Some (sweep_queue o s)
  | OpSetHead weight o => Some (set_service_head weight o s).1.2
  end.

(** Messages have at most the maximal length and there are page numbers left for
    them; the processor enqueues nothing while it executes the overweight message
    at hand; and [MaxStale] is a [u32] whose successor is one. *)
Definition op_guard (op : mq_op) s : Prop :=
  match op with
  | OpEnqueue o ms => bounded ms /\ bs_end (get_book o s) + zlen ms <= umax 32
  | OpService limit => wf_weight limit
  | OpOverweight o page index limit => overweight_quiet o page index limit s
  | OpReap _ _ => 0 <= MaxStale < umax 32
  | _ => True
  end.

Inductive mq_reachable : Storage O X -> Prop :=
| reachable_start events rest : mq_reachable (mkStorage ∅ None ∅ events rest)
| reachable_step s op s' : mq_reachable s -> op_guard op s -> mq_step op s = Some s' -> mq_reachable s'.

Lemma set_service_head_inv s l weight o :
  mq_inv s l -> exists l', mq_inv (set_service_head weight o s).1.2 l'.
Proof.
  intros Hinv. destruct (consumes weight (w_set_service_head weights)) as [w|] eqn:Hw.
  2: { exists l. unfold set_service_head. by rewrite Hw. }
  destruct (set_service_head_spec weight s l o w (mq_ring _ _ Hinv) Hw) as (s' & r & -> & [Hp _ _ Hb] & _ & l' & Hr & Hperm & _).
  destruct Hinv as [_ Hlisted Hqueue]. exists l'. cbn [fst snd]. split; [done|..].
  - intros z. rewrite Hb. cbn. intros Hz%Hlisted. by rewrite Hperm.
  - intros z. destruct (Hqueue z) as (m & Hm & Hok). exists m. rewrite Hb.
    split; [|by apply book_ok_neighbours]. apply (pages_repr_ext s); [|done]. intros i. unfold get_page. by rewrite Hp.
Qed.

(** The stale pages of a queue as [do_reap_page] counts them. *)
Definition stale_pages (book : BookState O) : Z :=
  bs_count book - Z.min (saturating_sub (bs_end book) (bs_begin book)) (bs_count book).

Lemma cullable_spec i (book : BookState O) :
  1 <= MaxStale < 2 ^ 16 -> 0 <= bs_begin book <= bs_end book -> is_uint 32 (bs_count book) ->
  2 * MaxStale <= stale_pages book -> cullable i book = Some (i <? saturating_sub (bs_begin book) MaxStale).
Proof.
  intros Hmax Hw Hc Hstale. unfold cullable. cbv zeta. fold (stale_pages book).
  assert (Hle : stale_pages book <= bs_count book) by (unfold stale_pages, saturating_sub in *; lia).
  unfold is_uint, umax in Hc. generalize dependent (stale_pages book). intros n Hn Hle.
  unfold wrapping. rewrite (Z.mod_small (MaxStale + 1)) by lia. unfold checked_sub.
  destruct (Z.leb_spec (MaxStale + 1) n); [|lia].
  rewrite (Z.mod_small (n - (MaxStale + 1) + 1)), (Z.mod_small (MaxStale * MaxStale)) by nia.
  destruct (Z.eqb_spec (n - (MaxStale + 1) + 1) 0); [lia|]. do 2 f_equal.
  assert (Hdiv : MaxStale * MaxStale / (n - (MaxStale + 1) + 1) <= MaxStale).
  { apply Z.div_le_upper_bound; nia. }
  by rewrite Z.max_r.
Qed.

Lemma cullable_returns i (book : BookState O) :
  0 <= MaxStale < umax 32 -> 0 <= bs_begin book <= bs_end book -> is_uint 32 (bs_count book) -> cullable i book <> None.
Proof.
  intros Hmax Hw Hc. unfold cullable. cbv zeta. fold (stale_pages book).
  assert (Hle : 0 <= stale_pages book <= bs_count book) by (unfold stale_pages, saturating_sub, is_uint in *; lia).
  generalize dependent (stale_pages book). intros n Hle. unfold is_uint in Hc. change (umax 32) with 4294967295 in *.
  unfold wrapping. rewrite (Z.mod_small (MaxStale + 1)) by lia. unfold checked_sub.
  destruct (Z.leb_spec (MaxStale + 1) n); [|done]. rewrite (Z.mod_small (n - (MaxStale + 1) + 1)) by lia.
  by destruct (Z.eqb_spec (n - (MaxStale + 1) + 1) 0); [lia|].
Qed.

Lemma do_reap_page_no_panic s l o i :
  mq_inv s l -> 0 <= MaxStale < umax 32 -> (do_reap_page_inner o i s).1 <> Panic.
Proof.
  intros Hinv Hmax. destruct (mq_queue _ _ Hinv o) as (m & Hm & Hok).
  pose proof (book_counters heap_size_header s o m _ Hm Hok) as (Hc & _). pose proof (book_window _ _ Hok) as Hw.
  unfold do_reap_page_inner. cbv zeta. destruct (negb _); [done|]. destruct (get_page o i s) as [page|]; [|done].
  pose proof (cullable_returns i (get_book o s) Hmax ltac:(lia) ltac:(unfold is_uint; lia)) as Hcull.
  destruct (remaining page =? 0); [done|]. by destruct (cullable i (get_book o s)) as [[]|].
Qed.

Context `{QH : !QuietHandler, PL : !ProcessorLaws, WL : !WeightLaws}.

Lemma mq_step_ok op s l :
  mq_inv s l -> op_guard op s -> exists s' l', mq_step op s = Some s' /\ mq_inv s' l'.
Proof.
  intros Hinv Hg. destruct op as [o ms|limit|o page index limit|o page|o|weight o]; cbn [mq_step op_guard] in *.
  - destruct Hg as [Hms Hroom].
    destruct (do_enqueue_messages_spec heap_size_fits heap_size_header s l o ms Hinv Hms Hroom) as [_ Hinv'].
    eexists _, _. split; [done|]. unfold enqueue_messages. cbv zeta. eapply agrees_inv; [apply on_queue_changed_agrees|done].
  - destruct (service_queues_impl_spec heap_size_fits heap_size_header limit s l Hinv Hg) as (used & s' & E & (l' & Hinv') & _).
    exists s', l'. unfold service_queues. by rewrite E.
  - unfold do_execute_overweight. cbn [with_service_mutex].
    destruct (do_execute_overweight_inner o page index limit s) as [r s'] eqn:E.
    pose proof (execute_overweight_spec heap_size_fits heap_size_header s l o page index limit r s' Hinv Hg E) as Hr.
    exists s', l. destruct r as [w|e|]; [split; [done|by apply Hr]|split; [done|by apply (agrees_inv s)]|done].
  - unfold do_reap_page. cbn [with_service_mutex]. destruct (do_reap_page_inner o page s) as [r s'] eqn:E.
    exists s', l. split; [|by apply (do_reap_page_inner_spec heap_size_fits s l o page r s' Hinv E)].
    pose proof (do_reap_page_no_panic s l o page Hinv Hg) as Hp. rewrite E in Hp. by destruct r.
  - destruct (sweep_queue_spec heap_size_fits heap_size_header s l o Hinv) as (l' & Hinv' & _). by exists (sweep_queue o s), l'.
  - destruct (set_service_head_inv s l weight o Hinv) as [l' Hinv']. by eexists _, l'.
Qed.

Lemma reachable_inv s : mq_reachable s -> exists l, mq_inv s l.
Proof.
  induction 1 as [events rest|s op s' _ [l Hinv] Hg E]; [eexists; apply mq_ok_start|].
  destruct (mq_step_ok op s l Hinv Hg) as (s1 & l1 & E1 & Hinv1). simplify_eq. by exists l1.
Qed.

(** ** Claims *)

(** C4: the message queue keeps its books.  Whatever is enqueued, serviced,
    executed as overweight, reaped, swept or moved to the head, every call
    within its guard ends without a panic.  The guards: messages are within the
    maximal length and there are page numbers left for them, the successor of
    [MaxStale] is a [u32], and the processor, which may enqueue messages while a
    queue is serviced, enqueues none while it executes an overweight message
    ([overweight_reentry_strands_queue] shows what happens otherwise).  Afterwards
    the pages of each queue hold a list of messages whose number and
    size the book counts exactly, its ready pages are all there (but for a
    first one emptied by [execute_overweight]), and the ready queues form one
    ring. *)
Theorem message_queue_invariant s op :
  mq_reachable s -> op_guard op s ->
  exists s' l, mq_step op s = Some s' /\ queue_ring s' l /\
    forall o, exists m, pages_repr s' o m /\ book_ok (get_book o s') m /\
      waiting o s' = awaiting (get_book o s') m /\ (waiting o s' <> [] -> o ∈ l).
Proof.
  intros Hr Hg. destruct (reachable_inv s Hr) as [l Hinv].
  destruct (mq_step_ok op s l Hinv Hg) as (s' & l' & E & Hinv'). exists s', l'. split; [done|]. split; [apply Hinv'|].
  intros o. destruct (mq_queue _ _ Hinv' o) as (m & Hm & Hok). exists m. split_and!; try done.
  - by apply waiting_repr.
  - intros Hw. destruct (decide (o ∈ l')) as [|Ho]; [done|]. by rewrite (not_listed _ _ _ Hinv' Ho) in Hw.
Qed.

(** C21: enqueueing is first in, first out.  The messages go behind those that
    wait in the queue, in their order, none is lost or cut, the other queues
    keep theirs, the count goes up by their number, and the queue enters the
    ring at its end unless it is in it. *)
Theorem enqueue_is_fifo s o ms :
  mq_reachable s -> bounded ms -> bs_end (get_book o s) + zlen ms <= umax 32 ->
  let s' := enqueue_messages ms o s in
  waiting o s' = waiting o s ++ ms /\ (forall z, z <> o -> waiting z s' = waiting z s) /\
  message_count (get_book o s') = message_count (get_book o s) + zlen ms /\
  exists l, queue_ring s l /\ queue_ring s' (if decide (o ∈ l) then l else l ++ [o]).
Proof.
  intros Hr Hms Hroom s'. destruct (reachable_inv s Hr) as [l Hinv].
  destruct (do_enqueue_messages_spec heap_size_fits heap_size_header s l o ms Hinv Hms Hroom) as [He Hinv'].
  assert (Ha : agrees (do_enqueue_messages o ms s) s') by apply on_queue_changed_agrees.
  split_and!.
  - rewrite (agrees_waiting _ _ o Ha). apply He.
  - intros z Hz. rewrite (agrees_waiting _ _ z Ha). destruct (enqd_others _ _ _ _ He z Hz) as [Hb Hp].
    unfold waiting. rewrite Hb. apply list_bind_ext; [|done]. intros i. by rewrite Hp.
  - rewrite (agrees_book _ _ Ha). apply He.
  - exists l. split; [apply Hinv|]. apply (agrees_ring _ _ _ Ha), Hinv'.
Qed.

(** C9: servicing ends in its weight.  [service_queues] returns for every limit,
    uses at most the limit, and takes messages only from the front of the
    queues: what waited before, followed by what was enqueued meanwhile, is what
    was taken followed by what still waits; and a message is taken only when the
    processor was given it and processed it, refused it for good, or called it
    overweight or too deep for the stack. *)
Theorem service_queues_in_weight s limit :
  mq_reachable s -> wf_weight limit ->
  exists used s', service_queues false limit s = Some (used, s') /\ weight_le used limit /\
    forall o, exists taken added, waiting o s ++ added = taken ++ waiting o s' /\
      Forall (handled (default WeightV2.zero (max_message_weight limit)) o) taken.
Proof.
  intros Hr Hlim. destruct (reachable_inv s Hr) as [l Hinv].
  destruct (service_queues_impl_spec heap_size_fits heap_size_header limit s l Hinv Hlim) as (used & s' & E & _ & Hf & Hle).
  by exists used, s'.
Qed.

(** C23: an overweight message is executed at most once, if its processing
    enqueues nothing.  When [do_execute_overweight] then succeeds, the count goes
    down by one, no waiting message is touched, and executing the same message
    again fails, whatever the limit; when it fails the queues are as before, as
    [process_message_payload] rolls back what a failing processor did (the
    documentation of the pallet and of [MessageProcessor] says it does not); it
    never panics. *)
Theorem overweight_executed_once s o page index limit r s' :
  mq_reachable s -> overweight_quiet o page index limit s -> do_execute_overweight false o page index limit s = (r, s') ->
  match r with
  | Ok _ =>
    message_count (get_book o s') = message_count (get_book o s) - 1 /\ (forall z, waiting z s' = waiting z s) /\
    forall limit', exists e s'', do_execute_overweight false o page index limit' s' = (Err e, s'') /\ agrees s' s''
  | Err _ => agrees s s'
  | Panic => False
  end.
Proof.
  intros Hr Hq E. destruct (reachable_inv s Hr) as [l Hinv]. unfold do_execute_overweight in E. cbn [with_service_mutex] in E.
  pose proof (execute_overweight_spec heap_size_fits heap_size_header s l o page index limit r s' Hinv Hq E) as Hs.
  destruct r as [w|e|]; [|done|done]. destruct Hs as [Hinv' Hw Hc Hp]. split_and!; [done|done|].
  intros limit'. unfold do_execute_overweight. cbn [with_service_mutex].
  destruct (do_execute_overweight_inner o page index limit' s') as [r' s''] eqn:E'.
  assert (Hagain : match r' with Err _ => agrees s' s'' | _ => False end); [|by destruct r'; eauto].
  unfold do_execute_overweight_inner in E'. cbv zeta in E'.
  destruct (is_paused o s'); [by simplify_eq|].
  destruct Hp as [Hp|(p & pos & payload & Hp & Hpeek)]; rewrite Hp in E'; [by simplify_eq|].
  rewrite Hpeek in E'. destruct (negb _); by simplify_eq.
Qed.

(** C22: the footprint of a batch is what enqueueing it does.
    [get_batches_footprints] returns, and its entry number [n] has the number
    and size of the first [n] messages and the pages that enqueueing them
    creates; the batches listed are exactly those after which the ready pages
    are within the limit. *)
Theorem batches_footprints_exact s o msgs limit :
  mq_reachable s -> bounded msgs -> bs_end (get_book o s) + zlen msgs < umax 32 -> is_uint 32 limit ->
  let after n := get_book o (do_enqueue_messages o (take n msgs) s) in
  exists b k, get_batches_footprints o msgs limit s = Some b /\ (k <= length msgs)%nat /\
    footprints b = (fun n => mkBatch (Z.of_nat n) (batch_size (take n msgs)) (bs_end (after n) - bs_end (get_book o s)))
      <$> seq 1 k /\
    forall n, (1 <= n <= length msgs)%nat -> (n <= k)%nat <-> fp_ready_pages (footprint_of (after n)) <= limit.
Proof. intros Hr. destruct (reachable_inv s Hr) as [l Hinv]. by apply (footprints_of_prefixes heap_size_fits heap_size_header s l). Qed.

(** C25: stale pages do not pile up for ever.  A queue with at least twice
    [MaxStale] pages of overweight messages always has a page that anybody can
    reap; reaping it removes the page and its messages from the books and
    leaves what waits in the queues alone.  A ready page is never reaped. *)
Theorem stale_pages_can_be_reaped s o :
  mq_reachable s -> 1 <= MaxStale < 2 ^ 16 ->
  let book := get_book o s in
  (forall i, bs_begin book <= i -> do_reap_page false o i s = (Err NotReapable, s)) /\
  (2 * MaxStale <= stale_pages book -> exists i s', do_reap_page false o i s = (Ok tt, s') /\ i < bs_begin book /\
     bs_count (get_book o s') = bs_count book - 1 /\ get_page o i s' = None /\ forall z, waiting z s' = waiting z s).
Proof.
  intros Hr Hmax book. destruct (reachable_inv s Hr) as [l Hinv]. destruct (mq_queue _ _ Hinv o) as (m & Hm & Hok). fold book in Hok.
  pose proof (book_window _ _ Hok) as Hw. pose proof (book_count _ _ Hok) as Hcount. unfold do_reap_page. cbn [with_service_mutex].
  split.
  { intros i Hi. unfold do_reap_page_inner. cbv zeta. fold book. by destruct (Z.ltb_spec i (bs_begin book)); [lia|]. }
  intros Hstale. unfold stale_pages, saturating_sub in Hstale. rewrite Z.max_r in Hstale by lia.
  assert (Hpage : exists i a, m !! i = Some a /\ i < bs_begin book - MaxStale).
  { destruct (decide (map_Forall (fun i _ => bs_begin book - MaxStale <= i) m)) as [Hall|Hnot].
    - assert (Hsize : Z.of_nat (size m) <= bs_end book - (bs_begin book - MaxStale)); [|lia].
      apply map_size_between; [lia|]. intros i a Hi. split; [by apply (Hall i a)|by eapply (book_below _ _ Hok)].
    - apply map_not_Forall in Hnot as (i & a & Hi & Hlt); [|apply _]. exists i, a. split; [done|lia]. }
  destruct Hpage as (i & a & Hi & Hlt). pose proof (Hm i) as Hget. rewrite Hi in Hget. inversion Hget as [p a' Hrep Hp|]; subst a'.
  destruct (do_reap_page_inner o i s) as [r s'] eqn:E.
  destruct (do_reap_page_inner_spec heap_size_fits s l o i r s' Hinv E) as (_ & Hwait & Hgone).
  exists i, s'. assert (Hr' : r = Ok tt); [|rewrite Hr' in *; specialize (Hgone eq_refl) as [? ?]; split_and!; done || lia].
  unfold do_reap_page_inner in E. cbv zeta in E. fold book in E. rewrite <- Hp in E.
  pose proof (book_counters heap_size_header s o m book Hm Hok) as (Hc & _).
  assert (Hcull : cullable i book = Some true).
  { rewrite cullable_spec; [|done|lia|unfold is_uint; lia|unfold stale_pages, saturating_sub; rewrite Z.max_r by lia; done].
    f_equal. apply Z.ltb_lt. unfold saturating_sub. pose proof (book_below _ _ Hok _ _ Hi). lia. }
  rewrite Hcull in E. destruct (Z.ltb_spec i (bs_begin book)); [|lia]. cbn [negb] in E.
  replace (if remaining p =? 0 then Some true else Some true) with (Some true) in E by (by destruct (remaining p =? 0)).
  by injection E.
Qed.
End claims.

(** ** A small configuration

    Headers of five bytes in pages of 32; a message takes a weight of five. *)
Definition demo_codec : HeaderCodec := scale_header 4.
Definition demo_heap : HeapSize := 32.
#[local] Existing Instance demo_codec.
#[local] Existing Instance demo_heap.

#[local] Instance demo_codec_laws : HeaderLaws demo_codec.
Proof. apply scale_header_laws. lia. Qed.

Definition w (n : Z) : WeightV2.Weight := WeightV2.mkWeight n 0.

Definition demo_process (msg : bytes) (o : Z) (meter : Meter.WeightMeter) (id : bytes) (s : Storage Z unit)
  : (bool + ProcessMessageError) * Meter.WeightMeter * bytes * Storage Z unit :=
  match Meter.try_consume meter (w 5) with
  | (meter, Ok _) => (inl true, meter, id, s)
  | (meter, _) => (inr (Overweight (w 5)), meter, id, s)
  end.

Definition demo_weights : WeightInfo :=
  mkWeightInfo (w 1) (w 1) (w 1) (w 1) (w 1) (w 1) (w 1) (w 1) (w 1).

Definition demo_with (process : bytes -> Z -> Meter.WeightMeter -> bytes -> Storage Z unit ->
    (bool + ProcessMessageError) * Meter.WeightMeter * bytes * Storage Z unit) (paused : Z -> bool)
    (service_weight : option WeightV2.Weight) : Config Z unit := {|
  process_message := process;
  on_queue_changed _ _ s := s;
  is_paused o _ := paused o;
  MaxStale := 2;
  ServiceWeight := service_weight;
  IdleMaxServiceWeight := None;
  weights := demo_weights;
  blake2_256 msg := msg;
  layer_available _ := true;
|}.

Definition demo_config : Config Z unit := demo_with demo_process (fun _ => false) None.
#[local] Existing Instance demo_config.

Lemma demo_heap_fits : heap_size <= umax size_bits.
Proof. vm_compute. done. Qed.

Lemma demo_heap_header : Z.of_nat header_len <= heap_size.
Proof. vm_compute. done. Qed.

#[local] Instance demo_handler p q r : @QuietHandler Z unit _ _ (demo_with p q r).
Proof. by intros o fp s. Qed.

Lemma demo_quiet : quiet_processor.
Proof.
  intros msg o meter id s b meter' id' s'. cbn. unfold demo_process.
  destruct (Meter.try_consume meter (w 5)) as [m []]; by intros [= <- <- <- <-] || by intros [=].
Qed.

Lemma try_consume_spends meter x : wf_weight x -> spends meter (Meter.try_consume meter x).1.
Proof.
  intros Hx. split.
  - intros Hm. by apply try_consume_ok.
  - unfold Meter.try_consume. by repeat case_match.
  - unfold Meter.try_consume. destruct (WeightV2.checked_add _ _) as [t|] eqn:E; [|done].
    case_match; [done|]. cbn. rewrite weight_checked_add_spec in E. case_decide; [|done]. injection E as <-.
    destruct Hx as [[? _] [? _]]. unfold weight_le, plus. cbn. lia.
Qed.

#[local] Instance demo_processor : ProcessorLaws.
Proof.
  split.
  - intros msg o meter id s b meter' id' s' E. apply grows_agrees. by eapply demo_quiet.
  - intros msg o meter id s r meter' id' s'. cbn. unfold demo_process.
    pose proof (try_consume_spends meter (w 5) ltac:(by vm_compute)) as Hs.
    destruct (Meter.try_consume meter (w 5)) as [m []]; by intros [= <- <- <- <-].
Qed.

#[local] Instance demo_weight_laws p q r : @WeightLaws Z unit _ _ (demo_with p q r).
Proof. split; vm_compute; done. Qed.

Definition demo_empty : Storage Z unit := mkStorage ∅ None ∅ [] tt.
Definition demo_filled : Storage Z unit :=
  Eval vm_compute in enqueue_messages [[x01; x02]; [x03]] 1 demo_empty.

Lemma demo_reachable : mq_reachable demo_filled.
Proof.
  apply (reachable_step demo_empty (OpEnqueue 1 [[x01; x02]; [x03]])); [apply reachable_start| |by vm_compute].
  split; [|by vm_compute]. repeat constructor; by vm_compute.
Qed.

Lemma message_queue_invariant_witness :
  exists s' l, mq_step (OpService (w 100)) demo_filled = Some s' /\ queue_ring s' l /\
    forall o, exists m, pages_repr s' o m /\ book_ok (get_book o s') m /\
      waiting o s' = awaiting (get_book o s') m /\ (waiting o s' <> [] -> o ∈ l).
Proof.
  apply (message_queue_invariant demo_heap_fits demo_heap_header demo_filled (OpService (w 100)) demo_reachable).
  by vm_compute.
Defined.

Lemma enqueue_is_fifo_witness :
  waiting 1 (enqueue_messages [[x04]] 1 demo_filled) = [[x01; x02]; [x03]; [x04]].
Proof.
  refine (proj1 (enqueue_is_fifo demo_heap_fits demo_heap_header demo_filled 1 [[x04]] demo_reachable _ _)).
  - repeat constructor; by vm_compute.
  - by vm_compute.
Defined.

Lemma service_queues_in_weight_witness :
  exists used s', service_queues false (w 100) demo_filled = Some (used, s') /\ weight_le used (w 100) /\
    forall o, exists taken added, waiting o demo_filled ++ added = taken ++ waiting o s' /\
      Forall (handled (default WeightV2.zero (max_message_weight (w 100))) o) taken.
Proof.
  apply (service_queues_in_weight demo_heap_fits demo_heap_header demo_filled (w 100) demo_reachable). by vm_compute.
Defined.

(** A limit that is too low for the message: it is left behind. *)
Definition demo_skipped : Storage Z unit :=
  Eval vm_compute in default demo_empty (snd <$> service_queues false (w 9) demo_filled).

Lemma demo_skipped_reachable : mq_reachable demo_skipped.
Proof.
  apply (reachable_step demo_filled (OpService (w 9))); [apply demo_reachable|by vm_compute|by vm_compute].
Qed.

Lemma overweight_executed_once_witness :
  let '(r, s') := do_execute_overweight false 1 0 0 (w 10) demo_skipped in
  r = Ok (w 6) /\ message_count (get_book 1 s') = message_count (get_book 1 demo_skipped) - 1.
Proof.
  destruct (do_execute_overweight false 1 0 0 (w 10) demo_skipped) as [r s'] eqn:E.
  pose proof (overweight_executed_once demo_heap_fits demo_heap_header demo_skipped 1 0 0 (w 10) r s'
    demo_skipped_reachable (quiet_overweight 1 0 0 (w 10) demo_skipped demo_quiet) E) as Hc.
  assert (Hr : r = Ok (w 6)) by (apply (f_equal fst) in E; vm_compute in E; by rewrite <- E).
  rewrite Hr in *. split; [reflexivity|apply Hc].
Defined.

Lemma batches_footprints_exact_witness :
  exists b k, get_batches_footprints 1 [[x04]; repeat x05 20] 2 demo_filled = Some b /\ (k <= 2)%nat /\
    footprints b = (fun n => mkBatch (Z.of_nat n) (batch_size (take n [[x04]; repeat x05 20]))
      (bs_end (get_book 1 (do_enqueue_messages 1 (take n [[x04]; repeat x05 20]) demo_filled)) - bs_end (get_book 1 demo_filled)))
      <$> seq 1 k.
Proof.
  destruct (batches_footprints_exact demo_heap_fits demo_heap_header demo_filled 1 [[x04]; repeat x05 20] 2 demo_reachable)
    as (b & k & Eb & Hk & Hf & _).
  - repeat constructor; by vm_compute.
  - by vm_compute.
  - by vm_compute.
  - by exists b, k.
Defined.

(** ** Corner cases *)

(** An empty batch puts a queue without messages into the ring, which
    [do_try_state] rejects; so does a queue with only empty messages. *)
Lemma empty_batch_is_knitted :
  let s := enqueue_messages [] 1 demo_empty in
  ServiceHead s = Some 1 /\ message_count (get_book 1 s) = 0 /\ (do_try_state s).1 = Some false.
Proof. vm_compute. done. Qed.

Lemma empty_message_fails_try_state :
  let s := enqueue_messages [[]] 1 demo_empty in
  waiting 1 s = [[]] /\ (do_try_state s).1 = Some false.
Proof. vm_compute. done. Qed.

(** Servicing can bail when only overweight messages are left in the first page;
    executing them removes the page while the book still has it as ready. *)
Definition demo_bailed : Storage Z unit :=
  Eval vm_compute in default demo_empty (snd <$> service_queues false (w 6) demo_filled).

Lemma executed_page_still_ready :
  let '(r1, s1) := do_execute_overweight false 1 0 0 (w 10) demo_bailed in
  let '(r2, s2) := do_execute_overweight false 1 0 1 (w 10) s1 in
  (snd <$> service_queues false (w 6) demo_filled = Some demo_bailed) /\ (do_try_state demo_bailed).1 = Some true /\
  r1 = Ok (w 6) /\ r2 = Ok (w 6) /\
  get_page 1 0 s2 = None /\ bs_begin (get_book 1 s2) = 0 /\ bs_end (get_book 1 s2) = 1 /\
  ServiceHead s2 = Some 1 /\ (do_try_state s2).1 = Some false.
Proof. vm_compute. split_and!; reflexivity. Qed.

(** *** A paused queue after a queue without progress

    The messages of the first queue are all overweight and the second queue is
    paused: the first queue leaves the ring, so the loop never gets back to it and
    asks the paused queue again until the weight is gone. *)
Definition heavy_process (msg : bytes) (o : Z) (meter : Meter.WeightMeter) (id : bytes) (s : Storage Z unit)
  : (bool + ProcessMessageError) * Meter.WeightMeter * bytes * Storage Z unit :=
  (inr (Overweight (w 1000000)), meter, id, s).

Definition paused_config : Config Z unit := demo_with heavy_process (fun o => o =? 2) None.

Definition paused_storage : Storage Z unit := enqueue_messages [[x02]] 2 (enqueue_messages [[x01]] 1 demo_empty).

Lemma paused_queue_takes_all_weight :
  fst <$> service_queues (Config0 := paused_config) false (w 1000) paused_storage = Some (w 1000) /\
  fst <$> service_queues (Config0 := paused_config) false (w 100000) paused_storage = Some (w 100000).
Proof. vm_compute. done. Qed.

(** Nothing can be processed: every page becomes stale. *)
Definition heavy_config : Config Z unit := demo_with heavy_process (fun _ => false) None.

Lemma heavy_processor : @ProcessorLaws Z unit _ _ _ _ heavy_config.
Proof. split; intros msg o meter id s r meter' id' s'; cbn; unfold heavy_process; by intros [= <- <- <- <-] || by intros [=]. Qed.

Definition heavy_batch : list bytes := repeat (repeat x01 20) 4.

Definition heavy_enqueued : Storage Z unit := Eval vm_compute in enqueue_messages heavy_batch 1 demo_empty.
Definition heavy_storage : Storage Z unit :=
  Eval vm_compute in default demo_empty (snd <$> service_queues (Config0 := heavy_config) false (w 100) heavy_enqueued).

Lemma heavy_reachable : mq_reachable (Config0 := heavy_config) heavy_storage.
Proof.
  apply (reachable_step (Config0 := heavy_config) heavy_enqueued (OpService (w 100))); [|by vm_compute..].
  apply (reachable_step (Config0 := heavy_config) demo_empty (OpEnqueue 1 heavy_batch)); [apply reachable_start| |by vm_compute].
  split; [|by vm_compute]. repeat constructor; by vm_compute.
Qed.

Lemma stale_pages_can_be_reaped_witness :
  exists i s', do_reap_page (Config0 := heavy_config) false 1 i heavy_storage = (Ok tt, s') /\
    bs_count (get_book 1 s') = bs_count (get_book 1 heavy_storage) - 1.
Proof.
  destruct (stale_pages_can_be_reaped (Config0 := heavy_config) (QH := demo_handler _ _ _) (PL := heavy_processor)
    (WL := demo_weight_laws _ _ _) demo_heap_fits demo_heap_header heavy_storage 1 heavy_reachable) as [_ Hreap].
  - by vm_compute.
  - destruct (Hreap ltac:(by vm_compute)) as (i & s' & E & _ & Hc & _). by exists i, s'.
Defined.

(** *** A processor that enqueues while an overweight message is executed

    [do_execute_overweight_inner] writes back the book it read before the
    processor ran. *)
Definition resend_process (msg : bytes) (o : Z) (meter : Meter.WeightMeter) (id : bytes) (s : Storage Z unit)
  : (bool + ProcessMessageError) * Meter.WeightMeter * bytes * Storage Z unit :=
  match Meter.try_consume meter (w 5) with
  | (meter, Ok _) =>
    (inl true, meter, id,
     if (o =? 1) && (bs_end (get_book 2 s) <? 100) then do_enqueue_messages 2 [[x09]] s else s)
  | (meter, _) => (inr (Overweight (w 5)), meter, id, s)
  end.

Definition resend_config : Config Z unit := demo_with resend_process (fun _ => false) None.

Lemma resend_processor : @ProcessorLaws Z unit _ _ _ _ resend_config.
Proof.
  pose proof (fun meter => try_consume_spends meter (w 5) ltac:(by vm_compute)) as Hs.
  split.
  - intros msg o meter id s b meter' id' s'. cbn. unfold resend_process.
    destruct (Meter.try_consume meter (w 5)) as [m []]; intros [=]; subst.
    destruct ((o =? 1) && (bs_end (get_book 2 s) <? 100)) eqn:E; [|by apply grows_agrees].
    apply andb_true_iff in E as [_ E%Z.ltb_lt].
    eapply (grows_enqueue s 2 [[x09]]); [|change (umax 32) with 4294967295; unfold zlen; cbn; lia|apply agrees_refl|].
    + repeat constructor; by vm_compute.
    + by apply grows_agrees.
  - intros msg o meter id s r meter' id' s'. cbn. unfold resend_process. specialize (Hs meter).
    destruct (Meter.try_consume meter (w 5)) as [m []]; by intros [= <- <- <- <-].
Qed.

(** Queue 1 has two overweight messages and a ready one. *)
Definition resend_storage : Storage Z unit := Eval vm_compute in enqueue_messages [[x04]] 1 demo_skipped.

Lemma resend_reachable : mq_reachable (Config0 := resend_config) resend_storage.
Proof.
  apply (reachable_step (Config0 := resend_config) demo_skipped (OpEnqueue 1 [[x04]])).
  - apply (reachable_step (Config0 := resend_config) demo_filled (OpService (w 9))); [|by vm_compute..].
    apply (reachable_step (Config0 := resend_config) demo_empty (OpEnqueue 1 [[x01; x02]; [x03]])); [apply reachable_start| |by vm_compute].
    split; [|by vm_compute]. repeat constructor; by vm_compute.
  - split; [|by vm_compute]. repeat constructor; by vm_compute.
  - by vm_compute.
Qed.

