(* ===== verification/XcmpInbound.v ===== *)
(** * Incoming horizontal messages

    Model of the inbound side of [cumulus/pallets/xcmp-queue/src/lib.rs]: a page
    from a sibling is split into signals or messages, the messages go in batches
    to the message queue, within the weight and the drop threshold; with the
    weights of [weights_ext.rs] and [weights.rs], the search for the largest batch in
    [substrate/frame/support/src/traits/messages.rs], and the sending end,
    [deliver].  The message queue, the codec of the messages and the transaction
    layers are the class [InboundConfig].  [None] is a loop that ran out of
    fuel. *)

From stdpp Require Import base option numbers list gmap.
From Stdlib Require Import ZArith Lia.
From Stdlib Require Import Strings.Byte.
From S2P Require Import Prelude Search Codec Traits Weights MqPage MessageQueue.
From S2P Require Import Segment ParaSystem XcmpQueue.
Local Open Scope Z_scope.

(** ** The largest batch *)

Definition search_best_by (f : BatchFootprint -> comparison) (self : BatchesFootprints) : BatchFootprint :=
  let maybe_best_idx :=
    match binary_search_by f (footprints self) with
    | inl last_ok_idx => Some last_ok_idx
    | inr 0%nat => None
    | inr (S i) => Some i
    end in
  default (mkBatch 0 0 0) (i ← maybe_best_idx; footprints self !! i).

(** ** Weights *)

(** [WeightInfo], the benchmarked weights. *)
Class XcmpWeightInfo : Set := {
  enqueue_n_bytes_xcmp_message : Z -> WeightV2.Weight;
  enqueue_n_empty_xcmp_messages : Z -> WeightV2.Weight;
  enqueue_empty_xcmp_message_at : Z -> WeightV2.Weight;
  enqueue_n_full_pages : Z -> WeightV2.Weight;
  w_suspend_channel : WeightV2.Weight;
  w_resume_channel : WeightV2.Weight;
  w_take_first_concatenated_xcm : Z -> WeightV2.Weight;
}.

(** The generated weights of [weights.rs], for those functions that the pallet
    calls here; [n] is a [u32]. *)
Definition SubstrateWeight (DbWeight : Fees.RuntimeDbWeight) : XcmpWeightInfo :=
  let costs base slope r wr :=
    WeightV2.saturating_add (WeightV2.saturating_add (WeightV2.saturating_add base slope) (Fees.reads DbWeight r))
      (Fees.writes DbWeight wr) in
  {|
    enqueue_n_bytes_xcmp_message n :=
      costs (WeightV2.from_parts 12262916 5487) (WeightV2.saturating_mul (WeightV2.from_parts 187 0) n) 4 3;
    enqueue_n_empty_xcmp_messages n :=
      costs (WeightV2.from_parts 13664993 5487) (WeightV2.saturating_mul (WeightV2.from_parts 131195 0) n) 4 3;
    enqueue_empty_xcmp_message_at n :=
      WeightV2.saturating_add
        (costs (WeightV2.from_parts 16490667 3897) (WeightV2.saturating_mul (WeightV2.from_parts 720 0) n) 4 2)
        (WeightV2.saturating_mul (WeightV2.from_parts 0 1) n);
    enqueue_n_full_pages n :=
      WeightV2.saturating_add
        (costs (WeightV2.from_parts 10000000 5487) (WeightV2.saturating_mul (WeightV2.from_parts 23938725 0) n) 4 2)
        (Fees.writes DbWeight (saturating_mul 64 1 n));
    w_suspend_channel :=
      WeightV2.saturating_add (WeightV2.saturating_add (WeightV2.from_parts 2000000 2767) (Fees.reads DbWeight 1)) (Fees.writes DbWeight 1);
    w_resume_channel :=
      WeightV2.saturating_add (WeightV2.saturating_add (WeightV2.from_parts 3000000 2767) (Fees.reads DbWeight 1)) (Fees.writes DbWeight 1);
    w_take_first_concatenated_xcm n :=
      WeightV2.saturating_add (WeightV2.from_parts 1878097 0) (WeightV2.saturating_mul (WeightV2.from_parts 44593 0) n);
  |}.

Definition WEIGHT_REF_TIME_PER_NANOS : Z := 1000.

Definition RocksDbWeight : Fees.RuntimeDbWeight :=
  {| Fees.read := 25000 * WEIGHT_REF_TIME_PER_NANOS; Fees.write := 100000 * WEIGHT_REF_TIME_PER_NANOS |}.

(** [saturated_into] of a [usize] into a [u32]. *)
Definition saturated_u32 (n : Z) : Z := Z.min n (umax 32).

Section weights.
Context `{XcmpWeightInfo}.

Definition uncached_enqueue_xcmp_messages : WeightV2.Weight := enqueue_n_full_pages 0.

Definition w_enqueue_xcmp_messages (first_page_pos : Z) (batch : BatchFootprint) (is_first_sender_batch : bool)
    : WeightV2.Weight :=
  let message_count := saturated_u32 (msgs_count batch) in
  let size := saturated_u32 (size_in_bytes batch) in
  let pages_overhead :=
    let full_message_overhead := WeightV2.saturating_sub (enqueue_n_full_pages 1) (enqueue_n_empty_xcmp_messages 1) in
    let n_full_messages_overhead := WeightV2.saturating_mul full_message_overhead (new_pages_count batch) in
    WeightV2.saturating_sub
      (WeightV2.saturating_sub (enqueue_n_full_pages (new_pages_count batch)) (enqueue_n_full_pages 0))
      n_full_messages_overhead in
  let messages_overhead :=
    WeightV2.saturating_sub (enqueue_n_empty_xcmp_messages message_count) (enqueue_n_empty_xcmp_messages 0) in
  let bytes_overhead :=
    WeightV2.saturating_sub (enqueue_n_bytes_xcmp_message size) (enqueue_n_bytes_xcmp_message 0) in
  let pos_overhead :=
    let pos_overhead :=
      WeightV2.saturating_sub (enqueue_empty_xcmp_message_at first_page_pos) (enqueue_empty_xcmp_message_at 0) in
    if is_first_sender_batch then pos_overhead else WeightV2.set_proof_size pos_overhead 0 in
  WeightV2.saturating_add (WeightV2.saturating_add (WeightV2.saturating_add pages_overhead messages_overhead) bytes_overhead)
    pos_overhead.
End weights.

(** ** Configuration *)

(** What the pallet is given: the storage [W] with its own part, the message
    queue, the bound of a message, the length of the [VersionedXcm] that a
    decoder with a depth limit reads, and whether a transaction layer can be
    opened. *)
Class InboundConfig (W : Type) : Type := {
  queue_of : W -> Queue;
  with_queue : Queue -> W -> W;
  sink_get_batches_footprints : ParaId -> list bytes -> Z -> W -> option BatchesFootprints;
  sink_enqueue_messages : list bytes -> ParaId -> W -> W;
  MaxXcmpMessageLen : Z;
  decode_with_depth_limit : bytes -> option nat;
  transaction_available : W -> bool;
}.

Definition XCM_BATCH_SIZE : Z := 250.
Definition MAX_SIGNALS_PER_PAGE : Z := 3.

Inductive TakeXcmError : Set := InvalidData | OutOfWeight.

#[export] Instance TakeXcmError_eq_dec : EqDecision TakeXcmError.
Proof. solve_decision. Defined.

Inductive XcmEncoding : Set := Simple | Double.

Record EnqueueXcmpMessagesResult : Set := mkEnqueued {
  has_dropped_msgs : bool;
  has_out_of_weight_msgs : bool;
}.

Inductive DispatchError : Set := ModuleError (e : QueueError) | LimitReached.

(** The derived decoder: one byte, the index of the variant. *)
Definition decode_signal (data : bytes) : option (ChannelSignal * bytes) :=
  match data with
  | x00 :: data => Some (Suspend, data)
  | x01 :: data => Some (Resume, data)
  | _ => None
  end.

Section inbound.
Context {W : Type} `{XcmpWeightInfo, CompactCodec, QueueBounds, !InboundConfig W}.
Implicit Types (w : W) (meter : Meter.WeightMeter) (data : bytes) (sender : ParaId).

(** ** Batches of messages *)

Definition enqueue_xcmp_messages sender (xcms : list bytes) (is_first_sender_batch : bool) meter w
    : option (EnqueueXcmpMessagesResult * Meter.WeightMeter * W) :=
  if (length xcms =? 0)%nat then Some (mkEnqueued false false, meter, w)
  else
    batches ← sink_get_batches_footprints sender xcms (drop_threshold (QueueConfig (queue_of w))) w;
    let count := default 0 (msgs_count <$> list.last (footprints batches)) in
    let has_dropped_msgs := count <? zlen xcms in
    let pos := saturated_u32 (first_page_pos batches) in
    let best_batch_footprint :=
      search_best_by (fun batch_info =>
        if Meter.can_consume meter (w_enqueue_xcmp_messages pos batch_info is_first_sender_batch) then Lt else Gt)
        batches in
    let meter := Meter.consume meter (w_enqueue_xcmp_messages pos best_batch_footprint is_first_sender_batch) in
    let w := sink_enqueue_messages (take (Z.to_nat (msgs_count best_batch_footprint)) xcms) sender w in
    Some (mkEnqueued has_dropped_msgs (msgs_count best_batch_footprint <? count), meter, w).

(** [BoundedSlice::try_from]. *)
Definition try_bounded (xcm : bytes) : outcome TakeXcmError bytes :=
  if zlen xcm <=? MaxXcmpMessageLen then Ok xcm else Err InvalidData.

(** The result, the data left and the meter. *)
Definition take_first_concatenated_xcm data meter : outcome TakeXcmError bytes * bytes * Meter.WeightMeter :=
  let base_weight := w_take_first_concatenated_xcm 0 in
  match Meter.try_consume meter base_weight with
  | (meter, Ok _) =>
    match decode_with_depth_limit data with
    | None => (Err InvalidData, data, meter)
    | Some count =>
      let xcm_data := take count data in
      let extra_weight :=
        WeightV2.saturating_sub (w_take_first_concatenated_xcm (wrapping 32 (zlen xcm_data))) base_weight in
      (try_bounded xcm_data, drop count data, Meter.consume meter extra_weight)
    end
  | (meter, _) => (Err OutOfWeight, data, meter)
  end.

(** [Compact::<u32>::decode] advances the data behind the number. *)
Definition take_first_concatenated_opaque_xcm data : outcome TakeXcmError bytes * bytes :=
  match compact_decode data with
  | None => (Err InvalidData, data)
  | Some xcm_len =>
    let data := drop (compact_len xcm_len) data in
    if zlen data <? xcm_len then (Err InvalidData, data)
    else (try_bounded (take (Z.to_nat xcm_len) data), drop (Z.to_nat xcm_len) data)
  end.

Definition take_first encoding data meter : outcome TakeXcmError bytes * bytes * Meter.WeightMeter :=
  match encoding with
  | Simple => take_first_concatenated_xcm data meter
  | Double => let '(r, data) := take_first_concatenated_opaque_xcm data in (r, data, meter)
  end.

(** A round of the loop of [take_first_concatenated_xcms]. *)
Definition take_round encoding (batch_size : Z) (st : bytes * Meter.WeightMeter * list bytes)
    : (bytes * Meter.WeightMeter * list bytes) +
      (outcome (TakeXcmError * list bytes) (list bytes) * bytes * Meter.WeightMeter) :=
  let '(data, meter, batch) := st in
  if (length data =? 0)%nat then inr (Ok batch, data, meter)
  else
    let '(maybe_xcm, data, meter) := take_first encoding data meter in
    match maybe_xcm with
    | Ok xcm =>
      let batch := batch ++ [xcm] in
      if batch_size <=? zlen batch then inr (Ok batch, data, meter) else inl (data, meter, batch)
    | Err e => inr (Err (e, batch), data, meter)
    | Panic => inr (Panic, data, meter)
    end.

(** Every round takes data, so one more than its length is enough. *)
Definition take_first_concatenated_xcms data encoding (batch_size : Z) meter
    : option (outcome (TakeXcmError * list bytes) (list bytes) * bytes * Meter.WeightMeter) :=
  match loop (Pos.of_succ_nat (length data)) (take_round encoding batch_size) (data, meter, []) with
  | inr r => Some r
  | inl _ => None
  end.

(** ** Pages *)

(** [#[transactional]]: an error rolls the storage back, the rest of the result
    is kept. *)
Definition transactional {R : Type} (none : R)
    (body : W -> option (outcome DispatchError unit * R * W)) w : option (outcome DispatchError unit * R * W) :=
  if transaction_available w then
    '(r, x, w') ← body w;
    Some (r, x, match r with Ok _ => w' | _ => w end)
  else Some (Err LimitReached, none, w).

(** A round of the loop of [handle_signals_page]. *)
Definition signals_round sender (can_retry_page : bool) (st : Z * bytes * Meter.WeightMeter * W)
    : (Z * bytes * Meter.WeightMeter * W) + (outcome DispatchError unit * Meter.WeightMeter * W) :=
  let '(signal_count, data, meter, w) := st in
  if (length data =? 0)%nat then inr (Ok tt, meter, w)
  else
    let signal_count := signal_count + 1 in
    if MAX_SIGNALS_PER_PAGE <? signal_count then inr (Ok tt, meter, w)
    else
      let out_of_weight meter :=
        inr (if can_retry_page then Err (ModuleError RetryPage) else Ok tt, meter, w) in
      match decode_signal data with
      | Some (Suspend, data) =>
        match Meter.try_consume meter w_suspend_channel with
        | (meter, Ok _) => inl (signal_count, data, meter, with_queue (suspend_channel sender (queue_of w)) w)
        | (meter, _) => out_of_weight meter
        end
      | Some (Resume, data) =>
        match Meter.try_consume meter w_resume_channel with
        | (meter, Ok _) => inl (signal_count, data, meter, with_queue (resume_channel sender (queue_of w)) w)
        | (meter, _) => out_of_weight meter
        end
      | None => inr (Ok tt, meter, w)
      end.

(** The round after the last signal ends the loop, hence four rounds. *)
Definition handle_signals_page sender data meter (can_retry_page : bool) w
    : option (outcome DispatchError unit * Meter.WeightMeter * W) :=
  transactional meter (fun w =>
    match loop 4 (signals_round sender can_retry_page) (0, data, meter, w) with
    | inr r => Some r
    | inl _ => None
    end) w.

(** A round of the loop of [handle_xcms_page]. *)
Definition xcms_round sender encoding (can_retry_page : bool) (st : bytes * bool * Meter.WeightMeter * W)
    : (bytes * bool * Meter.WeightMeter * W) + option (outcome DispatchError unit * Meter.WeightMeter * W) :=
  let '(data, is_first_sender_batch, meter, w) := st in
  match take_first_concatenated_xcms data encoding XCM_BATCH_SIZE meter with
  | None | Some (Panic, _, _) => inr None
  | Some (Err (e, batch), data, meter) =>
    if bool_decide (e = OutOfWeight) && can_retry_page then inr (Some (Err (ModuleError RetryPage), meter, w))
    else if (length batch =? 0)%nat then inr (Some (Ok tt, meter, w))
    else
      match enqueue_xcmp_messages sender batch is_first_sender_batch meter w with
      | None => inr None
      | Some (result, meter, w) =>
        if has_out_of_weight_msgs result && can_retry_page then inr (Some (Err (ModuleError RetryPage), meter, w))
        else inr (Some (Ok tt, meter, w))
      end
  | Some (Ok batch, data, meter) =>
    if (length batch =? 0)%nat then inr (Some (Ok tt, meter, w))
    else
      match enqueue_xcmp_messages sender batch is_first_sender_batch meter w with
      | None => inr None
      | Some (result, meter, w) =>
        if has_out_of_weight_msgs result then
          inr (Some (if can_retry_page then Err (ModuleError RetryPage) else Ok tt, meter, w))
        else if has_dropped_msgs result then inr (Some (Ok tt, meter, w))
        else inl (data, false, meter, w)
      end
  end.

(** A round that goes on has taken data.  The result has the meter and the
    senders known afterwards. *)
Definition handle_xcms_page sender encoding data (known_xcm_senders : gset ParaId) meter (can_retry_page : bool) w
    : option (outcome DispatchError unit * (gset ParaId * Meter.WeightMeter) * W) :=
  transactional (known_xcm_senders, meter) (fun w =>
    let is_first_sender_batch := negb (bool_decide (sender ∈ known_xcm_senders)) in
    match (if is_first_sender_batch then Meter.try_consume meter uncached_enqueue_xcmp_messages else (meter, Ok tt)) with
    | (meter, Ok _) =>
      match loop (Pos.of_succ_nat (length data)) (xcms_round sender encoding can_retry_page)
                 (data, is_first_sender_batch, meter, w) with
      | inr (Some (Ok _, meter, w)) => Some (Ok tt, ({[ sender ]} ∪ known_xcm_senders, meter), w)
      | inr (Some (r, meter, w)) => Some (r, (known_xcm_senders, meter), w)
      | _ => None
      end
    | (meter, _) =>
      Some (if can_retry_page then Err (ModuleError RetryPage) else Ok tt, (known_xcm_senders, meter), w)
    end) w.

(** What a page leaves: whether it was processed, the senders known, the meter
    and the storage. *)
Definition handle_page sender data (can_retry_page : bool) (known : gset ParaId) meter w
    : option (bool * gset ParaId * Meter.WeightMeter * W) :=
  let finish (r : outcome DispatchError unit) known meter w :=
    Some (match r with Ok _ => true | _ => false end, known, meter, w) in
  let xcms encoding w :=
    '(r, (known, meter), w) ← handle_xcms_page sender encoding (drop 1 data) known meter can_retry_page w;
    finish r known meter w in
  match decode_format data with
  | None | Some ConcatenatedEncodedBlob => Some (true, known, meter, w)
  | Some Signals =>
    '(r, meter, w) ← handle_signals_page sender (drop 1 data) meter can_retry_page w; finish r known meter w
  | Some ConcatenatedVersionedXcm => xcms Simple w
  | Some ConcatenatedOpaqueVersionedXcm => xcms Double (with_queue (notice_opaque_support sender (queue_of w)) w)
  end.

Fixpoint handle_pages (pages : list (ParaId * bytes)) (num_processed_pages : Z) (known : gset ParaId) meter w
    : option (Z * Meter.WeightMeter * W) :=
  match pages with
  | [] => Some (num_processed_pages, meter, w)
  | (sender, data) :: pages =>
    '(processed, known, meter, w) ← handle_page sender data (0 <? num_processed_pages) known meter w;
    if processed : bool then handle_pages pages (wrapping 64 (num_processed_pages + 1)) known meter w
    else Some (num_processed_pages, meter, w)
  end.

(** The number of pages processed, the weight used and the storage. *)
Definition handle_xcmp_messages (pages : list (ParaId * bytes)) (max_weight : WeightV2.Weight) w
    : option (Z * WeightV2.Weight * W) :=
  '(n, meter, w) ← handle_pages pages 0 ∅ (Meter.with_limit max_weight) w;
  Some (n, Meter.consumed meter, w).
End inbound.

(** ** The sending end

    [V] is the type of versioned messages, with its encoder and the decoder that
    wants all of its input. *)
Inductive SendError : Set := Transport (e : MessageSendError).

Section outbound.
Context {W V : Type} `{XcmpWeightInfo, CompactCodec, QueueBounds, !InboundConfig W}.
Variables (encode : V -> bytes) (decode_all : bytes -> option V) (blake2_256 : bytes -> bytes).

(** [Vec<u8>::encode]. *)
Definition encode_bytes (bs : bytes) : bytes := compact_encode (zlen bs) ++ bs.

Definition encoding_for (recipient : ParaId) (q : Queue) : XcmEncoding :=
  match try_get_outbound_channel (OutboundXcmpStatus q) recipient with
  | Some channel_details =>
    if Flags.has_concatenated_opaque_versioned_xcm_support (flags channel_details) then Double else Simple
  | None => Simple
  end.

(** The hash returned is also the one of the event deposited. *)
Definition deliver (get_channel_info : ParaId -> option ChannelInfo) (recipient : ParaId) (xcm : V) (q : Queue)
    : outcome SendError (bytes * Queue) :=
  let hash := blake2_256 (encode xcm) in
  let result :=
    match encoding_for recipient q with
    | Simple => send_fragment get_channel_info recipient ConcatenatedVersionedXcm (encode xcm) q
    | Double => send_fragment get_channel_info recipient ConcatenatedOpaqueVersionedXcm (encode_bytes (encode xcm)) q
    end in
  match result with
  | Ok (_, q) => Ok (hash, q)
  | Err e => Err (Transport e)
  | Panic => Panic
  end.

(** A round of the inner loop of [get_messages]. *)
Definition inspect_round (format : XcmpMessageFormat) (st : bytes * list V) : (bytes * list V) + outcome unit (list V) :=
  let '(data, decoded_messages) := st in
  if (length data =? 0)%nat then inr (Ok decoded_messages)
  else
    let taken :=
      match format with
      | ConcatenatedVersionedXcm => Some (take_first Simple data Meter.new)
      | ConcatenatedOpaqueVersionedXcm => Some (take_first Double data Meter.new)
      | _ => None
      end in
    match taken with
    | Some (Ok message_bytes, data, _) =>
      match decode_all message_bytes with
      | Some message => inl (data, decoded_messages ++ [message])
      | None => inr Panic
      end
    | _ => inr Panic
    end.

(** The messages of a page, in [get_messages]. *)
Definition inspect_page (messages : bytes) : option (outcome unit (list V)) :=
  match decode_format messages with
  | None => Some Panic
  | Some decoded_format =>
    match loop (Pos.of_succ_nat (length (drop 1 messages))) (inspect_round decoded_format) (drop 1 messages, []) with
    | inr r => Some r
    | inl _ => None
    end
  end.
End outbound.
