(* ===== verification/XcmpInboundProofs.v ===== *)
(** * Correctness of the handling of incoming horizontal messages

    Against the interface [SinkLaws] of the message queue: handling a list of
    pages ends, the messages of each page arrive in order, of a page that can be
    retried all messages are enqueued or none, but for what exceeds the drop
    threshold, and no queue grows beyond the threshold. *)

From stdpp Require Import base option numbers list gmap.
From Stdlib Require Import ZArith Lia.
From Stdlib Require Import Strings.Byte.
From S2P Require Import Prelude Search Codec Traits Weights MqPage MessageQueue.
From S2P Require Import Segment ParaSystem XcmpQueue XcmpQueueProofs XcmpInbound.
Local Open Scope Z_scope.

(** ** The largest batch *)

(** The footprint of the first [n] messages in a list of footprints. *)
Definition nth_batch (b : BatchesFootprints) (n : nat) : BatchFootprint :=
  match n with 0%nat => mkBatch 0 0 0 | S i => default (mkBatch 0 0 0) (footprints b !! i) end.

Lemma search_best_spec (f : BatchFootprint -> comparison) b :
  (forall x, f x <> Eq) ->
  exists n, (n <= length (footprints b))%nat /\ search_best_by f b = nth_batch b n /\
    (n <> 0%nat -> f (nth_batch b n) = Lt) /\
    ((forall i j x y, (i <= j)%nat -> footprints b !! i = Some x -> footprints b !! j = Some y -> f x = Gt -> f y = Gt) ->
     forall k, (n < k <= length (footprints b))%nat -> f (nth_batch b k) = Gt).
Proof.
  intros Hne. destruct (binary_search_spec f (footprints b) Hne) as (n & E & Hn & Hlt & Hgt).
  exists n. unfold search_best_by. rewrite E. split_and!; [done|by destruct n| |].
  - intros Hn0. destruct Hlt as [?|(x & Hx & Hf)]; [done|]. destruct n as [|i]; [done|]. cbn in Hx |- *. by rewrite Hx.
  - intros Hm [|i] Hk; [lia|]. cbn. destruct (lookup_lt_is_Some_2 (footprints b) i) as [y Hy]; [lia|].
    rewrite Hy. cbn. apply (Hgt Hm i y); [lia|done].
Qed.

(** ** The interface of the message queue *)

(** A decoded message has at least a byte and comes from the data. *)
Class DecoderLaws (W : Type) `{InboundConfig W} : Prop :=
  decoded_len data n : decode_with_depth_limit data = Some n -> (0 < n <= length data)%nat.

Definition bounded_xcms {W : Type} `{InboundConfig W} : list bytes -> Prop :=
  Forall (fun xcm => zlen xcm <= MaxXcmpMessageLen).

(** What the pallet expects of the message queue: which messages wait for a
    sibling, how many of its pages are ready and how many messages it has room
    for, and how long a page is.  Enqueueing appends, tells the pallet the new
    number of ready pages, and touches no other queue; the footprints tell after
    how many messages the limit is passed, the bytes of each batch, and no more
    new pages than messages. *)
Class SinkLaws (W : Type) `{QueueBounds, InboundConfig W} : Type := {
  sink_ok : W -> Prop;
  sink_waiting : ParaId -> W -> list bytes;
  sink_ready : ParaId -> W -> Z;
  sink_room : ParaId -> W -> Z;
  sink_page_len : Z;
  queue_of_with q w : queue_of (with_queue q w) = q;
  sink_with_queue q w : sink_ok w ->
    sink_ok (with_queue q w) /\ forall id, sink_waiting id (with_queue q w) = sink_waiting id w /\
      sink_ready id (with_queue q w) = sink_ready id w /\ sink_room id (with_queue q w) = sink_room id w;
  sink_footprints id xcms limit w :
    sink_ok w -> bounded_xcms xcms -> zlen xcms <= sink_room id w -> is_uint 32 limit ->
    exists b k, sink_get_batches_footprints id xcms limit w = Some b /\ (k <= length xcms)%nat /\
      msgs_count <$> footprints b = Z.of_nat <$> seq 1 k /\
      (forall n, (1 <= n <= length xcms)%nat ->
        ((n <= k)%nat <-> sink_ready id (sink_enqueue_messages (take n xcms) id w) <= limit)) /\
      0 <= first_page_pos b <= sink_page_len /\
      forall i batch, footprints b !! i = Some batch ->
        size_in_bytes batch = zlen (concat (take (S i) xcms)) /\ 0 <= new_pages_count batch <= Z.of_nat (S i);
  sink_enqueue id xcms w :
    sink_ok w -> bounded_xcms xcms -> zlen xcms <= sink_room id w ->
    let w' := sink_enqueue_messages xcms id w in
    sink_ok w' /\ sink_waiting id w' = sink_waiting id w ++ xcms /\ sink_room id w - zlen xcms <= sink_room id w' /\
    (xcms = [] -> sink_ready id w' = sink_ready id w) /\ sink_ready id w' <= sink_ready id w + zlen xcms /\
    queue_of w' = on_queue_changed id (sink_ready id w') (queue_of w) /\
    forall id', id' <> id -> sink_waiting id' w' = sink_waiting id' w /\ sink_ready id' w' = sink_ready id' w /\
      sink_room id' w' = sink_room id' w;
}.

(** ** The messages of a page *)

Section pages.
Context {W : Type} `{XcmpWeightInfo} {C : CompactCodec} {CL : CompactLaws C} `{QueueBounds, !InboundConfig W, !DecoderLaws W}.
Implicit Types (data : bytes) (meter : Meter.WeightMeter).

(** The first message and the data behind it, whatever it weighs. *)
Definition next_xcm encoding data : option (bytes * bytes) :=
  match encoding with
  | Simple =>
    n ← decode_with_depth_limit data;
    if zlen (take n data) <=? MaxXcmpMessageLen then Some (take n data, drop n data) else None
  | Double =>
    n ← compact_decode data;
    let data := drop (compact_len n) data in
    if zlen data <? n then None
    else if zlen (take (Z.to_nat n) data) <=? MaxXcmpMessageLen then Some (take (Z.to_nat n) data, drop (Z.to_nat n) data)
    else None
  end.

Fixpoint xcms_in (fuel : nat) encoding data : list bytes :=
  match fuel with
  | 0%nat => []
  | S fuel => match next_xcm encoding data with Some (xcm, data) => xcm :: xcms_in fuel encoding data | None => [] end
  end.

(** The messages up to the end of the data or the first that cannot be read. *)
Definition xcms_of encoding data : list bytes := xcms_in (length data) encoding data.

Lemma next_xcm_spec encoding data xcm rest :
  next_xcm encoding data = Some (xcm, rest) ->
  (length rest < length data)%nat /\ zlen xcm <= MaxXcmpMessageLen.
Proof.
  destruct encoding; cbn; intros (n & Hn & E)%bind_Some.
  - apply decoded_len in Hn. destruct (Z.leb_spec (zlen (take n data)) MaxXcmpMessageLen); simplify_eq.
    rewrite length_drop. lia.
  - apply compact_decode_canonical in Hn as [Hu [rest' ->]].
    pose proof (compact_len_encode n Hu) as Hl. pose proof (compact_len_pos n Hu).
    rewrite drop_app_length' in E by done. destruct (Z.ltb_spec (zlen rest') n); [done|].
    case_match eqn:Hm; simplify_eq. apply Z.leb_le in Hm. rewrite length_drop, length_app. lia.
Qed.

Lemma xcms_in_fuel encoding fuel : forall fuel' data,
  (length data <= fuel)%nat -> (length data <= fuel')%nat -> xcms_in fuel encoding data = xcms_in fuel' encoding data.
Proof.
  assert (Hnil : next_xcm encoding [] = None).
  { destruct (next_xcm encoding []) as [[]|] eqn:E; [|done]. apply next_xcm_spec in E as [? _]. cbn in *. lia. }
  induction fuel as [|fuel IH]; intros fuel' data Hf Hf'.
  - destruct data; [|cbn in Hf; lia]. destruct fuel'; cbn [xcms_in]; [done|]. by rewrite Hnil.
  - destruct fuel' as [|fuel']; cbn [xcms_in].
    + destruct data; [|cbn in Hf'; lia]. by rewrite Hnil.
    + destruct (next_xcm encoding data) as [[xcm rest]|] eqn:E; [|done]. apply next_xcm_spec in E as [? _].
      f_equal. apply IH; lia.
Qed.

Lemma xcms_of_unfold encoding data :
  xcms_of encoding data = match next_xcm encoding data with Some (xcm, rest) => xcm :: xcms_of encoding rest | None => [] end.
Proof.
  unfold xcms_of. rewrite (xcms_in_fuel encoding _ (S (length data))) by lia. cbn [xcms_in].
  destruct (next_xcm encoding data) as [[xcm rest]|] eqn:E; [|done]. apply next_xcm_spec in E as [? _].
  f_equal. apply xcms_in_fuel; lia.
Qed.

Lemma xcms_of_nil encoding : xcms_of encoding [] = [].
Proof. done. Qed.

(** Taking a message is reading it, unless the weight is used up. *)
Lemma take_first_spec encoding data meter :
  let '(r, data', meter') := take_first encoding data meter in
  match r with
  | Ok xcm => next_xcm encoding data = Some (xcm, data')
  | Err InvalidData => next_xcm encoding data = None
  | Err OutOfWeight => encoding = Simple
  | Panic => False
  end.
Proof.
  destruct encoding; cbn [take_first next_xcm].
  - unfold take_first_concatenated_xcm. destruct (Meter.try_consume _ _) as [m' [[]| |]]; try done.
    destruct (decode_with_depth_limit data) as [n|]; [|done]. cbn [mbind option_bind].
    unfold try_bounded. by destruct (_ <=? _).
  - unfold take_first_concatenated_opaque_xcm. destruct (compact_decode data) as [n|]; [|done]. cbn [mbind option_bind].
    destruct (_ <? _); [done|]. unfold try_bounded. by destruct (_ <=? _).
Qed.

(** What a batch taken from the data is. *)
Definition batch_taken encoding (size : Z) data (r : outcome (TakeXcmError * list bytes) (list bytes)) data' : Prop :=
  match r with
  | Ok batch =>
    bounded_xcms batch /\ zlen batch <= size /\ xcms_of encoding data = batch ++ xcms_of encoding data' /\
    (batch = [] -> xcms_of encoding data = []) /\ (batch <> [] -> (length data' < length data)%nat)
  | Err (e, batch) =>
    bounded_xcms batch /\ zlen batch <= size /\
    exists rest, xcms_of encoding data = batch ++ rest /\ (e = InvalidData -> rest = [])
  | Panic => False
  end.

Lemma take_xcms_spec encoding size data meter :
  0 < size ->
  exists r data' meter', take_first_concatenated_xcms data encoding size meter = Some (r, data', meter') /\
    batch_taken encoding size data r data'.
Proof.
  intros Hsize. unfold take_first_concatenated_xcms.
  destruct (loop_total
    (fun '(data1, _, batch) => bounded_xcms batch /\ zlen batch < size /\
       xcms_of encoding data = batch ++ xcms_of encoding data1 /\ (length data1 <= length data)%nat /\
       (batch <> [] -> (length data1 < length data)%nat))
    (fun '(r, data', _) => batch_taken encoding size data r data')
    (fun '(data1, _, _) => zlen data1) (take_round encoding size) (Pos.of_succ_nat (length data)) (data, meter, []))
    as ([[r data'] meter'] & -> & Hr); [| | | |by eauto].
  - intros [[data1 m] batch] _. unfold zlen. lia.
  - intros [[data1 m] batch] (Hb & Hlt & Hx & Hle & Hne). cbn [take_round].
    destruct (Nat.eqb_spec (length data1) 0) as [E|E].
    { apply length_zero_iff_nil in E as ->. rewrite xcms_of_nil, app_nil_r in Hx. split_and!; [done|lia|by rewrite app_nil_r| |done].
      congruence. }
    pose proof (take_first_spec encoding data1 m) as Ht. destruct (take_first encoding data1 m) as [[x data2] m2].
    rewrite (xcms_of_unfold encoding data1) in Hx.
    assert (Hcut : (length data2 < length data1)%nat -> (length data2 < length data)%nat) by lia.
    destruct x as [xcm|[]|]; [|by rewrite Ht in Hx; split_and!; [done|lia|exists []]|split_and!; [done|lia|eauto]|done].
    2: { eexists. split; [exact Hx|done]. }
    rewrite Ht in Hx. apply next_xcm_spec in Ht as [Hd2 Hm].
    assert (Hb' : bounded_xcms (batch ++ [xcm])) by (apply Forall_app_2; [done|by constructor]).
    assert (Hz : zlen (batch ++ [xcm]) = zlen batch + 1) by (unfold zlen; rewrite length_app; cbn; lia).
    rewrite cons_middle, app_assoc in Hx.
    destruct (Z.leb_spec size (zlen (batch ++ [xcm]))).
    + split_and!; [done|lia|done|by destruct batch|intros _; lia].
    + split; [split_and!; [done|lia|done|lia|intros _; lia]|]. unfold zlen. lia.
  - split_and!; [constructor|done|done|done|done].
  - unfold zlen. lia.
Qed.
End pages.

(** ** Batches *)

Section handling.
Context {W : Type} `{XcmpWeightInfo} {C : CompactCodec} {CL : CompactLaws C}.
Context `{QueueBounds, !InboundConfig W, !DecoderLaws W, !SinkLaws W}.
Implicit Types (w : W) (data : bytes) (meter : Meter.WeightMeter) (id sender : ParaId).

Definition threshold w : Z := drop_threshold (QueueConfig (queue_of w)).

(** The messages [xcms] of [id] were enqueued: they wait behind the others, no
    other queue is touched, and the ready pages are within the threshold or as
    before; at most one page is added per message. *)
Record fed id w (xcms : list bytes) w' : Prop := {
  fed_ok : sink_ok w';
  fed_waiting : sink_waiting id w' = sink_waiting id w ++ xcms;
  fed_room : sink_room id w - zlen xcms <= sink_room id w';
  fed_ready : sink_ready id w' <= Z.max (sink_ready id w) (threshold w);
  fed_growth : sink_ready id w' <= sink_ready id w + zlen xcms;
  fed_config : QueueConfig (queue_of w') = QueueConfig (queue_of w);
  fed_queue : queue_ok (queue_of w) ->
    queue_ok (queue_of w') /\ forall to, pages_of (queue_of w') to = pages_of (queue_of w) to;
  fed_others id' : id' <> id -> sink_waiting id' w' = sink_waiting id' w /\ sink_ready id' w' = sink_ready id' w /\
    sink_room id' w' = sink_room id' w;
}.

Lemma fed_nil id w : sink_ok w -> fed id w [] w.
Proof. intros Hok. split; try done; [by rewrite app_nil_r|unfold zlen; cbn; lia..]. Qed.

Lemma fed_trans id w xs w1 ys w2 : fed id w xs w1 -> fed id w1 ys w2 -> fed id w (xs ++ ys) w2.
Proof.
  intros [A1 A2 A3 A4 AG A5 A6 A7] [B1 B2 B3 B4 BG B5 B6 B7]. unfold threshold in *. rewrite A5 in B4, B5.
  split; try done.
  - by rewrite B2, A2, app_assoc.
  - unfold zlen in *. rewrite length_app. lia.
  - unfold threshold. lia.
  - unfold zlen in *. rewrite length_app. lia.
  - intros Hq. destruct (A6 Hq) as [Hq1 Hp1]. destruct (B6 Hq1) as [Hq2 Hp2]. split; [done|]. intros to. by rewrite Hp2.
  - intros id' Hne. destruct (A7 id' Hne) as (? & ? & ?), (B7 id' Hne) as (? & ? & ?). split_and!; congruence.
Qed.

Lemma on_queue_changed_config id n q : QueueConfig (on_queue_changed id n q) = QueueConfig q.
Proof. unfold on_queue_changed, send_signal, ok_or, try_push. repeat case_match; simplify_eq/=; done. Qed.

Lemma enqueue_fed id w xcms :
  sink_ok w -> bounded_xcms xcms -> zlen xcms <= sink_room id w ->
  sink_ready id (sink_enqueue_messages xcms id w) <= Z.max (sink_ready id w) (threshold w) ->
  fed id w xcms (sink_enqueue_messages xcms id w).
Proof.
  intros Hok Hb Hr Hready. destruct (sink_enqueue id xcms w Hok Hb Hr) as (? & ? & ? & _ & ? & Hq & ?).
  split; try done.
  - rewrite Hq. apply on_queue_changed_config.
  - intros Hqok. rewrite Hq. by apply on_queue_changed_ok.
Qed.

Lemma nth_batch_count b k n :
  msgs_count <$> footprints b = Z.of_nat <$> seq 1 k -> (n <= k)%nat -> msgs_count (nth_batch b n) = Z.of_nat n.
Proof.
  intros Hc Hn. destruct n as [|i]; [done|]. cbn [nth_batch].
  assert (Hi : (msgs_count <$> footprints b) !! i = Some (Z.of_nat (S i)))
    by (rewrite Hc, list_lookup_fmap, lookup_seq_lt by lia; done).
  rewrite list_lookup_fmap in Hi. by destruct (footprints b !! i); simplify_eq/=.
Qed.

Lemma last_count b k :
  msgs_count <$> footprints b = Z.of_nat <$> seq 1 k -> default 0 (msgs_count <$> list.last (footprints b)) = Z.of_nat k.
Proof.
  intros Hc. rewrite <- fmap_last, Hc. destruct k; [done|]. rewrite seq_S, fmap_app.
  change (Z.of_nat <$> [1 + k]%nat) with [Z.of_nat (S k)]. by rewrite last_snoc.
Qed.

(** A batch: the largest part of it for which there is weight, below the
    threshold. *)
Lemma enqueue_xcmp_messages_spec id xcms first meter w :
  sink_ok w -> bounded_xcms xcms -> zlen xcms <= sink_room id w -> is_uint 32 (threshold w) -> xcms <> [] ->
  exists r meter' w' n, enqueue_xcmp_messages id xcms first meter w = Some (r, meter', w') /\
    (n <= length xcms)%nat /\ fed id w (take n xcms) w' /\
    (has_out_of_weight_msgs r = false -> has_dropped_msgs r = false -> n = length xcms) /\
    (has_dropped_msgs r = true -> threshold w < sink_ready id (sink_enqueue_messages xcms id w)).
Proof.
  intros Hok Hb Hroom Hlim Hne. unfold enqueue_xcmp_messages. fold (threshold w).
  destruct (Nat.eqb_spec (length xcms) 0) as [E|E]; [by apply length_zero_iff_nil in E|].
  destruct (sink_footprints id xcms (threshold w) w Hok Hb Hroom Hlim) as (b & k & -> & Hk & Hcount & Hready & _).
  cbn [mbind option_bind]. rewrite (last_count b k Hcount).
  set (f := fun batch => if Meter.can_consume meter _ then Lt else Gt).
  destruct (search_best_spec f b) as (n & Hn & -> & _ & _); [intros x; unfold f; by destruct (Meter.can_consume _ _)|].
  assert (Hlen : length (footprints b) = k) by (by rewrite <- (length_fmap msgs_count), Hcount, length_fmap, length_seq).
  rewrite (nth_batch_count b k n Hcount) by lia. rewrite Nat2Z.id.
  eexists _, _, _, n. split; [reflexivity|]. split; [lia|]. cbn [has_out_of_weight_msgs has_dropped_msgs].
  assert (Hbn : bounded_xcms (take n xcms)) by by apply Forall_take.
  assert (Hrn : zlen (take n xcms) <= sink_room id w) by (unfold zlen in *; rewrite length_take; lia).
  split_and!.
  - apply enqueue_fed; try done. destruct n as [|n]; [|specialize (proj1 (Hready (S n) ltac:(lia)) ltac:(lia)); lia].
    destruct (sink_enqueue id (take 0 xcms) w Hok Hbn Hrn) as (_ & _ & _ & -> & _); [lia|done].
  - unfold zlen. intros H1%Z.ltb_ge H2%Z.ltb_ge. lia.
  - unfold zlen. intros Hd%Z.ltb_lt. destruct (Z.lt_ge_cases (threshold w) (sink_ready id (sink_enqueue_messages xcms id w))) as [|Hge]; [done|].
    rewrite <- (take_ge xcms (length xcms)) in Hge at 1 by lia. apply Hready in Hge; lia.
Qed.

(** ** Pages *)

(** Somewhere in [xcms] is a batch that would exceed the threshold. *)
Definition overflows id w (xcms : list bytes) : Prop :=
  exists pre batch rest w1, xcms = pre ++ batch ++ rest /\ fed id w pre w1 /\
    threshold w < sink_ready id (sink_enqueue_messages batch id w1).

Lemma overflows_exceeds id w xcms :
  overflows id w xcms -> sink_ok w -> bounded_xcms xcms -> zlen xcms <= sink_room id w ->
  threshold w < sink_ready id w + zlen xcms.
Proof.
  intros (pre & batch & rest & w1 & -> & Hf & Hlt) Hok Hb Hroom.
  apply Forall_app in Hb as [_ [Hb _]%Forall_app]. pose proof (fed_room _ _ _ _ Hf). pose proof (fed_growth _ _ _ _ Hf).
  unfold zlen in *. rewrite !length_app in *.
  destruct (sink_enqueue id batch w1 (fed_ok _ _ _ _ Hf) Hb) as (_ & _ & _ & _ & Hg & _); unfold zlen in *; lia.
Qed.

(** The messages [xcms] of a page were handled: a prefix was enqueued.  A page
    that may be retried is enqueued completely, but for what exceeds the
    threshold. *)
Definition page_fed id w (xcms : list bytes) (can_retry : bool) w' : Prop :=
  exists taken rest, xcms = taken ++ rest /\ fed id w taken w' /\ (rest = [] \/ can_retry = false \/ overflows id w xcms).

Definition page_result id w xcms (can_retry : bool) (r : outcome DispatchError unit) w' : Prop :=
  match r with
  | Ok _ => page_fed id w xcms can_retry w'
  | Err e => e = ModuleError RetryPage /\ can_retry = true
  | Panic => False
  end.

Lemma xcms_round_spec id encoding can_retry w xcms data first meter w1 taken :
  is_uint 32 (threshold w) -> zlen xcms <= sink_room id w ->
  xcms = taken ++ xcms_of encoding data -> fed id w taken w1 ->
  match xcms_round id encoding can_retry (data, first, meter, w1) with
  | inl (data', _, _, w2) => exists taken', xcms = taken' ++ xcms_of encoding data' /\ fed id w taken' w2 /\
      (length data' < length data)%nat
  | inr (Some (r, _, w2)) => page_result id w xcms can_retry r w2
  | inr None => False
  end.
Proof.
  intros Hlim Hroom Hx Hfed. cbn [xcms_round].
  destruct (take_xcms_spec encoding XCM_BATCH_SIZE data meter ltac:(done)) as (r & data' & meter' & -> & Hr).
  assert (Henq : forall batch rest, bounded_xcms batch -> batch <> [] -> xcms_of encoding data = batch ++ rest ->
    exists r meter2 w2 n, enqueue_xcmp_messages id batch first meter' w1 = Some (r, meter2, w2) /\
      fed id w (taken ++ take n batch) w2 /\ xcms = (taken ++ take n batch) ++ drop n batch ++ rest /\
      (has_out_of_weight_msgs r = false -> has_dropped_msgs r = false -> n = length batch) /\
      (has_dropped_msgs r = true -> overflows id w xcms)).
  { intros batch rest Hb Hne Hxs. pose proof (fed_config _ _ _ _ Hfed) as Hc.
    assert (Ht : threshold w1 = threshold w) by (unfold threshold; by rewrite Hc).
    destruct (enqueue_xcmp_messages_spec id batch first meter' w1) as (r1 & meter2 & w2 & n & E & Hn & Hf & Hall & Hdrop);
      [apply Hfed|done| |by rewrite Ht|done|].
    { pose proof (fed_room _ _ _ _ Hfed). rewrite Hx, Hxs in Hroom. unfold zlen in *. rewrite !length_app in Hroom. lia. }
    exists r1, meter2, w2, n. split_and!; [done|by eapply fed_trans| |done|].
    - by rewrite <- app_assoc, (app_assoc (take n batch)), take_drop, <- Hxs.
    - intros Hd. exists taken, batch, rest, w1. rewrite Hx, Hxs. split_and!; [done|done|]. rewrite <- Ht. by apply Hdrop. }
  assert (Hdone : forall (batch : list bytes) rest, length batch = 0%nat -> xcms_of encoding data = batch ++ rest ->
    rest = [] \/ can_retry = false -> page_fed id w xcms can_retry w1).
  { intros batch rest ->%length_zero_iff_nil Hxs Hor. exists taken, rest. rewrite Hx, Hxs. split_and!; [done|done|tauto]. }
  destruct r as [batch|[e batch]|]; [| |done].
  - destruct Hr as (Hb & _ & Hxs & Hnil & Hcut). destruct (Nat.eqb_spec (length batch) 0) as [E0|E0].
    { eapply Hdone; [exact E0|exact Hxs|]. left. apply length_zero_iff_nil in E0. subst batch. rewrite <- Hnil by done. symmetry. exact Hxs. }
    assert (Hne : batch <> []) by by intros ->.
    destruct (Henq batch _ Hb Hne Hxs) as (r1 & meter2 & w2 & n & -> & Hf & Hsplit & Hall & Hdrop).
    destruct (has_out_of_weight_msgs r1) eqn:Hoow.
    { destruct can_retry; [done|]. eexists _, _. split_and!; [exact Hsplit|done|auto]. }
    destruct (has_dropped_msgs r1) eqn:Hdropped; [eexists _, _; split_and!; [exact Hsplit|done|auto]|].
    exists (taken ++ take n batch). rewrite (Hall eq_refl eq_refl) in *. rewrite take_ge, drop_ge in * by lia.
    split_and!; [by rewrite Hx, Hxs, app_assoc|done|auto].
  - destruct Hr as (Hb & _ & rest & Hxs & Hinv). case_bool_decide as He; cbn [andb].
    + destruct can_retry; [done|]. destruct (Nat.eqb_spec (length batch) 0) as [E0|E0]; [apply (Hdone batch rest); auto|].
      destruct (Henq batch rest Hb ltac:(by intros ->) Hxs) as (r1 & meter2 & w2 & n & -> & Hf & Hsplit & _).
      rewrite andb_false_r. eexists _, _. split_and!; [exact Hsplit|done|auto].
    + assert (Hrest : rest = []) by (apply Hinv; by destruct e). subst rest.
      destruct (Nat.eqb_spec (length batch) 0) as [E0|E0]; [apply (Hdone batch []); auto|].
      destruct (Henq batch [] Hb ltac:(by intros ->) Hxs) as (r1 & meter2 & w2 & n & -> & Hf & Hsplit & Hall & Hdrop).
      destruct (has_out_of_weight_msgs r1) eqn:Hoow, can_retry; try done; cbn [andb];
        (eexists _, _; split_and!; [exact Hsplit|done|]); auto.
      destruct (has_dropped_msgs r1) eqn:Hd; [auto|]. left. rewrite (Hall eq_refl eq_refl), drop_ge by lia. done.
Qed.

(** What the transaction around a page makes of its result. *)
Definition page_outcome id w xcms (can_retry : bool) (r : outcome DispatchError unit) w' : Prop :=
  match r with
  | Ok _ => page_fed id w xcms can_retry w'
  | Err LimitReached => w' = w /\ transaction_available w = false
  | Err _ => w' = w /\ can_retry = true
  | Panic => False
  end.

Lemma handle_xcms_page_spec sender encoding data known meter can_retry w :
  sink_ok w -> is_uint 32 (threshold w) -> zlen (xcms_of encoding data) <= sink_room sender w ->
  exists r known' meter' w', handle_xcms_page sender encoding data known meter can_retry w = Some (r, (known', meter'), w') /\
    page_outcome sender w (xcms_of encoding data) can_retry r w'.
Proof.
  intros Hok Hlim Hroom. unfold handle_xcms_page, transactional. cbv zeta.
  destruct (transaction_available w) eqn:Hav; [|by eexists _, _, _, _].
  set (first := negb _). assert (Hskip : page_fed sender w (xcms_of encoding data) false w).
  { exists [], (xcms_of encoding data). split_and!; [done|by apply fed_nil|auto]. }
  destruct (if first then _ else _) as [m [[]|[]|]]; cbn [mbind option_bind];
    [|by destruct can_retry; eexists _, _, _, _..].
  destruct (loop_total
    (fun '(data1, _, _, w1) => exists taken, xcms_of encoding data = taken ++ xcms_of encoding data1 /\
       fed sender w taken w1 /\ (length data1 <= length data)%nat)
    (fun r => match r with
              | Some (r, _, w') => page_result sender w (xcms_of encoding data) can_retry r w'
              | None => False
              end)
    (fun '(data1, _, _, _) => zlen data1) (xcms_round sender encoding can_retry) (Pos.of_succ_nat (length data))
    (data, first, m, w)) as ([[[r m'] w']|] & -> & Hr); [| | | | |done].
  - intros [[[data1 b] m1] w1] _. unfold zlen. lia.
  - intros [[[data1 b] m1] w1] (taken & Hx & Hf & Hle).
    pose proof (xcms_round_spec sender encoding can_retry w _ data1 b m1 w1 taken Hlim Hroom Hx Hf) as Hround.
    destruct (xcms_round _ _ _ _) as [[[[data2 b2] m2] w2]|[[[r m2] w2]|]]; [|done|done].
    destruct Hround as (taken' & Hx' & Hf' & Hlt). split; [|unfold zlen; lia]. exists taken'. split_and!; [done|done|lia].
  - exists []. split_and!; [done|by apply fed_nil|done].
  - unfold zlen. lia.
  - destruct r as [[]|e|]; [| |done]; eexists _, _, _, _; (split; [reflexivity|]); [done|].
    destruct Hr as [-> Hretry]. done.
Qed.

(** ** Signals *)

(** The first signals of the data, at most [n]. *)
Fixpoint signals_of (n : nat) data : list ChannelSignal :=
  match n with
  | 0%nat => []
  | S n => match decode_signal data with Some (signal, data) => signal :: signals_of n data | None => [] end
  end.

Definition obey sender (q : Queue) (signal : ChannelSignal) : Queue :=
  match signal with Suspend => suspend_channel sender q | Resume => resume_channel sender q end.

Lemma obey_ok sender q signal :
  QueueConfig (obey sender q signal) = QueueConfig q /\
  (queue_ok q -> queue_ok (obey sender q signal) /\ forall to, pages_of (obey sender q signal) to = pages_of q to).
Proof.
  split.
  - destruct signal; cbn; unfold suspend_channel, resume_channel; repeat case_match; done.
  - intros Hq. destruct signal; [apply suspend_channel_ok|apply resume_channel_ok]; done.
Qed.

(** A change of the pallet's own storage. *)
Lemma fed_queue_change id w q :
  sink_ok w -> QueueConfig q = QueueConfig (queue_of w) ->
  (queue_ok (queue_of w) -> queue_ok q /\ forall to, pages_of q to = pages_of (queue_of w) to) ->
  fed id w [] (with_queue q w).
Proof.
  intros Hok Hc Hq. destruct (sink_with_queue q w Hok) as [Hok' Hs]. destruct (Hs id) as (E1 & E2 & E3).
  split; rewrite ?queue_of_with; try done.
  - by rewrite E1, app_nil_r.
  - rewrite E3. unfold zlen. cbn. lia.
  - rewrite E2. lia.
  - rewrite E2. unfold zlen. cbn. lia.
Qed.

(** The signals of a page are obeyed in order; those for which the weight is
    missing are dropped only when the page cannot be retried. *)
Definition signals_obeyed sender w data (can_retry : bool) w' : Prop :=
  exists obeyed rest, signals_of 3 data = obeyed ++ rest /\ queue_of w' = foldl (obey sender) (queue_of w) obeyed /\
    (rest = [] \/ can_retry = false).

Lemma signals_round_spec sender can_retry w data count data1 meter w1 obeyed :
  sink_ok w -> 0 <= count <= 3 ->
  signals_of 3 data = obeyed ++ signals_of (Z.to_nat (3 - count)) data1 ->
  queue_of w1 = foldl (obey sender) (queue_of w) obeyed -> fed sender w [] w1 ->
  match signals_round sender can_retry (count, data1, meter, w1) with
  | inl (count', data2, _, w2) => count' = count + 1 /\ count' <= 3 /\
      exists obeyed', signals_of 3 data = obeyed' ++ signals_of (Z.to_nat (3 - count')) data2 /\
        queue_of w2 = foldl (obey sender) (queue_of w) obeyed' /\ fed sender w [] w2
  | inr (r, _, w2) =>
    match r with
    | Ok _ => fed sender w [] w2 /\ signals_obeyed sender w data can_retry w2
    | Err e => e = ModuleError RetryPage /\ can_retry = true
    | Panic => False
    end
  end.
Proof.
  intros Hok Hc Hs Hq Hf.
  assert (Hend : signals_of (Z.to_nat (3 - count)) data1 = [] \/ can_retry = false ->
    fed sender w [] w1 /\ signals_obeyed sender w data can_retry w1).
  { intros Hor. split; [done|]. by exists obeyed, (signals_of (Z.to_nat (3 - count)) data1). }
  assert (Hnone : decode_signal data1 = None -> signals_of (Z.to_nat (3 - count)) data1 = []).
  { intros E. destruct (Z.to_nat (3 - count)); cbn; [done|]. by rewrite E. }
  assert (Hgo : forall signal data2, decode_signal data1 = Some (signal, data2) -> count + 1 <= 3 ->
    exists obeyed', signals_of 3 data = obeyed' ++ signals_of (Z.to_nat (3 - (count + 1))) data2 /\
      queue_of (with_queue (obey sender (queue_of w1) signal) w1) = foldl (obey sender) (queue_of w) obeyed' /\
      fed sender w [] (with_queue (obey sender (queue_of w1) signal) w1)).
  { intros signal data2 E Hle. exists (obeyed ++ [signal]). split_and!.
    - rewrite Hs. replace (Z.to_nat (3 - count)) with (S (Z.to_nat (3 - (count + 1)))) by lia. cbn [signals_of].
      by rewrite E, <- app_assoc.
    - by rewrite queue_of_with, foldl_app, <- Hq.
    - apply (fed_trans _ _ [] w1 []); [done|]. apply fed_queue_change; [apply Hf|apply obey_ok..]. }
  cbn [signals_round]. destruct (Nat.eqb_spec (length data1) 0) as [E|E].
  { apply length_zero_iff_nil in E as ->. apply Hend. left. by apply Hnone. }
  destruct (Z.ltb_spec MAX_SIGNALS_PER_PAGE (count + 1)) as [Hm|Hm]; unfold MAX_SIGNALS_PER_PAGE in Hm.
  { apply Hend. left. by replace (Z.to_nat (3 - count)) with 0%nat by lia. }
  destruct (decode_signal data1) as [[[] data2]|] eqn:E1; [| |by apply Hend; left; apply Hnone];
    (destruct (Meter.try_consume meter _) as [m [[]|[]|]];
      [split_and!; [done|lia|]; exact (Hgo _ data2 eq_refl Hm)|destruct can_retry; auto..]).
Qed.

Lemma handle_signals_page_spec sender data meter can_retry w :
  sink_ok w ->
  exists r meter' w', handle_signals_page sender data meter can_retry w = Some (r, meter', w') /\
    page_outcome sender w [] can_retry r w' /\ (r = Ok tt -> signals_obeyed sender w data can_retry w').
Proof.
  intros Hok. unfold handle_signals_page, transactional.
  destruct (transaction_available w) eqn:Hav; [|by eexists _, _, _].
  destruct (loop_total
    (fun '(count, data1, _, w1) => 0 <= count <= 3 /\ exists obeyed,
       signals_of 3 data = obeyed ++ signals_of (Z.to_nat (3 - count)) data1 /\
       queue_of w1 = foldl (obey sender) (queue_of w) obeyed /\ fed sender w [] w1)
    (fun '(r, _, w') =>
       match r with
       | Ok _ => fed sender w [] w' /\ signals_obeyed sender w data can_retry w'
       | Err e => e = ModuleError RetryPage /\ can_retry = true
       | Panic => False
       end)
    (fun '(count, _, _, _) => 3 - count) (signals_round sender can_retry) 4 (0, data, meter, w))
    as ([[r m'] w'] & -> & Hr).
  - intros [[[count data1] m1] w1] [? _]. lia.
  - intros [[[count data1] m1] w1] (Hc & obeyed & Hs & Hq & Hf).
    pose proof (signals_round_spec sender can_retry w data count data1 m1 w1 obeyed Hok Hc Hs Hq Hf) as Hround.
    destruct (signals_round _ _ _) as [[[[count2 data2] m2] w2]|[[r m2] w2]]; [|done].
    destruct Hround as (-> & Hle & Hex). split; [|lia]. split; [lia|done].
  - split; [lia|]. exists []. split_and!; [done|done|by apply fed_nil].
  - lia.
  - cbn [mbind option_bind]. eexists _, _, _. split; [reflexivity|].
    destruct r as [[]|e|]; [|by destruct Hr as [-> ?]|done]. destruct Hr as [Hf Hs]. split; [|done].
    exists [], []. split_and!; [done|done|by left].
Qed.

(** The messages of a page, after its format. *)
Definition page_xcms (page : bytes) : list bytes :=
  match decode_format page with
  | Some ConcatenatedVersionedXcm => xcms_of Simple (drop 1 page)
  | Some ConcatenatedOpaqueVersionedXcm => xcms_of Double (drop 1 page)
  | _ => []
  end.

(** After a change of the pallet's own storage only. *)
Lemma page_fed_after id w w1 xcms can_retry w' :
  fed id w [] w1 -> page_fed id w1 xcms can_retry w' -> page_fed id w xcms can_retry w'.
Proof.
  intros Hf (taken & rest & Hx & Ht & Hor). exists taken, rest.
  split_and!; [done|by apply (fed_trans id w [] w1 taken)|]. destruct Hor as [?|[?|Ho]]; auto. right. right.
  destruct Ho as (pre & batch & rest' & w2 & Hx' & Hpre & Hlt). exists pre, batch, rest', w2.
  split_and!; [done|by apply (fed_trans id w [] w1 pre)|]. unfold threshold in *. by rewrite (fed_config _ _ _ _ Hf) in Hlt.
Qed.

Lemma notice_fed id w : sink_ok w -> fed id w [] (with_queue (notice_opaque_support id (queue_of w)) w).
Proof.
  intros Hok. apply fed_queue_change; [done| |apply notice_opaque_support_ok].
  unfold notice_opaque_support. by repeat case_match.
Qed.

(** A page is processed, or left for the next block with no message enqueued. *)
Definition page_handled sender w xcms (can_retry : bool) (processed : bool) w' : Prop :=
  if processed then page_fed sender w xcms can_retry w'
  else fed sender w [] w' /\ (can_retry = true \/ exists w1, transaction_available w1 = false).

Lemma outcome_handled sender w w1 xcms can_retry r w' :
  fed sender w [] w1 -> page_outcome sender w1 xcms can_retry r w' ->
  page_handled sender w xcms can_retry (match r with Ok _ => true | _ => false end) w'.
Proof.
  intros Hf Ho. destruct r as [[]|[]|]; cbn in *; [by eapply page_fed_after|destruct Ho as [-> ?]; eauto..|done].
Qed.

Lemma handle_page_spec sender page can_retry known meter w :
  sink_ok w -> is_uint 32 (threshold w) -> zlen (page_xcms page) <= sink_room sender w ->
  exists processed known' meter' w', handle_page sender page can_retry known meter w = Some (processed, known', meter', w') /\
    page_handled sender w (page_xcms page) can_retry processed w'.
Proof.
  intros Hok Hlim Hroom. unfold handle_page, page_xcms in *. cbv zeta.
  assert (Hnil : page_fed sender w [] can_retry w) by (exists [], []; split_and!; [done|by apply fed_nil|auto]).
  pose proof (fed_nil sender w Hok) as Hsame. pose proof (notice_fed sender w Hok) as Hnotice.
  destruct (decode_format page) as [[]|]; [| | | |by eexists _, _, _, _].
  - destruct (handle_xcms_page_spec sender Simple (drop 1 page) known meter can_retry w Hok Hlim Hroom)
      as (r & known' & meter' & w' & -> & Ho). eexists _, _, _, _. split; [reflexivity|]. exact (outcome_handled _ _ _ _ _ _ _ Hsame Ho).
  - by eexists _, _, _, _.
  - destruct (handle_signals_page_spec sender (drop 1 page) meter can_retry w Hok) as (r & meter' & w' & -> & Ho & _).
    eexists _, _, _, _. split; [reflexivity|]. exact (outcome_handled _ _ _ _ _ _ _ Hsame Ho).
  - destruct (handle_xcms_page_spec sender Double (drop 1 page) known meter can_retry
      (with_queue (notice_opaque_support sender (queue_of w)) w)) as (r & known' & meter' & w' & -> & Ho).
    + apply Hnotice.
    + unfold threshold. by rewrite (fed_config _ _ _ _ Hnotice).
    + pose proof (fed_room _ _ _ _ Hnotice) as Hr. change (zlen (@nil bytes)) with 0 in Hr. lia.
    + eexists _, _, _, _. split; [reflexivity|]. exact (outcome_handled _ _ _ _ _ _ _ Hnotice Ho).
Qed.

(** ** Runs *)

(** The messages of [id] among what was taken from the pages. *)
Definition taken_of id (pages : list (ParaId * bytes)) (taken : list (list bytes)) : list bytes :=
  concat (zip_with (fun p t => if decide (p.1 = id) then t else []) pages taken).

(** All messages of [id] in the pages. *)
Definition arriving id (pages : list (ParaId * bytes)) : list bytes :=
  taken_of id pages ((fun p => page_xcms p.2) <$> pages).

(** The pages one after the other: a prefix of the messages of each is enqueued,
    all of them if the page could be retried, until the pages end or one is left
    for the next block. *)
Inductive pages_run : bool -> W -> list (ParaId * bytes) -> list (list bytes) -> W -> Prop :=
| run_done can_retry w : pages_run can_retry w [] [] w
| run_retry can_retry w sender page pages w' :
  fed sender w [] w' -> can_retry = true \/ (exists w1, transaction_available w1 = false) ->
  pages_run can_retry w ((sender, page) :: pages) [] w'
| run_page can_retry w sender page pages taken rest w1 takens w' :
  page_xcms page = taken ++ rest -> fed sender w taken w1 ->
  rest = [] \/ can_retry = false \/ overflows sender w (page_xcms page) ->
  pages_run true w1 pages takens w' ->
  pages_run can_retry w ((sender, page) :: pages) (taken :: takens) w'.

Definition rooms w (pages : list (ParaId * bytes)) : Prop :=
  forall id, zlen (arriving id pages) <= sink_room id w.

Lemma arriving_cons id sender page pages :
  arriving id ((sender, page) :: pages) = (if decide (sender = id) then page_xcms page else []) ++ arriving id pages.
Proof. done. Qed.

Lemma rooms_after w sender page pages taken rest w1 :
  rooms w ((sender, page) :: pages) -> page_xcms page = taken ++ rest -> fed sender w taken w1 -> rooms w1 pages.
Proof.
  intros Hr Hx Hf id. specialize (Hr id). rewrite arriving_cons in Hr. unfold zlen in *. rewrite length_app in Hr.
  destruct (decide (sender = id)) as [<-|Hne].
  - pose proof (fed_room _ _ _ _ Hf) as Hroom. unfold zlen in Hroom. rewrite Hx, length_app in Hr. lia.
  - destruct (fed_others _ _ _ _ Hf id) as (_ & _ & ->); [done|]. cbn in Hr. lia.
Qed.

Lemma handle_pages_spec pages : forall num known meter w,
  sink_ok w -> is_uint 32 (threshold w) -> rooms w pages -> 0 <= num -> num + zlen pages <= umax 64 ->
  exists meter' w' takens, handle_pages pages num known meter w = Some (num + zlen takens, meter', w') /\
    pages_run (0 <? num) w pages takens w'.
Proof.
  induction pages as [|[sender page] pages IH]; intros num known meter w Hok Hlim Hrooms Hnum Hmax; cbn [handle_pages].
  { eexists _, _, []. split; [|constructor]. unfold zlen. cbn [length]. do 3 f_equal. lia. }
  assert (Hroom : zlen (page_xcms page) <= sink_room sender w).
  { specialize (Hrooms sender). rewrite arriving_cons, decide_True in Hrooms by done. unfold zlen in *.
    rewrite length_app in Hrooms. lia. }
  destruct (handle_page_spec sender page (0 <? num) known meter w Hok Hlim Hroom)
    as (processed & known' & meter' & w1 & -> & Hp). cbn [mbind option_bind]. destruct processed.
  - destruct Hp as (taken & rest & Hx & Hf & Hor).
    assert (Hw : wrapping 64 (num + 1) = num + 1).
    { apply wrapping_id. unfold is_uint, zlen in *. cbn [length] in Hmax. lia. }
    rewrite Hw. destruct (IH (num + 1) known' meter' w1) as (meter2 & w2 & takens & -> & Hrun).
    + apply Hf.
    + unfold threshold. by rewrite (fed_config _ _ _ _ Hf).
    + by eapply rooms_after.
    + lia.
    + unfold zlen in *. cbn [length] in Hmax. lia.
    + exists meter2, w2, (taken :: takens). split; [unfold zlen; cbn [length]; do 3 f_equal; lia|].
      eapply run_page; [done|done|done|]. by destruct (Z.ltb_spec 0 (num + 1)); [|lia].
  - destruct Hp as [Hf Hor]. exists meter', w1, []. split; [unfold zlen; cbn [length]; do 3 f_equal; lia|by apply run_retry].
Qed.

(** What a run leaves, for every sibling. *)
Lemma run_effect can_retry w pages takens w' :
  pages_run can_retry w pages takens w' -> sink_ok w ->
  sink_ok w' /\ threshold w' = threshold w /\ (length takens <= length pages)%nat /\
  (queue_ok (queue_of w) -> queue_ok (queue_of w') /\ forall to, pages_of (queue_of w') to = pages_of (queue_of w) to) /\
  forall id, sink_waiting id w' = sink_waiting id w ++ taken_of id pages takens /\
    sink_ready id w' <= Z.max (sink_ready id w) (threshold w).
Proof.
  assert (Hone : forall sender w taken w1, fed sender w taken w1 -> forall id,
    sink_waiting id w1 = sink_waiting id w ++ (if decide (sender = id) then taken else []) /\
    sink_ready id w1 <= Z.max (sink_ready id w) (threshold w)).
  { intros sender w0 taken w1 Hf id. destruct (decide (sender = id)) as [<-|Hne]; [split; apply Hf|].
    destruct (fed_others _ _ _ _ Hf id) as (-> & -> & _); [done|]. rewrite app_nil_r. split; [done|lia]. }
  induction 1 as [can_retry w|can_retry w sender page pages w' Hf _|can_retry w sender page pages taken rest w1 takens w' Hx Hf _ _ IH];
    intros Hok.
  - split_and!; try done. intros id. cbn. rewrite app_nil_r. split; [done|lia].
  - split_and!; [apply Hf|unfold threshold; by rewrite (fed_config _ _ _ _ Hf)|cbn; lia|apply Hf|].
    intros id. destruct (Hone _ _ _ _ Hf id) as [Hw Hr]. split; [|done]. rewrite Hw. by destruct (decide _).
  - destruct (IH (fed_ok _ _ _ _ Hf)) as (Hok' & Ht & Hlen & Hq & Hall).
    assert (Ht1 : threshold w1 = threshold w) by (unfold threshold; by rewrite (fed_config _ _ _ _ Hf)).
    split_and!; [done|congruence|cbn; lia| |].
    + intros Hq0. destruct (fed_queue _ _ _ _ Hf Hq0) as [Hq1 Hp1]. destruct (Hq Hq1) as [Hq2 Hp2].
      split; [done|]. intros to. by rewrite Hp2.
    + intros id. destruct (Hone _ _ _ _ Hf id) as [Hw Hr], (Hall id) as [Hw' Hr']. split; [|lia].
      rewrite Hw', Hw, <- app_assoc. done.
Qed.
End handling.
