(* ===== verification/XcmpMq.v ===== *)
(** * The XCMP queue on top of the message queue

    The composition a parachain runtime makes: the messages of siblings go to the
    message queue under the origin [Sibling], and its change handler and pause
    query are those of the XCMP queue, narrowed to siblings
    ([cumulus/parachains/common/src/message_queue.rs],
    [cumulus/primitives/core/src/lib.rs] and [TransformOrigin] of
    [substrate/frame/support/src/traits/messages.rs]).  The message queue is shown
    to keep the promises of [SinkLaws]. *)

From stdpp Require Import base option numbers list gmap.
From Stdlib Require Import ZArith Lia.
From S2P Require Import Prelude Codec Traits Weights MqPage MessageQueue MqRing MqInv MqService MqFootprint.
From S2P Require Import Segment ParaSystem XcmpQueue XcmpQueueProofs XcmpInbound XcmpInboundProofs.
Local Open Scope Z_scope.

Inductive AggregateMessageOrigin : Set :=
| Here
| Parent
| Sibling (id : ParaId).

#[export] Instance AggregateMessageOrigin_eq_dec : EqDecision AggregateMessageOrigin.
Proof. solve_decision. Defined.

#[export] Instance AggregateMessageOrigin_countable : Countable AggregateMessageOrigin.
Proof.
  refine (inj_countable'
    (fun o => match o with Here => inl false | Parent => inl true | Sibling id => inr id end)
    (fun x => match x with inl false => Here | inl true => Parent | inr id => Sibling id end) _).
  by intros [].
Defined.

(** [ParaIdToSibling]. *)
Definition convert (para_id : ParaId) : AggregateMessageOrigin := Sibling para_id.

(** The storage of the two pallets: the rest of the message queue's storage is
    that of the XCMP queue. *)
Abbreviation World := (Storage AggregateMessageOrigin Queue).

Definition set_queue (q : Queue) (s : World) : World :=
  mkStorage (BookStateFor s) (ServiceHead s) (Pages s) (Events s) q.

(** [NarrowOriginToSibling]. *)
Definition narrow_on_queue_changed `{QueueBounds} (origin : AggregateMessageOrigin) (fp : QueueFootprint) (s : World) : World :=
  match origin with
  | Sibling id => set_queue (XcmpQueue.on_queue_changed id (fp_ready_pages fp) (Rest s)) s
  | _ => s
  end.

Definition narrow_is_paused (is_controller : ParaId -> bool) (origin : AggregateMessageOrigin) (s : World) : bool :=
  match origin with
  | Sibling id => xcmp_is_paused is_controller id (Rest s)
  | _ => false
  end.

Section composition.
Context {HC : HeaderCodec} {HL : HeaderLaws HC} {HS : HeapSize}.
Context `{QueueBounds} {MQ : Config AggregateMessageOrigin Queue}.
Context (decode : bytes -> option nat).

Hypothesis heap_size_fits : heap_size <= umax size_bits.
Hypothesis heap_size_header : Z.of_nat header_len <= heap_size.
Hypothesis handler : forall o fp s, MessageQueue.on_queue_changed o fp s = narrow_on_queue_changed o fp s.

(** [TransformOrigin<MessageQueue, AggregateMessageOrigin, ParaId, ParaIdToSibling>]. *)
Definition mq_inbound : InboundConfig World := {|
  queue_of s := Rest s;
  with_queue := set_queue;
  sink_get_batches_footprints id xcms limit s := get_batches_footprints (convert id) xcms limit s;
  sink_enqueue_messages xcms id s := enqueue_messages xcms (convert id) s;
  MaxXcmpMessageLen := max_message_len;
  decode_with_depth_limit := decode;
  transaction_available := layer_available;
|}.
#[local] Existing Instance mq_inbound.

Lemma set_queue_agrees q (s : World) : agrees s (set_queue q s).
Proof. done. Qed.

#[local] Instance narrow_quiet : QuietHandler.
Proof. intros o fp s. rewrite handler. by destruct o. Qed.

Definition ready_pages_of (id : ParaId) (s : World) : Z := fp_ready_pages (footprint_of (get_book (convert id) s)).

Lemma agrees_ready s s' id : agrees s s' -> ready_pages_of id s' = ready_pages_of id s.
Proof. intros Ha. unfold ready_pages_of. by rewrite (agrees_book _ _ Ha). Qed.

(** Enqueueing as the sink sees it. *)
Lemma mq_enqueue id xcms (s : World) l :
  mq_inv s l -> bounded xcms -> bs_end (get_book (convert id) s) + zlen xcms <= umax 32 - 1 ->
  let s' := enqueue_messages xcms (convert id) s in
  (exists l', mq_inv s' l') /\ waiting (convert id) s' = waiting (convert id) s ++ xcms /\
  bs_end (get_book (convert id) s) <= bs_end (get_book (convert id) s') <= bs_end (get_book (convert id) s) + zlen xcms /\
  bs_begin (get_book (convert id) s') = bs_begin (get_book (convert id) s) /\
  ready_pages_of id s' = ready_pages_of id (do_enqueue_messages (convert id) xcms s) /\
  Rest s' = XcmpQueue.on_queue_changed id (ready_pages_of id s') (Rest s) /\
  forall id', id' <> id -> waiting (convert id') s' = waiting (convert id') s /\
    bs_begin (get_book (convert id') s') = bs_begin (get_book (convert id') s) /\
    bs_end (get_book (convert id') s') = bs_end (get_book (convert id') s).
Proof.
  intros Hinv Hb Hroom s'.
  destruct (do_enqueue_messages_spec heap_size_fits heap_size_header s l (convert id) xcms Hinv Hb) as [He Hinv'].
  { unfold zlen in *. lia. }
  assert (Ha : agrees (do_enqueue_messages (convert id) xcms s) s').
  { unfold s', enqueue_messages. apply narrow_quiet. }
  split_and!.
  - eexists. by apply (agrees_inv _ _ _ Ha).
  - rewrite (agrees_waiting _ _ _ Ha). apply He.
  - rewrite (agrees_book _ _ Ha). apply (enqd_end _ _ _ _ He).
  - rewrite (agrees_book _ _ Ha). apply (enqd_end _ _ _ _ He).
  - rewrite (agrees_book _ _ Ha). apply He.
  - by apply agrees_ready.
  - rewrite (agrees_ready _ _ _ Ha). unfold s', enqueue_messages. rewrite handler. cbn.
    by rewrite (proj2 (enqd_rest _ _ _ _ He)).
  - intros id' Hne. destruct (enqd_others _ _ _ _ He (convert id')) as [Hb' Hp]; [by intros [=]|].
    rewrite (agrees_waiting _ _ _ Ha), (agrees_book _ _ Ha), Hb'. split_and!; [|done|done].
    unfold waiting. rewrite Hb'. apply list_bind_ext; [|done]. intros i. by rewrite Hp.
Qed.

Lemma mq_sink : SinkLaws World.
Proof.
  refine {|
    sink_ok s := exists l, mq_inv s l;
    sink_waiting id s := waiting (convert id) s;
    sink_ready := ready_pages_of;
    sink_room id s := umax 32 - 1 - bs_end (get_book (convert id) s);
    sink_page_len := heap_size;
  |}.
  - done.
  - intros q s [l Hinv]. split; [exists l; by apply (agrees_inv s)|done].
  - intros id xcms limit s [l Hinv] Hb Hroom Hlim.
    destruct (footprints_of_prefixes heap_size_fits heap_size_header s l (convert id) xcms limit)
      as (b & k & Hfp & Hk & Hbs & Hiff); [done|done|unfold zlen in *; lia|done|].
    assert (Hpre : forall n, bounded (take n xcms) /\ bs_end (get_book (convert id) s) + zlen (take n xcms) <= umax 32 - 1).
    { intros n. split; [by apply Forall_take|]. unfold zlen in *. rewrite length_take. lia. }
    exists b, k. split_and!; [done|done| | |exact (proj1 (footprints_pos heap_size_fits heap_size_header _ _ _ _ _ _ Hinv Hfp))|
      exact (proj2 (footprints_pos heap_size_fits heap_size_header _ _ _ _ _ _ Hinv Hfp))|].
    + rewrite Hbs, <- list_fmap_compose. by apply list_fmap_ext.
    + intros n Hn. rewrite (Hiff n Hn). cbn [sink_enqueue_messages mq_inbound]. destruct (Hpre n) as [Hp1 Hp2].
      by destruct (mq_enqueue id (take n xcms) s l Hinv Hp1 Hp2) as (_ & _ & _ & _ & -> & _).
    + intros i batch Hi. rewrite Hbs, list_lookup_fmap in Hi. apply fmap_Some in Hi as (n & [-> _]%lookup_seq & ->).
      cbn [size_in_bytes new_pages_count]. rewrite batch_size_concat. split; [done|]. destruct (Hpre (1 + i)%nat) as [Hp1 Hp2].
      destruct (do_enqueue_messages_spec heap_size_fits heap_size_header s l (convert id) _ Hinv Hp1) as [He _]; [unfold zlen in *; lia|].
      pose proof (enqd_end _ _ _ _ He). unfold zlen in *. rewrite length_take in *. lia.
  - intros id xcms s [l Hinv] Hb Hroom w'.
    destruct (mq_enqueue id xcms s l Hinv Hb) as (Hinv' & Hw & He & Hbe & _ & Hq & Ho); [lia|].
    change (enqueue_messages xcms (convert id) s) with w' in *. split_and!; try done.
    + cbn beta. lia.
    + intros ->. unfold ready_pages_of. cbn [fp_ready_pages footprint_of]. rewrite Hbe. change (zlen (@nil bytes)) with 0 in He. f_equal. lia.
    + unfold ready_pages_of. cbn [fp_ready_pages footprint_of]. rewrite Hbe. unfold saturating_sub. lia.
    + intros id' Hne. destruct (Ho id' Hne) as (? & E1 & E2). unfold ready_pages_of. cbn [fp_ready_pages footprint_of]. by rewrite E1, E2.
Defined.
End composition.
