(* ===== verification/XcmpPath.v ===== *)
(** * From one parachain to another

    The pages that [deliver] writes on the sending chain hold the messages in
    order, and [handle_xcmp_messages] on the receiving chain, given weight and
    room for them, enqueues all of them in that order.  The weight is bounded in
    terms of the messages, and worked out for the generated weights. *)

From stdpp Require Import base option numbers list gmap.
From Stdlib Require Import ZArith Lia.
From Stdlib Require Import Strings.Byte.
From S2P Require Import Prelude Codec Traits Weights MqPage MessageQueue MqRing MqInv MqService MqFootprint.
From S2P Require Import Segment ParaSystem XcmpQueue XcmpQueueProofs XcmpInbound XcmpInboundProofs XcmpMq.
Local Open Scope Z_scope.

(** ** The sending chain *)

Section sending.
Context {W V : Type} `{XcmpWeightInfo} {C : CompactCodec} {CL : CompactLaws C}.
Context `{QueueBounds, !InboundConfig W, !DecoderLaws W}.
Context (encode : V -> bytes) (decode_all : bytes -> option V) (blake2_256 : bytes -> bytes).
Implicit Types (msg data page : bytes) (q : Queue).

(** A message in a page. *)
Definition item encoding msg : bytes := match encoding with Simple => msg | Double => encode_bytes msg end.
Definition items encoding (msgs : list bytes) : bytes := concat (item encoding <$> msgs).

Definition format_of encoding : XcmpMessageFormat :=
  match encoding with Simple => ConcatenatedVersionedXcm | Double => ConcatenatedOpaqueVersionedXcm end.

(** What the receiver can read: the decoder finds the end of the message, and the
    message is within its bound. *)
Record readable msg : Prop := {
  read_len rest : decode_with_depth_limit (msg ++ rest) = Some (length msg);
  read_bound : zlen msg <= MaxXcmpMessageLen;
  read_u32 : zlen msg <= umax 32;
}.

Lemma next_item encoding msg rest : readable msg -> next_xcm encoding (item encoding msg ++ rest) = Some (msg, rest).
Proof.
  intros [Hd Hb Hu]. destruct encoding; cbn [item next_xcm].
  - rewrite Hd. cbn [mbind option_bind]. rewrite take_app_length, drop_app_length. by destruct (Z.leb_spec (zlen msg) MaxXcmpMessageLen); [|lia].
  - unfold encode_bytes. rewrite <- app_assoc. assert (Hn : is_uint 32 (zlen msg)) by (unfold is_uint, zlen in *; lia).
    rewrite compact_decode_encode by done. cbn [mbind option_bind]. cbv zeta.
    rewrite drop_app_length' by by rewrite compact_len_encode.
    destruct (Z.ltb_spec (zlen (msg ++ rest)) (zlen msg)) as [Hlt|_]; [unfold zlen in Hlt; rewrite length_app in Hlt; lia|].
    assert (Hz : Z.to_nat (zlen msg) = length msg) by (unfold zlen; lia). rewrite Hz, take_app_length, drop_app_length.
    by destruct (Z.leb_spec (zlen msg) MaxXcmpMessageLen); [|lia].
Qed.

Lemma xcms_of_items encoding msgs : Forall readable msgs -> xcms_of encoding (items encoding msgs) = msgs.
Proof.
  induction 1 as [|msg msgs Hm _ IH]; [done|]. unfold items. cbn [fmap list_fmap concat].
  rewrite xcms_of_unfold, next_item by done. f_equal. exact IH.
Qed.

Lemma items_app encoding xs ys : items encoding (xs ++ ys) = items encoding xs ++ items encoding ys.
Proof. unfold items. by rewrite fmap_app, concat_app. Qed.

(** A page as the sender writes it. *)
Definition holds page (msgs : list bytes) : Prop :=
  exists encoding, page = encode_format (format_of encoding) ++ items encoding msgs /\ Forall readable msgs.

Lemma decode_encode_format f rest : decode_format (encode_format f ++ rest) = Some f.
Proof. by destruct f. Qed.

Lemma holds_xcms page msgs : holds page msgs -> page_xcms page = msgs.
Proof.
  intros (encoding & -> & Hr). unfold page_xcms. rewrite decode_encode_format.
  destruct encoding; cbn [format_of encode_format app drop]; rewrite ?drop_0; by apply xcms_of_items.
Qed.

(** The pages of a channel hold the messages, in order. *)
Definition hold (pages : list bytes) (msgs : list bytes) : Prop :=
  exists parts, Forall2 holds pages parts /\ msgs = concat parts.

Lemma hold_appended encoding msg old new msgs :
  hold old msgs -> readable msg -> appended (format_of encoding) (item encoding msg) old new -> hold new (msgs ++ [msg]).
Proof.
  intros (parts & Hp & ->) Hr Ha. destruct Ha as [ps|ps page Hf].
  - exists (parts ++ [[msg]]). split; [|by rewrite concat_app].
    apply Forall2_app; [done|]. constructor; [|done]. exists encoding. split; [|by apply Forall_singleton].
    unfold items. cbn. by rewrite app_nil_r.
  - apply Forall2_app_inv_l in Hp as (parts1 & parts2 & Hp1 & Hp2 & ->).
    inversion Hp2 as [|? part ? ? (encoding' & -> & Hpart) Hnil]; subst. inversion Hnil; subst.
    assert (encoding' = encoding) as ->.
    { rewrite decode_encode_format in Hf. destruct encoding', encoding; done. }
    exists (parts1 ++ [part ++ [msg]]). split.
    + apply Forall2_app; [done|]. constructor; [|done]. exists encoding.
      split; [|apply Forall_app; split; [done|by apply Forall_singleton]].
      rewrite items_app, app_assoc. f_equal. unfold items. cbn. by rewrite app_nil_r.
    + rewrite !concat_app. cbn. by rewrite !app_nil_r, app_assoc.
Qed.

(** [deliver], for a message the receiver can read. *)
Lemma deliver_spec info to (xcm : V) q hash q' msgs :
  queue_ok q -> room q to (item (encoding_for to q) (encode xcm)) -> readable (encode xcm) -> hold (pages_of q to) msgs ->
  deliver encode blake2_256 info to xcm q = Ok (hash, q') ->
  queue_ok q' /\ hold (pages_of q' to) (msgs ++ [encode xcm]) /\ hash = blake2_256 (encode xcm).
Proof.
  intros Hq Hroom Hr Hh. unfold deliver.
  assert (Hsend : forall encoding, encoding_for to q = encoding -> forall n q1,
    send_fragment info to (format_of encoding) (item encoding (encode xcm)) q = Ok (n, q1) ->
    queue_ok q1 /\ hold (pages_of q1 to) (msgs ++ [encode xcm])).
  { intros encoding E n q1 Hs. rewrite E in Hroom.
    pose proof (send_fragment_spec info to (format_of encoding) (item encoding (encode xcm)) q Hq Hroom) as Hspec.
    destruct (refusal _ _ _ _); [congruence|]. destruct Hspec as (n' & q2 & E2 & Hq2 & _ & Ha & _).
    rewrite E2 in Hs. injection Hs as -> ->. split; [done|]. by eapply hold_appended. }
  destruct (encoding_for to q); [specialize (Hsend Simple eq_refl)|specialize (Hsend Double eq_refl)];
    cbn [format_of item] in Hsend; (destruct (send_fragment _ _ _ _ _) as [[n q1]|e|]; intros [=]; subst; by destruct (Hsend n q' eq_refl)).
Qed.

(** Messages delivered one after the other. *)
Inductive delivers info to : Queue -> list V -> Queue -> Prop :=
| delivers_nil q : delivers info to q [] q
| delivers_cons q xcm hash q1 xcms q' :
  room q to (item (encoding_for to q) (encode xcm)) -> deliver encode blake2_256 info to xcm q = Ok (hash, q1) ->
  delivers info to q1 xcms q' -> delivers info to q (xcm :: xcms) q'.

Lemma delivers_spec info to q xcms q' :
  delivers info to q xcms q' -> Forall (fun xcm => readable (encode xcm)) xcms ->
  forall msgs, queue_ok q -> hold (pages_of q to) msgs -> queue_ok q' /\ hold (pages_of q' to) (msgs ++ (encode <$> xcms)).
Proof.
  induction 1 as [q|q xcm hash q1 xcms q' Hroom Hd _ IH]; intros Hr msgs Hq Hh.
  { cbn. by rewrite app_nil_r. }
  apply Forall_cons in Hr as [Hx Hr]. destruct (deliver_spec _ _ _ _ _ _ _ Hq Hroom Hx Hh Hd) as (Hq1 & Hh1 & _).
  destruct (IH Hr _ Hq1 Hh1) as [Hq' Hh']. split; [done|]. by rewrite <- app_assoc in Hh'.
Qed.
End sending.

(** ** Weight *)

(** The meter still has [x]. *)
Definition budget (meter : Meter.WeightMeter) (x : WeightV2.Weight) : Prop :=
  meter_ok meter /\ weight_le (plus (Meter.consumed meter) x) (Meter.limit meter).

Ltac weigh := unfold weight_le, wf_weight, is_uint, plus, scale in *; cbn [WeightV2.ref_time WeightV2.proof_size Meter.consumed Meter.limit] in *.

Lemma budget_mono meter x y : budget meter x -> weight_le y x -> budget meter y.
Proof. intros [Hm Hb] Hle. split; [done|]. weigh. lia. Qed.

Lemma budget_try meter x y :
  wf_weight x -> 0 <= WeightV2.ref_time y -> 0 <= WeightV2.proof_size y -> budget meter (plus x y) ->
  exists meter', Meter.try_consume meter x = (meter', Ok tt) /\ budget meter' y /\ Meter.limit meter' = Meter.limit meter.
Proof.
  intros Hx Hy1 Hy2 [[Hc Hl Hw] Hb]. rewrite try_consume_spec by done.
  assert (Hle : weight_le (plus (Meter.consumed meter) x) (Meter.limit meter)) by (weigh; lia).
  rewrite decide_True by done. eexists. split; [done|]. split; [|done]. split; [|weigh; lia].
  split; cbn; [by eapply plus_wf|done|done].
Qed.

Lemma budget_consume meter x y :
  wf_weight x -> 0 <= WeightV2.ref_time y -> 0 <= WeightV2.proof_size y -> budget meter (plus x y) ->
  budget (Meter.consume meter x) y /\ Meter.limit (Meter.consume meter x) = Meter.limit meter.
Proof.
  intros Hx Hy1 Hy2 [[Hc Hl Hw] Hb]. split; [|done].
  assert (E : Meter.consume meter x = Meter.mkMeter (plus (Meter.consumed meter) x) (Meter.limit meter)).
  { unfold Meter.consume, WeightV2.saturating_accrue, WeightV2.saturating_add, saturating_add. f_equal. unfold plus.
    weigh. f_equal; lia. }
  rewrite E. split; [split; cbn; [eapply plus_wf; try done; weigh; lia|done|weigh; lia]|weigh; lia].
Qed.

(** The sum of a weight over messages. *)
Definition total (f : bytes -> WeightV2.Weight) (msgs : list bytes) : WeightV2.Weight :=
  foldr (fun msg => plus (f msg)) WeightV2.zero msgs.

Lemma total_cons f msg msgs : total f (msg :: msgs) = plus (f msg) (total f msgs).
Proof. done. Qed.

Lemma scale_S (n : nat) x : scale (Z.of_nat (S n)) x = plus x (scale (Z.of_nat n) x).
Proof. unfold scale, plus. cbn [WeightV2.ref_time WeightV2.proof_size]. f_equal; lia. Qed.

Lemma plus_assoc a b c : plus (plus a b) c = plus a (plus b c).
Proof. unfold plus. cbn. f_equal; lia. Qed.

Lemma total_app f xs ys : total f (xs ++ ys) = plus (total f xs) (total f ys).
Proof.
  induction xs as [|x xs IH]; cbn [app]; [by destruct (total f ys)|]. by rewrite !total_cons, IH, plus_assoc.
Qed.

Lemma total_plus f g msgs : total (fun msg => plus (f msg) (g msg)) msgs = plus (total f msgs) (total g msgs).
Proof.
  induction msgs as [|msg msgs IH]; [done|]. rewrite !total_cons, IH. unfold plus. cbn. f_equal; lia.
Qed.

Lemma total_weight_nonneg f msgs : (forall msg, weight_le WeightV2.zero (f msg)) -> weight_le WeightV2.zero (total f msgs).
Proof.
  intros Hf. induction msgs as [|msg msgs IH]; [done|]. rewrite total_cons. specialize (Hf msg). unfold WeightV2.zero in *. weigh. lia.
Qed.

Section receiving.
Context {W : Type} `{XcmpWeightInfo} {C : CompactCodec} {CL : CompactLaws C}.
Context `{QueueBounds, !InboundConfig W, !DecoderLaws W, !SinkLaws W}.
Implicit Types (w : W) (data : bytes) (meter : Meter.WeightMeter) (id sender : ParaId) (msgs : list bytes).

(** Taking a message costs at most [x]. *)
Definition take_within (msg : bytes) (x : WeightV2.Weight) : Prop :=
  wf_weight (w_take_first_concatenated_xcm 0) /\ weight_le (w_take_first_concatenated_xcm 0) x /\
  wf_weight (w_take_first_concatenated_xcm (zlen msg)) /\ weight_le (w_take_first_concatenated_xcm (zlen msg)) x.

(** Bounds of the weights, for the messages, batches and positions that occur: of
    a sender not seen before, of reading a message, of enqueueing a message, and
    of a batch as such, which is more for the first batch of a sender. *)
Record charges (wU : WeightV2.Weight) (wT wM : bytes -> WeightV2.Weight) (wB : bool -> WeightV2.Weight) : Prop := {
  charges_sender : wf_weight uncached_enqueue_xcmp_messages /\ weight_le uncached_enqueue_xcmp_messages wU;
  charges_nonneg msg first : weight_le WeightV2.zero (wT msg) /\ weight_le WeightV2.zero (wM msg) /\ weight_le WeightV2.zero (wB first);
  charges_take msg : zlen msg <= MaxXcmpMessageLen -> take_within msg (wT msg);
  charges_batch pos xcms new first :
    0 <= pos <= sink_page_len -> bounded_xcms xcms -> zlen xcms <= XCM_BATCH_SIZE -> 0 <= new <= zlen xcms ->
    let x := w_enqueue_xcmp_messages (saturated_u32 pos) (mkBatch (zlen xcms) (zlen (concat xcms)) new) first in
    wf_weight x /\ weight_le x (plus (wB first) (total wM xcms));
}.

Lemma take_first_affordable encoding msg rest meter x y :
  readable msg -> take_within msg x -> weight_le WeightV2.zero y -> budget meter (plus x y) ->
  exists meter', take_first encoding (item encoding msg ++ rest) meter = (Ok msg, rest, meter') /\
    budget meter' y /\ Meter.limit meter' = Meter.limit meter.
Proof.
  intros Hr (Hwb & Hbx & Hwf & Hfx) [Hy1 Hy2] Hb. pose proof (next_item encoding msg rest Hr) as Hnext.
  destruct encoding; cbn [take_first next_xcm item] in *.
  - unfold take_first_concatenated_xcm. rewrite (read_len _ Hr) in Hnext |- *. cbn [mbind option_bind] in Hnext.
    rewrite take_app_length, drop_app_length in *.
    assert (Hw : wrapping 32 (zlen msg) = zlen msg).
    { apply wrapping_id. pose proof (read_u32 _ Hr). unfold is_uint, zlen in *. lia. }
    rewrite Hw. set (base := w_take_first_concatenated_xcm 0) in *. set (full := w_take_first_concatenated_xcm (zlen msg)) in *.
    set (extra := WeightV2.saturating_sub full base).
    assert (Hextra : wf_weight extra /\ weight_le (plus base extra) x)
      by (unfold extra, WeightV2.saturating_sub, saturating_sub; weigh; lia).
    destruct Hextra as [Hwe Hle]. cbn in Hy1, Hy2.
    destruct (budget_try meter base (plus extra y)) as (m1 & -> & Hb1 & Hl1); [done|weigh; lia|weigh; lia| |].
    { apply (budget_mono _ _ _ Hb). weigh. lia. }
    destruct (budget_consume m1 extra y Hwe Hy1 Hy2 Hb1) as [Hb2 Hl2].
    exists (Meter.consume m1 extra). unfold try_bounded. case_match; [|done]. split_and!; [done|done|]. by rewrite Hl2.
  - unfold take_first_concatenated_opaque_xcm. apply bind_Some in Hnext as (n & Hn & Hx). rewrite Hn.
    case_match; [done|]. case_match eqn:Hbound; [|done]. injection Hx as Hmsg Hrest.
    unfold try_bounded. rewrite Hbound, Hmsg, Hrest. exists meter. split; [done|]. split; [|done].
    apply (budget_mono _ _ _ Hb). unfold WeightV2.zero in *. weigh. lia.
Qed.

Lemma item_length encoding msg : readable msg -> (0 < length (item encoding msg))%nat.
Proof.
  intros Hr. pose proof (next_item encoding msg [] Hr) as Hn. apply next_xcm_spec in Hn as [Hlt _].
  rewrite length_app in Hlt. cbn in Hlt. lia.
Qed.

Lemma items_cons encoding msg msgs : items encoding (msg :: msgs) = item encoding msg ++ items encoding msgs.
Proof. done. Qed.

Context (wU : WeightV2.Weight) (wT wM : bytes -> WeightV2.Weight) (wB : bool -> WeightV2.Weight).
Hypothesis Hcharges : charges wU wT wM wB.

Lemma bounds_nonneg msgs : weight_le WeightV2.zero wU /\ (forall first, weight_le WeightV2.zero (wB first)) /\
  weight_le WeightV2.zero (total wT msgs) /\ weight_le WeightV2.zero (total wM msgs).
Proof.
  destruct Hcharges as [[Hw Hu] Hn _ _]. split_and!; try (apply total_weight_nonneg; intros; by apply (Hn msg true)).
  - unfold WeightV2.zero. weigh. lia.
  - intros first. apply (Hn []).
Qed.

Lemma take_xcms_affordable encoding size msgs meter y :
  Forall readable msgs -> 0 < size -> weight_le WeightV2.zero y ->
  budget meter (plus (total wT (take (Z.to_nat size) msgs)) y) ->
  exists meter', take_first_concatenated_xcms (items encoding msgs) encoding size meter =
      Some (Ok (take (Z.to_nat size) msgs), items encoding (drop (Z.to_nat size) msgs), meter') /\
    budget meter' y /\ Meter.limit meter' = Meter.limit meter.
Proof.
  intros Hr Hsize Hy Hb. unfold take_first_concatenated_xcms.
  set (N := Z.to_nat size) in *.
  destruct (loop_total
    (fun '(data1, m1, batch) => exists rest, msgs = batch ++ rest /\ data1 = items encoding rest /\ (length batch < N)%nat /\
       budget m1 (plus (total wT (take (N - length batch) rest)) y) /\ Meter.limit m1 = Meter.limit meter)
    (fun '(r, data', m') => r = Ok (take N msgs) /\ data' = items encoding (drop N msgs) /\ budget m' y /\
       Meter.limit m' = Meter.limit meter)
    (fun '(data1, _, _) => zlen data1) (take_round encoding size) (Pos.of_succ_nat (length (items encoding msgs)))
    (items encoding msgs, meter, [])) as ([[r data'] m'] & -> & -> & -> & Hb' & Hl'); [| | | |by eauto].
  - intros [[data1 m1] batch] _. unfold zlen. lia.
  - intros [[data1 m1] batch] (rest & -> & -> & Hlen & Hb1 & Hl1). cbn [take_round].
    apply Forall_app in Hr as [_ Hr]. destruct rest as [|msg rest].
    { cbn [items fmap list_fmap concat length Nat.eqb]. rewrite app_nil_r, take_ge, drop_ge by lia. split_and!; try done.
      apply (budget_mono _ _ _ Hb1). rewrite take_nil. unfold WeightV2.zero in *. weigh. cbn. lia. }
    apply Forall_cons in Hr as [Hm Hr]. pose proof (item_length encoding msg Hm) as Hpos. rewrite items_cons.
    destruct (Nat.eqb_spec (length (item encoding msg ++ items encoding rest)) 0) as [E|_]; [rewrite length_app in E; lia|].
    replace (N - length batch)%nat with (S (N - S (length batch))) in Hb1 by lia.
    cbn [take] in Hb1. rewrite total_cons, plus_assoc in Hb1. set (y1 := plus (total wT _) y) in Hb1.
    assert (Hy1 : weight_le WeightV2.zero y1).
    { destruct (bounds_nonneg (take (N - S (length batch)) rest)) as (_ & _ & ? & _). unfold y1, WeightV2.zero in *. weigh. lia. }
    destruct (take_first_affordable encoding msg (items encoding rest) m1 (wT msg) y1 Hm) as (m2 & -> & Hb2 & Hl2);
      [apply Hcharges, Hm|done|done|].
    assert (Hz : zlen (batch ++ [msg]) = zlen batch + 1) by (unfold zlen; rewrite length_app; cbn; lia).
    assert (Happ : batch ++ msg :: rest = (batch ++ [msg]) ++ rest) by (by rewrite <- app_assoc). rewrite Happ.
    destruct (Z.leb_spec size (zlen (batch ++ [msg]))) as [Hfull|Hmore].
    + assert (HN : N = length (batch ++ [msg])) by (unfold zlen in *; lia).
      rewrite HN, take_app_length, drop_app_length. split_and!; [done|done| |congruence].
      apply (budget_mono _ _ _ Hb2). destruct (bounds_nonneg (take (N - S (length batch)) rest)) as (_ & _ & ? & _).
      unfold y1, WeightV2.zero in *. weigh. lia.
    + split; [|rewrite !zlen_app; unfold zlen; lia]. exists rest. split_and!; [done|done|unfold zlen in *; lia| |congruence].
      replace (length (batch ++ [msg])) with (S (length batch)) by (rewrite length_app; cbn; lia). done.
  - exists msgs. rewrite Nat.sub_0_r. split_and!; try done. cbn. lia.
  - unfold zlen. lia.
Qed.

(** Every part of a batch is within its bound. *)
Lemma batch_within id xcms first b limit w n :
  sink_ok w -> bounded_xcms xcms -> zlen xcms <= sink_room id w -> is_uint 32 limit -> zlen xcms <= XCM_BATCH_SIZE ->
  sink_get_batches_footprints id xcms limit w = Some b -> (n <= length (footprints b))%nat ->
  let x := w_enqueue_xcmp_messages (saturated_u32 (first_page_pos b)) (nth_batch b n) first in
  wf_weight x /\ weight_le x (plus (wB first) (total wM xcms)).
Proof.
  intros Hok Hb Hroom Hlim Hsize E Hn.
  destruct (sink_footprints id xcms limit w Hok Hb Hroom Hlim) as (b' & k & E' & Hk & Hcount & _ & Hpos & Hinfo).
  rewrite E in E'. injection E' as <-.
  assert (Hlen : length (footprints b) = k) by (by rewrite <- (length_fmap msgs_count), Hcount, length_fmap, length_seq).
  assert (Hz : zlen (take n xcms) = Z.of_nat n) by (unfold zlen; rewrite length_take; lia).
  assert (Hbatch : exists new, nth_batch b n = mkBatch (zlen (take n xcms)) (zlen (concat (take n xcms))) new /\
    0 <= new <= zlen (take n xcms)).
  { pose proof (nth_batch_count b k n Hcount ltac:(lia)) as Hc. destruct n as [|i]; [by exists 0|]. cbn [nth_batch] in *.
    destruct (lookup_lt_is_Some_2 (footprints b) i) as [x Hx]; [lia|]. rewrite Hx in *. cbn [default] in *.
    destruct (Hinfo i x Hx) as [Hs Hnew]. exists (new_pages_count x). destruct x as [c s p].
    cbn [msgs_count size_in_bytes new_pages_count default] in *. split; [|lia]. unfold default in Hc. cbn in Hc. rewrite Hz, Hs, <- Hc. done. }
  destruct Hbatch as (new & -> & Hnew).
  destruct (charges_batch _ _ _ _ Hcharges (first_page_pos b) (take n xcms) new first Hpos (Forall_take _ n _ Hb)) as [Hw Hle];
    [unfold zlen in *; rewrite length_take; lia|done|]. split; [done|].
  assert (Ht : total wM xcms = plus (total wM (take n xcms)) (total wM (drop n xcms))) by (by rewrite <- total_app, take_drop).
  rewrite Ht. destruct (bounds_nonneg (drop n xcms)) as (_ & _ & _ & ?). unfold WeightV2.zero in *. weigh. lia.
Qed.

(** A batch for which there is weight and room is enqueued completely. *)
Lemma enqueue_affordable id xcms first meter w y :
  sink_ok w -> bounded_xcms xcms -> zlen xcms <= sink_room id w -> is_uint 32 (threshold w) -> xcms <> [] ->
  sink_ready id w + zlen xcms <= threshold w -> zlen xcms <= XCM_BATCH_SIZE ->
  weight_le WeightV2.zero y -> budget meter (plus (plus (wB first) (total wM xcms)) y) ->
  exists meter' w', enqueue_xcmp_messages id xcms first meter w = Some (mkEnqueued false false, meter', w') /\
    fed id w xcms w' /\ budget meter' y /\ Meter.limit meter' = Meter.limit meter.
Proof.
  intros Hok Hb Hroom Hlim Hne Hthr Hsize [Hy1 Hy2] Hbud. unfold enqueue_xcmp_messages. fold (threshold w).
  destruct (Nat.eqb_spec (length xcms) 0) as [E|E]; [by apply length_zero_iff_nil in E|].
  destruct (sink_footprints id xcms (threshold w) w Hok Hb Hroom Hlim) as (b & k & Efp & Hk & Hcount & Hready & _).
  pose proof (fun n => batch_within id xcms first b (threshold w) w n Hok Hb Hroom Hlim Hsize Efp) as Hwithin. rewrite Efp.
  destruct (sink_enqueue id xcms w Hok Hb Hroom) as (_ & _ & _ & _ & Hgrow & _).
  assert (k = length xcms) as ->.
  { apply Nat.le_antisymm; [done|]. apply Hready; [lia|]. rewrite take_ge by lia. lia. }
  assert (Hlen : length (footprints b) = length xcms) by (by rewrite <- (length_fmap msgs_count), Hcount, length_fmap, length_seq).
  cbn [mbind option_bind]. rewrite (last_count b _ Hcount). destruct Hbud as [Hm Hle]. cbn in Hy1, Hy2.
  set (f := fun batch => if Meter.can_consume meter _ then Lt else Gt).
  assert (Hf : forall n, (n <= length xcms)%nat -> f (nth_batch b n) = Lt).
  { intros n Hn. unfold f. rewrite can_consume_spec by apply Hm. rewrite bool_decide_true; [done|].
    destruct (Hwithin n) as [_ He]; [lia|]. weigh. lia. }
  destruct (search_best_spec f b) as (n & Hn & -> & _ & Hgt); [intros x; unfold f; by destruct (Meter.can_consume _ _)|].
  assert (n = length xcms) as ->.
  { destruct (decide (n = length xcms)) as [|Hne']; [done|]. exfalso.
    assert (Hall : forall i x, footprints b !! i = Some x -> f x = Lt).
    { intros i x Hx. specialize (Hf (S i) ltac:(apply lookup_lt_Some in Hx; lia)). cbn [nth_batch] in Hf. by rewrite Hx in Hf. }
    specialize (Hgt ltac:(intros i j x y0 _ Hx _ Hg; by rewrite (Hall i x Hx) in Hg) (length xcms) ltac:(lia)).
    by rewrite Hf in Hgt. }
  rewrite (nth_batch_count b _ _ Hcount) by done. rewrite Nat2Z.id, take_ge by lia.
  destruct (Hwithin (length xcms)) as [Hx1 Hx2]; [lia|]. set (x := w_enqueue_xcmp_messages _ _ _) in *.
  destruct (budget_consume meter x y) as [Hb' Hl']; [done|done|done|split; [done|weigh; lia]|].
  exists (Meter.consume meter x), (sink_enqueue_messages xcms id w).
  unfold zlen at 1. rewrite Z.ltb_irrefl. split_and!; [done|apply enqueue_fed; try done; lia|done|done].
Qed.

(** What the messages of a page cost at most, in batches. *)
Definition batches (n : Z) : Z := (n + XCM_BATCH_SIZE - 1) / XCM_BATCH_SIZE.
Definition cost msgs : WeightV2.Weight :=
  plus (total (fun msg => plus (wT msg) (wM msg)) msgs) (scale (batches (zlen msgs)) (wB false)).

Lemma scale_nonneg n x : 0 <= n -> weight_le WeightV2.zero x -> weight_le WeightV2.zero (scale n x).
Proof using Type. unfold weight_le. cbn. intros ? [? ?]. split; by apply Z.mul_nonneg_nonneg. Qed.

Lemma cost_nonneg msgs : weight_le WeightV2.zero (cost msgs).
Proof.
  destruct (bounds_nonneg msgs) as (_ & Hb & ? & ?). unfold cost. rewrite total_plus.
  pose proof (scale_nonneg (batches (zlen msgs)) (wB false)) as Hs.
  specialize (Hs ltac:(unfold batches, XCM_BATCH_SIZE, zlen; apply Z.div_pos; lia) (Hb false)). unfold WeightV2.zero in *. weigh. lia.
Qed.

(** A batch and what follows it. *)
Lemma cost_round msgs :
  msgs <> [] -> let N := Z.to_nat XCM_BATCH_SIZE in
  cost msgs = plus (total wT (take N msgs)) (plus (plus (wB false) (total wM (take N msgs))) (cost (drop N msgs))).
Proof using Type.
  intros Hne N. unfold cost. rewrite <- (take_drop N msgs) at 1. rewrite !total_plus, !total_app.
  assert (Hb : batches (zlen msgs) = 1 + batches (zlen (drop N msgs))).
  { unfold batches, N, zlen, XCM_BATCH_SIZE. rewrite length_drop. destruct msgs; [done|]. cbn [length].
    Z.to_euclidean_division_equations. lia. }
  rewrite Hb. unfold plus, scale. cbn [WeightV2.ref_time WeightV2.proof_size]. f_equal; lia.
Qed.

(** What is charged once for a sender. *)
Definition entry (first : bool) : WeightV2.Weight := if first then wB true else WeightV2.zero.
Definition entering sender (known : gset ParaId) : WeightV2.Weight :=
  if bool_decide (sender ∈ known) then WeightV2.zero else plus wU (wB true).

Hypothesis available : forall w, transaction_available w = true.

Section page.
Context sender (encoding : XcmEncoding) (can_retry : bool) msgs w (y : WeightV2.Weight) (lim : WeightV2.Weight).
Hypothesis Hread : Forall readable msgs.
Hypothesis Hlim : is_uint 32 (threshold w).
Hypothesis Hroom : zlen msgs <= sink_room sender w.
Hypothesis Hready : sink_ready sender w + zlen msgs <= threshold w.
Hypothesis Hy : weight_le WeightV2.zero y.

Definition reading (st : bytes * bool * Meter.WeightMeter * W) : Prop :=
  let '(data1, first, m1, w1) := st in
  exists taken rest, msgs = taken ++ rest /\ data1 = items encoding rest /\ fed sender w taken w1 /\
    budget m1 (plus (entry first) (plus (cost rest) y)) /\ Meter.limit m1 = lim.

Lemma xcms_round_affordable st :
  reading st ->
  match xcms_round sender encoding can_retry st with
  | inl st' => reading st' /\ (zlen st'.1.1.1 < zlen st.1.1.1)
  | inr r => exists m' w', r = Some (Ok tt, m', w') /\ fed sender w msgs w' /\ budget m' y /\ Meter.limit m' = lim
  end.
Proof.
  destruct st as [[[data1 first] m1] w1]. intros (taken & rest & Hm & -> & Hf & Hb & Hl).
  pose proof Hread as Hr. rewrite Hm in Hr. apply Forall_app in Hr as [_ Hr].
  set (N := Z.to_nat XCM_BATCH_SIZE). pose proof (cost_nonneg (drop N rest)) as Hc.
  destruct (bounds_nonneg (take N rest)) as (_ & HnB & _ & HnM). cbn [xcms_round].
  set (z := plus (if decide (rest = []) then WeightV2.zero else plus (wB first) (total wM (take N rest)))
    (plus (cost (drop N rest)) y)).
  assert (Hz : weight_le WeightV2.zero z).
  { unfold z. specialize (HnB first). destruct (decide (rest = [])); unfold WeightV2.zero in *; weigh; lia. }
  assert (Hbz : budget m1 (plus (total wT (take N rest)) z)).
  { apply (budget_mono _ _ _ Hb). unfold z. destruct (decide (rest = [])) as [->|Hne].
    - specialize (HnB true). unfold entry. rewrite take_nil, drop_nil in *. cbn [total foldr].
      destruct first; unfold WeightV2.zero in *; weigh; lia.
    - rewrite (cost_round rest Hne). pose proof (HnB true). pose proof (HnB false).
      unfold entry. fold N. destruct first; unfold WeightV2.zero in *; weigh; lia. }
  destruct (take_xcms_affordable encoding XCM_BATCH_SIZE rest m1 z Hr ltac:(done) Hz Hbz) as (m2 & -> & Hb2 & Hl2).
  fold N. unfold z in Hb2. destruct (decide (rest = [])) as [->|Hne].
  { rewrite take_nil. cbn [length Nat.eqb]. rewrite app_nil_r in Hm. subst taken. eexists _, _. split_and!; [done|done| |congruence].
    apply (budget_mono _ _ _ Hb2). unfold WeightV2.zero in *. weigh. lia. }
  assert (Hpos : (0 < length (take N rest))%nat) by (unfold N, XCM_BATCH_SIZE; rewrite length_take; destruct rest; [done|cbn [length]; lia]).
  destruct (Nat.eqb_spec (length (take N rest)) 0) as [|_]; [lia|].
  pose proof (fed_room _ _ _ _ Hf). pose proof (fed_growth _ _ _ _ Hf).
  assert (Ht : threshold w1 = threshold w) by (unfold threshold; by rewrite (fed_config _ _ _ _ Hf)).
  assert (Hlen : zlen msgs = zlen taken + zlen (take N rest) + zlen (drop N rest))
    by (rewrite Hm, <- (take_drop N rest) at 1; rewrite !zlen_app; lia).
  pose proof (zlen_nonneg (drop N rest)).
  destruct (enqueue_affordable sender (take N rest) first m2 w1 (plus (cost (drop N rest)) y))
    as (m3 & w3 & -> & Hf3 & Hb3 & Hl3); [apply Hf| |lia|by rewrite Ht|by intros E; rewrite E in Hpos; cbn in Hpos; lia|lia| | |done|].
  - apply Forall_take, (Forall_impl _ _ _ Hr). by intros msg [_ Hbound _].
  - unfold zlen, N, XCM_BATCH_SIZE. rewrite length_take. lia.
  - unfold WeightV2.zero in *. weigh. lia.
  - cbn [has_out_of_weight_msgs has_dropped_msgs fst snd]. split.
    + exists (taken ++ take N rest), (drop N rest). split_and!; [by rewrite <- app_assoc, take_drop|done|by eapply fed_trans| |congruence].
      apply (budget_mono _ _ _ Hb3). unfold entry, WeightV2.zero. weigh. lia.
    + rewrite <- (take_drop N rest) at 2. rewrite items_app, zlen_app.
      destruct (take N rest) as [|msg ?] eqn:Etake; [cbn in Hpos; lia|]. rewrite items_cons, zlen_app.
      assert (Hmsg : readable msg).
      { apply (Forall_take _ N) in Hr. rewrite Etake in Hr. by apply Forall_cons in Hr as [? _]. }
      pose proof (item_length encoding msg Hmsg). unfold zlen. lia.
Qed.

Lemma handle_xcms_page_affordable known meter :
  sink_ok w -> budget meter (plus (entering sender known) (plus (cost msgs) y)) -> Meter.limit meter = lim ->
  exists meter' w', handle_xcms_page sender encoding (items encoding msgs) known meter can_retry w =
      Some (Ok tt, ({[ sender ]} ∪ known, meter'), w') /\
    fed sender w msgs w' /\ budget meter' y /\ Meter.limit meter' = lim.
Proof.
  intros Hok Hb Hl. unfold handle_xcms_page, transactional. rewrite available. cbv zeta.
  set (first := negb _). pose proof (cost_nonneg msgs) as Hc. destruct (bounds_nonneg []) as (HnU & HnB & _). specialize (HnB true).
  assert (Hpay : exists m, (if first then Meter.try_consume meter uncached_enqueue_xcmp_messages else (meter, Ok tt)) = (m, Ok tt) /\
    budget m (plus (entry first) (plus (cost msgs) y)) /\ Meter.limit m = lim).
  { unfold entering, entry, first in *. case_bool_decide as Hk; cbn [negb]; [by exists meter|].
    destruct (charges_sender _ _ _ _ Hcharges) as [Hw HU].
    destruct (budget_try meter uncached_enqueue_xcmp_messages (plus (wB true) (plus (cost msgs) y))) as (m & -> & Hb' & Hl');
      [done|unfold WeightV2.zero in *; weigh; lia..| |exists m; split_and!; [done|done|congruence]].
    apply (budget_mono _ _ _ Hb). weigh. lia. }
  destruct Hpay as (m & -> & Hbm & Hlm).
  destruct (loop_total reading
    (fun r => exists m' w', r = Some (Ok tt, m', w') /\ fed sender w msgs w' /\ budget m' y /\ Meter.limit m' = lim)
    (fun st => zlen st.1.1.1) (xcms_round sender encoding can_retry) (Pos.of_succ_nat (length (items encoding msgs)))
    (items encoding msgs, first, m, w)) as (r & -> & m' & w' & -> & Hf & Hb' & Hl').
  - intros st _. unfold zlen. lia.
  - apply xcms_round_affordable.
  - exists [], msgs. split_and!; [done|done|by apply fed_nil|done|done].
  - unfold zlen. cbn [fst]. lia.
  - cbn [mbind option_bind]. eexists _, _. split_and!; [reflexivity|done|done|done].
Qed.
End page.

Lemma handle_page_affordable sender page msgs (can_retry : bool) known meter w y :
  holds page msgs -> sink_ok w -> is_uint 32 (threshold w) -> zlen msgs <= sink_room sender w ->
  sink_ready sender w + zlen msgs <= threshold w -> weight_le WeightV2.zero y ->
  budget meter (plus (entering sender known) (plus (cost msgs) y)) ->
  exists meter' w', handle_page sender page can_retry known meter w = Some (true, {[ sender ]} ∪ known, meter', w') /\
    fed sender w msgs w' /\ budget meter' y /\ Meter.limit meter' = Meter.limit meter.
Proof.
  intros (encoding & -> & Hr) Hok Hlim Hroom Hready Hy Hb. unfold handle_page. rewrite decode_encode_format.
  pose proof (notice_fed sender w Hok) as Hnotice.
  assert (Hpage : forall w1, fed sender w [] w1 -> exists meter' w',
    handle_xcms_page sender encoding (items encoding msgs) known meter can_retry w1 = Some (Ok tt, ({[ sender ]} ∪ known, meter'), w') /\
    fed sender w msgs w' /\ budget meter' y /\ Meter.limit meter' = Meter.limit meter).
  { intros w1 Hf. assert (Ht : threshold w1 = threshold w) by (unfold threshold; by rewrite (fed_config _ _ _ _ Hf)).
    pose proof (fed_room _ _ _ _ Hf) as H1. pose proof (fed_growth _ _ _ _ Hf) as H2.
    change (zlen (@nil bytes)) with 0 in H1, H2.
    destruct (handle_xcms_page_affordable sender encoding can_retry msgs w1 y (Meter.limit meter) Hr) with known meter
      as (meter' & w' & -> & Hf' & Hb' & Hl'); [by rewrite Ht|lia|lia|done|apply Hf|done|done|].
    eexists _, _. split_and!; [reflexivity|by apply (fed_trans sender w [] w1 msgs)|done|done]. }
  destruct encoding; cbn [format_of encode_format app drop]; rewrite drop_0; cbv zeta.
  - destruct (Hpage w (fed_nil sender w Hok)) as (meter' & w' & -> & Hrest). eexists _, _. split; [reflexivity|done].
  - destruct (Hpage _ Hnotice) as (meter' & w' & -> & Hrest). eexists _, _. split; [reflexivity|done].
Qed.

(** What pages of one sender with these messages cost at most: a batch for each
    page, and one for every full batch of messages. *)
Definition pages_cost (num : Z) msgs : WeightV2.Weight :=
  plus (total (fun msg => plus (wT msg) (wM msg)) msgs) (scale (num + zlen msgs / XCM_BATCH_SIZE) (wB false)).

Lemma pages_cost_cons (num : Z) part msgs :
  0 <= num -> weight_le (plus (cost part) (pages_cost num msgs)) (pages_cost (num + 1) (part ++ msgs)).
Proof.
  intros Hnum. unfold cost, pages_cost. rewrite total_app. destruct (bounds_nonneg []) as (_ & Hb & _). specialize (Hb false).
  assert (Hn : batches (zlen part) + (num + zlen msgs / XCM_BATCH_SIZE) <= num + 1 + zlen (part ++ msgs) / XCM_BATCH_SIZE)
    by (rewrite zlen_app; unfold batches, XCM_BATCH_SIZE, zlen; Z.to_euclidean_division_equations; lia).
  set (k := num + zlen msgs / XCM_BATCH_SIZE) in *. set (j := num + 1 + _) in *. clearbody k j.
  unfold WeightV2.zero in *. weigh. nia.
Qed.

Lemma pages_cost_nonneg (num : Z) msgs : 0 <= num -> weight_le WeightV2.zero (pages_cost num msgs).
Proof.
  intros Hnum. pose proof (pages_cost_cons num [] msgs Hnum) as Hc. unfold pages_cost. rewrite total_plus.
  destruct (bounds_nonneg msgs) as (_ & Hb & ? & ?).
  pose proof (scale_nonneg (num + zlen msgs / XCM_BATCH_SIZE) (wB false)) as Hs.
  specialize (Hs ltac:(unfold XCM_BATCH_SIZE, zlen; Z.to_euclidean_division_equations; lia) (Hb false)). unfold WeightV2.zero in *. weigh. lia.
Qed.

Lemma handle_pages_affordable sender pages parts :
  Forall2 holds pages parts -> forall num known meter w,
  sink_ok w -> is_uint 32 (threshold w) -> zlen (concat parts) <= sink_room sender w ->
  sink_ready sender w + zlen (concat parts) <= threshold w -> 0 <= num -> num + zlen pages <= umax 64 ->
  budget meter (plus (entering sender known) (pages_cost (zlen pages) (concat parts))) ->
  exists meter' w', handle_pages ((sender,.) <$> pages) num known meter w = Some (num + zlen pages, meter', w') /\
    fed sender w (concat parts) w' /\ meter_ok meter' /\ Meter.limit meter' = Meter.limit meter.
Proof.
  induction 1 as [|page msgs pages parts Hp _ IH]; intros num known meter w Hok Hlim Hroom Hready Hnum Hmax Hb.
  { exists meter, w. split_and!; [|by apply fed_nil|apply Hb|done]. cbn. unfold zlen. cbn. do 3 f_equal. lia. }
  cbn [concat] in *. rewrite zlen_app in Hroom, Hready. pose proof (zlen_nonneg (concat parts)). pose proof (zlen_nonneg pages).
  assert (Hz : zlen (page :: pages) = zlen pages + 1) by (unfold zlen; cbn; lia). rewrite Hz in *.
  cbn [fmap list_fmap handle_pages]. set (y := pages_cost (zlen pages) (concat parts)).
  assert (Hy : weight_le WeightV2.zero y) by by apply pages_cost_nonneg.
  destruct (handle_page_affordable sender page msgs (0 <? num) known meter w y Hp Hok Hlim)
    as (meter' & w1 & -> & Hf & Hb1 & Hl1); [lia|lia|done| |].
  { apply (budget_mono _ _ _ Hb). pose proof (pages_cost_cons (zlen pages) msgs (concat parts) ltac:(lia)) as Hc.
    fold y in Hc. weigh. lia. }
  cbn [mbind option_bind]. rewrite wrapping_id by (unfold is_uint; lia).
  pose proof (fed_room _ _ _ _ Hf) as G1. pose proof (fed_growth _ _ _ _ Hf) as G2.
  assert (Ht : threshold w1 = threshold w) by (unfold threshold; by rewrite (fed_config _ _ _ _ Hf)).
  destruct (IH (num + 1) ({[ sender ]} ∪ known) meter' w1) as (meter2 & w2 & E & Hf2 & Hm2 & Hl2);
    [apply Hf|by rewrite Ht|lia|rewrite Ht; lia|lia|lia| |].
  { unfold entering. rewrite bool_decide_true by set_solver. apply (budget_mono _ _ _ Hb1). fold y. unfold WeightV2.zero. weigh. lia. }
  exists meter2, w2. split_and!; [|by eapply fed_trans|done|congruence].
  cbn [fmap] in E. rewrite E. do 3 f_equal. lia.
Qed.

Lemma hold_received sender pages msgs max w :
  hold pages msgs -> sink_ok w -> is_uint 32 (threshold w) -> zlen msgs <= sink_room sender w ->
  sink_ready sender w + zlen msgs <= threshold w -> zlen pages <= umax 64 -> wf_weight max ->
  weight_le (plus (plus wU (wB true)) (pages_cost (zlen pages) msgs)) max ->
  exists used w', handle_xcmp_messages ((sender,.) <$> pages) max w = Some (zlen pages, used, w') /\
    fed sender w msgs w' /\ weight_le used max.
Proof.
  intros (parts & Hp & ->) Hok Hlim Hroom Hready Hpages Hmax Hle. unfold handle_xcmp_messages.
  destruct (handle_pages_affordable sender pages parts Hp 0 ∅ (Meter.with_limit max) w)
    as (meter' & w' & -> & Hf & Hm & Hl); try done.
  - split; [split; [done|done|]|].
    + destruct Hmax as [[? _] [? _]]. done.
    + unfold entering. rewrite bool_decide_false by set_solver.
      cbn [Meter.with_limit Meter.consumed Meter.limit]. unfold WeightV2.zero. weigh. lia.
  - eexists _, w'. split_and!; [reflexivity|done|]. destruct Hm as [_ _ Hw]. by rewrite Hl in Hw.
Qed.
End receiving.

(** ** Claims *)

(** C8: incoming pages are enqueued in order, within the drop threshold.
    [handle_xcmp_messages] always returns; the messages of each processed page go
    behind what waits from its sender, in order, a prefix of them from each page.
    A processed page that is not the first loses messages only when a batch would
    exceed the drop threshold; the first page may lose any.  A page left for the
    next block, which is not the first if a transaction layer can be opened, has
    none of its messages enqueued, but the note that its sender writes opaque
    messages stays.  No queue has more ready pages than before or than the
    threshold, and the outgoing channels keep their pages. *)
Theorem incoming_pages_in_order {W : Type} `{XcmpWeightInfo} {C : CompactCodec} {CL : CompactLaws C}
    `{QueueBounds, !InboundConfig W, !DecoderLaws W, !SinkLaws W} (pages : list (ParaId * bytes)) max (w : W) :
  sink_ok w -> is_uint 32 (threshold w) -> rooms w pages -> zlen pages <= umax 64 -> queue_ok (queue_of w) ->
  exists used w' takens, handle_xcmp_messages pages max w = Some (zlen takens, used, w') /\
    pages_run false w pages takens w' /\ zlen takens <= zlen pages /\
    sink_ok w' /\ queue_ok (queue_of w') /\ (forall to, pages_of (queue_of w') to = pages_of (queue_of w) to) /\
    forall id, sink_waiting id w' = sink_waiting id w ++ taken_of id pages takens /\
      sink_ready id w' <= Z.max (sink_ready id w) (threshold w).
Proof.
  intros Hok Hlim Hrooms Hmax Hq. unfold handle_xcmp_messages.
  destruct (handle_pages_spec pages 0 ∅ (Meter.with_limit max) w Hok Hlim Hrooms) as (meter' & w' & takens & -> & Hrun); [lia|lia|].
  destruct (run_effect _ _ _ _ _ Hrun Hok) as (Hok' & _ & Hlen & Hq' & Hall). destruct (Hq' Hq).
  eexists _, w', takens. split_and!; try done. unfold zlen. lia.
Qed.

(** C7: messages arrive.  Messages delivered to an empty channel are in its pages
    in the order of delivery.  When the receiver handles these pages, with a
    transaction layer available, room in its queue and a page below its drop
    threshold for every message, and a weight that covers what they cost, it
    processes all pages within the weight and exactly these messages, in this
    order, wait behind what waited from the sender before.  The cost is once that
    of a new sender, for every message that of reading and of enqueueing it, by
    its length, and that of a batch for every page and every 250 messages. *)
Theorem delivered_messages_arrive {W V : Type} `{XcmpWeightInfo} {C : CompactCodec} {CL : CompactLaws C}
    `{QueueBounds, !InboundConfig W, !DecoderLaws W, !SinkLaws W}
    (encode : V -> bytes) (blake2_256 : bytes -> bytes) info from to q (xcms : list V) q' (w : W) wU wT wM wB max :
  queue_ok q -> pages_of q to = [] -> Forall (fun xcm => readable (encode xcm)) xcms ->
  delivers encode blake2_256 info to q xcms q' ->
  (forall w : W, transaction_available w = true) -> charges wU wT wM wB ->
  sink_ok w -> is_uint 32 (threshold w) -> zlen xcms <= sink_room from w -> sink_ready from w + zlen xcms <= threshold w ->
  zlen (pages_of q' to) <= umax 64 -> wf_weight max ->
  weight_le (plus (plus wU (wB true)) (pages_cost wT wM wB (zlen (pages_of q' to)) (encode <$> xcms))) max ->
  exists used w', handle_xcmp_messages ((from,.) <$> pages_of q' to) max w = Some (zlen (pages_of q' to), used, w') /\
    weight_le used max /\ sink_waiting from w' = sink_waiting from w ++ (encode <$> xcms) /\
    forall id, id <> from -> sink_waiting id w' = sink_waiting id w.
Proof.
  intros Hq Hempty Hread Hdel Hav Hch Hok Hlim Hroom Hready Hpages Hmax Hle.
  destruct (delivers_spec encode blake2_256 info to q xcms q' Hdel Hread [] Hq) as [Hq' Hh].
  { rewrite Hempty. by exists []. }
  cbn [app] in Hh. assert (Hz : zlen (encode <$> xcms) = zlen xcms) by (unfold zlen; by rewrite length_fmap).
  destruct (hold_received wU wT wM wB Hch Hav from _ _ max w Hh Hok Hlim) as (used & w' & E & Hf & Hused);
    [by rewrite Hz..|done|done|done|].
  exists used, w'. split_and!; [done|done|apply Hf|]. intros id Hne. by apply (fed_others _ _ _ _ Hf).
Qed.

(** ** Inspection of the outgoing pages

    [get_messages] unwraps what it decodes; it does not panic on the pages of
    messages that the runtime itself could read back. *)
Lemma inspect_holds {W V : Type} `{XcmpWeightInfo} {C : CompactCodec} {CL : CompactLaws C}
    `{QueueBounds, !InboundConfig W, !DecoderLaws W} (encode : V -> bytes) decode_all page (xcms : list V) :
  (forall n, wf_weight (w_take_first_concatenated_xcm n)) -> (forall xcm, decode_all (encode xcm) = Some xcm) ->
  holds page (encode <$> xcms) -> inspect_page decode_all page = Some (Ok xcms).
Proof.
  intros HT Hdec (encoding & -> & Hr). unfold inspect_page. rewrite decode_encode_format.
  replace (drop 1 (encode_format (format_of encoding) ++ items encoding (encode <$> xcms)))
    with (items encoding (encode <$> xcms)) by by destruct encoding.
  destruct (loop_total
    (fun '(data, seen) => exists rest, xcms = seen ++ rest /\ data = items encoding (encode <$> rest))
    (fun r => r = Ok xcms) (fun '(data, _) => zlen data) (inspect_round decode_all (format_of encoding))
    (Pos.of_succ_nat (length (items encoding (encode <$> xcms)))) (items encoding (encode <$> xcms), []))
    as (r & -> & ->); [| | | |done].
  - intros [data seen] _. unfold zlen. lia.
  - intros [data seen] (rest & -> & ->). cbn [inspect_round]. rewrite fmap_app in Hr. apply Forall_app in Hr as [_ Hr].
    destruct rest as [|xcm rest]; [by rewrite app_nil_r|]. cbn [fmap list_fmap] in *. apply Forall_cons in Hr as [Hx Hr].
    pose proof (item_length encoding (encode xcm) Hx) as Hpos. rewrite items_cons.
    destruct (Nat.eqb_spec (length (item encoding (encode xcm) ++ items encoding (encode <$> rest))) 0) as [E|_];
      [rewrite length_app in E; lia|].
    assert (HM : take_within (encode xcm) WeightV2.MAX) by (split_and!; [done|by apply wf_le_max|done|by apply wf_le_max]).
    destruct (take_first_affordable encoding (encode xcm) (items encoding (encode <$> rest)) Meter.new WeightV2.MAX WeightV2.zero Hx HM)
      as (m & E & _); [done..|].
    rewrite zlen_app. destruct encoding; cbn [format_of]; cbn [fmap list_fmap] in E; rewrite E, Hdec;
      (split; [exists rest; by rewrite <- app_assoc|unfold zlen in *; lia]).
  - by exists xcms.
  - unfold zlen. lia.
Qed.

(** ** The generated weights

    What [SubstrateWeight] charges, for a message by its bytes and for a batch by
    the length of a page. *)
#[local] Instance substrate_weights : XcmpWeightInfo := SubstrateWeight RocksDbWeight.

Section substrate.
Context {W : Type} `{QueueBounds, !InboundConfig W, !SinkLaws W}.

Definition substrate_take (msg : bytes) : WeightV2.Weight := w_take_first_concatenated_xcm (zlen msg).
Definition substrate_message (msg : bytes) : WeightV2.Weight := WeightV2.mkWeight (103927383 + 187 * zlen msg) 0.
Definition substrate_batch (first : bool) : WeightV2.Weight :=
  WeightV2.mkWeight (720 * sink_page_len) (if first then sink_page_len else 0).

Lemma total_substrate xcms :
  total substrate_message xcms = WeightV2.mkWeight (103927383 * zlen xcms + 187 * zlen (concat xcms)) 0.
Proof using Type.
  induction xcms as [|xcm xcms IH]; [done|]. rewrite total_cons, IH. unfold plus, substrate_message.
  cbn [WeightV2.ref_time WeightV2.proof_size concat]. rewrite zlen_app. unfold zlen. cbn [length]. f_equal; lia.
Qed.

Ltac open_weights :=
  unfold Fees.reads, Fees.writes, WeightV2.saturating_add, WeightV2.saturating_sub, WeightV2.saturating_mul,
    WeightV2.set_proof_size, WeightV2.from_parts, WeightV2.zero, saturating_add, saturating_sub, saturating_mul in *;
  cbn [RocksDbWeight Fees.read Fees.write WeightV2.ref_time WeightV2.proof_size] in *;
  weigh; change (umax 64) with 18446744073709551615 in *; change WEIGHT_REF_TIME_PER_NANOS with 1000 in *.

(** Nothing saturates. *)
Lemma substrate_values n :
  0 <= n <= umax 32 ->
  enqueue_n_bytes_xcmp_message n = WeightV2.mkWeight (412262916 + 187 * n) 5487 /\
  enqueue_n_empty_xcmp_messages n = WeightV2.mkWeight (413664993 + 131195 * n) 5487 /\
  enqueue_empty_xcmp_message_at n = WeightV2.mkWeight (316490667 + 720 * n) (3897 + n) /\
  enqueue_n_full_pages n = WeightV2.mkWeight (310000000 + 123938725 * n) 5487 /\
  w_take_first_concatenated_xcm n = WeightV2.mkWeight (1878097 + 44593 * n) 0.
Proof using Type.
  intros Hn. change (umax 32) with 4294967295 in Hn. cbn. open_weights. split_and!; f_equal; lia.
Qed.

Lemma substrate_enqueue pos count size new first :
  0 <= count <= 250 -> 0 <= size -> 0 <= new <= 250 -> 0 <= pos ->
  w_enqueue_xcmp_messages (saturated_u32 pos) (mkBatch count size new) first =
  WeightV2.mkWeight (103796188 * new + 131195 * count + 187 * saturated_u32 size + 720 * saturated_u32 pos)
    (if first then saturated_u32 pos else 0).
Proof using Type.
  intros Hc Hs Hn Hp. unfold w_enqueue_xcmp_messages. cbn [msgs_count size_in_bytes new_pages_count].
  assert (Hr : forall n, 0 <= n -> 0 <= saturated_u32 n <= umax 32)
    by (intros n; unfold saturated_u32; change (umax 32) with 4294967295; lia).
  pose proof (Hr size Hs) as Hsize. pose proof (Hr pos Hp) as Hpos. clear Hr.
  replace (saturated_u32 count) with count by (unfold saturated_u32; change (umax 32) with 4294967295; lia).
  set (s := saturated_u32 size) in *. set (p := saturated_u32 pos) in *. clearbody s p.
  assert (Hu : forall n, 0 <= n <= 250 -> 0 <= n <= umax 32) by (change (umax 32) with 4294967295; lia).
  destruct (substrate_values 0 ltac:(done)) as (-> & -> & -> & -> & _).
  destruct (substrate_values 1 ltac:(done)) as (_ & -> & _ & -> & _).
  destruct (substrate_values s Hsize) as (-> & _). destruct (substrate_values p Hpos) as (_ & _ & -> & _).
  destruct (substrate_values count (Hu _ Hc)) as (_ & -> & _). destruct (substrate_values new (Hu _ Hn)) as (_ & _ & _ & -> & _).
  change (umax 32) with 4294967295 in *.
  assert (Hsub : forall a b c d, b <= a -> d <= c ->
    WeightV2.saturating_sub (WeightV2.mkWeight a c) (WeightV2.mkWeight b d) = WeightV2.mkWeight (a - b) (c - d)).
  { intros. unfold WeightV2.saturating_sub, saturating_sub. cbn [WeightV2.ref_time WeightV2.proof_size]. f_equal; lia. }
  assert (Hadd : forall a b c d, a + b < 2 ^ 64 -> c + d < 2 ^ 64 ->
    WeightV2.saturating_add (WeightV2.mkWeight a c) (WeightV2.mkWeight b d) = WeightV2.mkWeight (a + b) (c + d)).
  { intros. unfold WeightV2.saturating_add, saturating_add, umax. cbn [WeightV2.ref_time WeightV2.proof_size]. f_equal; lia. }
  assert (Hmul : forall a n, 0 <= n <= 250 -> 0 <= a <= 2 ^ 50 -> WeightV2.saturating_mul (WeightV2.mkWeight a 0) n = WeightV2.mkWeight (a * n) 0).
  { intros. unfold WeightV2.saturating_mul, saturating_mul, umax. cbn [WeightV2.ref_time WeightV2.proof_size]. f_equal; nia. }
  rewrite !Hsub by lia. rewrite Hmul by lia. rewrite Hsub by lia.
  destruct first; unfold WeightV2.set_proof_size; cbn [WeightV2.ref_time]; rewrite !Hadd by lia; f_equal; lia.
Qed.

Lemma substrate_charges :
  0 <= sink_page_len -> charges uncached_enqueue_xcmp_messages substrate_take substrate_message substrate_batch.
Proof using Type.
  intros Hp. split.
  - by vm_compute.
  - intros msg first. pose proof (zlen_nonneg msg). unfold substrate_take, substrate_message, substrate_batch. cbn. open_weights. destruct first; lia.
  - intros msg _. pose proof (zlen_nonneg msg). unfold take_within, substrate_take. cbn. open_weights. lia.
  - intros pos xcms new first Hpos _ Hsize Hnew x. rewrite total_substrate. pose proof (zlen_nonneg (concat xcms)).
    unfold x. rewrite substrate_enqueue; cbn [msgs_count size_in_bytes new_pages_count]; [|unfold XCM_BATCH_SIZE in *; lia..].
    unfold substrate_batch. destruct first; weigh; change (umax 64) with 18446744073709551615 in *;
      unfold saturated_u32, XCM_BATCH_SIZE in *; change (umax 32) with 4294967295; lia.
Qed.

(** The weight that a runtime reserves for these messages, a quarter of half a
    second and of five megabytes, covers 48 messages of up to 16 kilobytes in ten
    pages, for a queue with pages of up to 105521 bytes. *)
Lemma reserved_weight_covers msgs :
  zlen msgs <= 48 -> Forall (fun msg => zlen msg <= 16384) msgs -> 0 <= sink_page_len <= 105521 ->
  weight_le (plus (plus uncached_enqueue_xcmp_messages (substrate_batch true))
    (pages_cost substrate_take substrate_message substrate_batch 10 msgs)) (WeightV2.mkWeight 125000000000 1310720).
Proof using Type.
  intros Hn Hlen Hp. unfold pages_cost. rewrite total_plus, total_substrate.
  assert (Hsum : zlen (concat msgs) <= 16384 * zlen msgs /\
    weight_le (total substrate_take msgs) (WeightV2.mkWeight (732497809 * zlen msgs) 0)).
  { clear Hn. induction Hlen as [|msg msgs Hm _ [IH1 IH2]]; [done|]. pose proof (zlen_nonneg msg). rewrite total_cons. cbn [concat]. rewrite zlen_app.
    change (zlen (msg :: msgs)) with (Z.of_nat (S (length msgs))). unfold zlen in IH1, IH2.
    unfold substrate_take at 1. cbn [w_take_first_concatenated_xcm substrate_weights SubstrateWeight]. open_weights. unfold zlen in *. lia. }
  destruct Hsum as [Hs Ht]. pose proof (zlen_nonneg msgs). replace (zlen msgs / XCM_BATCH_SIZE) with 0
    by (symmetry; apply Z.div_small; unfold XCM_BATCH_SIZE; lia).
  unfold uncached_enqueue_xcmp_messages. destruct (substrate_values 0 ltac:(done)) as (_ & _ & _ & -> & _).
  unfold substrate_batch. set (t := total _ _) in *. clearbody t. weigh. lia.
Qed.
End substrate.

(** ** A concrete pair of chains

    The message queue of [MqProofs] with pages of 32 bytes; a message is its
    length in one byte followed by its content. *)
#[local] Instance path_codec : HeaderCodec := scale_header 4.
#[local] Instance path_heap : HeapSize := 32.
#[local] Instance path_codec_laws : HeaderLaws path_codec.
Proof. apply scale_header_laws. lia. Qed.

#[local] Instance path_bounds : QueueBounds := {| MaxPageSize := 64; MaxActiveOutboundChannels := 4; MaxInboundSuspended := 4 |}.

Definition one : WeightV2.Weight := WeightV2.mkWeight 1 1.

Definition path_limit : WeightV2.Weight := WeightV2.mkWeight 125000000000 1310720.

#[local] Instance path_mq : Config AggregateMessageOrigin Queue := {|
  process_message _ _ meter id s := (inl true, meter, id, s);
  MessageQueue.on_queue_changed := narrow_on_queue_changed;
  is_paused := narrow_is_paused (fun _ => false);
  MaxStale := 2;
  ServiceWeight := None;
  IdleMaxServiceWeight := None;
  weights := mkWeightInfo one one one one one one one one one;
  MessageQueue.blake2_256 msg := msg;
  layer_available _ := true;
|}.

Definition path_encode (v : bytes) : bytes := byte_of_Z (zlen v) :: v.
Definition path_decode (data : bytes) : option nat :=
  match data with
  | b :: data => let n := S (Z.to_nat (Z_of_byte b)) in if (n <=? S (length data))%nat then Some n else None
  | [] => None
  end.

#[local] Instance path_inbound : InboundConfig World := mq_inbound path_decode.

#[local] Instance path_decoder : DecoderLaws World.
Proof.
  intros [|b data] n; cbn [decode_with_depth_limit path_inbound mq_inbound path_decode]; [done|].
  destruct (Nat.leb_spec (S (Z.to_nat (Z_of_byte b))) (S (length data))); intros [= <-]. cbn [length]. lia.
Qed.

Lemma path_heap_fits : heap_size <= umax size_bits.
Proof. vm_compute. done. Qed.
Lemma path_heap_header : Z.of_nat header_len <= heap_size.
Proof. vm_compute. done. Qed.

#[local] Instance path_sink : SinkLaws World :=
  mq_sink path_decode path_heap_fits path_heap_header (fun _ _ _ => eq_refl).

Lemma path_readable v : zlen v < 27 -> readable (W := World) (path_encode v).
Proof.
  intros Hv. assert (Hb : Z_of_byte (byte_of_Z (zlen v)) = zlen v) by (rewrite Z_of_byte_of_Z; apply Z.mod_small; unfold zlen in *; lia).
  assert (Hz : zlen (path_encode v) = zlen v + 1) by (unfold zlen, path_encode; cbn; lia).
  split.
  - intros rest. cbn [decode_with_depth_limit path_inbound mq_inbound path_decode path_encode app]. rewrite Hb.
    assert (Hl : S (Z.to_nat (zlen v)) = S (length v)) by (unfold zlen; lia). rewrite Hl.
    destruct (Nat.leb_spec (S (length v)) (S (length (v ++ rest)))) as [|Hgt]; [done|]. rewrite length_app in Hgt. lia.
  - rewrite Hz. change MaxXcmpMessageLen with 27. lia.
  - rewrite Hz. change (umax 32) with 4294967295. lia.
Qed.

Definition path_start : World := mkStorage ∅ None ∅ [] (empty_queue default_queue_config).

Lemma path_start_ok : sink_ok path_start.
Proof. exists []. apply mq_ok_start. Qed.

(** *** The sending chain *)

Definition path_info (id : ParaId) : option ChannelInfo :=
  if id =? 2000 then Some (mkChannelInfo 8 512 64 0 0) else None.

Definition path_send (v : bytes) (q : Queue) : Queue :=
  match deliver path_encode (fun bs => bs) path_info 2000 v q with Ok (_, q) => q | _ => q end.

Definition path_sender : Queue := empty_queue default_queue_config.
Definition path_sender1 : Queue := Eval vm_compute in path_send [x01] path_sender.
Definition path_sender2 : Queue := Eval vm_compute in path_send [x02; x03] path_sender1.

Lemma path_room q v : zlen v < 100 -> q = path_sender \/ q = path_sender1 ->
  room q 2000 (item (encoding_for 2000 q) (path_encode v)).
Proof.
  intros Hv Hq.
  assert (Hitem : zlen (item (encoding_for 2000 q) (path_encode v)) = zlen v + 1).
  { replace (encoding_for 2000 q) with Simple by (destruct Hq as [-> | ->]; reflexivity).
    unfold zlen, item, path_encode. cbn [length]. lia. }
  split; rewrite ?Hitem; [change (umax 32) with 4294967295; unfold zlen in *; lia|].
  intros d Hd _. destruct Hq as [-> | ->]; [by apply not_elem_of_nil in Hd|].
  apply list_elem_of_singleton in Hd as ->. cbn.
  change (umax 16) with 65535. change (umax 32) with 4294967295. unfold zlen in *. lia.
Qed.

Lemma path_delivers : delivers path_encode (fun bs => bs) path_info 2000 path_sender [[x01]; [x02; x03]] path_sender2.
Proof.
  eapply (delivers_cons _ _ _ _ _ _ _ path_sender1); [by apply path_room; [|left]|by vm_compute|].
  eapply (delivers_cons _ _ _ _ _ _ _ path_sender2); [by apply path_room; [|right]|by vm_compute|]. constructor.
Qed.

(** The pages of the sender, behind a page of signals and before one that cannot
    be read. *)
Definition path_pages : list (ParaId * bytes) := Eval vm_compute in
  (1000, [x02; x00; x01]) :: ((1000,.) <$> pages_of path_sender2 2000) ++ [(1001, [x09])].

Lemma path_rooms : rooms path_start path_pages.
Proof.
  intros id. change (sink_room id path_start) with (umax 32 - 1 - 0). change (umax 32) with 4294967295.
  unfold arriving.
  replace ((fun p => page_xcms (W := World) p.2) <$> path_pages) with [[]; [[x01; x01]; [x02; x02; x03]]; []]
    by (by vm_compute).
  unfold taken_of, path_pages. cbn -[decide].
  repeat destruct (decide _); by vm_compute.
Qed.

Lemma incoming_pages_in_order_witness :
  exists used w' takens, handle_xcmp_messages path_pages path_limit path_start = Some (zlen takens, used, w') /\
    pages_run false path_start path_pages takens w' /\ zlen takens <= 3 /\
    waiting (Sibling 1000) w' = taken_of 1000 path_pages takens.
Proof.
  destruct (incoming_pages_in_order (W := World) path_pages path_limit path_start path_start_ok)
    as (used & w' & takens & E & Hrun & Hlen & _ & _ & _ & Hall);
    [by vm_compute|apply path_rooms|by vm_compute|apply empty_queue_ok|].
  exists used, w', takens. split; [exact E|]. split; [exact Hrun|]. split; [exact Hlen|exact (proj1 (Hall 1000))].
Defined.

Lemma delivered_messages_arrive_witness :
  exists used w', handle_xcmp_messages ((1000,.) <$> pages_of path_sender2 2000) path_limit path_start =
      Some (1, used, w') /\
    waiting (Sibling 1000) w' = [[x01; x01]; [x02; x02; x03]].
Proof.
  destruct (delivered_messages_arrive (W := World) path_encode (fun bs => bs) path_info 1000 2000 path_sender
    [[x01]; [x02; x03]] path_sender2 path_start uncached_enqueue_xcmp_messages substrate_take substrate_message substrate_batch path_limit)
    as (used & w' & E & _ & Hw & _).
  - apply empty_queue_ok.
  - reflexivity.
  - repeat apply Forall_cons_2; try apply path_readable; done.
  - apply path_delivers.
  - done.
  - by apply substrate_charges.
  - apply path_start_ok.
  - by vm_compute.
  - by vm_compute.
  - by vm_compute.
  - by vm_compute.
  - by vm_compute.
  - by vm_compute.
  - exists used, w'. split; [exact E|exact Hw].
Defined.

(** The first page counts as processed although there is no weight for it; its
    messages are lost. *)
Lemma first_page_without_weight :
  exists used, handle_xcmp_messages ((1000,.) <$> pages_of path_sender2 2000) WeightV2.zero path_start = Some (1, used, path_start).
Proof. eexists. vm_compute. reflexivity. Qed.

(** A page of opaque messages that is left for the next block leaves the note that
    its sender writes them. *)
Lemma retried_page_leaves_note :
  exists used w', handle_xcmp_messages [(1000, [x02]); (1001, [x03; x08; x01; x01])] WeightV2.zero path_start = Some (1, used, w') /\
    waiting (Sibling 1001) w' = [] /\ w' <> path_start.
Proof. eexists _, _. split; [vm_compute; reflexivity|]. split; [by vm_compute|]. vm_compute. discriminate. Qed.

(** ** Weight beyond the limit

    Weights that grow with the length of a message and with the position in the
    page where it goes. *)
#[local] Instance steep_weights : XcmpWeightInfo := {|
  enqueue_n_bytes_xcmp_message _ := one;
  enqueue_n_empty_xcmp_messages _ := one;
  enqueue_empty_xcmp_message_at n := WeightV2.mkWeight 1 (1 + n);
  enqueue_n_full_pages _ := one;
  w_suspend_channel := one;
  w_resume_channel := one;
  w_take_first_concatenated_xcm n := WeightV2.mkWeight (1 + n) 1;
|}.

(** The weight of decoding a message is taken although it exceeds the limit. *)
Lemma decoding_exceeds_limit :
  exists used w', handle_xcmp_messages [(1000, x00 :: path_encode (repeat x01 20))] (WeightV2.mkWeight 10 10) path_start =
      Some (1, used, w') /\ 10 < WeightV2.ref_time used.
Proof. eexists _, _. split; [vm_compute; reflexivity|]. by vm_compute. Qed.

(** A receiver with one message in the last page of the sender's queue. *)
Definition path_filled : World := Eval vm_compute in enqueue_messages [path_encode [x01]] (Sibling 1000) path_start.

(** An empty page makes the sender known although the queue was not read: the page
    that follows is no longer charged for the first page of the queue. *)
Lemma empty_page_hides_proof_size :
  let pages := [(1000, x00 :: path_encode [x02])] in
  exists used w used' w',
    handle_xcmp_messages pages (WeightV2.mkWeight 100 100) path_filled = Some (1, used, w) /\
    handle_xcmp_messages ((1000, [x00]) :: pages) (WeightV2.mkWeight 100 100) path_filled = Some (2, used', w') /\
    WeightV2.proof_size used' < WeightV2.proof_size used.
Proof. eexists _, _, _, _. split; [vm_compute; reflexivity|]. split; [vm_compute; reflexivity|]. by vm_compute. Qed.
