(* ===== verification/Inherent.v ===== *)
(** * Inbound messages of a parachain

    Model of [cumulus/pallets/parachain-system/src/parachain_inherent.rs], of the
    hash chains of [cumulus/primitives/parachain-inherent/src/lib.rs], and of the
    part of [cumulus/pallets/parachain-system/src/lib.rs] that creates the
    messages of an inherent ([do_create_inherent]) and enqueues them
    ([enqueue_inbound_downward_messages], [enqueue_inbound_horizontal_messages]).
    The hash function, the queue for downward messages and the handler of
    horizontal messages are classes.  [None] is a panic. *)

From stdpp Require Import base option numbers list gmap.
From Stdlib Require Import ZArith Lia.
From S2P Require Import Prelude Search Weights Segment.
Local Open Scope Z_scope.

(** ** Messages *)

Record InboundDownwardMessage : Set := mkDownward { dm_sent_at : Z; dm_msg : bytes }.
Record InboundHrmpMessage : Set := mkHrmp { hm_sent_at : Z; hm_data : bytes }.

(** The hashes of [BlakeTwo256]: of the data of a message, and of a link of the
    chain, made of the previous head, the block number and the hash of the data. *)
Class MqcHash (H : Type) : Type := {
  default_hash : H;
  hash_msg_data : bytes -> H;
  hash_link : H -> Z -> H -> H;
}.

Record HashedMessage (H : Type) : Type := mkHashed { hs_sent_at : Z; msg_hash : H }.
Arguments mkHashed {H}.
Arguments hs_sent_at {H}.
Arguments msg_hash {H}.

Definition hashed_downward `{MqcHash H} (msg : InboundDownwardMessage) : HashedMessage H :=
  mkHashed (dm_sent_at msg) (hash_msg_data (dm_msg msg)).
Definition hashed_hrmp `{MqcHash H} (msg : InboundHrmpMessage) : HashedMessage H :=
  mkHashed (hm_sent_at msg) (hash_msg_data (hm_data msg)).

(** [MessageQueueChain]: the head of the chain. *)
Definition extend_with_hashed_msg `{MqcHash H} (head : H) (hashed_msg : HashedMessage H) : H :=
  hash_link head (hs_sent_at hashed_msg) (msg_hash hashed_msg).
Definition extend_hrmp `{MqcHash H} (head : H) (msg : InboundHrmpMessage) : H :=
  extend_with_hashed_msg head (hashed_hrmp msg).
Definition extend_downward `{MqcHash H} (head : H) (msg : InboundDownwardMessage) : H :=
  extend_with_hashed_msg head (hashed_downward msg).

(** [InboundMessage], with its compressed form. *)
Class InboundMessage (M Cm : Type) : Type := {
  msg_data : M -> bytes;
  msg_sent_at : M -> Z;
  to_compressed : M -> Cm;
}.

#[export] Instance downward_message `{MqcHash H} : InboundMessage InboundDownwardMessage (HashedMessage H) := {|
  msg_data := dm_msg;
  msg_sent_at := dm_sent_at;
  to_compressed := hashed_downward;
|}.

#[export] Instance hrmp_message `{MqcHash H} :
    InboundMessage (ParaId * InboundHrmpMessage) (ParaId * HashedMessage H) := {|
  msg_data m := hm_data m.2;
  msg_sent_at m := hm_sent_at m.2;
  to_compressed m := (m.1, hashed_hrmp m.2);
|}.

Record InboundMessageId : Set := mkId { id_sent_at : Z; id_reverse_idx : Z }.

Inductive InboundHrmpMessageId : Set :=
| Generic (id : InboundMessageId)
| Specific (sent_at : Z) (sender : ParaId) (reverse_idx : Z).

Definition hrmp_id_sent_at (self : InboundHrmpMessageId) : Z :=
  match self with Generic id => id_sent_at id | Specific sent_at _ _ => sent_at end.

Definition hrmp_id_sender (self : InboundHrmpMessageId) : option ParaId :=
  match self with Generic _ => None | Specific _ sender _ => Some sender end.

Definition inc_reverse_idx (self : InboundHrmpMessageId) : InboundHrmpMessageId :=
  match self with
  | Generic id => Generic (mkId (id_sent_at id) (wrapping 32 (id_reverse_idx id + 1)))
  | Specific sent_at sender reverse_idx => Specific sent_at sender (wrapping 32 (reverse_idx + 1))
  end.

(** ** Collections *)

(** [for (idx, message) in messages.iter().enumerate().rev()], over the first [n]
    messages: [found] ends the loop with an index or none. *)
Fixpoint scan_back {M : Type} (n : nat) (found : nat -> M -> option (option nat)) (messages : list M) : option nat :=
  match n with
  | 0%nat => None
  | S idx =>
    match messages !! idx ≫= found idx with
    | Some last_processed_msg_idx => last_processed_msg_idx
    | None => scan_back idx found messages
    end
  end.

(** [idx.checked_sub(reverse_idx as usize)]. *)
Definition step_back (idx : nat) (reverse_idx : Z) : option nat :=
  if reverse_idx <=? Z.of_nat idx then Some (idx - Z.to_nat reverse_idx)%nat else None.

(** [messages.drain(..=idx)]. *)
Definition drain_to {M : Type} (last_processed_msg_idx : option nat) (messages : list M) : list M :=
  match last_processed_msg_idx with Some idx => drop (S idx) messages | None => messages end.

Definition drop_processed_messages `{InboundMessage M Cm} (last_processed_msg : InboundMessageId) (messages : list M) : list M :=
  drain_to (scan_back (length messages) (fun idx message =>
    let sent_at := msg_sent_at message in
    if sent_at =? id_sent_at last_processed_msg then Some (step_back idx (id_reverse_idx last_processed_msg))
    else if sent_at <? id_sent_at last_processed_msg then Some (Some idx)
    else None) messages) messages.

Definition drop_hrmp_processed_messages `{MqcHash H} (last_processed_msg : InboundHrmpMessageId)
    (messages : list (ParaId * InboundHrmpMessage)) : list (ParaId * InboundHrmpMessage) :=
  match last_processed_msg with
  | Generic id => drop_processed_messages id messages
  | Specific input_sent_at input_sender input_reverse_idx =>
    drain_to (scan_back (length messages) (fun idx '(sender, message) =>
      let sent_at := hm_sent_at message in
      if (sent_at =? input_sent_at) && (input_sender =? sender) then Some (step_back idx input_reverse_idx)
      else if (sent_at <? input_sent_at) || ((sender <? input_sender) && (sent_at =? input_sent_at)) then Some (Some idx)
      else None) messages) messages
  end.

Record Abridged (M Cm : Type) : Type := mkAbridged { full_messages : list M; hashed_messages : list Cm }.
Arguments mkAbridged {M Cm}.
Arguments full_messages {M Cm}.
Arguments hashed_messages {M Cm}.

(** The loop of [into_abridged]: the position to split at and the limit left. *)
Fixpoint fitting `{InboundMessage M Cm} (messages : list M) (idx split_off_pos : nat) (size_limit : Z) : nat * Z :=
  match messages with
  | [] => (split_off_pos, size_limit)
  | message :: messages =>
    if size_limit <? zlen (msg_data message) then (split_off_pos, size_limit)
    else fitting messages (S idx) (S idx) (size_limit - zlen (msg_data message))
  end.

Definition into_abridged `{InboundMessage M Cm} (messages : list M) (size_limit : Z) : Abridged M Cm * Z :=
  let '(split_off_pos, size_limit) := fitting messages 0 (length messages) size_limit in
  (mkAbridged (take split_off_pos messages) (to_compressed <$> drop split_off_pos messages), size_limit).

(** The assertions: whether they hold. *)
Definition check_enough_messages_included_basic {M Cm : Type} (self : Abridged M Cm) : bool :=
  if (length (hashed_messages self) =? 0)%nat then true else (1 <=? length (full_messages self))%nat.

Definition check_enough_messages_included_advanced `{InboundMessage M Cm} (self : Abridged M Cm)
    (max_full_messages_size first_hashed_msg_max_size : Z) : bool :=
  let full_messages_size := foldl (fun n msg => saturating_add 64 n (zlen (msg_data msg))) 0 (full_messages self) in
  max_full_messages_size <? saturating_add 64 full_messages_size first_hashed_msg_max_size.

(** [BoundedSlice::try_from]: longer messages are dropped. *)
Definition bounded_msgs_iter {H : Type} (max_message_len : Z) (self : Abridged InboundDownwardMessage (HashedMessage H)) : list bytes :=
  filter (fun msg => zlen msg <= max_message_len) (dm_msg <$> full_messages self).

Definition flat_msgs_iter {Cm : Type} (self : Abridged (ParaId * InboundHrmpMessage) Cm) : list (ParaId * Z * bytes) :=
  (fun '(sender, message) => (sender, hm_sent_at message, hm_data message)) <$> full_messages self.

(** The order of [from_map]: by block, then by sender. *)
Definition hrmp_key_le (a b : ParaId * InboundHrmpMessage) : bool :=
  (hm_sent_at a.2 <? hm_sent_at b.2) || ((hm_sent_at a.2 =? hm_sent_at b.2) && (a.1 <=? b.1)).

(** The stable [sort_by]. *)
Fixpoint sort_insert {A : Type} (le : A -> A -> bool) (x : A) (l : list A) : list A :=
  match l with
  | [] => [x]
  | y :: l => if le x y then x :: y :: l else y :: sort_insert le x l
  end.
Definition sort_by {A : Type} (le : A -> A -> bool) (l : list A) : list A := foldr (sort_insert le) [] l.

Definition from_map (messages_map : gmap ParaId (list InboundHrmpMessage)) : list (ParaId * InboundHrmpMessage) :=
  sort_by hrmp_key_le
    (btree_iter messages_map ≫= fun '(sender, channel_contents) => (sender,.) <$> channel_contents).

(** ** Storage and configuration *)

Inductive InboundEvent (H : Type) : Type :=
| DownwardMessagesReceived (count : Z)
| DownwardMessagesProcessed (weight_used : WeightV2.Weight) (dmq_head : H).
Arguments DownwardMessagesReceived {H}.
Arguments DownwardMessagesProcessed {H}.

(** The storage items about inbound messages, and the storage [W] of the queues
    the messages go to. *)
Record Inbound (H W : Type) : Type := mkInbound {
  LastDmqMqcHead : H;
  LastHrmpMqcHeads : gmap ParaId H;
  ProcessedDownwardMessages : Z;
  LastProcessedDownwardMessage : option InboundMessageId;
  InboundWatermark : Z;
  LastProcessedHrmpMessage : option InboundHrmpMessageId;
  InboundEvents : list (InboundEvent H);
  InboundWorld : W;
}.
Arguments mkInbound {H W}.
Arguments LastDmqMqcHead {H W}.
Arguments LastHrmpMqcHeads {H W}.
Arguments ProcessedDownwardMessages {H W}.
Arguments LastProcessedDownwardMessage {H W}.
Arguments InboundWatermark {H W}.
Arguments LastProcessedHrmpMessage {H W}.
Arguments InboundEvents {H W}.
Arguments InboundWorld {H W}.

(** [DmpQueue], [XcmpMessageHandler], the weights and the proof size of a block. *)
Class InboundHandlers (W : Type) : Type := {
  dmp_handle_messages : list bytes -> W -> W;
  DmpMaxMessageLen : Z;
  xcmp_message_handler : list (ParaId * Z * bytes) -> WeightV2.Weight -> W -> option (Z * WeightV2.Weight * W);
  reserved_xcmp_weight : WeightV2.Weight;
  w_enqueue_inbound_downward_messages : Z -> WeightV2.Weight;
  inbound_db_weight : Fees.RuntimeDbWeight;
  max_block_pov : Z;
}.

(** [AbridgedHrmpChannel], the parts about incoming messages. *)
Record IngressChannel (H : Type) : Type := mkIngress { in_max_message_size : Z; mqc_head : option H }.
Arguments mkIngress {H}.
Arguments in_max_message_size {H}.
Arguments mqc_head {H}.

Section inbound.
Context {H W : Type} `{EqDecision H} `{MqcHash H} `{InboundHandlers W}.
Implicit Types (st : Inbound H W) (channels : list (ParaId * IngressChannel H)) (mqc_heads : gmap ParaId H).

(** [remaining_proof_size] is what the block has left of its proof size. *)
Definition messages_collection_size_limit (remaining_proof_size : Z) : Z := Z.min (max_block_pov / 6) remaining_proof_size.

(** [do_create_inherent], the messages of the call. *)
Definition do_create_inherent (remaining_proof_size last_relay_block_number : Z) (downward_messages : list InboundDownwardMessage)
    (horizontal_messages : gmap ParaId (list InboundHrmpMessage)) st
  : Abridged InboundDownwardMessage (HashedMessage H) * Abridged (ParaId * InboundHrmpMessage) (ParaId * HashedMessage H) :=
  let horizontal_messages := from_map horizontal_messages in
  let last_processed_msg := default (mkId last_relay_block_number 0) (LastProcessedDownwardMessage st) in
  let downward_messages := drop_processed_messages last_processed_msg downward_messages in
  let '(downward_messages, size_limit) := into_abridged downward_messages (messages_collection_size_limit remaining_proof_size) in
  let last_processed_msg := default (Generic (mkId last_relay_block_number 0)) (LastProcessedHrmpMessage st) in
  let horizontal_messages := drop_hrmp_processed_messages last_processed_msg horizontal_messages in
  let size_limit := saturating_add 64 size_limit (messages_collection_size_limit remaining_proof_size) in
  let '(horizontal_messages, _) := into_abridged horizontal_messages size_limit in
  (downward_messages, horizontal_messages).

(** ** Downward messages *)

(** The loop over the hashed messages: the head and the last processed message. *)
Definition count_hashed (state : H * InboundMessageId) (msg : HashedMessage H) : H * InboundMessageId :=
  let '(dmq_head, last_processed_msg) := state in
  (extend_with_hashed_msg dmq_head msg,
   if hs_sent_at msg =? id_sent_at last_processed_msg
   then mkId (id_sent_at last_processed_msg) (wrapping 32 (id_reverse_idx last_processed_msg + 1))
   else last_processed_msg).

Definition enqueue_inbound_downward_messages (expected_dmq_mqc_head : H)
    (downward_messages : Abridged InboundDownwardMessage (HashedMessage H)) st : option (WeightV2.Weight * Inbound H W) :=
  if negb (check_enough_messages_included_basic downward_messages) then None
  else
    let dmq_head := LastDmqMqcHead st in
    let messages := full_messages downward_messages in
    let message_count := wrapping 32 (zlen messages) in
    let weight_used := w_enqueue_inbound_downward_messages message_count in
    let '(dmq_head, st) :=
      match last messages with
      | None => (dmq_head, st)
      | Some last_msg =>
        let dmq_head := foldl extend_downward dmq_head messages in
        let '(final_head, last_processed_msg) :=
          foldl count_hashed (dmq_head, mkId (dm_sent_at last_msg) 0) (hashed_messages downward_messages) in
        (final_head,
         mkInbound dmq_head (LastHrmpMqcHeads st) (ProcessedDownwardMessages st) (Some last_processed_msg)
           (InboundWatermark st) (LastProcessedHrmpMessage st)
           (InboundEvents st ++ [DownwardMessagesReceived message_count; DownwardMessagesProcessed weight_used dmq_head])
           (dmp_handle_messages (bounded_msgs_iter DmpMaxMessageLen downward_messages) (InboundWorld st)))
      end in
    if decide (dmq_head = expected_dmq_mqc_head) then
      Some (weight_used,
        mkInbound (LastDmqMqcHead st) (LastHrmpMqcHeads st) message_count (LastProcessedDownwardMessage st)
          (InboundWatermark st) (LastProcessedHrmpMessage st) (InboundEvents st) (InboundWorld st))
    else None.

(** ** Horizontal messages *)

Definition ingress_channel channels (sender : ParaId) : option (IngressChannel H) :=
  match binary_search_by_key fst sender channels with
  | inl idx => snd <$> channels !! idx
  | inr _ => None
  end.

Definition get_ingress_channel_or_panic channels (sender : ParaId) : option (IngressChannel H) :=
  ingress_channel channels sender.

Definition head_of mqc_heads (sender : ParaId) : H := default default_hash (mqc_heads !! sender).

(** [mqc_heads.entry(sender).or_default()], extended. *)
Definition extend_head (msg : HashedMessage H) (sender : ParaId) mqc_heads : gmap ParaId H :=
  <[sender := extend_with_hashed_msg (head_of mqc_heads sender) msg]> mqc_heads.

(** The heads with an entry for every channel, if they match. *)
Fixpoint check_hrmp_mcq_heads channels mqc_heads : option (gmap ParaId H) :=
  match channels with
  | [] => Some mqc_heads
  | (sender, channel) :: channels =>
    let cur_head := head_of mqc_heads sender in
    let target_head := default default_hash (mqc_head channel) in
    if decide (cur_head = target_head) then check_hrmp_mcq_heads channels (<[sender := cur_head]> mqc_heads) else None
  end.

Definition is_open channels (para : ParaId) : bool :=
  match binary_search_by_key fst para channels with inl _ => true | inr _ => false end.

Definition prune_closed_mqc_heads channels mqc_heads : gmap ParaId H :=
  filter (fun entry => is_open channels entry.1 = true) mqc_heads.

(** [(u32, ParaId)] in its derived order. *)
Definition metadata_le (a b : Z * ParaId) : bool := (a.1 <? b.1) || ((a.1 =? b.1) && (a.2 <=? b.2)).

Definition check_hrmp_message_metadata channels (maybe_prev_msg_metadata : option (Z * ParaId)) (msg_metadata : Z * ParaId)
    : option (option (Z * ParaId)) :=
  let ordered := match maybe_prev_msg_metadata with Some prev_msg => metadata_le prev_msg msg_metadata | None => true end in
  if negb ordered then None
  else _ ← get_ingress_channel_or_panic channels msg_metadata.2; Some (Some msg_metadata).

(** The state of the loops: metadata of the previous message, heads, last
    processed message and last processed block. *)
Record Progress : Type := mkProgress {
  prev_msg_metadata : option (Z * ParaId);
  running_heads : gmap ParaId H;
  last_processed_msg : InboundHrmpMessageId;
  last_processed_block : Z;
}.

Definition note_processed_msg channels (entry : ParaId * InboundHrmpMessage) (p : Progress) : option Progress :=
  let '(sender, msg) := entry in
  prev ← check_hrmp_message_metadata channels (prev_msg_metadata p) (hm_sent_at msg, sender);
  let block :=
    if hrmp_id_sent_at (last_processed_msg p) <? hm_sent_at msg
    then Z.max (last_processed_block p) (hrmp_id_sent_at (last_processed_msg p))
    else last_processed_block p in
  Some (mkProgress prev (extend_head (hashed_hrmp msg) sender (running_heads p)) (Specific (hm_sent_at msg) sender 0) block).

Definition note_unprocessed_msg channels (entry : ParaId * HashedMessage H) (p : Progress) : option Progress :=
  let '(sender, msg) := entry in
  prev ← check_hrmp_message_metadata channels (prev_msg_metadata p) (hs_sent_at msg, sender);
  let id := last_processed_msg p in
  let id :=
    if (hrmp_id_sent_at id =? hs_sent_at msg) &&
       (bool_decide (hrmp_id_sender id = Some sender) || bool_decide (hrmp_id_sender id = None))
    then inc_reverse_idx id else id in
  Some (mkProgress prev (extend_head msg sender (running_heads p)) id (last_processed_block p)).

(** The advancement rule. *)
Definition check_advancement (remaining_proof_size : Z) channels (messages : Abridged (ParaId * InboundHrmpMessage) (ParaId * HashedMessage H)) : option unit :=
  match hashed_messages messages with
  | [] => Some tt
  | (first_hashed_msg_sender, _) :: _ =>
    channel ← get_ingress_channel_or_panic channels first_hashed_msg_sender;
    if check_enough_messages_included_advanced messages (messages_collection_size_limit remaining_proof_size) (in_max_message_size channel)
    then Some tt else None
  end.

Definition enqueue_inbound_horizontal_messages (remaining_proof_size : Z) channels
    (horizontal_messages : Abridged (ParaId * InboundHrmpMessage) (ParaId * HashedMessage H))
    (relay_parent_number : Z) (weight_override : option WeightV2.Weight) st : option (WeightV2.Weight * Inbound H W) :=
  let mqc_heads := LastHrmpMqcHeads st in
  let messages := full_messages horizontal_messages in
  _ ← check_advancement remaining_proof_size channels horizontal_messages;
  let mqc_heads := prune_closed_mqc_heads channels mqc_heads in
  if (length messages =? 0)%nat then
    mqc_heads ← check_hrmp_mcq_heads channels mqc_heads;
    Some (Fees.reads_writes inbound_db_weight 1 2,
      mkInbound (LastDmqMqcHead st) mqc_heads (ProcessedDownwardMessages st) (LastProcessedDownwardMessage st)
        relay_parent_number (LastProcessedHrmpMessage st) (InboundEvents st) (InboundWorld st))
  else
    let max_weight := default reserved_xcmp_weight weight_override in
    '(num_processed_pages, weight_used, world) ←
      xcmp_message_handler (flat_msgs_iter horizontal_messages) max_weight (InboundWorld st);
    let num_processed_pages := Z.to_nat (Z.min num_processed_pages (zlen messages)) in
    let processed_messages := take num_processed_pages messages in
    let unprocessed_messages := (fun '(sender, msg) => (sender, hashed_hrmp msg)) <$> drop num_processed_pages messages in
    let start := default (Specific 0 0 (umax 32)) (LastProcessedHrmpMessage st) in
    p ← for_in processed_messages (note_processed_msg channels) (mkProgress None mqc_heads start (InboundWatermark st));
    let stored_heads := running_heads p in
    let rest := unprocessed_messages ++ hashed_messages horizontal_messages in
    p' ← for_in rest (note_unprocessed_msg channels) p;
    let block :=
      match rest with
      | (_, first_unprocessed_msg) :: _ =>
        if hrmp_id_sent_at (last_processed_msg p') <? hs_sent_at first_unprocessed_msg
        then Z.max (last_processed_block p') (hrmp_id_sent_at (last_processed_msg p'))
        else last_processed_block p'
      | [] => Z.max (last_processed_block p') (hrmp_id_sent_at (last_processed_msg p'))
      end in
    _ ← check_hrmp_mcq_heads channels (running_heads p');
    Some (WeightV2.saturating_add weight_used (Fees.reads_writes inbound_db_weight 2 3),
      mkInbound (LastDmqMqcHead st) stored_heads (ProcessedDownwardMessages st) (LastProcessedDownwardMessage st)
        block (Some (last_processed_msg p')) (InboundEvents st) world).

(** The messages of [set_validation_data]. *)
Definition enqueue_inbound_messages (remaining_proof_size : Z) (expected_dmq_mqc_head : H) channels (relay_parent_number : Z)
    (weight_override : option WeightV2.Weight)
    (messages : Abridged InboundDownwardMessage (HashedMessage H) * Abridged (ParaId * InboundHrmpMessage) (ParaId * HashedMessage H))
    st : option (WeightV2.Weight * Inbound H W) :=
  '(dmp_weight, st) ← enqueue_inbound_downward_messages expected_dmq_mqc_head messages.1 st;
  '(hrmp_weight, st) ← enqueue_inbound_horizontal_messages remaining_proof_size channels messages.2 relay_parent_number weight_override st;
  Some (WeightV2.saturating_add dmp_weight hrmp_weight, st).
End inbound.
