(* ===== verification/InherentProofs.v ===== *)
(** * Correctness of the handling of inbound messages

    Whatever a collator puts into the inherent, a block either panics or processes
    exactly the next messages of the relay chain's queues, in order; the
    watermark, up to which the relay chain deletes messages, never passes a
    message that is still to be processed; and what an honest collator creates is
    accepted. *)

From stdpp Require Import base option numbers list gmap sorting.
From Stdlib Require Import ZArith Lia.
From Stdlib Require Import Strings.Byte.
From S2P Require Import Prelude Search Weights Segment Inherent.
Local Open Scope Z_scope.

(** ** Hash chains *)

(** The hashes have no collisions, and no link has the hash of the empty chain. *)
Class MqcHashLaws (H : Type) `{MqcHash H} : Prop := {
  hash_data_inj :: Inj (=) (=) hash_msg_data;
  hash_link_inj h n d h' n' d' : hash_link h n d = hash_link h' n' d' -> h = h' /\ n = n' /\ d = d';
  hash_link_default h n d : hash_link h n d <> default_hash;
}.

Section chains.
Context {H : Type} `{!MqcHash H, !MqcHashLaws H}.
Implicit Types (l : list (HashedMessage H)).

(** The head of the chain of [l]. *)
Definition mqc l : H := foldl extend_with_hashed_msg default_hash l.

Lemma mqc_snoc l m : mqc (l ++ [m]) = extend_with_hashed_msg (mqc l) m.
Proof. unfold mqc. by rewrite foldl_app. Qed.

Lemma mqc_app l k : mqc (l ++ k) = foldl extend_with_hashed_msg (mqc l) k.
Proof. unfold mqc. by rewrite foldl_app. Qed.

#[export] Instance mqc_inj : Inj (=) (=) mqc.
Proof.
  intros l. induction l as [|m l IH] using rev_ind; intros k E.
  - destruct k as [|m k _] using rev_ind; [done|]. rewrite mqc_snoc in E. symmetry in E. by apply hash_link_default in E.
  - destruct k as [|m' k _] using rev_ind.
    + rewrite mqc_snoc in E. by apply hash_link_default in E.
    + rewrite !mqc_snoc in E. apply hash_link_inj in E as (E1 & E2 & E3). f_equal; [by apply IH|].
      destruct m, m'. cbn in *. by subst.
Qed.

#[export] Instance hashed_downward_inj : Inj (=) (=) hashed_downward.
Proof. intros [s d] [s' d'] E. injection E as -> E%(inj hash_msg_data). by subst. Qed.

#[export] Instance hashed_hrmp_inj : Inj (=) (=) hashed_hrmp.
Proof. intros [s d] [s' d'] E. injection E as -> E%(inj hash_msg_data). by subst. Qed.

Lemma extend_downward_all h ms : foldl extend_downward h ms = foldl extend_with_hashed_msg h (hashed_downward <$> ms).
Proof. revert h. induction ms as [|m ms IH]; intros h; [done|]. cbn. apply IH. Qed.
End chains.

(** A message list is known from its hashes. *)
Lemma fmap_app_split {A B : Type} (f : A -> B) `{!Inj (=) (=) f} (l : list A) (xs ys : list B) :
  f <$> l = xs ++ ys -> exists l1 l2, l = l1 ++ l2 /\ f <$> l1 = xs /\ f <$> l2 = ys.
Proof. intros E. apply fmap_app_inv in E as (l1 & l2 & E1 & E2 & ->). by exists l1, l2. Qed.

(** ** Downward messages *)

Section downward.
Context {H W : Type} `{EqDecision H} `{!MqcHash H, !MqcHashLaws H} `{InboundHandlers W}.
Implicit Types (st : Inbound H W) (P R : list InboundDownwardMessage).

Definition dmq_head P : H := mqc (hashed_downward <$> P).

(** The messages sent in block [n]. *)
Definition sent_in (n : Z) P : Z := zlen (filter (fun m => dm_sent_at m = n) P).

Lemma count_hashed_spec s rest : forall h r,
  0 <= r -> r + zlen rest < 2 ^ 32 ->
  foldl count_hashed (h, mkId s r) (hashed_downward <$> rest) =
    (foldl extend_with_hashed_msg h (hashed_downward <$> rest), mkId s (r + sent_in s rest)).
Proof.
  induction rest as [|m rest IH]; intros h r Hr Hmax; cbn [fmap list_fmap foldl].
  { unfold sent_in, zlen. cbn. do 2 f_equal. lia. }
  cbn [count_hashed id_sent_at id_reverse_idx]. unfold sent_in in *. rewrite filter_cons.
  unfold zlen in *. cbn [length] in Hmax. cbn [hashed_downward hs_sent_at].
  destruct (Z.eqb_spec (dm_sent_at m) s) as [->|Hne].
  - rewrite (wrapping_id 32 (r + 1)) by (unfold is_uint, umax; lia). rewrite IH by lia. rewrite decide_True by done.
    cbn [length]. do 2 f_equal. lia.
  - rewrite IH by lia. by rewrite decide_False.
Qed.

Lemma count_hashed_head l : forall s : H * InboundMessageId, (foldl count_hashed s l).1 = foldl extend_with_hashed_msg s.1 l.
Proof. induction l as [|m l IH]; intros [h i]; [done|]. cbn. by rewrite IH. Qed.

(** What a block did with the messages [full], with [rest] behind them. *)
Record dmp_processed st P (full rest : list InboundDownwardMessage) st' : Prop := {
  dmp_head : LastDmqMqcHead st' = dmq_head (P ++ full);
  dmp_count : ProcessedDownwardMessages st' = zlen full;
  dmp_last : LastProcessedDownwardMessage st' =
    match last full with
    | Some m => Some (mkId (dm_sent_at m) (sent_in (dm_sent_at m) rest))
    | None => LastProcessedDownwardMessage st
    end;
  dmp_world : InboundWorld st' = match full with
    | [] => InboundWorld st
    | _ => dmp_handle_messages (filter (fun msg => zlen msg <= DmpMaxMessageLen) (dm_msg <$> full)) (InboundWorld st)
    end;
  dmp_other : LastHrmpMqcHeads st' = LastHrmpMqcHeads st /\ InboundWatermark st' = InboundWatermark st /\
    LastProcessedHrmpMessage st' = LastProcessedHrmpMessage st;
}.

(** The messages of the inherent are the next ones. *)
Lemma enqueue_downward_spec st P R full hashed weight st' :
  LastDmqMqcHead st = dmq_head P -> zlen full + zlen hashed < 2 ^ 32 ->
  enqueue_inbound_downward_messages (dmq_head R) (mkAbridged full hashed) st = Some (weight, st') ->
  exists rest, R = P ++ full ++ rest /\ hashed = hashed_downward <$> rest /\ (rest <> [] -> full <> []) /\
    dmp_processed st P full rest st'.
Proof.
  intros Hhead Hlen. unfold enqueue_inbound_downward_messages, check_enough_messages_included_basic.
  cbn [full_messages hashed_messages]. rewrite Hhead, extend_downward_all.
  destruct full as [|m0 full0] eqn:Hfull; [|rewrite <- Hfull in *].
  - cbn [last length Nat.leb]. destruct (Nat.eqb_spec (length hashed) 0) as [->%length_zero_iff_nil|]; cbn [negb]; [|done].
    case_decide as Heq; [|done]. intros [= <- <-]. apply (inj mqc), (inj (fmap hashed_downward)) in Heq as ->.
    exists []. rewrite app_nil_r. split_and!; [done|done|done|]. by split; cbn; rewrite ?app_nil_r.
  - destruct (last full) as [ml|] eqn:Hlast; [|by rewrite Hfull in Hlast; apply last_None in Hlast].
    assert (Hne : full <> []) by by rewrite Hfull.
    destruct (negb _); [done|]. destruct (foldl count_hashed _ _) as [final id] eqn:Hfold.
    assert (Hhead2 : final = mqc ((hashed_downward <$> P) ++ (hashed_downward <$> full) ++ hashed)).
    { unfold dmq_head in Hfold. rewrite <- mqc_app in Hfold. rewrite app_assoc, mqc_app.
      apply (f_equal fst) in Hfold. by rewrite count_hashed_head in Hfold. }
    case_decide as Heq; [|done]. rewrite Hhead2 in Heq. apply (inj mqc) in Heq. symmetry in Heq.
    apply fmap_app_split in Heq as (R1 & R2 & -> & E1 & E2); [|apply _]. apply (inj (fmap hashed_downward)) in E1 as ->.
    apply fmap_app_split in E2 as (full' & rest & -> & E1 & <-); [|apply _]. apply (inj (fmap hashed_downward)) in E1 as ->.
    unfold zlen in Hlen. rewrite length_fmap in Hlen.
    rewrite count_hashed_spec in Hfold by (unfold zlen; lia). injection Hfold as _ <-.
    intros [= <- <-]. exists rest. split_and!; [done|done|done|]. rewrite Z.add_0_l. split; cbn.
    + unfold dmq_head. by rewrite fmap_app, mqc_app.
    + apply wrapping_id. unfold is_uint, umax, zlen. lia.
    + by rewrite Hlast.
    + unfold bounded_msgs_iter. cbn [full_messages]. by rewrite Hfull.
    + done.
Qed.

(** The next messages are accepted, when there is a full one among them. *)
Lemma enqueue_downward_ok st P full rest :
  LastDmqMqcHead st = dmq_head P -> (full = [] -> rest = []) ->
  exists weight st', enqueue_inbound_downward_messages (dmq_head (P ++ full ++ rest)) (mkAbridged full (hashed_downward <$> rest)) st
    = Some (weight, st').
Proof.
  intros Hh Hne. unfold enqueue_inbound_downward_messages, check_enough_messages_included_basic. cbn [full_messages hashed_messages].
  destruct (last full) as [m|] eqn:Hlast.
  - replace (if (length _ =? 0)%nat then _ else _) with true by (destruct full; [done|]; by case_match). cbn [negb].
    rewrite Hh, extend_downward_all. destruct (foldl count_hashed _ _) as [final id] eqn:Hfold.
    apply (f_equal fst) in Hfold. rewrite count_hashed_head in Hfold. cbn in Hfold. subst final. rewrite decide_True; [eauto|].
    unfold dmq_head. by rewrite !fmap_app, mqc_app, foldl_app.
  - apply last_None in Hlast as ->. rewrite (Hne eq_refl). cbn. rewrite app_nil_r, decide_True by done. eauto.
Qed.
End downward.

(** ** Horizontal messages *)

(** What came from [c], in order. *)
Definition from_sender {M : Type} (c : ParaId) (l : list (ParaId * M)) : list M := snd <$> filter (fun e => e.1 = c) l.

Lemma from_sender_app {M : Type} c (l k : list (ParaId * M)) : from_sender c (l ++ k) = from_sender c l ++ from_sender c k.
Proof. unfold from_sender. by rewrite filter_app, fmap_app. Qed.

Lemma from_sender_cons {M : Type} c s (m : M) l :
  from_sender c ((s, m) :: l) = if decide (s = c) then m :: from_sender c l else from_sender c l.
Proof. unfold from_sender. rewrite filter_cons. cbn. by destruct (decide (s = c)). Qed.

Lemma from_sender_elem {M : Type} c (m : M) l : m ∈ from_sender c l <-> (c, m) ∈ l.
Proof.
  unfold from_sender. rewrite list_elem_of_fmap. split.
  - intros ([s x] & -> & [E Hin]%list_elem_of_filter). cbn in *. by subst.
  - intros Hin. exists (c, m). split; [done|]. by apply list_elem_of_filter.
Qed.

Lemma from_sender_fmap {M N : Type} (f : M -> N) c l :
  from_sender c ((fun e => (e.1, f e.2)) <$> l) = f <$> from_sender c l.
Proof.
  induction l as [|[s m] l IH]; [done|]. rewrite fmap_cons. cbn [fst snd]. rewrite !from_sender_cons, IH. by destruct (decide (s = c)).
Qed.

(** A list of block numbers and senders in order, behind [prev]. *)
Fixpoint ordered_from (prev : option (Z * ParaId)) (l : list (Z * ParaId)) : Prop :=
  match l with
  | [] => True
  | m :: l => match prev with Some q => metadata_le q m = true | None => True end /\ ordered_from (Some m) l
  end.

Definition prev_after (prev : option (Z * ParaId)) (l : list (Z * ParaId)) : option (Z * ParaId) :=
  match last l with Some m => Some m | None => prev end.

Lemma ordered_from_app prev l k : ordered_from prev (l ++ k) <-> ordered_from prev l /\ ordered_from (prev_after prev l) k.
Proof.
  revert prev. induction l as [|m l IH]; intros prev; cbn.
  { unfold prev_after. cbn. tauto. }
  rewrite IH. unfold prev_after. cbn. destruct l; [cbn; tauto|]. destruct (last _) eqn:E; [tauto|by apply last_None in E].
Qed.

Lemma metadata_le_spec a b : metadata_le a b = true <-> a.1 < b.1 \/ (a.1 = b.1 /\ a.2 <= b.2).
Proof. unfold metadata_le. rewrite orb_true_iff, andb_true_iff, Z.ltb_lt, Z.eqb_eq, Z.leb_le. done. Qed.

Lemma ordered_from_all l : forall q, ordered_from (Some q) l -> Forall (fun m => metadata_le q m = true) l.
Proof.
  induction l as [|m l IH]; intros q; cbn; [by constructor|]. intros [Hle Hl]. constructor; [done|].
  apply (Forall_impl _ _ _ (IH m Hl)). intros x. rewrite !metadata_le_spec in *. lia.
Qed.

Section horizontal.
Context {H W : Type} `{EqDecision H} `{!MqcHash H, !MqcHashLaws H} `{InboundHandlers W}.
Context (channels : list (ParaId * IngressChannel H)).
Hypothesis ascending : forall i j x y, (i < j)%nat -> channels !! i = Some x -> channels !! j = Some y -> x.1 < y.1.
Implicit Types (st : Inbound H W) (e : ParaId * HashedMessage H) (p : Progress (H := H)).

Definition opened (c : ParaId) : Prop := exists ch, (c, ch) ∈ channels.

Lemma ascending_inj c ch ch' : (c, ch) ∈ channels -> (c, ch') ∈ channels -> ch = ch'.
Proof using ascending.
  intros [i Hi]%list_elem_of_lookup [j Hj]%list_elem_of_lookup.
  destruct (Nat.lt_trichotomy i j) as [Hlt|[->|Hlt]]; [|by simplify_eq|];
    [specialize (ascending i j _ _ Hlt Hi Hj)|specialize (ascending j i _ _ Hlt Hj Hi)]; cbn in *; lia.
Qed.

Lemma ingress_channel_spec c ch : ingress_channel channels c = Some ch <-> (c, ch) ∈ channels.
Proof using ascending.
  unfold ingress_channel. pose proof (search_key_spec fst c channels ascending) as Hs.
  destruct (binary_search_by_key fst c channels) as [i|i].
  - destruct Hs as ([c' ch'] & Hx & Hc). cbn in Hc. subst c'. rewrite Hx. cbn.
    apply list_elem_of_lookup_2 in Hx. split; [by intros [= ->]|]. intros Hin. f_equal. by apply (ascending_inj c).
  - split; [done|]. intros Hin. by apply Hs in Hin.
Qed.

Lemma is_open_spec c : is_open channels c = true <-> opened c.
Proof using ascending.
  unfold is_open. pose proof (search_key_spec fst c channels ascending) as Hs.
  destruct (binary_search_by_key fst c channels) as [i|i].
  - destruct Hs as ([c' ch] & Hx & Hc). cbn in Hc. subst c'. split; [|done]. intros _. exists ch.
    by apply list_elem_of_lookup_2 in Hx.
  - split; [done|]. intros [ch Hin]. by apply Hs in Hin.
Qed.

Lemma head_of_prune heads c ch : (c, ch) ∈ channels -> head_of (prune_closed_mqc_heads channels heads) c = head_of heads c.
Proof using ascending.
  intros Hin. unfold head_of, prune_closed_mqc_heads. f_equal. rewrite map_lookup_filter.
  destruct (heads !! c) as [h|]; [|done]. cbn. rewrite option_guard_True; [done|]. apply is_open_spec. by exists ch.
Qed.

Lemma head_of_prune_closed heads c : ~ opened c -> head_of (prune_closed_mqc_heads channels heads) c = default_hash.
Proof using ascending.
  intros Hc. unfold head_of, prune_closed_mqc_heads. rewrite map_lookup_filter. destruct (heads !! c) as [h|]; [|done]. cbn.
  rewrite option_guard_False; [done|]. by intros ?%is_open_spec.
Qed.

Lemma head_of_extend m s heads c :
  head_of (extend_head m s heads) c = if decide (s = c) then extend_with_hashed_msg (head_of heads c) m else head_of heads c.
Proof.
  unfold extend_head, head_of. destruct (decide (s = c)) as [->|Hne]; [by rewrite lookup_insert_eq|by rewrite lookup_insert_ne].
Qed.

(** The heads pass the check just when each is the one the relay chain knows. *)
Lemma check_heads_spec (chs : list (ParaId * IngressChannel H)) : forall heads heads',
  check_hrmp_mcq_heads chs heads = Some heads' ->
  Forall (fun c => head_of heads c.1 = default default_hash (mqc_head c.2)) chs /\
  forall c, head_of heads' c = head_of heads c.
Proof.
  induction chs as [|[c ch] chs IH]; intros heads heads'; cbn; [intros [= <-]; by split|].
  case_decide as Heq; [|done]. intros Hrun. apply IH in Hrun as [Hall Hsame].
  assert (Hid : forall d, head_of (<[c := head_of heads c]> heads) d = head_of heads d).
  { intros d. unfold head_of at 1. destruct (decide (c = d)) as [->|Hne]; [by rewrite lookup_insert_eq|by rewrite lookup_insert_ne]. }
  split; [constructor; [done|]|].
  - apply (Forall_impl _ _ _ Hall). intros x. by rewrite Hid.
  - intros d. by rewrite Hsame, Hid.
Qed.

Lemma check_heads_pass (chs : list (ParaId * IngressChannel H)) : forall heads,
  Forall (fun c => head_of heads c.1 = default default_hash (mqc_head c.2)) chs ->
  is_Some (check_hrmp_mcq_heads chs heads).
Proof.
  induction chs as [|[c ch] chs IH]; intros heads Hall; cbn; [done|]. apply Forall_cons in Hall as [Hc Hall].
  cbn in Hc. rewrite decide_True by done. apply IH. apply (Forall_impl _ _ _ Hall). intros [d dh] Hd. cbn in *.
  rewrite <- Hd. unfold head_of at 1. destruct (decide (c = d)) as [->|Hne]; [by rewrite lookup_insert_eq|by rewrite lookup_insert_ne].
Qed.

(** *** The loops over the messages *)

Definition meta e : Z * ParaId := (hs_sent_at e.2, e.1).
Definition as_hashed (m : ParaId * InboundHrmpMessage) : ParaId * HashedMessage H := (m.1, hashed_hrmp m.2).

Lemma check_metadata_spec prev m x :
  check_hrmp_message_metadata channels prev m = Some x <->
  x = Some m /\ match prev with Some q => metadata_le q m = true | None => True end /\ is_Some (ingress_channel channels m.2).
Proof.
  unfold check_hrmp_message_metadata, get_ingress_channel_or_panic.
  destruct prev as [q|]; [destruct (metadata_le q m)|]; cbn;
    destruct (ingress_channel channels m.2) as [ch|]; cbn; split;
    [intros [= <-]; by repeat split; eauto|by intros (-> & _ & _)|done|by intros (_ & _ & [? ?])|done|by intros (_ & ? & _)
    |done|by intros (_ & ? & _)|intros [= <-]; by repeat split; eauto|by intros (-> & _ & _)|done|by intros (_ & _ & [? ?])].
Qed.

(** The effect of noting the messages [es] on the senders' heads. *)
Record noted (es : list (ParaId * HashedMessage H)) p p' : Prop := {
  noted_open : Forall (fun e => is_Some (ingress_channel channels e.1)) es;
  noted_ordered : ordered_from (prev_msg_metadata p) (meta <$> es);
  noted_prev : prev_msg_metadata p' = prev_after (prev_msg_metadata p) (meta <$> es);
  noted_heads c : head_of (running_heads p') c = foldl extend_with_hashed_msg (head_of (running_heads p) c) (from_sender c es);
}.

Lemma noted_nil p : noted [] p p.
Proof. by split. Qed.

Lemma noted_app es es' p p1 p2 : noted es p p1 -> noted es' p1 p2 -> noted (es ++ es') p p2.
Proof.
  intros [O1 S1 P1 H1] [O2 S2 P2 H2]. split.
  - by apply Forall_app.
  - rewrite fmap_app. apply ordered_from_app. by rewrite <- P1.
  - rewrite P2, P1. unfold prev_after. rewrite fmap_app, last_app. by destruct (last (meta <$> es')).
  - intros c. by rewrite H2, H1, from_sender_app, foldl_app.
Qed.

Lemma noted_one e p p' :
  prev_msg_metadata p' = Some (meta e) -> running_heads p' = extend_head e.2 e.1 (running_heads p) ->
  match prev_msg_metadata p with Some q => metadata_le q (meta e) = true | None => True end ->
  is_Some (ingress_channel channels e.1) -> noted [e] p p'.
Proof.
  destruct e as [s m]. intros Hp Hh Hle Ho. split; [by apply Forall_singleton|by split|done|].
  intros c. rewrite Hh, head_of_extend, from_sender_cons. by destruct (decide _).
Qed.

Lemma noted_loop {A : Type} (f : A -> ParaId * HashedMessage H) (body : A -> Progress -> option Progress) l :
  (forall x p p', body x p = Some p' -> noted [f x] p p') ->
  forall p p', for_in l body p = Some p' -> noted (f <$> l) p p'.
Proof.
  intros Hbody. induction l as [|x l IH]; cbn; intros p p'; [intros [= <-]; apply noted_nil|].
  intros (p1 & H1 & H2)%bind_Some. apply (noted_app [f x] (f <$> l) _ p1); eauto.
Qed.

Lemma note_processed_noted m p p' : note_processed_msg channels m p = Some p' -> noted [as_hashed m] p p'.
Proof.
  destruct m as [s m]. unfold note_processed_msg. intros (x & (-> & Hle & Ho)%check_metadata_spec & [= <-])%bind_Some.
  by apply noted_one.
Qed.

Lemma note_unprocessed_noted e p p' : note_unprocessed_msg channels e p = Some p' -> noted [e] p p'.
Proof.
  destruct e as [s m]. unfold note_unprocessed_msg. intros (x & (-> & Hle & Ho)%check_metadata_spec & [= <-])%bind_Some.
  by apply noted_one.
Qed.
(** *** The watermark and the last processed message *)

Definition sent (m : ParaId * InboundHrmpMessage) : Z := hm_sent_at m.2.

Lemma ordered_sorted l : forall prev, ordered_from prev l -> StronglySorted Z.le (l.*1).
Proof.
  induction l as [|m l IH]; intros prev; cbn; [constructor|]. intros [_ Hl]. constructor; [by apply (IH (Some m))|].
  apply ordered_from_all in Hl. apply Forall_fmap. apply (Forall_impl _ _ _ Hl). intros x. rewrite metadata_le_spec. cbn. lia.
Qed.

(** While messages are processed the last processed block stays below all that
    follow, and does not decrease. *)
Lemma processed_block l : forall p p' later,
  for_in l (note_processed_msg channels) p = Some p' ->
  StronglySorted Z.le ((sent <$> l) ++ later) -> Forall (Z.lt (last_processed_block p)) ((sent <$> l) ++ later) ->
  Forall (Z.lt (last_processed_block p')) later.
Proof.
  induction l as [|[s m] l IH]; cbn; intros p p' later; [by intros [= <-] _ ?|].
  intros (p1 & (x & _ & [= <-])%bind_Some & Hrun)%bind_Some [Hs Hle]%StronglySorted_inv [Hm Hb]%Forall_cons.
  apply (IH _ _ _ Hrun Hs). cbn. unfold sent in Hm, Hle. cbn in Hm, Hle. case_match eqn:E; [|done]. apply Z.ltb_lt in E.
  apply Forall_forall. intros z Hz. rewrite Forall_forall in Hle, Hb. specialize (Hle z Hz). specialize (Hb z Hz). lia.
Qed.

Lemma processed_block_bounds l : forall p p',
  for_in l (note_processed_msg channels) p = Some p' ->
  last_processed_block p <= last_processed_block p' /\
  forall n, last_processed_block p <= n -> hrmp_id_sent_at (last_processed_msg p) <= n -> Forall (fun m => sent m <= n) l ->
    last_processed_block p' <= n /\ hrmp_id_sent_at (last_processed_msg p') <= n.
Proof.
  induction l as [|[s m] l IH]; cbn; intros p p'; [intros [= <-]; split; [lia|done]|].
  intros (p1 & (x & _ & [= <-])%bind_Some & Hrun)%bind_Some. apply IH in Hrun as [Hlo Hhi]. cbn in Hlo, Hhi. split.
  - case_match; lia.
  - intros n Hb Hid [Hm Hl]%Forall_cons. apply Hhi; [|done|done]. unfold sent in Hm. cbn in Hm. case_match; lia.
Qed.

Lemma processed_last l : forall p p',
  for_in l (note_processed_msg channels) p = Some p' ->
  last_processed_msg p' = match last l with Some (s, m) => Specific (hm_sent_at m) s 0 | None => last_processed_msg p end.
Proof.
  induction l as [|[s m] l IH]; cbn; intros p p'; [by intros [= <-]|].
  intros (p1 & (x & _ & [= <-])%bind_Some & Hrun)%bind_Some. apply IH in Hrun as ->. by destruct l; [|destruct (last _) eqn:E; [|apply last_None in E]].
Qed.

Lemma inc_sent_at id : hrmp_id_sent_at (inc_reverse_idx id) = hrmp_id_sent_at id.
Proof. by destruct id. Qed.

Lemma unprocessed_block es : forall p p',
  for_in es (note_unprocessed_msg channels) p = Some p' ->
  last_processed_block p' = last_processed_block p /\
  hrmp_id_sent_at (last_processed_msg p') = hrmp_id_sent_at (last_processed_msg p).
Proof.
  induction es as [|[s m] es IH]; cbn; intros p p'; [by intros [= <-]|].
  intros (p1 & (x & _ & [= <-])%bind_Some & Hrun)%bind_Some. apply IH in Hrun as [-> ->]. cbn. split; [done|].
  case_match; [apply inc_sent_at|done].
Qed.

(** The messages with the block and the sender of the last processed one are
    counted. *)
Lemma unprocessed_last s c es : forall r p p',
  for_in es (note_unprocessed_msg channels) p = Some p' ->
  last_processed_msg p = Specific s c r -> 0 <= r -> r + zlen es < 2 ^ 32 ->
  last_processed_msg p' = Specific s c (r + zlen (filter (fun e => meta e = (s, c)) es)).
Proof.
  induction es as [|[d m] es IH]; cbn [for_in]; intros r p p'.
  { intros [= <-] -> _ _. unfold zlen. cbn. f_equal. lia. }
  intros (p1 & (x & _ & [= <-])%bind_Some & Hrun)%bind_Some Hid Hr Hmax. rewrite Hid in Hrun. cbn [hrmp_id_sent_at hrmp_id_sender] in Hrun.
  rewrite filter_cons. unfold zlen in *. cbn [length] in Hmax.
  rewrite (bool_decide_eq_false_2 (Some c = None)), orb_false_r in Hrun by done.
  destruct (Z.eqb_spec s (hs_sent_at m)) as [->|Hne]; cbn [andb] in Hrun.
  - destruct (decide (d = c)) as [->|Hdc].
    + rewrite bool_decide_eq_true_2 in Hrun by done. rewrite decide_True by done.
      cbn [inc_reverse_idx] in Hrun. rewrite wrapping_id in Hrun by (unfold is_uint, umax; lia).
      erewrite (IH (r + 1)); [|exact Hrun|done|lia|lia]. cbn [length]. f_equal. lia.
    + rewrite bool_decide_eq_false_2 in Hrun by congruence. rewrite decide_False by (unfold meta; cbn; congruence).
      erewrite IH; [done|exact Hrun|done|lia|lia].
  - rewrite decide_False by (unfold meta; cbn; congruence). erewrite IH; [done|exact Hrun|done|lia|lia].
Qed.
(** *** A block *)

Definition hrmp_head (l : list InboundHrmpMessage) : H := mqc (hashed_hrmp <$> l).

(** Of the messages [R] the relay chain has from every sender, [P] are processed. *)
Implicit Types (P R : ParaId -> list InboundHrmpMessage).
Definition pending P R (c : ParaId) : list InboundHrmpMessage := drop (length (P c)) (R c).
Definition advance P (taken : list (ParaId * InboundHrmpMessage)) (c : ParaId) : list InboundHrmpMessage :=
  P c ++ from_sender c taken.
(** The heads of the chain and of the relay chain are those of [P] and [R]. *)
Definition heads_of P st : Prop := forall c, opened c -> head_of (LastHrmpMqcHeads st) c = hrmp_head (P c).
Definition relay_heads R : Prop := forall c ch, (c, ch) ∈ channels -> default default_hash (mqc_head ch) = hrmp_head (R c).

(** The messages of the open channels come after the block [n]. *)
Definition after_block (n : Z) P R : Prop := forall c m, opened c -> m ∈ pending P R c -> n < hm_sent_at m.

Lemma pending_split P R c taken rest :
  R c = P c ++ from_sender c taken ++ rest ->
  P c `prefix_of` R c /\ advance P taken c `prefix_of` R c /\
  pending P R c = from_sender c taken ++ rest /\ pending (advance P taken) R c = rest.
Proof.
  intros E. unfold pending, advance. rewrite E. split_and!.
  - by apply prefix_app_r.
  - rewrite app_assoc. by apply prefix_app_r.
  - by rewrite drop_app_length.
  - by rewrite app_assoc, drop_app_length.
Qed.

(** Heads that match after noting messages tell which messages these were. *)
Lemma noted_are_next P R taken es p p' heads :
  (forall c, opened c -> head_of (running_heads p) c = hrmp_head (P c)) ->
  noted ((as_hashed <$> taken) ++ es) p p' -> relay_heads R ->
  check_hrmp_mcq_heads channels (running_heads p') = Some heads ->
  forall c, opened c -> exists rest, R c = P c ++ from_sender c taken ++ rest /\ from_sender c es = hashed_hrmp <$> rest.
Proof using MqcHashLaws0.
  intros Hp Hn HR Hcheck c Hc. pose proof Hc as [ch Hin]. apply check_heads_spec in Hcheck as [Hcheck _].
  rewrite Forall_forall in Hcheck. specialize (Hcheck _ Hin). cbn in Hcheck. rewrite (HR c ch Hin) in Hcheck.
  rewrite (noted_heads _ _ _ Hn c), (Hp c Hc) in Hcheck. unfold hrmp_head in Hcheck. rewrite <- mqc_app in Hcheck.
  apply (inj mqc) in Hcheck. unfold as_hashed in Hcheck. rewrite from_sender_app, (from_sender_fmap hashed_hrmp) in Hcheck.
  symmetry in Hcheck. apply fmap_app_split in Hcheck as (R1 & R2 & E & E1 & E2); [|apply _].
  apply (inj (fmap hashed_hrmp)) in E1 as ->. apply fmap_app_split in E2 as (T & rest & -> & E1 & E2); [|apply _].
  apply (inj (fmap hashed_hrmp)) in E1 as ->. by exists rest.
Qed.
Lemma opened_ingress c : is_Some (ingress_channel channels c) <-> opened c.
Proof using ascending. split; [intros [ch Hc]; exists ch; by apply ingress_channel_spec|intros [ch Hc]; exists ch; by apply ingress_channel_spec]. Qed.

(** The block the watermark moves to. *)
Definition next_watermark (es : list (ParaId * HashedMessage H)) p : Z :=
  match es with
  | (_, first_unprocessed_msg) :: _ =>
    if hrmp_id_sent_at (last_processed_msg p) <? hs_sent_at first_unprocessed_msg
    then Z.max (last_processed_block p) (hrmp_id_sent_at (last_processed_msg p))
    else last_processed_block p
  | [] => Z.max (last_processed_block p) (hrmp_id_sent_at (last_processed_msg p))
  end.

Lemma next_watermark_below es p :
  StronglySorted Z.le ((fun e => hs_sent_at e.2) <$> es) -> Forall (fun e => last_processed_block p < hs_sent_at e.2) es ->
  Forall (fun e => next_watermark es p < hs_sent_at e.2) es.
Proof.
  destruct es as [|[s m] es]; [by constructor|]. cbn [next_watermark]. case_match eqn:E; [|done]. apply Z.ltb_lt in E.
  rewrite fmap_cons. intros [_ Hle]%StronglySorted_inv [Hm Hall]%Forall_cons. cbn in Hm, Hle. constructor; [cbn; lia|].
  rewrite Forall_fmap in Hle. apply Forall_forall. intros e He. rewrite Forall_forall in Hle, Hall.
  specialize (Hle e He). specialize (Hall e He). cbn in Hle, Hall. lia.
Qed.

Lemma next_watermark_grows es p : last_processed_block p <= next_watermark es p.
Proof. destruct es as [|[s m] es]; cbn; [lia|]. case_match; lia. Qed.

(** The next watermark is below what is left, when all messages are in order. *)
Lemma watermark_below taken es prev p0 p p' :
  for_in taken (note_processed_msg channels) p0 = Some p -> for_in es (note_unprocessed_msg channels) p = Some p' ->
  ordered_from prev (meta <$> (as_hashed <$> taken) ++ es) ->
  Forall (fun e => last_processed_block p0 < hs_sent_at e.2) ((as_hashed <$> taken) ++ es) ->
  Forall (fun e => next_watermark es p' < hs_sent_at e.2) es.
Proof.
  intros Hrun1 Hrun2 Hord Hall. apply ordered_sorted in Hord. rewrite !fmap_app, <- !list_fmap_compose in Hord.
  destruct (unprocessed_block es p p' Hrun2) as [Hb _].
  assert (Hlater : Forall (Z.lt (last_processed_block p)) ((fun e => hs_sent_at e.2) <$> es)).
  { apply (processed_block taken p0 p _ Hrun1); [exact Hord|]. apply Forall_app in Hall as [Hall1 Hall2].
    apply Forall_app. rewrite !Forall_fmap in *. by split. }
  apply next_watermark_below.
  - clear -Hord. induction taken as [|m taken IH]; [done|]. apply IH. cbn in Hord. by apply StronglySorted_inv in Hord as [? _].
  - rewrite Hb. by rewrite Forall_fmap in Hlater.
Qed.

(** What comes out of the two loops, when the heads match. *)
Record looped P R (taken : list (ParaId * InboundHrmpMessage)) (es : list (ParaId * HashedMessage H)) (wm : Z) p p' : Prop := {
  looped_prefix c : opened c -> advance P taken c `prefix_of` R c;
  looped_rest c : opened c -> from_sender c es = hashed_hrmp <$> pending (advance P taken) R c;
  looped_open : Forall opened taken.*1;
  looped_heads c : opened c -> head_of (running_heads p) c = hrmp_head (advance P taken c);
  looped_order : ordered_from None (meta <$> (as_hashed <$> taken) ++ es);
  looped_watermark : after_block wm P R -> after_block (next_watermark es p') (advance P taken) R;
  looped_grows : wm <= next_watermark es p';
}.

Lemma loops_spec P R taken es heads start wm p p' heads' :
  (forall c, opened c -> head_of heads c = hrmp_head (P c)) -> relay_heads R ->
  for_in taken (note_processed_msg channels) (mkProgress None heads start wm) = Some p ->
  for_in es (note_unprocessed_msg channels) p = Some p' ->
  check_hrmp_mcq_heads channels (running_heads p') = Some heads' ->
  looped P R taken es wm p p'.
Proof using MqcHashLaws0 ascending.
  intros HP HR Hrun1 Hrun2 Hcheck. set (p0 := mkProgress _ _ _ _) in *.
  pose proof (noted_loop as_hashed _ _ note_processed_noted _ _ Hrun1) as N1.
  pose proof (noted_loop id _ _ note_unprocessed_noted _ _ Hrun2) as N2. rewrite list_fmap_id in N2.
  pose proof (noted_app _ _ _ _ _ N1 N2) as N.
  pose proof (noted_are_next P R taken es p0 p' heads' HP N HR Hcheck) as Hnext.
  pose proof (noted_ordered _ _ _ N) as Hord. cbn in Hord.
  assert (Hopen : Forall opened (((as_hashed <$> taken) ++ es).*1)).
  { apply Forall_fmap. apply (Forall_impl _ _ _ (noted_open _ _ _ N)). intros e. apply opened_ingress. }
  split.
  - intros c Hc. destruct (Hnext c Hc) as (rest & E & _). by apply pending_split in E as (_ & ? & _).
  - intros c Hc. destruct (Hnext c Hc) as (rest & E & ->). by apply pending_split in E as (_ & _ & _ & ->).
  - rewrite fmap_app in Hopen. apply Forall_app in Hopen as [Hopen _]. rewrite <- list_fmap_compose in Hopen. exact Hopen.
  - intros c Hc. rewrite (noted_heads _ _ _ N1 c). unfold as_hashed. rewrite (from_sender_fmap hashed_hrmp).
    unfold p0. cbn [running_heads]. rewrite (HP c Hc). unfold hrmp_head, advance. by rewrite fmap_app, mqc_app.
  - done.
  - intros Hafter c m Hc Hm.
    assert (Hall : Forall (fun e => wm < hs_sent_at e.2) ((as_hashed <$> taken) ++ es)).
    { apply Forall_forall. intros [d x] Hx. rewrite Forall_fmap, Forall_forall in Hopen. pose proof (Hopen _ Hx) as Hd. cbn in Hd.
      destruct (Hnext d Hd) as (rest & E & E'). apply pending_split in E as (_ & _ & Epend & _).
      apply from_sender_elem in Hx. unfold as_hashed in Hx. rewrite from_sender_app, (from_sender_fmap hashed_hrmp), E', <- fmap_app, <- Epend in Hx.
      apply list_elem_of_fmap in Hx as (y & -> & Hy). cbn. by apply (Hafter d). }
    assert (Hbelow := watermark_below taken es None p0 p p' Hrun1 Hrun2 Hord Hall). rewrite Forall_forall in Hbelow.
    apply (Hbelow (c, hashed_hrmp m)). apply from_sender_elem. destruct (Hnext c Hc) as (rest & E & ->).
    apply pending_split in E as (_ & _ & _ & <-). by apply list_elem_of_fmap_2.
  - pose proof (next_watermark_grows es p'). destruct (unprocessed_block es p p' Hrun2) as [Hb _].
    apply processed_block_bounds in Hrun1 as [Hlo _]. cbn in Hlo. lia.
Qed.
Record hrmp_block st P R (taken : list (ParaId * InboundHrmpMessage)) (relay_parent : Z) st' : Prop := {
  hb_prefix c : opened c -> advance P taken c `prefix_of` R c;
  hb_heads : heads_of (advance P taken) st';
  hb_closed c : ~ opened c -> head_of (LastHrmpMqcHeads st') c = default_hash;
  hb_watermark : after_block (InboundWatermark st) P R -> after_block (InboundWatermark st') (advance P taken) R;
  hb_grows : InboundWatermark st <= relay_parent -> InboundWatermark st <= InboundWatermark st';
  hb_downward : LastDmqMqcHead st' = LastDmqMqcHead st /\ ProcessedDownwardMessages st' = ProcessedDownwardMessages st /\
    LastProcessedDownwardMessage st' = LastProcessedDownwardMessage st;
}.

(** What a block does without messages: nothing was sent. *)
Lemma enqueue_no_horizontal st P R hashed remaining relay_parent wo weight st' :
  heads_of P st -> relay_heads R ->
  enqueue_inbound_horizontal_messages remaining channels (mkAbridged [] hashed) relay_parent wo st = Some (weight, st') ->
  hrmp_block st P R [] relay_parent st' /\ (forall c, opened c -> R c = P c) /\ InboundWatermark st' = relay_parent /\
  InboundWorld st' = InboundWorld st /\ LastProcessedHrmpMessage st' = LastProcessedHrmpMessage st.
Proof using MqcHashLaws0 ascending.
  intros HP HR. unfold enqueue_inbound_horizontal_messages. cbn [full_messages length Nat.eqb].
  intros (_ & _ & (heads & Hcheck & [= <- <-])%bind_Some)%bind_Some.
  apply check_heads_spec in Hcheck as [Hall Hsame]. rewrite Forall_forall in Hall.
  assert (Hpr : forall c, opened c -> head_of heads c = hrmp_head (P c)).
  { intros c Hc. pose proof Hc as [ch Hin]. rewrite Hsame, (head_of_prune _ c ch Hin). by apply HP. }
  assert (Heq : forall c, opened c -> R c = P c).
  { intros c Hc. pose proof Hc as [ch Hin]. specialize (Hall _ Hin). cbn in Hall.
    rewrite <- Hsame, (HR c ch Hin), (Hpr c Hc) in Hall. by apply (inj mqc), (inj (fmap hashed_hrmp)) in Hall. }
  assert (Hadv : forall c, advance P [] c = P c) by (intros c; unfold advance; cbn; by rewrite app_nil_r).
  split_and!; [split|done..]; cbn.
  - intros c Hc. by rewrite Hadv, (Heq c Hc).
  - intros c Hc. cbn. by rewrite Hadv, (Hpr c Hc).
  - intros c Hc. by rewrite Hsame, head_of_prune_closed.
  - intros _ c m Hc. unfold pending. rewrite Hadv, (Heq c Hc), drop_all. by intros ?%not_elem_of_nil.
  - done.
  - done.
Qed.

Lemma enqueue_some_horizontal st P R full hashed remaining relay_parent wo weight st' :
  heads_of P st -> relay_heads R -> full <> [] ->
  enqueue_inbound_horizontal_messages remaining channels (mkAbridged full hashed) relay_parent wo st = Some (weight, st') ->
  exists k used p p',
    xcmp_message_handler (flat_msgs_iter (mkAbridged full hashed)) (default reserved_xcmp_weight wo) (InboundWorld st)
      = Some (k, used, InboundWorld st') /\
    let n := Z.to_nat (Z.min k (zlen full)) in
    let es := (as_hashed <$> drop n full) ++ hashed in
    looped P R (take n full) es (InboundWatermark st) p p' /\ hrmp_block st P R (take n full) relay_parent st' /\
    for_in (take n full) (note_processed_msg channels)
      (mkProgress None (prune_closed_mqc_heads channels (LastHrmpMqcHeads st))
        (default (Specific 0 0 (umax 32)) (LastProcessedHrmpMessage st)) (InboundWatermark st)) = Some p /\
    for_in es (note_unprocessed_msg channels) p = Some p' /\
    LastProcessedHrmpMessage st' = Some (last_processed_msg p') /\ InboundWatermark st' = next_watermark es p'.
Proof using MqcHashLaws0 ascending.
  intros HP HR Hne. unfold enqueue_inbound_horizontal_messages. cbn [full_messages hashed_messages].
  intros (_ & _ & Hrun)%bind_Some. destruct (Nat.eqb_spec (length full) 0) as [E|_]; [by apply length_zero_iff_nil in E|].
  apply bind_Some in Hrun as ([[k used] world] & Hh & (p & Hrun1 & (p' & Hrun2 & (heads & Hcheck & [= <- <-])%bind_Some)%bind_Some)%bind_Some).
  assert (Ef : forall l, ((fun '(sender, msg) => (sender, hashed_hrmp msg)) <$> l) = as_hashed <$> l)
    by (intros l; apply list_fmap_ext; by intros ? [? ?] ?).
  rewrite Ef in *. exists k, used, p, p'. cbv zeta. cbn [InboundWorld LastProcessedHrmpMessage InboundWatermark].
  assert (HL := fun HP' => loops_spec P R _ _ _ _ _ _ _ _ HP' HR Hrun1 Hrun2 Hcheck).
  specialize (HL ltac:(intros c Hc; pose proof Hc as [ch Hin]; rewrite (head_of_prune _ c ch Hin); by apply HP)).
  pose proof HL as [L1 L2 L3 L4 L5 L6 L7]. split_and!; [done|done| |done|done|done|done].
  split; cbn; [done|intros c Hc; by apply L4| |done|done|done].
  intros c Hc. pose proof (noted_loop as_hashed _ _ note_processed_noted _ _ Hrun1) as N. rewrite (noted_heads _ _ _ N c). cbn [running_heads].
  unfold as_hashed. rewrite (from_sender_fmap hashed_hrmp), head_of_prune_closed by done.
  destruct (from_sender c _) as [|m l] eqn:E; [done|]. destruct Hc. rewrite Forall_fmap, Forall_forall in L3.
  apply (L3 (c, m)). apply from_sender_elem. rewrite E. left.
Qed.
End horizontal.
