(* ===== verification/InherentCreate.v ===== *)
(** * What an honest collator includes

    The collections of messages of [parachain_inherent.rs]: dropping the processed
    messages leaves exactly the others, the horizontal messages are sorted by
    block and sender and keep the order of each channel, and the abridged
    collection has the full messages that fit. *)

From stdpp Require Import base option numbers list gmap sorting.
From Stdlib Require Import ZArith Lia.
From S2P Require Import Prelude Search Weights Segment SegmentProofs Inherent InherentProofs.
Local Open Scope Z_scope.

(** ** Dropping processed messages *)

Section dropping.
Context {M : Type}.
Implicit Types (l A B : list M).

(** The scan of [drop_processed_messages] for a message compared by [cmp] with the
    last processed one. *)
Definition scan_by (cmp : M -> comparison) (r : Z) (idx : nat) (m : M) : option (option nat) :=
  match cmp m with Eq => Some (step_back idx r) | Lt => Some (Some idx) | Gt => None end.

Lemma scan_back_skip found A B :
  (forall i m, B !! i = Some m -> found (length A + i)%nat m = None) ->
  scan_back (length (A ++ B)) found (A ++ B) = scan_back (length A) found (A ++ B).
Proof.
  intros Hnone. rewrite length_app.
  assert (Hk : forall k, (k <= length B)%nat ->
    scan_back (length A + k) found (A ++ B) = scan_back (length A) found (A ++ B)); [|by apply Hk].
  induction k as [|k IH]; intros Hle; [by rewrite Nat.add_0_r|]. rewrite Nat.add_succ_r. cbn [scan_back].
  destruct (lookup_lt_is_Some_2 B k) as [m Hm]; [lia|].
  rewrite lookup_app_r by lia. replace (length A + k - length A)%nat with k by lia. rewrite Hm. cbn [mbind option_bind].
  rewrite (Hnone k m Hm). apply IH. lia.
Qed.

Lemma scan_back_last found A m B :
  scan_back (length (A ++ [m])) found ((A ++ [m]) ++ B) =
  match found (length A) m with Some i => i | None => scan_back (length A) found ((A ++ [m]) ++ B) end.
Proof.
  rewrite length_app. cbn [length]. rewrite Nat.add_1_r. cbn [scan_back].
  rewrite lookup_app_l by (rewrite length_app; cbn; lia). by rewrite list_lookup_middle.
Qed.

(** Everything but what was processed is left: [A] is not after the last processed
    message, [B1] are those of its block and sender that are still to be processed,
    as many as the reverse index tells, and [B2] come after it. *)
Lemma drain_exact cmp A B1 B2 r :
  Forall (fun m => cmp m <> Gt) A -> Forall (fun m => cmp m = Eq) B1 -> Forall (fun m => cmp m = Gt) B2 ->
  (r = zlen B1 \/ (B1 = [] /\ Forall (fun m => cmp m = Lt) A)) ->
  drain_to (scan_back (length (A ++ B1 ++ B2)) (scan_by cmp r) (A ++ B1 ++ B2)) (A ++ B1 ++ B2) = B1 ++ B2.
Proof.
  intros HA HB1 HB2 Hr. rewrite app_assoc, scan_back_skip.
  2:{ intros i m Hm. unfold scan_by. rewrite Forall_lookup in HB2. by rewrite (HB2 i m Hm). }
  destruct B1 as [|b B1 _] using rev_ind; [clear HB1|]; rewrite ?app_nil_r.
  - destruct A as [|a A _] using rev_ind; [done|]. rewrite scan_back_last. apply Forall_app in HA as [_ [Ha _]%Forall_cons].
    assert (E : scan_by cmp r (length A) a = Some (Some (length A))).
    { cbn in Ha. unfold scan_by. destruct (cmp a) eqn:Hc; [|reflexivity|congruence]. destruct Hr as [->|[_ [_ [Hlt _]%Forall_cons]%Forall_app]]; [|cbn in Hlt; congruence].
      unfold step_back, zlen. cbn. rewrite (proj2 (Z.leb_le 0 _)) by lia. by rewrite Nat.sub_0_r. }
    rewrite E. cbn [drain_to]. rewrite <- (Nat.add_1_r (length A)), <- (length_app A [a]) at 1. by rewrite drop_app_length.
  - destruct Hr as [->|[? _]]; [|by destruct B1]. apply Forall_app in HB1 as [_ [Hb _]%Forall_cons].
    rewrite (app_assoc A B1 [b]), scan_back_last. unfold scan_by. rewrite Hb. unfold step_back, zlen.
    rewrite !length_app. cbn [length].
    destruct (Z.leb_spec (Z.of_nat (length B1 + 1)) (Z.of_nat (length A + length B1))) as [Hle|Hgt]; cbn [drain_to].
    + replace (S _) with (length A) by lia. rewrite <- app_assoc, <- app_assoc. rewrite drop_app_length. by rewrite <- app_assoc.
    + destruct A; [|cbn in Hgt; lia]. done.
Qed.

Lemma scan_back_ext (f g : nat -> M -> option (option nat)) l n :
  (forall i m, f i m = g i m) -> scan_back n f l = scan_back n g l.
Proof.
  intros E. induction n as [|n IH]; [done|]. cbn. destruct (l !! n); cbn; [|by rewrite IH]. rewrite E. by case_match.
Qed.
End dropping.

(** ** The abridged collection *)

Section abridged.
Context {M Cm : Type} `{!InboundMessage M Cm}.
Implicit Types (ms : list M).

Definition data_size ms : Z := foldr (fun m n => zlen (msg_data m) + n) 0 ms.

Lemma data_size_nonneg ms : 0 <= data_size ms.
Proof. unfold data_size. induction ms as [|m ms IH]; cbn; [lia|]. pose proof (zlen_nonneg (msg_data m)). lia. Qed.

(** Whether [ms] goes on with a message over [left]. *)
Definition stuck ms (left : Z) : Prop := match ms with [] => True | m :: _ => left < zlen (msg_data m) end.

Lemma fitting_spec ms : forall idx pos limit k left,
  fitting ms idx pos limit = (k, left) ->
  (k = pos /\ left = limit /\ stuck ms limit) \/
  exists j, (1 <= j <= length ms)%nat /\ k = (idx + j)%nat /\ left = limit - data_size (take j ms) /\
    stuck (drop j ms) left /\ 0 <= left.
Proof.
  induction ms as [|m ms IH]; cbn [fitting]; intros idx pos limit k left.
  { intros [= <- <-]. by left. }
  destruct (Z.ltb_spec limit (zlen (msg_data m))) as [Hlt|Hge]; [intros [= <- <-]; by left|].
  intros Hfit. right. apply IH in Hfit as [(-> & -> & Hs)|(j & Hj & -> & -> & Hs & Hpos)].
  - exists 1%nat. cbn. rewrite take_0, drop_0. cbn. split_and!; try lia. done.
  - exists (S j). cbn [take drop length data_size foldr]. fold (data_size (take j ms)). rewrite Z.sub_add_distr. split_and!; try lia. done.
Qed.

(** The full messages are the first ones; they fit, and the next one would not;
    when not even the first fits, all are full. *)
Lemma into_abridged_spec ms limit a left :
  0 <= limit -> into_abridged ms limit = (a, left) ->
  exists rest, ms = full_messages a ++ rest /\ hashed_messages a = to_compressed <$> rest /\
    (full_messages a = [] -> ms = []) /\ 0 <= left <= limit /\
    (rest <> [] -> left = limit - data_size (full_messages a) /\ stuck rest left).
Proof.
  intros Hlim. unfold into_abridged. destruct (fitting ms 0 (length ms) limit) as [k l] eqn:Hfit. intros [= <- <-]. cbn.
  exists (drop k ms). rewrite take_drop.
  apply fitting_spec in Hfit as [(-> & -> & Hs)|(j & Hj & -> & -> & Hs & Hpos)].
  - rewrite drop_all, take_ge by done. split_and!; [done|done|done|lia|lia|done].
  - cbn [Nat.add]. split_and!; [done|done| |lia| |done].
    + destruct ms; [done|]. destruct j; [lia|done].
    + pose proof (data_size_nonneg (take j ms)). lia.
Qed.

(** When not even the first message fits, all are kept in full. *)
Lemma first_over_limit m ms limit :
  limit < zlen (msg_data m) -> into_abridged (m :: ms) limit = (mkAbridged (m :: ms) [], limit).
Proof.
  intros Hlt. unfold into_abridged. cbn [fitting]. rewrite (proj2 (Z.ltb_lt _ _) Hlt).
  by rewrite take_ge, drop_ge.
Qed.
End abridged.

(** ** The order of horizontal messages *)

Section sorting.
Implicit Types (l : list (ParaId * InboundHrmpMessage)).

(** Block and sender. *)
Definition key (m : ParaId * InboundHrmpMessage) : Z * ParaId := (hm_sent_at m.2, m.1).
Definition key_order (a b : ParaId * InboundHrmpMessage) : Prop := metadata_le (key a) (key b) = true.

#[export] Instance key_order_trans : Transitive key_order.
Proof. intros a b c. unfold key_order. rewrite !metadata_le_spec. lia. Qed.

Lemma key_order_total a b : hrmp_key_le a b = false -> key_order b a.
Proof.
  unfold hrmp_key_le, key_order, key. rewrite metadata_le_spec, orb_false_iff, andb_false_iff, Z.ltb_ge, Z.eqb_neq, Z.leb_gt.
  cbn. lia.
Qed.

Definition in_order l : Prop := StronglySorted key_order l.

Lemma sort_insert_elem {A : Type} le (x y : A) (l : list A) : y ∈ sort_insert le x l -> y = x \/ y ∈ l.
Proof.
  induction l as [|z l IH]; cbn; [rewrite list_elem_of_singleton; auto|].
  destruct (le x z); rewrite !elem_of_cons; [tauto|]. intros [->|Hy]; [auto|]. apply IH in Hy. tauto.
Qed.

Lemma sort_insert_order x l : in_order l -> in_order (sort_insert hrmp_key_le x l).
Proof.
  induction l as [|y l IH]; intros Hs; cbn; [repeat constructor|]. apply StronglySorted_inv in Hs as [Hs Hy].
  destruct (hrmp_key_le x y) eqn:E.
  - constructor; [by constructor|]. constructor; [done|]. apply (Forall_impl _ _ _ Hy). intros z. by apply (transitivity (R := key_order)).
  - constructor; [by apply IH|]. apply Forall_forall. intros z [->|Hz]%sort_insert_elem; [by apply key_order_total|].
    rewrite Forall_forall in Hy. by apply Hy.
Qed.

Lemma sort_by_order l : in_order (sort_by hrmp_key_le l).
Proof. induction l; cbn; [constructor|]. by apply sort_insert_order. Qed.

(** The sort is stable: it keeps the order of a channel that is in order. *)
Lemma sort_insert_from x l c :
  Forall (fun m => hm_sent_at x.2 <= hm_sent_at m) (from_sender x.1 l) ->
  from_sender c (sort_insert hrmp_key_le x l) = from_sender c (x :: l).
Proof.
  destruct x as [s m]. cbn [fst snd]. induction l as [|[d y] l IH]; intros Hle; cbn [sort_insert]; [done|].
  destruct (hrmp_key_le (s, m) (d, y)) eqn:E; [done|]. rewrite from_sender_cons in Hle.
  assert (Hds : d <> s).
  { intros ->. rewrite decide_True in Hle by done. apply Forall_cons in Hle as [Hle _].
    unfold hrmp_key_le in E. cbn in E. apply orb_false_iff in E as [E1%Z.ltb_ge E2]. rewrite Z.leb_refl, andb_true_r in E2.
    apply Z.eqb_neq in E2. lia. }
  rewrite decide_False in Hle by done. rewrite from_sender_cons, (IH Hle), !from_sender_cons.
  destruct (decide (d = c)), (decide (s = c)); congruence.
Qed.

Definition channel_sorted (ms : list InboundHrmpMessage) : Prop := StronglySorted Z.le (hm_sent_at <$> ms).

Lemma sort_by_from l :
  (forall c, channel_sorted (from_sender c l)) -> forall c, from_sender c (sort_by hrmp_key_le l) = from_sender c l.
Proof.
  induction l as [|[s m] l IH]; intros Hs c; [done|]. cbn [sort_by foldr].
  assert (Hs' : forall d, channel_sorted (from_sender d l)).
  { intros d. specialize (Hs d). rewrite from_sender_cons in Hs. destruct (decide (s = d)); [|done].
    unfold channel_sorted in *. rewrite fmap_cons in Hs. by apply StronglySorted_inv in Hs as [? _]. }
  fold (sort_by hrmp_key_le l). rewrite sort_insert_from.
  - rewrite !from_sender_cons. by rewrite (IH Hs').
  - cbn [fst snd]. rewrite (IH Hs'). specialize (Hs s). rewrite from_sender_cons, decide_True in Hs by done.
    unfold channel_sorted in Hs. rewrite fmap_cons in Hs. apply StronglySorted_inv in Hs as [_ Hall]. by rewrite Forall_fmap in Hall.
Qed.

(** Only one order keeps the order of the channels. *)
Lemma in_order_unique l : forall k, in_order l -> in_order k -> (forall c, from_sender c l = from_sender c k) -> l = k.
Proof.
  induction l as [|[s m] l IH]; intros k Hl Hk Hsame.
  { destruct k as [|[s m] k]; [done|]. specialize (Hsame s). rewrite from_sender_cons, decide_True in Hsame by done. done. }
  destruct k as [|[d y] k].
  { specialize (Hsame s). rewrite from_sender_cons, decide_True in Hsame by done. done. }
  assert (Hmk : (s, m) ∈ (d, y) :: k) by (apply from_sender_elem; rewrite <- Hsame, from_sender_cons, decide_True by done; left).
  assert (Hyl : (d, y) ∈ (s, m) :: l) by (apply from_sender_elem; rewrite Hsame, from_sender_cons, decide_True by done; left).
  apply StronglySorted_inv in Hl as [Hl Hfl]. apply StronglySorted_inv in Hk as [Hk Hfk]. rewrite Forall_forall in Hfl, Hfk.
  assert (Heq : (d, y) = (s, m)).
  { apply elem_of_cons in Hmk as [?|Hmk]; [done|]. apply elem_of_cons in Hyl as [?|Hyl]; [done|].
    specialize (Hfl _ Hyl). specialize (Hfk _ Hmk). unfold key_order in Hfl, Hfk. rewrite metadata_le_spec in Hfl, Hfk. cbn in Hfl, Hfk.
    assert (d = s) as -> by lia. specialize (Hsame s). rewrite !from_sender_cons, !decide_True in Hsame by done. by simplify_eq. }
  injection Heq as -> ->. f_equal. apply IH; [done|done|]. intros c. specialize (Hsame c). rewrite !from_sender_cons in Hsame.
  destruct (decide (s = c)); [by simplify_eq|done].
Qed.
End sorting.

(** [from_map] has the messages of every channel, in order. *)
Lemma flatten_from (channels : list (ParaId * list InboundHrmpMessage)) c :
  NoDup channels.*1 ->
  from_sender c (channels ≫= fun '(sender, channel_contents) => (sender,.) <$> channel_contents) =
  default [] ((list_to_map channels : gmap ParaId (list InboundHrmpMessage)) !! c).
Proof.
  induction channels as [|[s ms] channels IH]; [intros _; cbn; by rewrite lookup_empty|]. intros Hnd. apply NoDup_cons in Hnd as [Hni Hnd].
  rewrite bind_cons, from_sender_app, (IH Hnd). cbn [list_to_map foldr fst snd].
  assert (Hown : from_sender c ((s,.) <$> ms) = if decide (s = c) then ms else []).
  { clear. induction ms as [|m ms IH]; [by destruct (decide _)|]. rewrite fmap_cons, from_sender_cons, IH. by destruct (decide _). }
  rewrite Hown. destruct (decide (s = c)) as [->|Hne].
  - rewrite lookup_insert_eq. cbn. cbn in Hni. rewrite (not_elem_of_list_to_map_1 _ _ Hni). cbn. by rewrite app_nil_r.
  - by rewrite lookup_insert_ne.
Qed.

Lemma from_map_from (q : gmap ParaId (list InboundHrmpMessage)) :
  (forall c ms, q !! c = Some ms -> channel_sorted ms) -> forall c, from_sender c (from_map q) = default [] (q !! c).
Proof.
  intros Hs c. unfold from_map.
  assert (Hf : forall d, from_sender d (btree_iter q ≫= fun '(sender, ms) => (sender,.) <$> ms) = default [] (q !! d)).
  { intros d. by rewrite flatten_from, btree_iter_map by apply btree_iter_nodup. }
  rewrite sort_by_from; [apply Hf|]. intros d. rewrite Hf. destruct (q !! d) eqn:E; [by apply (Hs d)|constructor].
Qed.

Lemma from_map_order q : in_order (from_map q).
Proof. apply sort_by_order. Qed.

(** A collection splits where each of its channels does. *)
Lemma from_map_split (q qa qb : gmap ParaId (list InboundHrmpMessage)) :
  (forall c ms, q !! c = Some ms -> channel_sorted ms) ->
  (forall c, default [] (q !! c) = default [] (qa !! c) ++ default [] (qb !! c)) ->
  (forall c d a b, a ∈ default [] (qa !! c) -> b ∈ default [] (qb !! d) -> key_order (c, a) (d, b)) ->
  from_map q = from_map qa ++ from_map qb /\
  (forall c, from_sender c (from_map qa) = default [] (qa !! c)) /\ (forall c, from_sender c (from_map qb) = default [] (qb !! c)).
Proof.
  intros Hs Hsplit Hcross.
  assert (Hall : forall c, channel_sorted (default [] (qa !! c) ++ default [] (qb !! c))).
  { intros c. rewrite <- Hsplit. destruct (q !! c) eqn:E; [by apply (Hs c)|constructor]. }
  assert (Hsa : forall c ms, qa !! c = Some ms -> channel_sorted ms).
  { intros c ms E. specialize (Hall c). rewrite E in Hall. unfold channel_sorted in *. cbn in Hall. rewrite fmap_app in Hall.
    by apply StronglySorted_app in Hall as (_ & ? & _). }
  assert (Hsb : forall c ms, qb !! c = Some ms -> channel_sorted ms).
  { intros c ms E. specialize (Hall c). rewrite E in Hall. unfold channel_sorted in *. cbn in Hall. rewrite fmap_app in Hall.
    by apply StronglySorted_app in Hall as (_ & _ & ?). }
  pose proof (from_map_from qa Hsa) as Fa. pose proof (from_map_from qb Hsb) as Fb.
  split_and!; [|done|done]. apply in_order_unique; [apply from_map_order| |].
  - apply StronglySorted_app. split_and!; [|apply from_map_order..].
    intros [c a] [d b] Ha%from_sender_elem Hb%from_sender_elem. rewrite Fa in Ha. rewrite Fb in Hb. by apply Hcross.
  - intros c. by rewrite from_sender_app, Fa, Fb, (from_map_from q Hs).
Qed.

(** ** Horizontal messages that are still to be processed *)

Definition key_cmp (k : Z * ParaId) (m : ParaId * InboundHrmpMessage) : comparison :=
  match hm_sent_at m.2 ?= k.1 with Eq => m.1 ?= k.2 | c => c end.

Lemma key_cmp_spec k m :
  match key_cmp k m with
  | Eq => key m = k
  | Lt => metadata_le k (key m) = false
  | Gt => metadata_le (key m) k = false
  end.
Proof.
  destruct k as [s d], m as [c m]. unfold key_cmp, key. cbn [fst snd].
  destruct (Z.compare_spec (hm_sent_at m) s) as [->|Hlt|Hgt]; [destruct (Z.compare_spec c d) as [->|Hlt|Hgt]; [done|..]|..];
    apply not_true_iff_false; rewrite metadata_le_spec; cbn; lia.
Qed.

Lemma filter_none {A : Type} (Q : A -> Prop) `{!forall x, Decision (Q x)} (l : list A) : Forall (fun x => ~ Q x) l -> filter Q l = [].
Proof. induction 1; [done|]. rewrite filter_cons. by rewrite decide_False. Qed.

(** What comes from the last processed block and sender is first. *)
Lemma in_order_split k l :
  in_order l -> Forall (fun m => metadata_le k (key m) = true) l ->
  l = filter (fun m => key m = k) l ++ filter (fun m => key m <> k) l.
Proof.
  intros Hs Hall. induction l as [|m l IH]; [done|]. apply StronglySorted_inv in Hs as [Hs Hm]. apply Forall_cons in Hall as [Hk Hall].
  rewrite !filter_cons. destruct (decide (key m = k)) as [E|E].
  - rewrite decide_False by (by intros ?). cbn. by rewrite <- IH.
  - rewrite decide_True by done. assert (Hnone : filter (fun m => key m = k) l = []).
    { apply filter_none, Forall_forall. intros x Hx E'. rewrite Forall_forall in Hm. specialize (Hm x Hx). unfold key_order in Hm.
      rewrite E', metadata_le_spec in Hm. rewrite metadata_le_spec in Hk. apply E. destruct (key m), k. cbn in *. f_equal; lia. }
    rewrite (IH Hs Hall) at 1. by rewrite Hnone.
Qed.

Lemma drop_specific {H : Type} `{!MqcHash H} s d r A B :
  Forall (fun m => metadata_le (key m) (s, d) = true) A -> Forall (fun m => metadata_le (s, d) (key m) = true) B -> in_order B ->
  (r = zlen (filter (fun m => key m = (s, d)) B) \/ Forall (fun m => key m <> (s, d)) (A ++ B)) ->
  drop_hrmp_processed_messages (Specific s d r) (A ++ B) = B.
Proof.
  intros HA HB Hs Hr. cbn [drop_hrmp_processed_messages].
  set (B1 := filter (fun m => key m = (s, d)) B) in *. set (B2 := filter (fun m => key m <> (s, d)) B).
  assert (E : B = B1 ++ B2) by by apply in_order_split.
  rewrite (scan_back_ext _ (scan_by (key_cmp (s, d)) r)).
  - rewrite E. apply drain_exact.
    + apply (Forall_impl _ _ _ HA). intros m Hm Hgt. pose proof (key_cmp_spec (s, d) m) as Hc. rewrite Hgt in Hc. congruence.
    + apply Forall_forall. intros m [Hm _]%list_elem_of_filter. unfold key_cmp. injection Hm as -> ->. cbn. by rewrite !Z.compare_refl.
    + apply Forall_forall. intros m [Hm Hin]%list_elem_of_filter. pose proof (key_cmp_spec (s, d) m) as Hc.
      rewrite Forall_forall in HB. specialize (HB m Hin). destruct (key_cmp (s, d) m); [done|congruence|done].
    + destruct Hr as [->|[HnA HnB]%Forall_app]; [by left|]. right. split; [by apply filter_none|].
      apply Forall_forall. intros m Hm. rewrite Forall_forall in HnA, HA. specialize (HnA m Hm). specialize (HA m Hm).
      pose proof (key_cmp_spec (s, d) m) as Hc. destruct (key_cmp (s, d) m); [done|done|congruence].
  - intros i [c m]. unfold scan_by, key_cmp. cbn [fst snd].
    destruct (Z.compare_spec (hm_sent_at m) s) as [->|Hlt|Hgt].
    + rewrite Z.eqb_refl, Z.ltb_irrefl, andb_true_r. cbn [andb orb]. rewrite (Z.eqb_sym d c).
      destruct (Z.compare_spec c d) as [->|Hlt|Hgt]; [by rewrite Z.eqb_refl|..].
      * by rewrite (proj2 (Z.eqb_neq c d)), (proj2 (Z.ltb_lt c d)) by lia.
      * by rewrite (proj2 (Z.eqb_neq c d)), (proj2 (Z.ltb_ge c d)) by lia.
    + by rewrite (proj2 (Z.eqb_neq _ s)), (proj2 (Z.ltb_lt _ s)) by lia.
    + by rewrite (proj2 (Z.eqb_neq _ s)), (proj2 (Z.ltb_ge _ s)), andb_false_r by lia.
Qed.

(** ** Messages that are still to be processed, by block *)

Section by_block.
Context {M Cm : Type} `{!InboundMessage M Cm}.

Lemma block_split s (l : list M) :
  StronglySorted Z.le (msg_sent_at <$> l) -> Forall (fun m => s <= msg_sent_at m) l ->
  l = filter (fun m => msg_sent_at m = s) l ++ filter (fun m => msg_sent_at m <> s) l.
Proof.
  intros Hs Hall. induction l as [|m l IH]; [done|]. rewrite fmap_cons in Hs. apply StronglySorted_inv in Hs as [Hs Hm].
  apply Forall_cons in Hall as [Hk Hall]. rewrite !filter_cons. destruct (decide (msg_sent_at m = s)) as [E|E].
  - rewrite decide_False by (by intros ?). cbn. by rewrite <- IH.
  - rewrite decide_True by done. assert (Hnone : filter (fun m => msg_sent_at m = s) l = []).
    { apply filter_none. rewrite Forall_fmap in Hm. apply (Forall_impl _ _ _ Hm). cbn. intros x Hx E'. lia. }
    rewrite (IH Hs Hall) at 1. by rewrite Hnone.
Qed.

Lemma drop_processed_exact s r (A B : list M) :
  Forall (fun m => msg_sent_at m <= s) A -> Forall (fun m => s <= msg_sent_at m) B -> StronglySorted Z.le (msg_sent_at <$> B) ->
  r = zlen (filter (fun m => msg_sent_at m = s) B) -> drop_processed_messages (mkId s r) (A ++ B) = B.
Proof.
  intros HA HB Hs ->. unfold drop_processed_messages. cbn [id_sent_at id_reverse_idx].
  set (B1 := filter (fun m => msg_sent_at m = s) B) in *. set (B2 := filter (fun m => msg_sent_at m <> s) B).
  assert (E : B = B1 ++ B2) by by apply block_split.
  rewrite (scan_back_ext _ (scan_by (fun m => msg_sent_at m ?= s) (zlen B1))).
  - rewrite E. apply drain_exact.
    + apply (Forall_impl _ _ _ HA). intros m Hm. cbn in Hm. rewrite Z.compare_gt_iff. lia.
    + apply Forall_forall. intros m [-> _]%list_elem_of_filter. apply Z.compare_refl.
    + apply Forall_forall. intros m [Hm Hin]%list_elem_of_filter. rewrite Forall_forall in HB. specialize (HB m Hin).
      apply Z.compare_gt_iff. lia.
    + by left.
  - intros i m. unfold scan_by. destruct (Z.compare_spec (msg_sent_at m) s) as [->|Hlt|Hgt].
    + by rewrite Z.eqb_refl.
    + by rewrite (proj2 (Z.eqb_neq _ s)), (proj2 (Z.ltb_lt _ s)) by lia.
    + by rewrite (proj2 (Z.eqb_neq _ s)), (proj2 (Z.ltb_ge _ s)) by lia.
Qed.
End by_block.
