(* ===== verification/InherentPath.v ===== *)
(** * Blocks of honest collators

    What [do_create_inherent] makes of the messages a collator sees is accepted by
    the block it is for, block after block, and every block makes progress. *)

From stdpp Require Import base option numbers list gmap sorting.
From Stdlib Require Import ZArith Lia.
From Stdlib Require Import Strings.Byte.
From S2P Require Import Prelude Search Weights Segment SegmentProofs Inherent InherentProofs InherentCreate.
Local Open Scope Z_scope.

(** The channels of the relay chain state are in the order of their ids. *)
Definition ascending {H : Type} (channels : list (ParaId * IngressChannel H)) : Prop :=
  forall i j x y, (i < j)%nat -> channels !! i = Some x -> channels !! j = Some y -> x.1 < y.1.

(** The handler of horizontal messages processes at least one page. *)
Class HandlerAdvances (W : Type) `{InboundHandlers W} : Prop :=
  handler_advances pages max_weight (w : W) k used w' :
    pages <> [] -> zlen pages < 2 ^ 32 -> xcmp_message_handler pages max_weight w = Some (k, used, w') -> 1 <= k.

Lemma sorted_app_le {A : Type} (f : A -> Z) l k x y : StronglySorted Z.le (f <$> l ++ k) -> x ∈ l -> y ∈ k -> f x <= f y.
Proof. rewrite fmap_app. intros (Hc & _ & _)%StronglySorted_app Hx Hy. apply Hc; by apply list_elem_of_fmap_2. Qed.

Section downward_path.
Context {H W : Type} `{EqDecision H} `{!MqcHash H, !MqcHashLaws H} `{InboundHandlers W}.
Implicit Types (st : Inbound H W) (P R : list InboundDownwardMessage).

(** After a block with relay parent [n] the chain has processed [P] of the relay
    chain's messages [R], and knows where to resume. *)
Record dmp_ready (n : Z) st P R : Prop := {
  dr_head : LastDmqMqcHead st = dmq_head P;
  dr_prefix : P `prefix_of` R;
  dr_sorted : StronglySorted Z.le (dm_sent_at <$> R);
  dr_last : match LastProcessedDownwardMessage st with
    | None => P = [] /\ Forall (fun m => n < dm_sent_at m) R
    | Some id => id_sent_at id <= n /\ Forall (fun m => dm_sent_at m <= id_sent_at id) P /\
        Forall (fun m => id_sent_at id <= dm_sent_at m) (drop (length P) R) /\
        id_reverse_idx id = sent_in (id_sent_at id) (drop (length P) R)
    end;
}.

(** New messages are sent after the relay parent. *)
Lemma dmp_grows n st P R new :
  dmp_ready n st P R -> Forall (fun m => dm_sent_at m <= n) R -> Forall (fun m => n < dm_sent_at m) new ->
  StronglySorted Z.le (dm_sent_at <$> new) -> dmp_ready n st P (R ++ new).
Proof.
  intros [Hh [rest ->] Hs Hl] Hle Hnew Hsn. split; [done|by apply prefix_app_r, prefix_app_r| |].
  - rewrite fmap_app. apply StronglySorted_app. split_and!; [|done|done]. intros x y (a & -> & Ha)%list_elem_of_fmap (b & -> & Hb)%list_elem_of_fmap.
    rewrite Forall_forall in Hle, Hnew. specialize (Hle a Ha). specialize (Hnew b Hb). cbn in *. lia.
  - rewrite <- app_assoc. rewrite drop_app_length in *. destruct (LastProcessedDownwardMessage st) as [[s r]|]; cbn in *.
    + destruct Hl as (Hsn' & HP & Hrest & ->). split_and!; [done|done| |].
      * apply Forall_app. split; [done|]. apply (Forall_impl _ _ _ Hnew). cbn. lia.
      * unfold sent_in. rewrite filter_app, zlen_app, (filter_none _ new); [unfold zlen; cbn; lia|].
        apply (Forall_impl _ _ _ Hnew). cbn. lia.
    + destruct Hl as [-> Hall]. cbn in Hall |- *. split; [done|]. by apply Forall_app; split.
Qed.

(** The downward messages of an honest collator are accepted. *)
Lemma dmp_accepted n st P R k limit a left :
  dmp_ready n st P R -> zlen (full_messages a) + zlen (hashed_messages a) < 2 ^ 32 -> (k <= length P)%nat -> 0 <= limit ->
  into_abridged (drop_processed_messages (default (mkId n 0) (LastProcessedDownwardMessage st)) (drop k R)) limit = (a, left) ->
  exists weight st' rest, R = P ++ full_messages a ++ rest /\ 0 <= left /\ (R <> P -> full_messages a <> []) /\
    enqueue_inbound_downward_messages (dmq_head R) a st = Some (weight, st') /\
    dmp_processed st P (full_messages a) rest st'.
Proof.
  intros [Hh [rest ->] Hs Hl] Hlen Hk Hlim Ha. rewrite drop_app_length in Hl.
  assert (Hdrop : drop_processed_messages (default (mkId n 0) (LastProcessedDownwardMessage st)) (drop k (P ++ rest)) = rest).
  { rewrite drop_app_le by done. assert (Hsr : StronglySorted Z.le (msg_sent_at <$> rest)).
    { rewrite fmap_app in Hs. by apply StronglySorted_app in Hs as (_ & _ & ?). }
    destruct (LastProcessedDownwardMessage st) as [[s r]|]; cbn in Hl |- *; [|destruct Hl as [-> Hl]; cbn in Hl];
      apply drop_processed_exact; cbn; try done; try apply Forall_drop; try apply Hl; [by constructor|..].
    - apply (Forall_impl _ _ _ Hl). cbn. lia.
    - rewrite filter_none; [done|]. apply (Forall_impl _ _ _ Hl). cbn. lia. }
  rewrite Hdrop in Ha. apply into_abridged_spec in Ha as (rest' & -> & Hhash & Hne & [Hleft _] & _); [|done].
  destruct (enqueue_downward_ok st P (full_messages a) rest' Hh) as (weight & st' & Hrun).
  { intros E. by apply Hne, app_eq_nil in E as [_ ->]. }
  assert (Hsize : zlen (full_messages a) + zlen (hashed_downward (H := H) <$> rest') < 2 ^ 32)
    by (rewrite Hhash in Hlen; exact Hlen).
  destruct (enqueue_downward_spec st P _ _ _ _ _ Hh Hsize Hrun) as (rest2 & E & _ & _ & Hp).
  apply app_inv_head, app_inv_head in E as <-. change (hashed_downward <$> rest') with (to_compressed <$> rest') in Hrun. rewrite <- Hhash in Hrun.
  exists weight, st', rest'. split_and!; [done|done| |by destruct a|done].
  intros HRP E. apply HRP. by rewrite (Hne E), app_nil_r.
Qed.

(** And the chain is ready for the next block. *)
Lemma dmp_ready_next n n' st P full rest st' :
  dmp_ready n st P (P ++ full ++ rest) -> n <= n' -> Forall (fun m => dm_sent_at m <= n') (P ++ full ++ rest) ->
  (full = [] -> rest = []) -> dmp_processed st P full rest st' -> dmp_ready n' st' (P ++ full) (P ++ full ++ rest).
Proof.
  intros [Hh _ Hs Hl] Hn Hle Hne [D1 _ D3 _ _]. rewrite drop_app_length in Hl.
  split; [done|rewrite app_assoc; by apply prefix_app_r|done|]. rewrite D3, (app_assoc P), drop_app_length.
  destruct full as [|m full _] using rev_ind.
  - cbn. rewrite app_nil_r. specialize (Hne eq_refl) as ->. cbn in Hl.
    destruct (LastProcessedDownwardMessage st) as [[s r]|]; cbn in *; [split_and!; [lia|apply Hl..]|].
    destruct Hl as [-> _]. by split.
  - rewrite last_snoc. cbn [id_sent_at id_reverse_idx]. rewrite !Forall_app in Hle.
    split_and!; [by destruct Hle as (_ & (_ & [Hm _]%Forall_cons) & _)| | |done].
    + rewrite app_assoc. apply Forall_app. split; [|by repeat constructor]. apply Forall_forall. intros x Hx.
      apply (sorted_app_le dm_sent_at (P ++ full) (m :: rest)); [|done|left]. by rewrite <- !app_assoc in *.
    + apply Forall_forall. intros y Hy.
      apply (sorted_app_le dm_sent_at (P ++ full ++ [m]) rest); [by rewrite <- !app_assoc in *| |done].
      apply elem_of_app. right. apply elem_of_app. right. left.
Qed.
End downward_path.

(** ** Horizontal messages *)

Section horizontal_path.
Context {H W : Type} `{EqDecision H} `{!MqcHash H, !MqcHashLaws H} `{InboundHandlers W}.
Implicit Types (st : Inbound H W) (P R : ParaId -> list InboundHrmpMessage) (q : gmap ParaId (list InboundHrmpMessage)).
Implicit Types (channels : list (ParaId * IngressChannel H)).

(** The messages of [c] sent in block [s]. *)
Definition sent_by (s : Z) (ms : list InboundHrmpMessage) : Z := zlen (filter (fun m => hm_sent_at m = s) ms).

(** The last processed message tells where to resume: what is processed is not
    after it, what is pending is not before it, and the reverse index counts the
    messages of its block and sender that are pending; unless the sender's channel
    was closed and opened again since. *)
Definition resume_at (n : Z) (last : option InboundHrmpMessageId) P R : Prop :=
  match last with
  | None => (forall c, P c = []) /\ (forall c m, m ∈ R c -> n < hm_sent_at m)
  | Some (Generic _) => False
  | Some (Specific s d r) =>
    s <= n /\ (forall c m, m ∈ P c -> metadata_le (hm_sent_at m, c) (s, d) = true) /\
    (forall c m, m ∈ pending P R c -> metadata_le (s, d) (hm_sent_at m, c) = true) /\
    (r = sent_by s (pending P R d) \/ (forall m, m ∈ R d -> hm_sent_at m <> s))
  end.

(** After a block with relay parent [n], the channels have the messages [R], of
    which [P] are processed. *)
Record hrmp_ready channels (n : Z) st P R : Prop := {
  hr_heads : heads_of channels P st;
  hr_closed c : ~ opened channels c -> R c = [];
  hr_prefix c : P c `prefix_of` R c;
  hr_sorted c : channel_sorted (R c);
  hr_last : resume_at n (LastProcessedHrmpMessage st) P R;
  hr_watermark : after_block channels (InboundWatermark st) P R /\ 0 <= InboundWatermark st <= n;
}.

(** What a collator sees: every channel, from no later than the first message
    that is not processed. *)
Definition sees q P R : Prop := forall c, exists k, (k <= length (P c))%nat /\ default [] (q !! c) = drop k (R c).

Lemma count_key s d l : zlen (filter (fun m => key m = (s, d)) l) = sent_by s (from_sender d l).
Proof.
  unfold sent_by, zlen. induction l as [|[c m] l IH]; [done|]. rewrite filter_cons, from_sender_cons.
  destruct (decide (c = d)) as [->|Hne].
  - rewrite filter_cons. destruct (decide (hm_sent_at m = s)) as [Heq|Hne].
    + rewrite decide_True by (unfold key; cbn; congruence). cbn [length]. lia.
    + rewrite decide_False by (unfold key; cbn; congruence). done.
  - rewrite decide_False by (unfold key; cbn; congruence). done.
Qed.

Lemma in_order_sents l : in_order l -> StronglySorted Z.le (sent <$> l).
Proof.
  induction 1 as [|m l Hs IH Hm]; [constructor|]. rewrite fmap_cons. constructor; [done|]. apply Forall_fmap.
  apply (Forall_impl _ _ _ Hm). intros x. unfold key_order, sent. rewrite metadata_le_spec. cbn. lia.
Qed.

Lemma seen_split q P R :
  (forall c, P c `prefix_of` R c) -> sees q P R ->
  exists qa qb : gmap ParaId (list InboundHrmpMessage), (forall c, default [] (q !! c) = default [] (qa !! c) ++ default [] (qb !! c)) /\
    (forall c m, m ∈ default [] (qa !! c) -> m ∈ P c) /\ (forall c, default [] (qb !! c) = pending P R c).
Proof.
  intros Hpre Hsees. set (cut c (ms : list InboundHrmpMessage) := (length ms - length (pending P R c))%nat).
  assert (Hcut : forall c, exists k, default [] (q !! c) = drop k (P c) ++ pending P R c).
  { intros c. destruct (Hsees c) as (k & Hk & ->). exists k. destruct (Hpre c) as [rest E]. unfold pending.
    rewrite E, drop_app_length. by rewrite drop_app_le. }
  exists (map_imap (fun c ms => Some (take (cut c ms) ms)) q), (map_imap (fun c ms => Some (drop (cut c ms) ms)) q).
  assert (Hc : forall c, cut c (default [] (q !! c)) = (length (default [] (q !! c)) - length (pending P R c))%nat) by done.
  split_and!.
  - intros c. rewrite !map_lookup_imap. destruct (q !! c) as [ms|]; cbn; [by rewrite take_drop|done].
  - intros c m. rewrite map_lookup_imap. destruct (Hcut c) as [k E]. destruct (q !! c) as [ms|]; cbn in *; [|by intros ?%not_elem_of_nil].
    unfold cut. rewrite E, length_app, Nat.add_sub, take_app_length. apply subseteq_drop.
  - intros c. rewrite map_lookup_imap. destruct (Hcut c) as [k E]. destruct (q !! c) as [ms|]; cbn in *.
    + unfold cut. by rewrite E, length_app, Nat.add_sub, drop_app_length.
    + symmetry in E. by apply app_eq_nil in E as [_ ->].
Qed.

Lemma pending_elem P R c m : m ∈ pending P R c -> m ∈ R c.
Proof. unfold pending. apply subseteq_drop. Qed.

(** Dropping the processed messages leaves the pending ones. *)
Lemma hrmp_dropped n last P R q :
  (forall c, P c `prefix_of` R c) -> (forall c, channel_sorted (R c)) -> resume_at n last P R -> sees q P R ->
  let B := drop_hrmp_processed_messages (H := H) (default (Generic (mkId n 0)) last) (from_map q) in
  in_order B /\ forall c, from_sender c B = pending P R c.
Proof.
  intros Hpre Hsort Hres Hsees. destruct (seen_split q P R Hpre Hsees) as (qa & qb & Hq & Ha & Hb).
  assert (HPR : forall c m, m ∈ P c -> m ∈ R c) by (intros c m Hm; destruct (Hpre c) as [rest ->]; apply elem_of_app; by left).
  assert (Hcross : forall c d a b, a ∈ default [] (qa !! c) -> b ∈ default [] (qb !! d) -> key_order (c, a) (d, b)).
  { intros c d a b Hia%Ha Hib. rewrite Hb in Hib. unfold key_order, key. cbn [fst snd]. destruct last as [[id|s e r]|]; [done| |].
    - destruct Hres as (_ & H1 & H2 & _). specialize (H1 c a Hia). specialize (H2 d b Hib).
      rewrite metadata_le_spec in H1, H2 |- *. cbn in *. lia.
    - rewrite (proj1 Hres c) in Hia. by apply not_elem_of_nil in Hia. }
  destruct (from_map_split q qa qb) as (-> & Fa & Fb); [|done|done|].
  { intros c ms E. destruct (Hsees c) as (k & _ & Ek). rewrite E in Ek. cbn in Ek. subst ms. specialize (Hsort c).
    unfold channel_sorted in *. rewrite <- (take_drop k (R c)), fmap_app in Hsort. by apply StronglySorted_app in Hsort as (_ & _ & ?). }
  assert (HA : forall m, m ∈ from_map qa -> m.2 ∈ P m.1) by (intros [c m] Hm%from_sender_elem; rewrite Fa in Hm; by apply Ha).
  assert (HB : forall m, m ∈ from_map qb -> m.2 ∈ pending P R m.1) by (intros [c m] Hm%from_sender_elem; by rewrite Fb, Hb in Hm).
  assert (E : drop_hrmp_processed_messages (H := H) (default (Generic (mkId n 0)) last) (from_map qa ++ from_map qb) = from_map qb).
  2:{ rewrite E. split; [apply from_map_order|]. intros c. by rewrite Fb, Hb. }
  destruct last as [[id|s d r]|]; cbn [default]; [done| |].
  - destruct Hres as (_ & H1 & H2 & H3). apply drop_specific.
    + apply Forall_forall. intros [c m] Hm. apply H1, (HA _ Hm).
    + apply Forall_forall. intros [c m] Hm. apply H2, (HB _ Hm).
    + apply from_map_order.
    + rewrite count_key, Fb, Hb. destruct H3 as [->|Hne]; [by left|right]. apply Forall_forall. intros [c m] Hm [= E1 ->].
      apply elem_of_app in Hm as [Hm%HA|Hm%HB]; cbn in Hm; apply (Hne m); [by apply HPR|done|by apply pending_elem in Hm|done].
  - destruct Hres as [H1 H2]. cbn [drop_hrmp_processed_messages]. apply drop_processed_exact.
    + apply Forall_forall. intros [c m] Hm%HA. cbn in Hm. rewrite H1 in Hm. by apply not_elem_of_nil in Hm.
    + apply Forall_forall. intros [c m] Hm%HB%pending_elem%H2. cbn in *. lia.
    + apply in_order_sents, from_map_order.
    + rewrite filter_none; [done|]. apply Forall_forall. intros [c m] Hm%HB%pending_elem%H2. cbn in *. lia.
Qed.

(** *** A block of an honest collator *)

Lemma in_order_ordered l : in_order l -> ordered_from None (key <$> l).
Proof.
  assert (Hgen : forall prev, in_order l -> Forall (fun m => match prev with Some q => metadata_le q (key m) = true | None => True end) l ->
    ordered_from prev (key <$> l)); [|intros Hl; apply Hgen; [done|by apply Forall_forall]].
  induction l as [|m l IH]; intros prev Hs Hp; [done|]. apply StronglySorted_inv in Hs as [Hs Hm]. apply Forall_cons in Hp as [Hp _].
  rewrite fmap_cons. split; [done|]. by apply IH.
Qed.

Lemma loop_pass channels {A : Type} (f : A -> ParaId * HashedMessage H) (body : A -> Progress -> option (Progress (H := H))) l :
  (forall x p, match prev_msg_metadata p with Some q => metadata_le q (meta (f x)) = true | None => True end ->
    is_Some (ingress_channel channels (f x).1) -> exists p', body x p = Some p' /\ prev_msg_metadata p' = Some (meta (f x))) ->
  forall p, ordered_from (prev_msg_metadata p) (meta ∘ f <$> l) -> Forall (fun x => is_Some (ingress_channel channels (f x).1)) l ->
  exists p', for_in l body p = Some p'.
Proof.
  intros Hbody. induction l as [|x l IH]; intros p Hord Hopen; [by exists p|]. destruct Hord as [Hle Hord].
  apply Forall_cons in Hopen as [Hx Hopen]. destruct (Hbody x p Hle Hx) as (p1 & Hp1 & Hprev). cbn. rewrite Hp1. cbn.
  apply IH; [by rewrite Hprev|done].
Qed.

Lemma note_processed_pass channels m p :
  match prev_msg_metadata p with Some q => metadata_le q (key m) = true | None => True end ->
  is_Some (ingress_channel channels m.1) ->
  exists p', note_processed_msg channels m p = Some p' /\ prev_msg_metadata p' = Some (key m).
Proof.
  destruct m as [c m]. intros Hle Hopen. unfold note_processed_msg.
  rewrite (proj2 (check_metadata_spec channels (prev_msg_metadata p) (hm_sent_at m, c) (Some (hm_sent_at m, c)))) by done.
  eauto.
Qed.

Lemma note_unprocessed_pass channels (e : ParaId * HashedMessage H) p :
  match prev_msg_metadata p with Some q => metadata_le q (meta e) = true | None => True end ->
  is_Some (ingress_channel channels e.1) ->
  exists p', note_unprocessed_msg channels e p = Some p' /\ prev_msg_metadata p' = Some (meta e).
Proof.
  destruct e as [c m]. intros Hle Hopen. unfold note_unprocessed_msg.
  rewrite (proj2 (check_metadata_spec channels (prev_msg_metadata p) (hs_sent_at m, c) (Some (hs_sent_at m, c)))) by done.
  eauto.
Qed.

(** The sum of the sizes, as it is computed. *)
Lemma saturating_size {M Cm : Type} `{!InboundMessage M Cm} (l : list M) : forall a, 0 <= a <= umax 64 ->
  foldl (fun n msg => saturating_add 64 n (zlen (msg_data msg))) a l = Z.min (umax 64) (a + data_size l).
Proof.
  unfold data_size. induction l as [|m l IH]; intros a Ha; cbn [foldl foldr]; [lia|].
  pose proof (zlen_nonneg (msg_data m)). rewrite IH; unfold saturating_add; [|lia].
  pose proof (data_size_nonneg l). unfold data_size in *. lia.
Qed.

(** *** Ready for the next block, whoever made this one *)

Lemma ordered_strong l : forall prev, ordered_from prev l -> StronglySorted (fun a b => metadata_le a b = true) l.
Proof.
  induction l as [|m l IH]; intros prev; [constructor|]. intros [_ Hl]. constructor; [by apply (IH (Some m))|by apply ordered_from_all].
Qed.

Lemma count_meta s d (es : list (ParaId * HashedMessage H)) ms :
  from_sender d es = hashed_hrmp <$> ms -> zlen (filter (fun e => meta e = (s, d)) es) = sent_by s ms.
Proof.
  unfold sent_by, zlen. revert ms. induction es as [|[c e] es IH]; intros ms; [by destruct ms|].
  rewrite filter_cons, from_sender_cons. destruct (decide (c = d)) as [->|Hne].
  - destruct ms as [|m ms]; [done|]. rewrite fmap_cons. intros [= -> Hms]. rewrite filter_cons.
    destruct (decide (hm_sent_at m = s)) as [Heq|Hne].
    + rewrite decide_True by (unfold meta; cbn; congruence). cbn [length]. rewrite !Nat2Z.inj_succ. f_equal. by apply IH.
    + rewrite decide_False by (unfold meta; cbn; congruence). by apply IH.
  - rewrite decide_False by (unfold meta; cbn; congruence). apply IH.
Qed.

(** The last message taken is the one to resume at. *)
Lemma resume_at_last channels n n' last P R T d m es wm p p' :
  let taken := T ++ [(d, m)] in
  resume_at n last P R -> (forall c x, x ∈ R c -> opened channels c) -> (forall c x, x ∈ R c -> hm_sent_at x <= n') ->
  (forall c, advance P taken c `prefix_of` R c) -> looped channels P R taken es wm p p' ->
  resume_at n' (Some (Specific (hm_sent_at m) d (zlen (filter (fun e => meta e = (hm_sent_at m, d)) es)))) (advance P taken) R.
Proof.
  intros taken Hres Hopen Hle Hpre [L1 L2 L3 L4 L5 L6 L7]. apply ordered_strong in L5.
  rewrite fmap_app, <- list_fmap_compose, (list_fmap_ext _ key) in L5 by done.
  assert (Hm : m ∈ from_sender d taken) by (apply from_sender_elem; unfold taken; set_solver).
  assert (Hmp : m ∈ pending P R d).
  { destruct (Hpre d) as [rest E]. unfold advance in E. rewrite <- app_assoc in E. apply pending_split in E as (_ & _ & -> & _). set_solver. }
  assert (Hmin : key (d, m) ∈ key <$> taken) by (apply list_elem_of_fmap_2, from_sender_elem, Hm).
  apply StronglySorted_app in L5 as (Hcross & Hs & _). split_and!.
  - apply (Hle d), (pending_elem _ _ _ _ Hmp).
  - intros c x [Hx|Hx]%elem_of_app.
    + destruct last as [[id|s e r]|]; [done| |by rewrite (proj1 Hres c) in Hx; apply not_elem_of_nil in Hx].
      destruct Hres as (_ & H1 & H2 & _). specialize (H1 c x Hx). specialize (H2 d m Hmp). rewrite metadata_le_spec in *. cbn in *. lia.
    + apply from_sender_elem in Hx. unfold taken in Hx, Hs. rewrite fmap_app in Hs. apply StronglySorted_app in Hs as (Hlast & _ & _).
      apply elem_of_app in Hx as [Hx|[= -> ->]%list_elem_of_singleton]; [|rewrite metadata_le_spec; cbn; lia].
      apply (Hlast (key (c, x)) (key (d, m))); [by apply list_elem_of_fmap_2|left].
  - intros c x Hx. apply (Hcross (key (d, m)) (meta (c, hashed_hrmp x)) Hmin). apply list_elem_of_fmap_2, from_sender_elem.
    rewrite L2 by (by apply (Hopen c x), (pending_elem _ _ _ _ Hx)). by apply list_elem_of_fmap_2.
  - left. apply count_meta, L2. apply (Hopen d m), (pending_elem _ _ _ _ Hmp).
Qed.

Lemma next_watermark_bound (es : list (ParaId * HashedMessage H)) (p : Progress (H := H)) n :
  last_processed_block p <= n -> hrmp_id_sent_at (last_processed_msg p) <= n -> next_watermark es p <= n.
Proof. intros Hb Hi. destruct es as [|[c e] es]; cbn; [lia|]. case_match; lia. Qed.

Lemma advance_nil P c : advance P [] c = P c.
Proof. unfold advance. cbn. by rewrite app_nil_r. Qed.

Lemma resume_at_idle n n' last P R :
  resume_at n last P R -> n <= n' -> (forall c, R c = P c) -> resume_at n' last (advance P []) R.
Proof.
  intros Hres Hn Heq. assert (Hp : forall c, pending (advance P []) R c = pending P R c) by (intros c; unfold pending; by rewrite advance_nil).
  destruct last as [[id|s d r]|]; [done| |]; cbn in *.
  - destruct Hres as (Hs & H1 & H2 & H3). split_and!; [lia| | |by rewrite Hp]; intros c m; rewrite ?advance_nil, ?Hp; auto.
  - destruct Hres as [H1 H2]. split; [intros c; by rewrite advance_nil|]. intros c m. rewrite Heq, H1. by intros ?%not_elem_of_nil.
Qed.

Section next_block.
Context `{!HandlerAdvances W} (channels : list (ParaId * IngressChannel H)).
Context (n n' : Z) (st st' : Inbound H W) (P R : ParaId -> list InboundHrmpMessage).
Hypothesis asc : ascending channels.
Hypothesis ready : hrmp_ready channels n st P R.
Hypothesis heads : relay_heads channels R.
Hypothesis later : n <= n'.
Hypothesis sent_before : forall c m, m ∈ R c -> hm_sent_at m <= n'.

Lemma sender_opened c x : x ∈ R c -> opened channels c.
Proof using asc ready.
  intros Hx. apply (is_open_spec _ asc). destruct (is_open channels c) eqn:E; [done|].
  rewrite (hr_closed _ _ _ _ _ ready) in Hx; [by apply not_elem_of_nil in Hx|]. intros Ho%(is_open_spec _ asc). congruence.
Qed.

Lemma closed_empty c : ~ opened channels c -> R c = [] /\ P c = [].
Proof using ready.
  intros Hc. pose proof (hr_closed _ _ _ _ _ ready c Hc) as E. split; [done|]. destruct (hr_prefix _ _ _ _ _ ready c) as [rest E'].
  rewrite E in E'. symmetry in E'. by apply app_eq_nil in E' as [-> _].
Qed.

Lemma ready_idle hashed remaining wo weight :
  enqueue_inbound_horizontal_messages remaining channels (mkAbridged [] hashed) n' wo st = Some (weight, st') ->
  hrmp_block channels st P R [] n' st' /\ hrmp_ready channels n' st' (advance P []) R.
Proof using MqcHashLaws0 asc ready heads later sent_before.
  intros Hrun. destruct ready as [HP Hclosed Hpre Hsort Hlast [Hafter Hwm]].
  destruct (enqueue_no_horizontal channels asc st P R _ _ _ _ _ _ HP heads Hrun) as (Hb & Heq & Ewm & _ & El).
  split; [done|]. destruct Hb as [B1 B2 B3 B4 B5 B6].
  split; [done|done|intros c; by rewrite advance_nil|done| |].
  - rewrite El. apply (resume_at_idle n); [done|done|]. intros c. destruct (is_open channels c) eqn:E.
    + by apply Heq, (is_open_spec _ asc).
    + destruct (closed_empty c) as [-> ->]; [|done]. intros Ho%(is_open_spec _ asc). congruence.
  - split; [by apply B4|]. rewrite Ewm. lia.
Qed.

Lemma advance_prefix taken es wm p p' c :
  looped channels P R taken es wm p p' -> advance P taken c `prefix_of` R c.
Proof using asc ready.
  intros HL. destruct (is_open channels c) eqn:E; [by apply HL, (is_open_spec _ asc)|].
  assert (Hc : ~ opened channels c) by (intros Ho%(is_open_spec _ asc); congruence).
  destruct (closed_empty c Hc) as [-> HPc]. unfold advance. rewrite HPc. destruct (from_sender c taken) as [|m l] eqn:Ef; [done|].
  destruct Hc. pose proof (looped_open _ _ _ _ _ _ _ _ HL) as Ho. rewrite Forall_fmap, Forall_forall in Ho.
  apply (Ho (c, m)). apply from_sender_elem. rewrite Ef. left.
Qed.

Lemma ready_busy full hashed remaining wo weight :
  full <> [] -> zlen full + zlen hashed < 2 ^ 32 ->
  enqueue_inbound_horizontal_messages remaining channels (mkAbridged full hashed) n' wo st = Some (weight, st') ->
  exists k, (0 < k)%nat /\ hrmp_block channels st P R (take k full) n' st' /\ hrmp_ready channels n' st' (advance P (take k full)) R.
Proof using MqcHashLaws0 HandlerAdvances0 asc ready heads later sent_before.
  intros Hne Hlen Hrun. destruct ready as [HP Hclosed Hpre Hsort Hlast [Hafter Hwm]].
  destruct (enqueue_some_horizontal channels asc st P R _ _ _ _ _ _ _ HP heads Hne Hrun) as (k & used & p & p' & Hh & Hrest).
  cbv zeta in Hrest. set (j := Z.to_nat (Z.min k (zlen full))) in *. destruct Hrest as (HL & Hb & Hrun1 & Hrun2 & El & Ew).
  assert (Hj : (0 < j <= length full)%nat).
  { apply handler_advances in Hh; [|unfold flat_msgs_iter; cbn; by destruct full|].
    2:{ unfold flat_msgs_iter, zlen in *. cbn. rewrite length_fmap. lia. }
    unfold j, zlen in *. destruct full; [done|]. cbn [length] in *. lia. }
  pose proof (fun c => advance_prefix _ _ _ _ _ c HL) as Hpre'.
  exists j. split_and!; [lia|done|]. destruct Hb as [B1 B2 B3 B4 B5 B6]. split; [done|done|done|done| |].
  - rewrite El. destruct (take j full) as [|[d m] T _] eqn:Et using rev_ind; [destruct full; [done|]; destruct j; [lia|done]|].
    pose proof (processed_last _ _ _ _ Hrun1) as Hid. rewrite last_snoc in Hid.
    rewrite (unprocessed_last _ _ _ _ _ _ _ Hrun2 Hid); [|lia|].
    + by eapply resume_at_last; eauto using sender_opened.
    + rewrite zlen_app. unfold zlen in *. rewrite length_fmap, length_drop. lia.
  - split; [by apply B4|]. specialize (B5 ltac:(lia)). rewrite Ew in *. split; [lia|].
    destruct (unprocessed_block _ _ _ _ Hrun2) as [Hb1 Hb2]. apply processed_block_bounds in Hrun1 as [_ Hhi].
    destruct (Hhi n') as [Hb3 Hb4]; [cbn; lia| | |apply next_watermark_bound; lia].
    + cbn. destruct (LastProcessedHrmpMessage st) as [[id|s d r]|]; [done|destruct Hlast; cbn; lia|cbn; lia].
    + apply Forall_forall. intros [c m] Hm. apply (sent_before c). destruct (Hpre' c) as [rest ->].
      apply elem_of_app. left. apply elem_of_app. right. by apply from_sender_elem.
Qed.
(** *** The inherent of an honest collator is accepted *)

Hypothesis fits : forall c ch m, (c, ch) ∈ channels -> m ∈ R c -> zlen (hm_data m) <= in_max_message_size ch.

(** The messages [B] that are pending, in order. *)
Definition all_pending (B : list (ParaId * InboundHrmpMessage)) : Prop :=
  in_order B /\ forall c, from_sender c B = pending P R c.

Lemma pending_in B m : all_pending B -> m ∈ B -> m.2 ∈ R m.1.
Proof using Type. intros [_ HB] Hm. apply (pending_elem P). rewrite <- HB. apply from_sender_elem. by destruct m. Qed.

(** Enough messages are included. *)
Lemma advancement_pass B (a : Abridged (ParaId * InboundHrmpMessage) (ParaId * HashedMessage H)) remaining size_limit left :
  all_pending B -> messages_collection_size_limit remaining <= size_limit -> 0 <= size_limit ->
  messages_collection_size_limit remaining < umax 64 ->
  into_abridged B size_limit = (a, left) -> check_advancement remaining channels a = Some tt.
Proof using asc ready fits.
  clear later sent_before. intros HB Hlim Hpos Hmax Ha. apply into_abridged_spec in Ha as (rest & EB & Eh & _ & _ & Hstuck); [|done].
  unfold check_advancement. rewrite Eh. destruct rest as [|[c m] rest]; [done|]. cbn [fmap list_fmap to_compressed hrmp_message fst].
  destruct Hstuck as [-> Hs]; [done|]. cbn in Hs.
  assert (HmR : m ∈ R c) by (apply (pending_in B (c, m) HB); rewrite EB; apply elem_of_app; right; left).
  destruct (sender_opened c m HmR) as [ch Hch]. unfold get_ingress_channel_or_panic.
  rewrite (proj2 (ingress_channel_spec channels asc c ch) Hch). cbn [mbind option_bind].
  specialize (fits c ch m Hch HmR). unfold check_enough_messages_included_advanced.
  rewrite saturating_size by (unfold umax; lia). unfold saturating_add. rewrite (proj2 (Z.ltb_lt _ _)); [done|].
  pose proof (data_size_nonneg (full_messages a)). pose proof (zlen_nonneg (hm_data m)). lia.
Qed.

Lemma opened_all B l k : all_pending B -> B = l ++ k ->
  Forall (fun m => is_Some (ingress_channel channels m.1)) l /\ Forall (fun m => is_Some (ingress_channel channels m.1)) k.
Proof using asc ready.
  intros HB ->. apply Forall_app, Forall_forall. intros m Hm. apply (opened_ingress _ asc), (sender_opened _ m.2), (pending_in _ _ HB Hm).
Qed.

Lemma heads_pass hs : (forall c, opened channels c -> head_of hs c = hrmp_head (R c)) -> is_Some (check_hrmp_mcq_heads channels hs).
Proof using heads.
  intros Hh. apply check_heads_pass, Forall_forall. intros [c ch] Hin. cbn. rewrite (heads c ch Hin). apply Hh. by exists ch.
Qed.

(** The loops run through the pending messages, and end with the heads of the
    relay chain. *)
Lemma loops_pass B taken rest start wm :
  all_pending B -> B = taken ++ rest ->
  exists p p', for_in taken (note_processed_msg channels)
      (mkProgress None (prune_closed_mqc_heads channels (LastHrmpMqcHeads st)) start wm) = Some p /\
    for_in (as_hashed <$> rest) (note_unprocessed_msg channels) p = Some p' /\
    is_Some (check_hrmp_mcq_heads channels (running_heads p')).
Proof using asc ready heads.
  intros HB EB. destruct (opened_all B taken rest HB EB) as [Ho1 Ho2].
  pose proof (in_order_ordered B (proj1 HB)) as Hord. rewrite EB, fmap_app in Hord. apply ordered_from_app in Hord as [Hord1 Hord2].
  set (p0 := mkProgress _ _ _ _).
  destruct (loop_pass channels as_hashed (note_processed_msg channels) taken (note_processed_pass channels) p0) as [p Hrun1]; [done|done|].
  pose proof (noted_loop channels as_hashed _ _ (note_processed_noted channels) _ _ Hrun1) as N1.
  destruct (loop_pass channels id (note_unprocessed_msg channels) (as_hashed <$> rest) (note_unprocessed_pass channels) p) as [p' Hrun2].
  { rewrite (noted_prev _ _ _ _ N1), <- !list_fmap_compose. exact Hord2. }
  { rewrite Forall_fmap. exact Ho2. }
  exists p, p'. split_and!; [done|done|]. apply heads_pass. intros c Hc.
  pose proof (noted_loop channels id _ _ (note_unprocessed_noted channels) _ _ Hrun2) as N2. rewrite list_fmap_id in N2.
  rewrite (noted_heads _ _ _ _ (noted_app _ _ _ _ _ _ N1 N2) c), <- fmap_app, <- EB. unfold as_hashed.
  rewrite (from_sender_fmap hashed_hrmp), (proj2 HB). unfold p0. cbn [running_heads].
  pose proof Hc as [ch Hin]. rewrite (head_of_prune channels asc _ c ch Hin), (hr_heads _ _ _ _ _ ready c Hc).
  unfold hrmp_head. rewrite <- mqc_app, <- fmap_app. do 2 f_equal. unfold pending.
  destruct (hr_prefix _ _ _ _ _ ready c) as [k ->]. by rewrite drop_app_length.
Qed.

Lemma hrmp_accepted B (a : Abridged (ParaId * InboundHrmpMessage) (ParaId * HashedMessage H)) remaining size_limit left wo :
  all_pending B -> messages_collection_size_limit remaining <= size_limit -> 0 <= size_limit ->
  messages_collection_size_limit remaining < umax 64 -> into_abridged B size_limit = (a, left) ->
  is_Some (xcmp_message_handler (flat_msgs_iter a) (default reserved_xcmp_weight wo) (InboundWorld st)) ->
  is_Some (enqueue_inbound_horizontal_messages remaining channels a n' wo st).
Proof using asc ready heads fits.
  intros HB Hlim Hpos Hmax Ha Hhandler. pose proof (advancement_pass B a _ _ _ HB Hlim Hpos Hmax Ha) as Hadv.
  apply into_abridged_spec in Ha as (rest & EB & Eh & Hne & _ & _); [|done].
  unfold enqueue_inbound_horizontal_messages. rewrite Hadv. cbn [mbind option_bind]. cbv zeta.
  destruct (Nat.eqb_spec (length (full_messages a)) 0) as [E|E].
  - apply length_zero_iff_nil, Hne in E as ->. destruct (loops_pass [] [] [] (Specific 0 0 0) 0 HB eq_refl) as (p & p' & [= <-] & [= <-] & [hs Hhs]).
    cbn [running_heads] in Hhs. rewrite Hhs. by eexists.
  - destruct Hhandler as [[[k used] w] ->]. cbn [mbind option_bind].
    set (j := Z.to_nat _).
    assert (Ees : (fun '(sender, msg) => (sender, hashed_hrmp msg)) <$> drop j (full_messages a) ++ [] = as_hashed <$> drop j (full_messages a)).
    { rewrite app_nil_r. apply list_fmap_ext. by intros ? [? ?] ?. }
    rewrite app_nil_r in Ees. rewrite Ees, Eh. change (to_compressed <$> rest) with (as_hashed <$> rest). rewrite <- fmap_app.
    destruct (loops_pass B (take j (full_messages a)) (drop j (full_messages a) ++ rest)
      (default (Specific 0 0 (umax 32)) (LastProcessedHrmpMessage st)) (InboundWatermark st) HB) as (p & p' & -> & Hrun2 & [hs Hhs]).
    { by rewrite app_assoc, take_drop. }
    cbn [mbind option_bind]. rewrite Hrun2. cbn [mbind option_bind]. rewrite Hhs. by eexists.
Qed.
End next_block.
End horizontal_path.
