(* ===== verification/InherentChain.v ===== *)
(** * A chain of blocks with inbound messages

    The blocks of a parachain on top of a relay chain whose queues grow: whoever
    made the blocks so far, they processed the messages in order, the watermark
    is below what is pending, and the next block of an honest collator is
    accepted and makes progress. *)

From stdpp Require Import base option numbers list gmap sorting.
From Stdlib Require Import ZArith Lia.
From Stdlib Require Import Strings.Byte.
From S2P Require Import Prelude Search Weights Segment SegmentProofs Inherent InherentProofs InherentCreate InherentPath.
Local Open Scope Z_scope.

Section chain.
Context {H W : Type} `{EqDecision H} `{!MqcHash H, !MqcHashLaws H} `{!InboundHandlers W, !HandlerAdvances W}.
Implicit Types (st : Inbound H W) (Pd Rd : list InboundDownwardMessage) (P R : ParaId -> list InboundHrmpMessage).
Implicit Types (channels : list (ParaId * IngressChannel H)).

Definition sent_within (n n' : Z) (s : Z) : Prop := n < s <= n'.

(** The relay chain from one relay parent to the next: its queues get messages,
    channels are opened and closed.  A channel that is closed has no messages. *)
Record advances (n : Z) Rd R (n' : Z) Rd' R' channels' : Prop := {
  adv_number : n <= n';
  adv_dmq : exists new, Rd' = Rd ++ new /\ Forall (sent_within n n') (dm_sent_at <$> new) /\ StronglySorted Z.le (dm_sent_at <$> new);
  adv_channels : ascending channels';
  adv_closed c : ~ opened channels' c -> R' c = [];
  adv_hrmp c : opened channels' c ->
    exists new, R' c = R c ++ new /\ Forall (sent_within n n') (hm_sent_at <$> new) /\ channel_sorted new;
  adv_heads : relay_heads channels' R';
  adv_fits c ch m : (c, ch) ∈ channels' -> m ∈ R' c -> zlen (hm_data m) <= in_max_message_size ch;
}.

(** What other extrinsics leave alone. *)
Definition same_inbound st st' : Prop :=
  LastDmqMqcHead st' = LastDmqMqcHead st /\ LastHrmpMqcHeads st' = LastHrmpMqcHeads st /\
  LastProcessedDownwardMessage st' = LastProcessedDownwardMessage st /\
  LastProcessedHrmpMessage st' = LastProcessedHrmpMessage st /\ InboundWatermark st' = InboundWatermark st.

Definition short_inherent (messages : Abridged InboundDownwardMessage (HashedMessage H) *
    Abridged (ParaId * InboundHrmpMessage) (ParaId * HashedMessage H)) : Prop :=
  zlen (full_messages messages.1) + zlen (hashed_messages messages.1) < 2 ^ 32 /\
  zlen (full_messages messages.2) + zlen (hashed_messages messages.2) < 2 ^ 32.

(** The states after blocks with any inherents that did not panic. *)
Inductive chain : Z -> list InboundDownwardMessage -> (ParaId -> list InboundHrmpMessage) ->
    list (ParaId * IngressChannel H) -> Inbound H W -> Prop :=
| chain_genesis st :
  LastDmqMqcHead st = default_hash -> LastHrmpMqcHeads st = ∅ -> LastProcessedDownwardMessage st = None ->
  LastProcessedHrmpMessage st = None -> InboundWatermark st = 0 -> chain 0 [] (fun _ => []) [] st
| chain_other n Rd R channels st st' :
  chain n Rd R channels st -> same_inbound st st' -> chain n Rd R channels st'
| chain_block n Rd R channels st n' Rd' R' channels' remaining wo messages weight st' :
  chain n Rd R channels st -> advances n Rd R n' Rd' R' channels' -> short_inherent messages ->
  enqueue_inbound_messages remaining (dmq_head Rd') channels' n' wo messages st = Some (weight, st') ->
  chain n' Rd' R' channels' st'.

(** The chain processed [Pd] and [P], and is ready for the next block. *)
Record in_step (n : Z) Rd R channels st Pd P : Prop := {
  is_asc : ascending channels;
  is_dmp : dmp_ready n st Pd Rd;
  is_hrmp : hrmp_ready channels n st P R;
  is_closed c : ~ opened channels c -> head_of (LastHrmpMqcHeads st) c = default_hash;
  is_dmp_sent : Forall (fun m => dm_sent_at m <= n) Rd;
  is_hrmp_sent c m : m ∈ R c -> hm_sent_at m <= n;
}.

(** The channels that are closed are forgotten. *)
Definition carry channels P (c : ParaId) : list InboundHrmpMessage := if is_open channels c then P c else [].

Lemma carry_open channels P c : ascending channels -> opened channels c -> carry channels P c = P c.
Proof using Type. intros Ha Ho. unfold carry. by rewrite (proj2 (is_open_spec _ Ha c) Ho). Qed.

Lemma carry_closed channels P c : ascending channels -> ~ opened channels c -> carry channels P c = [].
Proof using Type. intros Ha Ho. unfold carry. destruct (is_open channels c) eqn:E; [|done]. by apply (is_open_spec _ Ha) in E. Qed.

Lemma opened_dec channels c : ascending channels -> opened channels c \/ ~ opened channels c.
Proof using Type. intros Ha. destruct (is_open channels c) eqn:E; [left; by apply (is_open_spec _ Ha)|right]. intros Ho%(is_open_spec _ Ha). congruence. Qed.

Section advance.
Context (n n' : Z) (Rd Rd' Pd : list InboundDownwardMessage) (R R' P : ParaId -> list InboundHrmpMessage).
Context (channels channels' : list (ParaId * IngressChannel H)) (st : Inbound H W).
Hypothesis step : in_step n Rd R channels st Pd P.
Hypothesis adv : advances n Rd R n' Rd' R' channels'.

Lemma dmp_advances : dmp_ready n st Pd Rd' /\ Forall (fun m => dm_sent_at m <= n') Rd'.
Proof using step adv.
  destruct (adv_dmq _ _ _ _ _ _ _ adv) as (new & -> & Hnew & Hs). rewrite Forall_fmap in Hnew. split.
  - apply dmp_grows; [apply step|apply step| |done]. apply (Forall_impl _ _ _ Hnew). intros m [? ?]. done.
  - pose proof (adv_number _ _ _ _ _ _ _ adv). apply Forall_app. split.
    + apply (Forall_impl _ _ _ (is_dmp_sent _ _ _ _ _ _ _ step)). lia.
    + apply (Forall_impl _ _ _ Hnew). by intros m [? ?].
Qed.

(** What is pending of a channel that stays open. *)
Lemma pending_advances c : exists new, R' c = (carry channels' R c) ++ new /\
  pending (carry channels' P) R' c = pending (carry channels' P) (carry channels' R) c ++ new /\
  carry channels' P c `prefix_of` carry channels' R c /\
  Forall (sent_within n n') (hm_sent_at <$> new) /\ channel_sorted new.
Proof using step adv.
  pose proof (adv_channels _ _ _ _ _ _ _ adv) as Ha. destruct (opened_dec channels' c Ha) as [Ho|Hc].
  - destruct (adv_hrmp _ _ _ _ _ _ _ adv c Ho) as (new & E & Hnew & Hs). exists new. unfold pending.
    rewrite !carry_open by done. destruct (hr_prefix _ _ _ _ _ (is_hrmp _ _ _ _ _ _ _ step) c) as [rest Er].
    rewrite E, Er, <- app_assoc, !drop_app_length. split_and!; [done|done|by apply prefix_app_r|done|done].
  - exists []. unfold pending. rewrite !carry_closed, (adv_closed _ _ _ _ _ _ _ adv c Hc) by done. split_and!; [done..|constructor|constructor].
Qed.

Lemma carry_elem chs Q c (m : InboundHrmpMessage) : m ∈ carry chs Q c -> m ∈ Q c /\ is_open chs c = true.
Proof using Type. unfold carry. case_match; [done|]. by intros ?%not_elem_of_nil. Qed.

Lemma pending_carry chs c m : m ∈ pending (carry chs P) (carry chs R) c -> m ∈ pending P R c.
Proof using Type. unfold pending, carry. case_match; [done|]. rewrite drop_nil. by intros ?%not_elem_of_nil. Qed.

Lemma resume_at_carry chs last : resume_at n last P R -> resume_at n last (carry chs P) (carry chs R).
Proof using Type.
  destruct last as [[id|s d r]|]; [done| |]; cbn.
  - intros (Hs & H1 & H2 & H3). split_and!; [done| | |].
    + intros c m [Hm _]%carry_elem. by apply H1.
    + intros c m Hm%pending_carry. by apply H2.
    + unfold pending, carry at 1 2 3. destruct (is_open chs d); [done|]. right. intros m Hm. by apply not_elem_of_nil in Hm.
  - intros [H1 H2]. split; [intros c; unfold carry; by case_match|]. intros c m [Hm _]%carry_elem. by apply (H2 c).
Qed.

Lemma resume_at_grow last Q S S' :
  resume_at n last Q S ->
  (forall c, exists new, S' c = S c ++ new /\ pending Q S' c = pending Q S c ++ new /\ Forall (sent_within n n') (hm_sent_at <$> new)) ->
  resume_at n last Q S'.
Proof using Type.
  intros Hres Hgrow. destruct last as [[id|s d r]|]; [done| |]; cbn in *.
  - destruct Hres as (Hs & H1 & H2 & H3). split_and!; [done|done| |].
    + intros c m Hm. destruct (Hgrow c) as (new & _ & E & Hnew). rewrite E in Hm. apply elem_of_app in Hm as [Hm|Hm]; [by apply H2|].
      rewrite Forall_fmap, Forall_forall in Hnew. specialize (Hnew m Hm). cbn in Hnew. unfold sent_within in Hnew.
      apply metadata_le_spec. cbn. lia.
    + destruct (Hgrow d) as (new & E1 & E2 & Hnew). rewrite E1, E2. rewrite Forall_fmap, Forall_forall in Hnew.
      assert (Hne : forall m, m ∈ new -> hm_sent_at m <> s) by (intros m Hm; specialize (Hnew m Hm); cbn in Hnew; unfold sent_within in Hnew; lia).
      destruct H3 as [->|H3]; [left|right].
      * unfold sent_by. rewrite filter_app, zlen_app, (filter_none _ new); [unfold zlen; cbn; lia|by apply Forall_forall].
      * intros m [Hm|Hm]%elem_of_app; auto.
  - destruct Hres as [H1 H2]. split; [done|]. intros c m Hm. destruct (Hgrow c) as (new & E & _ & Hnew). rewrite E in Hm.
    apply elem_of_app in Hm as [Hm|Hm]; [by apply (H2 c)|]. rewrite Forall_fmap, Forall_forall in Hnew. by apply Hnew.
Qed.

Lemma hrmp_advances : hrmp_ready channels' n st (carry channels' P) R' /\ (forall c m, m ∈ R' c -> hm_sent_at m <= n').
Proof using step adv.
  pose proof (adv_channels _ _ _ _ _ _ _ adv) as Ha. pose proof (adv_number _ _ _ _ _ _ _ adv) as Hn.
  destruct (is_hrmp _ _ _ _ _ _ _ step) as [HP Hclosed Hpre Hsort Hlast [Hafter Hwm]].
  pose proof (is_hrmp_sent _ _ _ _ _ _ _ step) as Hsent. split; [split|].
  - intros c Ho. rewrite carry_open by done. destruct (opened_dec channels c (is_asc _ _ _ _ _ _ _ step)) as [Ho'|Hc]; [by apply HP|].
    rewrite (is_closed _ _ _ _ _ _ _ step c Hc). destruct (closed_empty _ _ _ _ _ (is_hrmp _ _ _ _ _ _ _ step) c Hc) as [_ ->]. done.
  - apply adv.
  - intros c. destruct (pending_advances c) as (new & -> & _ & Hp & _). by apply prefix_app_r.
  - intros c. destruct (pending_advances c) as (new & -> & _ & _ & Hnew & Hs). unfold channel_sorted in *. rewrite fmap_app.
    apply StronglySorted_app. split_and!; [| |done].
    + intros x y (m & -> & Hm)%list_elem_of_fmap Hy. rewrite Forall_forall in Hnew. apply carry_elem in Hm as [Hm _].
      specialize (Hnew y Hy). specialize (Hsent c m Hm). unfold sent_within in Hnew. lia.
    + unfold carry. case_match; [apply Hsort|constructor].
  - apply (resume_at_grow _ _ (carry channels' R)); [by apply resume_at_carry|]. intros c.
    destruct (pending_advances c) as (new & E1 & E2 & _ & Hnew & _). by exists new.
  - split; [|done]. intros c m Ho Hm. destruct (pending_advances c) as (new & _ & E & _ & Hnew & _). rewrite E in Hm.
    apply elem_of_app in Hm as [Hm%pending_carry|Hm].
    + apply (Hafter c); [|done]. apply (sender_opened _ _ _ _ _ (is_asc _ _ _ _ _ _ _ step) (is_hrmp _ _ _ _ _ _ _ step) _ m), (pending_elem _ _ _ _ Hm).
    + rewrite Forall_fmap, Forall_forall in Hnew. specialize (Hnew m Hm). cbn in Hnew. unfold sent_within in Hnew. lia.
  - intros c m Hm. destruct (pending_advances c) as (new & E & _ & _ & Hnew & _). rewrite E in Hm.
    apply elem_of_app in Hm as [[Hm _]%carry_elem|Hm]; [specialize (Hsent c m Hm); lia|].
    rewrite Forall_fmap, Forall_forall in Hnew. by apply Hnew.
Qed.
End advance.

Lemma hrmp_ready_same channels n st st' P R :
  LastHrmpMqcHeads st' = LastHrmpMqcHeads st -> InboundWatermark st' = InboundWatermark st ->
  LastProcessedHrmpMessage st' = LastProcessedHrmpMessage st -> hrmp_ready channels n st P R -> hrmp_ready channels n st' P R.
Proof using Type. intros E1 E2 E3 [H1 H2 H3 H4 H5 H6]. split; try done; [|by rewrite E3|by rewrite E2]. intros c Hc. rewrite E1. by apply H1. Qed.

Lemma dmp_ready_same n st st' Pd Rd :
  LastDmqMqcHead st' = LastDmqMqcHead st -> LastProcessedDownwardMessage st' = LastProcessedDownwardMessage st ->
  dmp_ready n st Pd Rd -> dmp_ready n st' Pd Rd.
Proof using Type. intros E1 E2 [H1 H2 H3 H4]. split; try done; [by rewrite E1|by rewrite E2]. Qed.

(** A block in the chain: the messages it took. *)
Record took Pd P Rd' R' channels' st (full : list InboundDownwardMessage) (taken : list (ParaId * InboundHrmpMessage)) n' st' : Prop := {
  took_step : in_step n' Rd' R' channels' st' (Pd ++ full) (advance (carry channels' P) taken);
  took_watermark : InboundWatermark st <= InboundWatermark st';
  took_progress : Pd <> Rd' -> full <> [];
}.

Lemma block_in_step n Rd R channels st Pd P n' Rd' R' channels' remaining wo messages weight st' :
  in_step n Rd R channels st Pd P -> advances n Rd R n' Rd' R' channels' -> short_inherent messages ->
  enqueue_inbound_messages remaining (dmq_head Rd') channels' n' wo messages st = Some (weight, st') ->
  exists k, took Pd P Rd' R' channels' st (full_messages messages.1) (take k (full_messages messages.2)) n' st' /\
    (full_messages messages.2 <> [] -> (0 < k)%nat).
Proof.
  intros Hstep Hadv [Hlen1 Hlen2] Hrun. destruct messages as [[dfull dhashed] [hfull hhashed]]. cbn [fst snd full_messages hashed_messages] in *.
  destruct (dmp_advances _ _ _ _ _ _ _ _ _ _ _ Hstep Hadv) as [Hd Hdsent].
  destruct (hrmp_advances _ _ _ _ _ _ _ _ _ _ _ Hstep Hadv) as [Hh Hhsent].
  unfold enqueue_inbound_messages in Hrun. apply bind_Some in Hrun as ([w1 st1] & Hrun1 & Hrun2).
  apply bind_Some in Hrun2 as ([w2 st2] & Hrun2 & [= _ <-]). cbn [fst snd] in *.
  destruct (enqueue_downward_spec st Pd Rd' _ _ _ _ (dr_head _ _ _ _ Hd) Hlen1 Hrun1) as (rest & E & _ & Hprog & Hdp).
  assert (Hd1 : dmp_ready n' st1 (Pd ++ dfull) Rd').
  { rewrite E in *. apply (dmp_ready_next n n' st Pd); [done|apply Hadv|done| |done]. intros ->. destruct rest; [done|]. by exfalso; apply Hprog. }
  destruct (dmp_other _ _ _ _ _ Hdp) as (E1 & E2 & E3).
  pose proof (hrmp_ready_same _ _ _ st1 _ _ E1 E2 E3 Hh) as Hh1.
  assert (Hnext : exists k, (hfull <> [] -> (0 < k)%nat) /\ hrmp_block channels' st1 (carry channels' P) R' (take k hfull) n' st2 /\
    hrmp_ready channels' n' st2 (advance (carry channels' P) (take k hfull)) R').
  { destruct hfull as [|m hfull].
    - exists 0%nat. split; [done|]. by eapply ready_idle; [apply Hadv|exact Hh1|apply Hadv|apply Hadv| |exact Hrun2].
    - destruct (ready_busy channels' n n' st1 st2 _ _ (adv_channels _ _ _ _ _ _ _ Hadv) Hh1 (adv_heads _ _ _ _ _ _ _ Hadv)
        (adv_number _ _ _ _ _ _ _ Hadv) Hhsent (m :: hfull) hhashed remaining wo w2) as (k & Hk & Hb & Hr); [done|done|exact Hrun2|].
      by exists k. }
  destruct Hnext as (k & Hk & Hb & Hr). exists k. split; [|done]. split.
  - split; [apply Hadv| |done|apply Hb|done|done].
    destruct (hb_downward _ _ _ _ _ _ _ Hb) as (F1 & _ & F2). by apply (dmp_ready_same _ st1).
  - rewrite <- E2. apply Hb. rewrite E2. destruct (hr_watermark _ _ _ _ _ Hh) as [_ ?]. pose proof (adv_number _ _ _ _ _ _ _ Hadv). lia.
  - intros Hne ->. rewrite E in Hne. destruct rest; [by rewrite !app_nil_r in Hne|]. by exfalso; apply Hprog.
Qed.

Lemma chain_in_step n Rd R channels st : chain n Rd R channels st -> exists Pd P, in_step n Rd R channels st Pd P.
Proof.
  induction 1 as [st E1 E2 E3 E4 E5|n Rd R channels st st' _ (Pd & P & Hs) (E1 & E2 & E3 & E4 & E5)|
    n Rd R channels st n' Rd' R' channels' remaining wo messages weight st' _ (Pd & P & Hs) Hadv Hshort Hrun].
  - exists [], (fun _ => []). split; try done.
    + split; [done|done|constructor|]. by rewrite E3.
    + split; [|done|done|constructor| |].
      * intros c [ch Hin]. by apply not_elem_of_nil in Hin.
      * rewrite E4. split; [done|]. intros c m Hm. by apply not_elem_of_nil in Hm.
      * rewrite E5. split; [|lia]. intros c m [ch Hin]. by apply not_elem_of_nil in Hin.
    + intros c _. by rewrite E2.
    + intros c m Hm. by apply not_elem_of_nil in Hm.
  - exists Pd, P. destruct Hs as [S1 S2 S3 S4 S5 S6]. split; try done.
    + by apply (dmp_ready_same _ st).
    + by apply (hrmp_ready_same _ _ st).
    + intros c Hc. rewrite E2. by apply S4.
  - destruct (block_in_step _ _ _ _ _ _ _ _ _ _ _ _ _ _ _ _ Hs Hadv Hshort Hrun) as (k & [Hs' _ _] & _). eauto.
Qed.

(** *** Honest collators *)

(** A collator sees the queues of the relay chain, which has deleted some of the
    messages that were processed: of the channels, those up to the watermark. *)
Definition relayed (q : gmap ParaId (list InboundHrmpMessage)) R' (watermark : Z) : Prop :=
  forall c, exists k, default [] (q !! c) = drop k (R' c) /\ Forall (fun m => hm_sent_at m <= watermark) (take k (R' c)).

Lemma relayed_sees channels n st P R q :
  ascending channels -> hrmp_ready channels n st P R -> relayed q R (InboundWatermark st) -> sees q P R.
Proof using Type.
  intros Ha Hr Hq c. destruct (Hq c) as (k & -> & Hk). destruct (decide (k <= length (P c))%nat) as [Hle|Hgt]; [by exists k|].
  exists (length (P c)). split; [done|]. destruct (hr_prefix _ _ _ _ _ Hr c) as [rest E].
  assert (rest = []) as ->; [|rewrite E, app_nil_r, !drop_ge; [done|lia|lia]].
  destruct rest as [|m rest]; [done|]. exfalso.
  assert (Hm : m ∈ pending P R c) by (unfold pending; rewrite E, drop_app_length; left).
  pose proof (sender_opened _ _ _ _ _ Ha Hr c m (pending_elem _ _ _ _ Hm)) as Ho.
  pose proof (proj1 (hr_watermark _ _ _ _ _ Hr) c m Ho Hm) as Hlt.
  rewrite Forall_forall in Hk. specialize (Hk m). cbn in Hk. assert (Hin : m ∈ take k (R c)); [|specialize (Hk Hin); lia].
  rewrite E, take_app_ge by lia. apply elem_of_app. right. destruct (k - length (P c))%nat eqn:Ek; [lia|left].
Qed.

(** The handler of horizontal messages returns for the messages of the inherent,
    with and without downward messages before. *)
Definition responsive wo (messages : Abridged InboundDownwardMessage (HashedMessage H) *
    Abridged (ParaId * InboundHrmpMessage) (ParaId * HashedMessage H)) st : Prop :=
  forall w, w = InboundWorld st \/ (exists ms, w = dmp_handle_messages ms (InboundWorld st)) ->
    is_Some (xcmp_message_handler (flat_msgs_iter messages.2) (default reserved_xcmp_weight wo) w).

Lemma honest_accepted n Rd R channels st Pd P n' Rd' R' channels' k q created remaining wo :
  in_step n Rd R channels st Pd P -> advances n Rd R n' Rd' R' channels' ->
  (k <= length Pd)%nat -> relayed q R' (InboundWatermark st) ->
  0 <= max_block_pov <= umax 64 -> 0 <= remaining <= created ->
  let messages := do_create_inherent created n (drop k Rd') q st in
  short_inherent messages -> responsive wo messages st ->
  is_Some (enqueue_inbound_messages remaining (dmq_head Rd') channels' n' wo messages st) /\
  (full_messages messages.2 = [] -> forall c, pending (carry channels' P) R' c = []).
Proof.
  intros Hs Hadv Hk Hq Hpov Hrem. cbv zeta.
  destruct (dmp_advances _ _ _ _ _ _ _ _ _ _ _ Hs Hadv) as [Hd Hdsent].
  destruct (hrmp_advances _ _ _ _ _ _ _ _ _ _ _ Hs Hadv) as [Hh Hhsent].
  assert (Hlim : 0 <= messages_collection_size_limit remaining <= messages_collection_size_limit created /\
    messages_collection_size_limit created < umax 64).
  { unfold messages_collection_size_limit, umax in *. assert (max_block_pov / 6 < 2 ^ 64 - 1) by (apply Z.div_lt_upper_bound; lia).
    assert (0 <= max_block_pov / 6) by (apply Z.div_pos; lia). lia. }
  unfold do_create_inherent. set (limit := messages_collection_size_limit created) in *. cbv zeta.
  destruct (into_abridged (drop_processed_messages _ _) limit) as [dm left] eqn:Edm.
  assert (Hl0 : 0 <= limit) by lia.
  destruct (into_abridged _ (saturating_add 64 left limit)) as [hm left'] eqn:Ehm. intros [Hlen _] Hresp. unfold responsive in Hresp. cbn [fst snd] in *.
  destruct (dmp_accepted _ _ _ _ _ _ _ _ Hd Hlen Hk Hl0 Edm) as (w1 & st1 & rest & _ & Hleft & _ & Hrun1 & Hdp).
  assert (Hl1 : 0 <= saturating_add 64 left limit) by (unfold saturating_add, umax; lia).
  assert (Hl2 : messages_collection_size_limit remaining <= saturating_add 64 left limit) by (unfold saturating_add, umax in *; lia).
  assert (Hl3 : messages_collection_size_limit remaining < umax 64) by lia.
  pose proof (relayed_sees _ _ _ _ _ _ (adv_channels _ _ _ _ _ _ _ Hadv) Hh Hq) as Hsees.
  assert (HB := hrmp_dropped (H := H) n (LastProcessedHrmpMessage st) _ _ q (hr_prefix _ _ _ _ _ Hh) (hr_sorted _ _ _ _ _ Hh) (hr_last _ _ _ _ _ Hh) Hsees).
  cbv zeta in HB. destruct (dmp_other _ _ _ _ _ Hdp) as (E1 & E2 & E3). split.
  - unfold enqueue_inbound_messages. cbn [fst snd]. rewrite Hrun1. cbn [mbind option_bind].
    destruct (hrmp_accepted channels' n n' st1 (carry channels' P) R' (adv_channels _ _ _ _ _ _ _ Hadv) (hrmp_ready_same _ _ _ st1 _ _ E1 E2 E3 Hh)
      (adv_heads _ _ _ _ _ _ _ Hadv) (adv_fits _ _ _ _ _ _ _ Hadv) _ hm remaining _ _ wo HB Hl2 Hl1 Hl3 Ehm) as [[w2 st2] ->]; [|by eexists].
    apply Hresp. rewrite (dmp_world _ _ _ _ _ Hdp). destruct (full_messages dm); eauto.
  - intros E c. apply into_abridged_spec in Ehm as (rest' & EB & _ & Hne & _); [|lia]. rewrite <- (proj2 HB), (Hne E). done.
Qed.

(** ** Properties *)

(** C13: Whatever a collator provides, [enqueue_inbound_downward_messages] panics or
    takes exactly the next downward messages: with the stored head that of the
    processed messages [Pd] and the expected head that of all messages [Rd] of the
    relay chain, the full messages follow [Pd] in [Rd], the hashed ones are the rest,
    at least one is taken unless there are none, the queue gets the full ones that
    are not too long, in order, and head, count and last processed message are
    stored. *)
Theorem downward_messages_in_order st Pd Rd full hashed weight st' :
  LastDmqMqcHead st = dmq_head Pd -> zlen full + zlen hashed < 2 ^ 32 ->
  enqueue_inbound_downward_messages (dmq_head Rd) (mkAbridged full hashed) st = Some (weight, st') ->
  exists rest, Rd = Pd ++ full ++ rest /\ hashed = hashed_downward <$> rest /\ (Rd <> Pd -> full <> []) /\
    LastDmqMqcHead st' = dmq_head (Pd ++ full) /\ ProcessedDownwardMessages st' = zlen full /\
    LastProcessedDownwardMessage st' =
      match last full with
      | Some m => Some (mkId (dm_sent_at m) (sent_in (dm_sent_at m) rest))
      | None => LastProcessedDownwardMessage st
      end /\
    InboundWorld st' = match full with
      | [] => InboundWorld st
      | _ => dmp_handle_messages (filter (fun msg => zlen msg <= DmpMaxMessageLen) (dm_msg <$> full)) (InboundWorld st)
      end.
Proof.
  intros Hh Hlen Hrun. destruct (enqueue_downward_spec _ _ _ _ _ _ _ Hh Hlen Hrun) as (rest & -> & -> & Hne & [D1 D2 D3 D4 _]).
  exists rest. split_and!; [done|done| |done..]. intros HRP ->. apply HRP. cbn in *.
  destruct rest; [apply app_nil_r|]. by exfalso; apply Hne.
Qed.

(** C12: Whatever a collator provides, [enqueue_inbound_horizontal_messages] panics
    or is right: the full messages are in the order of blocks and senders, and the
    ones the handler processed are, channel by channel, the next ones of the relay
    chain's queue; the stored heads are those of the processed messages; no pending
    message of an open channel is below the new watermark; and if the collator
    provides no messages, none is pending. *)
Theorem horizontal_messages_in_order channels st P R full hashed remaining relay_parent wo weight st' :
  ascending channels -> heads_of channels P st -> relay_heads channels R -> after_block channels (InboundWatermark st) P R ->
  enqueue_inbound_horizontal_messages remaining channels (mkAbridged full hashed) relay_parent wo st = Some (weight, st') ->
  exists k, let P' := advance P (take k full) in
    (forall c, opened channels c -> P' c `prefix_of` R c /\ head_of (LastHrmpMqcHeads st') c = hrmp_head (P' c)) /\
    after_block channels (InboundWatermark st') P' R /\
    StronglySorted (fun a b => metadata_le a b = true) (key <$> full) /\
    (if decide (full = []) then InboundWorld st' = InboundWorld st /\ forall c, opened channels c -> R c = P c
     else exists n used,
       xcmp_message_handler (flat_msgs_iter (mkAbridged full hashed)) (default reserved_xcmp_weight wo) (InboundWorld st) =
         Some (n, used, InboundWorld st') /\ k = Z.to_nat (Z.min n (zlen full))).
Proof.
  intros Ha HP HR Hafter Hrun. destruct (decide (full = [])) as [->|Hne].
  - destruct (enqueue_no_horizontal channels Ha st P R _ _ _ _ _ _ HP HR Hrun) as ([B1 B2 _ B4 _ _] & Heq & _ & Hw & _).
    exists 0%nat. cbn [take]. split_and!; [auto|auto|constructor|done|done].
  - destruct (enqueue_some_horizontal channels Ha st P R _ _ _ _ _ _ _ HP HR Hne Hrun) as (n & used & p & p' & Hh & Hrest).
    cbv zeta in Hrest. set (k := Z.to_nat (Z.min n (zlen full))) in *. destruct Hrest as (HL & [B1 B2 _ B4 _ _] & _).
    exists k. cbv zeta. split_and!; [auto|auto| |eauto].
    pose proof (looped_order _ _ _ _ _ _ _ _ HL) as Hord. rewrite app_assoc, <- fmap_app, take_drop, fmap_app in Hord.
    apply ordered_from_app in Hord as [Hord _]. rewrite <- list_fmap_compose in Hord. by apply ordered_strong in Hord.
Qed.

(** C3: Along a chain of blocks by any collators the watermark is safe: every block
    extends the processed messages of each queue, in order; its watermark does not
    fall below the one before nor rise above the relay parent; and it stays below
    all messages that are pending, so that the relay chain, which deletes messages
    up to the watermark, deletes processed ones only. *)
Theorem watermark_safe n Rd R channels st n' Rd' R' channels' remaining wo messages weight st' :
  chain n Rd R channels st -> advances n Rd R n' Rd' R' channels' -> short_inherent messages ->
  enqueue_inbound_messages remaining (dmq_head Rd') channels' n' wo messages st = Some (weight, st') ->
  exists Pd P k, let Pd' := Pd ++ full_messages messages.1 in
    let P' := advance (carry channels' P) (take k (full_messages messages.2)) in
    (LastDmqMqcHead st = dmq_head Pd /\ forall c, opened channels c -> head_of (LastHrmpMqcHeads st) c = hrmp_head (P c)) /\
    (LastDmqMqcHead st' = dmq_head Pd' /\ forall c, opened channels' c -> head_of (LastHrmpMqcHeads st') c = hrmp_head (P' c)) /\
    Pd' `prefix_of` Rd' /\ (forall c, P' c `prefix_of` R' c) /\
    InboundWatermark st <= InboundWatermark st' <= n' /\
    forall c m, opened channels' c -> m ∈ pending P' R' c -> InboundWatermark st' < hm_sent_at m.
Proof.
  intros Hc Hadv Hshort Hrun. destruct (chain_in_step _ _ _ _ _ Hc) as (Pd & P & Hs).
  destruct (block_in_step _ _ _ _ _ _ _ _ _ _ _ _ _ _ _ _ Hs Hadv Hshort Hrun) as (k & [[S1 [D1 D2 _ _] [R1 _ R3 _ _ [R6 R7]] _ _ _] Hw _] & _).
  exists Pd, P, k. cbv zeta. split_and!; try done; try apply Hs; lia.
Qed.

(** C2: An honest collator is never stuck: after a chain of blocks by any
    collators, and whatever the relay chain enqueued since, the messages that
    [do_create_inherent] selects from the relay chain's queues are accepted by the
    next block, which processes at least one message of every kind that is
    pending. *)
Theorem honest_block_accepted n Rd R channels st n' Rd' R' channels' :
  chain n Rd R channels st -> advances n Rd R n' Rd' R' channels' ->
  0 <= max_block_pov <= umax 64 ->
  exists Pd P, LastDmqMqcHead st = dmq_head Pd /\
    (forall c, opened channels c -> head_of (LastHrmpMqcHeads st) c = hrmp_head (P c)) /\
    forall k q created remaining wo,
      (k <= length Pd)%nat -> relayed q R' (InboundWatermark st) -> 0 <= remaining <= created ->
      let messages := do_create_inherent created n (drop k Rd') q st in
      short_inherent messages -> responsive wo messages st ->
      exists weight st' taken,
        enqueue_inbound_messages remaining (dmq_head Rd') channels' n' wo messages st = Some (weight, st') /\
        took Pd P Rd' R' channels' st (full_messages messages.1) taken n' st' /\
        ((exists c, pending (carry channels' P) R' c <> []) -> taken <> []).
Proof.
  intros Hc Hadv Hpov. destruct (chain_in_step _ _ _ _ _ Hc) as (Pd & P & Hs).
  exists Pd, P. split_and!; [apply Hs|apply Hs|]. intros k q created remaining wo Hk Hq Hrem messages Hshort Hresp.
  destruct (honest_accepted _ _ _ _ _ _ _ _ _ _ _ k q created remaining wo Hs Hadv Hk Hq) as [[[weight st'] Hrun] Hprog]; [done..|].
  destruct (block_in_step _ _ _ _ _ _ _ _ _ _ _ _ _ _ _ _ Hs Hadv Hshort Hrun) as (j & Ht & Hj).
  eexists weight, st', _. split_and!; [done|exact Ht|]. intros [c Hne] E. apply Hne, Hprog.
  fold messages. destruct (full_messages messages.2) as [|m l] eqn:Ef; [done|]. destruct j; [|done]. specialize (Hj ltac:(done)). lia.
Qed.
End chain.

(** ** Witnesses

    With hashes that are the data itself, a handler that leaves the last page
    unprocessed when there are several, and a relay chain with two channels. *)

Inductive FreeHash : Set :=
| NoHash
| DataHash (data : bytes)
| LinkHash (prev : FreeHash) (sent_at : Z) (data : FreeHash).

#[local] Instance FreeHash_eq_dec : EqDecision FreeHash.
Proof. solve_decision. Defined.

#[local] Instance free_hash : MqcHash FreeHash := {| default_hash := NoHash; hash_msg_data := DataHash; hash_link := LinkHash |}.

#[local] Instance free_hash_laws : MqcHashLaws FreeHash.
Proof. split; [by intros ? ? [=]|by intros * [= -> -> ->]|done]. Qed.

#[local] Instance demo_handlers : InboundHandlers (list bytes) := {|
  dmp_handle_messages ms w := w ++ ms;
  DmpMaxMessageLen := 100;
  xcmp_message_handler pages _ w :=
    let n := Z.max 1 (zlen pages - 1) in
    Some (n, WeightV2.zero, w ++ (snd <$> take (Z.to_nat n) pages));
  reserved_xcmp_weight := WeightV2.zero;
  w_enqueue_inbound_downward_messages _ := WeightV2.zero;
  inbound_db_weight := {| Fees.read := 0; Fees.write := 0 |};
  max_block_pov := 60;
|}.

#[local] Instance demo_advances : HandlerAdvances (list bytes).
Proof. intros pages max_weight w k used w' _ _ [= <- _ _]. lia. Qed.

Definition demo_genesis : Inbound FreeHash (list bytes) := mkInbound NoHash ∅ 0 None 0 None [] [].
Definition demo_dmq : list InboundDownwardMessage := [mkDownward 2 [x01]; mkDownward 3 [x02]; mkDownward 3 [x03; x04]].
Definition demo_seven : list InboundHrmpMessage := [mkHrmp 2 [x07]; mkHrmp 4 [x08; x08]; mkHrmp 4 [x09]].
Definition demo_nine : list InboundHrmpMessage := [mkHrmp 3 [x0a]].
Definition demo_hrmp (c : ParaId) : list InboundHrmpMessage := if c =? 7 then demo_seven else if c =? 9 then demo_nine else [].
Definition demo_channels : list (ParaId * IngressChannel FreeHash) :=
  [(7, mkIngress 16 (Some (hrmp_head demo_seven))); (9, mkIngress 16 (Some (hrmp_head demo_nine)))].
Definition demo_seen : gmap ParaId (list InboundHrmpMessage) := {[7 := demo_seven; 9 := demo_nine]}.

Lemma demo_opened c : opened demo_channels c -> c = 7 \/ c = 9.
Proof. intros [ch Hin]. unfold demo_channels in Hin. rewrite !elem_of_cons in Hin. destruct Hin as [[= -> _]|[[= -> _]|Hin]]; [auto..|]. by apply not_elem_of_nil in Hin. Qed.

Lemma demo_ascending : ascending demo_channels.
Proof. intros [|[|i]] [|[|j]] x y Hij Hx Hy; cbn in *; try lia; simplify_eq; cbn; lia. Qed.

Lemma demo_heads : relay_heads demo_channels demo_hrmp.
Proof.
  intros c ch Hin. unfold demo_channels in Hin. rewrite !elem_of_cons in Hin. destruct Hin as [[= -> ->]|[[= -> ->]|Hin]]; [done..|].
  by apply not_elem_of_nil in Hin.
Qed.

Lemma demo_step : advances 0 [] (fun _ => []) 5 demo_dmq demo_hrmp demo_channels.
Proof.
  split; [lia| |apply demo_ascending| | |apply demo_heads|].
  - exists demo_dmq. split_and!; [done|by repeat constructor|by repeat constructor].
  - intros c Hc. unfold demo_hrmp. destruct (Z.eqb_spec c 7) as [->|_]; [|destruct (Z.eqb_spec c 9) as [->|_]; [|done]];
      destruct Hc; eexists; unfold demo_channels; [left|right; left].
  - intros c Hc. exists (demo_hrmp c). apply demo_opened in Hc as [->| ->]; (split_and!; [done|by repeat constructor|by repeat constructor]).
  - intros c ch m Hin Hm. unfold demo_channels in Hin. rewrite !elem_of_cons in Hin.
    destruct Hin as [[= -> ->]|[[= -> ->]|Hin]]; [| |by apply not_elem_of_nil in Hin]; cbn in Hm; unfold demo_seven, demo_nine in Hm;
      rewrite !elem_of_cons in Hm; repeat destruct Hm as [->|Hm]; try (by apply not_elem_of_nil in Hm); unfold zlen; cbn; lia.
Qed.

Lemma demo_chain : chain 0 [] (fun _ => []) [] demo_genesis.
Proof. by apply chain_genesis. Qed.

Definition demo_taken : Inbound FreeHash (list bytes) := mkInbound (dmq_head (take 1 demo_dmq)) ∅ 0 None 0 None [] [].
Definition demo_second : list InboundDownwardMessage := [mkDownward 3 [x02]].
Definition demo_third : list (HashedMessage FreeHash) := [hashed_downward (mkDownward 3 [x03; x04])].

Lemma demo_some {A : Type} (x : option A) : (if x is Some _ then true else false) = true -> exists a, x = Some a.
Proof. destruct x; eauto. done. Qed.

Lemma downward_messages_in_order_witness :
  exists rest, demo_dmq = take 1 demo_dmq ++ demo_second ++ rest.
Proof.
  destruct (demo_some (enqueue_inbound_downward_messages (dmq_head demo_dmq) (mkAbridged demo_second demo_third) demo_taken)) as [[weight st'] E].
  { vm_compute. reflexivity. }
  assert (Hlen : zlen demo_second + zlen demo_third < 2 ^ 32) by (vm_compute; reflexivity).
  assert (Hhead : LastDmqMqcHead demo_taken = dmq_head (take 1 demo_dmq)) by reflexivity.
  destruct (downward_messages_in_order demo_taken (take 1 demo_dmq) demo_dmq demo_second demo_third weight st' Hhead Hlen E) as (rest & Hr & _).
  by exists rest.
Defined.

Definition demo_full : list (ParaId * InboundHrmpMessage) := [(7, mkHrmp 2 [x07]); (9, mkHrmp 3 [x0a]); (7, mkHrmp 4 [x08; x08])].
Definition demo_hashed : list (ParaId * HashedMessage FreeHash) := [(7, hashed_hrmp (mkHrmp 4 [x09]))].

Lemma horizontal_messages_in_order_witness :
  exists k (st' : Inbound FreeHash (list bytes)), forall c, opened demo_channels c ->
    advance (fun _ => []) (take k demo_full) c `prefix_of` demo_hrmp c /\
    head_of (LastHrmpMqcHeads st') c = hrmp_head (advance (fun _ => []) (take k demo_full) c).
Proof.
  destruct (demo_some (enqueue_inbound_horizontal_messages 10 demo_channels (mkAbridged demo_full demo_hashed) 5 None demo_genesis)) as [[weight st'] E].
  { vm_compute. reflexivity. }
  assert (Hafter : after_block demo_channels (InboundWatermark demo_genesis) (fun _ => []) demo_hrmp).
  { intros c m [->| ->]%demo_opened Hm; cbn in Hm; unfold pending, demo_seven, demo_nine in Hm; cbn in Hm;
      rewrite !elem_of_cons in Hm; repeat destruct Hm as [->|Hm]; try (by apply not_elem_of_nil in Hm); cbn; lia. }
  assert (Hheads : heads_of demo_channels (fun _ => []) demo_genesis) by by intros c _.
  destruct (horizontal_messages_in_order demo_channels demo_genesis (fun _ => []) demo_hrmp demo_full demo_hashed 10 5 None weight st'
    demo_ascending Hheads demo_heads Hafter E) as (k & Hk & _). by exists k, st'.
Defined.

Definition demo_messages := do_create_inherent (H := FreeHash) (W := list bytes) 10 0 demo_dmq demo_seen demo_genesis.

Lemma watermark_safe_witness :
  exists weight st', enqueue_inbound_messages 10 (dmq_head demo_dmq) demo_channels 5 None demo_messages demo_genesis = Some (weight, st') /\
    0 <= InboundWatermark st' <= 5.
Proof.
  destruct (demo_some (enqueue_inbound_messages 10 (dmq_head demo_dmq) demo_channels 5 None demo_messages demo_genesis)) as [[weight st'] E].
  { vm_compute. reflexivity. }
  assert (Hshort : short_inherent demo_messages) by (split; vm_compute; reflexivity).
  destruct (watermark_safe 0 [] (fun _ => []) [] demo_genesis 5 demo_dmq demo_hrmp demo_channels 10 None demo_messages weight st'
    demo_chain demo_step Hshort E) as (Pd & P & k & _ & _ & _ & _ & Hw & _).
  exists weight, st'. split; [exact E|exact Hw].
Defined.

Lemma honest_block_accepted_witness :
  exists weight st', enqueue_inbound_messages 10 (dmq_head demo_dmq) demo_channels 5 None demo_messages demo_genesis = Some (weight, st').
Proof.
  assert (Hshort : short_inherent demo_messages) by (split; vm_compute; reflexivity).
  assert (Hpov : 0 <= max_block_pov <= umax 64) by (split; vm_compute; discriminate).
  assert (Hseen : relayed demo_seen demo_hrmp (InboundWatermark demo_genesis)).
  { intros c. exists 0%nat. split; [|constructor]. unfold demo_seen, demo_hrmp.
    destruct (Z.eqb_spec c 7) as [->|H7]; [done|]. destruct (Z.eqb_spec c 9) as [->|H9]; [done|].
    by rewrite lookup_insert_ne, lookup_singleton_ne by done. }
  destruct (honest_block_accepted 0 [] (fun _ => []) [] demo_genesis 5 demo_dmq demo_hrmp demo_channels demo_chain demo_step Hpov) as (Pd & P & _ & _ & Hnext).
  assert (Hresp : responsive None demo_messages demo_genesis) by (intros w _; by eexists).
  destruct (Hnext 0%nat demo_seen 10 10 None) as (weight & st' & taken & E & _); [lia|done|lia|exact Hshort|exact Hresp|]. by exists weight, st'.
Defined.
