(* ===== verification/InherentXcmp.v ===== *)
(** * From the relay chain to the message queue

    The parachain system with the XCMP queue as its handler of horizontal
    messages, as runtimes configure it: the pages that count as processed are
    those the XCMP queue went through, and what it took of them went to the queues
    of their senders. *)

From stdpp Require Import base option numbers list gmap sorting.
From Stdlib Require Import ZArith Lia.
From Stdlib Require Import Strings.Byte.
From S2P Require Import Prelude Codec Traits Weights MqPage MessageQueue MqRing MqInv MqService MqFootprint.
From S2P Require Import Segment ParaSystem XcmpQueue XcmpQueueProofs XcmpInbound XcmpInboundProofs XcmpMq XcmpPath.
From S2P Require Import Search Inherent InherentProofs InherentCreate InherentPath InherentChain.
Local Open Scope Z_scope.

Section composed.
Context {H W : Type} `{EqDecision H} `{!MqcHash H, !MqcHashLaws H}.
Context `{XcmpWeightInfo} {C : CompactCodec} {CL : CompactLaws C} `{QueueBounds, !InboundConfig W, !DecoderLaws W, !SinkLaws W}.
Context (dmp : list bytes -> W -> W) (max_len : Z) (reserved : WeightV2.Weight) (w_dmp : Z -> WeightV2.Weight)
  (db : Fees.RuntimeDbWeight) (pov : Z).

(** The pages as [handle_xcmp_messages] takes them. *)
Definition pages_in (pages : list (ParaId * Z * bytes)) : list (ParaId * bytes) := (fun '(sender, _, data) => (sender, data)) <$> pages.

(** [type XcmpMessageHandler = XcmpQueue]. *)
Definition xcmp_handlers : InboundHandlers W := {|
  dmp_handle_messages := dmp;
  DmpMaxMessageLen := max_len;
  xcmp_message_handler pages max_weight w := handle_xcmp_messages (pages_in pages) max_weight w;
  reserved_xcmp_weight := reserved;
  w_enqueue_inbound_downward_messages := w_dmp;
  inbound_db_weight := db;
  max_block_pov := pov;
|}.
#[local] Existing Instance xcmp_handlers.

Definition page_of (m : ParaId * InboundHrmpMessage) : ParaId * bytes := (m.1, hm_data m.2).

Lemma pages_in_flat (a : Abridged (ParaId * InboundHrmpMessage) (ParaId * HashedMessage H)) :
  pages_in (flat_msgs_iter a) = page_of <$> full_messages a.
Proof. unfold pages_in, flat_msgs_iter. rewrite <- list_fmap_compose. apply list_fmap_ext. by intros ? [? ?] ?. Qed.

(** C6: From the relay chain to the queues: with the XCMP queue as the handler, a
    block that is accepted, whoever made it, takes the next pages of every channel.
    The pages that the XCMP queue went through are the ones the next block resumes
    behind; provided that transaction layers can be opened, at least the first
    page is among them.  Of each such page a prefix of its messages goes, in
    order, to the queue of the sender: all of them, unless it is the first page,
    which cannot be left and may lose messages, or a batch would exceed the drop
    threshold.  Of the other pages no message goes to a queue. *)
Theorem accepted_pages_are_enqueued channels (st st' : Inbound H W) P R full hashed remaining relay_parent wo weight :
  ascending channels -> heads_of channels P st -> relay_heads channels R ->
  sink_ok (InboundWorld st) -> is_uint 32 (threshold (InboundWorld st)) -> rooms (InboundWorld st) (page_of <$> full) ->
  zlen full <= umax 64 -> (forall w : W, transaction_available w = true) ->
  enqueue_inbound_horizontal_messages remaining channels (mkAbridged full hashed) relay_parent wo st = Some (weight, st') ->
  exists takens, (full <> [] -> takens <> []) /\ (length takens <= length full)%nat /\
    pages_run false (InboundWorld st) (page_of <$> full) takens (InboundWorld st') /\
    (forall c, opened channels c -> let P' := advance P (take (length takens) full) c in
      P' `prefix_of` R c /\ head_of (LastHrmpMqcHeads st') c = hrmp_head P') /\
    forall id, sink_waiting id (InboundWorld st') = sink_waiting id (InboundWorld st) ++ taken_of id (page_of <$> full) takens.
Proof.
  intros Ha HP HR Hok Hlim Hrooms Hlen Hav Hrun. destruct (decide (full = [])) as [->|Hne].
  - destruct (enqueue_no_horizontal channels Ha st P R _ _ _ _ _ _ HP HR Hrun) as ([B1 B2 _ _ _ _] & _ & _ & -> & _).
    exists []. cbn. split_and!; [done|lia|constructor|auto|]. intros id. by rewrite app_nil_r.
  - destruct (enqueue_some_horizontal channels Ha st P R _ _ _ _ _ _ _ HP HR Hne Hrun) as (k & used & p & p' & Hh & Hrest).
    cbn [xcmp_message_handler xcmp_handlers] in Hh. rewrite pages_in_flat in Hh. cbn [full_messages] in Hh.
    unfold handle_xcmp_messages in Hh. set (pages := page_of <$> full) in *.
    assert (Hpl : length pages = length full) by apply length_fmap.
    edestruct (handle_pages_spec pages 0 ∅) as (meter' & w' & takens & E & Hpr); [done|done|done|lia|unfold zlen in *; lia|].
    rewrite E in Hh. cbn in Hh. injection Hh as <- _ <-. rewrite Z.add_0_l in Hrest.
    destruct (run_effect _ _ _ _ _ Hpr Hok) as (_ & _ & Htl & _ & Hall).
    replace (Z.to_nat (Z.min (zlen takens) (zlen full))) with (length takens) in Hrest by (unfold zlen; lia).
    cbv zeta in Hrest. destruct Hrest as (_ & [B1 B2 _ _ _ _] & _). exists takens. split_and!; [|lia|done|intros c Hc; split; [by apply B1|by apply B2]|intros id; apply Hall].
    intros _ ->. inversion Hpr as [? ? E1|? ? ? ? ? ? ? Hor|]; subst; [by destruct full|].
    destruct Hor as [?|[w1 Hw1]]; [done|]. by rewrite Hav in Hw1.
Qed.
End composed.

(** *** The first page is always processed *)

Section advancing.
Context {W : Type} `{XcmpWeightInfo} {C : CompactCodec} `{QueueBounds, !InboundConfig W}.
Hypothesis available : forall w : W, transaction_available w = true.

Lemma signals_round_ok sender state r meter (w : W) : signals_round sender false state = inr (r, meter, w) -> r = Ok tt.
Proof using Type. destruct state as [[[n data] m] w0]. unfold signals_round. repeat case_match; intros; by simplify_eq. Qed.

Lemma xcms_round_ok sender encoding state r meter (w : W) : xcms_round sender encoding false state = inr (Some (r, meter, w)) -> r = Ok tt.
Proof using Type.
  destruct state as [[[data first] m] w0]. unfold xcms_round. rewrite ?andb_false_r.
  repeat (case_match; rewrite ?andb_false_r in * ); intros; by simplify_eq.
Qed.

Lemma xcms_page_ok sender encoding data known meter (w : W) r x w' :
  handle_xcms_page sender encoding data known meter false w = Some (r, x, w') -> r = Ok tt.
Proof using available.
  unfold handle_xcms_page, transactional. rewrite available. intros ([[r0 x0] w0] & Hbody & [= <- _ _])%bind_Some.
  destruct (if negb _ then _ else _) as [m [[]|e|]]; [|by simplify_eq..].
  destruct (loop _ _ _) as [s1|[[[r1 m1] w1]|]] eqn:Hl; [done| |done].
  pose proof (loop_result (fun o => match o with Some (r, _, _) => r = Ok tt | None => True end) _
    (fun s o Ho => match o as o0 return (xcms_round sender encoding false s = inr o0 -> match o0 with Some (r, _, _) => r = Ok tt | None => True end)
      with Some (r, m, w) => fun E => xcms_round_ok sender encoding s r m w E | None => fun _ => I end Ho) _ _ _ Hl) as Hr.
  cbn in Hr. subst r1. by simplify_eq.
Qed.

Lemma signals_page_ok sender data meter (w : W) r x w' : handle_signals_page sender data meter false w = Some (r, x, w') -> r = Ok tt.
Proof using available.
  unfold handle_signals_page, transactional. rewrite available. intros ([[r0 x0] w0] & Hbody & [= <- _ _])%bind_Some.
  destruct (loop _ _ _) as [s1|[[r1 m1] w1]] eqn:Hl; [done|]. injection Hbody as <- _ _.
  apply (loop_result (fun '(r, _, _) => r = Ok tt) _) in Hl; [done|]. intros s [[r2 m2] w2]. apply signals_round_ok.
Qed.

Lemma first_page_processed sender data known meter (w : W) processed known' meter' w' :
  handle_page sender data false known meter w = Some (processed, known', meter', w') -> processed = true.
Proof using available.
  unfold handle_page. destruct (decode_format data) as [[]|]; try (by intros [= <- _ _ _]).
  - intros ([[r [k m]] w1] & ->%xcms_page_ok & [= <- _ _ _])%bind_Some. done.
  - intros ([[r m] w1] & ->%signals_page_ok & [= <- _ _ _])%bind_Some. done.
  - intros ([[r [k m]] w1] & ->%xcms_page_ok & [= <- _ _ _])%bind_Some. done.
Qed.

Lemma handle_pages_count pages : forall num known meter (w : W) n meter' w',
  0 <= num -> num + zlen pages <= umax 64 -> handle_pages pages num known meter w = Some (n, meter', w') -> num <= n.
Proof using Type.
  induction pages as [|[sender data] pages IH]; intros num known meter w n meter' w' Hnum Hmax; cbn [handle_pages].
  { intros [= <- _ _]. lia. }
  intros ([[[b k] m] w1] & _ & Hrun)%bind_Some. unfold zlen in *. cbn [length] in Hmax. destruct b; [|by injection Hrun as <- _ _].
  rewrite wrapping_id in Hrun by (unfold is_uint; lia). apply IH in Hrun; lia.
Qed.

(** The XCMP queue keeps the promise of [HandlerAdvances]. *)
Lemma xcmp_advances dmp max_len reserved w_dmp db pov : HandlerAdvances W (H := xcmp_handlers dmp max_len reserved w_dmp db pov).
Proof using available.
  intros pages max_weight w k used w' Hne Hlen Hrun. cbn in Hrun. unfold handle_xcmp_messages in Hrun.
  apply bind_Some in Hrun as ([[n m] w1] & Hrun & [= <- _ _]). destruct pages as [|[[sender at_] data] pages]; [done|].
  unfold zlen in Hlen. cbn [length] in Hlen. cbn [pages_in fmap list_fmap handle_pages] in Hrun. change (0 <? 0) with false in Hrun.
  apply bind_Some in Hrun as ([[[b known] meter] w2] & ->%first_page_processed & Hrun).
  apply handle_pages_count in Hrun; [done|by vm_compute|]. rewrite wrapping_id by (by vm_compute).
  unfold zlen. rewrite length_fmap. unfold umax. lia.
Qed.
End advancing.

(** ** Witness

    The receiving chain of [XcmpPath], with the hashes of [InherentChain]. *)
#[local] Existing Instances path_codec path_heap path_codec_laws path_bounds substrate_weights path_mq path_inbound path_decoder path_sink.
#[local] Existing Instances FreeHash_eq_dec free_hash free_hash_laws.

#[local] Instance queue_handlers : InboundHandlers World :=
  xcmp_handlers (fun _ w => w) 100 path_limit (fun _ => WeightV2.zero) {| Fees.read := 0; Fees.write := 0 |} 60.

#[local] Instance queue_handlers_advance : HandlerAdvances World.
Proof. by apply xcmp_advances. Qed.

Definition queue_full : list (ParaId * InboundHrmpMessage) := Eval vm_compute in
  (fun '(n, (sender, page)) => (sender, mkHrmp n page)) <$> zip [2; 3; 3] path_pages.
Definition queue_hrmp (c : ParaId) : list InboundHrmpMessage := from_sender c queue_full.
Definition queue_channels : list (ParaId * IngressChannel FreeHash) :=
  [(1000, mkIngress 16 (Some (hrmp_head (queue_hrmp 1000)))); (1001, mkIngress 16 (Some (hrmp_head (queue_hrmp 1001))))].
Definition queue_genesis : Inbound FreeHash World := mkInbound NoHash ∅ 0 None 0 None [] path_start.

Lemma queue_ascending : ascending queue_channels.
Proof. intros [|[|i]] [|[|j]] x y Hij Hx Hy; cbn in *; try lia; simplify_eq; cbn; lia. Qed.

Lemma queue_heads : relay_heads queue_channels queue_hrmp.
Proof.
  intros c ch Hin. unfold queue_channels in Hin. rewrite !elem_of_cons in Hin. destruct Hin as [[= -> ->]|[[= -> ->]|Hin]]; [done..|].
  by apply not_elem_of_nil in Hin.
Qed.

Lemma accepted_pages_are_enqueued_witness :
  exists takens (st' : Inbound FreeHash World), takens <> [] /\
    waiting (Sibling 1000) (InboundWorld st') = taken_of 1000 path_pages takens.
Proof.
  assert (Hlim : is_uint 32 (threshold (W := World) path_start)) by by vm_compute.
  assert (Hlen : zlen queue_full <= umax 64) by by vm_compute.
  destruct (demo_some (enqueue_inbound_horizontal_messages 10 queue_channels (mkAbridged queue_full []) 5 None queue_genesis)) as [[weight st'] E].
  { vm_compute. reflexivity. }
  assert (Hheads : heads_of queue_channels (fun _ => []) queue_genesis) by by intros c _.
  destruct (accepted_pages_are_enqueued (W := World) (fun _ w => w) 100 path_limit (fun _ => WeightV2.zero)
    {| Fees.read := 0; Fees.write := 0 |} 60 queue_channels queue_genesis st' (fun _ => []) queue_hrmp queue_full [] 10 5 None weight
    queue_ascending Hheads queue_heads path_start_ok Hlim path_rooms Hlen (fun _ => eq_refl) E) as (takens & Hne & _ & _ & _ & Hall).
  exists takens, st'. split; [by apply Hne|exact (Hall 1000)].
Defined.
